(* ===== verification/_CoqProject ===== *)
-Q . S2P
Prelude.v
Bytes.v
Services.v
Limits.v
Types.v
State.v
Grants.v
UnitTests.v
Hash.v
Submission.v
Db.v
Schema.v
Events.v
Ledger.v
Ancestry.v
Budget.v
Spending.v
Admission.v
Scheduler.v
Slots.v
System.v
Guarantees.v
Progress.v
Ipc.v
Abi.v
Guest.v
Validate.v
Engine.v
Supervisor.v
Supervision.v
Reaper.v
Runner.v
Session.v
Dialogue.v
Joint.v
Process.v
Auth.v
Config.v
GrantRequest.v
Api.v
GrantsApi.v
LeaseApi.v
Isolation.v
Views.v
Control.v
Plane.v
Server.v
