(* ===== verification/Prelude.v ===== *)
(** * EffectLatch: a verification development

    EffectLatch runs untrusted WebAssembly modules that may create tickets in
    outside services.  A control plane stores tenants, grants and runs in
    PostgreSQL and leases runs to workers; a worker's supervisor runs each module
    in a child process, and a broker performs the effects the module asks for,
    each at most once and within the budget of a chain of grants.  This library
    models the Rust code under [src/crates] and proves what makes it safe.

    ** The parts and their files

    Foundations.  [Prelude]: results, transactions ([Tx]: no state when it
    fails), computations that keep their state when they return early ([Act]),
    machine integers, generic lemmas, tactics and hint databases.  [Bytes]: bytes,
    UTF-8 text, the JSON text the store writes.  [Services]: SHA-256, UUIDs and
    base64, as classes with their documented laws and a [Reference] instance.

    The domain, [crates/domain/src].  [Limits] (lib.rs): runtime limits.  [Types]
    (types.rs): effect requests and run submissions; [Submission]: what
    normalization accepts.  [State] (state.rs): the run and effect state machines.
    [Grants] (grants.rs): authorities, chains, reservation plans.  [Hash]
    (hash.rs): the exact preimages of every digest.

    The store, [crates/store/src].  [Db]: the tables of [src/migrations], their
    constraints and the statements on them.  [Events] (append_event), [Ledger]
    (grants and reservations), [Admission] (put_module, admit_run) and [Scheduler]
    (scheduler.rs) hold the transactions, one definition each, with every guard
    and statement in order; a clock reading and a fresh identifier are arguments.
    [Ancestry] and [Budget] carry the invariant of the ledger, [Slots] that of
    runs, leases and slots; [Spending], [Guarantees] and [Progress] hold the
    properties of grants, of the scheduler's safety and of its progress.
    [System] is the store as a transition system: [store_commit] is one committed
    transaction with the state it held its locks in, [store_step] one with any,
    [reachable] the databases some history of a fresh installation leads to.  [environment] there stands for the broker's and the cancellation
    interface's writes, which are not part of the repository.  [Schema]
    (Store::connect, migrate, check_schema): opening the store, and the gate that
    compares its migrations with the program's.

    The runtime, [crates/runtime/src]. [Ipc] (ipc.rs): frames, their codec and the
    parent's sequence. [Abi] (abi.rs): the five host functions over a guest memory
    and a broker that are classes; [Guest]: what any guest can do with them.
    [Validate] (validate.rs): which modules implement the ABI. [Engine]
    (engine.rs), with its watchdog as a step relation. [Supervisor]
    (supervisor.rs): a supervised run over a list of ticks, one per iteration,
    that hold what the system, the clock, the broker and the threads answered; its
    variables ([Loop]) keep what it did to the others, the bytes written to the
    child and the requests handed to the broker.  [Supervision]: its outcome and
    its end. [Reaper]: the permits and cleanup of
    runner processes, as a step relation over any interleaving of threads;
    [Process]: spawning and signalling them, and the reaper thread's rounds.
    [Runner] (bin/effectlatch-runner.rs): the child. [Session], [Dialogue],
    [Joint]: both ends composed over the command line and the pipes, at last as
    two processes that step in any interleaving over pipes of bytes.

    The control plane, [crates/control/src].  [Auth] (auth.rs): principals and
    credentials.  [Config] (config.rs).  [GrantRequest] and [GrantsApi]
    (grants/mod.rs), [Api] (api/mod.rs), [LeaseApi] (scheduler/mod.rs): the
    handlers, which call the store's transactions through [store_call] and may
    lose the acknowledgement of a commit.  [Isolation]: whose rows a transaction
    writes; [Views]: whose rows it reads.  [Control]: routing and authentication;
    [Plane]: the properties of the control plane as a whole.  [Server] (server.rs,
    bin/effectlatchd.rs): the probes, connections, and the daemon from its
    arguments to its exit status.  [UnitTests]: the domain's own tests, replayed.

    ** What the theorems show

    - The store: its invariant holds in every reachable database; a run is leased
      to one worker at a time, by epochs that only grow; a stale worker changes
      nothing; a run with an effect that may have happened is never requeued; the
      effects charged below a grant are as many as its counter says, within its
      budget; revocation is permanent; every history of a run refines the domain's state machine; slots
      and queues stay within their limits; admission is idempotent; the event log
      is tamper-evident; a scheduler that is called makes progress, fairly; only a
      database with the program's own schema is served.
    - The runtime: a guest stays within its caps and writes nothing but its own
      memory, whatever it calls; an effect commits in order and at most once per
      ordinal; the runner speaks exactly the language the parent accepts; a
      supervised run succeeds only by one accepted conversation, which is all it
      read, wrote and asked its broker, under a lease that was current, before its
      deadline, and every supervision ends; the two composed, the runner starts
      with what its supervisor was given, is refused only for a text that is too
      long, neither waits for the other for ever, and a success reports what its
      guest did and dispatched; a watchdog interrupts a guest in time and leaves
      nothing behind; runner processes are bounded, killed by their own group and
      reaped, and the cleanup queue never overflows; only modules with the ABI's
      surface pass.
    - The control plane: a request commits at most one transaction, one its
      credential permits; no request touches another tenant's rows, and no answer
      but a claim's depends on them (a submission also learns whether the shared
      queue is full); serving and sweeping only make histories of the store, so
      the invariants above hold of the running system; a submission whose reply
      was lost can be retried; an accepted configuration reaches the parts that
      use it unchanged and is never refused by them.

    Security claims that rest on SHA-256 are stated without assuming it has no
    collisions: a violation would exhibit two given inputs that collide.

    ** Parameters, bounds and fuel

    Code outside the repository is a parameter: SHA-256, UUID and base64 text,
    serde_json, toml, the URI and RFC 3339 parsers, wasmparser, Wasmtime and the
    guest's memory, rustix's pids, PostgreSQL's timestamp functions, HTTP header text.  The laws
    assumed of them are classes next to them ([Sha256Laws], [PgTimeLaws], ...),
    each with an instance on which the witnesses evaluate.  Integers are [Z] with
    the bounds of their type written out where the code checks or wraps.  Clocks are
    any readings; [clock_ok] and [PgTimeLaws] bound them by the year 2223, below
    which a double holds every millisecond exactly enough.  Recursive queries have
    fuel for one more round than there are grants, and a round never visits a
    grant twice, so it never runs out.  The supervisor's loop is total on any list
    of ticks, and [supervision_ends] shows that enough ticks always end it.

    Transactions are atomic steps: those that take the scheduler's advisory lock
    are serialized by it; those that lock overlapping grant chains root first are
    serialized by those locks; [reap_one] reads its candidate before it locks the
    row, and what may commit in between is an argument of it.

    ** What is not modelled

    The pool, the driver and the files of migrations, and Wasmtime with the
    options its engine is created with, which only tell the definitions what they
    found; the checkpoints table and columns no operation reads; sockets, timers
    and signals; axum's routing and extractors, which give the handlers their
    arguments; the text of log lines and of error messages' Display. *)

From stdpp Require Export base gmap sets list strings sorting pretty.
From Stdlib Require Export ZArith Lia.
From Stdlib Require Import Strings.Byte.
#[global] Set Warnings "-clear-no-such-hyp".

(** ** Results: [Result<A, E>] of the Rust code *)

Inductive result (E A : Type) : Type :=
  | Ok (a : A)
  | Err (e : E).
Arguments Ok {E A} a.
Arguments Err {E A} e.

#[global] Instance result_eq_dec {E A} `{EqDecision E} `{EqDecision A} :
  EqDecision (result E A).
Proof. solve_decision. Defined.

#[global] Instance result_ret {E} : MRet (result E) := λ A a, Ok a.
#[global] Instance result_bind {E} : MBind (result E) := λ A B f m,
  match m with Ok a => f a | Err e => Err e end.
#[global] Instance result_fmap {E} : FMap (result E) := λ A B f m,
  match m with Ok a => Ok (f a) | Err e => Err e end.

(** [if cond { return Err(e) }] *)
Definition fail_if {E} (cond : bool) (e : E) : result E unit :=
  if cond then Err e else Ok ().

(** [opt.ok_or(e)] *)
Definition ok_or {E A} (o : option A) (e : E) : result E A :=
  match o with Some a => Ok a | None => Err e end.

(** [r.map_err(f)] *)
Definition map_err {E F A} (f : E → F) (r : result E A) : result F A :=
  match r with Ok a => Ok a | Err e => Err (f e) end.

Definition is_ok {E A} (r : result E A) : bool :=
  match r with Ok _ => true | Err _ => false end.

(** ** Transactions

    A store operation reads and writes a state [S] and may fail with [E].  A
    failing transaction yields no state: dropping an uncommitted transaction
    rolls it back, so the caller keeps the state it started from. *)

Definition Tx (S E A : Type) : Type := S → result E (A * S).

#[global] Instance tx_ret {S E} : MRet (Tx S E) := λ A a s, Ok (a, s).
#[global] Instance tx_bind {S E} : MBind (Tx S E) := λ A B f m s,
  match m s with Ok (a, s') => f a s' | Err e => Err e end.

Definition tx_lift {S E A} (r : result E A) : Tx S E A := λ s,
  match r with Ok a => Ok (a, s) | Err e => Err e end.
Definition tx_gets {S E A} (f : S → A) : Tx S E A := λ s, Ok (f s, s).
(** A read that may fail. *)
Definition tx_query {S E A} (f : S → result E A) : Tx S E A := λ s,
  match f s with Ok a => Ok (a, s) | Err e => Err e end.
Definition tx_modify {S E} (f : S → S) : Tx S E unit := λ s, Ok ((), f s).
Definition tx_fail {S E A} (e : E) : Tx S E A := λ _, Err e.
Definition tx_fail_if {S E} (cond : bool) (e : E) : Tx S E unit :=
  tx_lift (fail_if cond e).
Definition tx_ok_or {S E A} (o : option A) (e : E) : Tx S E A :=
  tx_lift (ok_or o e).

(** Running an operation: the state after it, unchanged when it failed. *)
Definition tx_state {S E A} (m : Tx S E A) (s : S) : S :=
  match m s with Ok (_, s') => s' | Err _ => s end.
Definition tx_result {S E A} (m : Tx S E A) (s : S) : result E A :=
  match m s with Ok (a, _) => Ok a | Err e => Err e end.

Create HintDb effectlatch.
Create Rewrite HintDb effectlatch.

Section result_lemmas.
Context {E A B : Type}.

Lemma bind_Ok (m : result E A) (f : A → result E B) b :
  m ≫= f = Ok b ↔ ∃ a, m = Ok a ∧ f a = Ok b.
Proof. destruct m; simpl; naive_solver. Qed.

Lemma bind_Err (m : result E A) (f : A → result E B) e :
  m ≫= f = Err e ↔ m = Err e ∨ ∃ a, m = Ok a ∧ f a = Err e.
Proof. destruct m; simpl; naive_solver. Qed.

Lemma fail_if_Ok (c : bool) (e : E) u : fail_if c e = Ok u ↔ c = false.
Proof. destruct c, u; simpl; naive_solver. Qed.

Lemma fail_if_Err (c : bool) (e e' : E) : fail_if c e = Err e' ↔ c = true ∧ e = e'.
Proof. destruct c; simpl; naive_solver. Qed.

Lemma ok_or_Ok (o : option A) (e : E) a : ok_or o e = Ok a ↔ o = Some a.
Proof. destruct o; simpl; naive_solver. Qed.

Lemma ok_or_Err (o : option A) (e e' : E) : ok_or o e = Err e' ↔ o = None ∧ e = e'.
Proof. destruct o; simpl; naive_solver. Qed.

Lemma map_err_Ok {F} (f : E → F) (r : result E A) a : map_err f r = Ok a ↔ r = Ok a.
Proof. destruct r; simpl; naive_solver. Qed.

Lemma map_err_Err {F} (f : E → F) (r : result E A) e :
  map_err f r = Err e ↔ ∃ e', r = Err e' ∧ e = f e'.
Proof. destruct r; simpl; naive_solver. Qed.

(** Sequencing after a step without a value, and after a guard. *)
Lemma seq_Ok (m : result E unit) (k : unit → result E B) b :
  m ≫= k = Ok b ↔ m = Ok () ∧ k () = Ok b.
Proof. destruct m as [[]|e]; simpl; naive_solver. Qed.

Lemma guard_Ok (c : bool) (e : E) (k : unit → result E B) b :
  fail_if c e ≫= k = Ok b ↔ c = false ∧ k () = Ok b.
Proof. destruct c; simpl; naive_solver. Qed.

Lemma guard_Err (c : bool) (e : E) (k : unit → result E B) e' :
  fail_if c e ≫= k = Err e' ↔ (c = true ∧ e = e') ∨ (c = false ∧ k () = Err e').
Proof. destruct c; simpl; naive_solver. Qed.
End result_lemmas.

Section tx_lemmas.
Context {S E : Type}.
Implicit Types (s : S).

Lemma tx_bind_Ok {A B} (m : Tx S E A) (f : A → Tx S E B) s b s'' :
  (m ≫= f) s = Ok (b, s'') ↔ ∃ a s', m s = Ok (a, s') ∧ f a s' = Ok (b, s'').
Proof.
  unfold mbind, tx_bind. destruct (m s) as [[a s']|e]; naive_solver.
Qed.

Lemma tx_bind_Err {A B} (m : Tx S E A) (f : A → Tx S E B) s e :
  (m ≫= f) s = Err e ↔ m s = Err e ∨ ∃ a s', m s = Ok (a, s') ∧ f a s' = Err e.
Proof.
  unfold mbind, tx_bind. destruct (m s) as [[a s']|e']; naive_solver.
Qed.

Lemma tx_lift_Ok {A} (r : result E A) s a s' :
  tx_lift r s = Ok (a, s') ↔ r = Ok a ∧ s' = s.
Proof. unfold tx_lift. destruct r; naive_solver. Qed.

Lemma tx_ret_Ok {A} (a b : A) s s' :
  (mret a : Tx S E A) s = Ok (b, s') ↔ b = a ∧ s' = s.
Proof. unfold mret, tx_ret. naive_solver. Qed.

Lemma tx_gets_Ok {A} (f : S → A) s a s' :
  (tx_gets f : Tx S E A) s = Ok (a, s') ↔ a = f s ∧ s' = s.
Proof. unfold tx_gets. naive_solver. Qed.

Lemma tx_query_Ok {A} (f : S → result E A) s a s' :
  tx_query f s = Ok (a, s') ↔ f s = Ok a ∧ s' = s.
Proof. unfold tx_query. destruct (f s); naive_solver. Qed.

Lemma tx_modify_Ok (f : S → S) s u s' :
  (tx_modify f : Tx S E unit) s = Ok (u, s') ↔ s' = f s.
Proof. unfold tx_modify. destruct u; naive_solver. Qed.

Lemma tx_fail_if_Ok (c : bool) (e : E) s u s' :
  (tx_fail_if c e : Tx S E unit) s = Ok (u, s') ↔ c = false ∧ s' = s.
Proof. unfold tx_fail_if. rewrite tx_lift_Ok, fail_if_Ok. done. Qed.

Lemma tx_ok_or_Ok {A} (o : option A) (e : E) s a s' :
  (tx_ok_or o e : Tx S E A) s = Ok (a, s') ↔ o = Some a ∧ s' = s.
Proof. unfold tx_ok_or. rewrite tx_lift_Ok, ok_or_Ok. done. Qed.

Lemma tx_state_Ok {A} (m : Tx S E A) s a s' : m s = Ok (a, s') → tx_state m s = s'.
Proof. unfold tx_state. by intros ->. Qed.

Lemma tx_fail_if_Err (c : bool) (e : E) s :
  c = true → (tx_fail_if c e : Tx S E unit) s = Err e.
Proof. by intros ->. Qed.

Lemma tx_bind_run {A B} (m : Tx S E A) (f : A → Tx S E B) s a s' :
  m s = Ok (a, s') → (m ≫= f) s = f a s'.
Proof. unfold mbind, tx_bind. by intros ->. Qed.

Lemma tx_bind_stop {A B} (m : Tx S E A) (f : A → Tx S E B) s e :
  m s = Err e → (m ≫= f) s = Err e.
Proof. unfold mbind, tx_bind. by intros ->. Qed.

Lemma tx_state_Err {A} (m : Tx S E A) s e : m s = Err e → tx_state m s = s.
Proof. unfold tx_state. by intros ->. Qed.
End tx_lemmas.

#[global] Hint Rewrite @bind_Ok @bind_Err @fail_if_Ok @fail_if_Err @ok_or_Ok
  @ok_or_Err @map_err_Ok @map_err_Err : effectlatch.

(** [inv_ok] takes every hypothesis that says a monadic computation succeeded
    apart into the successes of its steps. *)
Ltac inv_ok_step :=
  match goal with
  | H : Ok _ = Ok _ |- _ => injection H as H; try subst
  | H : Err _ = Err _ |- _ => injection H as H; try subst
  | H : Ok _ = Err _ |- _ => discriminate H
  | H : Err _ = Ok _ |- _ => discriminate H
  | H : mret _ = Ok _ |- _ => injection H as H; try subst
  | H : _ ≫= _ = Ok _ |- _ => apply bind_Ok in H
  | H : (_ ≫= _) _ = Ok (_, _) |- _ => apply tx_bind_Ok in H
  | H : fail_if _ _ = Ok _ |- _ => apply fail_if_Ok in H
  | H : ok_or _ _ = Ok _ |- _ => apply ok_or_Ok in H
  | H : map_err _ _ = Ok _ |- _ => apply map_err_Ok in H
  | H : tx_fail_if _ _ _ = Ok (_, _) |- _ => apply tx_fail_if_Ok in H
  | H : tx_ok_or _ _ _ = Ok (_, _) |- _ => apply tx_ok_or_Ok in H
  | H : tx_lift _ _ = Ok (_, _) |- _ => apply tx_lift_Ok in H
  | H : tx_gets _ _ = Ok (_, _) |- _ => apply tx_gets_Ok in H
  | H : tx_modify _ _ = Ok (_, _) |- _ => apply tx_modify_Ok in H
  | H : tx_query _ _ = Ok (_, _) |- _ => apply tx_query_Ok in H
  | H : mret _ _ = Ok (_, _) |- _ => apply tx_ret_Ok in H
  | H : tx_fail _ _ = Ok _ |- _ => discriminate H
  | H : ∃ _, _ |- _ => destruct H as [? H]
  | H : _ ∧ _ |- _ => destruct H
  | H : (_, _) = (_, _) |- _ => injection H as H; try subst
  | u : unit |- _ => destruct u
  end.
Ltac inv_ok := repeat (inv_ok_step; simplify_eq).

(** ** Stateful code that keeps its state when it fails

    A method on [&mut self] that returns early leaves behind what it changed so
    far.  [act_spec] is its triple: from a state with [P], a value leaves [Q]
    and an early return leaves [R]. *)

Definition Act (S E A : Type) : Type := S → result E A * S.

#[global] Instance act_ret {S E} : MRet (Act S E) := λ A a s, (Ok a, s).
#[global] Instance act_bind {S E} : MBind (Act S E) := λ A B f m s,
  match m s with (Ok a, s') => f a s' | (Err e, s') => (Err e, s') end.

Definition act_lift {S E A} (r : result E A) : Act S E A := λ s, (r, s).
Definition act_gets {S E A} (f : S → A) : Act S E A := λ s, (Ok (f s), s).
Definition act_modify {S E} (f : S → S) : Act S E unit := λ s, (Ok (), f s).
Definition act_stop {S E A} (f : S → S) (e : E) : Act S E A := λ s, (Err e, f s).

Definition act_spec {S E A} (P : S → Prop) (m : Act S E A) (Q : A → S → Prop)
    (R : E → S → Prop) : Prop :=
  ∀ s, P s → match m s with (Ok a, s') => Q a s' | (Err e, s') => R e s' end.

Section act_lemmas.
Context {S E : Type}.

Lemma act_bind_run {A B} (m : Act S E A) (f : A → Act S E B) s a s' :
  m s = (Ok a, s') → (m ≫= f) s = f a s'.
Proof. unfold mbind, act_bind. by intros ->. Qed.

Lemma act_bind_stop {A B} (m : Act S E A) (f : A → Act S E B) s e s' :
  m s = (Err e, s') → (m ≫= f) s = (Err e, s').
Proof. unfold mbind, act_bind. by intros ->. Qed.

Lemma act_spec_bind {A B} P (m : Act S E A) Q' (f : A → Act S E B) Q R :
  act_spec P m Q' R → (∀ a, act_spec (Q' a) (f a) Q R) → act_spec P (m ≫= f) Q R.
Proof.
  intros Hm Hf s Hs. specialize (Hm s Hs). unfold mbind, act_bind.
  destruct (m s) as [[a|e] s']; [by apply Hf|done].
Qed.

Lemma act_spec_ret {A} (P : S → Prop) (a : A) (Q : A → S → Prop) (R : E → S → Prop) :
  (∀ s, P s → Q a s) → act_spec P (mret a) Q R.
Proof. intros HQ s Hs. by apply HQ. Qed.

Lemma act_spec_lift {A} (P : S → Prop) (r : result E A) (Q : A → S → Prop) (R : E → S → Prop) :
  (∀ s a, P s → r = Ok a → Q a s) → (∀ s e, P s → r = Err e → R e s) →
  act_spec P (act_lift r) Q R.
Proof. intros HQ HR s Hs. simpl. destruct r; auto. Qed.

Lemma act_spec_gets {A} (P : S → Prop) (f : S → A) (Q : A → S → Prop) (R : E → S → Prop) :
  (∀ s, P s → Q (f s) s) → act_spec P (act_gets f) Q R.
Proof. intros HQ s Hs. by apply HQ. Qed.

Lemma act_spec_modify (P : S → Prop) (f : S → S) (Q : unit → S → Prop) (R : E → S → Prop) :
  (∀ s, P s → Q () (f s)) → act_spec P (act_modify f) Q R.
Proof. intros HQ s Hs. by apply HQ. Qed.

Lemma act_spec_stop {A} (P : S → Prop) (f : S → S) e (Q : A → S → Prop) (R : E → S → Prop) :
  (∀ s, P s → R e (f s)) → act_spec P (act_stop f e) Q R.
Proof. intros HR s Hs. by apply HR. Qed.

Lemma act_spec_weaken {A} (P P' : S → Prop) (m : Act S E A) Q Q' R R' :
  act_spec P' m Q' R' → (∀ s, P s → P' s) → (∀ a s, Q' a s → Q a s) →
  (∀ e s, R' e s → R e s) → act_spec P m Q R.
Proof.
  intros Hm HP HQ HR s Hs. specialize (Hm s (HP s Hs)). destruct (m s) as [[a|e] s']; auto.
Qed.
End act_lemmas.

(** [tx_step] runs the first statement of a transaction that must succeed; its
    success is the first goal left. *)
Ltac tx_step :=
  match goal with
  | |- (_ ≫= _) _ = Ok _ => 
    apply tx_bind_Ok; first [exists (); eexists | eexists _, _]; split
  end.

(** [tx_run] replaces a transaction by what is left of it after its first
    statement, whose success is the first goal left. *)
Ltac tx_run :=
  etrans; [eapply tx_bind_run;
    match goal with |- _ = Ok (?a, _) => first [unify a tt|idtac] end|cbn beta].

(** Boolean conditions of the code, read as propositions. *)
Create Rewrite HintDb bools.
#[global] Hint Rewrite orb_false_iff orb_true_iff andb_true_iff andb_false_iff
  negb_true_iff negb_false_iff bool_decide_eq_true bool_decide_eq_false
  Z.ltb_lt Z.ltb_ge Z.leb_le Z.leb_gt Z.eqb_eq Z.eqb_neq : bools.
Ltac bools := autorewrite with bools in *; destruct_and?.
Ltac case_bool b :=
  let H := fresh "Hb" in destruct b eqn:H; autorewrite with bools in H.

(** ** Machine integers

    An integer of the code is a [Z]; its type's bounds are these constants and
    its checked operations return [None] where the Rust ones do. *)
#[global] Open Scope Z_scope.

Definition u8_max : Z := 255.
Definition u32_max : Z := 4294967295.
Definition u64_max : Z := 18446744073709551615.
Definition i32_max : Z := 2147483647.
Definition i64_max : Z := 9223372036854775807.
Definition i64_min : Z := -9223372036854775808.

Definition in_range (lo hi z : Z) : bool := (lo <=? z) && (z <=? hi).
Abbreviation is_u8 := (in_range 0 u8_max).
Abbreviation is_u32 := (in_range 0 u32_max).
Abbreviation is_u64 := (in_range 0 u64_max).
Abbreviation is_i32 := (in_range (-2147483648) i32_max).
Abbreviation is_i64 := (in_range i64_min i64_max).

(** A value brought into a type's range, or [None] ([checked_*], [try_from]). *)
Definition checked (lo hi z : Z) : option Z := if in_range lo hi z then Some z else None.
Definition checked_u64 : Z → option Z := checked 0 u64_max.
Definition checked_i64 : Z → option Z := checked i64_min i64_max.
Definition checked_u8 : Z → option Z := checked 0 u8_max.
Definition saturating_u64 (z : Z) : Z := Z.max 0 (Z.min u64_max z).
Definition saturating_u32 (z : Z) : Z := Z.max 0 (Z.min u32_max z).

Lemma in_range_spec lo hi z : in_range lo hi z = true ↔ lo ≤ z ≤ hi.
Proof. unfold in_range. rewrite andb_true_iff, !Z.leb_le. done. Qed.

Lemma in_range_false lo hi z : in_range lo hi z = false ↔ z < lo ∨ hi < z.
Proof. unfold in_range. rewrite andb_false_iff, !Z.leb_gt. lia. Qed.

Lemma checked_Some lo hi z z' : checked lo hi z = Some z' ↔ lo ≤ z ≤ hi ∧ z' = z.
Proof.
  unfold checked. case_bool (in_range lo hi z).
  - apply in_range_spec in Hb. naive_solver.
  - apply in_range_false in Hb. split; [done | lia].
Qed.

#[global] Hint Rewrite in_range_spec in_range_false : bools.

(** ** Loops with early return

    [for x in l { body(x)?; }] *)
Fixpoint for_each {E A} (body : A → result E unit) (l : list A) : result E unit :=
  match l with
  | [] => Ok ()
  | x :: l => body x ≫= λ _, for_each body l
  end.

(** [l.iter().map(f).collect::<Result<Vec<_>, _>>()] *)
Fixpoint try_map {E A B} (f : A → result E B) (l : list A) : result E (list B) :=
  match l with
  | [] => Ok []
  | x :: l => y ← f x; ys ← try_map f l; mret (y :: ys)
  end.

(** The same loops inside a transaction. *)
Fixpoint tx_for_each {S E A} (body : A → Tx S E unit) (l : list A) : Tx S E unit :=
  match l with
  | [] => mret ()
  | x :: l => body x ≫= λ _, tx_for_each body l
  end.

Section loops.
Context {E A : Type}.

Lemma for_each_Ok (body : A → result E unit) l u :
  for_each body l = Ok u ↔ Forall (λ x, body x = Ok ()) l.
Proof.
  destruct u. induction l as [|x l IH]; cbn [for_each]; [by split|].
  rewrite bind_Ok, Forall_cons, <-IH. split.
  - intros ([] & ? & ?). done.
  - intros [? ?]. eauto.
Qed.

(** The error of a loop is the error of the first element that fails. *)
Lemma for_each_Err (body : A → result E unit) l e :
  for_each body l = Err e ↔
  ∃ l1 x l2, l = l1 ++ x :: l2 ∧ Forall (λ x, body x = Ok ()) l1 ∧ body x = Err e.
Proof.
  induction l as [|x l IH]; cbn [for_each].
  { split; [done|]. intros (l1 & x & l2 & Hl & _). by destruct l1. }
  rewrite bind_Err. setoid_rewrite IH. split.
  - intros [Hx|([] & Hx & l1 & y & l2 & -> & ? & ?)].
    + exists [], x, l. auto.
    + exists (x :: l1), y, l2. auto using Forall_cons_2.
  - intros (l1 & y & l2 & Hl & Hl1 & Hy). destruct l1 as [|z l1]; simplify_eq/=.
    + by left.
    + apply Forall_cons_1 in Hl1 as [Hz Hl1]. right. exists (). naive_solver.
Qed.

Lemma try_map_Ok {B} (f : A → result E B) l l' :
  try_map f l = Ok l' ↔ Forall2 (λ x y, f x = Ok y) l l'.
Proof.
  revert l'. induction l as [|x l IH]; intros l'; cbn [try_map].
  - split; [intros [= <-]; constructor|]. by intros ->%Forall2_nil_inv_l.
  - rewrite bind_Ok. split.
    + intros (y & Hy & H). apply bind_Ok in H as (ys & Hys & H).
      injection H as <-. constructor; [done|]. by apply IH.
    + intros H. apply Forall2_cons_inv_l in H as (y & ys & Hy & Hys & ->).
      exists y. split; [done|]. apply bind_Ok. exists ys. by rewrite IH.
Qed.

(** A loop whose body succeeds with [h x] exactly on the elements with [P]. *)
Lemma try_map_functional {B} (f : A → result E B) (P : A → Prop) (h : A → B) l l' :
  (∀ x, x ∈ l → ∀ y, f x = Ok y ↔ P x ∧ y = h x) →
  try_map f l = Ok l' ↔ Forall P l ∧ l' = h <$> l.
Proof.
  intros Hf. rewrite try_map_Ok. split.
  - intros Hall. induction Hall as [|x y l l' Hy Hall IH]; [done|].
    apply Hf in Hy as [Hx ->]; [|by left]. destruct IH as [? ->].
    { intros z Hz. apply Hf. by right. }
    split; [by constructor|done].
  - intros [Hall ->]. induction Hall as [|x l Hx Hall IH]; [constructor|].
    constructor; [by apply Hf; [left|]|]. apply IH. intros z Hz. apply Hf. by right.
Qed.
End loops.

(** ** Queries over a table

    A table is a finite map from its primary key to its row; a condition reads
    both. *)

Section queries.
Context `{Countable K} {A : Type} (P : K * A → Prop) `{∀ kv, Decision (P kv)}.
Implicit Types (m : gmap K A).

(** [SELECT count] over the rows that satisfy [P] *)
Definition count_rows m : Z := Z.of_nat (size (filter P m)).
Definition count_one (k : K) (a : A) : Z := if decide (P (k, a)) then 1 else 0.

Lemma count_rows_nonneg m : 0 ≤ count_rows m.
Proof. unfold count_rows. lia. Qed.

Lemma count_rows_empty : count_rows ∅ = 0.
Proof. unfold count_rows. by rewrite map_filter_empty, map_size_empty. Qed.

Lemma count_rows_insert_None m k a :
  m !! k = None → count_rows (<[k:=a]> m) = count_rows m + count_one k a.
Proof.
  intros Hk. unfold count_rows, count_one. destruct (decide (P (k, a))) as [Ha|Ha].
  - rewrite map_filter_insert_True by done.
    rewrite map_size_insert_None; [lia|]. apply map_lookup_filter_None. auto.
  - rewrite map_filter_insert_False by done. rewrite delete_id by done. lia.
Qed.

Lemma count_rows_insert m k a b :
  m !! k = Some b →
  count_rows (<[k:=a]> m) = count_rows m - count_one k b + count_one k a.
Proof.
  intros Hk. rewrite <-(insert_delete_id m k b Hk) at 2.
  rewrite <-(insert_delete_eq m k a).
  rewrite !count_rows_insert_None by apply lookup_delete_eq. lia.
Qed.

Lemma count_rows_pos m k a : m !! k = Some a → P (k, a) → 0 < count_rows m.
Proof.
  intros Hk Ha. rewrite <-(insert_delete_id m k a Hk).
  rewrite count_rows_insert_None by apply lookup_delete_eq.
  unfold count_one. rewrite decide_True by done.
  pose proof (count_rows_nonneg (delete k m)). lia.
Qed.

Lemma count_rows_zero m : (∀ k a, m !! k = Some a → ¬ P (k, a)) → count_rows m = 0.
Proof.
  intros HP. unfold count_rows. rewrite (proj2 (map_empty_filter _ m)); [done|].
  intros k a Hk. by apply (HP k).
Qed.

(** A row selected by a unique condition, or the first one met. *)
Definition select_first m : option (K * A) := head (filter P (map_to_list m)).

Lemma select_first_Some m k a :
  select_first m = Some (k, a) → m !! k = Some a ∧ P (k, a).
Proof.
  unfold select_first. intros Hhead.
  assert ((k, a) ∈ filter P (map_to_list m)) as Hin.
  { destruct (filter P (map_to_list m)); simplify_eq/=. by left. }
  apply list_elem_of_filter in Hin as [? Hin]. by apply elem_of_map_to_list in Hin.
Qed.

Lemma select_first_None m :
  select_first m = None → ∀ k a, m !! k = Some a → ¬ P (k, a).
Proof.
  unfold select_first. intros Hhead k a Hk HP.
  assert ((k, a) ∈ filter P (map_to_list m)) as Hin.
  { apply list_elem_of_filter. split; [done|]. by apply elem_of_map_to_list. }
  destruct (filter P (map_to_list m)); [|done]. by apply not_elem_of_nil in Hin.
Qed.

(** When [P] picks at most one row, it is found. *)
Lemma select_first_unique m k a :
  (∀ k' a', m !! k' = Some a' → P (k', a') → k' = k) →
  m !! k = Some a → P (k, a) → select_first m = Some (k, a).
Proof.
  intros Huniq Hk HP. destruct (select_first m) as [[k' a']|] eqn:Hsel.
  - apply select_first_Some in Hsel as [Hk' HP'].
    assert (k' = k) as -> by eauto. congruence.
  - by destruct (select_first_None m Hsel k a Hk).
Qed.
End queries.

(** Counting through an injection. *)
Lemma size_image_le `{Countable A, Countable B} (f : A → B) `{!Inj (=) (=) f}
    (X : gset A) (Y : gset B) :
  (∀ x, x ∈ X → f x ∈ Y) → (size X ≤ size Y)%nat.
Proof.
  intros HXY. transitivity (size (list_to_set (C:=gset B) (f <$> elements X))).
  - rewrite size_list_to_set, length_fmap; [done|]. apply NoDup_fmap_2; [done|].
    apply NoDup_elements.
  - apply subseteq_size. intros y (x & -> & Hx)%elem_of_list_to_set%list_elem_of_fmap.
    by apply HXY, elem_of_elements.
Qed.

(** [SELECT ... ORDER BY a, b LIMIT 1]: the least element for a pair of keys. *)
Definition lex_le (x y : Z * Z) : bool :=
  (x.1 <? y.1) || ((x.1 =? y.1) && (x.2 <=? y.2)).

Fixpoint min_by {A} (key : A → Z * Z) (l : list A) : option A :=
  match l with
  | [] => None
  | x :: l =>
    match min_by key l with
    | None => Some x
    | Some y => if lex_le (key x) (key y) then Some x else Some y
    end
  end.

Section min_by.
Context {A : Type} (key : A → Z * Z).

Lemma lex_le_refl x : lex_le x x = true.
Proof. unfold lex_le. bools. lia. Qed.
Lemma lex_le_trans x y z : lex_le x y = true → lex_le y z = true → lex_le x z = true.
Proof. unfold lex_le. intros. bools. lia. Qed.
Lemma lex_le_total x y : lex_le x y = false → lex_le y x = true.
Proof. unfold lex_le. intros. bools. lia. Qed.

Lemma min_by_Some l x :
  min_by key l = Some x → x ∈ l ∧ ∀ y, y ∈ l → lex_le (key x) (key y) = true.
Proof.
  revert x. induction l as [|z l IH]; intros x Hx; [done|]. simpl in Hx.
  destruct (min_by key l) as [y|] eqn:Hmin.
  - destruct (IH y eq_refl) as [Hy Hley].
    destruct (lex_le (key z) (key y)) eqn:Hle; simplify_eq.
    + split; [by left|]. intros w [->|Hw]%elem_of_cons; [apply lex_le_refl|].
      eapply lex_le_trans; [exact Hle|]. by apply Hley.
    + split; [by right|]. intros w [->|Hw]%elem_of_cons; [by apply lex_le_total|].
      by apply Hley.
  - simplify_eq. split; [by left|]. destruct l as [|y l].
    + intros w ->%list_elem_of_singleton. apply lex_le_refl.
    + simpl in Hmin. by repeat case_match.
Qed.

Lemma min_by_None l : min_by key l = None → l = [].
Proof. destruct l as [|x l]; [done|]. simpl. intros. by repeat case_match. Qed.
End min_by.

(** ** Sets built from lists *)
Section list_sets.
Context {A : Type} `{Countable A}.
Implicit Types l : list A.

Lemma size_list_to_set_le l : (size (list_to_set l : gset A) ≤ length l)%nat.
Proof.
  induction l as [|x l IH]; [exact (Nat.le_refl 0)|]. rewrite list_to_set_cons, size_union_alt.
  rewrite size_singleton. pose proof (subseteq_size (list_to_set l ∖ {[x]} : gset A)
    (list_to_set l) ltac:(set_solver)). simpl. lia.
Qed.

Lemma size_list_to_set_NoDup l :
  size (list_to_set l : gset A) = length l ↔ NoDup l.
Proof.
  split; [|apply size_list_to_set]. induction l as [|x l IH]; [constructor|].
  rewrite list_to_set_cons. cbn [length]. destruct (decide (x ∈ l)) as [Hx|Hx].
  - intros Hs. exfalso. pose proof (size_list_to_set_le l).
    assert ({[x]} ∪ list_to_set l = (list_to_set l : gset A)) as Heq by set_solver.
    rewrite Heq in Hs. lia.
  - intros Hs. constructor; [done|]. apply IH.
    rewrite size_union, size_singleton in Hs by set_solver. lia.
Qed.
End list_sets.
