(* ===== verification/Bytes.v ===== *)
(** * Bytes, big-endian integers and UTF-8 text

    A [Vec<u8>] or [&[u8]] of the code is a [list byte]; a [String] or [&str] is
    the [string] of its UTF-8 bytes, so [len] counts bytes and [chars().count()]
    counts the bytes that start a scalar value.  Only what the sources use of
    the Rust standard library is here. *)
From Stdlib Require Export Strings.Byte.
From S2P Require Export Prelude.

#[global] Instance byte_eq_dec : EqDecision byte := Byte.byte_eq_dec.
#[global] Instance byte_countable : Countable byte.
Proof.
  refine (inj_countable Byte.to_N Byte.of_N _).
  intros b. apply Byte.of_to_N.
Defined.

Definition byte_val (b : byte) : Z := Z.of_N (Byte.to_N b).

(** [z as u8]: truncation to the low eight bits. *)
Definition byte_of_Z (z : Z) : byte :=
  match Byte.of_N (Z.to_N (z mod 256)) with Some b => b | None => x00 end.

Lemma byte_val_range b : 0 ≤ byte_val b < 256.
Proof. unfold byte_val. pose proof (Byte.to_N_bounded b). lia. Qed.

Lemma byte_val_of_Z z : byte_val (byte_of_Z z) = z mod 256.
Proof.
  unfold byte_of_Z, byte_val.
  pose proof (Z.mod_pos_bound z 256 ltac:(lia)) as Hz.
  destruct (Byte.of_N (Z.to_N (z mod 256))) as [b|] eqn:Hb.
  - apply Byte.to_of_N in Hb. rewrite Hb, Z2N.id; lia.
  - apply Byte.of_N_None_iff in Hb. lia.
Qed.

#[global] Instance byte_val_inj : Inj (=) (=) byte_val.
Proof.
  intros a b Hab. unfold byte_val in Hab. apply N2Z.inj in Hab.
  pose proof (Byte.of_to_N a) as Ha. pose proof (Byte.of_to_N b) as Hb.
  rewrite Hab in Ha. congruence.
Qed.

Lemma byte_of_Z_val b : byte_of_Z (byte_val b) = b.
Proof.
  apply (inj byte_val). rewrite byte_val_of_Z.
  apply Z.mod_small, byte_val_range.
Qed.

(** ** Big-endian integers: [to_be_bytes] and [from_be_bytes] *)

Fixpoint be_bytes (n : nat) (z : Z) : list byte :=
  match n with
  | O => []
  | S n => byte_of_Z (z / 256 ^ Z.of_nat n) :: be_bytes n z
  end.

Definition be_value (l : list byte) : Z :=
  foldl (λ acc b, acc * 256 + byte_val b) 0 l.

Definition u64_be : Z → list byte := be_bytes 8.
Definition u32_be : Z → list byte := be_bytes 4.

Lemma length_be_bytes n z : length (be_bytes n z) = n.
Proof. induction n; simpl; congruence. Qed.

Lemma be_value_fold acc l :
  foldl (λ acc b, acc * 256 + byte_val b) acc l
  = acc * 256 ^ Z.of_nat (length l) + be_value l.
Proof.
  unfold be_value. revert acc. induction l as [|b l IH]; intros acc; simpl foldl.
  - simpl. lia.
  - rewrite IH, (IH (0 * 256 + _)). cbn [length].
    rewrite Nat2Z.inj_succ, Z.pow_succ_r by lia. lia.
Qed.

Lemma be_value_cons b l :
  be_value (b :: l) = byte_val b * 256 ^ Z.of_nat (length l) + be_value l.
Proof. unfold be_value at 1. simpl foldl. rewrite be_value_fold. lia. Qed.

Lemma be_value_range l : 0 ≤ be_value l < 256 ^ Z.of_nat (length l).
Proof.
  induction l as [|b l IH]; [done|].
  rewrite be_value_cons. cbn [length].
  rewrite Nat2Z.inj_succ, Z.pow_succ_r by lia.
  pose proof (byte_val_range b).
  revert IH. generalize (256 ^ Z.of_nat (length l)). intros p IH. nia.
Qed.

Lemma be_value_bytes n z : be_value (be_bytes n z) = z mod 256 ^ Z.of_nat n.
Proof.
  induction n as [|n IH]; [by rewrite Z.mod_1_r|].
  cbn [be_bytes]. rewrite be_value_cons, length_be_bytes, IH, byte_val_of_Z.
  rewrite Nat2Z.inj_succ, Z.pow_succ_r by lia.
  set (p := 256 ^ Z.of_nat n). assert (0 < p) by (apply Z.pow_pos_nonneg; lia).
  rewrite (Z.mul_comm 256 p), Z.rem_mul_r by lia. lia.
Qed.

Lemma be_bytes_inj n a b :
  0 ≤ a < 256 ^ Z.of_nat n → 0 ≤ b < 256 ^ Z.of_nat n →
  be_bytes n a = be_bytes n b → a = b.
Proof.
  intros Ha Hb Hab. apply (f_equal be_value) in Hab.
  rewrite !be_value_bytes, !Z.mod_small in Hab by done. done.
Qed.

Lemma be_bytes_add n v w :
  be_bytes n (v * 256 ^ Z.of_nat n + w) = be_bytes n w.
Proof.
  revert v. induction n as [|n IH]; intros v; [done|]. cbn [be_bytes].
  rewrite Nat2Z.inj_succ, Z.pow_succ_r by lia. f_equal.
  - assert (256 ^ Z.of_nat n ≠ 0) by (apply Z.pow_nonzero; lia).
    apply (inj byte_val). rewrite !byte_val_of_Z, Z.mul_assoc, Z.div_add_l by done.
    rewrite Z.add_comm. apply Z.mod_add. lia.
  - rewrite Z.mul_assoc. apply IH.
Qed.

Lemma be_bytes_value l : be_bytes (length l) (be_value l) = l.
Proof.
  induction l as [|b l IH]; [done|]. cbn [length be_bytes].
  rewrite be_value_cons, be_bytes_add, IH. f_equal.
  pose proof (be_value_range l) as Hl.
  rewrite Z.div_add_l, Z.div_small, Z.add_0_r by lia. apply byte_of_Z_val.
Qed.

(** ** Text *)

Definition bytes (s : string) : list byte := String.list_byte_of_string s.

#[global] Instance bytes_inj : Inj (=) (=) bytes.
Proof.
  intros s t Hst. apply (f_equal String.string_of_list_byte) in Hst.
  unfold bytes in Hst.
  by rewrite !String.string_of_list_byte_of_string in Hst.
Qed.

Definition text (l : list byte) : string := String.string_of_list_byte l.

Lemma bytes_text l : bytes (text l) = l.
Proof. apply String.list_byte_of_string_of_list_byte. Qed.

Lemma text_bytes s : text (bytes s) = s.
Proof. apply String.string_of_list_byte_of_string. Qed.

(** [s.len()] *)
Definition str_len (s : string) : Z := Z.of_nat (length (bytes s)).
Definition str_is_empty (s : string) : bool := bool_decide (s = ""%string).

Lemma str_len_nonneg s : 0 ≤ str_len s.
Proof. unfold str_len. lia. Qed.

(** A UTF-8 continuation byte, [0b10xxxxxx]. *)
Definition is_continuation (b : byte) : bool := Z.land (byte_val b) 192 =? 128.

(** [s.chars().count()] of a valid UTF-8 string. *)
Definition chars_count (s : string) : Z :=
  Z.of_nat (length (filter (λ b, is_continuation b = false) (bytes s))).

(** [String::from_utf8(bytes).is_ok()]: the well-formed sequences of the
    Unicode standard (no overlong form, no surrogate, nothing above 10FFFF). *)
Fixpoint utf8_valid (l : list byte) : bool :=
  match l with
  | [] => true
  | b0 :: l1 =>
    let v := byte_val b0 in
    if v <? 128 then utf8_valid l1
    else match l1 with
    | [] => false
    | b1 :: l2 =>
      if in_range 194 223 v then is_continuation b1 && utf8_valid l2
      else match l2 with
      | [] => false
      | b2 :: l3 =>
        if in_range 224 239 v then
          is_continuation b1 && is_continuation b2
          && negb ((v =? 224) && (byte_val b1 <? 160))
          && negb ((v =? 237) && (160 <=? byte_val b1))
          && utf8_valid l3
        else match l3 with
        | [] => false
        | b3 :: l4 =>
          in_range 240 244 v
          && is_continuation b1 && is_continuation b2 && is_continuation b3
          && negb ((v =? 240) && (byte_val b1 <? 144))
          && negb ((v =? 244) && (144 <=? byte_val b1))
          && utf8_valid l4
        end
      end
    end
  end.

(** [String::from_utf8] *)
Definition from_utf8 (l : list byte) : option string :=
  if utf8_valid l then Some (text l) else None.

Definition is_ascii_digit (b : byte) : bool := in_range 48 57 (byte_val b).
Definition is_ascii_uppercase (b : byte) : bool := in_range 65 90 (byte_val b).
Definition is_ascii_lowercase (b : byte) : bool := in_range 97 122 (byte_val b).
Definition is_ascii_alphanumeric (b : byte) : bool :=
  is_ascii_digit b || is_ascii_uppercase b || is_ascii_lowercase b.
(** [u8::is_ascii_graphic]: 0x21 to 0x7E. *)
Definition is_ascii_graphic (b : byte) : bool := in_range 33 126 (byte_val b).

(** The order of [Ord for str]: byte-wise lexicographic. *)
Fixpoint bytes_le (a b : list byte) : bool :=
  match a, b with
  | [], _ => true
  | _ :: _, [] => false
  | x :: a, y :: b =>
    (byte_val x <? byte_val y) || ((byte_val x =? byte_val y) && bytes_le a b)
  end.

Lemma bytes_le_total a b : bytes_le a b = true ∨ bytes_le b a = true.
Proof.
  revert b. induction a as [|x a IH]; intros [|y b]; simpl; auto.
  destruct (IH b); bools; destruct (Z.lt_total (byte_val x) (byte_val y)) as [|[|]];
    auto.
Qed.

(** A [BTreeSet<String>] is a [gset string]; iterating it visits the elements
    in increasing order. *)
Definition string_le (s t : string) : Prop := bytes_le (bytes s) (bytes t) = true.
#[global] Instance string_le_dec : RelDecision string_le.
Proof. intros s t. unfold string_le. apply _. Defined.
#[global] Instance string_le_total : Total string_le.
Proof. intros s t. apply bytes_le_total. Qed.

Definition sorted_elements (X : gset string) : list string :=
  merge_sort string_le (elements X).

Lemma sorted_elements_perm X : sorted_elements X ≡ₚ elements X.
Proof. apply merge_sort_Permutation. Qed.

Lemma elem_of_sorted_elements X s : s ∈ sorted_elements X ↔ s ∈ X.
Proof. rewrite sorted_elements_perm. apply elem_of_elements. Qed.

Lemma list_to_set_sorted_elements X : list_to_set (sorted_elements X) = X.
Proof. apply set_eq. intros s. by rewrite elem_of_list_to_set, elem_of_sorted_elements. Qed.

#[global] Instance sorted_elements_inj : Inj (=) (=) sorted_elements.
Proof.
  intros X Y HXY. apply set_eq. intros s.
  by rewrite <-!elem_of_sorted_elements, HXY.
Qed.

#[global] Hint Rewrite length_be_bytes byte_val_of_Z byte_of_Z_val be_value_bytes
  bytes_text text_bytes : effectlatch.

(** ** JSON text

    The event payloads the program writes: objects whose names and strings need
    no escapes. *)
Definition json_string (s : string) : list byte := x22 :: bytes s ++ [x22].
Definition json_field (name : string) (value : list byte) : list byte :=
  json_string name ++ x3a :: value.
Definition json_object (fields : list (list byte)) : list byte :=
  x7b :: foldr (λ field rest, match rest with [] => field | _ => field ++ x2c :: rest end)
           [] fields ++ [x7d].
Definition json_number (z : Z) : list byte := bytes (pretty z).
