(* ===== verification/Services.v ===== *)
(** * The services the program relies on

    Code that is not part of the repository: the [sha2], [uuid] and [base64]
    crates.  Each is a class of operations; a separate class states the
    documented laws the program relies on.  [Reference] gives a concrete
    instance of every class, on which witnesses evaluate. *)
From S2P Require Export Bytes.

(** A [Uuid] is a 128-bit value; [as_bytes] is its sixteen big-endian bytes, and
    [Ord] on it (and the [uuid] order of PostgreSQL) compares those bytes. *)
Abbreviation Uuid := Z.
Definition uuid_ok (u : Uuid) : Prop := 0 ≤ u < 256 ^ 16.
Definition uuid_as_bytes (u : Uuid) : list byte := be_bytes 16 u.

Class Sha256 := sha256 : list byte → list byte.
Class Sha256Laws `{Sha256} : Prop :=
  sha256_length : ∀ m, length (sha256 m) = 32%nat.

(** [Uuid::parse_str] and [Uuid::to_string]. *)
Class UuidText := {
  uuid_parse : string → option Uuid;
  uuid_to_string : Uuid → string;
}.
Class UuidTextLaws `{UuidText} : Prop := {
  uuid_parse_to_string : ∀ u, uuid_ok u → uuid_parse (uuid_to_string u) = Some u;
  uuid_parse_ok : ∀ s u, uuid_parse s = Some u → uuid_ok u;
}.

(** [STANDARD.encode] and [STANDARD.decode]. *)
Class Base64 := {
  b64_encode : list byte → string;
  b64_decode : string → option (list byte);
}.
Class Base64Laws `{Base64} : Prop := {
  b64_decode_encode : ∀ l, b64_decode (b64_encode l) = Some l;
  b64_encode_length : ∀ l,
    str_len (b64_encode l) = (Z.of_nat (length l) + 2) / 3 * 4;
}.

(** Two given inputs are distinct and have one digest. *)
Definition sha256_collides `{Sha256} (x y : list byte) : Prop :=
  x ≠ y ∧ sha256 x = sha256 y.

Module Reference.
#[global] Instance sha256_ref : Sha256 := λ m, be_bytes 32 (be_value m).
#[global] Instance sha256_ref_laws : Sha256Laws.
Proof. intros m. apply length_be_bytes. Qed.

#[global] Instance uuid_ref : UuidText := {|
  uuid_parse s :=
    if decide (length (bytes s) = 16%nat) then Some (be_value (bytes s)) else None;
  uuid_to_string u := text (be_bytes 16 u);
|}.
#[global] Instance uuid_ref_laws : UuidTextLaws.
Proof.
  split; cbn [uuid_to_string uuid_parse uuid_ref].
  - intros u Hu. rewrite bytes_text, length_be_bytes, decide_True, be_value_bytes by done.
    f_equal. by apply Z.mod_small.
  - intros s u. destruct (decide _) as [Hs|]; [|done]. intros [= <-].
    pose proof (be_value_range (bytes s)) as Hr. by rewrite Hs in Hr.
Qed.

(** Standard padded base64 (RFC 4648). *)
Definition b64_alphabet : list byte :=
  bytes "ABCDEFGHIJKLMNOPQRSTUVWXYZabcdefghijklmnopqrstuvwxyz0123456789+/".
Definition b64_char (i : Z) : byte := default x00 (b64_alphabet !! Z.to_nat i).
Definition b64_value (b : byte) : option Z :=
  (λ p, Z.of_nat p.1) <$> list_find (b =.) b64_alphabet.

Fixpoint b64_encode_bytes (l : list byte) : list byte :=
  match l with
  | [] => []
  | [a] =>
    let a := byte_val a in
    [b64_char (a / 4); b64_char (a mod 4 * 16); "="%byte; "="%byte]
  | [a; b] =>
    let a := byte_val a in let b := byte_val b in
    [b64_char (a / 4); b64_char (a mod 4 * 16 + b / 16); b64_char (b mod 16 * 4);
     "="%byte]
  | a :: b :: c :: l =>
    let a := byte_val a in let b := byte_val b in let c := byte_val c in
    [b64_char (a / 4); b64_char (a mod 4 * 16 + b / 16);
     b64_char (b mod 16 * 4 + c / 64); b64_char (c mod 64)] ++ b64_encode_bytes l
  end.

Fixpoint b64_decode_bytes (l : list byte) : option (list byte) :=
  match l with
  | [] => Some []
  | c0 :: c1 :: c2 :: c3 :: l =>
    v0 ← b64_value c0; v1 ← b64_value c1;
    if decide (c2 = "="%byte) then
      if decide (c3 = "="%byte ∧ l = []) then Some [byte_of_Z (v0 * 4 + v1 / 16)]
      else None
    else
      v2 ← b64_value c2;
      if decide (c3 = "="%byte) then
        if decide (l = []) then
          Some [byte_of_Z (v0 * 4 + v1 / 16); byte_of_Z (v1 mod 16 * 16 + v2 / 4)]
        else None
      else
        v3 ← b64_value c3;
        rest ← b64_decode_bytes l;
        Some (byte_of_Z (v0 * 4 + v1 / 16) :: byte_of_Z (v1 mod 16 * 16 + v2 / 4)
              :: byte_of_Z (v2 mod 4 * 64 + v3) :: rest)
  | _ => None
  end.

#[global] Instance b64_ref : Base64 := {|
  b64_encode l := text (b64_encode_bytes l);
  b64_decode s := b64_decode_bytes (bytes s);
|}.

Lemma b64_value_char i :
  0 ≤ i < 64 → b64_value (b64_char i) = Some i ∧ b64_char i ≠ "="%byte.
Proof.
  intros Hi. assert (i ∈ seqZ 0 64) as Hin by (by apply elem_of_seqZ).
  revert i Hi Hin. intros i _. revert i. apply Forall_forall.
  apply (bool_decide_unpack _). vm_compute. exact I.
Qed.

Ltac b64_arith :=
  repeat match goal with
  | b : byte |- _ =>
    lazymatch goal with
    | _ : 0 ≤ byte_val b < 256 |- _ => fail
    | |- _ => pose proof (byte_val_range b)
    end
  end;
  Z.to_euclidean_division_equations; lia.

Lemma byte_of_Z_eq z b : z = byte_val b → byte_of_Z z = b.
Proof. intros ->. apply byte_of_Z_val. Qed.

Ltac b64_sextets :=
  repeat match goal with
  | |- context [b64_value (b64_char ?i)] =>
    let E := fresh in let N := fresh in
    destruct (b64_value_char i) as [E N]; [b64_arith|];
    rewrite E; cbn [mbind option_bind]
  end;
  repeat first [rewrite decide_False by done | rewrite decide_True by done].

Lemma b64_decode_encode_bytes n l :
  (length l ≤ n)%nat → b64_decode_bytes (b64_encode_bytes l) = Some l.
Proof.
  revert l. induction n as [|n IH]; intros l Hn; [by destruct l; simpl in *; [|lia]|].
  destruct l as [|a [|b [|c l]]]; [done|..]; cbn [b64_encode_bytes app b64_decode_bytes];
    b64_sextets.
  - do 2 f_equal. apply byte_of_Z_eq. b64_arith.
  - do 2 f_equal; [|f_equal]; apply byte_of_Z_eq; b64_arith.
  - rewrite IH by (simpl in Hn; lia). cbn [mbind option_bind].
    do 2 f_equal; [|f_equal; [|f_equal]]; apply byte_of_Z_eq; b64_arith.
Qed.

Lemma length_b64_encode_bytes n l :
  (length l ≤ n)%nat →
  Z.of_nat (length (b64_encode_bytes l)) = (Z.of_nat (length l) + 2) / 3 * 4.
Proof.
  revert l. induction n as [|n IH]; intros l Hn; [by destruct l; simpl in *; [|lia]|].
  destruct l as [|a [|b [|c l]]]; [done|done|done|].
  cbn [b64_encode_bytes]. rewrite length_app. cbn [length] in *.
  rewrite Nat2Z.inj_add, IH by lia. Z.to_euclidean_division_equations. lia.
Qed.

#[global] Instance b64_ref_laws : Base64Laws.
Proof.
  split; intros l; simpl.
  - rewrite bytes_text. by eapply b64_decode_encode_bytes.
  - unfold str_len. rewrite bytes_text. by eapply length_b64_encode_bytes.
Qed.
End Reference.
