(* ===== verification/Limits.v ===== *)
(** * Limits: runtime limits and the execution-host check

    Models [crates/domain/src/lib.rs]. *)
From S2P Require Export Prelude Bytes.

Definition MODULE_BYTES : Z := 2 * 1024 * 1024.
Definition PAYLOAD_BYTES : Z := 64 * 1024.
Definition LOG_BYTES : Z := 16 * 1024.
Definition EFFECT_REQUEST_BYTES : Z := 16 * 1024.
Definition MAX_EFFECTS : Z := 8.

Record Limits := mkLimits {
  fuel : Z;
  memory_bytes : Z;
  wall_ms : Z;
  max_effects : Z;
}.

#[global] Instance Limits_eq_dec : EqDecision Limits.
Proof. solve_decision. Defined.

Definition Limits_default : Limits := {|
  fuel := 10000000;
  memory_bytes := 64 * 1024 * 1024;
  wall_ms := 2000;
  max_effects := MAX_EFFECTS;
|}.

Inductive ConfigError :=
  | InvalidLimit (name : string)
  | UnsupportedHost.

#[global] Instance ConfigError_eq_dec : EqDecision ConfigError.
Proof. solve_decision. Defined.

(** The [(name, value, cap)] triples the loop of [validate] visits, in order. *)
Definition Limits_checks (self caps : Limits) : list (string * Z * Z) := [
  ("fuel"%string, fuel self, fuel caps);
  ("memory_bytes"%string, memory_bytes self,
    Z.min (memory_bytes caps) (64 * 1024 * 1024));
  ("wall_ms"%string, wall_ms self, wall_ms caps);
  ("max_effects"%string, max_effects self, Z.min (max_effects caps) MAX_EFFECTS)
].

Definition limit_check : string * Z * Z → result ConfigError unit :=
  λ '(name, value, cap), fail_if ((value =? 0) || (cap <? value)) (InvalidLimit name).

Definition Limits_validate (self caps : Limits) : result ConfigError Limits :=
  for_each limit_check (Limits_checks self caps);;
  mret self.

Definition require_execution_host (os arch : string) : result ConfigError unit :=
  if bool_decide (os = "linux"%string)
     && (bool_decide (arch = "x86_64"%string) || bool_decide (arch = "aarch64"%string))
  then Ok () else Err UnsupportedHost.

(** ** What validation promises *)

(** Four [u64] fields. *)
Definition limits_u64 (l : Limits) : Prop :=
  is_u64 (fuel l) = true ∧ is_u64 (memory_bytes l) = true ∧
  is_u64 (wall_ms l) = true ∧ is_u64 (max_effects l) = true.

(** Positive, below the operator's caps and below the fixed caps. *)
Record limits_within (l caps : Limits) : Prop := {
  within_fuel : 1 ≤ fuel l ≤ fuel caps;
  within_memory : 1 ≤ memory_bytes l ≤ memory_bytes caps;
  within_memory_fixed : memory_bytes l ≤ 64 * 1024 * 1024;
  within_wall : 1 ≤ wall_ms l ≤ wall_ms caps;
  within_effects : 1 ≤ max_effects l ≤ max_effects caps;
  within_effects_fixed : max_effects l ≤ MAX_EFFECTS;
}.

Lemma limit_check_Ok name value cap :
  0 ≤ value → limit_check (name, value, cap) = Ok () ↔ 1 ≤ value ≤ cap.
Proof. intros. unfold limit_check. rewrite fail_if_Ok. bools. lia. Qed.

Lemma limit_check_Err c e :
  limit_check c = Err e → e = InvalidLimit c.1.1.
Proof. destruct c as [[name value] cap]. simpl. rewrite fail_if_Err. naive_solver. Qed.

Lemma Limits_validate_Ok_iff l caps l' :
  limits_u64 l →
  Limits_validate l caps = Ok l' ↔ l' = l ∧ limits_within l caps.
Proof.
  intros (Hf & Hm & Hw & He). bools. unfold Limits_validate. split.
  - intros (u & Hall & [= <-])%bind_Ok. apply for_each_Ok in Hall.
    unfold Limits_checks in Hall.
    rewrite !Forall_cons, !limit_check_Ok in Hall by lia.
    destruct_and!. split; [done|]. constructor; lia.
  - intros [-> []]. apply bind_Ok. exists (). split; [|done].
    apply for_each_Ok. unfold Limits_checks.
    rewrite !Forall_cons, !limit_check_Ok by lia.
    repeat split; try lia. constructor.
Qed.

Lemma Limits_validate_Err l caps e :
  Limits_validate l caps = Err e →
  ∃ pre name value cap post,
    Limits_checks l caps = pre ++ (name, value, cap) :: post ∧ e = InvalidLimit name ∧
    Forall (λ c, limit_check c = Ok ()) pre ∧ (value = 0 ∨ cap < value).
Proof.
  unfold Limits_validate. intros [He|(u & _ & He)]%bind_Err; [|done].
  apply for_each_Err in He as (pre & [[name value] cap] & post & Hl & Hpre & He).
  exists pre, name, value, cap, post. simpl in He. apply fail_if_Err in He as [Hc <-].
  bools. split_and!; [done|done|done|lia].
Qed.

Lemma limits_within_trans l caps caps' :
  limits_within l caps → limits_within caps caps' → limits_within l caps'.
Proof. intros [] []. constructor; lia. Qed.
