(* ===== verification/Types.v ===== *)
(** * Types: effect requests and run submissions

    Models [crates/domain/src/types.rs].  [serde_json::from_slice] and
    [Uuid::parse_str] are services; everything else is translated. *)
From S2P Require Export Services Limits.

Inductive ValidationError :=
  | Invalid (what : string)
  | Json.

#[global] Instance ValidationError_eq_dec : EqDecision ValidationError.
Proof. solve_decision. Defined.

Definition alias (value : string) : bool :=
  negb (str_is_empty value)
  && (str_len value <=? 64)
  && forallb (λ b, is_ascii_alphanumeric b || bool_decide (b = "_"%byte)
                   || bool_decide (b = "-"%byte)) (bytes value).

Record TicketArguments := mkTicketArguments {
  ta_project : string;
  ta_title : string;
  ta_body : string;
}.

Record EffectRequest := mkEffectRequest {
  er_ordinal : Z;
  er_action : string;
  er_destination : string;
  er_arguments : TicketArguments;
}.

#[global] Instance TicketArguments_eq_dec : EqDecision TicketArguments.
Proof. solve_decision. Defined.
#[global] Instance EffectRequest_eq_dec : EqDecision EffectRequest.
Proof. solve_decision. Defined.

Definition EffectRequest_validate (self : EffectRequest) : result ValidationError unit :=
  fail_if (MAX_EFFECTS <=? er_ordinal self) (Invalid "ordinal");;
  fail_if (negb (bool_decide (er_action self = "ticket.create"%string))) (Invalid "action");;
  fail_if (negb (alias (er_destination self)) || negb (alias (ta_project (er_arguments self))))
    (Invalid "destination/project");;
  let title := ta_title (er_arguments self) in
  fail_if (str_is_empty title || (200 <? chars_count title) || (800 <? str_len title))
    (Invalid "title");;
  fail_if (8192 <? str_len (ta_body (er_arguments self))) (Invalid "body").

(** [serde_json::from_slice::<EffectRequest>]. *)
Class EffectRequestJson := effect_request_from_slice : list byte → option EffectRequest.

Definition EffectRequest_parse `{EffectRequestJson} (input : list byte) :
    result ValidationError EffectRequest :=
  fail_if (EFFECT_REQUEST_BYTES <? Z.of_nat (length input)) (Invalid "request size");;
  request ← ok_or (effect_request_from_slice input) Json;
  EffectRequest_validate request;;
  mret request.

Record RunCreate := mkRunCreate {
  rc_module_digest : string;
  rc_grant_id : string;
  rc_input_b64 : string;
  rc_limits : Limits;
}.

Record NormalizedRun := mkNormalizedRun {
  nr_module_digest : list byte;
  nr_grant_id : Uuid;
  nr_input : list byte;
  nr_limits : Limits;
}.

#[global] Instance NormalizedRun_eq_dec : EqDecision NormalizedRun.
Proof. solve_decision. Defined.

(** [value.as_bytes().as_chunks::<2>().0] *)
Fixpoint as_chunks2 (l : list byte) : list (byte * byte) :=
  match l with
  | a :: b :: l => (a, b) :: as_chunks2 l
  | _ => []
  end.

Definition is_lower_hex (b : byte) : bool :=
  is_ascii_digit b || in_range (byte_val "a") (byte_val "f") (byte_val b).

(** The closure [nibble]; the byte has been checked to be a lowercase hex digit. *)
Definition nibble (b : byte) : Z :=
  if byte_val b <=? byte_val "9" then byte_val b - byte_val "0"
  else byte_val b - byte_val "a" + 10.

Definition hex_byte (pair : byte * byte) : byte :=
  byte_of_Z (Z.lor (Z.shiftl (nibble pair.1) 4) (nibble pair.2)).

Definition digest_bytes (value : string) : result ValidationError (list byte) :=
  fail_if (negb (str_len value =? 64) || negb (forallb is_lower_hex (bytes value)))
    (Invalid "digest");;
  mret (map hex_byte (as_chunks2 (bytes value))).

(** [PAYLOAD_BYTES.div_ceil(3) * 4] *)
Definition div_ceil (a b : Z) : Z := (a + b - 1) / b.
Definition b64_cap (max_bytes : Z) : Z := div_ceil max_bytes 3 * 4.

Definition RunCreate_normalize `{UuidText, Base64} (self : RunCreate) (caps : Limits) :
    result ValidationError NormalizedRun :=
  module_digest ← digest_bytes (rc_module_digest self);
  grant_id ← ok_or (uuid_parse (rc_grant_id self)) (Invalid "grant_id");
  fail_if (negb (bool_decide (uuid_to_string grant_id = rc_grant_id self)))
    (Invalid "canonical grant_id");;
  fail_if (b64_cap PAYLOAD_BYTES <? str_len (rc_input_b64 self)) (Invalid "input size");;
  input ← ok_or (b64_decode (rc_input_b64 self)) (Invalid "base64");
  fail_if ((PAYLOAD_BYTES <? Z.of_nat (length input))
           || negb (bool_decide (b64_encode input = rc_input_b64 self)))
    (Invalid "canonical base64");;
  limits ← map_err (λ _, Invalid "limits") (Limits_validate (rc_limits self) caps);
  mret {|
    nr_module_digest := module_digest;
    nr_grant_id := grant_id;
    nr_input := input;
    nr_limits := limits;
  |}.

(** ** What validation promises *)

Record effect_request_ok (r : EffectRequest) : Prop := {
  ero_ordinal : er_ordinal r < MAX_EFFECTS;
  ero_action : er_action r = "ticket.create"%string;
  ero_destination : alias (er_destination r) = true;
  ero_project : alias (ta_project (er_arguments r)) = true;
  ero_title : ta_title (er_arguments r) ≠ ""%string ∧
    chars_count (ta_title (er_arguments r)) ≤ 200 ∧
    str_len (ta_title (er_arguments r)) ≤ 800;
  ero_body : str_len (ta_body (er_arguments r)) ≤ 8192;
}.

Lemma EffectRequest_validate_Ok r u :
  EffectRequest_validate r = Ok u ↔ effect_request_ok r.
Proof.
  unfold EffectRequest_validate, str_is_empty. rewrite !guard_Ok, fail_if_Ok.
  autorewrite with bools. split.
  - intros (?&?&?&?&?). destruct_and!. by constructor.
  - intros []. tauto.
Qed.

Lemma EffectRequest_parse_Ok `{EffectRequestJson} input r :
  EffectRequest_parse input = Ok r ↔
  Z.of_nat (length input) ≤ EFFECT_REQUEST_BYTES ∧
  effect_request_from_slice input = Some r ∧ effect_request_ok r.
Proof.
  unfold EffectRequest_parse. rewrite guard_Ok, bind_Ok. setoid_rewrite ok_or_Ok.
  setoid_rewrite seq_Ok. setoid_rewrite EffectRequest_validate_Ok.
  autorewrite with bools. unfold mret, result_ret. naive_solver.
Qed.

