(* ===== verification/State.v ===== *)
(** * State: the run and effect state machines

    Models [crates/domain/src/state.rs]: the two [transition] functions, the
    step relations they induce, and what is reachable under them. *)
From S2P Require Export Prelude.

Inductive RunState :=
  | Queued | RetryWait | Leased | Running
  | Succeeded | Failed | Cancelled | NeedsReconciliation.

Inductive EffectState :=
  | Prepared | Dispatching | Committed | DefinitelyFailed | OutcomeUnknown.

Inductive InvalidTransition := invalid_transition.

#[global] Instance RunState_eq_dec : EqDecision RunState.
Proof. solve_decision. Defined.
#[global] Instance EffectState_eq_dec : EqDecision EffectState.
Proof. solve_decision. Defined.

(** The serde names: [snake_case] and [SCREAMING_SNAKE_CASE]. *)
Definition RunState_name (s : RunState) : string :=
  match s with
  | Queued => "queued" | RetryWait => "retry_wait" | Leased => "leased"
  | Running => "running" | Succeeded => "succeeded" | Failed => "failed"
  | Cancelled => "cancelled" | NeedsReconciliation => "needs_reconciliation"
  end.

Definition EffectState_name (s : EffectState) : string :=
  match s with
  | Prepared => "PREPARED" | Dispatching => "DISPATCHING" | Committed => "COMMITTED"
  | DefinitelyFailed => "DEFINITELY_FAILED" | OutcomeUnknown => "OUTCOME_UNKNOWN"
  end.

Definition EffectState_unresolved (self : EffectState) : bool :=
  match self with Dispatching | OutcomeUnknown => true | _ => false end.

Definition EffectState_transition (self to : EffectState)
    (evidenced_resolution eligible_retry : bool) : result InvalidTransition EffectState :=
  let allowed :=
    match self, to with
    | Prepared, Dispatching => true
    | Dispatching, (Committed | DefinitelyFailed | OutcomeUnknown) => true
    | _, _ => false
    end
    || (bool_decide (self = OutcomeUnknown)
        && ((evidenced_resolution
             && match to with Committed | DefinitelyFailed => true | _ => false end)
            || (eligible_retry && bool_decide (to = Dispatching)))) in
  if allowed then Ok to else Err invalid_transition.

Definition RunState_terminal (self : RunState) : bool :=
  match self with Succeeded | Failed | Cancelled => true | _ => false end.

Definition RunState_transition (self to : RunState) (unresolved explicit_resume : bool) :
    result InvalidTransition RunState :=
  if unresolved
     && match to with
        | Succeeded | Cancelled | Queued | RetryWait | Failed => true
        | _ => false
        end
  then Err invalid_transition
  else
    let allowed :=
      match self, to with
      | Queued, (Leased | Cancelled | Failed) => true
      | Leased, (Running | Queued | RetryWait | Cancelled | Failed | NeedsReconciliation) =>
        true
      | Running,
        (Succeeded | Failed | Cancelled | Queued | RetryWait | NeedsReconciliation) => true
      | RetryWait, (Queued | Cancelled | Failed | NeedsReconciliation) => true
      | NeedsReconciliation, Failed => true
      | _, _ => false
      end
      || (bool_decide (self = NeedsReconciliation) && bool_decide (to = Queued)
          && explicit_resume) in
    if allowed then Ok to else Err invalid_transition.

(** ** The step relations *)

(** One accepted transition of an effect, labelled with what justified it. *)
Inductive effect_step (evidence retry : bool) (s s' : EffectState) : Prop :=
  | EffectStep : EffectState_transition s s' evidence retry = Ok s' →
                 effect_step evidence retry s s'.

Inductive run_step (unresolved resume : bool) (s s' : RunState) : Prop :=
  | RunStep : RunState_transition s s' unresolved resume = Ok s' →
              run_step unresolved resume s s'.

(** A history: the states visited, with the flags each step was given. *)
Inductive effect_history : EffectState → list (bool * bool * EffectState) → EffectState → Prop :=
  | effect_history_nil s : effect_history s [] s
  | effect_history_cons s evidence retry s' h s'' :
      effect_step evidence retry s s' → effect_history s' h s'' →
      effect_history s ((evidence, retry, s') :: h) s''.

Inductive run_history : RunState → list (bool * bool * RunState) → RunState → Prop :=
  | run_history_nil s : run_history s [] s
  | run_history_cons s unresolved resume s' h s'' :
      run_step unresolved resume s s' → run_history s' h s'' →
      run_history s ((unresolved, resume, s') :: h) s''.

(** How often a history enters a state. *)
Definition entries {S} `{EqDecision S} (s : S) (h : list (bool * bool * S)) : nat :=
  length (filter (λ e, e.2 = s) h).
(** How many of an effect's steps were licensed as an eligible retry. *)
Definition retries (h : list (bool * bool * EffectState)) : nat :=
  length (filter (λ e, e.1.2 = true) h).

Ltac split_var x := try (is_var x; destruct x).
Ltac step_cases :=
  match goal with
  | H : effect_step ?ev ?re ?s ?s' |- _ =>
    destruct H as [H]; split_var s; split_var s'; split_var ev; split_var re;
    try discriminate H
  | H : run_step ?un ?re ?s ?s' |- _ =>
    destruct H as [H]; split_var s; split_var s'; split_var un; split_var re;
    try discriminate H
  end.

Lemma entries_cons {S} `{EqDecision S} (s : S) e h :
  entries s (e :: h) = ((if decide (e.2 = s) then 1 else 0) + entries s h)%nat.
Proof. unfold entries. rewrite filter_cons. by destruct (decide _). Qed.

Lemma retries_cons e h :
  retries (e :: h) = ((if e.1.2 then 1 else 0) + retries h)%nat.
Proof. unfold retries. rewrite filter_cons. destruct e as [[ev []] s]; done. Qed.

Lemma effect_history_dispatches s h s' :
  effect_history s h s' →
  (entries Dispatching h ≤ (if decide (s = Prepared) then 1 else 0) + retries h)%nat.
Proof.
  induction 1 as [s|s ev re s' h s'' Hstep Hh IH]; [apply Nat.le_0_l|].
  rewrite entries_cons, retries_cons. step_cases; simpl in *; lia.
Qed.

Lemma effect_history_resolved s h s' :
  effect_history s h s' → s = Committed ∨ s = DefinitelyFailed → h = [] ∧ s' = s.
Proof.
  destruct 1 as [s|s ev re s' h s'' Hstep Hh]; [done|].
  intros [->| ->]; step_cases.
Qed.

Lemma run_history_terminal s h s' :
  run_history s h s' → RunState_terminal s = true → h = [] ∧ s' = s.
Proof. destruct 1 as [s|s un re s' h s'' Hstep Hh]; [done|]. step_cases; done. Qed.

Lemma run_history_unresolved s h s' :
  run_history s h s' → Forall (λ e, e.1.1 = true) h →
  Forall (λ e, e.2 = Leased ∨ e.2 = Running ∨ e.2 = NeedsReconciliation) h.
Proof.
  induction 1 as [s|s un re s' h s'' Hstep Hh IH]; [constructor|].
  intros [Hun Hrest]%Forall_cons_1. simpl in Hun. subst un.
  constructor; [step_cases; auto | auto].
Qed.

Lemma run_history_leases s h s' :
  run_history s h s' →
  (entries Running h ≤ (if decide (s = Leased) then 1 else 0) + entries Leased h)%nat
  ∧ (entries Leased h ≤ (if decide (s = Queued) then 1 else 0) + entries Queued h)%nat.
Proof.
  induction 1 as [s|s un re s' h s'' Hstep Hh IH]; [split; apply Nat.le_0_l|].
  rewrite !entries_cons. step_cases; simpl in *; lia.
Qed.

(** ** Properties *)

(** At most one dispatch without a licensed retry.  Whatever happens
    to a prepared effect, the number of times it is dispatched is at most one
    more than the number of steps taken as eligible retries; in particular an
    effect whose outcome is unknown is never dispatched again on its own. *)
Theorem effect_dispatch_bounded h s :
  effect_history Prepared h s → (entries Dispatching h ≤ 1 + retries h)%nat.
Proof. intros Hh%effect_history_dispatches. done. Qed.

Lemma effect_dispatch_bounded_witness :
  let h := [(false, false, Dispatching); (false, false, OutcomeUnknown);
            (false, true, Dispatching); (false, false, Committed)] in
  effect_history Prepared h Committed ∧ (entries Dispatching h ≤ 1 + retries h)%nat.
Proof.
  intros h. assert (effect_history Prepared h Committed) as Hh.
  { repeat (eapply effect_history_cons; [constructor; reflexivity|]). constructor. }
  split; [exact Hh|]. exact (effect_dispatch_bounded h Committed Hh).
Defined.

(** A known outcome is final, and an unknown one is only left
    with evidence or as an eligible retry. *)
Theorem effect_outcome_final s h s' :
  effect_history s h s' →
  ((s = Committed ∨ s = DefinitelyFailed) → h = [] ∧ s' = s) ∧
  (∀ evidence retry t rest,
     s = OutcomeUnknown → h = (evidence, retry, t) :: rest →
     (retry = true ∧ t = Dispatching)
     ∨ (evidence = true ∧ (t = Committed ∨ t = DefinitelyFailed))).
Proof.
  intros Hh. split; [by apply effect_history_resolved|].
  intros ev re t rest -> ->. inversion Hh; subst. step_cases; auto.
Qed.

Lemma effect_outcome_final_witness :
  let h := [(true, false, Committed)] in
  effect_history OutcomeUnknown h Committed ∧
  ∀ evidence retry t rest,
    OutcomeUnknown = OutcomeUnknown → h = (evidence, retry, t) :: rest →
    (retry = true ∧ t = Dispatching)
    ∨ (evidence = true ∧ (t = Committed ∨ t = DefinitelyFailed)).
Proof.
  intros h. assert (effect_history OutcomeUnknown h Committed) as Hh.
  { eapply effect_history_cons; [constructor; reflexivity|]. constructor. }
  split; [exact Hh|]. exact (proj2 (effect_outcome_final _ _ _ Hh)).
Defined.

(** The shape of every run history.  Terminal states are final; while an
    effect is unresolved a run can only be leased, running or waiting for
    reconciliation; every start follows its own lease and every lease follows
    its own queueing. *)
Theorem run_history_shape s h s' :
  run_history s h s' →
  (RunState_terminal s = true → h = [] ∧ s' = s) ∧
  (Forall (λ e, e.1.1 = true) h →
   Forall (λ e, e.2 = Leased ∨ e.2 = Running ∨ e.2 = NeedsReconciliation) h) ∧
  (s = Queued → (entries Running h ≤ entries Leased h ≤ 1 + entries Queued h)%nat).
Proof.
  intros Hh. split_and!.
  - intros Hs. by apply run_history_terminal.
  - intros Hun. by eapply run_history_unresolved.
  - intros ->. apply run_history_leases in Hh. simpl in Hh. lia.
Qed.

Lemma run_history_shape_witness :
  let h := [(false, false, Leased); (false, false, Running); (false, false, Queued);
            (false, false, Leased); (true, false, NeedsReconciliation)] in
  run_history Queued h NeedsReconciliation ∧
  (entries Running h ≤ entries Leased h ≤ 1 + entries Queued h)%nat.
Proof.
  intros h. assert (run_history Queued h NeedsReconciliation) as Hh.
  { repeat (eapply run_history_cons; [constructor; reflexivity|]). constructor. }
  split; [exact Hh|]. exact (proj2 (proj2 (run_history_shape _ _ _ Hh)) eq_refl).
Defined.
