(* ===== verification/Grants.v ===== *)
(** * Grants: authorities, grant chains and reservation plans

    Models [crates/domain/src/grants.rs].  A [BTreeSet] is a [gset]; a slice of
    grants is a list, read root first. *)
From S2P Require Export Types.

Record Authority := mkAuthority {
  actions : gset string;
  destinations : gset string;
  projects : gset string;
  expires_at_ms : Z;
  au_max_effects : Z;
}.

Record Grant := mkGrant {
  g_id : Uuid;
  g_tenant_id : Uuid;
  g_parent_id : option Uuid;
  g_depth : Z;
  g_authority : Authority;
  g_used_effects : Z;
  g_revoked : bool;
}.

Inductive GrantError :=
  | GInvalid | GEscalation | GAncestry | GInactive | GExhausted | GDenied.

#[global] Instance Authority_eq_dec : EqDecision Authority.
Proof. solve_decision. Defined.
#[global] Instance Grant_eq_dec : EqDecision Grant.
Proof. solve_decision. Defined.
#[global] Instance GrantError_eq_dec : EqDecision GrantError.
Proof. solve_decision. Defined.

(** The body of the loop over the destination and project sets. *)
Definition alias_set (set : gset string) : result GrantError unit :=
  fail_if (bool_decide (set = ∅) || (16 <? Z.of_nat (size set))
           || negb (forallb alias (elements set))) GInvalid.

Definition Authority_validate_shape (self : Authority) : result GrantError unit :=
  fail_if (negb (in_range 1 100 (au_max_effects self))) GInvalid;;
  fail_if (negb (Z.of_nat (size (actions self)) =? 1)
           || negb (bool_decide ("ticket.create"%string ∈ actions self))) GInvalid;;
  for_each alias_set [destinations self; projects self].

Definition Authority_validate (self : Authority) (now_ms : Z) : result GrantError unit :=
  Authority_validate_shape self;;
  ttl ← ok_or (checked_i64 (expires_at_ms self - now_ms)) GInvalid;
  fail_if ((ttl <=? 0) || (86400000 <? ttl)) GInvalid.

Definition Authority_attenuates (self parent : Authority) : bool :=
  bool_decide (actions self ⊆ actions parent)
  && bool_decide (destinations self ⊆ destinations parent)
  && bool_decide (projects self ⊆ projects parent)
  && (expires_at_ms self <=? expires_at_ms parent)
  && (au_max_effects self <=? au_max_effects parent).

(** [index.checked_sub(1).map(|i| chain[i])] *)
Definition chain_pred (chain : list Grant) (index : nat) : option Grant :=
  match index with O => None | S i => chain !! i end.

(** One iteration of [validate_chain]; [seen] holds the identifiers so far. *)
Definition validate_link (chain : list Grant) (tenant : Uuid) (now_ms : Z)
    (seen : gset Uuid) (index : nat) (grant : Grant) : result GrantError unit :=
  fail_if (negb (g_tenant_id grant =? tenant)
           || negb (g_depth grant =? Z.of_nat index)
           || bool_decide (g_id grant ∈ seen)
           || negb (bool_decide (g_parent_id grant = g_id <$> chain_pred chain index)))
    GAncestry;;
  fail_if (g_revoked grant || (expires_at_ms (g_authority grant) <=? now_ms)) GInactive;;
  fail_if (au_max_effects (g_authority grant) <? g_used_effects grant) GInvalid;;
  fail_if (match chain_pred chain index with
           | None => false
           | Some parent =>
             negb (Authority_attenuates (g_authority grant) (g_authority parent))
           end) GEscalation.

Fixpoint validate_links (chain : list Grant) (tenant : Uuid) (now_ms : Z)
    (seen : gset Uuid) (index : nat) (rest : list Grant) : result GrantError unit :=
  match rest with
  | [] => Ok ()
  | grant :: rest =>
    validate_link chain tenant now_ms seen index grant;;
    validate_links chain tenant now_ms ({[g_id grant]} ∪ seen) (S index) rest
  end.

Definition validate_chain (chain : list Grant) (tenant : Uuid) (now_ms : Z) :
    result GrantError unit :=
  fail_if (bool_decide (chain = []) || (5 <? Z.of_nat (length chain))) GAncestry;;
  validate_links chain tenant now_ms ∅ 0 chain.

Definition validate_child (child : Authority) (ancestry : list Grant) (tenant : Uuid)
    (now_ms : Z) : result GrantError unit :=
  Authority_validate child now_ms;;
  validate_chain ancestry tenant now_ms;;
  fail_if (5 <=? Z.of_nat (length ancestry)) GAncestry;;
  fail_if (negb (forallb (λ g, Authority_attenuates child (g_authority g)) ancestry))
    GEscalation.

(** The body of the loop that builds the plan. *)
Definition plan_entry (action destination project : string) (grant : Grant) :
    result GrantError (Uuid * Z) :=
  let authority := g_authority grant in
  fail_if (negb (bool_decide (action ∈ actions authority))
           || negb (bool_decide (destination ∈ destinations authority))
           || negb (bool_decide (project ∈ projects authority))) GDenied;;
  fail_if (au_max_effects authority <=? g_used_effects grant) GExhausted;;
  next ← ok_or (checked_u64 (g_used_effects grant + 1)) GExhausted;
  mret (g_id grant, next).

Definition reservation_plan (chain : list Grant) (tenant : Uuid) (now_ms : Z)
    (action destination project : string) : result GrantError (list (Uuid * Z)) :=
  validate_chain chain tenant now_ms;;
  try_map (plan_entry action destination project) chain.

(** ** What a valid chain is *)

(** [a] grants no more than [b]. *)
Definition attenuated (a b : Authority) : Prop := Authority_attenuates a b = true.

Lemma attenuated_spec a b :
  attenuated a b ↔
  actions a ⊆ actions b ∧ destinations a ⊆ destinations b ∧ projects a ⊆ projects b ∧
  expires_at_ms a ≤ expires_at_ms b ∧ au_max_effects a ≤ au_max_effects b.
Proof. unfold attenuated, Authority_attenuates. autorewrite with bools. tauto. Qed.

#[global] Instance attenuated_preorder : PreOrder attenuated.
Proof.
  split.
  - intros a. rewrite attenuated_spec. split_and!; done || lia.
  - intros a b c. rewrite !attenuated_spec.
    intros (?&?&?&?&?) (?&?&?&?&?). split_and!; (etrans; done) || lia.
Qed.

(** The grant at position [index] of [chain] is linked to its predecessor. *)
Record link_ok (chain : list Grant) (tenant : Uuid) (now_ms : Z) (index : nat)
    (g : Grant) : Prop := {
  link_tenant : g_tenant_id g = tenant;
  link_depth : g_depth g = Z.of_nat index;
  link_parent : g_parent_id g = g_id <$> chain_pred chain index;
  link_live : g_revoked g = false ∧ now_ms < expires_at_ms (g_authority g);
  link_used : g_used_effects g ≤ au_max_effects (g_authority g);
  link_attenuated : ∀ p, chain_pred chain index = Some p →
    attenuated (g_authority g) (g_authority p);
}.

Record chain_ok (chain : list Grant) (tenant : Uuid) (now_ms : Z) : Prop := {
  chain_length : (1 ≤ length chain ≤ 5)%nat;
  chain_links : ∀ index g, chain !! index = Some g → link_ok chain tenant now_ms index g;
  chain_nodup : NoDup (g_id <$> chain);
}.

Lemma validate_link_Ok chain tenant now_ms seen index g u :
  validate_link chain tenant now_ms seen index g = Ok u ↔
  link_ok chain tenant now_ms index g ∧ g_id g ∉ seen.
Proof.
  unfold validate_link. destruct u. split.
  - intros H. inv_ok. bools. split; [|done]. constructor; auto.
    + intros p Hp. rewrite Hp in *. by bools.
  - intros [[] Hseen]. rewrite !guard_Ok, fail_if_Ok. destruct_and!.
    autorewrite with bools. split_and!; auto; try lia.
    destruct (chain_pred chain index) as [p|]; [|done].
    bools. by apply link_attenuated0.
Qed.

Lemma validate_links_Ok chain tenant now_ms pre rest u :
  chain = pre ++ rest →
  validate_links chain tenant now_ms (list_to_set (g_id <$> pre)) (length pre) rest = Ok u ↔
  (∀ i g, rest !! i = Some g → link_ok chain tenant now_ms (length pre + i) g) ∧
  NoDup (g_id <$> rest) ∧ (∀ g, g ∈ rest → g_id g ∉ g_id <$> pre).
Proof.
  destruct u. revert pre. induction rest as [|g rest IH]; intros pre Hchain.
  { cbn. split; [|done]. intros _. split_and!; [done|constructor|].
    intros g Hg. by apply not_elem_of_nil in Hg. }
  cbn [validate_links]. rewrite seq_Ok, validate_link_Ok.
  specialize (IH (pre ++ [g])). rewrite fmap_app, list_to_set_app_L, length_app in IH.
  cbn [fmap list_fmap list_to_set length] in IH.
  replace (length pre + 1)%nat with (S (length pre)) in IH by lia.
  rewrite (right_id_L ∅ (∪)), (comm_L (∪)) in IH. rewrite IH by (by rewrite <-app_assoc).
  rewrite not_elem_of_list_to_set, fmap_cons, NoDup_cons. split.
  - intros ([Hg Hseen] & Hrest & Hnd & Hdisj). split_and!.
    + intros [|i] g' Hi; simplify_eq/=.
      * by rewrite Nat.add_0_r.
      * rewrite <-Nat.add_succ_comm. by apply Hrest.
    + intros (g' & Hid & Hg')%list_elem_of_fmap.
      apply (Hdisj g' Hg'). rewrite elem_of_app, <-Hid, list_elem_of_singleton. by right.
    + done.
    + intros g' [->|Hg']%elem_of_cons; [done|].
      pose proof (Hdisj g' Hg') as Hd. rewrite elem_of_app in Hd. tauto.
  - intros (Hlinks & [Hgid Hnd] & Hdisj). split_and!.
    + rewrite <-(Nat.add_0_r (length pre)). by apply Hlinks.
    + apply Hdisj, list_elem_of_here.
    + intros i g' Hi. rewrite Nat.add_succ_comm. by apply Hlinks.
    + done.
    + intros g' Hg'. rewrite elem_of_app, list_elem_of_singleton. intros [Hin|Hid].
      * by apply (Hdisj g'); [by apply list_elem_of_further|].
      * apply Hgid. rewrite <-Hid. by apply list_elem_of_fmap_2.
Qed.

Lemma validate_chain_Ok chain tenant now_ms u :
  validate_chain chain tenant now_ms = Ok u ↔ chain_ok chain tenant now_ms.
Proof.
  unfold validate_chain. rewrite guard_Ok.
  rewrite (validate_links_Ok chain tenant now_ms [] chain) by done.
  autorewrite with bools. split.
  - intros ([Hne Hlen] & Hlinks & Hnd & _). constructor; [|done|done].
    destruct chain; [done|]. simpl in *. lia.
  - intros [Hlen Hlinks Hnd]. split_and!; try done.
    + intros ->. simpl in Hlen. lia.
    + lia.
    + intros g _. apply not_elem_of_nil.
Qed.

#[global] Instance chain_ok_dec chain tenant now_ms : Decision (chain_ok chain tenant now_ms).
Proof.
  refine (cast_if (decide (validate_chain chain tenant now_ms = Ok ())));
    by rewrite <-validate_chain_Ok.
Defined.

(** ** Consequences of validity *)

Section chain.
Context {chain : list Grant} {tenant : Uuid} {now_ms : Z}.
Hypothesis Hchain : chain_ok chain tenant now_ms.

(** Authority only shrinks from the root towards the leaf. *)
Lemma chain_attenuated i j gi gj :
  (i ≤ j)%nat → chain !! i = Some gi → chain !! j = Some gj →
  attenuated (g_authority gj) (g_authority gi).
Proof.
  intros Hij Hi. revert gj. induction Hij as [|j Hij IH]; intros gj Hj.
  - by simplify_eq.
  - destruct (chain !! j) as [gk|] eqn:Hk.
    + transitivity (g_authority gk); [|by apply IH].
      apply (link_attenuated _ _ _ _ _ (chain_links _ _ _ Hchain _ _ Hj)). done.
    + apply lookup_ge_None in Hk. apply lookup_lt_Some in Hj. lia.
Qed.

(** Nothing expires before the leaf does. *)
Lemma chain_expiry i g leaf :
  chain !! i = Some g → last chain = Some leaf →
  expires_at_ms (g_authority leaf) ≤ expires_at_ms (g_authority g).
Proof.
  intros Hi Hlast. rewrite last_lookup in Hlast.
  assert (attenuated (g_authority leaf) (g_authority g)) as Ha.
  { eapply chain_attenuated; [|exact Hi|exact Hlast]. apply lookup_lt_Some in Hi. lia. }
  apply attenuated_spec in Ha. tauto.
Qed.

Lemma chain_ids_inj i j gi gj :
  chain !! i = Some gi → chain !! j = Some gj → g_id gi = g_id gj → i = j.
Proof.
  intros Hi Hj Hid. eapply (NoDup_lookup (g_id <$> chain)).
  - apply (chain_nodup _ _ _ Hchain).
  - by rewrite list_lookup_fmap, Hi.
  - by rewrite list_lookup_fmap, Hj, Hid.
Qed.
End chain.

Record shape_ok (a : Authority) : Prop := {
  shape_budget : 1 ≤ au_max_effects a ≤ 100;
  shape_actions : actions a = {["ticket.create"%string]};
  shape_destinations : destinations a ≠ ∅ ∧ (size (destinations a) ≤ 16)%nat ∧
    ∀ d, d ∈ destinations a → alias d = true;
  shape_projects : projects a ≠ ∅ ∧ (size (projects a) ≤ 16)%nat ∧
    ∀ p, p ∈ projects a → alias p = true;
}.

Lemma alias_set_Ok X u :
  alias_set X = Ok u ↔
  X ≠ ∅ ∧ (size X ≤ 16)%nat ∧ ∀ s, s ∈ X → alias s = true.
Proof.
  unfold alias_set. rewrite fail_if_Ok. autorewrite with bools.
  rewrite forallb_forall. setoid_rewrite <-list_elem_of_In.
  setoid_rewrite elem_of_elements. split; [intros [[??]?]|intros (?&?&?)]; split_and!; auto; lia.
Qed.

Lemma Authority_validate_shape_Ok a u :
  Authority_validate_shape a = Ok u ↔ shape_ok a.
Proof.
  unfold Authority_validate_shape. rewrite !guard_Ok, for_each_Ok.
  rewrite !Forall_cons, !alias_set_Ok. autorewrite with bools.
  assert (∀ X : gset string, Z.of_nat (size X) = 1 ∧ "ticket.create"%string ∈ X ↔
    X = {["ticket.create"%string]}) as Hsingle.
  { intros X. split.
    - intros [Hsize Hin]. symmetry. apply leibniz_equiv.
      apply set_subseteq_size_equiv; [set_solver|]. rewrite size_singleton. lia.
    - intros ->. rewrite size_singleton. set_solver. }
  rewrite Hsingle. split.
  - intros (? & ? & ? & ? & _). by constructor.
  - intros [? ? (? & ? & ?) (? & ? & ?)]. split_and!; auto; try lia; constructor.
Qed.

Lemma Authority_validate_Ok a now_ms u :
  Authority_validate a now_ms = Ok u ↔
  shape_ok a ∧ i64_min ≤ expires_at_ms a - now_ms ≤ i64_max ∧
  now_ms < expires_at_ms a ≤ now_ms + 86400000.
Proof.
  unfold Authority_validate. rewrite seq_Ok, Authority_validate_shape_Ok, bind_Ok.
  setoid_rewrite ok_or_Ok. setoid_rewrite checked_Some. setoid_rewrite fail_if_Ok. split.
  - intros (? & ttl & [? ->] & Hb). bools. split_and!; auto; lia.
  - intros (? & ? & ?). split; [done|]. eexists. split; [by split|].
    autorewrite with bools. lia.
Qed.

(** The grant [create_grant] appends below [ancestry]. *)
Definition child_grant (id tenant : Uuid) (ancestry : list Grant) (a : Authority) : Grant := {|
  g_id := id;
  g_tenant_id := tenant;
  g_parent_id := g_id <$> last ancestry;
  g_depth := Z.of_nat (length ancestry);
  g_authority := a;
  g_used_effects := 0;
  g_revoked := false;
|}.

Lemma chain_ok_snoc ancestry tenant now_ms id a :
  ancestry = [] ∨ chain_ok ancestry tenant now_ms →
  (length ancestry < 5)%nat →
  id ∉ g_id <$> ancestry →
  now_ms < expires_at_ms a → 0 ≤ au_max_effects a →
  (∀ p, last ancestry = Some p → attenuated a (g_authority p)) →
  chain_ok (ancestry ++ [child_grant id tenant ancestry a]) tenant now_ms.
Proof.
  intros Hanc Hlen Hid Hlive Hmax Hatt.
  assert (∀ i, (i ≤ length ancestry)%nat →
    chain_pred (ancestry ++ [child_grant id tenant ancestry a]) i = chain_pred ancestry i)
    as Hpred.
  { intros [|i] Hi; [done|]. simpl. apply lookup_app_l. lia. }
  constructor.
  - rewrite length_app. simpl. lia.
  - intros i g Hi. apply lookup_app_Some in Hi as [Hi|[Hge Hi]].
    + pose proof (lookup_lt_Some _ _ _ Hi).
      destruct Hanc as [->|Hanc]; [done|].
      destruct (chain_links _ _ _ Hanc _ _ Hi). constructor; rewrite ?Hpred by lia; auto.
    + apply list_lookup_singleton_Some in Hi as [Hi <-].
      replace i with (length ancestry) by lia. rewrite ?Hpred by lia.
      assert (chain_pred ancestry (length ancestry) = last ancestry) as Hlast.
      { rewrite last_lookup. destruct ancestry; done. }
      constructor; simpl; rewrite ?Hpred, ?Hlast by lia; auto.
  - rewrite fmap_app. apply NoDup_app. split_and!.
    + destruct Hanc as [->|Hanc]; [constructor|apply (chain_nodup _ _ _ Hanc)].
    + intros x Hx ->%list_elem_of_singleton. done.
    + apply NoDup_singleton.
Qed.

Lemma validate_child_Ok child ancestry tenant now_ms u :
  validate_child child ancestry tenant now_ms = Ok u ↔
  Authority_validate child now_ms = Ok () ∧ chain_ok ancestry tenant now_ms ∧
  (length ancestry < 5)%nat ∧
  (∀ g, g ∈ ancestry → attenuated child (g_authority g)).
Proof.
  unfold validate_child.
  rewrite seq_Ok, seq_Ok, validate_chain_Ok, guard_Ok, fail_if_Ok.
  autorewrite with bools. rewrite forallb_forall. setoid_rewrite <-list_elem_of_In.
  unfold attenuated. split; intros (?&?&?&?); split_and!; auto; lia.
Qed.

(** ** Reservation plans *)

Definition permits (a : Authority) (action destination project : string) : Prop :=
  action ∈ actions a ∧ destination ∈ destinations a ∧ project ∈ projects a.

(** The counters are [u64]. *)
Definition grant_u64 (g : Grant) : Prop :=
  0 ≤ g_used_effects g ∧ au_max_effects (g_authority g) ≤ u64_max.

(** The effect of applying the plan's entry for [g]. *)
Definition charge (g : Grant) : Grant := {|
  g_id := g_id g; g_tenant_id := g_tenant_id g; g_parent_id := g_parent_id g;
  g_depth := g_depth g; g_authority := g_authority g;
  g_used_effects := g_used_effects g + 1; g_revoked := g_revoked g;
|}.

Lemma plan_entry_Ok action destination project g e :
  grant_u64 g →
  plan_entry action destination project g = Ok e ↔
  permits (g_authority g) action destination project ∧
  g_used_effects g < au_max_effects (g_authority g) ∧
  e = (g_id g, g_used_effects g + 1).
Proof.
  intros [Hused Hmax]. unfold plan_entry, permits. rewrite !guard_Ok, bind_Ok.
  setoid_rewrite ok_or_Ok. setoid_rewrite checked_Some. autorewrite with bools. split.
  - intros (? & ? & n & [? ->] & [= <-]). tauto.
  - intros ((? & ? & ?) & ? & ->). split_and!; auto. eexists. split; [split|]; done || lia.
Qed.

Lemma permits_attenuated a b action destination project :
  attenuated a b → permits a action destination project →
  permits b action destination project.
Proof. rewrite attenuated_spec. unfold permits. intros (?&?&?&_) (?&?&?). auto. Qed.

Lemma reservation_plan_Ok chain tenant now_ms action destination project plan :
  Forall grant_u64 chain →
  reservation_plan chain tenant now_ms action destination project = Ok plan ↔
  chain_ok chain tenant now_ms ∧
  (∀ g, g ∈ chain → permits (g_authority g) action destination project ∧
    g_used_effects g < au_max_effects (g_authority g)) ∧
  plan = (λ g, (g_id g, g_used_effects g + 1)) <$> chain.
Proof.
  intros Hu64. unfold reservation_plan. rewrite seq_Ok, validate_chain_Ok.
  rewrite (try_map_functional _ (λ g, permits (g_authority g) action destination project ∧
    g_used_effects g < au_max_effects (g_authority g)) (λ g, (g_id g, g_used_effects g + 1))).
  - by rewrite Forall_forall.
  - intros g Hg e. rewrite plan_entry_Ok; [tauto|]. by eapply Forall_forall.
Qed.

(** Reserving against a chain leaves a valid chain. *)
Lemma chain_ok_charge chain tenant now_ms :
  chain_ok chain tenant now_ms →
  (∀ g, g ∈ chain → g_used_effects g < au_max_effects (g_authority g)) →
  chain_ok (charge <$> chain) tenant now_ms.
Proof.
  intros [Hlen Hlinks Hnd] Hroom.
  assert (∀ i, chain_pred (charge <$> chain) i = charge <$> chain_pred chain i) as Hpred.
  { intros [|i]; [done|]. apply list_lookup_fmap. }
  constructor.
  - by rewrite length_fmap.
  - intros i g Hi. rewrite list_lookup_fmap in Hi. apply fmap_Some in Hi as (g' & Hi & ->).
    destruct (Hlinks i g' Hi). constructor; simpl; rewrite ?Hpred; auto.
    + by rewrite <-option_fmap_compose.
    + assert (g' ∈ chain) as Hin by by eapply list_elem_of_lookup_2.
      specialize (Hroom g' Hin). lia.
    + intros p (p' & Hp & ->)%fmap_Some. simpl. auto.
  - by rewrite <-list_fmap_compose.
Qed.

(** A root grant of three effects and an authority for two of them. *)
Module ChainDemo.
Definition authority (budget : Z) : Authority := {|
  actions := {["ticket.create"%string]}; destinations := {["desk"%string]};
  projects := {["ops"%string]}; expires_at_ms := 60000; au_max_effects := budget;
|}.
Definition root : Grant := mkGrant 10 1 None 0 (authority 3) 1 false.
Definition chain : list Grant := [root; mkGrant 11 1 (Some 10) 1 (authority 2) 0 false].

Lemma child_valid : validate_child (authority 2) [root] 1 1000 = Ok ().
Proof. vm_compute. reflexivity. Qed.
Lemma child_fresh : 11 ∉ g_id <$> [root].
Proof. vm_compute. by intros ?%list_elem_of_singleton. Qed.
Lemma chain_u64 : Forall grant_u64 chain.
Proof. repeat constructor; vm_compute; done. Qed.
Lemma chain_plan :
  reservation_plan chain 1 1000 "ticket.create" "desk" "ops" = Ok [(10, 2); (11, 1)].
Proof. vm_compute. reflexivity. Qed.
End ChainDemo.

(** ** Properties *)

(** A chain is accepted exactly when it is a root-first path of at most
    five distinct, live, unexhausted-or-exhausted grants of the tenant, each
    linked to its predecessor and granting no more than it; and then authority
    only ever shrinks from any ancestor to any descendant. *)
Theorem validate_chain_spec chain tenant now_ms :
  (validate_chain chain tenant now_ms = Ok () ↔ chain_ok chain tenant now_ms) ∧
  (validate_chain chain tenant now_ms = Ok () →
   ∀ i j gi gj, (i ≤ j)%nat → chain !! i = Some gi → chain !! j = Some gj →
     attenuated (g_authority gj) (g_authority gi) ∧
     ∀ action destination project,
       permits (g_authority gj) action destination project →
       permits (g_authority gi) action destination project).
Proof.
  split; [apply validate_chain_Ok|]. intros Hchain%validate_chain_Ok i j gi gj Hij Hi Hj.
  pose proof (chain_attenuated Hchain _ _ _ _ Hij Hi Hj) as Hatt.
  split; [done|]. intros action destination project. by apply permits_attenuated.
Qed.

Lemma validate_chain_spec_witness : chain_ok ChainDemo.chain 1 1000.
Proof. apply (validate_chain_spec ChainDemo.chain 1 1000). vm_compute. reflexivity. Defined.

(** An authority accepted by [validate_child] extends the chain.  The
    grant [create_grant] builds from it, under a fresh identifier, makes a chain
    that validates again, and no action, destination, project, deadline or
    budget exceeds that of any ancestor. *)
Theorem validate_child_extends child ancestry tenant now_ms id :
  validate_child child ancestry tenant now_ms = Ok () →
  id ∉ g_id <$> ancestry →
  validate_chain (ancestry ++ [child_grant id tenant ancestry child]) tenant now_ms = Ok () ∧
  (∀ g, g ∈ ancestry → attenuated child (g_authority g)) ∧
  now_ms < expires_at_ms child ≤ now_ms + 86400000.
Proof.
  intros (Ha & Hchain & Hlen & Hatt)%validate_child_Ok Hid.
  apply Authority_validate_Ok in Ha as (Hshape & _ & Hlive).
  split_and!; auto; try lia. apply validate_chain_Ok, chain_ok_snoc; auto.
  - lia.
  - destruct (shape_budget _ Hshape). lia.
  - intros p Hp. apply Hatt. by eapply last_Some_elem_of.
Qed.

Lemma validate_child_extends_witness :
  validate_chain ([ChainDemo.root] ++
    [child_grant 11 1 [ChainDemo.root] (ChainDemo.authority 2)]) 1 1000 = Ok ().
Proof.
  exact (proj1 (validate_child_extends _ _ _ _ 11 ChainDemo.child_valid ChainDemo.child_fresh)).
Defined.

(** A reservation plan exists exactly when the chain is valid, the leaf
    alone permits the call (every ancestor then does) and no member of the
    chain is exhausted; it charges every member once, and the charged chain is
    valid again. *)
Theorem reservation_plan_spec chain tenant now_ms action destination project plan :
  Forall grant_u64 chain →
  (reservation_plan chain tenant now_ms action destination project = Ok plan ↔
   chain_ok chain tenant now_ms ∧
   (∃ leaf, last chain = Some leaf ∧ permits (g_authority leaf) action destination project) ∧
   (∀ g, g ∈ chain → g_used_effects g < au_max_effects (g_authority g)) ∧
   plan = (λ g, (g_id g, g_used_effects g + 1)) <$> chain) ∧
  (reservation_plan chain tenant now_ms action destination project = Ok plan →
   validate_chain (charge <$> chain) tenant now_ms = Ok ()).
Proof.
  intros Hu64. rewrite (reservation_plan_Ok _ _ _ _ _ _ _ Hu64). split.
  - split.
    + intros (Hchain & Hall & ->). split_and!; try done; [|naive_solver].
      destruct (last chain) as [leaf|] eqn:Hlast.
      * exists leaf. split; [done|]. by apply Hall, last_Some_elem_of.
      * apply last_None in Hlast as ->. by destruct (chain_length _ _ _ Hchain); simpl in *; lia.
    + intros (Hchain & (leaf & Hlast & Hleaf) & Hroom & ->). split_and!; try done.
      intros g Hg. split; [|by apply Hroom].
      apply list_elem_of_lookup in Hg as [i Hi]. rewrite last_lookup in Hlast.
      eapply permits_attenuated; [|exact Hleaf].
      eapply (chain_attenuated Hchain); [|exact Hi|exact Hlast].
      apply lookup_lt_Some in Hi. lia.
  - intros (Hchain & Hall & _). apply validate_chain_Ok, chain_ok_charge; naive_solver.
Qed.

Lemma reservation_plan_spec_witness :
  validate_chain (charge <$> ChainDemo.chain) 1 1000 = Ok ().
Proof.
  exact (proj2 (reservation_plan_spec _ _ _ _ _ _ _ ChainDemo.chain_u64) ChainDemo.chain_plan).
Defined.
