(* ===== verification/UnitTests.v ===== *)
(** * UnitTests: the program's own unit tests, run on the model

    The tests in [crates/domain/src/grants.rs], [lib.rs] and [state.rs], with
    their names and data.  Those of [validate.rs] assemble modules from text, which
    needs the parser; [Validate] has its own. *)
From S2P Require Import Limits State Grants.

(** ** grants.rs *)

Definition test_root : Grant := {|
  g_id := 1; g_tenant_id := 2; g_parent_id := None; g_depth := 0;
  g_authority := {|
    actions := {["ticket.create"%string]}; destinations := {["tickets-idem"%string]};
    projects := {["DEMO"%string]}; expires_at_ms := 1000; au_max_effects := 3 |};
  g_used_effects := 0; g_revoked := false;
|}.
Definition test_child (id depth : Z) (g : Grant) : Grant :=
  mkGrant id (g_tenant_id g) (Some 1) depth (g_authority g) (g_used_effects g) (g_revoked g).
Definition test_plan (chain : list Grant) (now_ms : Z) : result GrantError (list (Uuid * Z)) :=
  reservation_plan chain 2 now_ms "ticket.create" "tickets-idem" "DEMO".
Definition exhausted_root : Grant :=
  mkGrant 1 2 None 0 (g_authority test_root) 3 false.

Example exhausted_root_cannot_be_multiplied_by_fresh_children :
  Forall (λ id, test_plan [exhausted_root; test_child id 1 test_root] 1 = Err GExhausted)
    [3; 4; 5; 6; 7; 8; 9; 10].
Proof. repeat constructor. Qed.

Example resource_and_expiry_escalation_are_denied :
  let escalated (projects_ : gset string) (expires : Z) :=
    mkAuthority (actions (g_authority test_root)) (destinations (g_authority test_root))
      projects_ expires 3 in
  validate_child (escalated {["DEMO"%string; "PRIVATE"%string]} 1000) [test_root] 2 1 =
    Err GEscalation ∧
  validate_child (escalated {["DEMO"%string]} 1001) [test_root] 2 1 = Err GEscalation.
Proof. by vm_compute. Qed.

Example reservation_includes_every_ancestor_without_mutating_inputs :
  let chain := [test_root; test_child 3 1 test_root] in
  test_plan chain 1 = Ok [(1, 1); (3, 1)] ∧ test_plan chain 1000 = Err GInactive.
Proof. by vm_compute. Qed.

(** ** lib.rs *)

Example caller_cannot_disable_or_raise_limits :
  let caps := Limits_default in
  Forall (λ bad, is_ok (Limits_validate bad caps) = false)
    [mkLimits 0 (memory_bytes caps) (wall_ms caps) (max_effects caps);
     mkLimits (fuel caps) 67108865 (wall_ms caps) (max_effects caps);
     mkLimits (fuel caps) (memory_bytes caps) 2001 (max_effects caps);
     mkLimits (fuel caps) (memory_bytes caps) (wall_ms caps) 9] ∧
  is_ok (Limits_validate (mkLimits 1 65536 1 1) caps) = true.
Proof. split; [repeat constructor|done]. Qed.

Example windows_is_diagnosed_instead_of_claiming_isolation :
  require_execution_host "windows" "x86_64" = Err UnsupportedHost ∧
  is_ok (require_execution_host "linux" "riscv64") = false.
Proof. by vm_compute. Qed.

(** ** state.rs *)

Example ambiguity_prevents_clean_cancellation_and_success :
  Forall (λ state,
    Forall (λ terminal, is_ok (RunState_transition state terminal true false) = false)
      [Cancelled; Succeeded; Queued; Failed] ∧
    RunState_transition state NeedsReconciliation true false = Ok NeedsReconciliation)
    [Leased; Running].
Proof. repeat constructor. Qed.

Example unknown_never_implicitly_retries :
  is_ok (EffectState_transition OutcomeUnknown Dispatching false false) = false ∧
  is_ok (EffectState_transition OutcomeUnknown Committed false false) = false ∧
  is_ok (EffectState_transition Committed Dispatching false true) = false ∧
  is_ok (EffectState_transition OutcomeUnknown Committed true false) = true.
Proof. done. Qed.

Example deferred_retry_is_nonterminal_and_requires_safe_promotion :
  RunState_terminal RetryWait = false ∧
  RunState_transition Running RetryWait false false = Ok RetryWait ∧
  RunState_transition RetryWait Queued false false = Ok Queued ∧
  is_ok (RunState_transition RetryWait Queued true false) = false.
Proof. done. Qed.
