(* ===== verification/Hash.v ===== *)
(** * Hash: the framed contracts and their digests

    Models [crates/domain/src/hash.rs].  A [Sha256] hasher is the list of bytes
    it has been fed, so [update] appends and [finalize] applies [sha256]. *)
From S2P Require Export Grants.

(** [frame(&mut hash, bytes)]: the bytes it adds. *)
Definition frame (l : list byte) : list byte := u64_be (Z.of_nat (length l)) ++ l.

Definition DIGITS : list byte := bytes "0123456789abcdef".

Definition hex_digit (i : Z) : byte := default x00 (DIGITS !! Z.to_nat i).

Definition hex (l : list byte) : string :=
  text (l ≫= λ byte,
    [hex_digit (Z.shiftr (byte_val byte) 4); hex_digit (Z.land (byte_val byte) 15)]).

(** A domain tag: exact bytes and one NUL. *)
Definition tag (s : string) : list byte := bytes s ++ [x00].

Definition run_preimage (request : NormalizedRun) : list byte :=
  tag "effectlatch/run/v1" ++ nr_module_digest request
  ++ uuid_as_bytes (nr_grant_id request) ++ frame (nr_input request)
  ++ u64_be (fuel (nr_limits request)) ++ u64_be (memory_bytes (nr_limits request))
  ++ u64_be (wall_ms (nr_limits request)) ++ u64_be (max_effects (nr_limits request)).

Definition effect_preimage (request : EffectRequest) : list byte :=
  tag "effectlatch/effect/v1" ++ frame (bytes (er_action request))
  ++ frame (bytes (er_destination request))
  ++ frame (bytes (ta_project (er_arguments request)))
  ++ frame (bytes (ta_title (er_arguments request)))
  ++ frame (bytes (ta_body (er_arguments request))).

Definition provider_preimage (tenant run : Uuid) (ordinal : Z) : list byte :=
  tag "effectlatch/provider/v1" ++ uuid_as_bytes tenant ++ uuid_as_bytes run
  ++ u64_be ordinal.

Definition event_preimage (tenant run : Uuid) (seq : Z) (previous : list byte)
    (kind : string) (payload : list byte) : list byte :=
  tag "effectlatch/event/v1" ++ uuid_as_bytes tenant ++ uuid_as_bytes run
  ++ u64_be seq ++ previous ++ frame (bytes kind) ++ frame payload.

Definition checkpoint (tenant run : Uuid) (seq : Z) (terminal : list byte) : list byte :=
  tag "effectlatch/checkpoint/v1" ++ uuid_as_bytes tenant ++ uuid_as_bytes run
  ++ u64_be seq ++ terminal.

(** One of the three string sets of an authority: a count and the frames of the
    elements in order. *)
Definition string_set_bytes (values : gset string) : list byte :=
  u64_be (Z.of_nat (size values))
  ++ (sorted_elements values ≫= λ value, frame (bytes value)).

Definition grant_preimage (parent : option Uuid) (authority : Authority) : list byte :=
  tag "effectlatch/grant/v1"
  ++ match parent with
     | Some parent => x01 :: uuid_as_bytes parent
     | None => [x00]
     end
  ++ string_set_bytes (actions authority) ++ string_set_bytes (destinations authority)
  ++ string_set_bytes (projects authority)
  ++ u64_be (expires_at_ms authority) ++ u64_be (au_max_effects authority).

Definition grant_revocation_preimage (grant : Uuid) (reason : string) : list byte :=
  tag "effectlatch/grant-revocation/v1" ++ uuid_as_bytes grant ++ frame (bytes reason).

Section digests.
Context `{Sha256}.

Definition hash_run (request : NormalizedRun) : list byte :=
  sha256 (run_preimage request).
Definition hash_effect (request : EffectRequest) : list byte :=
  sha256 (effect_preimage request).
Definition hash_provider (tenant run : Uuid) (ordinal : Z) : list byte :=
  sha256 (provider_preimage tenant run ordinal).
Definition hash_event (tenant run : Uuid) (seq : Z) (previous : list byte)
    (kind : string) (payload : list byte) : list byte :=
  sha256 (event_preimage tenant run seq previous kind payload).
Definition hash_grant (parent : option Uuid) (authority : Authority) : list byte :=
  sha256 (grant_preimage parent authority).
Definition hash_grant_revocation (grant : Uuid) (reason : string) : list byte :=
  sha256 (grant_revocation_preimage grant reason).
End digests.

(** ** Hexadecimal text and digests are inverse *)

Lemma hex_byte_digits b :
  hex_byte (hex_digit (Z.shiftr (byte_val b) 4), hex_digit (Z.land (byte_val b) 15)) = b
  ∧ is_lower_hex (hex_digit (Z.shiftr (byte_val b) 4)) = true
  ∧ is_lower_hex (hex_digit (Z.land (byte_val b) 15)) = true.
Proof. destruct b; vm_compute; done. Qed.

Lemma hex_digits_byte a b :
  is_lower_hex a = true → is_lower_hex b = true →
  hex_digit (Z.shiftr (byte_val (hex_byte (a, b))) 4) = a
  ∧ hex_digit (Z.land (byte_val (hex_byte (a, b))) 15) = b.
Proof.
  destruct a; try discriminate; intros _; destruct b; try discriminate; intros _;
    vm_compute; done.
Qed.

Definition hex_bytes (l : list byte) : list byte :=
  l ≫= λ byte,
    [hex_digit (Z.shiftr (byte_val byte) 4); hex_digit (Z.land (byte_val byte) 15)].

Lemma bytes_hex l : bytes (hex l) = hex_bytes l.
Proof. apply bytes_text. Qed.

Lemma hex_bytes_cons b l :
  hex_bytes (b :: l) =
  hex_digit (Z.shiftr (byte_val b) 4) :: hex_digit (Z.land (byte_val b) 15) :: hex_bytes l.
Proof. reflexivity. Qed.

Lemma length_hex_bytes l : length (hex_bytes l) = (2 * length l)%nat.
Proof.
  induction l as [|b l IH]; [done|]. rewrite hex_bytes_cons. cbn [length]. lia.
Qed.

Lemma hex_bytes_lower l : forallb is_lower_hex (hex_bytes l) = true.
Proof.
  induction l as [|b l IH]; [done|].
  destruct (hex_byte_digits b) as (_ & H1 & H2).
  rewrite hex_bytes_cons. cbn [forallb]. by rewrite H1, H2.
Qed.

Lemma chunks_hex_bytes l : hex_byte <$> as_chunks2 (hex_bytes l) = l.
Proof.
  induction l as [|b l IH]; [done|].
  destruct (hex_byte_digits b) as (Hb & _).
  rewrite hex_bytes_cons. cbn [as_chunks2 fmap list_fmap]. by rewrite IH, Hb.
Qed.

Lemma hex_bytes_chunks n l :
  length l = (2 * n)%nat → forallb is_lower_hex l = true →
  hex_bytes (hex_byte <$> as_chunks2 l) = l ∧ length (as_chunks2 l) = n.
Proof.
  revert l. induction n as [|n IH]; intros l Hlen Hl.
  { by destruct l. }
  destruct l as [|a [|b l]]; simpl in Hlen; try lia.
  cbn [forallb] in Hl. rewrite !andb_true_iff in Hl. destruct Hl as (Ha & Hb & Hl).
  destruct (IH l ltac:(lia) Hl) as [Hl1 Hl2].
  destruct (hex_digits_byte a b Ha Hb) as [H1 H2].
  cbn [as_chunks2 fmap list_fmap]. rewrite hex_bytes_cons. by rewrite Hl1, H1, H2, <-Hl2.
Qed.

Lemma digest_bytes_hex d : length d = 32%nat → digest_bytes (hex d) = Ok d.
Proof.
  intros Hd. unfold digest_bytes. rewrite guard_Ok. split.
  - unfold str_len. rewrite bytes_hex, length_hex_bytes, hex_bytes_lower, Hd. done.
  - rewrite bytes_hex. unfold mret, result_ret. f_equal. apply chunks_hex_bytes.
Qed.

Lemma digest_bytes_Ok s d :
  digest_bytes s = Ok d ↔ length d = 32%nat ∧ hex d = s.
Proof.
  split; [|intros [? <-]; by apply digest_bytes_hex].
  unfold digest_bytes. rewrite guard_Ok. intros [Hs [= <-]].
  unfold str_len in Hs. bools.
  destruct (hex_bytes_chunks 32 (bytes s)) as [Hh Hl]; [lia|done|].
  split; [by rewrite length_map|]. apply (inj bytes). by rewrite bytes_hex.
Qed.

(** ** The framing is injective *)

Lemma app_len_inj {A} (a b x y : list A) :
  length a = length b → a ++ x = b ++ y → a = b ∧ x = y.
Proof. intros Hl Happ. by apply app_inj_1. Qed.

(** Lengths are written as eight bytes. *)
Definition fits (l : list byte) : Prop := Z.of_nat (length l) ≤ u64_max.
Definition set_fits (X : gset string) : Prop :=
  Z.of_nat (size X) ≤ u64_max ∧ ∀ s, s ∈ X → fits (bytes s).

Lemma be_app_inj n a b x y :
  0 ≤ a < 256 ^ Z.of_nat n → 0 ≤ b < 256 ^ Z.of_nat n →
  be_bytes n a ++ x = be_bytes n b ++ y → a = b ∧ x = y.
Proof.
  intros Ha Hb [Hab Hxy]%app_len_inj; [|by rewrite !length_be_bytes].
  split; [by apply (be_bytes_inj n)|done].
Qed.

Lemma u64_app_inj a b x y :
  is_u64 a = true → is_u64 b = true → u64_be a ++ x = u64_be b ++ y → a = b ∧ x = y.
Proof. unfold u64_max. intros. bools. by apply (be_app_inj 8); [lia|lia|]. Qed.

Lemma i64_app_inj a b x y :
  is_i64 a = true → is_i64 b = true → u64_be a ++ x = u64_be b ++ y → a = b ∧ x = y.
Proof.
  unfold i64_min, i64_max. intros. bools.
  assert (be_bytes 8 a = be_bytes 8 b ∧ x = y) as [Hab Hxy]
    by (by apply app_len_inj).
  split; [|done]. apply (f_equal be_value) in Hab. rewrite !be_value_bytes in Hab.
  change (256 ^ Z.of_nat 8) with 18446744073709551616 in Hab.
  Z.to_euclidean_division_equations. lia.
Qed.

Lemma uuid_app_inj a b x y :
  uuid_ok a → uuid_ok b → uuid_as_bytes a ++ x = uuid_as_bytes b ++ y → a = b ∧ x = y.
Proof. unfold uuid_ok. apply (be_app_inj 16). Qed.

Lemma frame_app_inj a b x y :
  fits a → fits b → frame a ++ x = frame b ++ y → a = b ∧ x = y.
Proof.
  unfold fits, frame. intros Ha Hb Hab. rewrite <-!app_assoc in Hab.
  apply u64_app_inj in Hab as [Hlen Hab]; [|bools; lia|bools; lia].
  apply app_len_inj in Hab; [done|lia].
Qed.

Lemma frames_app_inj (l l' : list string) x y :
  length l = length l' →
  Forall (λ s, fits (bytes s)) l → Forall (λ s, fits (bytes s)) l' →
  (l ≫= λ value, frame (bytes value)) ++ x = (l' ≫= λ value, frame (bytes value)) ++ y →
  l = l' ∧ x = y.
Proof.
  intros Hlen Hl. revert l' Hlen x y.
  induction Hl as [|s l Hs Hl IH]; intros [|s' l'] Hlen x y Hl' Heq; try done.
  apply Forall_cons in Hl' as [Hs' Hl'].
  rewrite !bind_cons, <-!app_assoc in Heq.
  apply frame_app_inj in Heq as [Hss Heq]; [|done|done].
  apply IH in Heq as [-> ->]; [|simpl in Hlen; lia|done].
  by apply (inj bytes) in Hss as ->.
Qed.

Lemma string_set_app_inj X Y x y :
  set_fits X → set_fits Y →
  string_set_bytes X ++ x = string_set_bytes Y ++ y → X = Y ∧ x = y.
Proof.
  intros [HX HX'] [HY HY'] Heq. unfold string_set_bytes in Heq.
  rewrite <-!app_assoc in Heq.
  apply u64_app_inj in Heq as [Hlen Heq]; [|bools; lia|bools; lia].
  apply frames_app_inj in Heq as [Hs ->].
  - by apply (inj sorted_elements) in Hs.
  - rewrite !sorted_elements_perm. unfold size, set_size in Hlen. simpl in Hlen. lia.
  - apply Forall_forall. intros s Hs. by apply HX', elem_of_sorted_elements.
  - apply Forall_forall. intros s Hs. by apply HY', elem_of_sorted_elements.
Qed.

(** A NUL ends the tag, and no tag contains one. *)
Lemma nul_app_inj (a b x y : list byte) :
  x00 ∉ a → x00 ∉ b → (a ++ [x00]) ++ x = (b ++ [x00]) ++ y → a = b ∧ x = y.
Proof.
  revert b. induction a as [|c a IH]; intros [|d b] Ha Hb Heq; simplify_eq/=.
  - done.
  - set_solver.
  - set_solver.
  - destruct (IH b) as [-> ->]; set_solver.
Qed.

Lemma tag_app_inj s t x y :
  x00 ∉ bytes s → x00 ∉ bytes t → tag s ++ x = tag t ++ y → s = t ∧ x = y.
Proof.
  intros Hs Ht [Hst ->]%nul_app_inj; [|done|done]. by apply (inj bytes) in Hst as ->.
Qed.

(** ** Contracts: everything the product signs, digests or keys *)

Inductive contract :=
  | RunContract (request : NormalizedRun)
  | EffectContract (request : EffectRequest)
  | ProviderContract (tenant run : Uuid) (ordinal : Z)
  | EventContract (tenant run : Uuid) (seq : Z) (previous : list byte)
      (kind : string) (payload : list byte)
  | CheckpointContract (tenant run : Uuid) (seq : Z) (terminal : list byte)
  | GrantContract (parent : option Uuid) (authority : Authority)
  | RevocationContract (grant : Uuid) (reason : string).

Definition contract_preimage (c : contract) : list byte :=
  match c with
  | RunContract request => run_preimage request
  | EffectContract request => effect_preimage request
  | ProviderContract tenant run ordinal => provider_preimage tenant run ordinal
  | EventContract tenant run seq previous kind payload =>
    event_preimage tenant run seq previous kind payload
  | CheckpointContract tenant run seq terminal => checkpoint tenant run seq terminal
  | GrantContract parent authority => grant_preimage parent authority
  | RevocationContract grant reason => grant_revocation_preimage grant reason
  end.

(** The values the Rust types hold. *)
Definition contract_ok (c : contract) : Prop :=
  match c with
  | RunContract r =>
    length (nr_module_digest r) = 32%nat ∧ uuid_ok (nr_grant_id r) ∧ fits (nr_input r) ∧
    limits_u64 (nr_limits r)
  | EffectContract r =>
    fits (bytes (er_action r)) ∧ fits (bytes (er_destination r)) ∧
    fits (bytes (ta_project (er_arguments r))) ∧ fits (bytes (ta_title (er_arguments r))) ∧
    fits (bytes (ta_body (er_arguments r)))
  | ProviderContract tenant run ordinal =>
    uuid_ok tenant ∧ uuid_ok run ∧ is_u64 ordinal = true
  | EventContract tenant run seq previous kind payload =>
    uuid_ok tenant ∧ uuid_ok run ∧ is_u64 seq = true ∧ length previous = 32%nat ∧
    fits (bytes kind) ∧ fits payload
  | CheckpointContract tenant run seq terminal =>
    uuid_ok tenant ∧ uuid_ok run ∧ is_u64 seq = true ∧ length terminal = 32%nat
  | GrantContract parent a =>
    (∀ p, parent = Some p → uuid_ok p) ∧
    set_fits (actions a) ∧ set_fits (destinations a) ∧ set_fits (projects a) ∧
    is_i64 (expires_at_ms a) = true ∧ is_u64 (au_max_effects a) = true
  | RevocationContract grant reason => uuid_ok grant ∧ fits (bytes reason)
  end.

(** The effect contract does not cover the ordinal: two requests that differ
    only in their ordinal are the same contract. *)
Definition erase_ordinal (c : contract) : contract :=
  match c with
  | EffectContract r => EffectContract {|
      er_ordinal := 0; er_action := er_action r; er_destination := er_destination r;
      er_arguments := er_arguments r |}
  | c => c
  end.

#[global] Instance contract_equiv : Equiv contract :=
  λ c d, erase_ordinal c = erase_ordinal d.
#[global] Instance contract_equivalence : Equivalence (≡@{contract}).
Proof.
  split; unfold equiv, contract_equiv; [intros c|intros c d|intros c d e]; congruence.
Qed.

(** Equal contracts, up to the ordinal, have the same bytes. *)
#[global] Instance contract_preimage_proper : Proper ((≡) ==> (=)) contract_preimage.
Proof.
  intros c d Hcd. unfold equiv, contract_equiv in Hcd.
  destruct c as [|r| | | | |], d as [|r'| | | | |]; simpl in Hcd; simplify_eq; try done.
  destruct r, r'; simpl in *; simplify_eq. done.
Qed.

Ltac peel H := rewrite <-?app_assoc in H; cbn [app] in H;
  first
  [ apply tag_app_inj in H as [? H];
    [|apply (bool_decide_unpack _); vm_compute; exact I
     |apply (bool_decide_unpack _); vm_compute; exact I]
  | apply uuid_app_inj in H as [? H]; [|done|done]
  | apply frame_app_inj in H as [? H]; [|done|done]
  | apply string_set_app_inj in H as [? H]; [|done|done]
  | apply u64_app_inj in H as [? H]; [|done|done]
  | apply i64_app_inj in H as [? H]; [|done|done]
  | apply app_len_inj in H as [? H]; [|congruence] ].

Lemma limits_peel l l' x y :
  limits_u64 l → limits_u64 l' →
  u64_be (fuel l) ++ u64_be (memory_bytes l) ++ u64_be (wall_ms l)
    ++ u64_be (max_effects l) ++ x =
  u64_be (fuel l') ++ u64_be (memory_bytes l') ++ u64_be (wall_ms l')
    ++ u64_be (max_effects l') ++ y →
  l = l' ∧ x = y.
Proof.
  intros (?&?&?&?) (?&?&?&?) Heq. do 4 peel Heq.
  destruct l, l'; simpl in *; subst. done.
Qed.

Lemma contract_tags c d :
  contract_preimage c = contract_preimage d →
  match c, d with
  | RunContract _, RunContract _ | EffectContract _, EffectContract _
  | ProviderContract _ _ _, ProviderContract _ _ _
  | EventContract _ _ _ _ _ _, EventContract _ _ _ _ _ _
  | CheckpointContract _ _ _ _, CheckpointContract _ _ _ _
  | GrantContract _ _, GrantContract _ _
  | RevocationContract _ _, RevocationContract _ _ => True
  | _, _ => False
  end.
Proof.
  intros H. destruct c, d; try exact I; exfalso; cbn [contract_preimage] in H;
    unfold run_preimage, effect_preimage, provider_preimage, event_preimage, checkpoint,
      grant_preimage, grant_revocation_preimage in H;
    peel H; discriminate.
Qed.

Lemma parent_app_inj (p q : option Uuid) x y :
  (∀ u, p = Some u → uuid_ok u) → (∀ u, q = Some u → uuid_ok u) →
  match p with Some parent => x01 :: uuid_as_bytes parent | None => [x00] end ++ x =
  match q with Some parent => x01 :: uuid_as_bytes parent | None => [x00] end ++ y →
  p = q ∧ x = y.
Proof.
  intros Hp Hq Heq. destruct p as [u|], q as [v|]; try discriminate Heq; cbn [app] in Heq.
  - apply (f_equal tail) in Heq. cbn [tail] in Heq.
    apply uuid_app_inj in Heq as [-> ->]; auto.
  - split; congruence.
Qed.

Lemma contract_preimage_inj c d :
  contract_ok c → contract_ok d → contract_preimage c = contract_preimage d → c ≡ d.
Proof.
  intros Hc Hd Heq. pose proof (contract_tags c d Heq) as Hkind.
  apply (f_equal (λ l, l ++ [])) in Heq. unfold equiv, contract_equiv.
  destruct c, d; try done; clear Hkind; cbn [contract_ok contract_preimage] in *;
    destruct_and!;
    unfold run_preimage, effect_preimage, provider_preimage, event_preimage, checkpoint,
      grant_preimage, grant_revocation_preimage in Heq; peel Heq.
  - do 3 peel Heq. rewrite <-?app_assoc in Heq. apply limits_peel in Heq as [? _]; [|done|done].
    simpl. destruct request, request0; simpl in *; congruence.
  - do 5 peel Heq. destruct request as [? ? ? []], request0 as [? ? ? []]; simpl in *.
    simplify_eq. repeat match goal with E : bytes _ = bytes _ |- _ =>
      apply (inj bytes) in E as -> end. done.
  - do 3 peel Heq. by subst.
  - do 6 peel Heq. repeat match goal with E : bytes _ = bytes _ |- _ =>
      apply (inj bytes) in E as -> end. by subst.
  - do 4 peel Heq. by subst.
  - rewrite <-?app_assoc in Heq. apply parent_app_inj in Heq as [-> Heq]; [|done|done].
    do 5 peel Heq. destruct authority, authority0; simpl in *; congruence.
  - do 2 peel Heq. repeat match goal with E : bytes _ = bytes _ |- _ =>
      apply (inj bytes) in E as -> end. by subst.
Qed.

(** ** Properties *)

(** Stored digests and their hexadecimal text are inverse.  The text of
    any 32-byte digest parses back to it, and whatever [digest_bytes] accepts is
    exactly the text [hex] prints for its result. *)
Theorem hex_digest_roundtrip :
  (∀ d, length d = 32%nat → digest_bytes (hex d) = Ok d) ∧
  (∀ s d, digest_bytes s = Ok d → length d = 32%nat ∧ hex d = s) ∧
  (∀ s t d, digest_bytes s = Ok d → digest_bytes t = Ok d → s = t).
Proof.
  split_and!; [apply digest_bytes_hex|apply digest_bytes_Ok|].
  intros s t d [_ <-]%digest_bytes_Ok [_ <-]%digest_bytes_Ok. done.
Qed.

(** C40: the framing is injective and separates the domains.  Two values
    of the Rust types that produce the same bytes, or the same digest without a
    SHA-256 collision, are the same kind of contract over the same data (up to
    the effect ordinal, which the effect contract leaves out). *)
Theorem contract_binding `{Sha256} c d :
  contract_ok c → contract_ok d →
  (contract_preimage c = contract_preimage d ↔ c ≡ d) ∧
  (sha256 (contract_preimage c) = sha256 (contract_preimage d) →
   c ≡ d ∨ sha256_collides (contract_preimage c) (contract_preimage d)).
Proof.
  intros Hc Hd. split.
  - split; [by apply contract_preimage_inj | by intros ->].
  - intros Heq. destruct (decide (contract_preimage c = contract_preimage d)) as [Hp|Hp].
    + left. by apply contract_preimage_inj.
    + by right.
Qed.

Lemma contract_binding_witness :
  let _ := Reference.sha256_ref in
  contract_preimage (ProviderContract 1 2 0) = contract_preimage (ProviderContract 1 2 1) ↔
  ProviderContract 1 2 0 ≡ ProviderContract 1 2 1.
Proof.
  intros sha. refine (proj1 (contract_binding (ProviderContract 1 2 0) (ProviderContract 1 2 1) _ _));
    by repeat split.
Defined.
