(* ===== verification/Submission.v ===== *)
(** * Submission: canonical run submissions

    [RunCreate::normalize] (in [Types]) accepts exactly the canonical text of a
    normalized run, so a run's digest identifies the submission it came from. *)
From S2P Require Export Hash.

Section submission.
Context `{UuidText, Base64}.

(** The canonical text of a normalized run. *)
Definition render (n : NormalizedRun) : RunCreate := {|
  rc_module_digest := hex (nr_module_digest n);
  rc_grant_id := uuid_to_string (nr_grant_id n);
  rc_input_b64 := b64_encode (nr_input n);
  rc_limits := nr_limits n;
|}.

Record normalized_ok (n : NormalizedRun) (caps : Limits) : Prop := {
  no_digest : length (nr_module_digest n) = 32%nat;
  no_grant : uuid_ok (nr_grant_id n);
  no_input : Z.of_nat (length (nr_input n)) ≤ PAYLOAD_BYTES;
  no_limits : limits_within (nr_limits n) caps;
}.

Context `{!UuidTextLaws, !Base64Laws}.

Lemma RunCreate_normalize_Ok c caps n :
  limits_u64 (rc_limits c) →
  RunCreate_normalize c caps = Ok n ↔ normalized_ok n caps ∧ c = render n.
Proof.
  intros Hu64. unfold RunCreate_normalize. split.
  - intros Hn. inv_ok. bools.
    match goal with E : digest_bytes _ = _ |- _ => apply digest_bytes_Ok in E as [Hd Hhex] end.
    match goal with E : Limits_validate _ _ = _ |- _ =>
      apply Limits_validate_Ok_iff in E as [-> Hlim]; [|done] end.
    split.
    + constructor; simpl; [done|by eapply uuid_parse_ok|lia|done].
    + destruct c; unfold render; simpl in *. congruence.
  - intros [[Hd Hg Hi Hl] ->]. unfold render. cbn [rc_module_digest rc_grant_id
      rc_input_b64 rc_limits] in *.
    rewrite digest_bytes_hex by done. cbn [mbind result_bind].
    rewrite uuid_parse_to_string by done. cbn [ok_or mbind result_bind].
    rewrite bool_decide_eq_true_2 by done. cbn [negb fail_if].
    rewrite b64_encode_length, b64_decode_encode.
    assert ((b64_cap PAYLOAD_BYTES <? (Z.of_nat (length (nr_input n)) + 2) / 3 * 4) = false)
      as ->.
    { unfold b64_cap, div_ceil, PAYLOAD_BYTES in *. apply Z.ltb_ge.
      Z.to_euclidean_division_equations. lia. }
    cbn [fail_if ok_or mbind result_bind].
    assert ((PAYLOAD_BYTES <? Z.of_nat (length (nr_input n))) = false) as ->
      by (apply Z.ltb_ge; lia).
    rewrite bool_decide_eq_true_2 by done. cbn [negb orb fail_if mbind result_bind].
    assert (Limits_validate (nr_limits n) caps = Ok (nr_limits n)) as ->
      by (by apply Limits_validate_Ok_iff).
    simpl. by destruct n.
Qed.
End submission.

Module SubmitDemo.
Import Reference.

Definition run : NormalizedRun := {|
  nr_module_digest := replicate 32 x00; nr_grant_id := 11; nr_input := [x01];
  nr_limits := Limits_default;
|}.
Definition submission : RunCreate := Eval vm_compute in render run.

Lemma run_ok : normalized_ok run Limits_default.
Proof. split; [done|by split|done|]. by split; vm_compute. Qed.
Lemma limits : limits_u64 (rc_limits submission).
Proof. by vm_compute. Qed.
Lemma accepted : RunCreate_normalize submission Limits_default = Ok run.
Proof. vm_compute. reflexivity. Qed.
End SubmitDemo.

(** ** Properties *)

(** Normalization is a bijection.  A submission is accepted exactly
    when it is the canonical text of a well-formed run within the operator's
    caps, and the run it yields is that run: nothing is lost, and no two
    submissions yield one run. *)
Theorem normalize_roundtrip `{UuidTextLaws, !Base64, !Base64Laws} caps :
  (∀ c n, limits_u64 (rc_limits c) →
     RunCreate_normalize c caps = Ok n ↔ normalized_ok n caps ∧ c = render n) ∧
  (∀ n, limits_u64 (nr_limits n) → normalized_ok n caps →
     RunCreate_normalize (render n) caps = Ok n).
Proof.
  split; intros.
  - by apply RunCreate_normalize_Ok.
  - by apply RunCreate_normalize_Ok.
Qed.

Lemma normalize_roundtrip_witness :
  let _ := Reference.uuid_ref in let _ := Reference.b64_ref in
  RunCreate_normalize (render SubmitDemo.run) Limits_default = Ok SubmitDemo.run.
Proof.
  intros u b. exact (proj2 (normalize_roundtrip (H0 := Reference.uuid_ref_laws)
    (H2 := Reference.b64_ref_laws) Limits_default)
    SubmitDemo.run SubmitDemo.limits SubmitDemo.run_ok).
Defined.

(** The stored request hash identifies the submission.  Two accepted
    submissions with one run digest are the same submission, or SHA-256 has
    collided on the preimages of their runs. *)
Theorem submission_identity `{UuidTextLaws, !Base64, !Base64Laws, Sha256} caps c c' n n' :
  limits_u64 (rc_limits c) → limits_u64 (rc_limits c') →
  RunCreate_normalize c caps = Ok n → RunCreate_normalize c' caps = Ok n' →
  hash_run n = hash_run n' → c = c' ∨ sha256_collides (run_preimage n) (run_preimage n').
Proof.
  intros Hu Hu' [Hn ->]%RunCreate_normalize_Ok [Hn' ->]%RunCreate_normalize_Ok Hhash; auto.
  destruct (decide (run_preimage n = run_preimage n')) as [Hp|Hp]; [left|right].
  - assert (∀ m, normalized_ok m caps → limits_u64 (rc_limits (render m)) →
      contract_ok (RunContract m)) as Hok.
    { intros m [] ?. split_and!; auto. unfold fits, PAYLOAD_BYTES, u64_max in *. lia. }
    assert (RunContract n ≡ RunContract n') as Heq
      by (apply contract_preimage_inj; auto).
    by injection Heq as ->.
  - done.
Qed.

Lemma submission_identity_witness :
  let _ := Reference.sha256_ref in
  SubmitDemo.submission = SubmitDemo.submission ∨
  sha256_collides (run_preimage SubmitDemo.run) (run_preimage SubmitDemo.run).
Proof.
  intros sha. exact (submission_identity (H0 := Reference.uuid_ref_laws)
    (H2 := Reference.b64_ref_laws) Limits_default _ _ _ _ SubmitDemo.limits
    SubmitDemo.limits SubmitDemo.accepted SubmitDemo.accepted eq_refl).
Defined.
