(* ===== verification/Db.v ===== *)
(** * Db: the tables, their constraints and the statements on them

    The tables of [migrations/0001_initial.sql] and [0002_retry_wait.sql] with
    the columns the store reads or writes, the CHECK, UNIQUE and FOREIGN KEY
    constraints on them, and one definition per kind of SQL statement of
    [crates/store/src].  A statement that violates a constraint fails with
    [Database], as the driver reports it; a timestamp is a number of
    microseconds, and a clock reading is an argument of the operation. *)
From S2P Require Export State Hash.

(** [effectlatch_store::Error] *)
Inductive Error :=
  | Configuration (why : string)
  | Database
  | Migration
  | RunNotFound
  | EffectNotFound
  | CorruptEventHead
  | IncompatibleSchema
  | MissingScheduler
  | ModuleNotFound
  | GrantDenied
  | IdempotencyConflict
  | CapacityExhausted
  | GrantNotFound
  | GrantValidation (e : GrantError)
  | CorruptGrant
  | LeaseConflict
  | CorruptScheduler.

#[global] Instance Error_eq_dec : EqDecision Error.
Proof. solve_decision. Defined.

(** ** Rows *)

Record TenantRow := mkTenantRow {
  t_queue_limit : Z;
  t_active_limit : Z;
  t_active_count : Z;
  t_last_served_seq : Z;
}.

Record GrantRow := mkGrantRow {
  gr_parent_id : option Uuid;
  gr_depth : Z;
  gr_actions : list string;
  gr_destinations : list string;
  gr_projects : list string;
  gr_max_effects : Z;
  gr_used_effects : Z;
  gr_expires_at : Z;
  gr_revoked_at : option Z;
}.

Record RunRow := mkRunRow {
  r_idempotency_key : string;
  r_request_hash : list byte;
  r_module_digest : list byte;
  r_grant_id : Uuid;
  r_input_bytes : option (list byte);
  r_output_bytes : option (list byte);
  r_limits : string;
  r_state : RunState;
  r_lease_epoch : Z;
  r_lease_owner : option string;
  r_lease_expires_at : option Z;
  r_attempt : Z;
  r_active_slot_held : bool;
  r_cancel_requested : bool;
  r_error_code : option string;
  r_next_event_seq : Z;
  r_last_event_hash : list byte;
  r_created_at : Z;
  r_updated_at : Z;
}.

Record EffectRow := mkEffectRow {
  e_request_hash : list byte;
  e_action : string;
  e_destination : string;
  e_project : string;
  e_provider_key : string;
  e_state : EffectState;
  e_send_attempts : Z;
  e_reservation_charged : bool;
  e_updated_at : Z;
}.

Record EventRow := mkEventRow {
  ev_kind : string;
  ev_payload : list byte;
  ev_prev_hash : list byte;
  ev_hash : list byte;
}.

Record OperatorEvent := mkOperatorEvent {
  oe_tenant : Uuid;
  oe_actor : string;
  oe_action : string;
  oe_object : Uuid;
  oe_detail_hash : list byte;
}.

#[global] Instance TenantRow_eq_dec : EqDecision TenantRow.
Proof. solve_decision. Defined.
#[global] Instance GrantRow_eq_dec : EqDecision GrantRow.
Proof. solve_decision. Defined.
#[global] Instance RunRow_eq_dec : EqDecision RunRow.
Proof. solve_decision. Defined.
#[global] Instance EffectRow_eq_dec : EqDecision EffectRow.
Proof. solve_decision. Defined.
#[global] Instance EventRow_eq_dec : EqDecision EventRow.
Proof. solve_decision. Defined.

(** The database.  Keys are the primary keys; [db_dispatch_seq] is the row of
    [scheduler_state], when it is there. *)
Record Db := mkDb {
  db_tenants : gmap Uuid TenantRow;
  db_dispatch_seq : option Z;
  db_modules : gmap (Uuid * list byte) (list byte);
  db_grants : gmap (Uuid * Uuid) GrantRow;
  db_runs : gmap (Uuid * Uuid) RunRow;
  db_effects : gmap (Uuid * Uuid * Z) EffectRow;
  db_reservations : gset (Uuid * Uuid * Z * Uuid);
  db_events : gmap (Uuid * Uuid * Z) EventRow;
  db_operator_events : list OperatorEvent;
}.

Definition with_tenants (f : gmap Uuid TenantRow → gmap Uuid TenantRow) (db : Db) : Db :=
  mkDb (f (db_tenants db)) (db_dispatch_seq db) (db_modules db) (db_grants db) (db_runs db)
    (db_effects db) (db_reservations db) (db_events db) (db_operator_events db).
Definition with_dispatch_seq (seq : Z) (db : Db) : Db :=
  mkDb (db_tenants db) (Some seq) (db_modules db) (db_grants db) (db_runs db)
    (db_effects db) (db_reservations db) (db_events db) (db_operator_events db).
Definition with_modules f (db : Db) : Db :=
  mkDb (db_tenants db) (db_dispatch_seq db) (f (db_modules db)) (db_grants db) (db_runs db)
    (db_effects db) (db_reservations db) (db_events db) (db_operator_events db).
Definition with_grants f (db : Db) : Db :=
  mkDb (db_tenants db) (db_dispatch_seq db) (db_modules db) (f (db_grants db)) (db_runs db)
    (db_effects db) (db_reservations db) (db_events db) (db_operator_events db).
Definition with_runs f (db : Db) : Db :=
  mkDb (db_tenants db) (db_dispatch_seq db) (db_modules db) (db_grants db) (f (db_runs db))
    (db_effects db) (db_reservations db) (db_events db) (db_operator_events db).
Definition with_effects f (db : Db) : Db :=
  mkDb (db_tenants db) (db_dispatch_seq db) (db_modules db) (db_grants db) (db_runs db)
    (f (db_effects db)) (db_reservations db) (db_events db) (db_operator_events db).
Definition with_reservations f (db : Db) : Db :=
  mkDb (db_tenants db) (db_dispatch_seq db) (db_modules db) (db_grants db) (db_runs db)
    (db_effects db) (f (db_reservations db)) (db_events db) (db_operator_events db).
Definition with_events f (db : Db) : Db :=
  mkDb (db_tenants db) (db_dispatch_seq db) (db_modules db) (db_grants db) (db_runs db)
    (db_effects db) (db_reservations db) (f (db_events db)) (db_operator_events db).
Definition with_operator_events f (db : Db) : Db :=
  mkDb (db_tenants db) (db_dispatch_seq db) (db_modules db) (db_grants db) (db_runs db)
    (db_effects db) (db_reservations db) (db_events db) (f (db_operator_events db)).

(** ** The CHECK constraints *)

Definition tenant_check (t : TenantRow) : bool :=
  in_range 1 1000 (t_queue_limit t) && in_range 1 4 (t_active_limit t)
  && (0 <=? t_active_count t) && (t_active_count t <=? t_active_limit t).

Definition cardinality_1_16 (l : list string) : bool :=
  in_range 1 16 (Z.of_nat (length l)).

Definition grant_check (g : GrantRow) : bool :=
  in_range 0 4 (gr_depth g)
  && cardinality_1_16 (gr_actions g) && cardinality_1_16 (gr_destinations g)
  && cardinality_1_16 (gr_projects g)
  && in_range 1 100 (gr_max_effects g)
  && (0 <=? gr_used_effects g) && (gr_used_effects g <=? gr_max_effects g)
  && match gr_parent_id g with None => gr_depth g =? 0 | Some _ => 0 <? gr_depth g end.

Definition run_check (r : RunRow) : bool :=
  in_range 1 128 (chars_count (r_idempotency_key r))
  && (Z.of_nat (length (r_request_hash r)) =? 32)
  && match r_input_bytes r with
     | Some input => Z.of_nat (length input) <=? 65536 | None => true end
  && match r_output_bytes r with
     | Some output => Z.of_nat (length output) <=? 65536 | None => true end
  && (0 <=? r_lease_epoch r) && in_range 0 3 (r_attempt r)
  && (Z.of_nat (length (r_last_event_hash r)) =? 32).

Definition event_check (seq : Z) (e : EventRow) : bool :=
  (0 <? seq) && (Z.of_nat (length (ev_payload e)) <=? 16384)
  && (Z.of_nat (length (ev_prev_hash e)) =? 32) && (Z.of_nat (length (ev_hash e)) =? 32).

(** ** Statements

    An UPDATE yields the number of rows it changed, like [rows_affected]; the
    guard is the part of its WHERE clause beyond the key. *)

Definition StoreTx := Tx Db Error.

Definition update_tenant (id : Uuid) (guard : TenantRow → bool)
    (f : TenantRow → TenantRow) : StoreTx Z := λ db,
  match db_tenants db !! id with
  | Some t =>
    if guard t then
      if tenant_check (f t) then Ok (1, with_tenants <[id := f t]> db) else Err Database
    else Ok (0, db)
  | None => Ok (0, db)
  end.

Definition update_grant (tenant id : Uuid) (guard : GrantRow → bool)
    (f : GrantRow → GrantRow) : StoreTx Z := λ db,
  match db_grants db !! (tenant, id) with
  | Some g =>
    if guard g then
      if grant_check (f g) then Ok (1, with_grants <[(tenant, id) := f g]> db)
      else Err Database
    else Ok (0, db)
  | None => Ok (0, db)
  end.

Definition update_run (tenant id : Uuid) (guard : RunRow → bool)
    (f : RunRow → RunRow) : StoreTx Z := λ db,
  match db_runs db !! (tenant, id) with
  | Some r =>
    if guard r then
      if run_check (f r) then Ok (1, with_runs <[(tenant, id) := f r]> db)
      else Err Database
    else Ok (0, db)
  | None => Ok (0, db)
  end.

Definition update_effect (tenant run : Uuid) (ordinal : Z) (guard : EffectRow → bool)
    (f : EffectRow → EffectRow) : StoreTx Z := λ db,
  match db_effects db !! (tenant, run, ordinal) with
  | Some e =>
    if guard e then Ok (1, with_effects <[(tenant, run, ordinal) := f e]> db)
    else Ok (0, db)
  | None => Ok (0, db)
  end.

(** [INSERT INTO modules ... ON CONFLICT (tenant_id,digest) DO NOTHING] *)
Definition insert_module (tenant : Uuid) (digest wasm : list byte) : StoreTx Z := λ db,
  if negb (Z.of_nat (length digest) =? 32) || (2097152 <? Z.of_nat (length wasm))
  then Err Database
  else match db_modules db !! (tenant, digest) with
  | Some _ => Ok (0, db)
  | None =>
    if bool_decide (is_Some (db_tenants db !! tenant))
    then Ok (1, with_modules <[(tenant, digest) := wasm]> db) else Err Database
  end.

(** [SELECT ... FROM runs WHERE tenant_id=$1 AND idempotency_key=$2] *)
Definition run_by_key (tenant : Uuid) (key : string) (db : Db) :
    option (Uuid * Uuid * RunRow) :=
  select_first (λ kv, kv.1.1 = tenant ∧ r_idempotency_key kv.2 = key) (db_runs db).

(** [SELECT ... FROM runs WHERE id=$1] *)
Definition run_by_id (run : Uuid) (db : Db) : option (Uuid * Uuid * RunRow) :=
  select_first (λ kv, kv.1.2 = run) (db_runs db).

(** [INSERT INTO runs ... ON CONFLICT (tenant_id,idempotency_key) DO NOTHING] *)
Definition insert_run (tenant id : Uuid) (row : RunRow) : StoreTx Z := λ db,
  if negb (run_check row) then Err Database
  else match run_by_key tenant (r_idempotency_key row) db with
  | Some _ => Ok (0, db)
  | None =>
    if bool_decide (is_Some (run_by_id id db))
       || negb (bool_decide (is_Some (db_tenants db !! tenant)))
       || negb (bool_decide (is_Some (db_modules db !! (tenant, r_module_digest row))))
       || negb (bool_decide (is_Some (db_grants db !! (tenant, r_grant_id row))))
    then Err Database
    else Ok (1, with_runs <[(tenant, id) := row]> db)
  end.

Definition insert_grant (tenant id : Uuid) (row : GrantRow) : StoreTx unit := λ db,
  if negb (grant_check row)
     || bool_decide (is_Some (db_grants db !! (tenant, id)))
     || negb (bool_decide (is_Some (db_tenants db !! tenant)))
     || match gr_parent_id row with
        | Some parent => negb (bool_decide (is_Some (db_grants db !! (tenant, parent))))
        | None => false
        end
  then Err Database
  else Ok ((), with_grants <[(tenant, id) := row]> db).

Definition insert_operator_event (e : OperatorEvent) : StoreTx unit := λ db,
  if bool_decide (is_Some (db_tenants db !! oe_tenant e))
     && (Z.of_nat (length (oe_detail_hash e)) =? 32)
  then Ok ((), with_operator_events (λ l, l ++ [e]) db) else Err Database.

Definition insert_reservation (tenant run : Uuid) (ordinal : Z) (grant : Uuid) :
    StoreTx unit := λ db,
  if bool_decide ((tenant, run, ordinal, grant) ∈ db_reservations db)
     || negb (bool_decide (is_Some (db_effects db !! (tenant, run, ordinal))))
     || negb (bool_decide (is_Some (db_grants db !! (tenant, grant))))
  then Err Database
  else Ok ((), with_reservations (λ s, {[(tenant, run, ordinal, grant)]} ∪ s) db).

Definition insert_event (tenant run : Uuid) (seq : Z) (e : EventRow) : StoreTx unit := λ db,
  if negb (event_check seq e)
     || bool_decide (is_Some (db_events db !! (tenant, run, seq)))
     || negb (bool_decide (is_Some (db_runs db !! (tenant, run))))
  then Err Database
  else Ok ((), with_events <[(tenant, run, seq) := e]> db).

(** [UPDATE scheduler_state SET dispatch_seq=dispatch_seq+1 WHERE singleton=true
    AND dispatch_seq<9223372036854775807 RETURNING dispatch_seq] *)
Definition bump_dispatch_seq : Tx Db Error (option Z) := λ db,
  match db_dispatch_seq db with
  | Some seq =>
    if seq <? i64_max then Ok (Some (seq + 1), with_dispatch_seq (seq + 1) db)
    else Ok (None, db)
  | None => Ok (None, db)
  end.

(** [SELECT ... WHERE tenant_id=$1 AND id=$2 FOR UPDATE] with [fetch_one]: a
    missing row is the driver's [RowNotFound], a [Database] error. *)
Definition fetch_one {A} (f : Db → option A) : StoreTx A :=
  tx_gets f ≫= λ o, tx_ok_or o Database.
Definition fetch_optional {A} (f : Db → option A) (e : Error) : StoreTx A :=
  tx_gets f ≫= λ o, tx_ok_or o e.

(** [Store::begin_scheduler]: the advisory lock and the singleton's row lock
    serialize the operations that call it; what is left is the check. *)
Definition begin_scheduler : StoreTx unit :=
  fetch_optional db_dispatch_seq MissingScheduler ≫= λ _, mret ().

(** ** Effects of a run *)

(** [EXISTS(SELECT 1 FROM effects WHERE tenant_id=$1 AND run_id=$2 AND state IN states)] *)
Definition effect_in (states : list EffectState) (tenant run : Uuid) (db : Db) : bool :=
  bool_decide (select_first
    (λ kv, kv.1.1 = (tenant, run) ∧ e_state kv.2 ∈ states) (db_effects db) ≠ None).

(** ** What a successful statement did *)

Lemma update_run_Ok tenant id guard f db n db' :
  update_run tenant id guard f db = Ok (n, db') →
  (∃ r, db_runs db !! (tenant, id) = Some r ∧ guard r = true ∧ run_check (f r) = true ∧
     n = 1 ∧ db' = with_runs <[(tenant, id) := f r]> db) ∨
  (n = 0 ∧ db' = db ∧ ∀ r, db_runs db !! (tenant, id) = Some r → guard r = false).
Proof. unfold update_run. repeat case_match; naive_solver. Qed.

Lemma update_tenant_Ok id guard f db n db' :
  update_tenant id guard f db = Ok (n, db') →
  (∃ t, db_tenants db !! id = Some t ∧ guard t = true ∧ tenant_check (f t) = true ∧
     n = 1 ∧ db' = with_tenants <[id := f t]> db) ∨
  (n = 0 ∧ db' = db ∧ ∀ t, db_tenants db !! id = Some t → guard t = false).
Proof. unfold update_tenant. repeat case_match; naive_solver. Qed.

Lemma update_grant_Ok tenant id guard f db n db' :
  update_grant tenant id guard f db = Ok (n, db') →
  (∃ g, db_grants db !! (tenant, id) = Some g ∧ guard g = true ∧ grant_check (f g) = true ∧
     n = 1 ∧ db' = with_grants <[(tenant, id) := f g]> db) ∨
  (n = 0 ∧ db' = db ∧ ∀ g, db_grants db !! (tenant, id) = Some g → guard g = false).
Proof. unfold update_grant. repeat case_match; naive_solver. Qed.

Lemma update_effect_Ok tenant run ordinal guard f db n db' :
  update_effect tenant run ordinal guard f db = Ok (n, db') →
  (∃ e, db_effects db !! (tenant, run, ordinal) = Some e ∧ guard e = true ∧
     n = 1 ∧ db' = with_effects <[(tenant, run, ordinal) := f e]> db) ∨
  (n = 0 ∧ db' = db ∧
   ∀ e, db_effects db !! (tenant, run, ordinal) = Some e → guard e = false).
Proof. unfold update_effect. repeat case_match; naive_solver. Qed.

Lemma insert_event_Ok tenant run seq e db u db' :
  insert_event tenant run seq e db = Ok (u, db') ↔
  event_check seq e = true ∧ db_events db !! (tenant, run, seq) = None ∧
  is_Some (db_runs db !! (tenant, run)) ∧
  db' = with_events <[(tenant, run, seq) := e]> db.
Proof.
  destruct u. unfold insert_event.
  case_match eqn:Hc; autorewrite with bools in Hc; rewrite <-eq_None_not_Some in Hc.
  - split; [done|]. intros (? & ? & [? ?] & ?). destruct Hc as [[?|[? ?]]|?]; congruence.
  - split; [intros [= <-]; tauto | by intros (? & ? & ? & ->)].
Qed.

Lemma insert_grant_Ok tenant id row db u db' :
  insert_grant tenant id row db = Ok (u, db') ↔
  grant_check row = true ∧ db_grants db !! (tenant, id) = None ∧
  is_Some (db_tenants db !! tenant) ∧
  (∀ parent, gr_parent_id row = Some parent → is_Some (db_grants db !! (tenant, parent))) ∧
  db' = with_grants <[(tenant, id) := row]> db.
Proof.
  destruct u. unfold insert_grant.
  assert ((match gr_parent_id row with
    | Some parent => negb (bool_decide (is_Some (db_grants db !! (tenant, parent))))
    | None => false end) = false ↔
    ∀ parent, gr_parent_id row = Some parent → is_Some (db_grants db !! (tenant, parent)))
    as Hparent.
  { destruct (gr_parent_id row) as [p|]; [|naive_solver]. autorewrite with bools. naive_solver. }
  match goal with |- (if ?c then _ else _) = _ ↔ _ => destruct c eqn:Hc end;
    autorewrite with bools in Hc; rewrite <-eq_None_not_Some in Hc.
  - split; [done|]. intros (Hg & Hn & [? Ht] & Hp & _). apply Hparent in Hp.
    destruct Hc as [[[?|[? ?]]|?]|?]; congruence.
  - destruct Hc as [[[? ?] ?] Hp]. pose proof (proj1 Hparent Hp). split; [intros [= <-]; auto | by intros (? & ? & ? & ? & ->)].
Qed.

Lemma insert_operator_event_Ok e db u db' :
  insert_operator_event e db = Ok (u, db') →
  is_Some (db_tenants db !! oe_tenant e) ∧
  db' = with_operator_events (λ l, l ++ [e]) db.
Proof.
  unfold insert_operator_event. case_match eqn:Hc; [|done]. bools. naive_solver.
Qed.

Lemma insert_reservation_Ok tenant run ordinal grant db u db' :
  insert_reservation tenant run ordinal grant db = Ok (u, db') ↔
  ((tenant, run, ordinal, grant) ∉ db_reservations db) ∧
  is_Some (db_effects db !! (tenant, run, ordinal)) ∧
  is_Some (db_grants db !! (tenant, grant)) ∧
  db' = with_reservations (λ s, {[(tenant, run, ordinal, grant)]} ∪ s) db.
Proof.
  destruct u. unfold insert_reservation. case_match eqn:Hc; autorewrite with bools in Hc.
  - split; [done|]. intros (? & ? & ? & _). tauto.
  - split; [intros [= <-]; tauto | by intros (? & ? & ? & ->)].
Qed.

Lemma fetch_one_Ok {A} (f : Db → option A) db a db' :
  fetch_one f db = Ok (a, db') ↔ f db = Some a ∧ db' = db.
Proof.
  unfold fetch_one. rewrite tx_bind_Ok. setoid_rewrite tx_gets_Ok.
  setoid_rewrite tx_ok_or_Ok. naive_solver.
Qed.

Lemma fetch_optional_Ok {A} (f : Db → option A) e db a db' :
  fetch_optional f e db = Ok (a, db') ↔ f db = Some a ∧ db' = db.
Proof.
  unfold fetch_optional. rewrite tx_bind_Ok. setoid_rewrite tx_gets_Ok.
  setoid_rewrite tx_ok_or_Ok. naive_solver.
Qed.

Lemma begin_scheduler_Ok db u db' :
  begin_scheduler db = Ok (u, db') ↔ is_Some (db_dispatch_seq db) ∧ db' = db.
Proof.
  destruct u. unfold begin_scheduler. rewrite tx_bind_Ok.
  setoid_rewrite fetch_optional_Ok. setoid_rewrite tx_ret_Ok. unfold is_Some. naive_solver.
Qed.

Lemma effect_in_true states tenant run db :
  effect_in states tenant run db = true ↔
  ∃ ordinal e, db_effects db !! (tenant, run, ordinal) = Some e ∧ e_state e ∈ states.
Proof.
  unfold effect_in. rewrite bool_decide_eq_true. split.
  - intros Hsel. destruct (select_first _ _) as [[[[t r] o] e]|] eqn:Hs; [|done].
    apply select_first_Some in Hs as [He [Hk Hst]]. simpl in *. simplify_eq. eauto.
  - intros (o & e & He & Hst) Hsel.
    by apply (select_first_None _ _ Hsel _ _ He).
Qed.

Lemma run_by_id_Some run db tenant id row :
  run_by_id run db = Some (tenant, id, row) →
  id = run ∧ db_runs db !! (tenant, run) = Some row.
Proof. intros [? Hid]%select_first_Some. simpl in Hid. by subst. Qed.

Lemma run_by_key_Some tenant key db tenant' id row :
  run_by_key tenant key db = Some (tenant', id, row) →
  tenant' = tenant ∧ r_idempotency_key row = key ∧
  db_runs db !! (tenant, id) = Some row.
Proof. intros [? [Ht Hk]]%select_first_Some. simpl in *. by subst. Qed.

(** [inv_db] also takes the statements of a transaction apart. *)
Ltac inv_db_step :=
  match goal with
  | H : fetch_one _ _ = Ok (_, _) |- _ => apply fetch_one_Ok in H
  | H : fetch_optional _ _ _ = Ok (_, _) |- _ => apply fetch_optional_Ok in H
  | H : begin_scheduler _ = Ok (_, _) |- _ => apply begin_scheduler_Ok in H
  | H : insert_event _ _ _ _ _ = Ok (_, _) |- _ => apply insert_event_Ok in H
  | H : insert_grant _ _ _ _ = Ok (_, _) |- _ => apply insert_grant_Ok in H
  | H : insert_operator_event _ _ = Ok (_, _) |- _ => apply insert_operator_event_Ok in H
  | H : insert_reservation _ _ _ _ _ = Ok (_, _) |- _ => apply insert_reservation_Ok in H
  | _ => inv_ok_step
  end.
Ltac inv_db := repeat (inv_db_step; simplify_eq).
