(* ===== verification/Schema.v ===== *)
(** * Schema: opening the store

    Models the rest of [crates/store/src/lib.rs]: connecting, migrating and the
    gate that compares the migrations a database went through with the ones the
    program was built for.  [sqlx] reads the migration files, keeps the table of
    applied ones and runs them. *)
From S2P Require Export Db.

(** ** Migrations *)

(** A migration of the directory; [mg_up] is [is_up_migration]. *)
Record MigrationFile := mkMigrationFile {
  mg_version : Z;
  mg_checksum : list byte;
  mg_up : bool;
}.
(** A row of [_sqlx_migrations], whose key is the version. *)
Record Applied := mkApplied {
  ap_version : Z;
  ap_checksum : list byte;
  ap_success : bool;
}.
#[global] Instance Applied_eq_dec : EqDecision Applied.
Proof. solve_decision. Defined.

Definition version_le (x y : Applied) : Prop := ap_version x ≤ ap_version y.
#[global] Instance version_le_dec : RelDecision version_le.
Proof. intros x y. unfold version_le. apply _. Defined.

(** [SELECT version,checksum,success FROM _sqlx_migrations ORDER BY version LIMIT 1025] *)
Definition applied_rows (table : list Applied) : list Applied :=
  take 1025 (merge_sort version_le table).

(** The body of the loop over the rows and migrations. *)
Definition check_migration (entry : Applied * MigrationFile) : result Error unit :=
  let '(row, migration) := entry in
  fail_if (negb (ap_success row) || negb (ap_version row =? mg_version migration)
           || negb (bool_decide (ap_checksum row = mg_checksum migration))) IncompatibleSchema.

(** [Store::check_schema]: the directory's migrations and the table's rows,
    [None] where reading them fails. *)
Definition check_schema (directory : option (list MigrationFile)) (table : option (list Applied)) :
    result Error unit :=
  expected ← ok_or directory Migration;
  let migrations := filter mg_up expected in
  fail_if (bool_decide (migrations = []) || (1024 <? Z.of_nat (length migrations)))
    IncompatibleSchema;;
  rows ← ok_or (applied_rows <$> table) Database;
  fail_if (negb (bool_decide (length rows = length migrations))) IncompatibleSchema;;
  for_each check_migration (zip rows migrations).

(** ** Connections *)

(** [Store::connect]; [connected] is whether the pool could be opened. *)
Definition connect (max_connections : Z) (connected : bool) : result Error unit :=
  fail_if (negb (in_range 1 32 max_connections)) (Configuration "pool size must be 1..=32");;
  fail_if (negb connected) Database.

(** [Store::migrate], and whether the session it took goes back to the pool:
    it was marked to be closed when dropped. *)
Definition migrate (directory : option (list MigrationFile)) (acquired ran closed : bool) :
    result Error unit * bool :=
  match directory with
  | None => (Err Migration, false)
  | Some _ =>
    if negb acquired then (Err Database, false)
    else
      (fail_if (negb ran) Migration;; fail_if (negb closed) Database, false)
  end.

(** ** The gate *)

(** The row a migration leaves once it has been applied. *)
Definition applied_of (m : MigrationFile) : Applied :=
  mkApplied (mg_version m) (mg_checksum m) true.

Lemma check_migration_Ok row m : check_migration (row, m) = Ok () ↔ row = applied_of m.
Proof.
  unfold check_migration. rewrite fail_if_Ok, !orb_false_iff, !negb_false_iff, Z.eqb_eq,
    bool_decide_eq_true. unfold applied_of. split.
  - intros [[Hs Hv] Hc]. destruct row. simpl in *. by subst.
  - by intros ->.
Qed.

Lemma check_migrations_Ok rows ms :
  length rows = length ms →
  for_each check_migration (zip rows ms) = Ok () ↔ rows = applied_of <$> ms.
Proof.
  rewrite for_each_Ok. revert ms. induction rows as [|row rows IH]; intros [|m ms] Hl; try done.
  simpl. rewrite Forall_cons, check_migration_Ok, IH by (simpl in Hl; lia).
  split; [by intros [-> ->]|by intros [= -> ->]].
Qed.

Lemma check_migration_Err entry e : check_migration entry = Err e → e = IncompatibleSchema.
Proof. destruct entry. by intros [_ <-]%fail_if_Err. Qed.

#[local] Instance version_le_preorder : PreOrder version_le.
Proof. split; intros x; unfold version_le; intros; lia. Qed.
#[local] Instance version_le_total : Total version_le.
Proof. intros x y. unfold version_le. lia. Qed.

Lemma versions_apart ms m m' :
  StronglySorted (λ m m', mg_version m < mg_version m') ms → m ∈ ms → m' ∈ ms →
  m = m' ∨ mg_version m < mg_version m' ∨ mg_version m' < mg_version m.
Proof.
  induction 1 as [|x ms _ IH Hall]; intros Hm Hm'; [by apply not_elem_of_nil in Hm|].
  rewrite Forall_forall in Hall. apply elem_of_cons in Hm as [->|Hm], Hm' as [->|Hm']; auto.
Qed.

(** A table whose rows are the applied migrations reads back in their order. *)
Lemma sorted_table table ms :
  StronglySorted (λ m m', mg_version m < mg_version m') ms →
  table ≡ₚ applied_of <$> ms → merge_sort version_le table = applied_of <$> ms.
Proof.
  intros Hs Hp. apply (StronglySorted_unique_strong version_le).
  - intros x y Hx Hy. rewrite merge_sort_Permutation, Hp in Hx.
    apply list_elem_of_fmap in Hx as (m & -> & Hm), Hy as (m' & -> & Hm').
    unfold version_le. simpl. intros H1 H2.
    destruct (versions_apart ms m m' Hs Hm Hm') as [->|[?|?]]; [done|lia|lia].
  - apply StronglySorted_merge_sort; apply _.
  - clear Hp. induction Hs as [|m ms Hs IH Hall]; [constructor|]. simpl. constructor; [done|].
    apply Forall_fmap. eapply Forall_impl; [exact Hall|]. intros m'. unfold version_le. simpl. lia.
  - by rewrite merge_sort_Permutation.
Qed.

(** ** Properties *)

(** C28: the schema gate lets exactly the program's own schema through.  When
    the directory and the table can be read, the check succeeds if and only if
    the database went through every one of the program's migrations, between 1
    and 1024 of them, unaltered and to success, and through no other; in every
    other case, missing, failed, changed, older or newer migrations alike, the
    database is refused as incompatible. *)
Theorem schema_gate directory table :
  StronglySorted (λ m m', mg_version m < mg_version m') (filter mg_up directory) →
  let ms := filter mg_up directory in
  let matches := 1 ≤ Z.of_nat (length ms) ≤ 1024 ∧ table ≡ₚ applied_of <$> ms in
  (check_schema (Some directory) (Some table) = Ok () ↔ matches) ∧
  (check_schema (Some directory) (Some table) = Err IncompatibleSchema ↔ ¬ matches).
Proof.
  intros Hs ms matches.
  assert (check_schema (Some directory) (Some table) = Ok () ↔ matches) as Hok.
  { unfold check_schema. cbn [ok_or mbind result_bind fmap option_fmap option_map].
    change (filter mg_up directory) with ms. rewrite guard_Ok, guard_Ok.
    autorewrite with bools. unfold applied_rows. split.
    - intros ([Hne Hle] & Hlen & Hall).
      apply check_migrations_Ok in Hall; [|done].
      rewrite length_take in Hlen. rewrite take_ge in Hall by lia.
      split; [destruct ms; [done|simpl in *; lia]|].
      by rewrite <-Hall, merge_sort_Permutation.
    - intros [Hn Hp]. pose proof (Permutation_length Hp) as Hl. rewrite length_fmap in Hl.
      rewrite (sorted_table table ms Hs Hp), take_ge by (rewrite length_fmap; lia).
      split_and!; [destruct ms; [simpl in *; lia|done]|lia|by rewrite length_fmap|].
      by apply check_migrations_Ok; [rewrite length_fmap|]. }
  split; [exact Hok|]. rewrite <-Hok.
  assert (∀ e, check_schema (Some directory) (Some table) = Err e → e = IncompatibleSchema) as Herr.
  { unfold check_schema. cbn [ok_or mbind result_bind fmap option_fmap option_map].
    intros e [[_ <-]|[_ [[_ <-]|[_ He]]%guard_Err]]%guard_Err; [done|done|].
    apply for_each_Err in He as (_ & entry & _ & _ & _ & He). by apply check_migration_Err in He. }
  destruct (check_schema (Some directory) (Some table)) as [[]|e]; [naive_solver|].
  by rewrite (Herr e eq_refl).
Qed.

Lemma schema_gate_witness :
  let first := mkMigrationFile 1 [x01] true in
  let second := mkMigrationFile 2 [x02] true in
  check_schema (Some [first; second]) (Some [applied_of first]) = Err IncompatibleSchema.
Proof.
  intros first second.
  apply (proj2 (schema_gate [first; second] [applied_of first]
    ltac:(vm_compute; repeat constructor))).
  intros [_ Hp%Permutation_length]. vm_compute in Hp. discriminate Hp.
Defined.
