(* ===== verification/Events.v ===== *)
(** * Events: the hash-chained event log of a run

    Models [append_event] of [crates/store/src/lib.rs], against the abstract log
    it implements: a list of events whose head digest commits to all of them. *)
From S2P Require Export Db.

(** [UPDATE runs SET next_event_seq=$3,last_event_hash=$4] *)
Definition set_event_head (next : Z) (hash : list byte) (r : RunRow) : RunRow := {|
  r_idempotency_key := r_idempotency_key r; r_request_hash := r_request_hash r;
  r_module_digest := r_module_digest r; r_grant_id := r_grant_id r;
  r_input_bytes := r_input_bytes r; r_output_bytes := r_output_bytes r;
  r_limits := r_limits r; r_state := r_state r; r_lease_epoch := r_lease_epoch r;
  r_lease_owner := r_lease_owner r; r_lease_expires_at := r_lease_expires_at r;
  r_attempt := r_attempt r; r_active_slot_held := r_active_slot_held r;
  r_cancel_requested := r_cancel_requested r; r_error_code := r_error_code r;
  r_next_event_seq := next; r_last_event_hash := hash;
  r_created_at := r_created_at r; r_updated_at := r_updated_at r;
|}.

(** [seq.checked_add(1).filter(|_| seq > 0)] *)
Definition next_event_seq (seq : Z) : option Z :=
  next ← checked_i64 (seq + 1); if 0 <? seq then Some next else None.

Section append.
Context `{Sha256}.

Definition append_event (tenant run : Uuid) (kind : string) (payload : list byte) :
    StoreTx (list byte) :=
  tx_fail_if (str_is_empty kind || (128 <? str_len kind)
              || (16384 <? Z.of_nat (length payload)))
    (Configuration "invalid event kind or payload size");;
  head ← fetch_optional (λ db, db_runs db !! (tenant, run)) RunNotFound;
  let seq := r_next_event_seq head in
  next ← tx_ok_or (next_event_seq seq) CorruptEventHead;
  let previous := r_last_event_hash head in
  tx_fail_if (negb (Z.of_nat (length previous) =? 32)) CorruptEventHead;;
  let hash := hash_event tenant run seq previous kind payload in
  insert_event tenant run seq {|
    ev_kind := kind; ev_payload := payload; ev_prev_hash := previous; ev_hash := hash;
  |};;
  update_run tenant run (λ _, true) (set_event_head next hash);;
  mret hash.

(** ** The abstract log *)

Definition zero_hash : list byte := replicate 32 x00.

(** The head digest of a log: each event is hashed with its position and the
    digest before it. *)
Fixpoint chain_from (tenant run : Uuid) (seq : Z) (previous : list byte)
    (log : list (string * list byte)) : list byte :=
  match log with
  | [] => previous
  | (kind, payload) :: log =>
    chain_from tenant run (seq + 1)
      (hash_event tenant run seq previous kind payload) log
  end.
Definition chain_head (tenant run : Uuid) (log : list (string * list byte)) : list byte :=
  chain_from tenant run 1 zero_hash log.

Definition event_size_ok (e : string * list byte) : Prop :=
  e.1 ≠ ""%string ∧ str_len e.1 ≤ 128 ∧ Z.of_nat (length e.2) ≤ 16384.

(** The tables hold exactly the events of [log] for this run. *)
Record log_rep (db : Db) (tenant run : Uuid) (row : RunRow)
    (log : list (string * list byte)) : Prop := {
  rep_next : r_next_event_seq row = Z.of_nat (length log) + 1;
  rep_head : r_last_event_hash row = chain_head tenant run log;
  rep_size : Forall event_size_ok log;
  rep_events : ∀ seq, db_events db !! (tenant, run, seq) =
    (if decide (1 ≤ seq) then
       (λ kp, {| ev_kind := kp.1; ev_payload := kp.2;
                 ev_prev_hash := chain_head tenant run (take (Z.to_nat (seq - 1)) log);
                 ev_hash := chain_head tenant run (take (Z.to_nat seq) log) |})
       <$> log !! Z.to_nat (seq - 1)
     else None);
}.

(** Every run of the database has a well-formed log. *)
Definition logs_ok (db : Db) : Prop :=
  (∀ tenant run row, db_runs db !! (tenant, run) = Some row →
     ∃ log, log_rep db tenant run row log) ∧
  (∀ tenant run seq, db_runs db !! (tenant, run) = None →
     db_events db !! (tenant, run, seq) = None).

Lemma chain_from_app tenant run seq previous log log' :
  chain_from tenant run seq previous (log ++ log') =
  chain_from tenant run (seq + Z.of_nat (length log))
    (chain_from tenant run seq previous log) log'.
Proof.
  revert seq previous. induction log as [|[kind payload] log IH]; intros seq previous.
  - simpl. f_equal. lia.
  - cbn [app chain_from length]. rewrite IH. f_equal. lia.
Qed.

Lemma chain_head_snoc tenant run log kind payload :
  chain_head tenant run (log ++ [(kind, payload)]) =
  hash_event tenant run (Z.of_nat (length log) + 1) (chain_head tenant run log)
    kind payload.
Proof. unfold chain_head. rewrite chain_from_app. simpl. f_equal. lia. Qed.

Lemma next_event_seq_Some seq next :
  next_event_seq seq = Some next ↔ 0 < seq < i64_max ∧ next = seq + 1.
Proof.
  unfold next_event_seq. rewrite bind_Some. setoid_rewrite checked_Some.
  unfold i64_min, i64_max. split.
  - intros (n & [? ->] & Hn). case_bool (0 <? seq); simplify_eq. lia.
  - intros [? ->]. exists (seq + 1). split; [lia|].
    case_bool (0 <? seq); [done|lia].
Qed.

Context `{!Sha256Laws}.

Lemma length_chain_head tenant run log : length (chain_head tenant run log) = 32%nat.
Proof.
  destruct log as [|e log _] using rev_ind; [done|]. destruct e as [kind payload].
  rewrite chain_head_snoc. apply sha256_length.
Qed.
End append.

Section append_lemmas.
Context `{Sha256, !Sha256Laws}.

(** The database after one append. *)
Definition appended (tenant run : Uuid) (kind : string) (payload : list byte)
    (row : RunRow) (db : Db) : Db :=
  let hash := hash_event tenant run (r_next_event_seq row) (r_last_event_hash row)
                kind payload in
  with_runs <[(tenant, run) := set_event_head (r_next_event_seq row + 1) hash row]>
    (with_events <[(tenant, run, r_next_event_seq row) := {|
       ev_kind := kind; ev_payload := payload;
       ev_prev_hash := r_last_event_hash row; ev_hash := hash |}]> db).

Lemma append_event_Ok tenant run kind payload db h db' :
  append_event tenant run kind payload db = Ok (h, db') →
  ∃ row, db_runs db !! (tenant, run) = Some row ∧
    event_size_ok (kind, payload) ∧ 0 < r_next_event_seq row < i64_max ∧
    db_events db !! (tenant, run, r_next_event_seq row) = None ∧
    h = hash_event tenant run (r_next_event_seq row) (r_last_event_hash row) kind payload ∧
    db' = appended tenant run kind payload row db.
Proof.
  unfold append_event. intros Happ. inv_db. bools.
  match goal with E : next_event_seq _ = _ |- _ => apply next_event_seq_Some in E as [? ->] end.
  match goal with E : update_run _ _ _ _ _ = _ |- _ =>
    apply update_run_Ok in E as [(r & Hr & _ & _ & _ & ->)|(_ & _ & Hg)] end;
    [|exfalso; simpl in *; by eapply eq_true_false_abs, Hg].
  simpl in Hr. simplify_eq. eexists. split_and!; try done; unfold str_is_empty in *; by bools.
Qed.

Lemma set_event_head_check next hash r :
  run_check r = true → length hash = 32%nat → run_check (set_event_head next hash r) = true.
Proof. unfold run_check. simpl. intros Hr ->. bools. split_and!; auto. Qed.

(** Nothing prevents an append to a well-formed log below the counter bound. *)
Lemma append_event_total tenant run kind payload db row log :
  db_runs db !! (tenant, run) = Some row → run_check row = true →
  log_rep db tenant run row log → event_size_ok (kind, payload) →
  r_next_event_seq row < i64_max →
  append_event tenant run kind payload db =
    Ok (chain_head tenant run (log ++ [(kind, payload)]),
        appended tenant run kind payload row db).
Proof.
  intros Hrow Hcheck [Hnext Hhead Hsize Hevents] (Hk & Hkl & Hpl) Hmax. simpl in *.
  assert (length (r_last_event_hash row) = 32%nat) as Hlen
    by (rewrite Hhead; apply length_chain_head).
  unfold append_event. tx_step.
  { apply tx_fail_if_Ok. split; [|done]. unfold str_is_empty.
    autorewrite with bools. auto. }
  tx_step; [by apply fetch_optional_Ok|].
  tx_step; [apply tx_ok_or_Ok; split; [by apply next_event_seq_Some; split; [lia|]|done]|].
  tx_step; [apply tx_fail_if_Ok; by rewrite Hlen|].
  tx_step.
  { apply insert_event_Ok. split_and!; [|rewrite Hevents|by rewrite Hrow|done].
    - unfold event_check, hash_event. simpl. rewrite sha256_length, Hlen.
      autorewrite with bools. lia.
    - rewrite decide_True by lia. by rewrite lookup_ge_None_2 by lia. }
  tx_step.
  { unfold update_run. simpl. rewrite Hrow, set_event_head_check; [done..|].
    apply sha256_length. }
  rewrite chain_head_snoc, <-Hhead, <-Hnext. done.
Qed.

(** An append extends the abstract log by one event. *)
Lemma log_rep_appended tenant run kind payload db row log :
  log_rep db tenant run row log → event_size_ok (kind, payload) →
  log_rep (appended tenant run kind payload row db) tenant run
    (set_event_head (r_next_event_seq row + 1)
       (hash_event tenant run (r_next_event_seq row) (r_last_event_hash row)
          kind payload) row)
    (log ++ [(kind, payload)]).
Proof.
  intros [Hnext Hhead Hsize Hevents] Hok.
  assert (hash_event tenant run (r_next_event_seq row) (r_last_event_hash row) kind payload
          = chain_head tenant run (log ++ [(kind, payload)])) as Hhash.
  { by rewrite chain_head_snoc, <-Hhead, <-Hnext. }
  constructor; simpl.
  - rewrite length_app. simpl. lia.
  - done.
  - by apply Forall_app_2; [|constructor].
  - intros seq. destruct (decide (seq = r_next_event_seq row)) as [->|Hne].
    + rewrite lookup_insert_eq, decide_True by lia.
      rewrite Hnext, Z.add_simpl_r, Nat2Z.id, list_lookup_middle by done. simpl.
      rewrite take_app_length, take_ge by (rewrite length_app; simpl; lia).
      rewrite <-Hnext, Hhash, Hhead. done.
    + rewrite lookup_insert_ne by congruence. rewrite Hevents.
      destruct (decide (1 ≤ seq)) as [Hseq|]; [|done].
      destruct (decide (seq < r_next_event_seq row)).
      * rewrite lookup_app_l by lia. by rewrite !take_app_le by lia.
      * rewrite !lookup_ge_None_2; [done|rewrite length_app; simpl; lia|lia].
Qed.
End append_lemmas.

(** A log only depends on the run's own events and head. *)
Lemma log_rep_frame `{Sha256} db db' tenant run row row' log :
  log_rep db tenant run row log →
  r_next_event_seq row' = r_next_event_seq row →
  r_last_event_hash row' = r_last_event_hash row →
  (∀ seq, db_events db' !! (tenant, run, seq) = db_events db !! (tenant, run, seq)) →
  log_rep db' tenant run row' log.
Proof.
  intros [] Hn Hh He. constructor; try congruence. intros seq. by rewrite He.
Qed.

Lemma logs_ok_frame `{Sha256} db db' :
  logs_ok db → db_events db' = db_events db →
  (∀ k row', db_runs db' !! k = Some row' → ∃ row, db_runs db !! k = Some row ∧
     r_next_event_seq row' = r_next_event_seq row ∧
     r_last_event_hash row' = r_last_event_hash row) →
  (∀ k, db_runs db' !! k = None → db_runs db !! k = None) →
  logs_ok db'.
Proof.
  intros [Hlogs Hnone] He Hruns Hdom. split.
  - intros tenant run row' (row & Hrow & Hn & Hh)%Hruns.
    destruct (Hlogs _ _ _ Hrow) as [log Hlog]. exists log.
    eapply log_rep_frame; [done..|]. intros. by rewrite He.
  - intros tenant run seq Hk. rewrite He. auto.
Qed.

Section log_theory.
Context `{Sha256, !Sha256Laws}.

Lemma appended_other tenant run kind payload row db k :
  k ≠ (tenant, run) → db_runs (appended tenant run kind payload row db) !! k = db_runs db !! k.
Proof. intros. simpl. by rewrite lookup_insert_ne. Qed.

Lemma appended_self tenant run kind payload row db :
  db_runs (appended tenant run kind payload row db) !! (tenant, run) =
  Some (set_event_head (r_next_event_seq row + 1)
          (hash_event tenant run (r_next_event_seq row) (r_last_event_hash row)
             kind payload) row).
Proof. simpl. by rewrite lookup_insert_eq. Qed.

Lemma logs_ok_appended tenant run kind payload db row :
  logs_ok db → db_runs db !! (tenant, run) = Some row → event_size_ok (kind, payload) →
  logs_ok (appended tenant run kind payload row db).
Proof.
  intros [Hlogs Hnone] Hrow Hok. split.
  - intros tenant' run' row'.
    destruct (decide ((tenant', run') = (tenant, run))) as [[= -> ->]|Hne].
    + rewrite appended_self. intros [= <-]. destruct (Hlogs _ _ _ Hrow) as [log Hlog].
      exists (log ++ [(kind, payload)]). by apply log_rep_appended.
    + rewrite appended_other by done. intros Hrow'.
      destruct (Hlogs _ _ _ Hrow') as [log Hlog]. exists log.
      eapply log_rep_frame; [done..|]. intros seq. simpl.
      rewrite lookup_insert_ne; [done|]. congruence.
  - intros tenant' run' seq Hk.
    destruct (decide ((tenant', run') = (tenant, run))) as [[= -> ->]|Hne].
    + by rewrite appended_self in Hk.
    + rewrite appended_other in Hk by done. simpl.
      rewrite lookup_insert_ne by congruence. auto.
Qed.

Lemma event_contract_ok tenant run seq previous kind payload :
  uuid_ok tenant → uuid_ok run → 0 ≤ seq ≤ u64_max → length previous = 32%nat →
  event_size_ok (kind, payload) →
  contract_ok (EventContract tenant run seq previous kind payload).
Proof.
  intros ? ? ? ? (_ & ? & ?). simpl in *. unfold str_len, fits, u64_max in *.
  bools. split_and!; auto; lia.
Qed.

(** The bytes that were hashed for the event at position [i]. *)
Definition log_preimage (tenant run : Uuid) (log : list (string * list byte)) (i : nat) :
    option (list byte) :=
  (λ kp, event_preimage tenant run (Z.of_nat i + 1) (chain_head tenant run (take i log))
     kp.1 kp.2) <$> log !! i.

(** Some position of two logs whose hashed bytes are a SHA-256 collision. *)
Definition logs_collide (tenant run : Uuid) (log log' : list (string * list byte)) : Prop :=
  ∃ i x y, log_preimage tenant run log i = Some x ∧ log_preimage tenant run log' i = Some y ∧
    sha256_collides x y.

Lemma log_preimage_app tenant run log log2 i x :
  log_preimage tenant run log i = Some x → log_preimage tenant run (log ++ log2) i = Some x.
Proof.
  unfold log_preimage. intros (kp & Hi & ->)%fmap_Some.
  rewrite (lookup_app_l_Some _ _ _ _ Hi), take_app_le; [done|].
  apply lookup_lt_Some in Hi. lia.
Qed.

Lemma log_preimage_snoc tenant run log kind payload :
  log_preimage tenant run (log ++ [(kind, payload)]) (length log) =
    Some (event_preimage tenant run (Z.of_nat (length log) + 1)
            (chain_head tenant run log) kind payload).
Proof.
  unfold log_preimage.
  by rewrite lookup_app_r, Nat.sub_diag, take_app_length by done.
Qed.

(** Equal heads of equally long logs commit to equal logs. *)
Lemma chain_head_binding tenant run log log' :
  uuid_ok tenant → uuid_ok run →
  Forall event_size_ok log → Forall event_size_ok log' →
  length log = length log' → Z.of_nat (length log) < i64_max →
  chain_head tenant run log = chain_head tenant run log' →
  log = log' ∨ logs_collide tenant run log log'.
Proof.
  intros Ht Hr. revert log'.
  induction log as [|[kind payload] log IH] using rev_ind; intros log' Hs Hs' Hlen Hmax Heq.
  { left. symmetry. by apply nil_length_inv. }
  destruct log' as [|[kind' payload'] log' _] using rev_ind.
  { rewrite length_app in Hlen. simpl in Hlen. lia. }
  rewrite !length_app in Hlen. rewrite length_app in Hmax. simpl in *.
  apply Forall_app in Hs as [Hs [Hk _]%Forall_cons_1].
  apply Forall_app in Hs' as [Hs' [Hk' _]%Forall_cons_1].
  rewrite !chain_head_snoc in Heq. replace (length log') with (length log) in Heq by lia.
  unfold hash_event in Heq.
  destruct (decide (event_preimage tenant run (Z.of_nat (length log) + 1)
                      (chain_head tenant run log) kind payload =
                    event_preimage tenant run (Z.of_nat (length log) + 1)
                      (chain_head tenant run log') kind' payload')) as [Hp|Hp].
  - assert (EventContract tenant run (Z.of_nat (length log) + 1)
              (chain_head tenant run log) kind payload ≡
            EventContract tenant run (Z.of_nat (length log) + 1)
              (chain_head tenant run log') kind' payload') as Hc.
    { unfold i64_max in Hmax. apply contract_preimage_inj;
        [apply event_contract_ok..|exact Hp]; auto using length_chain_head;
        unfold u64_max; lia. }
    injection Hc as Hheads -> ->.
    destruct (IH log' Hs Hs') as [->|(i & x & y & Hx & Hy & Hc)]; [lia|lia|done|by left|].
    right. exists i, x, y. eauto using log_preimage_app.
  - right. eexists (length log), _, _.
    split; [apply log_preimage_snoc|]. split; [|by split; [exact Hp|]].
    assert (length log = length log') as -> by lia. apply log_preimage_snoc.
Qed.
End log_theory.

(** A database with one run and no event yet. *)
Module LogDemo.
Import Reference.

Definition row : RunRow := {|
  r_idempotency_key := "key"; r_request_hash := replicate 32 x00;
  r_module_digest := replicate 32 x00; r_grant_id := 11; r_input_bytes := Some [];
  r_output_bytes := None; r_limits := "{}"; r_state := Queued; r_lease_epoch := 0;
  r_lease_owner := None; r_lease_expires_at := None; r_attempt := 0;
  r_active_slot_held := false; r_cancel_requested := false; r_error_code := None;
  r_next_event_seq := 1; r_last_event_hash := zero_hash; r_created_at := 0; r_updated_at := 0;
|}.
Definition db : Db := {|
  db_tenants := ∅; db_dispatch_seq := Some 0; db_modules := ∅; db_grants := ∅;
  db_runs := {[(1, 2) := row]}; db_effects := ∅; db_reservations := ∅; db_events := ∅;
  db_operator_events := [];
|}.

Lemma row_found : db_runs db !! (1, 2) = Some row.
Proof. reflexivity. Qed.
Lemma row_ok : run_check row = true.
Proof. vm_compute. reflexivity. Qed.
Lemma log : log_rep db 1 2 row [].
Proof. split; try done. intros seq. simpl. by repeat case_decide. Qed.
Lemma demo_logs : logs_ok db.
Proof.
  split.
  - intros t r row'. unfold db. cbn [db_runs].
    intros [[= <- <-] <-]%lookup_singleton_Some. exists []. apply log.
  - done.
Qed.
Lemma event_ok : event_size_ok ("admitted"%string, [x00]).
Proof. by vm_compute. Qed.

(** The run's log with one event, and a database where another run has one too. *)
Definition events : list (string * list byte) := [("admitted"%string, [x00])].
Definition logged_db : Db := appended 1 2 "admitted" [x00] row db.
Definition logged_row : RunRow :=
  set_event_head 2 (hash_event 1 2 1 zero_hash "admitted" [x00]) row.
Definition other_db : Db := with_events <[(1, 3, 1) := mkEventRow "started" [] zero_hash zero_hash]>
  logged_db.
Lemma logged : log_rep logged_db 1 2 logged_row events.
Proof. exact (log_rep_appended 1 2 "admitted" [x00] db row [] log event_ok). Qed.
Lemma logged_other : log_rep other_db 1 2 logged_row events.
Proof.
  apply (log_rep_frame logged_db _ _ _ logged_row); [apply logged|done|done|].
  intros seq. unfold other_db. simpl. by rewrite lookup_insert_ne.
Qed.
Lemma no_collision : ¬ logs_collide 1 2 events events.
Proof. intros (i & x & y & Hx & Hy & Hne & _). rewrite Hx in Hy. by injection Hy. Qed.
End LogDemo.

(** ** Properties *)

(** [append_event] implements the abstract append-only log.  On a
    database whose logs are well formed it succeeds for every event within the
    size limits while the counter has room, yields the head digest of the
    extended log, extends this run's log by exactly this event, and leaves every
    other row, event and table alone; and its successes are exactly that. *)
Theorem append_event_refines `{Sha256, !Sha256Laws} tenant run kind payload db row log :
  logs_ok db → db_runs db !! (tenant, run) = Some row → run_check row = true →
  log_rep db tenant run row log →
  (event_size_ok (kind, payload) → r_next_event_seq row < i64_max →
   is_ok (append_event tenant run kind payload db) = true) ∧
  (∀ h db', append_event tenant run kind payload db = Ok (h, db') →
   h = chain_head tenant run (log ++ [(kind, payload)]) ∧
   (∃ row', db_runs db' !! (tenant, run) = Some row' ∧
      log_rep db' tenant run row' (log ++ [(kind, payload)]) ∧
      row = set_event_head (r_next_event_seq row) (r_last_event_hash row) row') ∧
   (∀ k, k ≠ (tenant, run) → db_runs db' !! k = db_runs db !! k) ∧
   (∀ k, k.1 ≠ (tenant, run) → db_events db' !! k = db_events db !! k) ∧
   db_effects db' = db_effects db ∧ db_tenants db' = db_tenants db ∧
   logs_ok db').
Proof.
  intros Hlogs Hrow Hcheck Hlog. split.
  - intros Hok Hmax. by rewrite (append_event_total _ _ _ _ _ _ _ Hrow Hcheck Hlog).
  - intros h db' (row' & Hrow' & Hok & _ & _ & -> & ->)%append_event_Ok. simplify_eq.
    split_and!.
    + destruct Hlog. rewrite chain_head_snoc. congruence.
    + eexists. rewrite appended_self. split_and!; [done|by apply log_rep_appended|].
      by destruct row.
    + intros k Hk. by apply appended_other.
    + intros [[t r] seq] Hk. simpl in *. rewrite lookup_insert_ne; [done|congruence].
    + done.
    + done.
    + by apply logs_ok_appended.
Qed.

Lemma append_event_refines_witness :
  let _ := Reference.sha256_ref in
  is_ok (append_event 1 2 "admitted" [x00] LogDemo.db) = true.
Proof.
  intros sha. exact (proj1 (append_event_refines (H0 := Reference.sha256_ref_laws)
    1 2 "admitted" [x00] _ _ _ LogDemo.demo_logs LogDemo.row_found LogDemo.row_ok LogDemo.log)
    LogDemo.event_ok eq_refl).
Defined.

(** C33: a run's head commits to its whole event history.  If two
    databases hold well-formed logs of one run and agree on its event counter
    and head digest, they hold the same events for it, byte for byte, or
    SHA-256 has collided on the bytes hashed for one of their events. *)
Theorem event_log_tamper_evident `{Sha256, !Sha256Laws} tenant run db row db' row' log log' :
  uuid_ok tenant → uuid_ok run →
  log_rep db tenant run row log → log_rep db' tenant run row' log' →
  r_next_event_seq row = r_next_event_seq row' → r_next_event_seq row ≤ i64_max →
  r_last_event_hash row = r_last_event_hash row' →
  (∀ seq, db_events db !! (tenant, run, seq) = db_events db' !! (tenant, run, seq))
  ∨ logs_collide tenant run log log'.
Proof.
  intros Ht Hr [Hn Hh Hs He] [Hn' Hh' Hs' He'] Hnn Hmax Hhh.
  destruct (chain_head_binding tenant run log log') as [->|?];
    [done..|lia|lia|congruence| |by right].
  left. intros seq. by rewrite He, He'.
Qed.

Lemma event_log_tamper_evident_witness :
  let _ := Reference.sha256_ref in
  db_events LogDemo.logged_db !! (1, 2, 1) = db_events LogDemo.other_db !! (1, 2, 1).
Proof.
  intros sha.
  assert (uuid_ok 1 ∧ uuid_ok 2 ∧ r_next_event_seq LogDemo.logged_row ≤ i64_max)
    as (Ht & Hr & Hmax) by (split_and!; by split || done).
  destruct (event_log_tamper_evident (H0 := Reference.sha256_ref_laws) 1 2 _ _ _ _ _ _ Ht Hr
    LogDemo.logged LogDemo.logged_other eq_refl Hmax eq_refl) as [Hsame|Hc].
  - exact (Hsame 1).
  - destruct (LogDemo.no_collision Hc).
Defined.
