(* ===== verification/Ledger.v ===== *)
(** * Ledger: stored grants, revocation and reservations

    Models the grant operations of [crates/store/src/lib.rs]: loading a locked
    ancestry, creating, reading and revoking grants, and charging an effect to
    every ancestor of the run's grant. *)
From S2P Require Export Events.

(** PostgreSQL's timestamp functions, on microseconds:
    [to_timestamp($9::double precision/1000.0)],
    [floor(extract(epoch FROM t)*1000)::bigint] and
    [to_char(t AT TIME ZONE 'UTC', ...)]. *)
Class PgTime := {
  pg_to_timestamp : Z → Z;
  pg_epoch_ms : Z → Z;
  pg_to_char : Z → string;
}.

(** A double holds every millisecond count below 8 * 10^12 (the year 2223),
    divided by 1000, to within half a microsecond, which is what a timestamp is
    rounded to. *)
Class PgTimeLaws `{PgTime} : Prop :=
  pg_epoch_to_timestamp : ∀ ms, 0 ≤ ms < 8000000000000 → pg_epoch_ms (pg_to_timestamp ms) = ms.

(** ** Loading an ancestry *)

(** A row of the recursive query [chain(id,parent_id,depth)]. *)
Abbreviation chain_row := (Uuid * option Uuid * Z)%type.

(** [WITH RECURSIVE chain AS (... UNION ...)]: each round follows the parent of
    the row the last one added; UNION drops a row already there, which ends the
    recursion.  [fuel] bounds the rounds. *)
Fixpoint grant_cte (fuel : nat) (grants : gmap (Uuid * Uuid) GrantRow) (tenant : Uuid)
    (id : Uuid) (chain : list chain_row) : list chain_row :=
  match fuel with
  | O => chain
  | S fuel =>
    match grants !! (tenant, id) with
    | None => chain
    | Some g =>
      let row := (id, gr_parent_id g, gr_depth g) in
      if decide (row ∈ chain) then chain
      else match gr_parent_id g with
      | None => chain ++ [row]
      | Some parent => grant_cte fuel grants tenant parent (chain ++ [row])
      end
    end
  end.

Definition depth_le (x y : chain_row) : Prop := x.2 ≤ y.2.
#[global] Instance depth_le_dec : RelDecision depth_le.
Proof. intros x y. unfold depth_le. apply _. Defined.

(** [SELECT id FROM chain ORDER BY depth], with a round for every grant. *)
Definition grant_ids (tenant leaf : Uuid) (db : Db) : list Uuid :=
  (λ row, row.1.1) <$>
    merge_sort depth_le (grant_cte (S (size (db_grants db))) (db_grants db) tenant leaf []).

Section ledger.
Context `{PgTime}.

Definition row_authority (row : GrantRow) : Authority := {|
  actions := list_to_set (gr_actions row);
  destinations := list_to_set (gr_destinations row);
  projects := list_to_set (gr_projects row);
  expires_at_ms := pg_epoch_ms (gr_expires_at row);
  au_max_effects := gr_max_effects row;
|}.

(** The [Grant] pushed for one row. *)
Definition grant_of_row (tenant id : Uuid) (row : GrantRow) : result Error Grant :=
  depth ← ok_or (checked_u8 (gr_depth row)) CorruptGrant;
  max ← ok_or (checked_u64 (gr_max_effects row)) CorruptGrant;
  used ← ok_or (checked_u64 (gr_used_effects row)) CorruptGrant;
  mret {|
    g_id := id; g_tenant_id := tenant; g_parent_id := gr_parent_id row;
    g_depth := depth; g_authority := row_authority row;
    g_used_effects := used; g_revoked := bool_decide (gr_revoked_at row ≠ None);
  |}.

Definition unrevoke (g : Grant) : Grant := {|
  g_id := g_id g; g_tenant_id := g_tenant_id g; g_parent_id := g_parent_id g;
  g_depth := g_depth g; g_authority := g_authority g;
  g_used_effects := g_used_effects g; g_revoked := false;
|}.

Definition structural_error (e : GrantError) : Error :=
  match e with GInactive => CorruptGrant | other => GrantValidation other end.

Definition load_grant (tenant : Uuid) (db : Db) (id : Uuid) : result Error Grant :=
  row ← ok_or (db_grants db !! (tenant, id)) GrantNotFound;
  grant_of_row tenant id row.

(** [load_grant_chain_locked]; its locks serialize the transactions that load
    overlapping chains, and it only reads. *)
Definition load_chain (tenant leaf : Uuid) (db : Db) : result Error (list Grant) :=
  let ids := grant_ids tenant leaf db in
  fail_if (bool_decide (ids = []) || (5 <? Z.of_nat (length ids))) GrantNotFound;;
  grants ← try_map (load_grant tenant db) ids;
  map_err structural_error (validate_chain (unrevoke <$> grants) tenant i64_min);;
  mret grants.

Definition load_grant_chain_locked (tenant leaf : Uuid) : StoreTx (list Grant) :=
  tx_query (load_chain tenant leaf).

(** [GrantRecord] *)
Record GrantRecord := mkGrantRecord {
  grec_id : Uuid;
  grec_parent_id : option Uuid;
  grec_depth : Z;
  grec_actions : list string;
  grec_destinations : list string;
  grec_projects : list string;
  grec_expires_at : string;
  grec_max_effects : Z;
  grec_used_effects : Z;
  grec_revoked_at : option string;
  grec_ancestry : list Uuid;
}.

Definition fetch_grant_record (tenant id : Uuid) (ancestry : list Uuid) :
    StoreTx GrantRecord :=
  row ← fetch_optional (λ db, db_grants db !! (tenant, id)) GrantNotFound;
  mret {|
    grec_id := id; grec_parent_id := gr_parent_id row; grec_depth := gr_depth row;
    grec_actions := gr_actions row; grec_destinations := gr_destinations row;
    grec_projects := gr_projects row;
    grec_expires_at := pg_to_char (gr_expires_at row);
    grec_max_effects := gr_max_effects row; grec_used_effects := gr_used_effects row;
    grec_revoked_at := pg_to_char <$> gr_revoked_at row;
    grec_ancestry := ancestry;
  |}.

(** ** Creating and reading grants *)

(** The row [INSERT INTO grants(...)] writes: the sets in order, the deadline as
    [to_timestamp] rounds it. *)
Definition new_grant_row (parent : option Uuid) (depth max_effects : Z)
    (authority : Authority) : GrantRow := {|
  gr_parent_id := parent; gr_depth := depth;
  gr_actions := sorted_elements (actions authority);
  gr_destinations := sorted_elements (destinations authority);
  gr_projects := sorted_elements (projects authority);
  gr_max_effects := max_effects; gr_used_effects := 0;
  gr_expires_at := pg_to_timestamp (expires_at_ms authority);
  gr_revoked_at := None;
|}.

Context `{Sha256}.

(** [Store::create_grant]; [id] is the fresh [Uuid::new_v4()] and [now] the
    reading of [clock_timestamp()]. *)
Definition create_grant (id now : Z) (tenant : Uuid) (parent : option Uuid)
    (actor_id : string) (authority : Authority) : StoreTx GrantRecord :=
  tx_fail_if (str_is_empty actor_id || (64 <? str_len actor_id))
    (Configuration "invalid grant actor");;
  ancestry ← match parent with
             | Some parent => load_grant_chain_locked tenant parent
             | None =>
               fetch_optional (λ db, db_tenants db !! tenant) GrantNotFound;;
               mret []
             end;
  let now_ms := pg_epoch_ms now in
  tx_lift (map_err GrantValidation
    (if bool_decide (ancestry = []) then Authority_validate authority now_ms
     else validate_child authority ancestry tenant now_ms));;
  depth ← tx_ok_or (checked (-2147483648) i32_max (Z.of_nat (length ancestry)))
            CorruptGrant;
  max_effects ← tx_ok_or (checked_i64 (au_max_effects authority))
                  (Configuration "grant budget is too large");
  insert_grant tenant id (new_grant_row parent depth max_effects authority);;
  insert_operator_event {|
    oe_tenant := tenant; oe_actor := actor_id; oe_action := "grant.created";
    oe_object := id; oe_detail_hash := hash_grant parent authority |};;
  depth8 ← tx_ok_or (checked_u8 depth) CorruptGrant;
  let ancestry := ancestry ++ [{|
    g_id := id; g_tenant_id := tenant; g_parent_id := parent; g_depth := depth8;
    g_authority := authority; g_used_effects := 0; g_revoked := false |}] in
  fetch_grant_record tenant id (g_id <$> ancestry).

Definition get_grant (tenant id : Uuid) : StoreTx GrantRecord :=
  ancestry ← load_grant_chain_locked tenant id;
  fetch_grant_record tenant id (g_id <$> ancestry).

(** ** Revocation *)

Record RevocationRecord := mkRevocationRecord {
  rev_id : Uuid;
  rev_revoked_at : string;
}.

Definition set_revoked (now : Z) (row : GrantRow) : GrantRow := {|
  gr_parent_id := gr_parent_id row; gr_depth := gr_depth row;
  gr_actions := gr_actions row; gr_destinations := gr_destinations row;
  gr_projects := gr_projects row; gr_max_effects := gr_max_effects row;
  gr_used_effects := gr_used_effects row; gr_expires_at := gr_expires_at row;
  gr_revoked_at := Some now;
|}.

Definition revoke_grant (now : Z) (tenant id : Uuid) (actor_id reason : string) :
    StoreTx RevocationRecord :=
  tx_fail_if (str_is_empty actor_id || (64 <? str_len actor_id)
              || str_is_empty reason || (1024 <? str_len reason)
              || (256 <? chars_count reason))
    (Configuration "invalid revocation metadata");;
  load_grant_chain_locked tenant id;;
  row ← fetch_one (λ db, db_grants db !! (tenant, id));
  revoked_at ← match gr_revoked_at row with
    | Some existing => mret (pg_to_char existing)
    | None =>
      updated ← update_grant tenant id (λ row, bool_decide (gr_revoked_at row = None))
                  (set_revoked now);
      tx_fail_if (negb (updated =? 1)) Database;;
      insert_operator_event {|
        oe_tenant := tenant; oe_actor := actor_id; oe_action := "grant.revoked";
        oe_object := id; oe_detail_hash := hash_grant_revocation id reason |};;
      mret (pg_to_char now)
    end;
  mret {| rev_id := id; rev_revoked_at := revoked_at |}.
End ledger.

(** ** Reservations *)

Inductive ReservationKind := ReservationCreated | ReservationExisting.

Record GrantReservation := mkGrantReservation {
  res_tenant : Uuid;
  res_run : Uuid;
  res_ordinal : Z;
}.

Definition set_used (next : Z) (row : GrantRow) : GrantRow := {|
  gr_parent_id := gr_parent_id row; gr_depth := gr_depth row;
  gr_actions := gr_actions row; gr_destinations := gr_destinations row;
  gr_projects := gr_projects row; gr_max_effects := gr_max_effects row;
  gr_used_effects := next; gr_expires_at := gr_expires_at row;
  gr_revoked_at := gr_revoked_at row;
|}.

Definition set_charged (now : Z) (e : EffectRow) : EffectRow := {|
  e_request_hash := e_request_hash e; e_action := e_action e;
  e_destination := e_destination e; e_project := e_project e;
  e_provider_key := e_provider_key e; e_state := e_state e;
  e_send_attempts := e_send_attempts e; e_reservation_charged := true;
  e_updated_at := now;
|}.

(** [SELECT grant_id FROM effect_reservations WHERE ... ORDER BY grant_id] *)
Definition reserved_grants (tenant run : Uuid) (ordinal : Z) (db : Db) : list Uuid :=
  merge_sort Z.le ((λ k, k.2) <$>
    filter (λ k, k.1 = (tenant, run, ordinal)) (elements (db_reservations db))).

(** The body of the loop over the plan. *)
Definition charge_grant (tenant run : Uuid) (ordinal : Z) (entry : Uuid * Z) : StoreTx unit :=
  next ← tx_ok_or (checked_i64 entry.2) CorruptGrant;
  updated ← update_grant tenant entry.1 (λ row, gr_used_effects row =? next - 1)
              (set_used next);
  tx_fail_if (negb (updated =? 1)) CorruptGrant;;
  insert_reservation tenant run ordinal entry.1.

(** [Store::reserve_grant_chain]; [now] and [updated_at] are its two readings of
    the clock. *)
Definition reserve_grant_chain `{PgTime} (now updated_at : Z) (request : GrantReservation) :
    StoreTx ReservationKind :=
  let tenant := res_tenant request in
  let run := res_run request in
  let ordinal := res_ordinal request in
  run_row ← fetch_optional (λ db, db_runs db !! (tenant, run)) RunNotFound;
  ancestry ← load_grant_chain_locked tenant (r_grant_id run_row);
  effect ← fetch_optional (λ db, db_effects db !! (tenant, run, ordinal)) EffectNotFound;
  existing ← tx_gets (reserved_grants tenant run ordinal);
  if negb (bool_decide (existing = [])) then
    let expected := merge_sort Z.le (g_id <$> ancestry) in
    if bool_decide (existing = expected) && e_reservation_charged effect
    then mret ReservationExisting
    else tx_fail CorruptGrant
  else
    tx_fail_if (e_reservation_charged effect
                || negb (bool_decide (e_state effect = Prepared))) CorruptGrant;;
    let now_ms := pg_epoch_ms now in
    plan ← tx_lift (map_err GrantValidation
      (reservation_plan ancestry tenant now_ms (e_action effect) (e_destination effect)
         (e_project effect)));
    tx_for_each (charge_grant tenant run ordinal) plan;;
    charged ← update_effect tenant run ordinal (λ e, negb (e_reservation_charged e))
                (set_charged updated_at);
    tx_fail_if (negb (charged =? 1)) CorruptGrant;;
    mret ReservationCreated.
