(* ===== verification/Ancestry.v ===== *)
(** * Ancestry: the forest of stored grants

    The abstract view of the grant table: every grant has one root-first path,
    and loading an ancestry ([Ledger.load_chain]) reads exactly that path.  What
    may happen to a stored grant is a preorder on rows that keeps every path. *)
From S2P Require Export Ledger.

(** [path grants tenant id l]: [l] leads from a root to [id] along the parent
    links. *)
Inductive path (grants : gmap (Uuid * Uuid) GrantRow) (tenant : Uuid) :
    Uuid → list (Uuid * GrantRow) → Prop :=
  | path_root id row :
      grants !! (tenant, id) = Some row → gr_parent_id row = None →
      path grants tenant id [(id, row)]
  | path_child id row parent l :
      grants !! (tenant, id) = Some row → gr_parent_id row = Some parent →
      path grants tenant parent l →
      path grants tenant id (l ++ [(id, row)]).

Section path.
Context {grants : gmap (Uuid * Uuid) GrantRow} {tenant : Uuid}.

Lemma path_last id l : path grants tenant id l →
  ∃ l' row, l = l' ++ [(id, row)] ∧ grants !! (tenant, id) = Some row.
Proof. destruct 1; [eexists [], _|eexists _, _]; split; done. Qed.

Lemma path_fun id l l' : path grants tenant id l → path grants tenant id l' → l = l'.
Proof.
  intros H. revert l'. induction H as [id row Hrow Hp|id row parent l Hrow Hp H IH];
    intros l' H'; inversion H' as [? ? Hrow' Hp'|? ? ? ? Hrow' Hp' Hl']; simplify_eq; [done|].
  by rewrite (IH _ Hl').
Qed.

Lemma path_rows id l : path grants tenant id l →
  Forall (λ e, grants !! (tenant, e.1) = Some e.2) l.
Proof. induction 1; [by constructor|]. apply Forall_app_2; [done|by constructor]. Qed.

Lemma path_row id l i row :
  path grants tenant id l → (i, row) ∈ l → grants !! (tenant, i) = Some row.
Proof.
  intros Hl%path_rows Hin. rewrite Forall_forall in Hl. apply (Hl _ Hin).
Qed.

(** A member of a path ends a path of its own, a prefix of it. *)
Lemma path_prefix id l i :
  path grants tenant id l → i ∈ l.*1 →
  ∃ l1 l2, l = l1 ++ l2 ∧ path grants tenant i l1.
Proof.
  induction 1 as [id row Hrow Hp|id row parent l Hrow Hp H IH].
  - intros ->%list_elem_of_singleton. exists [(id, row)], []. split; [done|].
    by constructor.
  - rewrite fmap_app, elem_of_app. intros [Hi|Hi].
    + destruct (IH Hi) as (l1 & l2 & -> & Hl1). exists l1, (l2 ++ [(id, row)]).
      by rewrite <-app_assoc.
    + apply list_elem_of_singleton in Hi as ->. exists (l ++ [(id, row)]), [].
      rewrite app_nil_r. split; [done|]. by eapply path_child.
Qed.
End path.

(** ** What may happen to a row *)

(** Authority, parent and deadline never change, the counter never decreases and
    a revocation is permanent. *)
Record row_evolves (row row' : GrantRow) : Prop := {
  ev_parent : gr_parent_id row' = gr_parent_id row;
  ev_depth : gr_depth row' = gr_depth row;
  ev_actions : gr_actions row' = gr_actions row;
  ev_destinations : gr_destinations row' = gr_destinations row;
  ev_projects : gr_projects row' = gr_projects row;
  ev_max : gr_max_effects row' = gr_max_effects row;
  ev_expires : gr_expires_at row' = gr_expires_at row;
  ev_used : gr_used_effects row ≤ gr_used_effects row';
  ev_revoked : ∀ t, gr_revoked_at row = Some t → gr_revoked_at row' = Some t;
}.

#[global] Instance row_evolves_preorder : PreOrder row_evolves.
Proof.
  split.
  - intros row. constructor; auto; lia.
  - intros r1 r2 r3 [] []. constructor; try congruence; try lia. auto.
Qed.

Definition grants_evolve (m m' : gmap (Uuid * Uuid) GrantRow) : Prop :=
  ∀ k row, m !! k = Some row → ∃ row', m' !! k = Some row' ∧ row_evolves row row'.

#[global] Instance grants_evolve_preorder : PreOrder grants_evolve.
Proof.
  split.
  - intros m k row Hk. by exists row.
  - intros m1 m2 m3 H12 H23 k row Hk.
    destruct (H12 _ _ Hk) as (row2 & Hk2 & Hr2). destruct (H23 _ _ Hk2) as (row3 & Hk3 & Hr3).
    exists row3. split; [done|]. by transitivity row2.
Qed.

Lemma grants_evolve_insert m k row row' :
  m !! k = Some row → row_evolves row row' → grants_evolve m (<[k:=row']> m).
Proof.
  intros Hk Hr k' r Hk'. destruct (decide (k' = k)) as [->|Hne].
  - rewrite lookup_insert_eq. simplify_eq. eauto.
  - rewrite lookup_insert_ne by done. by exists r.
Qed.

Lemma grants_evolve_fresh m k row : m !! k = None → grants_evolve m (<[k:=row]> m).
Proof.
  intros Hk k' r Hk'. exists r. split; [|done]. rewrite lookup_insert_ne; congruence.
Qed.

(** Paths follow their rows. *)
Lemma path_evolves m m' tenant id l :
  grants_evolve m m' → path m tenant id l →
  ∃ l', path m' tenant id l' ∧
    Forall2 (λ e e', e.1 = e'.1 ∧ row_evolves e.2 e'.2) l l'.
Proof.
  intros Hm. induction 1 as [id row Hrow Hp|id row parent l Hrow Hp H IH].
  - destruct (Hm _ _ Hrow) as (row' & Hrow' & Hr).
    exists [(id, row')]. split; [constructor; [done|by rewrite (ev_parent _ _ Hr)]|].
    by constructor.
  - destruct (Hm _ _ Hrow) as (row' & Hrow' & Hr). destruct IH as (l' & Hl' & Hall).
    exists (l' ++ [(id, row')]). split.
    + eapply path_child; [done|by rewrite (ev_parent _ _ Hr)|done].
    + apply Forall2_app; [done|by constructor].
Qed.

Lemma path_evolves_ids m m' tenant id l l' :
  grants_evolve m m' → path m tenant id l → path m' tenant id l' → l'.*1 = l.*1.
Proof.
  intros Hm Hl Hl'. destruct (path_evolves _ _ _ _ _ Hm Hl) as (l'' & Hl'' & Hall).
  rewrite (path_fun _ _ _ Hl' Hl''). clear Hl Hl' Hl''. induction Hall as [|e e' l1 l2 [He _] _ IH]; [done|].
  by rewrite !fmap_cons, IH, He.
Qed.

(** ** The forest *)

Section forest.
Context `{PgTime}.

(** The [Grant] of a stored row, as [grant_of_row] builds it. *)
Definition to_grant (tenant : Uuid) (e : Uuid * GrantRow) : Grant := {|
  g_id := e.1; g_tenant_id := tenant; g_parent_id := gr_parent_id e.2;
  g_depth := gr_depth e.2; g_authority := row_authority e.2;
  g_used_effects := gr_used_effects e.2;
  g_revoked := bool_decide (gr_revoked_at e.2 ≠ None);
|}.

(** The structural view of a path, which [load_chain] validates. *)
Definition structure (tenant : Uuid) (l : list (Uuid * GrantRow)) : list Grant :=
  unrevoke <$> (to_grant tenant <$> l).

(** Every stored grant satisfies its CHECK constraint and ends a path that is
    a valid chain, revocation and deadlines aside. *)
Record forest_ok (grants : gmap (Uuid * Uuid) GrantRow) : Prop := {
  forest_check : ∀ k row, grants !! k = Some row → grant_check row = true;
  forest_path : ∀ tenant id row, grants !! (tenant, id) = Some row →
    ∃ l, path grants tenant id l ∧ chain_ok (structure tenant l) tenant i64_min;
}.

Lemma grant_of_row_Ok tenant id row g :
  grant_check row = true →
  grant_of_row tenant id row = Ok g ↔ g = to_grant tenant (id, row).
Proof.
  unfold grant_check, grant_of_row. intros Hc. bools.
  rewrite bind_Ok. setoid_rewrite ok_or_Ok. setoid_rewrite checked_Some. split.
  - intros (d & [? ->] & Hg). apply bind_Ok in Hg as (mx & Hg1 & Hg).
    apply bind_Ok in Hg as (us & Hg2 & Hg). apply ok_or_Ok, checked_Some in Hg1 as [_ ->].
    apply ok_or_Ok, checked_Some in Hg2 as [_ ->]. by injection Hg as <-.
  - intros ->. exists (gr_depth row). unfold u8_max. split; [split; [lia|done]|].
    apply bind_Ok. exists (gr_max_effects row). split.
    { apply ok_or_Ok, checked_Some. unfold u64_max. split; [lia|done]. }
    apply bind_Ok. exists (gr_used_effects row). split; [|done].
    apply ok_or_Ok, checked_Some. unfold u64_max. split; [lia|done].
Qed.

Lemma structure_lookup tenant l i :
  structure tenant l !! i = (λ e, unrevoke (to_grant tenant e)) <$> l !! i.
Proof. unfold structure. rewrite !list_lookup_fmap. by destruct (l !! i). Qed.

Lemma structure_ids tenant l : g_id <$> structure tenant l = l.*1.
Proof. unfold structure. by rewrite <-!list_fmap_compose. Qed.

Lemma structure_depth tenant l i e :
  chain_ok (structure tenant l) tenant i64_min → l !! i = Some e →
  gr_depth e.2 = Z.of_nat i.
Proof.
  intros Hc Hi. apply (link_depth _ _ _ _ _ (chain_links _ _ _ Hc i
    (unrevoke (to_grant tenant e)) ltac:(by rewrite structure_lookup, Hi))).
Qed.

Lemma structure_nodup tenant l :
  chain_ok (structure tenant l) tenant i64_min → NoDup l.*1.
Proof. intros Hc. rewrite <-(structure_ids tenant). apply (chain_nodup _ _ _ Hc). Qed.

Lemma structure_length tenant l :
  chain_ok (structure tenant l) tenant i64_min → (1 ≤ length l ≤ 5)%nat.
Proof.
  intros Hc. destruct (chain_length _ _ _ Hc) as [H1 H2].
  unfold structure in *. rewrite !length_fmap in *. lia.
Qed.

(** ** The recursive query computes the path *)

Definition row_of (e : Uuid * GrantRow) : chain_row :=
  (e.1, gr_parent_id e.2, gr_depth e.2).

Lemma grant_cte_path grants tenant id l fuel acc :
  path grants tenant id l → NoDup l.*1 →
  (∀ r, r ∈ acc → r.1.1 ∉ l.*1) → (length l < fuel)%nat →
  grant_cte fuel grants tenant id acc = acc ++ reverse (row_of <$> l).
Proof.
  intros Hl. revert fuel acc.
  induction Hl as [id row Hrow Hp|id row parent l Hrow Hp Hl IH];
    intros [|fuel] acc Hnd Hacc Hfuel; try lia; cbn [grant_cte]; rewrite Hrow.
  - rewrite decide_False by (intros Hin; apply (Hacc _ Hin); set_solver).
    unfold row_of. simpl. by rewrite Hp.
  - rewrite fmap_app in Hnd, Hacc. apply NoDup_app in Hnd as (Hnd & Hid & _).
    rewrite decide_False by (intros Hin; apply (Hacc _ Hin); set_solver).
    rewrite Hp. rewrite length_app in Hfuel. simpl in Hfuel. rewrite IH; [|done| |lia].
    + unfold row_of at 2. rewrite fmap_app, reverse_app, <-app_assoc. simpl.
      by rewrite Hp.
    + intros r [Hr|Hr]%elem_of_app Hin.
      * apply (Hacc _ Hr). apply elem_of_app. by left.
      * apply list_elem_of_singleton in Hr as ->. apply (Hid _ Hin). by left.
Qed.

Lemma path_size grants tenant id l :
  path grants tenant id l → NoDup l.*1 → (length l ≤ size grants)%nat.
Proof.
  intros Hl Hnd. rewrite <-size_dom.
  replace (length l) with (size (list_to_set (C:=gset _) (pair tenant <$> l.*1))).
  - apply subseteq_size. intros k (i & -> & Hi)%elem_of_list_to_set%list_elem_of_fmap.
    apply list_elem_of_fmap in Hi as ([i' row] & -> & Hin). apply elem_of_dom.
    simpl. rewrite (path_row _ _ _ _ Hl Hin). eauto.
  - rewrite size_list_to_set, !length_fmap; [done|].
    apply NoDup_fmap_2; [intros ?? [= ?]; done|done].
Qed.

Lemma grant_ids_path tenant id l db :
  path (db_grants db) tenant id l → chain_ok (structure tenant l) tenant i64_min →
  grant_ids tenant id db = l.*1.
Proof.
  intros Hl Hc. pose proof (structure_nodup _ _ Hc) as Hnd. unfold grant_ids.
  rewrite (grant_cte_path _ _ _ _ _ _ Hl Hnd);
    [|intros r Hr; by apply not_elem_of_nil in Hr
     |pose proof (path_size _ _ _ _ Hl Hnd); lia].
  assert (merge_sort depth_le (reverse (row_of <$> l)) = row_of <$> l) as Hsort.
  { apply (StronglySorted_unique_strong depth_le).
    - intros x y Hx Hy Hxy Hyx.
      rewrite merge_sort_Permutation, reverse_Permutation in Hx.
      apply list_elem_of_lookup in Hx as [i Hi]. apply list_elem_of_lookup in Hy as [j Hj].
      rewrite list_lookup_fmap in Hi, Hj.
      apply fmap_Some in Hi as (e & Hi & ->). apply fmap_Some in Hj as (e' & Hj & ->).
      unfold depth_le in *. simpl in *.
      rewrite (structure_depth _ _ _ _ Hc Hi), (structure_depth _ _ _ _ Hc Hj) in *.
      assert (i = j) as -> by lia. congruence.
    - apply StronglySorted_merge_sort.
      + intros x y z. unfold depth_le. lia.
      + intros x y. unfold depth_le. lia.
    - apply Sorted_StronglySorted; [intros x y z; unfold depth_le; lia|].
      apply Sorted_LocallySorted_iff.
      assert (∀ k, LocallySorted depth_le (row_of <$> drop k l)) as Hk; [|apply (Hk 0%nat)].
      intros k. remember (drop k l) as r eqn:Hr. revert k Hr.
      induction r as [|e [|e' r] IH]; intros k Hr; [constructor..|].
      assert (l !! k = Some e ∧ l !! S k = Some e') as [He He'].
      { rewrite <-(Nat.add_0_r k), <-lookup_drop, <-Hr. split; [done|].
        rewrite <-(Nat.add_1_r (k + 0)), Nat.add_0_r, <-lookup_drop, <-Hr. done. }
      constructor.
      + apply (IH (S k)). rewrite <-Nat.add_1_r, <-drop_drop, <-Hr. done.
      + unfold depth_le. simpl.
        rewrite (structure_depth _ _ _ _ Hc He), (structure_depth _ _ _ _ Hc He'). lia.
    - by rewrite merge_sort_Permutation, reverse_Permutation. }
  cbn [app]. rewrite Hsort, <-list_fmap_compose. done.
Qed.

(** Loading succeeds on every stored grant, and yields its path. *)
Lemma load_chain_path db tenant id l :
  forest_ok (db_grants db) → path (db_grants db) tenant id l →
  load_chain tenant id db = Ok (to_grant tenant <$> l).
Proof.
  intros [Hcheck Hpath] Hl.
  destruct (path_last _ _ Hl) as (_ & row & _ & Hrow).
  destruct (Hpath _ _ _ Hrow) as (l' & Hl' & Hc). rewrite (path_fun _ _ _ Hl' Hl) in Hc.
  clear l' Hl'. pose proof (structure_length _ _ Hc) as Hlen.
  unfold load_chain. rewrite (grant_ids_path _ _ _ _ Hl Hc). apply guard_Ok. split.
  { autorewrite with bools. rewrite length_fmap. split; [|lia].
    intros Hnil. apply fmap_nil_inv in Hnil. subst. simpl in Hlen. lia. }
  apply bind_Ok. exists (to_grant tenant <$> l). split.
  - apply try_map_Ok. pose proof (path_rows _ _ Hl) as Hrows. clear -Hrows Hcheck.
    induction Hrows as [|[i r] l Hr Hrows IH]; [constructor|].
    rewrite !fmap_cons. constructor; [|done].
    unfold load_grant. simpl in *. rewrite Hr. simpl. apply grant_of_row_Ok; eauto.
  - apply seq_Ok. split; [|done]. apply map_err_Ok, validate_chain_Ok, Hc.
Qed.

Lemma load_chain_Ok db tenant id gs :
  forest_ok (db_grants db) →
  load_chain tenant id db = Ok gs ↔
  ∃ l, path (db_grants db) tenant id l ∧ gs = to_grant tenant <$> l.
Proof.
  intros Hf. split.
  - intros Hload. destruct (db_grants db !! (tenant, id)) as [row|] eqn:Hrow.
    + destruct (forest_path _ Hf _ _ _ Hrow) as (l & Hl & _). exists l. split; [done|].
      rewrite (load_chain_path _ _ _ _ Hf Hl) in Hload. congruence.
    + exfalso. unfold load_chain, grant_ids in Hload. cbn [grant_cte] in Hload.
      by rewrite Hrow in Hload.
  - intros (l & Hl & ->). by apply load_chain_path.
Qed.

(** A grant the tenant does not own is not found. *)
Lemma load_chain_missing db tenant id :
  db_grants db !! (tenant, id) = None → load_chain tenant id db = Err GrantNotFound.
Proof.
  intros Hrow. unfold load_chain, grant_ids. cbn [grant_cte]. by rewrite Hrow.
Qed.
End forest.
