(* ===== verification/Budget.v ===== *)
(** * Budget: what the grant operations keep true

    The invariants of the grant ledger ([Ledger], [Ancestry]): the forest of
    valid chains, and the account of every grant, whose counter is the number of
    effects charged to it.  Creation, revocation and reservation preserve them,
    and they bound what a whole subtree of delegations can ever spend. *)
From S2P Require Export Ancestry.

Section forest_updates.
Context `{PgTime}.

Lemma row_authority_evolves row row' :
  row_evolves row row' → row_authority row' = row_authority row.
Proof. intros []. unfold row_authority. congruence. Qed.

Lemma structure_pred tenant l i :
  chain_pred (structure tenant l) i =
  (λ e, unrevoke (to_grant tenant e)) <$> match i with O => None | S j => l !! j end.
Proof. destruct i; [done|]. apply structure_lookup. Qed.

(** A path whose rows evolved within their constraints is still a valid chain. *)
Lemma structure_evolves tenant l l' :
  Forall2 (λ e e', e.1 = e'.1 ∧ row_evolves e.2 e'.2) l l' →
  Forall (λ e, grant_check e.2 = true) l' →
  chain_ok (structure tenant l) tenant i64_min →
  chain_ok (structure tenant l') tenant i64_min.
Proof.
  intros Hall Hcheck [Hlen Hlinks Hnd]. rewrite structure_ids in Hnd.
  assert (l'.*1 = l.*1) as Hids.
  { clear -Hall. induction Hall as [|e e' l1 l2 [He _] _ IH]; [done|].
    by rewrite !fmap_cons, IH, He. }
  constructor.
  - unfold structure in *. rewrite !length_fmap in *. by rewrite <-(Forall2_length _ _ _ Hall).
  - intros i g Hi. rewrite structure_lookup in Hi. apply fmap_Some in Hi as (e' & He' & ->).
    destruct (Forall2_lookup_r _ _ _ _ _ Hall He') as (e & He & Hid & Hev).
    specialize (Hlinks i _ ltac:(by rewrite structure_lookup, He)) as [].
    assert (∀ j e0', (match i with O => None | S j => l' !! j end) = Some e0' →
      i = S j → ∃ e0, l !! j = Some e0 ∧ e0.1 = e0'.1 ∧ row_evolves e0.2 e0'.2) as Hpred.
    { intros j e0' Hj ->. by apply (Forall2_lookup_r _ _ _ _ _ Hall). }
    pose proof (row_authority_evolves _ _ Hev) as Hauth.
    destruct Hev as [Hpar Hdep]. constructor; cbn [unrevoke to_grant g_tenant_id g_depth
      g_parent_id g_revoked g_authority g_used_effects] in *; rewrite ?Hauth.
    + done.
    + congruence.
    + rewrite Hpar, link_parent, !structure_pred. destruct i as [|j]; [done|].
      destruct (l' !! j) as [e0'|] eqn:Hj.
      * destruct (Hpred j e0' eq_refl eq_refl) as (e0 & -> & Hid0 & _). simpl. congruence.
      * apply lookup_ge_None in Hj. rewrite <-(Forall2_length _ _ _ Hall) in Hj.
        by rewrite (lookup_ge_None_2 _ _ Hj).
    + done.
    + rewrite Forall_forall in Hcheck. pose proof (Hcheck e' (list_elem_of_lookup_2 _ _ _ He')) as Hc.
      unfold grant_check in Hc. bools. simpl. lia.
    + intros p. rewrite structure_pred. intros (e0' & Hj & ->)%fmap_Some.
      destruct i as [|j]; [done|].
      destruct (Hpred j e0' Hj eq_refl) as (e0 & He0 & _ & Hev0).
      specialize (link_attenuated (unrevoke (to_grant tenant e0))).
      rewrite structure_pred, He0 in link_attenuated.
      cbn [unrevoke to_grant g_authority] in *.
      rewrite (row_authority_evolves _ _ Hev0). by apply link_attenuated.
  - by rewrite structure_ids, Hids.
Qed.

Lemma forest_ok_evolve m m' :
  forest_ok m → grants_evolve m m' →
  (∀ k row', m' !! k = Some row' → grant_check row' = true ∧ is_Some (m !! k)) →
  forest_ok m'.
Proof.
  intros [Hcheck Hpath] Hev Hm'. split; [by intros k row' [? _]%Hm'|].
  intros tenant id row' Hrow'. destruct (Hm' _ _ Hrow') as [Hc' [row Hrow]].
  destruct (Hpath _ _ _ Hrow) as (l & Hl & Hc).
  destruct (path_evolves _ _ _ _ _ Hev Hl) as (l' & Hl' & Hall).
  exists l'. split; [done|]. eapply structure_evolves; [done| |done].
  eapply Forall_impl; [apply (path_rows _ _ Hl')|]. intros e He. by apply Hm' in He as [? _].
Qed.

Lemma forest_ok_update m k row row' :
  forest_ok m → m !! k = Some row → row_evolves row row' → grant_check row' = true →
  forest_ok (<[k:=row']> m).
Proof.
  intros Hf Hk Hev Hc. eapply forest_ok_evolve; [done|by eapply grants_evolve_insert|].
  intros k' r Hk'. destruct (decide (k' = k)) as [->|Hne].
  - rewrite lookup_insert_eq in Hk'. simplify_eq. eauto.
  - rewrite lookup_insert_ne in Hk' by done. split; [|eauto]. by eapply forest_check.
Qed.

Lemma set_used_evolves row next : gr_used_effects row ≤ next → row_evolves row (set_used next row).
Proof. by constructor. Qed.
Lemma set_revoked_evolves row now : gr_revoked_at row = None → row_evolves row (set_revoked now row).
Proof. intros Hr. constructor; try done. congruence. Qed.
End forest_updates.

(** ** Creation *)

Section creation.
Context `{PgTime, Sha256}.

(** The database after a creation. *)
Definition granted (tenant id : Uuid) (parent : option Uuid) (depth : Z) (actor_id : string)
    (authority : Authority) (db : Db) : Db :=
  with_operator_events (λ l, l ++ [{|
    oe_tenant := tenant; oe_actor := actor_id; oe_action := "grant.created";
    oe_object := id; oe_detail_hash := hash_grant parent authority |}])
    (with_grants <[(tenant, id) :=
       new_grant_row parent depth (au_max_effects authority) authority]> db).

(** The ancestry a creation validated its authority against. *)
Definition parent_path (grants : gmap (Uuid * Uuid) GrantRow) (tenant : Uuid)
    (parent : option Uuid) (l : list (Uuid * GrantRow)) : Prop :=
  match parent with None => l = [] | Some p => path grants tenant p l end.

Lemma create_grant_Ok id now tenant parent actor_id authority db record db' :
  forest_ok (db_grants db) →
  create_grant id now tenant parent actor_id authority db = Ok (record, db') →
  ∃ l, parent_path (db_grants db) tenant parent l ∧
    Authority_validate authority (pg_epoch_ms now) = Ok () ∧
    (l ≠ [] → validate_child authority (to_grant tenant <$> l) tenant (pg_epoch_ms now) = Ok ()) ∧
    db_grants db !! (tenant, id) = None ∧
    grant_check (new_grant_row parent (Z.of_nat (length l)) (au_max_effects authority)
                   authority) = true ∧
    db' = granted tenant id parent (Z.of_nat (length l)) actor_id authority db ∧
    grec_ancestry record = l.*1 ++ [id] ∧ grec_used_effects record = 0 ∧
    grec_revoked_at record = None.
Proof.
  intros Hf Hcreate. unfold create_grant in Hcreate.
  apply tx_bind_Ok in Hcreate as ([] & db0 & [Hactor ->]%tx_fail_if_Ok & Hcreate).
  apply tx_bind_Ok in Hcreate as (ancestry & db0 & Hanc & Hcreate).
  assert (∃ l, parent_path (db_grants db) tenant parent l ∧
    ancestry = to_grant tenant <$> l ∧ db0 = db) as (l & Hl & -> & ->).
  { destruct parent as [p|]; cbn [parent_path].
    - unfold load_grant_chain_locked in Hanc. apply tx_query_Ok in Hanc as [Hload ->].
      apply load_chain_Ok in Hload as (l & ? & ->); [|done]. eauto.
    - inv_db. exists []. done. }
  exists l. split; [done|].
  apply tx_bind_Ok in Hcreate as ([] & db0 & [Hval ->]%tx_lift_Ok & Hcreate).
  apply map_err_Ok in Hval.
  unfold fetch_grant_record in Hcreate. inv_db. simpl in *.
  repeat match goal with E : checked_u8 _ = _ |- _ => apply checked_Some in E as [? ->]
    | E : checked_i64 _ = _ |- _ => apply checked_Some in E as [? ->]
    | E : checked _ _ _ = _ |- _ => apply checked_Some in E as [? ->] end.
  rewrite length_fmap in *. rewrite lookup_insert_eq in *. simplify_eq.
  split_and!; try done.
  - case_bool (bool_decide (to_grant tenant <$> l = [])); [done|].
    by apply validate_child_Ok in Hval as [? _].
  - intros Hne. case_bool (bool_decide (to_grant tenant <$> l = [])); [|done].
    by apply fmap_nil_inv in Hb.
  - simpl. rewrite fmap_app, <-list_fmap_compose. done.
Qed.

Context `{!PgTimeLaws}.

(** The clock is between 1970 and the year 2223, a day aside. *)
Definition clock_ok (now : Z) : Prop :=
  0 ≤ pg_epoch_ms now ∧ pg_epoch_ms now + 86400000 < 8000000000000.

Lemma new_grant_authority parent depth authority :
  0 ≤ expires_at_ms authority < 8000000000000 →
  row_authority (new_grant_row parent depth (au_max_effects authority) authority) = authority.
Proof.
  intros Hexp. unfold row_authority. simpl. rewrite pg_epoch_to_timestamp by done.
  rewrite !list_to_set_sorted_elements. by destruct authority.
Qed.

Lemma parent_path_last grants tenant parent l :
  parent_path grants tenant parent l → fst <$> last l = parent.
Proof.
  destruct parent as [p|]; simpl; [|by intros ->].
  intros (l' & row & -> & _)%path_last. by rewrite last_snoc.
Qed.

(** Paths survive the insertion of a fresh grant. *)
Lemma path_fresh grants k row tenant i l :
  grants !! k = None → path grants tenant i l → path (<[k := row]> grants) tenant i l.
Proof.
  intros Hk. induction 1; [apply path_root|eapply path_child]; try done;
    rewrite lookup_insert_ne; congruence.
Qed.

Lemma structure_snoc grants tenant parent id authority l :
  parent_path grants tenant parent l → 0 ≤ expires_at_ms authority < 8000000000000 →
  structure tenant (l ++ [(id, new_grant_row parent (Z.of_nat (length l))
                                 (au_max_effects authority) authority)]) =
  structure tenant l ++ [child_grant id tenant (structure tenant l) authority].
Proof.
  intros Hl Hexp. unfold structure. rewrite !fmap_app. simpl. do 2 f_equal.
  unfold child_grant, unrevoke, to_grant. simpl.
  rewrite !length_fmap, !fmap_last, <-!option_fmap_compose.
  rewrite new_grant_authority by done. f_equal. simpl.
  rewrite <-(parent_path_last _ _ _ _ Hl). by destruct (last l) as [[? ?]|].
Qed.

Lemma parent_path_rows grants tenant parent l i row :
  parent_path grants tenant parent l → (i, row) ∈ l → grants !! (tenant, i) = Some row.
Proof.
  destruct parent as [p|]; simpl; [apply path_row|]. intros -> []%not_elem_of_nil.
Qed.

(** The path of a created grant is a valid chain. *)
Lemma structure_created grants tenant parent id authority l now_ms :
  forest_ok grants → grants !! (tenant, id) = None →
  parent_path grants tenant parent l →
  Authority_validate authority now_ms = Ok () →
  (l ≠ [] → validate_child authority (to_grant tenant <$> l) tenant now_ms = Ok ()) →
  0 ≤ expires_at_ms authority < 8000000000000 →
  chain_ok (structure tenant (l ++ [(id, new_grant_row parent (Z.of_nat (length l))
              (au_max_effects authority) authority)])) tenant i64_min.
Proof.
  intros Hf Hid Hl Hval Hchild Hexp.
  apply Authority_validate_Ok in Hval as (Hshape & _ & Hlive).
  rewrite (structure_snoc _ _ _ _ _ _ Hl Hexp). apply chain_ok_snoc.
  - destruct parent as [p|]; simpl in Hl; [right|by left; subst].
    destruct (path_last _ _ Hl) as (_ & prow & _ & Hp).
    destruct (forest_path _ Hf _ _ _ Hp) as (l' & Hl' & Hc).
    by rewrite (path_fun _ _ _ Hl Hl').
  - unfold structure. rewrite !length_fmap. destruct l as [|e l]; [simpl; lia|].
    destruct (proj1 (validate_child_Ok _ _ _ _ _) (Hchild ltac:(done)))
      as (_ & _ & Hlen & _). rewrite length_fmap in Hlen. done.
  - rewrite structure_ids. intros ([i r'] & -> & Hin)%list_elem_of_fmap.
    apply (parent_path_rows _ _ _ _ _ _ Hl) in Hin. simpl in *. congruence.
  - unfold i64_min. lia.
  - destruct (shape_budget _ Hshape). lia.
  - intros p Hp. unfold structure in Hp. rewrite !fmap_last in Hp.
    apply fmap_Some in Hp as (g & (e & He & ->)%fmap_Some & ->).
    assert (l ≠ []) as Hne by (by intros ->).
    destruct (proj1 (validate_child_Ok _ _ _ _ _) (Hchild Hne)) as (_ & _ & _ & Hatt).
    apply (Hatt (to_grant tenant e)). apply list_elem_of_fmap_2.
    by eapply last_Some_elem_of.
Qed.

(** A created grant extends its parent's path and the forest. *)
Lemma forest_ok_create grants tenant parent id authority l now_ms :
  forest_ok grants → grants !! (tenant, id) = None →
  parent_path grants tenant parent l →
  Authority_validate authority now_ms = Ok () →
  (l ≠ [] → validate_child authority (to_grant tenant <$> l) tenant now_ms = Ok ()) →
  0 ≤ expires_at_ms authority < 8000000000000 →
  let row := new_grant_row parent (Z.of_nat (length l)) (au_max_effects authority) authority in
  grant_check row = true →
  path (<[(tenant, id) := row]> grants) tenant id (l ++ [(id, row)]) ∧
  forest_ok (<[(tenant, id) := row]> grants).
Proof.
  intros Hf Hid Hl Hval Hchild Hexp row Hcheck.
  assert (path (<[(tenant, id) := row]> grants) tenant id (l ++ [(id, row)])) as Hpath.
  { destruct parent as [p|]; simpl in Hl.
    - eapply path_child; [by rewrite lookup_insert_eq|done|by apply path_fresh].
    - subst l. apply path_root; [by rewrite lookup_insert_eq|done]. }
  split; [done|]. split.
  - intros k r. destruct (decide (k = (tenant, id))) as [->|Hne].
    + rewrite lookup_insert_eq. by intros [= <-].
    + rewrite lookup_insert_ne by done. apply (forest_check _ Hf).
  - intros t i r. destruct (decide ((t, i) = (tenant, id))) as [[= -> ->]|Hne].
    + intros _. eexists. split; [done|]. by eapply structure_created.
    + rewrite lookup_insert_ne by done. intros Hr.
      destruct (forest_path _ Hf _ _ _ Hr) as (l0 & Hl0 & Hc). exists l0.
      split; [by apply path_fresh|done].
Qed.
End creation.

(** ** Reservations *)

(** What the loop over a plan changes: the counters of the planned grants and
    one reservation for each. *)
Record plan_applied (tenant run : Uuid) (ordinal : Z) (plan : list (Uuid * Z))
    (db db' : Db) : Prop := {
  pa_row : ∀ id next, (id, next) ∈ plan → ∃ row,
    db_grants db !! (tenant, id) = Some row ∧ gr_used_effects row = next - 1 ∧
    grant_check (set_used next row) = true ∧
    db_grants db' !! (tenant, id) = Some (set_used next row);
  pa_other : ∀ t id, t ≠ tenant ∨ id ∉ plan.*1 → db_grants db' !! (t, id) = db_grants db !! (t, id);
  pa_fresh : ∀ id, id ∈ plan.*1 → (tenant, run, ordinal, id) ∉ db_reservations db;
  pa_reserved : ∀ k, k ∈ db_reservations db' ↔
    k ∈ db_reservations db ∨ (k.1 = (tenant, run, ordinal) ∧ k.2 ∈ plan.*1);
  pa_frame : db' = with_reservations (λ _, db_reservations db')
    (with_grants (λ _, db_grants db') db);
}.

Lemma charge_grant_Ok tenant run ordinal id next db u db' :
  charge_grant tenant run ordinal (id, next) db = Ok (u, db') ↔
  ∃ row, i64_min ≤ next ≤ i64_max ∧
    db_grants db !! (tenant, id) = Some row ∧ gr_used_effects row = next - 1 ∧
    grant_check (set_used next row) = true ∧
    ((tenant, run, ordinal, id) ∉ db_reservations db) ∧
    is_Some (db_effects db !! (tenant, run, ordinal)) ∧
    db' = with_reservations (λ s, {[(tenant, run, ordinal, id)]} ∪ s)
            (with_grants <[(tenant, id) := set_used next row]> db).
Proof.
  destruct u. unfold charge_grant. split.
  - intros Hc. inv_db. bools. simpl in *.
    repeat match goal with E : checked_i64 _ = _ |- _ => apply checked_Some in E as [? ->] end.
    match goal with E : update_grant _ _ _ _ _ = _ |- _ =>
      apply update_grant_Ok in E as [(row & ? & ? & ? & _ & ->)|(? & _)]; [|lia] end.
    bools. simpl in *. eauto 10.
  - intros (row & Hnext & Hrow & Hused & Hcheck & Hres & Heff & ->).
    tx_step; [apply tx_ok_or_Ok; split; [by apply checked_Some|done]|].
    tx_step.
    { unfold update_grant. simpl. rewrite Hrow.
      replace (gr_used_effects row =? next - 1) with true by (symmetry; by apply Z.eqb_eq).
      rewrite Hcheck. done. }
    tx_step; [by apply tx_fail_if_Ok|]. apply insert_reservation_Ok. simpl.
    rewrite lookup_insert_eq. eauto.
Qed.

Lemma charge_loop_Ok tenant run ordinal plan db u db' :
  NoDup plan.*1 → tx_for_each (charge_grant tenant run ordinal) plan db = Ok (u, db') →
  plan_applied tenant run ordinal plan db db'.
Proof.
  revert db. induction plan as [|[id next] plan IH]; intros db Hnd Hloop.
  - cbn [tx_for_each] in Hloop. inv_ok. split; try set_solver; by destruct db.
  - rewrite fmap_cons, NoDup_cons in Hnd. destruct Hnd as [Hid Hnd]. simpl in Hid.
    cbn [tx_for_each] in Hloop. apply tx_bind_Ok in Hloop as ([] & db1 & Hc & Hloop).
    apply charge_grant_Ok in Hc as (row & _ & Hrow & Hused & Hcheck & Hres & _ & ->).
    apply IH in Hloop as [Hr Ho Hf Hk Hfr]; [|done]. simpl in *. split.
    + intros i n [[= -> ->]|Hin]%elem_of_cons.
      * exists row. split_and!; auto. rewrite Ho by auto. by rewrite lookup_insert_eq.
      * destruct (Hr _ _ Hin) as (r & Hlk & ? & ? & ?). exists r. split_and!; auto.
        rewrite lookup_insert_ne in Hlk; [done|]. intros [= ->].
        apply Hid. by apply (list_elem_of_fmap_2 fst _ _ Hin).
    + intros t i Hne. rewrite Ho by set_solver. rewrite lookup_insert_ne; [done|].
      intros [= -> ->]. set_solver.
    + intros i [->|Hin]%elem_of_cons; [done|]. intros Hi. apply (Hf i Hin). set_solver.
    + intros k. rewrite Hk, elem_of_union, elem_of_singleton, fmap_cons, elem_of_cons.
      destruct k as [k i]. simpl. naive_solver.
    + rewrite Hfr at 1. by destruct db.
Qed.

(** The loop succeeds when every planned counter is current, within its budget
    and not reserved yet. *)
Lemma charge_loop_total tenant run ordinal plan db :
  NoDup plan.*1 → is_Some (db_effects db !! (tenant, run, ordinal)) →
  (∀ id next, (id, next) ∈ plan → i64_min ≤ next ≤ i64_max ∧
     ((tenant, run, ordinal, id) ∉ db_reservations db) ∧
     ∃ row, db_grants db !! (tenant, id) = Some row ∧ gr_used_effects row = next - 1 ∧
       grant_check (set_used next row) = true) →
  ∃ db', tx_for_each (charge_grant tenant run ordinal) plan db = Ok ((), db').
Proof.
  revert db. induction plan as [|[id next] plan IH]; intros db Hnd Heff Hplan; [by eexists|].
  rewrite fmap_cons, NoDup_cons in Hnd. destruct Hnd as [Hid Hnd]. simpl in Hid.
  destruct (Hplan id next) as (Hrange & Hres & row & Hrow & Hused & Hcheck); [by left|].
  destruct (IH (with_reservations (λ s, {[(tenant, run, ordinal, id)]} ∪ s)
    (with_grants <[(tenant, id) := set_used next row]> db))) as [db' Hdb']; [done..| |].
  - intros i n Hin. assert (i ≠ id) as Hne.
    { intros ->. apply Hid. by apply (list_elem_of_fmap_2 fst _ _ Hin). }
    destruct (Hplan i n) as (? & ? & r & ? & ? & ?); [by right|]. simpl.
    split_and!; [lia|lia|set_solver|]. exists r. rewrite lookup_insert_ne by congruence. auto.
  - exists db'. cbn [tx_for_each]. tx_step; [|exact Hdb']. apply charge_grant_Ok. eauto 10.
Qed.

Lemma reserved_grants_elem tenant run ordinal db id :
  id ∈ reserved_grants tenant run ordinal db ↔
  (tenant, run, ordinal, id) ∈ db_reservations db.
Proof.
  unfold reserved_grants. rewrite merge_sort_Permutation, list_elem_of_fmap. split.
  - intros ([k i] & -> & Hk). apply list_elem_of_filter in Hk as [Hk Hin].
    simpl in *. subst. by apply elem_of_elements.
  - intros Hin. exists (tenant, run, ordinal, id). split; [done|].
    apply list_elem_of_filter. split; [done|]. by apply elem_of_elements.
Qed.

Lemma reserved_grants_nodup tenant run ordinal db :
  NoDup (reserved_grants tenant run ordinal db).
Proof.
  unfold reserved_grants. rewrite merge_sort_Permutation. apply NoDup_fmap_2_strong.
  - intros [k i] [k' i'] [Hk _]%list_elem_of_filter [Hk' _]%list_elem_of_filter ?.
    simpl in *. congruence.
  - apply NoDup_filter, NoDup_elements.
Qed.

(** The sorted column equals the sorted ancestry when they have the same members. *)
Lemma reserved_grants_sorted tenant run ordinal db ids :
  NoDup ids → (∀ id, (tenant, run, ordinal, id) ∈ db_reservations db ↔ id ∈ ids) →
  reserved_grants tenant run ordinal db = merge_sort Z.le ids.
Proof.
  intros Hnd Hids. apply (Sorted_unique Z.le).
  - apply Sorted_merge_sort. intros x y. lia.
  - apply Sorted_merge_sort. intros x y. lia.
  - rewrite (merge_sort_Permutation Z.le ids). apply NoDup_Permutation; [|done|].
    + apply reserved_grants_nodup.
    + intros id. by rewrite reserved_grants_elem.
Qed.

(** ** The ledger invariant *)

(** The reservations that charge one grant. *)
Definition charges (tenant id : Uuid) (db : Db) : gset (Uuid * Uuid * Z * Uuid) :=
  filter (λ k, k.1.1.1 = tenant ∧ k.2 = id) (db_reservations db).

Section invariant.
Context `{PgTime}.

Record ledger_ok (db : Db) : Prop := {
  ledger_forest : forest_ok (db_grants db);
  (** Every counter is the number of reservations on its grant. *)
  ledger_used : ∀ tenant id row, db_grants db !! (tenant, id) = Some row →
    gr_used_effects row = Z.of_nat (size (charges tenant id db));
  (** A charged effect is reserved on exactly the path of its run's grant. *)
  ledger_charged : ∀ tenant run ordinal e,
    db_effects db !! (tenant, run, ordinal) = Some e → e_reservation_charged e = true →
    ∃ r l, db_runs db !! (tenant, run) = Some r ∧
      path (db_grants db) tenant (r_grant_id r) l ∧
      ∀ id, (tenant, run, ordinal, id) ∈ db_reservations db ↔ id ∈ l.*1;
  (** A reservation belongs to a charged effect. *)
  ledger_effect : ∀ tenant run ordinal id,
    (tenant, run, ordinal, id) ∈ db_reservations db →
    ∃ e, db_effects db !! (tenant, run, ordinal) = Some e ∧ e_reservation_charged e = true;
}.

(** The invariant only reads grants, reservations, the charged flags and the
    grant of each run. *)
Lemma ledger_ok_frame db db' :
  ledger_ok db → db_grants db' = db_grants db → db_reservations db' = db_reservations db →
  (∀ k e', db_effects db' !! k = Some e' → e_reservation_charged e' = true →
     ∃ e, db_effects db !! k = Some e ∧ e_reservation_charged e = true) →
  (∀ k e, db_effects db !! k = Some e → e_reservation_charged e = true →
     ∃ e', db_effects db' !! k = Some e' ∧ e_reservation_charged e' = true) →
  (∀ k r, db_runs db !! k = Some r →
     ∃ r', db_runs db' !! k = Some r' ∧ r_grant_id r' = r_grant_id r) →
  ledger_ok db'.
Proof.
  intros [Hf Hu Hc He] Hg Hr Heff Heff' Hruns. split.
  - by rewrite Hg.
  - unfold charges. rewrite Hg, Hr. apply Hu.
  - intros tenant run ordinal e' He' Hch'. destruct (Heff _ _ He' Hch') as (e & He0 & Hch).
    destruct (Hc _ _ _ _ He0 Hch) as (r & l & Hrow & Hl & Hids).
    destruct (Hruns _ _ Hrow) as (r' & Hr' & Hgid). exists r', l.
    rewrite Hg, Hr, Hgid. auto.
  - rewrite Hr. intros tenant run ordinal id (e & He0 & Hch)%He. eauto.
Qed.

Lemma charges_applied tenant run ordinal plan db db' t id :
  plan_applied tenant run ordinal plan db db' →
  charges t id db' =
    if decide (t = tenant ∧ id ∈ plan.*1)
    then {[(tenant, run, ordinal, id)]} ∪ charges t id db else charges t id db.
Proof.
  intros [_ _ _ Hk _]. unfold charges. apply set_eq. intros [[[a b] c] d].
  destruct (decide _) as [[-> Hid]|Hid];
    rewrite ?elem_of_union, ?elem_of_singleton, !elem_of_filter, Hk; simpl; naive_solver.
Qed.

Section applied.
Context {tenant run : Uuid} {ordinal : Z} {plan : list (Uuid * Z)} {db db1 : Db}.
Hypothesis Happ : plan_applied tenant run ordinal plan db db1.

(** A row is charged once by the plan, or untouched. *)
Lemma applied_lookup t id :
  (t = tenant ∧ id ∈ plan.*1 ∧ ∃ row next, gr_used_effects row = next - 1 ∧
     db_grants db !! (t, id) = Some row ∧ grant_check (set_used next row) = true ∧
     db_grants db1 !! (t, id) = Some (set_used next row)) ∨
  (¬ (t = tenant ∧ id ∈ plan.*1) ∧ db_grants db1 !! (t, id) = db_grants db !! (t, id)).
Proof.
  destruct Happ as [Hrow Hother _ _ _].
  destruct (decide (t = tenant ∧ id ∈ plan.*1)) as [[-> Hin]|Hout]; [left|right].
  - split_and!; [done..|]. apply list_elem_of_fmap in Hin as ([i n] & -> & Hin).
    destruct (Hrow _ _ Hin) as (row & ? & ? & ? & ?). eauto 10.
  - split; [done|]. apply Hother. destruct (decide (t = tenant)); [right|left]; naive_solver.
Qed.

Lemma applied_evolves : grants_evolve (db_grants db) (db_grants db1).
Proof.
  intros [t id] row Hlk.
  destruct (applied_lookup t id) as [(_ & _ & row' & n & ? & ? & _ & ?)|[_ Heq]]; simplify_eq.
  - eexists. split; [done|]. apply set_used_evolves. lia.
  - exists row. by rewrite Heq.
Qed.

Lemma applied_forest : forest_ok (db_grants db) → forest_ok (db_grants db1).
Proof.
  intros Hf. eapply forest_ok_evolve; [done|apply applied_evolves|]. intros [t id] row' Hlk.
  destruct (applied_lookup t id) as [(_ & _ & row & n & ? & ? & ? & ?)|[_ Heq]]; simplify_eq.
  - eauto.
  - rewrite Heq in Hlk. split; [by eapply forest_check|eauto].
Qed.

Lemma applied_used :
  (∀ t id row, db_grants db !! (t, id) = Some row →
     gr_used_effects row = Z.of_nat (size (charges t id db))) →
  ∀ t id row, db_grants db1 !! (t, id) = Some row →
    gr_used_effects row = Z.of_nat (size (charges t id db1)).
Proof.
  intros Hu t id row' Hlk. rewrite (charges_applied _ _ _ _ _ _ _ _ Happ).
  destruct (applied_lookup t id) as [(-> & Hin & row & n & ? & Hlk0 & _ & ?)|[Hout Heq]].
  - rewrite decide_True by done. rewrite size_union, size_singleton.
    + simplify_eq. simpl. apply Hu in Hlk0. lia.
    + unfold charges. pose proof (pa_fresh _ _ _ _ _ _ Happ _ Hin). set_solver.
  - rewrite decide_False by done. rewrite Heq in Hlk. by apply Hu.
Qed.
End applied.

(** A ledger after an applied plan, once the effect is marked. *)
Lemma ledger_ok_applied tenant run ordinal db db1 plan l r e updated_at :
  ledger_ok db → db_runs db !! (tenant, run) = Some r →
  path (db_grants db) tenant (r_grant_id r) l → plan.*1 = l.*1 →
  db_effects db !! (tenant, run, ordinal) = Some e → e_reservation_charged e = false →
  plan_applied tenant run ordinal plan db db1 →
  ledger_ok (with_effects <[(tenant, run, ordinal) := set_charged updated_at e]> db1).
Proof.
  intros [Hf Hu Hc He] Hr Hl Hids Heff Hunch Happ.
  pose proof (applied_evolves Happ) as Hev. pose proof Happ as [_ _ _ Hk Hframe].
  assert (db_runs db1 = db_runs db) as Hruns by (by rewrite Hframe).
  assert (db_effects db1 = db_effects db) as Heffs by (by rewrite Hframe).
  split; simpl; rewrite ?Heffs, ?Hruns.
  - by apply (applied_forest Happ).
  - by apply (applied_used Happ).
  - intros t ru o e' He' Hch.
    assert (∃ r l, db_runs db !! (t, ru) = Some r ∧ path (db_grants db) t (r_grant_id r) l ∧
      ∀ id, (t, ru, o, id) ∈ db_reservations db1 ↔ id ∈ l.*1) as (r' & l' & Hr' & Hl' & Hi).
    { destruct (decide ((t, ru, o) = (tenant, run, ordinal))) as [[= -> -> ->]|Hne].
      - exists r, l. split_and!; auto. intros id. rewrite Hk, Hids. simpl. split; [|by auto].
        intros [Hin|[_ ?]]; [|done]. destruct (He _ _ _ _ Hin) as (e0 & ? & ?). congruence.
      - rewrite lookup_insert_ne in He' by done.
        destruct (Hc _ _ _ _ He' Hch) as (r' & l' & ? & ? & Hi). exists r', l'.
        split_and!; auto. intros id. rewrite Hk, <-Hi. simpl. naive_solver. }
    destruct (path_evolves _ _ _ _ _ Hev Hl') as (l'' & Hl'' & _).
    exists r', l''. split_and!; auto. by rewrite (path_evolves_ids _ _ _ _ _ _ Hev Hl' Hl'').
  - intros t ru o id. rewrite Hk. simpl.
    destruct (decide ((t, ru, o) = (tenant, run, ordinal))) as [[= -> -> ->]|Hne].
    + rewrite lookup_insert_eq. eauto.
    + rewrite lookup_insert_ne by done. intros [Hin|[? _]]; [by eapply He|done].
Qed.
End invariant.
