(* ===== verification/Spending.v ===== *)
(** * Spending: the correctness of the grant operations

    The theorems about creating, revoking and charging grants, from the
    invariants of [Budget]. *)
From S2P Require Export Budget.

Section reserve.
Context `{PgTime}.

(** The plan of a stored path. *)
Definition path_plan (l : list (Uuid * GrantRow)) : list (Uuid * Z) :=
  (λ e, (e.1, gr_used_effects e.2 + 1)) <$> l.

Lemma path_plan_ids l : (path_plan l).*1 = l.*1.
Proof. unfold path_plan. by rewrite <-list_fmap_compose. Qed.

(** A path may be charged now: it is live, permits the call and has room. *)
Definition chargeable (tenant : Uuid) (l : list (Uuid * GrantRow)) (now_ms : Z)
    (e : EffectRow) : Prop :=
  chain_ok (to_grant tenant <$> l) tenant now_ms ∧
  ∀ g, g ∈ to_grant tenant <$> l →
    permits (g_authority g) (e_action e) (e_destination e) (e_project e) ∧
    g_used_effects g < au_max_effects (g_authority g).

Lemma path_grants_u64 db tenant id l :
  forest_ok (db_grants db) → path (db_grants db) tenant id l →
  Forall grant_u64 (to_grant tenant <$> l).
Proof.
  intros Hf Hl. apply Forall_fmap. eapply Forall_impl; [apply (path_rows _ _ Hl)|].
  intros e He. apply (forest_check _ Hf) in He. unfold grant_check in He. bools.
  unfold grant_u64, u64_max. simpl. lia.
Qed.

Lemma path_plan_Ok db tenant id l now_ms e plan :
  forest_ok (db_grants db) → path (db_grants db) tenant id l →
  reservation_plan (to_grant tenant <$> l) tenant now_ms (e_action e) (e_destination e)
    (e_project e) = Ok plan ↔
  chargeable tenant l now_ms e ∧ plan = path_plan l.
Proof.
  intros Hf Hl. rewrite reservation_plan_Ok by by eapply path_grants_u64.
  unfold chargeable, path_plan. rewrite <-list_fmap_compose. naive_solver.
Qed.

(** What a successful reservation did. *)
Lemma reserve_grant_chain_Ok now updated_at request db kind db' :
  ledger_ok db → reserve_grant_chain now updated_at request db = Ok (kind, db') →
  let tenant := res_tenant request in
  let run := res_run request in
  let ordinal := res_ordinal request in
  ∃ r l e, db_runs db !! (tenant, run) = Some r ∧
    path (db_grants db) tenant (r_grant_id r) l ∧
    db_effects db !! (tenant, run, ordinal) = Some e ∧
    ((kind = ReservationExisting ∧ e_reservation_charged e = true ∧ db' = db) ∨
     (kind = ReservationCreated ∧ e_reservation_charged e = false ∧ e_state e = Prepared ∧
      chargeable tenant l (pg_epoch_ms now) e ∧
      ∃ db1, plan_applied tenant run ordinal (path_plan l) db db1 ∧
        db' = with_effects <[(tenant, run, ordinal) := set_charged updated_at e]> db1)).
Proof.
  intros Hok Hres tenant run ordinal. unfold reserve_grant_chain in Hres.
  fold tenant run ordinal in Hres.
  apply tx_bind_Ok in Hres as (r & db0 & [Hr ->]%fetch_optional_Ok & Hres).
  apply tx_bind_Ok in Hres as (anc & db0 & Hload & Hres).
  apply tx_query_Ok in Hload as [Hload ->].
  apply load_chain_Ok in Hload as (l & Hl & ->); [|apply Hok].
  apply tx_bind_Ok in Hres as (e & db0 & [He ->]%fetch_optional_Ok & Hres).
  apply tx_bind_Ok in Hres as (existing & db0 & [-> ->]%tx_gets_Ok & Hres).
  exists r, l, e. split_and!; auto. case_bool (negb (bool_decide
    (reserved_grants tenant run ordinal db = []))); cbv iota zeta in Hres.
  - left. case_match eqn:Hc; [|done]. bools. inv_ok. auto.
  - right. apply tx_bind_Ok in Hres as ([] & db0 & [Hst ->]%tx_fail_if_Ok & Hres). bools.
    apply tx_bind_Ok in Hres as (plan & db0 & [Hplan ->]%tx_lift_Ok & Hres).
    apply map_err_Ok in Hplan. apply (path_plan_Ok db _ (r_grant_id r)) in Hplan as [Hch ->];
      [|apply Hok|done].
    apply tx_bind_Ok in Hres as ([] & db1 & Hloop & Hres).
    apply charge_loop_Ok in Hloop.
    2:{ rewrite path_plan_ids. destruct (path_last _ _ Hl) as (_ & row & _ & Hrow).
        destruct (forest_path _ (ledger_forest _ Hok) _ _ _ Hrow) as (l' & Hl' & Hc).
        rewrite (path_fun _ _ _ Hl Hl'). by eapply structure_nodup. }
    apply tx_bind_Ok in Hres as (n & db2 & Hupd & Hres). inv_ok. bools.
    apply update_effect_Ok in Hupd as [(e' & He' & _ & _ & ->)|(? & _)]; [|lia].
    assert (db_effects db1 = db_effects db) as Heff
      by (by rewrite (pa_frame _ _ _ _ _ _ Hloop)).
    rewrite Heff in He'. simplify_eq. split_and!; eauto.
Qed.

Lemma set_used_check row :
  grant_check row = true → gr_used_effects row < gr_max_effects row →
  grant_check (set_used (gr_used_effects row + 1) row) = true.
Proof.
  unfold grant_check. simpl. intros. bools. split_and!; auto; lia.
Qed.

Lemma path_nodup db tenant id l :
  forest_ok (db_grants db) → path (db_grants db) tenant id l → NoDup l.*1.
Proof.
  intros Hf Hl. destruct (path_last _ _ Hl) as (_ & row & _ & Hrow).
  destruct (forest_path _ Hf _ _ _ Hrow) as (l' & Hl' & Hc).
  rewrite (path_fun _ _ _ Hl Hl'). by eapply structure_nodup.
Qed.

(** An uncharged effect has no reservation. *)
Lemma uncharged_unreserved db tenant run ordinal e id :
  ledger_ok db → db_effects db !! (tenant, run, ordinal) = Some e →
  e_reservation_charged e = false → (tenant, run, ordinal, id) ∉ db_reservations db.
Proof.
  intros Hok He Hch Hin. destruct (ledger_effect _ Hok _ _ _ _ Hin) as (e' & ? & ?). congruence.
Qed.

Lemma path_charge_total db tenant run ordinal id l e now_ms :
  ledger_ok db → path (db_grants db) tenant id l →
  db_effects db !! (tenant, run, ordinal) = Some e → e_reservation_charged e = false →
  chargeable tenant l now_ms e →
  ∃ db1, tx_for_each (charge_grant tenant run ordinal) (path_plan l) db = Ok ((), db1).
Proof.
  intros Hok Hl He Hunch [_ Hroom]. apply charge_loop_total.
  - rewrite path_plan_ids. by eapply path_nodup; [apply Hok|].
  - by rewrite He.
  - intros i n Hin. apply list_elem_of_fmap in Hin as ([i' row] & [= -> ->] & Hin).
    pose proof (path_row _ _ _ _ Hl Hin) as Hrow.
    pose proof (forest_check _ (ledger_forest _ Hok) _ _ Hrow) as Hcheck.
    destruct (Hroom (to_grant tenant (i', row))) as [_ Hlt]; [by apply list_elem_of_fmap_2|].
    simpl in Hlt. pose proof (set_used_check _ Hcheck Hlt) as Hnext.
    unfold grant_check in Hcheck. bools. unfold i64_min, i64_max. split_and!; [lia|lia| |].
    + by eapply uncharged_unreserved.
    + exists row. split_and!; auto. lia.
Qed.

Lemma reserve_existing now updated_at request db r l e :
  let tenant := res_tenant request in
  let run := res_run request in
  let ordinal := res_ordinal request in
  ledger_ok db → db_runs db !! (tenant, run) = Some r →
  path (db_grants db) tenant (r_grant_id r) l →
  db_effects db !! (tenant, run, ordinal) = Some e → e_reservation_charged e = true →
  reserve_grant_chain now updated_at request db = Ok (ReservationExisting, db).
Proof.
  intros tenant run ordinal Hok Hr Hl He Hch. unfold reserve_grant_chain.
  tx_step; [by apply fetch_optional_Ok|].
  tx_step; [apply tx_query_Ok; split; [by apply load_chain_path; [apply Hok|]|done]|].
  tx_step; [by apply fetch_optional_Ok|]. tx_step; [by apply tx_gets_Ok|].
  destruct (ledger_charged _ Hok _ _ _ _ He Hch) as (r' & l' & Hr' & Hl' & Hids). simplify_eq.
  rewrite (path_fun _ _ _ Hl' Hl) in Hids.
  rewrite (reserved_grants_sorted _ _ _ _ l.*1); [|by eapply path_nodup; [apply Hok|]|done].
  rewrite <-list_fmap_compose. rewrite bool_decide_eq_false_2.
  - rewrite bool_decide_eq_true_2 by done. simpl. by rewrite Hch.
  - intros Hnil. pose proof (merge_sort_Permutation Z.le l.*1) as Hp. rewrite Hnil in Hp.
    destruct (path_last _ _ Hl) as (l0 & row & -> & _).
    apply Permutation_nil in Hp. rewrite fmap_app in Hp. by destruct (l0.*1).
Qed.

Lemma reserve_created now updated_at request db r l e :
  let tenant := res_tenant request in
  let run := res_run request in
  let ordinal := res_ordinal request in
  ledger_ok db → db_runs db !! (tenant, run) = Some r →
  path (db_grants db) tenant (r_grant_id r) l →
  db_effects db !! (tenant, run, ordinal) = Some e → e_reservation_charged e = false →
  reserve_grant_chain now updated_at request db =
    if negb (bool_decide (e_state e = Prepared)) then Err CorruptGrant
    else match reservation_plan (to_grant tenant <$> l) tenant (pg_epoch_ms now)
                 (e_action e) (e_destination e) (e_project e) with
    | Err ge => Err (GrantValidation ge)
    | Ok plan =>
      match tx_for_each (charge_grant tenant run ordinal) plan db with
      | Ok (_, db1) => Ok (ReservationCreated,
          with_effects <[(tenant, run, ordinal) := set_charged updated_at e]> db1)
      | Err err => Err err
      end
    end.
Proof.
  intros tenant run ordinal Hok Hr Hl He Hch. unfold reserve_grant_chain. fold tenant run ordinal.
  unfold mbind, tx_bind at 1. unfold fetch_optional, tx_gets, tx_ok_or, tx_lift, mbind, tx_bind.
  rewrite Hr. cbn [ok_or]. unfold load_grant_chain_locked, tx_query.
  rewrite (load_chain_path _ _ _ _ (ledger_forest _ Hok) Hl), He. cbn [ok_or].
  assert (reserved_grants tenant run ordinal db = []) as ->.
  { apply elem_of_nil_inv. intros id Hid%reserved_grants_elem.
    by eapply uncharged_unreserved in Hid. }
  rewrite bool_decide_eq_true_2 by done. cbn [negb]. rewrite Hch. cbn [orb].
  unfold tx_fail_if, tx_lift, fail_if.
  destruct (negb (bool_decide (e_state e = Prepared))); [done|].
  destruct (reservation_plan _ _ _ _ _ _) as [plan|ge] eqn:Hplan; cbn [map_err]; [|done].
  apply (path_plan_Ok db _ (r_grant_id r)) in Hplan as [Hcg ->]; [|apply Hok|done].
  destruct (path_charge_total _ _ _ _ _ _ _ _ Hok Hl He Hch Hcg) as [db1 Hloop].
  rewrite Hloop. apply charge_loop_Ok in Hloop;
    [|rewrite path_plan_ids; by eapply path_nodup; [apply Hok|]].
  unfold update_effect. rewrite (pa_frame _ _ _ _ _ _ Hloop). simpl. rewrite He. by rewrite Hch.
Qed.
End reserve.

(** ** Creation and revocation keep the ledger *)

Section grant_operations.
Context `{PgTime, Sha256}.

Lemma path_evolves_back m m' tenant id l' :
  grants_evolve m m' → forest_ok m → is_Some (m !! (tenant, id)) →
  path m' tenant id l' → ∃ l, path m tenant id l ∧ l'.*1 = l.*1.
Proof.
  intros Hev Hf [row Hrow] Hl'. destruct (forest_path _ Hf _ _ _ Hrow) as (l & Hl & _).
  exists l. split; [done|]. by eapply path_evolves_ids.
Qed.

(** The ledger only depends on paths up to evolution, when no counter changes. *)
Lemma ledger_ok_evolve db db' :
  ledger_ok db → forest_ok (db_grants db') →
  grants_evolve (db_grants db) (db_grants db') →
  db_reservations db' = db_reservations db → db_effects db' = db_effects db →
  db_runs db' = db_runs db →
  (∀ tenant id row', db_grants db' !! (tenant, id) = Some row' →
     gr_used_effects row' = Z.of_nat (size (charges tenant id db))) →
  ledger_ok db'.
Proof.
  intros [Hf Hu Hc He] Hf' Hev Hr Heff Hruns Hused. split; [done|..].
  - unfold charges. rewrite Hr. apply Hused.
  - rewrite Hr, Heff, Hruns. intros tenant run ordinal e He0 Hch.
    destruct (Hc _ _ _ _ He0 Hch) as (r & l & Hrow & Hl & Hids).
    destruct (path_evolves _ _ _ _ _ Hev Hl) as (l' & Hl' & _). exists r, l'.
    split_and!; auto. by rewrite (path_evolves_ids _ _ _ _ _ _ Hev Hl Hl').
  - by rewrite Hr, Heff.
Qed.

(** Every reserved grant is stored. *)
Lemma reserved_stored db tenant run ordinal id :
  ledger_ok db → (tenant, run, ordinal, id) ∈ db_reservations db →
  is_Some (db_grants db !! (tenant, id)).
Proof.
  intros Hok Hin. destruct (ledger_effect _ Hok _ _ _ _ Hin) as (e & He & Hch).
  destruct (ledger_charged _ Hok _ _ _ _ He Hch) as (r & l & _ & Hl & Hids).
  apply Hids, list_elem_of_fmap in Hin as ([i row] & -> & Hin).
  simpl. by rewrite (path_row _ _ _ _ Hl Hin).
Qed.

Lemma charges_fresh db tenant id :
  ledger_ok db → db_grants db !! (tenant, id) = None → charges tenant id db = ∅.
Proof.
  intros Hok Hid. unfold charges. apply set_eq. intros [[[t r] o] i].
  rewrite elem_of_filter. simpl. split; [|by intros ?%elem_of_empty].
  intros [[-> ->] Hin]. apply reserved_stored in Hin as [? ?]; [|done]. congruence.
Qed.

Lemma revoke_grant_Ok now tenant id actor_id reason db record db' :
  revoke_grant now tenant id actor_id reason db = Ok (record, db') →
  ∃ row, db_grants db !! (tenant, id) = Some row ∧
    ((∃ t, gr_revoked_at row = Some t ∧ db' = db ∧
        record = {| rev_id := id; rev_revoked_at := pg_to_char t |}) ∨
     (gr_revoked_at row = None ∧ grant_check (set_revoked now row) = true ∧
      record = {| rev_id := id; rev_revoked_at := pg_to_char now |} ∧
      db' = with_operator_events (λ l, l ++ [{|
        oe_tenant := tenant; oe_actor := actor_id; oe_action := "grant.revoked";
        oe_object := id; oe_detail_hash := hash_grant_revocation id reason |}])
        (with_grants <[(tenant, id) := set_revoked now row]> db))).
Proof.
  intros Hrev. unfold revoke_grant, load_grant_chain_locked in Hrev.
  apply tx_bind_Ok in Hrev as ([] & db0 & [_ ->]%tx_fail_if_Ok & Hrev).
  apply tx_bind_Ok in Hrev as (gs & db0 & [_ ->]%tx_query_Ok & Hrev).
  apply tx_bind_Ok in Hrev as (row & db0 & [Hrow ->]%fetch_one_Ok & Hrev).
  exists row. split; [done|].
  apply tx_bind_Ok in Hrev as (at_ & db0 & Hat & Hrev). apply tx_ret_Ok in Hrev as [-> ->].
  destruct (gr_revoked_at row) as [t|] eqn:Ht.
  - apply tx_ret_Ok in Hat as [-> ->]. left. eauto.
  - right. apply tx_bind_Ok in Hat as (n & db1 & Hupd & Hat).
    apply tx_bind_Ok in Hat as ([] & db2 & [Hn ->]%tx_fail_if_Ok & Hat).
    apply tx_bind_Ok in Hat as ([] & db3 & [_ ->]%insert_operator_event_Ok & Hat).
    apply tx_ret_Ok in Hat as [-> ->].
    apply update_grant_Ok in Hupd as [(row' & ? & _ & ? & _ & ->)|(-> & _)]; [|done].
    simplify_eq. done.
Qed.

Lemma revoke_grant_ledger now tenant id actor_id reason db record db' :
  ledger_ok db → revoke_grant now tenant id actor_id reason db = Ok (record, db') →
  ledger_ok db' ∧ grants_evolve (db_grants db) (db_grants db').
Proof.
  intros Hok (row & Hrow & [(t & Ht & -> & _)|(Hn & Hcheck & _ & ->)])%revoke_grant_Ok; [done|].
  pose proof (set_revoked_evolves row now Hn) as Hr.
  pose proof (grants_evolve_insert _ _ _ _ Hrow Hr) as Hev. split; [|done].
  apply (ledger_ok_evolve db); try done.
  - simpl. eapply forest_ok_update; [apply Hok|done..].
  - intros t i row'. simpl. destruct (decide ((t, i) = (tenant, id))) as [[= -> ->]|Hne].
    + rewrite lookup_insert_eq. intros [= <-]. simpl. by apply Hok.
    + rewrite lookup_insert_ne by done. by apply Hok.
Qed.

Lemma create_grant_ledger `{!PgTimeLaws} id now tenant parent actor_id authority db record db' :
  ledger_ok db → clock_ok now →
  create_grant id now tenant parent actor_id authority db = Ok (record, db') →
  ledger_ok db' ∧ grants_evolve (db_grants db) (db_grants db').
Proof.
  intros Hok [Hnow Hmax] (l & Hl & Hval & Hchild & Hid & Hcheck & -> & _)%create_grant_Ok;
    [|apply Hok].
  assert (0 ≤ expires_at_ms authority < 8000000000000) as Hexp.
  { apply Authority_validate_Ok in Hval as (_ & _ & ?). lia. }
  pose proof (grants_evolve_fresh (db_grants db) (tenant, id) (new_grant_row parent
    (Z.of_nat (length l)) (au_max_effects authority) authority) Hid) as Hev.
  split; [|done]. apply (ledger_ok_evolve db); try done.
  - eapply forest_ok_create; eauto. apply Hok.
  - intros t i row'. simpl. destruct (decide ((t, i) = (tenant, id))) as [[= -> ->]|Hne].
    + rewrite lookup_insert_eq. intros [= <-]. simpl. by rewrite charges_fresh.
    + rewrite lookup_insert_ne by done. by apply Hok.
Qed.
End grant_operations.

Lemma reserve_ledger `{PgTime} now updated_at request db kind db' :
  ledger_ok db → reserve_grant_chain now updated_at request db = Ok (kind, db') →
  ledger_ok db' ∧ grants_evolve (db_grants db) (db_grants db').
Proof.
  intros Hok (r & l & e & Hr & Hl & He & [(_ & _ & ->)|
    (_ & Hch & _ & _ & db1 & Happ & ->)])%reserve_grant_chain_Ok; [done| |done].
  split; [|simpl; by eapply applied_evolves].
  eapply ledger_ok_applied; eauto. apply path_plan_ids.
Qed.

(** The row of a charged grant. *)
Lemma applied_row `{PgTime} tenant run ordinal leaf l db db1 id row :
  path (db_grants db) tenant leaf l → plan_applied tenant run ordinal (path_plan l) db db1 →
  (id, row) ∈ l →
  db_grants db1 !! (tenant, id) = Some (set_used (gr_used_effects row + 1) row).
Proof.
  intros Hl Happ Hin.
  destruct (pa_row _ _ _ _ _ _ Happ id (gr_used_effects row + 1)) as (row' & ? & _ & _ & Hrow').
  { apply list_elem_of_fmap. by exists (id, row). }
  pose proof (path_row _ _ _ _ Hl Hin). by simplify_eq.
Qed.

(** Every grant of a valid chain is live. *)
Lemma chain_live `{PgTime} tenant l now_ms i row :
  chain_ok (to_grant tenant <$> l) tenant now_ms → (i, row) ∈ l → gr_revoked_at row = None.
Proof.
  intros Hc Hin. apply list_elem_of_lookup in Hin as [n Hn].
  pose proof (chain_links _ _ _ Hc n (to_grant tenant (i, row))
    ltac:(by rewrite list_lookup_fmap, Hn)) as [_ _ _ [Hlive _] _ _].
  simpl in Hlive. bools. destruct (gr_revoked_at row); [|done]. by destruct Hlive.
Qed.

(** A new run and a new, uncharged effect do not concern the ledger. *)
Lemma ledger_ok_prepare `{PgTime} db k r k' e :
  ledger_ok db → db_runs db !! k = None → db_effects db !! k' = None →
  e_reservation_charged e = false →
  ledger_ok (with_effects <[k' := e]> (with_runs <[k := r]> db)).
Proof.
  intros Hok Hk Hk' He. apply (ledger_ok_frame db); simpl; try done.
  - intros k0 e0. destruct (decide (k0 = k')) as [->|Hne].
    + rewrite lookup_insert_eq. intros [= <-]. congruence.
    + rewrite lookup_insert_ne by done. eauto.
  - intros k0 e0 He0 Hch. exists e0. rewrite lookup_insert_ne by congruence. done.
  - intros k0 r0 Hr0. exists r0. rewrite lookup_insert_ne by congruence. done.
Qed.

(** ** A concrete ledger *)

Module PgReference.
(** Timestamps in microseconds, printed as numbers. *)
#[global] Instance pg_ref : PgTime := {|
  pg_to_timestamp ms := ms * 1000;
  pg_epoch_ms t := t / 1000;
  pg_to_char t := hex (u64_be t);
|}.
#[global] Instance pg_ref_laws : PgTimeLaws.
Proof. intros ms Hms. simpl. apply Z.div_mul. lia. Qed.
End PgReference.

Module Demo.
Import Reference PgReference.

Definition tenant : Uuid := 1.
Definition now : Z := 1700000000000 * 1000.

Definition authority (budget : Z) : Authority := {|
  actions := {["ticket.create"%string]}; destinations := {["desk"%string]};
  projects := {["ops"%string]}; expires_at_ms := 1700000060000; au_max_effects := budget;
|}.

Definition empty_db : Db := {|
  db_tenants := {[tenant := mkTenantRow 10 1 0 0]}; db_dispatch_seq := Some 0;
  db_modules := {[(tenant, replicate 32 x00) := [x00]]}; db_grants := ∅; db_runs := ∅;
  db_effects := ∅; db_reservations := ∅; db_events := ∅; db_operator_events := [];
|}.

Definition root_db : Db := Eval vm_compute in
  tx_state (create_grant 10 now tenant None "operator" (authority 3)) empty_db.
Definition child_db : Db := Eval vm_compute in
  tx_state (create_grant 11 now tenant (Some 10) "operator" (authority 2)) root_db.

Definition run : RunRow := {|
  r_idempotency_key := "key"; r_request_hash := replicate 32 x00;
  r_module_digest := replicate 32 x00; r_grant_id := 11; r_input_bytes := Some [];
  r_output_bytes := None; r_limits := "{}"; r_state := Running; r_lease_epoch := 1;
  r_lease_owner := Some "worker"%string; r_lease_expires_at := Some (now + 5000000);
  r_attempt := 1; r_active_slot_held := true; r_cancel_requested := false;
  r_error_code := None; r_next_event_seq := 1; r_last_event_hash := zero_hash;
  r_created_at := now; r_updated_at := now;
|}.
Definition effect : EffectRow := {|
  e_request_hash := replicate 32 x00; e_action := "ticket.create"; e_destination := "desk";
  e_project := "ops"; e_provider_key := "key"; e_state := Prepared; e_send_attempts := 0;
  e_reservation_charged := false; e_updated_at := now;
|}.
Definition request : GrantReservation := mkGrantReservation tenant 20 0.

(** A running run whose first effect is prepared. *)
Definition ready_db : Db :=
  with_effects <[(tenant, 20, 0) := effect]> (with_runs <[(tenant, 20) := run]> child_db).

Lemma empty_ledger : ledger_ok empty_db.
Proof. split; simpl; intros; by simplify_map_eq. Qed.

Lemma clock : clock_ok now.
Proof. by split. Qed.

Lemma root_create : create_grant 10 now tenant None "operator" (authority 3) empty_db =
  Ok (mkGrantRecord 10 None 0 ["ticket.create"] ["desk"] ["ops"]
        (pg_to_char (1700000060000 * 1000)) 3 0 None [10], root_db).
Proof. vm_compute. reflexivity. Qed.

Lemma child_create : create_grant 11 now tenant (Some 10) "operator" (authority 2) root_db =
  Ok (mkGrantRecord 11 (Some 10) 1 ["ticket.create"] ["desk"] ["ops"]
        (pg_to_char (1700000060000 * 1000)) 2 0 None [10; 11], child_db).
Proof. vm_compute. reflexivity. Qed.

Lemma root_ledger : ledger_ok root_db.
Proof. eapply create_grant_ledger, root_create; [apply empty_ledger|apply clock]. Qed.
Lemma child_ledger : ledger_ok child_db.
Proof. eapply create_grant_ledger, child_create; [apply root_ledger|apply clock]. Qed.

Lemma ready_ledger : ledger_ok ready_db.
Proof.
  apply ledger_ok_prepare; [apply child_ledger|vm_compute; reflexivity..].
Qed.

Lemma ready_path : ∃ l, path (db_grants ready_db) tenant 11 l ∧ l.*1 = [10; 11].
Proof.
  eexists. split.
  - eapply path_child; [vm_compute; reflexivity..|].
    eapply path_root; vm_compute; reflexivity.
  - reflexivity.
Qed.

Definition charged_db : Db := Eval vm_compute in tx_state (reserve_grant_chain now now request) ready_db.

Lemma charge : reserve_grant_chain now now request ready_db = Ok (ReservationCreated, charged_db).
Proof. vm_compute. reflexivity. Qed.
Lemma charged_ledger : ledger_ok charged_db.
Proof. eapply reserve_ledger, charge. apply ready_ledger. Qed.

Definition revoked_db : Db := Eval vm_compute in
  tx_state (revoke_grant now tenant 10 "operator" "left the team") ready_db.

Lemma revoke : revoke_grant now tenant 10 "operator" "left the team" ready_db =
  Ok ({| rev_id := 10; rev_revoked_at := pg_to_char now |}, revoked_db).
Proof. vm_compute. reflexivity. Qed.

Lemma charged_path : ∃ l, path (db_grants charged_db) tenant 11 l ∧ 10 ∈ l.*1.
Proof.
  eexists. split.
  - eapply path_child; [vm_compute; reflexivity..|].
    eapply path_root; vm_compute; reflexivity.
  - apply list_elem_of_here.
Qed.
End Demo.

(** ** Properties *)

(** C18: an effect is charged to every ancestor, once.  Take an effect of a run
    whose grant is stored.  If it was already charged then, whatever has become
    of it since and at whatever time, reserving it reports the existing
    reservation and changes nothing.  If it was not, reserving it succeeds exactly
    when the effect is prepared and every grant from the root to the run's grant
    is live, permits the call and has budget left; it then raises each of their
    counters by one and no other, marks the effect charged, changes no other
    effect and keeps the ledger consistent. *)
Theorem reserve_charges_ancestry `{PgTime} now updated_at request db r l e :
  let tenant := res_tenant request in
  let run := res_run request in
  let ordinal := res_ordinal request in
  ledger_ok db → db_runs db !! (tenant, run) = Some r →
  path (db_grants db) tenant (r_grant_id r) l →
  db_effects db !! (tenant, run, ordinal) = Some e →
  if e_reservation_charged e
  then reserve_grant_chain now updated_at request db = Ok (ReservationExisting, db)
  else
    ((∃ db', reserve_grant_chain now updated_at request db = Ok (ReservationCreated, db')) ↔
     e_state e = Prepared ∧ chargeable tenant l (pg_epoch_ms now) e) ∧
    (∀ kind db', reserve_grant_chain now updated_at request db = Ok (kind, db') →
     kind = ReservationCreated ∧ ledger_ok db' ∧
     (∀ id row, (id, row) ∈ l → db_grants db' !! (tenant, id) =
        Some (set_used (gr_used_effects row + 1) row)) ∧
     (∀ t id, t ≠ tenant ∨ id ∉ l.*1 → db_grants db' !! (t, id) = db_grants db !! (t, id)) ∧
     db_effects db' = <[(tenant, run, ordinal) := set_charged updated_at e]> (db_effects db) ∧
     e_reservation_charged (set_charged updated_at e) = true ∧
     (∀ now' updated_at', reserve_grant_chain now' updated_at' request db' =
        Ok (ReservationExisting, db'))).
Proof.
  intros tenant run ordinal Hok Hr Hl He.
  destruct (e_reservation_charged e) eqn:Hunch; [by eapply reserve_existing|]. split.
  - rewrite (reserve_created _ _ _ _ _ _ _ Hok Hr Hl He Hunch).
    fold tenant run ordinal. split.
    + intros [db' Hres]. case_bool (negb (bool_decide (e_state e = Prepared))); [done|].
      split; [done|]. destruct (reservation_plan _ _ _ _ _ _) as [plan|] eqn:Hplan; [|done].
      by apply (path_plan_Ok db _ (r_grant_id r)) in Hplan as [? _]; [|apply Hok|].
    + intros [Hst Hcg]. rewrite bool_decide_eq_true_2 by done. cbn [negb].
      rewrite (proj2 (path_plan_Ok db _ _ _ _ _ _ (ledger_forest _ Hok) Hl)
                 (conj Hcg eq_refl)).
      destruct (path_charge_total _ _ _ _ _ _ _ _ Hok Hl He Hunch Hcg) as [db1 ->]. eauto.
  - intros kind db' Hres. destruct (reserve_ledger _ _ _ _ _ _ Hok Hres) as [Hok' Hev].
    pose proof (reserve_grant_chain_Ok _ _ _ _ _ _ Hok Hres)
      as (r' & l' & e' & Hr' & Hl' & He' & Hcase).
    fold tenant run ordinal in Hr', Hl', He', Hcase. simplify_eq.
    rewrite (path_fun _ _ _ Hl' Hl) in Hcase.
    destruct Hcase as [(_ & ? & _)|(-> & _ & Hst & _ & db1 & Happ & ->)]; [congruence|].
    split_and!; try done.
    + intros id row Hin. exact (applied_row _ _ _ _ _ _ _ _ _ Hl Happ Hin).
    + intros t id Hne. simpl. apply (pa_other _ _ _ _ _ _ Happ). by rewrite path_plan_ids.
    + simpl. by rewrite (pa_frame _ _ _ _ _ _ Happ).
    + intros now' updated_at'.
      destruct (path_evolves _ _ _ _ _ Hev Hl) as (l'' & Hl'' & _).
      eapply reserve_existing; eauto; fold tenant run ordinal.
      * simpl. by rewrite (pa_frame _ _ _ _ _ _ Happ).
      * simpl. by rewrite lookup_insert_eq.
      * done.
Qed.

Lemma reserve_charges_ancestry_witness :
  ∃ db', reserve_grant_chain (H := PgReference.pg_ref) Demo.now Demo.now Demo.request Demo.ready_db
    = Ok (ReservationCreated, db').
Proof.
  destruct Demo.ready_path as (l & Hl & Hids).
  apply (reserve_charges_ancestry (H := PgReference.pg_ref) Demo.now Demo.now Demo.request
    Demo.ready_db Demo.run l Demo.effect Demo.ready_ledger ltac:(vm_compute; reflexivity) Hl
    ltac:(vm_compute; reflexivity)).
  split; [reflexivity|].
  assert (reservation_plan (to_grant Demo.tenant <$> l) Demo.tenant 1700000000000
    "ticket.create" "desk" "ops" = Ok (path_plan l)) as Hplan.
  { assert (load_chain (H := PgReference.pg_ref) Demo.tenant 11 Demo.ready_db =
      Ok (to_grant Demo.tenant <$> l)) as Hload
      by (apply load_chain_path; [apply Demo.ready_ledger|exact Hl]).
    clear Hids. inversion Hl as [|id row p l0 Hrow Hp Hl0]; subst;
      [vm_compute in H; injection H as <-; discriminate|].
    vm_compute in Hrow. injection Hrow as <-. injection Hp as <-.
    inversion Hl0 as [id row Hrow Hp|id row p l1 Hrow Hp Hl1]; subst;
      vm_compute in Hrow; injection Hrow as <-; [|discriminate].
    vm_compute. reflexivity. }
  apply (path_plan_Ok Demo.ready_db Demo.tenant 11 l _ Demo.effect _
    (ledger_forest _ Demo.ready_ledger) Hl) in Hplan as [Hcg _]. exact Hcg.
Defined.

(** C32: revocation is recorded once and is permanent for the whole subtree.
    A revocation that succeeds reports the grant's first revocation time,
    repeating it later reports the same time and changes nothing, and in no
    later state of the ledger can an effect of a run under the revoked grant or
    any grant derived from it be charged, nor a grant be created below any of
    them. *)
Theorem revocation_permanent `{PgTime, Sha256} now tenant id actor_id reason db record db' :
  ledger_ok db → revoke_grant now tenant id actor_id reason db = Ok (record, db') →
  (∃ row t, db_grants db' !! (tenant, id) = Some row ∧ gr_revoked_at row = Some t ∧
     record = {| rev_id := id; rev_revoked_at := pg_to_char t |}) ∧
  (∀ now' actor_id' reason' record' db'',
     revoke_grant now' tenant id actor_id' reason' db' = Ok (record', db'') →
     record' = record ∧ db'' = db') ∧
  (∀ later, ledger_ok later → grants_evolve (db_grants db') (db_grants later) →
   ∀ leaf l, path (db_grants later) tenant leaf l → id ∈ l.*1 →
   (∀ request r now' updated_at' later',
     res_tenant request = tenant → db_runs later !! (tenant, res_run request) = Some r →
     r_grant_id r = leaf →
     reserve_grant_chain now' updated_at' request later ≠ Ok (ReservationCreated, later')) ∧
   (∀ child now' actor_id' authority record' later',
     create_grant child now' tenant (Some leaf) actor_id' authority later ≠ Ok (record', later'))).
Proof.
  intros Hok Hrev. pose proof (revoke_grant_Ok _ _ _ _ _ _ _ _ Hrev) as (row & Hrow & Hcase).
  assert (∃ row' t, db_grants db' !! (tenant, id) = Some row' ∧ gr_revoked_at row' = Some t ∧
    record = {| rev_id := id; rev_revoked_at := pg_to_char t |})
    as (row' & t & Hrow' & Ht & Hrec).
  { destruct Hcase as [(t & Ht & -> & ->)|(_ & _ & -> & ->)]; [by eauto|].
    simpl. rewrite lookup_insert_eq. eauto. }
  split_and!; [by eauto|..].
  - intros now' actor' reason' record' db'' Hrev'.
    apply revoke_grant_Ok in Hrev' as (row2 & Hrow2 & Hcase2). simplify_eq.
    destruct Hcase2 as [(t2 & Ht2 & -> & ->)|(Hn & _)]; [|congruence].
    split; congruence.
  - intros later Hok' Hev leaf l Hl Hin.
    assert (∀ now_ms, ¬ chain_ok (to_grant tenant <$> l) tenant now_ms) as Hdead.
    { intros now_ms Hchain. destruct (Hev _ _ Hrow') as (row2 & Hrow2 & Hev2).
      apply list_elem_of_fmap in Hin as ([i rowl] & -> & Hin).
      pose proof (path_row _ _ _ _ Hl Hin) as Hlk. simpl in *. simplify_eq.
      pose proof (chain_live _ _ _ _ _ Hchain Hin) as Hlive.
      by rewrite (ev_revoked _ _ Hev2 _ Ht) in Hlive. }
    split.
    + intros request r now' updated_at' later' Htn Hr Hleaf Hres.
      apply (reserve_grant_chain_Ok _ _ _ _ _ _ Hok') in Hres
        as (r2 & l2 & e & Hr2 & Hl2 & _ & [(? & _)|(_ & _ & _ & [Hchain _] & _)]); [done|].
      rewrite Htn in *. simplify_eq. rewrite (path_fun _ _ _ Hl2 Hl) in Hchain.
      by eapply Hdead.
    + intros child now' actor' authority record' later' Hcreate.
      apply create_grant_Ok in Hcreate as (l2 & Hl2 & _ & Hval & _); [|apply Hok'].
      simpl in Hl2. rewrite (path_fun _ _ _ Hl2 Hl) in Hval.
      apply (validate_child_Ok _ _ _ _ _) in Hval as (_ & Hchain & _).
      * by eapply Hdead.
      * intros ->. by apply not_elem_of_nil in Hin.
Qed.

Lemma revocation_permanent_witness :
  ∃ row t, db_grants Demo.revoked_db !! (Demo.tenant, 10) = Some row ∧
    gr_revoked_at row = Some t ∧
    {| rev_id := 10; rev_revoked_at := pg_to_char Demo.now |} =
    {| rev_id := 10; rev_revoked_at := pg_to_char t |}.
Proof.
  exact (proj1 (revocation_permanent _ _ _ _ _ _ _ _ Demo.ready_ledger Demo.revoke)).
Defined.

(** C38: creating a grant never escalates.  A successful creation adds
    exactly one grant: its path is its parent's path and itself, it loads as a
    valid chain, its authority is within that of every ancestor and within a
    day, it starts unspent and unrevoked, every existing grant keeps its row,
    and the ledger stays consistent. *)
Theorem create_grant_attenuates `{PgTimeLaws, Sha256}
    id now tenant parent actor_id authority db record db' :
  ledger_ok db → clock_ok now →
  create_grant id now tenant parent actor_id authority db = Ok (record, db') →
  ledger_ok db' ∧
  (∃ l row, parent_path (db_grants db) tenant parent l ∧
     path (db_grants db') tenant id (l ++ [(id, row)]) ∧
     load_chain tenant id db' = Ok (to_grant tenant <$> (l ++ [(id, row)])) ∧
     row_authority row = authority ∧ gr_used_effects row = 0 ∧ gr_revoked_at row = None ∧
     grec_ancestry record = l.*1 ++ [id] ∧
     (∀ i row', (i, row') ∈ l → attenuated authority (row_authority row') ∧
        gr_revoked_at row' = None)) ∧
  pg_epoch_ms now < expires_at_ms authority ≤ pg_epoch_ms now + 86400000 ∧
  db_grants db !! (tenant, id) = None ∧
  (∀ k, k ≠ (tenant, id) → db_grants db' !! k = db_grants db !! k).
Proof.
  intros Hok Hclock Hcreate.
  destruct (create_grant_ledger _ _ _ _ _ _ _ _ _ Hok Hclock Hcreate) as [Hok' _].
  destruct Hclock as [Hnow Hmax].
  apply create_grant_Ok in Hcreate as
    (l & Hl & Hval & Hchild & Hid & Hcheck & -> & Hanc & _ & _); [|apply Hok].
  pose proof Hval as (_ & _ & Hexp)%Authority_validate_Ok.
  destruct (forest_ok_create (db_grants db) tenant parent id authority l (pg_epoch_ms now))
    as [Hpath _]; try done; [apply Hok|lia|].
  split_and!; auto; try lia.
  - eexists l, _. split_and!; [done|exact Hpath|by apply load_chain_path; [apply Hok'|]| |done|done|done|].
    + apply new_grant_authority. lia.
    + intros i row' Hin.
      assert (l ≠ []) as Hne by (intros ->; by apply not_elem_of_nil in Hin).
      destruct (proj1 (validate_child_Ok _ _ _ _ _) (Hchild Hne)) as (_ & Hc & _ & Hatt).
      split; [by apply (Hatt (to_grant tenant (i, row'))), list_elem_of_fmap_2|].
      by eapply chain_live.
  - intros k Hk. simpl. by rewrite lookup_insert_ne.
Qed.

Lemma create_grant_attenuates_witness :
  ledger_ok (H := PgReference.pg_ref) Demo.child_db ∧
  1700000000000 < expires_at_ms (Demo.authority 2) ≤ 1700000000000 + 86400000.
Proof.
  destruct (create_grant_attenuates 11 Demo.now Demo.tenant (Some 10) "operator"
    (Demo.authority 2) Demo.root_db _ _ Demo.root_ledger Demo.clock Demo.child_create)
    as (Hok & _ & Hexp & _).
  split; [exact Hok|exact Hexp].
Defined.
