(* ===== verification/Admission.v ===== *)
(** * Admission: modules and idempotent run submission

    Models [put_module], [admit_run] and [fetch_run_by_key] of
    [crates/store/src/lib.rs]. *)
From S2P Require Export Spending.

Inductive PutModule := PutCreated | PutExisting.
Inductive AdmissionKind := AdmissionCreated | AdmissionExisting.

Record EffectRecord := mkEffectRecord {
  erec_ordinal : Z;
  erec_state : string;
  erec_request_hash : list byte;
  erec_provider_key : string;
  erec_send_attempts : Z;
}.

Record RunRecord := mkRunRecord {
  rrec_id : Uuid;
  rrec_state : string;
  rrec_module_digest : list byte;
  rrec_grant_id : Uuid;
  rrec_created_at : string;
  rrec_updated_at : string;
  rrec_lease_epoch : Z;
  rrec_attempt : Z;
  rrec_cancel_requested : bool;
  rrec_output : option (list byte);
  rrec_error_code : option string;
  rrec_effects : list EffectRecord;
}.

Record Admission := mkAdmission {
  adm_kind : AdmissionKind;
  adm_run : RunRecord;
}.

Definition put_module (tenant : Uuid) (digest wasm : list byte) : StoreTx PutModule :=
  tx_fail_if (bool_decide (wasm = []) || (MODULE_BYTES <? Z.of_nat (length wasm)))
    (Configuration "invalid module size");;
  result ← insert_module tenant digest wasm;
  if result =? 1 then mret PutCreated
  else
    existing ← fetch_optional (λ db, db_modules db !! (tenant, digest)) ModuleNotFound;
    tx_fail_if (negb (bool_decide (existing = wasm))) Database;;
    mret PutExisting.

(** ** Reading a run *)

Definition ordinal_le (x y : Z * EffectRow) : Prop := x.1 ≤ y.1.
#[global] Instance ordinal_le_dec : RelDecision ordinal_le.
Proof. intros x y. unfold ordinal_le. apply _. Defined.

(** [SELECT ... FROM effects WHERE tenant_id=$1 AND run_id=$2 ORDER BY ordinal] *)
Definition effects_of (tenant run : Uuid) (db : Db) : list (Z * EffectRow) :=
  merge_sort ordinal_le ((λ kv, (kv.1.2, kv.2)) <$>
    filter (λ kv, kv.1.1 = (tenant, run)) (map_to_list (db_effects db))).

Definition effect_record (entry : Z * EffectRow) : result Error EffectRecord :=
  let e := entry.2 in
  fail_if (negb (Z.of_nat (length (e_request_hash e)) =? 32)) IncompatibleSchema;;
  mret {|
    erec_ordinal := entry.1; erec_state := EffectState_name (e_state e);
    erec_request_hash := e_request_hash e; erec_provider_key := e_provider_key e;
    erec_send_attempts := e_send_attempts e;
  |}.

(** [{"state":...}] *)
Definition state_payload (s : RunState) : list byte :=
  json_object [json_field "state" (json_string (RunState_name s))].

Section admission.
Context `{PgTime}.

Definition fetch_run_by_key (tenant : Uuid) (key : string) : StoreTx RunRecord :=
  row ← fetch_optional (run_by_key tenant key) RunNotFound;
  let id := row.1.2 in
  let r := row.2 in
  effects ← tx_query (λ db, try_map effect_record (effects_of tenant id db));
  tx_fail_if (negb (Z.of_nat (length (r_module_digest r)) =? 32)) IncompatibleSchema;;
  mret {|
    rrec_id := id; rrec_state := RunState_name (r_state r);
    rrec_module_digest := r_module_digest r; rrec_grant_id := r_grant_id r;
    rrec_created_at := pg_to_char (r_created_at r);
    rrec_updated_at := pg_to_char (r_updated_at r);
    rrec_lease_epoch := r_lease_epoch r; rrec_attempt := r_attempt r;
    rrec_cancel_requested := r_cancel_requested r; rrec_output := r_output_bytes r;
    rrec_error_code := r_error_code r; rrec_effects := effects;
  |}.

(** ** Admission *)

(** [serde_json::to_string(&request.limits)] stored as [jsonb] and read back as
    text. *)
Class LimitsJson := limits_jsonb : Limits → string.

Context `{LimitsJson, Sha256}.

(** The row [INSERT INTO runs(...)] writes, with the column defaults. *)
Definition new_run_row (key : string) (request : NormalizedRun)
    (created_at updated_at : Z) : RunRow := {|
  r_idempotency_key := key; r_request_hash := hash_run request;
  r_module_digest := nr_module_digest request; r_grant_id := nr_grant_id request;
  r_input_bytes := Some (nr_input request); r_output_bytes := None;
  r_limits := limits_jsonb (nr_limits request); r_state := Queued;
  r_lease_epoch := 0; r_lease_owner := None; r_lease_expires_at := None;
  r_attempt := 0; r_active_slot_held := false; r_cancel_requested := false;
  r_error_code := None; r_next_event_seq := 1; r_last_event_hash := zero_hash;
  r_created_at := created_at; r_updated_at := updated_at;
|}.

Definition pending (s : RunState) : bool :=
  match s with Queued | RetryWait => true | _ => false end.

(** [SELECT count] of the pending runs, of all tenants and of one. *)
Definition pending_global (db : Db) : Z :=
  count_rows (λ kv : Uuid * Uuid * RunRow, pending (r_state kv.2) = true) (db_runs db).
Definition pending_tenant (tenant : Uuid) (db : Db) : Z :=
  count_rows (λ kv : Uuid * Uuid * RunRow,
    kv.1.1 = tenant ∧ pending (r_state kv.2) = true) (db_runs db).

(** [SELECT EXISTS(... revoked_at IS NULL AND expires_at>clock_timestamp())] *)
Definition grant_live (now : Z) (tenant id : Uuid) (db : Db) : bool :=
  match db_grants db !! (tenant, id) with
  | Some g => bool_decide (gr_revoked_at g = None) && (now <? gr_expires_at g)
  | None => false
  end.

(** [u64::try_from(count).unwrap_or(u64::MAX)] *)
Definition count_u64 (z : Z) : Z := default u64_max (checked_u64 z).

Definition admission_parameters_ok (key : string) (max_pending_global
    max_pending_tenant : Z) : bool :=
  negb (str_is_empty key || (128 <? str_len key)
        || negb (forallb is_ascii_graphic (bytes key))
        || (max_pending_global =? 0) || (1000 <? max_pending_global)
        || (max_pending_tenant =? 0) || (100 <? max_pending_tenant)
        || (max_pending_global <? max_pending_tenant)).

(** The two branches that find the key taken. *)
Definition existing_run (tenant : Uuid) (key : string) (request_hash : list byte)
    (row : RunRow) : StoreTx Admission :=
  tx_fail_if (negb (bool_decide (r_request_hash row = request_hash))) IdempotencyConflict;;
  run ← fetch_run_by_key tenant key;
  mret {| adm_kind := AdmissionExisting; adm_run := run |}.

(** [Store::admit_run]; [run_id] is the fresh [Uuid::new_v4()], [now],
    [created_at] and [updated_at] the readings of the clock. *)
Definition admit_run (run_id now created_at updated_at : Z) (tenant : Uuid)
    (key : string) (request : NormalizedRun) (max_pending_global max_pending_tenant : Z) :
    StoreTx Admission :=
  tx_fail_if (negb (admission_parameters_ok key max_pending_global max_pending_tenant))
    (Configuration "invalid admission parameters");;
  let request_hash := hash_run request in
  begin_scheduler;;
  tenant_row ← fetch_optional (λ db, db_tenants db !! tenant) GrantDenied;
  let tenant_limit := t_queue_limit tenant_row in
  taken ← tx_gets (run_by_key tenant key);
  match taken with
  | Some (_, row) => existing_run tenant key request_hash row
  | None =>
    module_exists ← tx_gets (λ db,
      bool_decide (is_Some (db_modules db !! (tenant, nr_module_digest request))));
    tx_fail_if (negb module_exists) ModuleNotFound;;
    live ← tx_gets (grant_live now tenant (nr_grant_id request));
    tx_fail_if (negb live) GrantDenied;;
    global_pending ← tx_gets pending_global;
    tenant_pending ← tx_gets (pending_tenant tenant);
    let effective_tenant_limit :=
      Z.min (tenant_limit mod 4294967296) max_pending_tenant in
    tx_fail_if ((max_pending_global <=? count_u64 global_pending)
                || (effective_tenant_limit <=? count_u64 tenant_pending))
      CapacityExhausted;;
    inserted ← insert_run tenant run_id (new_run_row key request created_at updated_at);
    if inserted =? 0 then
      row ← fetch_one (run_by_key tenant key);
      existing_run tenant key request_hash row.2
    else
      append_event tenant run_id "run.admitted" (state_payload Queued);;
      run ← fetch_run_by_key tenant key;
      mret {| adm_kind := AdmissionCreated; adm_run := run |}
  end.
End admission.

(** ** What the operations did *)

Lemma insert_run_Ok tenant id row db n db' :
  insert_run tenant id row db = Ok (n, db') →
  (n = 0 ∧ db' = db ∧ is_Some (run_by_key tenant (r_idempotency_key row) db)) ∨
  (n = 1 ∧ run_check row = true ∧ run_by_key tenant (r_idempotency_key row) db = None ∧
   run_by_id id db = None ∧ db' = with_runs <[(tenant, id) := row]> db).
Proof.
  unfold insert_run. case_bool (negb (run_check row)); [done|].
  destruct (run_by_key tenant _ db) eqn:Hkey; [naive_solver|].
  match goal with |- (if ?c then _ else _) = _ → _ => destruct c eqn:Hc end; [done|].
  intros [= <- <-]. autorewrite with bools in Hc. rewrite <-eq_None_not_Some in Hc.
  right. naive_solver.
Qed.

Lemma put_module_Ok tenant digest wasm db kind db' :
  put_module tenant digest wasm db = Ok (kind, db') →
  db' = db ∨ (db_modules db !! (tenant, digest) = None ∧
    db' = with_modules <[(tenant, digest) := wasm]> db).
Proof.
  unfold put_module, insert_module. intros Hop.
  apply tx_bind_Ok in Hop as ([] & db0 & [_ ->]%tx_fail_if_Ok & Hop).
  apply tx_bind_Ok in Hop as (n & db0 & Hins & Hop).
  match type of Hins with (if ?c then _ else _) = _ => destruct c end; [done|].
  destruct (db_modules db !! (tenant, digest)) as [m|] eqn:Hm.
  - injection Hins as <- <-. cbn [Z.eqb] in Hop. inv_db. by left.
  - destruct (bool_decide (is_Some (db_tenants db !! tenant))); [|done].
    injection Hins as <- <-. simpl in Hop. inv_ok. by right.
Qed.

(** Keys and run identifiers are unique, as the constraints say. *)
Definition runs_unique (db : Db) : Prop :=
  ∀ k k' r r', db_runs db !! k = Some r → db_runs db !! k' = Some r' →
    (k.1 = k'.1 ∧ r_idempotency_key r = r_idempotency_key r') ∨ k.2 = k'.2 → k = k'.

Lemma run_by_key_unique db tenant id r :
  runs_unique db → db_runs db !! (tenant, id) = Some r →
  run_by_key tenant (r_idempotency_key r) db = Some (tenant, id, r).
Proof.
  intros Hu Hr. apply select_first_unique; [|done|done].
  intros k r' Hk [Ht Hkey]. apply (Hu _ _ _ _ Hk Hr). left. done.
Qed.

Lemma run_by_id_unique db tenant id r :
  runs_unique db → db_runs db !! (tenant, id) = Some r →
  run_by_id id db = Some (tenant, id, r).
Proof.
  intros Hu Hr. apply select_first_unique; [|done|done].
  intros k r' Hk Hid. apply (Hu _ _ _ _ Hk Hr). right. done.
Qed.

(** Uniqueness only reads identifiers and keys. *)
Lemma runs_unique_frame db db' :
  runs_unique db →
  (∀ k r', db_runs db' !! k = Some r' → ∃ r, db_runs db !! k = Some r ∧
     r_idempotency_key r' = r_idempotency_key r) →
  runs_unique db'.
Proof.
  intros Hu Hruns k k' r r' Hr Hr' Hor.
  destruct (Hruns _ _ Hr) as (s & Hs & Hk). destruct (Hruns _ _ Hr') as (s' & Hs' & Hk').
  apply (Hu _ _ _ _ Hs Hs'). rewrite <-Hk, <-Hk'. done.
Qed.

Lemma runs_unique_insert db tenant id row :
  runs_unique db → run_by_key tenant (r_idempotency_key row) db = None →
  run_by_id id db = None → runs_unique (with_runs <[(tenant, id) := row]> db).
Proof.
  intros Hu Hkey Hid k k' r r'. simpl.
  pose proof (select_first_None _ _ Hkey) as Hnk. pose proof (select_first_None _ _ Hid) as Hni.
  destruct (decide (k = (tenant, id))) as [->|Hk], (decide (k' = (tenant, id))) as [->|Hk'];
    rewrite ?lookup_insert_eq, ?lookup_insert_ne by done; [done|..].
  - intros [= <-] Hr' [[Ht Hkk]|Hi]; exfalso; simpl in *.
    + by apply (Hnk _ _ Hr').
    + by apply (Hni _ _ Hr').
  - intros Hr [= <-] [[Ht Hkk]|Hi]; exfalso; simpl in *.
    + by apply (Hnk _ _ Hr).
    + by apply (Hni _ _ Hr).
  - intros Hr Hr'. by apply Hu.
Qed.

Section admission_lemmas.
Context `{PgTime, LimitsJson, Sha256, !Sha256Laws}.

Lemma fetch_run_by_key_Ok tenant key db record db' :
  fetch_run_by_key tenant key db = Ok (record, db') →
  db' = db ∧ ∃ id r, run_by_key tenant key db = Some (tenant, id, r) ∧
    rrec_id record = id ∧ rrec_state record = RunState_name (r_state r) ∧
    rrec_grant_id record = r_grant_id r ∧ rrec_lease_epoch record = r_lease_epoch r ∧
    rrec_attempt record = r_attempt r ∧ rrec_output record = r_output_bytes r ∧
    rrec_error_code record = r_error_code r.
Proof.
  unfold fetch_run_by_key. intros Hf. inv_db. split; [done|].
  match goal with E : run_by_key _ _ _ = Some ?p |- _ => destruct p as [[t id] r];
    pose proof (run_by_key_Some _ _ _ _ _ _ E) as (-> & _ & _) end.
  exists id, r. simpl in *. auto 10.
Qed.

Lemma effect_record_Ok entry :
  length (e_request_hash entry.2) = 32%nat →
  effect_record entry = Ok (mkEffectRecord entry.1 (EffectState_name (e_state entry.2))
    (e_request_hash entry.2) (e_provider_key entry.2) (e_send_attempts entry.2)).
Proof. intros He. unfold effect_record. by rewrite He. Qed.

(** A run reads back when its digest and the digests of its effects are whole. *)
Lemma fetch_run_by_key_total tenant key db id r :
  run_by_key tenant key db = Some (tenant, id, r) → length (r_module_digest r) = 32%nat →
  (∀ ordinal e, db_effects db !! (tenant, id, ordinal) = Some e →
     length (e_request_hash e) = 32%nat) →
  ∃ record, fetch_run_by_key tenant key db = Ok (record, db) ∧ rrec_id record = id.
Proof.
  intros Hrow Hlen Heff.
  assert (∃ effects, try_map effect_record (effects_of tenant id db) = Ok effects)
    as [effects Heffects].
  { assert (Forall (λ entry, length (e_request_hash entry.2) = 32%nat)
      (effects_of tenant id db)) as Hall.
    { unfold effects_of. rewrite merge_sort_Permutation. apply Forall_fmap, Forall_forall.
      intros [[[t i] o] e] [Hk Hin]%list_elem_of_filter. simpl in *. simplify_eq.
      apply elem_of_map_to_list in Hin. by eapply Heff. }
    induction Hall as [|[o e] l He Hl [effects IH]]; [by exists []|].
    eexists. cbn [try_map]. rewrite effect_record_Ok by done. rewrite IH. reflexivity. }
  eexists. split.
  - unfold fetch_run_by_key. tx_step; [by apply fetch_optional_Ok|].
    tx_step; [by apply tx_query_Ok|]. tx_step; [apply tx_fail_if_Ok; cbn [snd]; by rewrite Hlen|].
    reflexivity.
  - reflexivity.
Qed.

Lemma existing_run_Ok tenant key request_hash row db adm db' :
  existing_run tenant key request_hash row db = Ok (adm, db') ↔
  r_request_hash row = request_hash ∧ db' = db ∧ adm_kind adm = AdmissionExisting ∧
  fetch_run_by_key tenant key db = Ok (adm_run adm, db).
Proof.
  unfold existing_run. split.
  - intros He. inv_db. bools.
    match goal with E : fetch_run_by_key _ _ _ = _ |- _ =>
      pose proof (fetch_run_by_key_Ok _ _ _ _ _ E) as [-> _] end. done.
  - intros (<- & -> & Hk & Hf). tx_step; [apply tx_fail_if_Ok; split; [|done]|].
    + by rewrite bool_decide_eq_true_2.
    + tx_step; [exact Hf|]. destruct adm; simpl in *. by subst.
Qed.

(** The database after an admission. *)
Definition admitted (tenant run_id : Uuid) (row : RunRow) (db : Db) : Db :=
  appended tenant run_id "run.admitted" (state_payload Queued) row
    (with_runs <[(tenant, run_id) := row]> db).

Lemma count_u64_nonneg z : 0 ≤ z → z ≤ count_u64 z ∨ count_u64 z = u64_max.
Proof.
  intros Hz. unfold count_u64. destruct (checked_u64 z) as [z'|] eqn:Hc; [left|by right].
  apply checked_Some in Hc as [_ ->]. simpl. lia.
Qed.

Lemma admit_run_Ok run_id now created_at updated_at tenant key request gmax tmax db adm db' :
  admit_run run_id now created_at updated_at tenant key request gmax tmax db = Ok (adm, db') →
  admission_parameters_ok key gmax tmax = true ∧ is_Some (db_dispatch_seq db) ∧
  ∃ t, db_tenants db !! tenant = Some t ∧
  ((∃ id r, adm_kind adm = AdmissionExisting ∧ db' = db ∧
      run_by_key tenant key db = Some (tenant, id, r) ∧
      r_request_hash r = hash_run request ∧
      fetch_run_by_key tenant key db = Ok (adm_run adm, db)) ∨
   (let row := new_run_row key request created_at updated_at in
    adm_kind adm = AdmissionCreated ∧ run_by_key tenant key db = None ∧
    run_by_id run_id db = None ∧ run_check row = true ∧
    is_Some (db_modules db !! (tenant, nr_module_digest request)) ∧
    grant_live now tenant (nr_grant_id request) db = true ∧
    pending_global db < gmax ∧
    pending_tenant tenant db < Z.min (t_queue_limit t mod 4294967296) tmax ∧
    db' = admitted tenant run_id row db ∧
    fetch_run_by_key tenant key db' = Ok (adm_run adm, db'))).
Proof.
  unfold admit_run. intros Ha.
  apply tx_bind_Ok in Ha as ([] & db0 & [Hparam ->]%tx_fail_if_Ok & Ha).
  apply negb_false_iff in Hparam. split; [done|].
  apply tx_bind_Ok in Ha as ([] & db0 & [Hseq ->]%begin_scheduler_Ok & Ha). split; [done|].
  apply tx_bind_Ok in Ha as (t & db0 & [Ht ->]%fetch_optional_Ok & Ha).
  exists t. split; [done|].
  apply tx_bind_Ok in Ha as (taken & db0 & [-> ->]%tx_gets_Ok & Ha).
  destruct (run_by_key tenant key db) as [[[t' id] r]|] eqn:Hkey.
  { pose proof (run_by_key_Some _ _ _ _ _ _ Hkey) as (-> & _ & _).
    apply existing_run_Ok in Ha as (Hh & -> & Hk & Hf). left. eauto 10. }
  right. apply tx_bind_Ok in Ha as (m & db0 & [-> ->]%tx_gets_Ok & Ha).
  apply tx_bind_Ok in Ha as ([] & db0 & [Hm ->]%tx_fail_if_Ok & Ha).
  apply tx_bind_Ok in Ha as (live & db0 & [-> ->]%tx_gets_Ok & Ha).
  apply tx_bind_Ok in Ha as ([] & db0 & [Hlive ->]%tx_fail_if_Ok & Ha).
  apply tx_bind_Ok in Ha as (gp & db0 & [-> ->]%tx_gets_Ok & Ha).
  apply tx_bind_Ok in Ha as (tp & db0 & [-> ->]%tx_gets_Ok & Ha).
  apply tx_bind_Ok in Ha as ([] & db0 & [Hcap ->]%tx_fail_if_Ok & Ha).
  apply tx_bind_Ok in Ha as (n & db0 & Hins & Ha).
  apply insert_run_Ok in Hins as [(-> & -> & [? Hs])|(-> & Hcheck & _ & Hid & ->)];
    simpl in *; [congruence|].
  apply tx_bind_Ok in Ha as (h & db0 & Happ & Ha).
  apply append_event_Ok in Happ as (row & Hrow & _ & _ & _ & _ & ->).
  simpl in Hrow. rewrite lookup_insert_eq in Hrow. simplify_eq.
  apply tx_bind_Ok in Ha as (run & db0 & Hf & Ha).
  pose proof (fetch_run_by_key_Ok _ _ _ _ _ Hf) as [-> _]. apply tx_ret_Ok in Ha as [-> ->].
  autorewrite with bools in Hm, Hlive, Hcap. destruct Hcap as [Hg Htn].
  assert (gmax ≤ 1000 ∧ tmax ≤ 100) as [? ?].
  { unfold admission_parameters_ok in Hparam. bools. lia. }
  pose proof (count_u64_nonneg (pending_global db) (count_rows_nonneg _ _)).
  pose proof (count_u64_nonneg (pending_tenant tenant db) (count_rows_nonneg _ _)).
  unfold u64_max in *. split_and!; auto; lia.
Qed.

(** A key that is taken decides the outcome, whatever the queue and the grants. *)
Lemma admit_run_taken run_id now created_at updated_at tenant key request gmax tmax db t id r :
  admission_parameters_ok key gmax tmax = true → is_Some (db_dispatch_seq db) →
  db_tenants db !! tenant = Some t → run_by_key tenant key db = Some (tenant, id, r) →
  admit_run run_id now created_at updated_at tenant key request gmax tmax db =
  existing_run tenant key (hash_run request) r db.
Proof.
  intros Hparam [seq Hseq] Ht Hkey. unfold admit_run, begin_scheduler, fetch_optional,
    tx_gets, tx_ok_or, tx_fail_if, tx_lift, mbind, tx_bind, mret, tx_ret.
  rewrite Hparam. cbn [negb fail_if]. rewrite Hseq. cbn [ok_or]. rewrite Ht. cbn [ok_or].
  by rewrite Hkey.
Qed.

Lemma runs_unique_appended tenant run kind payload row db :
  runs_unique db → db_runs db !! (tenant, run) = Some row →
  runs_unique (appended tenant run kind payload row db).
Proof.
  intros Hu Hrow. apply (runs_unique_frame db); [done|]. intros k r'.
  destruct (decide (k = (tenant, run))) as [->|Hne].
  - rewrite appended_self. intros [= <-]. eauto.
  - rewrite appended_other by done. eauto.
Qed.

Lemma runs_unique_admitted tenant run_id row db :
  runs_unique db → run_by_key tenant (r_idempotency_key row) db = None →
  run_by_id run_id db = None → runs_unique (admitted tenant run_id row db).
Proof.
  intros Hu Hk Hid. apply runs_unique_appended; [by apply runs_unique_insert|].
  simpl. by rewrite lookup_insert_eq.
Qed.

Lemma admitted_row tenant run_id row db :
  db_runs (admitted tenant run_id row db) !! (tenant, run_id) =
  Some (set_event_head (r_next_event_seq row + 1)
    (hash_event tenant run_id (r_next_event_seq row) (r_last_event_hash row)
       "run.admitted" (state_payload Queued)) row).
Proof. apply appended_self. Qed.

Lemma admitted_other tenant run_id row db k :
  k ≠ (tenant, run_id) → db_runs (admitted tenant run_id row db) !! k = db_runs db !! k.
Proof. intros Hk. unfold admitted. rewrite appended_other by done. simpl. by rewrite lookup_insert_ne. Qed.

Lemma run_by_id_None db tenant id : run_by_id id db = None → db_runs db !! (tenant, id) = None.
Proof.
  intros Hid. destruct (db_runs db !! (tenant, id)) as [r|] eqn:Hr; [|done].
  by destruct (select_first_None _ _ Hid _ _ Hr).
Qed.

(** What an admission leaves behind: its key, bound to the run it returned. *)
Lemma admit_run_taken_after run_id now created_at updated_at tenant key request gmax tmax
    db adm db' :
  runs_unique db →
  admit_run run_id now created_at updated_at tenant key request gmax tmax db = Ok (adm, db') →
  runs_unique db' ∧ is_Some (db_dispatch_seq db') ∧
  (∃ t, db_tenants db' !! tenant = Some t) ∧
  ∃ id r, run_by_key tenant key db' = Some (tenant, id, r) ∧
    r_request_hash r = hash_run request ∧
    fetch_run_by_key tenant key db' = Ok (adm_run adm, db') ∧
    (adm_kind adm = AdmissionExisting ∧ db' = db ∨
     adm_kind adm = AdmissionCreated ∧ id = run_id ∧ db_runs db !! (tenant, run_id) = None).
Proof.
  intros Hu (_ & Hseq & t & Ht & Hcase)%admit_run_Ok.
  destruct Hcase as [(id & r & Hk & -> & Hkey & Hh & Hf)|
    (Hk & Hkey & Hid & _ & _ & _ & _ & _ & -> & Hf)]; [by eauto 15|].
  assert (runs_unique (admitted tenant run_id (new_run_row key request created_at updated_at) db))
    as Hu' by (by apply runs_unique_admitted).
  split_and!; [done..|by eexists|]. eexists run_id, _.
  pose proof (admitted_row tenant run_id (new_run_row key request created_at updated_at) db) as Hrow.
  split_and!; [exact (run_by_key_unique _ _ _ _ Hu' Hrow)|done|done|right].
  split_and!; [done|done|by apply run_by_id_None].
Qed.

(** Counting after an admission. *)
Lemma count_admitted (P : Uuid * Uuid * RunRow → Prop) `{∀ kv, Decision (P kv)}
    tenant run_id row db :
  db_runs db !! (tenant, run_id) = None →
  count_rows P (db_runs (admitted tenant run_id row db)) = count_rows P (db_runs db) +
  count_one P (tenant, run_id) (set_event_head (r_next_event_seq row + 1)
    (hash_event tenant run_id (r_next_event_seq row) (r_last_event_hash row)
       "run.admitted" (state_payload Queued)) row).
Proof. intros Hnone. simpl. by rewrite insert_insert_eq, count_rows_insert_None. Qed.

Lemma logs_ok_admitted tenant run_id row db :
  logs_ok db → db_runs db !! (tenant, run_id) = None →
  r_next_event_seq row = 1 → r_last_event_hash row = zero_hash →
  logs_ok (admitted tenant run_id row db).
Proof.
  intros [Hlogs Hnone] Hfresh Hseq Hhash. apply logs_ok_appended.
  - split.
    + intros t r row'. simpl. destruct (decide ((t, r) = (tenant, run_id))) as [[= -> ->]|Hne].
      * rewrite lookup_insert_eq. intros [= <-]. exists []. constructor; try done.
        intros seq. simpl. rewrite (Hnone _ _ _ Hfresh). destruct (decide _); done.
      * rewrite lookup_insert_ne by done. intros Hrow'.
        destruct (Hlogs _ _ _ Hrow') as [log Hlog]. exists log.
        by eapply log_rep_frame.
    + intros t r seq. simpl. destruct (decide ((t, r) = (tenant, run_id))) as [[= -> ->]|Hne].
      * by rewrite lookup_insert_eq.
      * rewrite lookup_insert_ne by done. apply Hnone.
  - simpl. by rewrite lookup_insert_eq.
  - split_and!; [done|vm_compute; done|vm_compute; done].
Qed.

Lemma ledger_ok_admitted tenant run_id row db :
  ledger_ok db → db_runs db !! (tenant, run_id) = None →
  ledger_ok (admitted tenant run_id row db).
Proof.
  intros Hok Hfresh. apply (ledger_ok_frame db); try done; eauto.
  intros k r Hr. exists r. rewrite admitted_other; [done|congruence].
Qed.
End admission_lemmas.

(** ** A concrete admission *)

Module AdmitDemo.
Import Reference PgReference.

#[global] Instance limits_ref : LimitsJson := λ l, text (u64_be (fuel l)).

Definition request : NormalizedRun := {|
  nr_module_digest := replicate 32 x00; nr_grant_id := 11; nr_input := [x01];
  nr_limits := Limits_default;
|}.
Definition queued_db : Db := Eval vm_compute in
  tx_state (admit_run 20 Demo.now Demo.now Demo.now Demo.tenant "key" request 5 2) Demo.child_db.
Definition record : RunRecord := {|
  rrec_id := 20; rrec_state := "queued"; rrec_module_digest := replicate 32 x00;
  rrec_grant_id := 11; rrec_created_at := pg_to_char Demo.now;
  rrec_updated_at := pg_to_char Demo.now; rrec_lease_epoch := 0; rrec_attempt := 0;
  rrec_cancel_requested := false; rrec_output := None; rrec_error_code := None;
  rrec_effects := [];
|}.

Lemma admitted_run : admit_run 20 Demo.now Demo.now Demo.now Demo.tenant "key" request 5 2
  Demo.child_db = Ok (mkAdmission AdmissionCreated record, queued_db).
Proof. vm_compute. reflexivity. Qed.

Lemma no_runs : db_runs Demo.child_db = ∅ ∧ db_events Demo.child_db = ∅.
Proof. split; vm_compute; reflexivity. Qed.

Lemma tenant_row : db_tenants Demo.child_db !! Demo.tenant = Some (mkTenantRow 10 1 0 0).
Proof. vm_compute. reflexivity. Qed.

Lemma unique : runs_unique Demo.child_db.
Proof. intros k k' r r'. by rewrite (proj1 no_runs), lookup_empty. Qed.

Lemma logs : logs_ok Demo.child_db.
Proof.
  destruct no_runs as [Hr He]. split.
  - intros t r row. by rewrite Hr, lookup_empty.
  - intros t r seq _. by rewrite He, lookup_empty.
Qed.
End AdmitDemo.

(** ** Properties *)

(** C29: admission is idempotent per tenant and key.  After any successful
    admission, submitting the same request under the same key again, at any
    time and even when the queue is full or the grant has been revoked, yields
    the same run and changes nothing, and submitting a request with another
    digest under that key is refused as a conflict; and two accepted requests
    with one digest are the same request unless SHA-256 collides on these two. *)
Theorem admission_idempotent `{PgTime, LimitsJson, Sha256, !Sha256Laws}
    run_id now created_at updated_at tenant key request gmax tmax db adm db' :
  runs_unique db →
  admit_run run_id now created_at updated_at tenant key request gmax tmax db = Ok (adm, db') →
  runs_unique db' ∧
  ∀ run_id' now' created_at' updated_at' gmax' tmax',
    admission_parameters_ok key gmax' tmax' = true →
    admit_run run_id' now' created_at' updated_at' tenant key request gmax' tmax' db' =
      Ok ({| adm_kind := AdmissionExisting; adm_run := adm_run adm |}, db') ∧
    ∀ request', contract_ok (RunContract request) → contract_ok (RunContract request') →
      request' ≠ request →
      admit_run run_id' now' created_at' updated_at' tenant key request' gmax' tmax' db' =
        Err IdempotencyConflict ∨
        sha256_collides (run_preimage request') (run_preimage request).
Proof.
  intros Hu Hadm. destruct (admit_run_taken_after _ _ _ _ _ _ _ _ _ _ _ _ Hu Hadm)
    as (Hu' & Hseq' & (t & Ht') & id & r & Hkey & Hhash & Hf & _).
  split; [done|]. intros run_id' now' created_at' updated_at' gmax' tmax' Hparam. split.
  - rewrite (admit_run_taken _ _ _ _ _ _ _ _ _ _ _ _ _ Hparam Hseq' Ht' Hkey).
    apply existing_run_Ok. auto.
  - intros request' Hc Hc' Hne.
    rewrite (admit_run_taken _ _ _ _ _ _ _ _ _ _ _ _ _ Hparam Hseq' Ht' Hkey).
    destruct (decide (hash_run request' = hash_run request)) as [Heq|Hneq]; [right|left].
    + split; [|done].
      intros Hp. assert (RunContract request' ≡ RunContract request) as Hcc
        by by apply contract_preimage_inj. injection Hcc as ->. done.
    + unfold existing_run, tx_fail_if, tx_lift, mbind, tx_bind.
      rewrite bool_decide_eq_false_2; [done|congruence].
Qed.

Lemma admission_idempotent_witness :
  admit_run 21 Demo.now Demo.now Demo.now Demo.tenant "key" AdmitDemo.request 1 1
    AdmitDemo.queued_db =
  Ok (mkAdmission AdmissionExisting AdmitDemo.record, AdmitDemo.queued_db).
Proof.
  destruct (admission_idempotent _ _ _ _ _ _ _ _ _ _ _ _ AdmitDemo.unique AdmitDemo.admitted_run)
    as [_ Hagain].
  exact (proj1 (Hagain 21 Demo.now Demo.now Demo.now 1 1 eq_refl)).
Defined.

(** C39: admission never overfills a queue.  A new admission adds exactly
    one run, queued, unleased and unattempted, whose log holds the admission, of
    a module the tenant stored and under a grant of it that is neither revoked nor
    expired; afterwards the number of pending runs is within the global limit, within
    the tenant's own limit and within the per-tenant limit, and no other tenant's
    queue changes; the event logs and the grant ledger stay well formed. *)
Theorem admission_capacity `{PgTime, LimitsJson, Sha256, !Sha256Laws}
    run_id now created_at updated_at tenant key request gmax tmax db adm db' t :
  logs_ok db → ledger_ok db → db_tenants db !! tenant = Some t → tenant_check t = true →
  admit_run run_id now created_at updated_at tenant key request gmax tmax db = Ok (adm, db') →
  adm_kind adm = AdmissionCreated →
  pending_global db' = pending_global db + 1 ∧ pending_global db' ≤ gmax ∧
  pending_tenant tenant db' = pending_tenant tenant db + 1 ∧
  pending_tenant tenant db' ≤ Z.min (t_queue_limit t) tmax ∧
  (∀ other, other ≠ tenant → pending_tenant other db' = pending_tenant other db) ∧
  (∃ row log, db_runs db' !! (tenant, run_id) = Some row ∧ r_state row = Queued ∧
     r_lease_epoch row = 0 ∧ r_attempt row = 0 ∧ r_active_slot_held row = false ∧
     log_rep db' tenant run_id row log ∧ log = [("run.admitted"%string, state_payload Queued)]) ∧
  (∀ k, k ≠ (tenant, run_id) → db_runs db' !! k = db_runs db !! k) ∧
  is_Some (db_modules db !! (tenant, nr_module_digest request)) ∧
  (∃ g, db_grants db !! (tenant, nr_grant_id request) = Some g ∧ gr_revoked_at g = None ∧
     now < gr_expires_at g) ∧
  logs_ok db' ∧ ledger_ok db'.
Proof.
  intros Hlogs Hled Ht Hcheck Hadm Hkind.
  apply admit_run_Ok in Hadm as (_ & _ & t' & Ht' & Hcase). simplify_eq.
  destruct Hcase as [(id & r & Hk & _)|(_ & Hkey & Hid & _ & Hmod & Hlive & Hg & Htn & -> & _)];
    [congruence|]. set (row := new_run_row key request created_at updated_at) in *.
  pose proof (run_by_id_None db tenant run_id Hid) as Hfresh.
  unfold tenant_check in Hcheck. bools.
  rewrite Z.mod_small in Htn by lia.
  assert (pending_global (admitted tenant run_id row db) = pending_global db + 1) as Hpg
    by (unfold pending_global; by rewrite count_admitted).
  assert (∀ other, pending_tenant other (admitted tenant run_id row db) =
    pending_tenant other db + if decide (other = tenant) then 1 else 0) as Hpt.
  { intros other. unfold pending_tenant.
    rewrite count_admitted by done. f_equal. unfold count_one.
    destruct (decide _) as [[Ho _]|Ho], (decide (other = tenant)) as [Hn|Hn]; try done;
      exfalso; simpl in *; naive_solver. }
  pose proof (Hpt tenant) as Hpt'. rewrite decide_True in Hpt' by done.
  split_and!; auto; try lia.
  - intros other Hne. rewrite Hpt, decide_False by done. lia.
  - eexists _, _. rewrite admitted_row. split_and!; [done..| |reflexivity].
    apply (log_rep_appended tenant run_id _ _ (with_runs <[(tenant, run_id) := row]> db) row []).
    + constructor; try done. intros seq. simpl.
      rewrite (proj2 Hlogs _ _ _ Hfresh). by destruct (decide _).
    + split_and!; [done|vm_compute; done|vm_compute; done].
  - intros k Hk. by apply admitted_other.
  - unfold grant_live in Hlive. destruct (db_grants db !! _) as [g|]; [|done]. bools. by exists g.
  - by apply logs_ok_admitted.
  - by apply ledger_ok_admitted.
Qed.

Lemma admission_capacity_witness :
  pending_global AdmitDemo.queued_db ≤ 5 ∧ pending_tenant Demo.tenant AdmitDemo.queued_db ≤ 2.
Proof.
  destruct (admission_capacity _ _ _ _ _ _ _ _ _ _ _ _ (mkTenantRow 10 1 0 0)
    AdmitDemo.logs Demo.child_ledger AdmitDemo.tenant_row eq_refl AdmitDemo.admitted_run
    eq_refl) as (_ & Hg & _ & Ht & _).
  split; [exact Hg|exact Ht].
Defined.

(** Storing a module is idempotent and never overwrites.  A stored
    module keeps its bytes; storing the same bytes under their digest again
    succeeds and changes nothing, and other bytes are refused. *)
Theorem put_module_idempotent tenant digest wasm db kind db' :
  put_module tenant digest wasm db = Ok (kind, db') →
  db_modules db' !! (tenant, digest) = Some wasm ∧
  (kind = PutCreated ↔ db_modules db !! (tenant, digest) = None) ∧
  (∀ k m, db_modules db !! k = Some m → db_modules db' !! k = Some m) ∧
  put_module tenant digest wasm db' = Ok (PutExisting, db') ∧
  (∀ wasm', wasm' ≠ wasm → is_ok (put_module tenant digest wasm' db') = false).
Proof.
  intros Hput. unfold put_module in Hput.
  apply tx_bind_Ok in Hput as ([] & db0 & [Hsize ->]%tx_fail_if_Ok & Hput).
  apply tx_bind_Ok in Hput as (n & db0 & Hins & Hput).
  assert ((Z.of_nat (length digest) =? 32) = true ∧ db_modules db0 !! (tenant, digest) = Some wasm
    ∧ (kind = PutCreated ↔ db_modules db !! (tenant, digest) = None) ∧ db' = db0
    ∧ ∀ k m, db_modules db !! k = Some m → db_modules db0 !! k = Some m)
    as (Hdig & Hmod & Hkind & -> & Hmono).
  { unfold insert_module in Hins.
    case_bool (negb (Z.of_nat (length digest) =? 32) || (2097152 <? Z.of_nat (length wasm)));
      [done|]. destruct Hb as [Hdig _]. apply Z.eqb_eq in Hdig. split; [done|].
    destruct (db_modules db !! (tenant, digest)) as [m|] eqn:Hm.
    - injection Hins as <- <-. cbn [Z.eqb] in Hput. inv_db. bools. split_and!; try done. congruence.
    - destruct (bool_decide (is_Some (db_tenants db !! tenant))); [|done]. injection Hins as <- <-. simpl in Hput. inv_ok.
      split_and!; [simpl; by rewrite lookup_insert_eq|done|done|].
      intros k m Hk. simpl. rewrite lookup_insert_ne by congruence. done. }
  split_and!; auto.
  - unfold put_module. tx_step; [by apply tx_fail_if_Ok|].
    tx_step; [unfold insert_module; rewrite Hdig, Hmod; bools;
      replace (2097152 <? Z.of_nat (length wasm)) with false
        by (symmetry; apply Z.ltb_ge; unfold MODULE_BYTES in *; lia); reflexivity|].
    cbn [Z.eqb]. tx_step; [by apply fetch_optional_Ok|].
    tx_step; [apply tx_fail_if_Ok; by rewrite bool_decide_eq_true_2|]. done.
  - intros wasm' Hne. destruct (put_module tenant digest wasm' db0) as [[k d]|e] eqn:Hp; [|done].
    exfalso. unfold put_module in Hp.
    apply tx_bind_Ok in Hp as ([] & ? & [_ ->]%tx_fail_if_Ok & Hp).
    apply tx_bind_Ok in Hp as (n' & ? & Hins' & Hp). unfold insert_module in Hins'.
    rewrite Hmod in Hins'.
    match type of Hins' with (if ?c then _ else _) = _ => destruct c end; [done|]. injection Hins' as <- <-. cbn [Z.eqb] in Hp.
    inv_db. bools. congruence.
Qed.

Lemma put_module_idempotent_witness :
  let wasm := [x00; x61] in
  put_module Demo.tenant (replicate 32 x01) wasm
    (tx_state (put_module Demo.tenant (replicate 32 x01) wasm) Demo.empty_db) =
  Ok (PutExisting, tx_state (put_module Demo.tenant (replicate 32 x01) wasm) Demo.empty_db).
Proof.
  intros wasm.
  assert (put_module Demo.tenant (replicate 32 x01) wasm Demo.empty_db =
    Ok (PutCreated, tx_state (put_module Demo.tenant (replicate 32 x01) wasm) Demo.empty_db))
    as Hput by reflexivity.
  destruct (put_module_idempotent _ _ _ _ _ _ Hput) as (_ & _ & _ & Hagain & _). exact Hagain.
Defined.
