(* ===== verification/Scheduler.v ===== *)
(** * Scheduler: claims, leases, reaping and completion

    Models [crates/store/src/scheduler.rs].  [clock i] is the [i]-th reading of
    [clock_timestamp()] in an operation, in the order the operation takes them. *)
From S2P Require Export Admission.

Record Lease := mkLease {
  l_tenant : Uuid;
  l_run : Uuid;
  l_epoch : Z;
  l_expires_at : string;
  l_module_digest : list byte;
  l_module : list byte;
  l_input : list byte;
  l_limits_json : string;
}.

Record Heartbeat := mkHeartbeat {
  hb_expires_at : string;
  hb_cancel_requested : bool;
}.

Record ClaimPolicy := mkClaimPolicy {
  cp_max_active_global : Z;
  cp_max_active_per_tenant : Z;
  cp_max_attempts : Z;
  cp_lease_ms : Z;
}.

Record ReapPolicy := mkReapPolicy {
  rp_max_attempts : Z;
  rp_max_pending_global : Z;
  rp_max_pending_tenant : Z;
}.

Inductive Reaped :=
  | Requeued | WaitingForQueue | ReapedNeedsReconciliation | ReapedCancelled | ReapedFailed.

Definition worker_identifier (worker : string) : bool :=
  negb (str_is_empty worker) && (str_len worker <=? 64)
  && forallb (λ b, is_ascii_alphanumeric b || bool_decide (b = "-"%byte)
                   || bool_decide (b = "_"%byte)) (bytes worker).

(** ** The UPDATE statements on runs *)

Definition set_lease (state : RunState) (epoch : Z) (owner : option string)
    (expires : option Z) (attempt : Z) (held : bool) (now : Z) (r : RunRow) : RunRow := {|
  r_idempotency_key := r_idempotency_key r; r_request_hash := r_request_hash r;
  r_module_digest := r_module_digest r; r_grant_id := r_grant_id r;
  r_input_bytes := r_input_bytes r; r_output_bytes := r_output_bytes r;
  r_limits := r_limits r; r_state := state; r_lease_epoch := epoch;
  r_lease_owner := owner; r_lease_expires_at := expires; r_attempt := attempt;
  r_active_slot_held := held; r_cancel_requested := r_cancel_requested r;
  r_error_code := r_error_code r; r_next_event_seq := r_next_event_seq r;
  r_last_event_hash := r_last_event_hash r; r_created_at := r_created_at r;
  r_updated_at := now;
|}.

Definition set_result (output : option (list byte)) (error_code : option string)
    (r : RunRow) : RunRow := {|
  r_idempotency_key := r_idempotency_key r; r_request_hash := r_request_hash r;
  r_module_digest := r_module_digest r; r_grant_id := r_grant_id r;
  r_input_bytes := r_input_bytes r; r_output_bytes := output;
  r_limits := r_limits r; r_state := r_state r; r_lease_epoch := r_lease_epoch r;
  r_lease_owner := r_lease_owner r; r_lease_expires_at := r_lease_expires_at r;
  r_attempt := r_attempt r; r_active_slot_held := r_active_slot_held r;
  r_cancel_requested := r_cancel_requested r; r_error_code := error_code;
  r_next_event_seq := r_next_event_seq r; r_last_event_hash := r_last_event_hash r;
  r_created_at := r_created_at r; r_updated_at := r_updated_at r;
|}.

(** [SET state=$3,updated_at=clock_timestamp()] *)
Definition set_state (state : RunState) (now : Z) (r : RunRow) : RunRow :=
  set_lease state (r_lease_epoch r) (r_lease_owner r) (r_lease_expires_at r) (r_attempt r)
    (r_active_slot_held r) now r.

(** [SET state='failed',error_code='GRANT_DENIED',updated_at=clock_timestamp()] *)
Definition set_denied (now : Z) (r : RunRow) : RunRow :=
  set_result (r_output_bytes r) (Some "GRANT_DENIED"%string) (set_state Failed now r).

(** [SET state='leased',lease_epoch=lease_epoch+1,lease_owner=$3,
    lease_expires_at=...,attempt=attempt+1,active_slot_held=true,...] *)
Definition set_leased (worker : string) (expires now : Z) (r : RunRow) : RunRow :=
  set_lease Leased (r_lease_epoch r + 1) (Some worker) (Some expires) (r_attempt r + 1)
    true now r.

(** [SET lease_expires_at=...,updated_at=clock_timestamp()] *)
Definition set_renewed (expires now : Z) (r : RunRow) : RunRow :=
  set_lease (r_state r) (r_lease_epoch r) (r_lease_owner r) (Some expires) (r_attempt r)
    (r_active_slot_held r) now r.

(** [SET state=$3,active_slot_held=false,lease_owner=NULL,lease_expires_at=NULL,...] *)
Definition set_released (state : RunState) (now : Z) (r : RunRow) : RunRow :=
  set_lease state (r_lease_epoch r) None None (r_attempt r) false now r.

Definition set_finished (state : RunState) (output : option (list byte))
    (error_code : option string) (now : Z) (r : RunRow) : RunRow :=
  set_result output error_code (set_released state now r).

(** [SET active_count=active_count+d,last_served_seq=...] *)
Definition set_served (seq : Z) (t : TenantRow) : TenantRow := {|
  t_queue_limit := t_queue_limit t; t_active_limit := t_active_limit t;
  t_active_count := t_active_count t + 1; t_last_served_seq := seq;
|}.
Definition set_slot_freed (t : TenantRow) : TenantRow := {|
  t_queue_limit := t_queue_limit t; t_active_limit := t_active_limit t;
  t_active_count := t_active_count t - 1; t_last_served_seq := t_last_served_seq t;
|}.

(** ** Queries *)

(** [SELECT COALESCE(sum(active_count),0) FROM tenants] *)
Definition active_sum (db : Db) : Z :=
  map_fold (λ _ t sum, t_active_count t + sum) 0 (db_tenants db).

(** [SELECT count FROM runs WHERE active_slot_held AND lease_owner=$1] *)
Definition worker_active (worker : string) (db : Db) : Z :=
  count_rows (λ kv : Uuid * Uuid * RunRow, r_active_slot_held kv.2 = true ∧
    r_lease_owner kv.2 = Some worker) (db_runs db).

(** The lateral subquery: the tenant's oldest claimable run. *)
Definition claimable (max_attempts : Z) (tenant : Uuid) (kv : Uuid * Uuid * RunRow) : Prop :=
  kv.1.1 = tenant ∧ r_state kv.2 = Queued ∧ r_cancel_requested kv.2 = false ∧
  r_attempt kv.2 < max_attempts.
#[global] Instance claimable_dec max_attempts tenant kv :
  Decision (claimable max_attempts tenant kv).
Proof. unfold claimable. apply _. Defined.

Definition queue_head (max_attempts : Z) (tenant : Uuid) (db : Db) : option Uuid :=
  (λ kv : Uuid * Uuid * RunRow, kv.1.2) <$>
    min_by (λ kv, (r_created_at kv.2, kv.1.2))
      (filter (claimable max_attempts tenant) (map_to_list (db_runs db))).

(** The tenants the outer query joins: allowed, below their limits, with work. *)
Definition eligible (allowed : list Uuid) (per_tenant max_attempts : Z) (db : Db)
    (kt : Uuid * TenantRow) : option (Uuid * Z * Uuid) :=
  if bool_decide (kt.1 ∈ allowed)
     && (t_active_count kt.2 <? Z.min (t_active_limit kt.2) per_tenant)
  then run ← queue_head max_attempts kt.1 db; Some (kt.1, t_last_served_seq kt.2, run)
  else None.

Definition claim_candidate (allowed : list Uuid) (per_tenant max_attempts : Z) (db : Db) :
    option (Uuid * Uuid) :=
  (λ c : Uuid * Z * Uuid, (c.1.1, c.2)) <$>
    min_by (λ c : Uuid * Z * Uuid, (c.1.2, c.1.1))
      (omap (eligible allowed per_tenant max_attempts db) (map_to_list (db_tenants db))).

(** [SELECT bool_and(revoked_at IS NULL AND expires_at>clock_timestamp())], one
    reading per row; [bool_and] of no row is NULL, which does not decode. *)
Fixpoint grants_live (clock : nat → Z) (tenant : Uuid) (ids : list Uuid) (db : Db) : bool :=
  match ids with
  | [] => true
  | id :: ids =>
    grant_live (clock O) tenant id db && grants_live (λ i, clock (S i)) tenant ids db
  end.

(** [SELECT min(expires_at) FROM grants WHERE tenant_id=$1 AND id=ANY($5)];
    [LEAST] ignores a NULL. *)
Definition least_expiry (tenant : Uuid) (ids : list Uuid) (deadline : Z) (db : Db) : Z :=
  foldr (λ id acc, match db_grants db !! (tenant, id) with
                   | Some g => Z.min acc (gr_expires_at g)
                   | None => acc
                   end) deadline ids.

(** [SELECT count FROM runs WHERE state='queued'], of all tenants and of one. *)
Definition queued_global (db : Db) : Z :=
  count_rows (λ kv : Uuid * Uuid * RunRow, r_state kv.2 = Queued) (db_runs db).
Definition queued_tenant (tenant : Uuid) (db : Db) : Z :=
  count_rows (λ kv : Uuid * Uuid * RunRow, kv.1.1 = tenant ∧ r_state kv.2 = Queued)
    (db_runs db).

(** [SELECT r.tenant_id,r.id FROM runs r JOIN tenants t ... WHERE
    r.state='retry_wait' AND (...)<LEAST(t.queue_limit,$1) ORDER BY
    r.created_at,r.id LIMIT 1] *)
Definition promotable (max_pending_tenant : Z) (db : Db) (kv : Uuid * Uuid * RunRow) : Prop :=
  r_state kv.2 = RetryWait ∧
  match db_tenants db !! kv.1.1 with
  | Some t => queued_tenant kv.1.1 db < Z.min (t_queue_limit t) max_pending_tenant
  | None => False
  end.
#[global] Instance promotable_dec max_pending_tenant db kv :
  Decision (promotable max_pending_tenant db kv).
Proof. unfold promotable. destruct (db_tenants db !! kv.1.1); apply _. Defined.

Definition retry_candidate (max_pending_tenant : Z) (db : Db) : option (Uuid * Uuid) :=
  fst <$> min_by (λ kv : Uuid * Uuid * RunRow, (r_created_at kv.2, kv.1.2))
    (filter (promotable max_pending_tenant db) (map_to_list (db_runs db))).

(** [lease_expires_at<=clock_timestamp()]; NULL is not expired. *)
Definition lease_expired (now : Z) (r : RunRow) : bool :=
  match r_lease_expires_at r with Some t => t <=? now | None => false end.
Definition lease_live (now : Z) (r : RunRow) : bool :=
  match r_lease_expires_at r with Some t => now <? t | None => false end.

Definition slot_state (s : RunState) : bool :=
  match s with Leased | Running => true | _ => false end.

(** [SELECT tenant_id,id FROM runs WHERE active_slot_held AND state IN
    ('leased','running') AND lease_expires_at<=clock_timestamp() ORDER BY
    lease_expires_at,id LIMIT 1] *)
Definition expired_candidate (now : Z) (db : Db) : option (Uuid * Uuid) :=
  fst <$> min_by (λ kv : Uuid * Uuid * RunRow, (default 0 (r_lease_expires_at kv.2), kv.1.2))
    (filter (λ kv, r_active_slot_held kv.2 = true ∧ slot_state (r_state kv.2) = true ∧
                   lease_expired now kv.2 = true) (map_to_list (db_runs db))).

Section scheduler.
Context `{PgTime, Sha256}.

(** ** Claiming *)

Definition claim_parameters_ok (worker : string) (allowed : list Uuid)
    (available_slots : Z) (policy : ClaimPolicy) : bool :=
  negb (negb (worker_identifier worker)
        || bool_decide (allowed = []) || (1024 <? Z.of_nat (length allowed))
        || negb (in_range 1 2 available_slots)
        || negb (in_range 1 4 (cp_max_active_global policy))
        || negb (cp_max_active_per_tenant policy =? 1)
        || negb (in_range 1 3 (cp_max_attempts policy))
        || negb (in_range 1 6000 (cp_lease_ms policy))).

(** [json!({"epoch":epoch,"worker_id":worker})] *)
Definition claim_payload (epoch : Z) (worker : string) : list byte :=
  json_object [json_field "epoch" (json_number epoch);
               json_field "worker_id" (json_string worker)].

(** The branch of a run whose ancestry is no longer live. *)
Definition deny_claim (now : Z) (tenant run : Uuid) : StoreTx (option Lease) :=
  update_run tenant run (λ _, true) (set_denied now);;
  append_event tenant run "grant.denied"
    (json_object [json_field "reason" (json_string "inactive")]);;
  append_event tenant run "run.failed"
    (json_object [json_field "state" (json_string "failed");
                  json_field "error_code" (json_string "GRANT_DENIED")]);;
  mret None.

(** The branch that leases the run. *)
Definition grant_lease (clock : nat → Z) (worker : string) (policy : ClaimPolicy)
    (tenant run : Uuid) (grant_ids : list Uuid) : StoreTx (option Lease) :=
  dispatch ← bump_dispatch_seq;
  dispatch_seq ← tx_ok_or dispatch CorruptScheduler;
  update_tenant tenant (λ _, true) (set_served dispatch_seq);;
  expires ← tx_gets (least_expiry tenant grant_ids (clock 0%nat + cp_lease_ms policy * 1000));
  updated ← update_run tenant run (λ _, true) (set_leased worker expires (clock 1%nat));
  tx_fail_if (negb (updated =? 1)) Database;;
  row ← fetch_one (λ db, db_runs db !! (tenant, run));
  let digest := r_module_digest row in
  tx_fail_if (negb (Z.of_nat (length digest) =? 32)) IncompatibleSchema;;
  module ← fetch_one (λ db, db_modules db !! (tenant, digest));
  append_event tenant run "lease.claimed" (claim_payload (r_lease_epoch row) worker);;
  mret (Some {|
    l_tenant := tenant; l_run := run; l_epoch := r_lease_epoch row;
    l_expires_at := pg_to_char expires; l_module_digest := digest; l_module := module;
    l_input := default [] (r_input_bytes row); l_limits_json := r_limits row;
  |}).

(** From the candidate's row locks on. *)
Definition claim_selected (clock : nat → Z) (worker : string) (policy : ClaimPolicy)
    (tenant run : Uuid) : StoreTx (option Lease) :=
  tenant_row ← fetch_one (λ db, db_tenants db !! tenant);
  let active_count := t_active_count tenant_row in
  tx_fail_if ((active_count <? 0) || (t_active_limit tenant_row <=? active_count)
              || (cp_max_active_per_tenant policy <=? active_count)) CorruptScheduler;;
  run_row ← fetch_one (λ db, db_runs db !! (tenant, run));
  tx_fail_if (negb (bool_decide (r_state run_row = Queued))
              || r_active_slot_held run_row
              || (r_lease_epoch run_row =? i64_max)
              || (cp_max_attempts policy <=? r_attempt run_row)) CorruptScheduler;;
  chain ← load_grant_chain_locked tenant (r_grant_id run_row);
  let grant_ids := g_id <$> chain in
  tx_fail_if (bool_decide (grant_ids = [])) Database;;
  live ← tx_gets (grants_live clock tenant grant_ids);
  if negb live then deny_claim (clock 5%nat) tenant run
  else grant_lease (λ i, clock (5 + i)%nat) worker policy tenant run grant_ids.

Definition claim_run (clock : nat → Z) (worker : string) (allowed_tenants : list Uuid)
    (available_slots : Z) (policy : ClaimPolicy) : StoreTx (option Lease) :=
  tx_fail_if (negb (claim_parameters_ok worker allowed_tenants available_slots policy))
    (Configuration "invalid claim parameters");;
  begin_scheduler;;
  active ← tx_gets active_sum;
  tx_fail_if (negb (in_range 0 4 active)) CorruptScheduler;;
  if cp_max_active_global policy <=? active then mret None
  else
    busy ← tx_gets (worker_active worker);
    if 2 <=? busy then mret None
    else
      candidate ← tx_gets (claim_candidate allowed_tenants
        (cp_max_active_per_tenant policy) (cp_max_attempts policy));
      match candidate with
      | None => mret None
      | Some (tenant, run) => claim_selected clock worker policy tenant run
      end.

(** ** Renewal and start *)

(** [SELECT tenant_id FROM runs WHERE id=$1] against the allowlist. *)
Definition run_tenant (run : Uuid) (allowed_tenants : list Uuid) : StoreTx Uuid :=
  row ← fetch_optional (run_by_id run) RunNotFound;
  let tenant := row.1.1 in
  tx_fail_if (negb (bool_decide (tenant ∈ allowed_tenants))) RunNotFound;;
  mret tenant.

Definition holds_lease (worker : string) (epoch now : Z) (r : RunRow) : bool :=
  bool_decide (r_lease_owner r = Some worker) && (r_lease_epoch r =? epoch)
  && lease_live now r && r_active_slot_held r.

Definition heartbeat_run (clock : nat → Z) (run : Uuid) (worker : string)
    (allowed_tenants : list Uuid) (epoch lease_ms : Z) : StoreTx Heartbeat :=
  tx_fail_if (negb (worker_identifier worker) || (epoch <=? 0)
              || negb (in_range 1 6000 lease_ms))
    (Configuration "invalid heartbeat parameters");;
  tenant ← run_tenant run allowed_tenants;
  row ← fetch_one (λ db, db_runs db !! (tenant, run));
  live ← tx_gets (grant_live (clock 1%nat) tenant (r_grant_id row));
  expires ← tx_gets (least_expiry tenant [r_grant_id row] (clock 2%nat + lease_ms * 1000));
  updated ← update_run tenant run
    (λ r, holds_lease worker epoch (clock 0%nat) r && slot_state (r_state r) && live)
    (set_renewed expires (clock 3%nat));
  tx_fail_if (negb (updated =? 1)) LeaseConflict;;
  mret {| hb_expires_at := pg_to_char expires; hb_cancel_requested := r_cancel_requested row |}.

Definition mark_run_started (clock : nat → Z) (run : Uuid) (worker : string)
    (allowed_tenants : list Uuid) (epoch : Z) : StoreTx unit :=
  tx_fail_if (negb (worker_identifier worker) || (epoch <=? 0))
    (Configuration "invalid started parameters");;
  tenant ← run_tenant run allowed_tenants;
  row ← fetch_one (λ db, db_runs db !! (tenant, run));
  tx_fail_if (negb (holds_lease worker epoch (clock 0%nat) row)
              || negb (slot_state (r_state row))) LeaseConflict;;
  if bool_decide (r_state row = Leased) then
    update_run tenant run (λ _, true) (set_state Running (clock 1%nat));;
    append_event tenant run "runner.started" (state_payload Running);;
    mret ()
  else mret ().

(** ** Reaping *)

Definition uncertain_states : list EffectState := [Dispatching; OutcomeUnknown].

Definition reap_parameters_ok (policy : ReapPolicy) : bool :=
  in_range 1 3 (rp_max_attempts policy) && in_range 1 1000 (rp_max_pending_global policy)
  && in_range 1 100 (rp_max_pending_tenant policy)
  && negb (rp_max_pending_global policy <? rp_max_pending_tenant policy).

(** The [(next, outcome, event)] of a promoted or expired run; [full] says
    whether its queue has no room. *)
Definition reap_verdict (uncertain cancel exhausted full : bool) :
    RunState * Reaped * string :=
  if uncertain then
    (NeedsReconciliation, ReapedNeedsReconciliation, "run.needs_reconciliation"%string)
  else if cancel then (Cancelled, ReapedCancelled, "run.cancelled"%string)
  else if exhausted then (Failed, ReapedFailed, "run.failed"%string)
  else if full then (RetryWait, WaitingForQueue, "run.retry_wait"%string)
  else (Queued, Requeued, "run.requeued"%string).

Definition promote_run (now : Z) (policy : ReapPolicy) (tenant run : Uuid) :
    StoreTx (option (Uuid * Reaped)) :=
  fetch_one (λ db, db_tenants db !! tenant);;
  row ← fetch_one (λ db, db_runs db !! (tenant, run));
  tx_fail_if (negb (bool_decide (r_state row = RetryWait)) || r_active_slot_held row)
    CorruptScheduler;;
  uncertain ← tx_gets (effect_in uncertain_states tenant run);
  let '(next, outcome, event) := reap_verdict uncertain (r_cancel_requested row)
    (rp_max_attempts policy <=? r_attempt row) false in
  update_run tenant run (λ _, true) (set_state next now);;
  append_event tenant run event (state_payload next);;
  mret (Some (run, outcome)).

Definition reap_selected (clock : nat → Z) (policy : ReapPolicy) (global_pending : Z)
    (tenant run : Uuid) : StoreTx (option (Uuid * Reaped)) :=
  tenant_row ← fetch_one (λ db, db_tenants db !! tenant);
  tx_fail_if (t_active_count tenant_row <=? 0) CorruptScheduler;;
  row ← fetch_one (λ db, db_runs db !! (tenant, run));
  tx_fail_if (negb (r_active_slot_held row)) CorruptScheduler;;
  if negb (lease_expired (clock 0%nat) row) then mret None
  else
    uncertain ← tx_gets (effect_in uncertain_states tenant run);
    tenant_pending ← tx_gets (queued_tenant tenant);
    let tenant_cap := Z.min (t_queue_limit tenant_row) (rp_max_pending_tenant policy) in
    let '(next, outcome, event) := reap_verdict uncertain (r_cancel_requested row)
      (rp_max_attempts policy <=? r_attempt row)
      ((rp_max_pending_global policy <=? global_pending) || (tenant_cap <=? tenant_pending)) in
    released ← update_tenant tenant (λ t, 0 <? t_active_count t) set_slot_freed;
    tx_fail_if (negb (released =? 1)) CorruptScheduler;;
    update_run tenant run (λ _, true) (set_released next (clock 1%nat));;
    append_event tenant run "lease.expired"
      (json_object [json_field "expired" (bytes "true")]);;
    append_event tenant run event (state_payload next);;
    mret (Some (run, outcome)).

(** [reap_one]; [between] is what transactions outside the scheduler lock, such
    as heartbeats, commit between the candidate's selection and its row lock. *)
Definition reap_one (clock : nat → Z) (between : Db → Db) (policy : ReapPolicy) :
    StoreTx (option (Uuid * Reaped)) :=
  tx_fail_if (negb (reap_parameters_ok policy)) (Configuration "invalid reaper limits");;
  begin_scheduler;;
  global_pending ← tx_gets queued_global;
  waiting ← tx_gets (λ db,
    if global_pending <? rp_max_pending_global policy
    then retry_candidate (rp_max_pending_tenant policy) db else None);
  match waiting with
  | Some (tenant, run) => promote_run (clock 0%nat) policy tenant run
  | None =>
    candidate ← tx_gets (expired_candidate (clock 0%nat));
    match candidate with
    | None => mret None
    | Some (tenant, run) =>
      tx_modify between;;
      reap_selected (λ i, clock (S i)) policy global_pending tenant run
    end
  end.

(** ** Completion *)

Definition finish_parameters_ok (worker : string) (epoch : Z)
    (output : option (list byte)) (error_code : option string) : bool :=
  negb (negb (worker_identifier worker) || (epoch <=? 0)
        || match output with Some o => 65536 <? Z.of_nat (length o) | None => false end
        || match error_code with
           | Some c => str_is_empty c || (64 <? str_len c)
               || negb (forallb (λ b, is_ascii_uppercase b || bool_decide (b = "_"%byte))
                          (bytes c))
           | None => false
           end
        || match output, error_code with Some _, Some _ => true | _, _ => false end).

Definition unresolved_states : list EffectState := [Prepared; Dispatching; OutcomeUnknown].

Definition finish_state (cancel : bool) (error_code : option string) : RunState :=
  if cancel then Cancelled
  else match error_code with Some _ => Failed | None => Succeeded end.

Definition finish_event (state : RunState) : string :=
  match state with
  | Cancelled => "run.cancelled" | Failed => "run.failed" | _ => "run.succeeded"
  end.

Definition finish_run (clock : nat → Z) (run : Uuid) (worker : string)
    (allowed_tenants : list Uuid) (epoch : Z) (output : option (list byte))
    (error_code : option string) : StoreTx RunRecord :=
  tx_fail_if (negb (finish_parameters_ok worker epoch output error_code))
    (Configuration "invalid finish parameters");;
  begin_scheduler;;
  tenant ← run_tenant run allowed_tenants;
  tenant_row ← fetch_one (λ db, db_tenants db !! tenant);
  tx_fail_if (t_active_count tenant_row <=? 0) CorruptScheduler;;
  row ← fetch_one (λ db, db_runs db !! (tenant, run));
  tx_fail_if (negb (bool_decide (r_state row = Running))
              || negb (holds_lease worker epoch (clock 0%nat) row)) LeaseConflict;;
  unresolved ← tx_gets (effect_in unresolved_states tenant run);
  tx_fail_if unresolved LeaseConflict;;
  let state := finish_state (r_cancel_requested row) error_code in
  updated ← update_tenant tenant (λ t, 0 <? t_active_count t) set_slot_freed;
  tx_fail_if (negb (updated =? 1)) CorruptScheduler;;
  update_run tenant run (λ _, true) (set_finished state output error_code (clock 1%nat));;
  append_event tenant run (finish_event state) (state_payload state);;
  fetch_run_by_key tenant (r_idempotency_key row).
End scheduler.
