(* ===== verification/Slots.v ===== *)
(** * Slots: the scheduler's invariant

    What every operation of [Scheduler] keeps true: the counters of the tenants
    are the numbers of slots their runs hold, a slot is held exactly in the
    leased and running states, an epoch counts the attempts, every change of a
    run's state is one the state machine of [State] allows, and the logs and the
    grant ledger stay well formed. *)
From S2P Require Export Scheduler.

Definition b2z (b : bool) : Z := if b then 1 else 0.

(** The slots a tenant's runs hold. *)
Definition held_tenant (tenant : Uuid) (db : Db) : Z :=
  count_rows (λ kv : Uuid * Uuid * RunRow, kv.1.1 = tenant ∧ r_active_slot_held kv.2 = true)
    (db_runs db).

(** What a run's row satisfies by itself. *)
Record run_local (r : RunRow) : Prop := {
  rl_check : run_check r = true;
  rl_slot : r_active_slot_held r = slot_state (r_state r);
  rl_lease : if r_active_slot_held r
             then is_Some (r_lease_owner r) ∧ is_Some (r_lease_expires_at r)
             else r_lease_owner r = None ∧ r_lease_expires_at r = None;
  rl_epoch : r_lease_epoch r = r_attempt r;
  rl_digest : length (r_module_digest r) = 32%nat;
}.

(** An uncertain remote effect of the run. *)
Definition uncertain (k : Uuid * Uuid) (db : Db) : bool :=
  effect_in uncertain_states k.1 k.2 db.

Record run_ok (db : Db) (k : Uuid * Uuid) (r : RunRow) : Prop := {
  ro_local : run_local r;
  ro_tenant : is_Some (db_tenants db !! k.1);
  ro_grant : is_Some (db_grants db !! (k.1, r_grant_id r));
  ro_module : is_Some (db_modules db !! (k.1, r_module_digest r));
  ro_idle : pending (r_state r) = true → uncertain k db = false;
}.

Record sched_ok (db : Db) : Prop := {
  so_unique : runs_unique db;
  so_runs : ∀ k r, db_runs db !! k = Some r → run_ok db k r;
  so_tenants : ∀ tenant t, db_tenants db !! tenant = Some t →
    tenant_check t = true ∧ t_active_count t = held_tenant tenant db;
  so_seq : ∃ seq, db_dispatch_seq db = Some seq ∧ 0 ≤ seq ≤ i64_max ∧
    ∀ tenant t, db_tenants db !! tenant = Some t → t_last_served_seq t ≤ seq;
  so_active : 0 ≤ active_sum db ≤ 4;
}.

Definition db_ok `{PgTime, Sha256} (db : Db) : Prop := sched_ok db ∧ logs_ok db ∧ ledger_ok db.

(** ** How a run may move *)

Record row_moves (unresolved : bool) (r r' : RunRow) : Prop := {
  rm_key : r_idempotency_key r' = r_idempotency_key r;
  rm_hash : r_request_hash r' = r_request_hash r;
  rm_digest : r_module_digest r' = r_module_digest r;
  rm_grant : r_grant_id r' = r_grant_id r;
  rm_input : r_input_bytes r' = r_input_bytes r;
  rm_state : r_state r' = r_state r ∨
    RunState_transition (r_state r) (r_state r') unresolved false = Ok (r_state r');
  (** An epoch only grows, and while it stays a released slot stays released. *)
  rm_epoch : r_lease_epoch r ≤ r_lease_epoch r';
  rm_fence : r_lease_epoch r' = r_lease_epoch r → r_active_slot_held r' = true →
    r_active_slot_held r = true ∧ r_lease_owner r' = r_lease_owner r;
}.

(** A tenant keeps its limits and is served later and later. *)
Record tenant_moves (t t' : TenantRow) : Prop := {
  tm_queue : t_queue_limit t' = t_queue_limit t;
  tm_active : t_active_limit t' = t_active_limit t;
  tm_served : t_last_served_seq t ≤ t_last_served_seq t';
}.

Definition db_moves (db db' : Db) : Prop :=
  (∀ k r, db_runs db !! k = Some r →
     ∃ r', db_runs db' !! k = Some r' ∧ row_moves (uncertain k db) r r') ∧
  (∀ k t, db_tenants db !! k = Some t →
     ∃ t', db_tenants db' !! k = Some t' ∧ tenant_moves t t').

Lemma row_moves_refl u r : row_moves u r r.
Proof. by constructor; auto. Qed.

Lemma db_moves_refl db : db_moves db db.
Proof.
  split; [intros k r Hr; exists r; split; [done|apply row_moves_refl]|].
  intros k t Ht. exists t. split; [done|]. by constructor.
Qed.

(** ** Appending to the log *)

(** What [append_event] leaves alone, apart from the run's event head. *)
Record log_only `{Sha256} (tenant run : Uuid) (db db' : Db) : Prop := {
  lo_runs : ∃ n h row, db_runs db !! (tenant, run) = Some row ∧ length h = 32%nat ∧
    db_runs db' = <[(tenant, run) := set_event_head n h row]> (db_runs db);
  lo_frame : db_tenants db' = db_tenants db ∧ db_grants db' = db_grants db ∧
    db_modules db' = db_modules db ∧ db_effects db' = db_effects db ∧
    db_reservations db' = db_reservations db ∧ db_dispatch_seq db' = db_dispatch_seq db;
  lo_logs : logs_ok db → logs_ok db';
}.

Section log_only.
Context `{Sha256, !Sha256Laws}.

Lemma append_event_log_only tenant run kind payload db h db' :
  append_event tenant run kind payload db = Ok (h, db') → log_only tenant run db db'.
Proof.
  intros (row & Hrow & Hsize & _ & _ & -> & ->)%append_event_Ok. split.
  - eexists _, _, row. split_and!; [done| |reflexivity]. apply sha256_length.
  - done.
  - intros Hlogs. by apply logs_ok_appended.
Qed.

Lemma log_only_trans tenant run db1 db2 db3 :
  log_only tenant run db1 db2 → log_only tenant run db2 db3 → log_only tenant run db1 db3.
Proof.
  intros [(n & h & row & Hrow & Hh & Hr) Hf Hl] [(n' & h' & row' & Hrow' & Hh' & Hr') Hf' Hl'].
  rewrite Hr, lookup_insert_eq in Hrow'. injection Hrow' as <-. split.
  - exists n', h', row. split_and!; [done..|]. rewrite Hr', Hr. by rewrite insert_insert_eq.
  - destruct_and!. split_and!; congruence.
  - auto.
Qed.

(** An event head does not matter to the scheduler. *)
Lemma run_local_head n h r :
  length h = 32%nat → run_local r → run_local (set_event_head n h r).
Proof.
  intros Hh []. constructor; try done. simpl. by apply set_event_head_check.
Qed.

Lemma row_moves_head u n h r r' : row_moves u r r' → row_moves u r (set_event_head n h r').
Proof. intros []. by constructor. Qed.
End log_only.

(** ** Sums over tenants *)

Lemma active_sum_insert db tenant t t' :
  db_tenants db !! tenant = Some t →
  active_sum (with_tenants <[tenant := t']> db) =
  active_sum db - t_active_count t + t_active_count t'.
Proof.
  intros Ht. unfold active_sum. simpl. rewrite <-insert_delete_eq.
  rewrite <-(insert_delete_id (db_tenants db) tenant t Ht) at 2.
  rewrite !map_fold_insert_L; try (intros; lia); try apply lookup_delete_eq.
Qed.

Definition count_sum (m : gmap Uuid TenantRow) : Z :=
  map_fold (λ _ t sum, t_active_count t + sum) 0 m.

Lemma count_sum_nonneg m :
  (∀ k t, m !! k = Some t → 0 ≤ t_active_count t) → 0 ≤ count_sum m.
Proof.
  unfold count_sum. induction m as [|k t m Hk IH] using map_ind; intros Hm.
  - by rewrite map_fold_empty.
  - rewrite map_fold_insert_L; [|intros; lia|done].
    pose proof (Hm k t ltac:(by rewrite lookup_insert_eq)).
    assert (0 ≤ map_fold (λ _ t sum, t_active_count t + sum) 0 m); [|lia].
    apply IH. intros k' t' Hk'. apply (Hm k'). rewrite lookup_insert_ne; congruence.
Qed.

(** The sum covers every tenant's count. *)
Lemma active_sum_ge db tenant t :
  (∀ k t, db_tenants db !! k = Some t → 0 ≤ t_active_count t) →
  db_tenants db !! tenant = Some t → t_active_count t ≤ active_sum db.
Proof.
  intros Hnn Ht. unfold active_sum. rewrite <-(insert_delete_id _ _ _ Ht).
  rewrite map_fold_insert_L; [|intros; lia|apply lookup_delete_eq].
  pose proof (count_sum_nonneg (delete tenant (db_tenants db))) as Hd. unfold count_sum in Hd.
  enough (0 ≤ map_fold (λ _ t sum, t_active_count t + sum) 0 (delete tenant (db_tenants db)))
    by lia.
  apply Hd. intros k t0 [_ Hk]%lookup_delete_Some. eauto.
Qed.

Lemma active_sum_ext db db' : db_tenants db' = db_tenants db → active_sum db' = active_sum db.
Proof. unfold active_sum. by intros ->. Qed.

Lemma held_tenant_insert db tenant run r r1 t :
  db_runs db !! (tenant, run) = Some r →
  held_tenant t (with_runs <[(tenant, run) := r1]> db) =
  held_tenant t db + (if decide (t = tenant)
                      then b2z (r_active_slot_held r1) - b2z (r_active_slot_held r) else 0).
Proof.
  intros Hr. unfold held_tenant. simpl. rewrite (count_rows_insert _ _ _ _ r Hr).
  unfold count_one, b2z.
  destruct (decide (_ ∧ r_active_slot_held (tenant, run, r).2 = true)) as [[H1 H2]|H1],
    (decide (_ ∧ r_active_slot_held (tenant, run, r1).2 = true)) as [[H3 H4]|H3],
    (decide (t = tenant)) as [H5|H5], (r_active_slot_held r) eqn:E,
    (r_active_slot_held r1) eqn:E1; simpl in *; try lia; exfalso; try congruence;
    first [apply H1; split; congruence | apply H3; split; congruence].
Qed.

(** ** One step of a run *)

(** An operation that rewrites one run and its tenant. *)
Record slot_update (db : Db) (tenant run : Uuid) (r r1 : RunRow) (t t1 : TenantRow)
    (db1 : Db) : Prop := {
  su_run : db_runs db !! (tenant, run) = Some r;
  su_tenant : db_tenants db !! tenant = Some t;
  su_runs : db_runs db1 = <[(tenant, run) := r1]> (db_runs db);
  su_tenants : db_tenants db1 = <[tenant := t1]> (db_tenants db);
  su_seq : ∃ s s1, db_dispatch_seq db = Some s ∧ db_dispatch_seq db1 = Some s1 ∧
    s ≤ s1 ≤ i64_max ∧ (t_last_served_seq t1 = t_last_served_seq t ∨ t_last_served_seq t1 = s1);
  su_frame : db_grants db1 = db_grants db ∧ db_modules db1 = db_modules db ∧
    db_effects db1 = db_effects db ∧ db_reservations db1 = db_reservations db ∧
    db_events db1 = db_events db;
  su_moves : row_moves (uncertain (tenant, run) db) r r1;
  su_local : run_local r1;
  su_idle : pending (r_state r1) = true → uncertain (tenant, run) db = false;
  su_head : r_next_event_seq r1 = r_next_event_seq r ∧ r_last_event_hash r1 = r_last_event_hash r;
  su_limits : t_queue_limit t1 = t_queue_limit t ∧ t_active_limit t1 = t_active_limit t;
  su_check : tenant_check t1 = true;
  su_count : t_active_count t1 =
    t_active_count t + b2z (r_active_slot_held r1) - b2z (r_active_slot_held r);
  su_global : active_sum db + b2z (r_active_slot_held r1) - b2z (r_active_slot_held r) ≤ 4;
}.

Section slot_update.
Context `{PgTime, Sha256, !Sha256Laws}.
Context {db db1 db' : Db} {tenant run : Uuid} {r r1 : RunRow} {t t1 : TenantRow}.
Hypothesis Hup : slot_update db tenant run r r1 t t1 db1.
Hypothesis Hlog : log_only tenant run db1 db'.

(** The run's final row: [r1] with its event head moved. *)
Lemma slot_row : ∃ n h, length h = 32%nat ∧
  db_runs db' = <[(tenant, run) := set_event_head n h r1]> (db_runs db).
Proof.
  destruct Hlog as [(n & h & row & Hrow & Hh & Hr) _ _]. exists n, h. split; [done|].
  rewrite (su_runs _ _ _ _ _ _ _ _ Hup), lookup_insert_eq in Hrow. injection Hrow as <-.
  rewrite Hr, (su_runs _ _ _ _ _ _ _ _ Hup). by rewrite insert_insert_eq.
Qed.

Lemma slot_moves : sched_ok db → db_moves db db'.
Proof.
  intros Hs. split.
  - destruct slot_row as (n & h & _ & Hr). intros k r0 Hr0. rewrite Hr.
    destruct (decide (k = (tenant, run))) as [->|Hne].
    + rewrite lookup_insert_eq. eexists. split; [done|].
      rewrite (su_run _ _ _ _ _ _ _ _ Hup) in Hr0. injection Hr0 as <-.
      apply row_moves_head, (su_moves _ _ _ _ _ _ _ _ Hup).
    + rewrite lookup_insert_ne by done. exists r0. split; [done|apply row_moves_refl].
  - intros k t0 Ht0. rewrite (proj1 (lo_frame _ _ _ _ Hlog)), (su_tenants _ _ _ _ _ _ _ _ Hup).
    destruct (decide (k = tenant)) as [->|Hne].
    + rewrite lookup_insert_eq. eexists. split; [done|].
      rewrite (su_tenant _ _ _ _ _ _ _ _ Hup) in Ht0. injection Ht0 as <-.
      destruct (su_limits _ _ _ _ _ _ _ _ Hup). constructor; [done..|].
      destruct (su_seq _ _ _ _ _ _ _ _ Hup) as (s & s1 & Hs0 & _ & Hle & Hlast).
      destruct (so_seq _ Hs) as (seq & Hseq & _ & Hserved). simplify_eq.
      pose proof (Hserved _ _ (su_tenant _ _ _ _ _ _ _ _ Hup)). lia.
    + rewrite lookup_insert_ne by done. exists t0. split; [done|]. by constructor.
Qed.

Lemma slot_held tn : held_tenant tn db' = held_tenant tn db +
  (if decide (tn = tenant) then b2z (r_active_slot_held r1) - b2z (r_active_slot_held r) else 0).
Proof.
  destruct slot_row as (n & h & _ & Hr).
  etrans; [|apply (held_tenant_insert _ _ run _ (set_event_head n h r1)); apply Hup].
  unfold held_tenant. by rewrite Hr.
Qed.

Lemma slot_active : active_sum db' =
  active_sum db + b2z (r_active_slot_held r1) - b2z (r_active_slot_held r).
Proof.
  destruct Hlog as [_ (Ht & _) _].
  rewrite (active_sum_ext (with_tenants <[tenant := t1]> db) db')
    by (rewrite Ht; apply Hup).
  rewrite (active_sum_insert _ _ t) by apply Hup. rewrite (su_count _ _ _ _ _ _ _ _ Hup). lia.
Qed.

Lemma slot_runs_ok : (∀ k r, db_runs db !! k = Some r → run_ok db k r) →
  ∀ k r, db_runs db' !! k = Some r → run_ok db' k r.
Proof.
  intros Hok k r0. destruct slot_row as (n & h & Hh & Hr). rewrite Hr.
  destruct Hlog as [_ (Ht & Hg & Hm & He & _) _].
  destruct (su_frame _ _ _ _ _ _ _ _ Hup) as (Hg1 & Hm1 & He1 & _).
  assert (∀ k', is_Some (db_tenants db !! k') → is_Some (db_tenants db' !! k')) as Htn.
  { intros k' Hk'. rewrite Ht, (su_tenants _ _ _ _ _ _ _ _ Hup).
    apply lookup_insert_is_Some. destruct (decide (tenant = k')); eauto. }
  assert (∀ k', uncertain k' db' = uncertain k' db) as Hun.
  { intros k'. unfold uncertain, effect_in. by rewrite He, He1. }
  destruct (decide (k = (tenant, run))) as [->|Hne].
  - rewrite lookup_insert_eq. intros [= <-].
    destruct (Hok _ _ (su_run _ _ _ _ _ _ _ _ Hup)) as [_ Htk Hgk Hmk _].
    destruct (su_moves _ _ _ _ _ _ _ _ Hup) as [_ _ Hd Hgr _ _ _ _]. constructor; simpl.
    + apply run_local_head; [done|apply Hup].
    + by apply Htn.
    + rewrite Hg, Hg1, Hgr. done.
    + rewrite Hm, Hm1, Hd. done.
    + rewrite Hun. apply Hup.
  - rewrite lookup_insert_ne by done. intros [Hl Htk Hgk Hmk Hi]%Hok.
    constructor; rewrite ?Hun, ?Hg, ?Hg1, ?Hm, ?Hm1; auto.
Qed.

Lemma slot_sched_ok : sched_ok db → sched_ok db'.
Proof.
  intros [Huniq Hruns Hten (seq & Hseq & Hrange & Hserved) Hact].
  destruct Hlog as [_ (Ht & _ & _ & _ & _ & Hs) _]. split.
  - destruct slot_row as (n & h & _ & Hr). apply (runs_unique_frame db); [done|].
    intros k r'. rewrite Hr. destruct (decide (k = (tenant, run))) as [->|Hne].
    + rewrite lookup_insert_eq. intros [= <-]. exists r. split; [apply Hup|].
      simpl. apply (rm_key _ _ _ (su_moves _ _ _ _ _ _ _ _ Hup)).
    + rewrite lookup_insert_ne by done. eauto.
  - by apply slot_runs_ok.
  - intros tn t0. rewrite Ht, (su_tenants _ _ _ _ _ _ _ _ Hup), slot_held.
    destruct (decide (tn = tenant)) as [->|Hne].
    + rewrite lookup_insert_eq. intros [= <-]. split; [apply Hup|].
      destruct (Hten _ _ (su_tenant _ _ _ _ _ _ _ _ Hup)) as [_ Hc].
      rewrite (su_count _ _ _ _ _ _ _ _ Hup), Hc. lia.
    + rewrite lookup_insert_ne by done. intros [Hc Hn]%Hten. split; [done|]. lia.
  - destruct (su_seq _ _ _ _ _ _ _ _ Hup) as (s & s1 & Hs0 & Hs1 & Hle & Hlast). simplify_eq.
    exists s1. rewrite Hs, Hs1. split_and!; [done|lia|lia|]. intros tn t0.
    rewrite Ht, (su_tenants _ _ _ _ _ _ _ _ Hup). destruct (decide (tn = tenant)) as [->|Hne].
    + rewrite lookup_insert_eq. intros [= <-].
      pose proof (Hserved _ _ (su_tenant _ _ _ _ _ _ _ _ Hup)). lia.
    + rewrite lookup_insert_ne by done. intros Hx%Hserved. lia.
  - rewrite slot_active. pose proof (su_global _ _ _ _ _ _ _ _ Hup).
    destruct (Hten _ _ (su_tenant _ _ _ _ _ _ _ _ Hup)) as [_ Hc].
    pose proof (su_check _ _ _ _ _ _ _ _ Hup) as Hck. unfold tenant_check in Hck. bools.
    pose proof (su_count _ _ _ _ _ _ _ _ Hup). split; [|lia].
    assert (t_active_count t ≤ active_sum db) as Hge; [|lia].
    apply (active_sum_ge db tenant); [|apply Hup].
    intros tn t0 [Hck' _]%Hten. unfold tenant_check in Hck'. bools. lia.
Qed.

Lemma slot_logs_ok : logs_ok db → logs_ok db'.
Proof.
  intros Hlogs. apply (lo_logs _ _ _ _ Hlog). destruct (su_frame _ _ _ _ _ _ _ _ Hup) as (_ & _ & _ & _ & Hev).
  apply (logs_ok_frame db); [done|done|..].
  - intros k r'. rewrite (su_runs _ _ _ _ _ _ _ _ Hup).
    destruct (decide (k = (tenant, run))) as [->|Hne].
    + rewrite lookup_insert_eq. intros [= <-]. exists r. split; [apply Hup|].
      destruct (su_head _ _ _ _ _ _ _ _ Hup). done.
    + rewrite lookup_insert_ne by done. eauto.
  - intros k. rewrite (su_runs _ _ _ _ _ _ _ _ Hup). by intros [? _]%lookup_insert_None.
Qed.

Lemma slot_ledger_ok : sched_ok db → ledger_ok db → ledger_ok db'.
Proof.
  intros Hs Hok. destruct Hlog as [_ (_ & Hg & _ & He & Hr & _) _].
  destruct (su_frame _ _ _ _ _ _ _ _ Hup) as (Hg1 & _ & He1 & Hr1 & _).
  apply (ledger_ok_frame db); [done|congruence|congruence|..].
  - intros k e'. rewrite He, He1. eauto.
  - intros k e. rewrite He, He1. eauto.
  - intros k r0 Hr0. destruct (proj1 (slot_moves Hs) _ _ Hr0) as (r' & Hr' & Hm).
    exists r'. split; [done|]. apply Hm.
Qed.

Lemma slot_db_ok : db_ok db → db_ok db' ∧ db_moves db db'.
Proof.
  intros (Hs & Hl & Hg). split; [|by apply slot_moves].
  split_and!; [by apply slot_sched_ok|by apply slot_logs_ok|by apply slot_ledger_ok].
Qed.
End slot_update.

(** ** The operations preserve the invariant *)

Lemma update_run_all tenant run f db n db' r :
  db_runs db !! (tenant, run) = Some r →
  update_run tenant run (λ _, true) f db = Ok (n, db') →
  run_check (f r) = true ∧ n = 1 ∧ db' = with_runs <[(tenant, run) := f r]> db.
Proof.
  intros Hr [(r' & Hr' & _ & Hc & -> & ->)|(_ & _ & Hg)]%update_run_Ok; [by simplify_eq|].
  by specialize (Hg _ Hr).
Qed.

Lemma update_tenant_all tenant f db n db' t :
  db_tenants db !! tenant = Some t →
  update_tenant tenant (λ _, true) f db = Ok (n, db') →
  tenant_check (f t) = true ∧ n = 1 ∧ db' = with_tenants <[tenant := f t]> db.
Proof.
  intros Ht [(t' & Ht' & _ & Hc & -> & ->)|(_ & _ & Hg)]%update_tenant_Ok; [by simplify_eq|].
  by specialize (Hg _ Ht).
Qed.

Lemma pending_slot s : pending s = true → slot_state s = false.
Proof. by destruct s. Qed.

Section operations.
Context `{PgTime, Sha256, !Sha256Laws}.

Lemma min_by_filter {A} (key : A → Z * Z) (P : A → Prop) `{∀ x, Decision (P x)} l x :
  min_by key (filter P l) = Some x → x ∈ l ∧ P x.
Proof. intros [[? ?]%list_elem_of_filter _]%min_by_Some. done. Qed.

Lemma queue_head_Some max_attempts tenant db run :
  queue_head max_attempts tenant db = Some run →
  ∃ r, db_runs db !! (tenant, run) = Some r ∧ claimable max_attempts tenant (tenant, run, r).
Proof.
  unfold queue_head. intros ([[t i] r] & Hmin & ->)%fmap_Some.
  apply min_by_filter in Hmin as [Hin Hc]. apply elem_of_map_to_list in Hin.
  destruct Hc as (Ht & Hrest). simpl in *. subst. by exists r.
Qed.

Lemma claim_candidate_Some allowed per_tenant max_attempts db tenant run :
  claim_candidate allowed per_tenant max_attempts db = Some (tenant, run) →
  ∃ t r, db_tenants db !! tenant = Some t ∧ tenant ∈ allowed ∧
    t_active_count t < Z.min (t_active_limit t) per_tenant ∧
    db_runs db !! (tenant, run) = Some r ∧ claimable max_attempts tenant (tenant, run, r).
Proof.
  unfold claim_candidate. intros ([[tn seq] ru] & Hmin & [= -> ->])%fmap_Some.
  apply min_by_Some in Hmin as [Hin _].
  apply list_elem_of_omap in Hin as ([tn' t] & Hin & Hel). apply elem_of_map_to_list in Hin.
  unfold eligible in Hel. case_match eqn:Hc; [|done]. bools. simpl in *.
  apply bind_Some in Hel as (ru' & Hq & Heq). injection Heq as <- _ <-.
  apply queue_head_Some in Hq as (r & Hr & Hcl). eauto 10.
Qed.

(** A step that keeps the slot where it is. *)
Lemma run_update_ok db db' tenant run r r1 :
  db_ok db → db_runs db !! (tenant, run) = Some r →
  r_active_slot_held r1 = r_active_slot_held r →
  row_moves (uncertain (tenant, run) db) r r1 → run_local r1 →
  (pending (r_state r1) = true → uncertain (tenant, run) db = false) →
  r_next_event_seq r1 = r_next_event_seq r ∧ r_last_event_hash r1 = r_last_event_hash r →
  log_only tenant run (with_runs <[(tenant, run) := r1]> db) db' →
  db_ok db' ∧ db_moves db db'.
Proof.
  intros Hok Hr Hheld Hmoves Hlocal Hidle Hhead Hlog. pose proof Hok as (Hs & _ & _).
  destruct (ro_tenant _ _ _ (so_runs _ Hs _ _ Hr)) as [t Ht]. simpl in Ht.
  destruct (so_tenants _ Hs _ _ Ht) as [Hcheck Hcount].
  destruct (so_seq _ Hs) as (seq & Hseq & Hrange & _).
  eapply (slot_db_ok (r := r) (r1 := r1) (t := t) (t1 := t)); [|exact Hlog|done].
  constructor; simpl; auto.
  - by rewrite insert_id.
  - exists seq, seq. split_and!; auto; lia.
  - rewrite Hheld. lia.
  - rewrite Hheld. pose proof (so_active _ Hs). lia.
Qed.

(** The rows the statements write. *)
Lemma run_local_intro r1 :
  run_check r1 = true → r_active_slot_held r1 = slot_state (r_state r1) →
  (if r_active_slot_held r1 then is_Some (r_lease_owner r1) ∧ is_Some (r_lease_expires_at r1)
   else r_lease_owner r1 = None ∧ r_lease_expires_at r1 = None) →
  r_lease_epoch r1 = r_attempt r1 → length (r_module_digest r1) = 32%nat → run_local r1.
Proof. by constructor. Qed.

Lemma set_state_local st now r :
  run_local r → run_check (set_state st now r) = true →
  slot_state st = slot_state (r_state r) → run_local (set_state st now r).
Proof. intros [] Hc Hst. constructor; simpl; congruence. Qed.

Lemma set_result_local out err r :
  run_local r → run_check (set_result out err r) = true → run_local (set_result out err r).
Proof. intros [] Hc. by constructor. Qed.

Lemma set_released_local st now r :
  run_local r → run_check (set_released st now r) = true → slot_state st = false →
  run_local (set_released st now r).
Proof. intros [] Hc Hst. by constructor. Qed.

Lemma set_result_check out err r :
  run_check (set_result out err r) = true →
  (∀ o, r_output_bytes r = Some o → Z.of_nat (length o) ≤ 65536) → run_check r = true.
Proof.
  unfold run_check. simpl. intros Hc Ho. bools. split_and!; auto.
  destruct (r_output_bytes r) as [o|]; [|done]. apply Z.leb_le. auto.
Qed.

(** Transitions out of a state, when no effect is uncertain or none is needed. *)
Lemma set_lease_moves u st ep ow ex att held now r :
  (st = r_state r ∨ RunState_transition (r_state r) st u false = Ok st) →
  r_lease_epoch r ≤ ep →
  (ep = r_lease_epoch r → held = true → r_active_slot_held r = true ∧ ow = r_lease_owner r) →
  row_moves u r (set_lease st ep ow ex att held now r).
Proof. by constructor. Qed.

Lemma set_result_moves u out err r r1 : row_moves u r r1 → row_moves u r (set_result out err r1).
Proof. intros []. by constructor. Qed.

Lemma deny_claim_ok now tenant run db x db' r :
  db_ok db → db_runs db !! (tenant, run) = Some r → r_state r = Queued →
  deny_claim now tenant run db = Ok (x, db') →
  x = None ∧ db_ok db' ∧ db_moves db db'.
Proof.
  intros Hok Hr Hst Hd. unfold deny_claim in Hd.
  apply tx_bind_Ok in Hd as (n & db1 & Hup & Hd).
  apply (update_run_all _ _ _ _ _ _ _ Hr) in Hup as (Hcheck & _ & ->).
  apply tx_bind_Ok in Hd as (h & db2 & Hlog1%append_event_log_only & Hd).
  apply tx_bind_Ok in Hd as (h' & db3 & Hlog2%append_event_log_only & Hd).
  apply tx_ret_Ok in Hd as [-> ->]. split; [done|].
  pose proof (log_only_trans _ _ _ _ _ Hlog1 Hlog2) as Hlog.
  pose proof Hok as (Hs & _ & _). destruct (so_runs _ Hs _ _ Hr) as [Hl _ _ _ Hidle].
  eapply run_update_ok; [exact Hok|exact Hr|..|exact Hlog]; simpl; auto.
  - apply set_result_moves, set_lease_moves; [right|lia|auto].
    rewrite Hst, (Hidle ltac:(by rewrite Hst)). reflexivity.
  - destruct Hl as [? Hsl]. constructor; simpl; auto. by rewrite Hsl, Hst.
  - done.
Qed.

(** What a granted lease looks like in the database. *)
Record leased_to (worker : string) (ids : list Uuid) (deadline : Z) (db db' : Db)
    (lease : Lease) : Prop := {
  lt_row : ∃ r r' expires, db_runs db !! (l_tenant lease, l_run lease) = Some r ∧
    db_runs db' !! (l_tenant lease, l_run lease) = Some r' ∧
    r_state r = Queued ∧ r_state r' = Leased ∧ r_lease_owner r' = Some worker ∧
    r_lease_epoch r' = r_lease_epoch r + 1 ∧ r_attempt r' = r_attempt r + 1 ∧
    l_epoch lease = r_lease_epoch r' ∧ r_lease_expires_at r' = Some expires ∧
    expires = least_expiry (l_tenant lease) ids deadline db ∧
    l_module_digest lease = r_module_digest r ∧
    db_modules db !! (l_tenant lease, r_module_digest r) = Some (l_module lease) ∧
    l_input lease = default [] (r_input_bytes r) ∧ l_limits_json lease = r_limits r;
}.

Lemma grant_lease_ok clock worker policy tenant run ids db x db' r t :
  db_ok db → db_runs db !! (tenant, run) = Some r → db_tenants db !! tenant = Some t →
  r_state r = Queued → active_sum db < 4 →
  grant_lease clock worker policy tenant run ids db = Ok (x, db') →
  db_ok db' ∧ db_moves db db' ∧
  ∃ lease seq, x = Some lease ∧ l_tenant lease = tenant ∧ l_run lease = run ∧
    leased_to worker ids (clock 0%nat + cp_lease_ms policy * 1000) db db' lease ∧
    db_dispatch_seq db = Some seq ∧ db_dispatch_seq db' = Some (seq + 1) ∧
    db_tenants db' = <[tenant := set_served (seq + 1) t]> (db_tenants db).
Proof.
  intros Hok Hr Ht Hst Hact Hg. pose proof Hok as (Hs & _ & _).
  destruct (so_runs _ Hs _ _ Hr) as [Hl _ _ _ Hidle]. unfold grant_lease in Hg.
  apply tx_bind_Ok in Hg as (d & db1 & Hb & Hg).
  apply tx_bind_Ok in Hg as (seq1 & db1' & [-> ->]%tx_ok_or_Ok & Hg).
  destruct (so_seq _ Hs) as (seq & Hseq & Hrange & Hserved).
  unfold bump_dispatch_seq in Hb. rewrite Hseq in Hb. case_bool (seq <? i64_max); [|done].
  injection Hb as <- <-. apply tx_bind_Ok in Hg as (n & db2 & Hut & Hg).
  apply (update_tenant_all _ _ _ _ _ t) in Hut as (Htc & _ & ->); [|done].
  apply tx_bind_Ok in Hg as (expires & db3 & [-> ->]%tx_gets_Ok & Hg).
  apply tx_bind_Ok in Hg as (n' & db3 & Hur & Hg).
  apply (update_run_all _ _ _ _ _ _ r) in Hur as (Hrc & -> & ->); [|done].
  apply tx_bind_Ok in Hg as ([] & db3 & [_ ->]%tx_fail_if_Ok & Hg).
  apply tx_bind_Ok in Hg as (row & db3 & [Hrow ->]%fetch_one_Ok & Hg).
  simpl in Hrow. rewrite lookup_insert_eq in Hrow. injection Hrow as <-.
  apply tx_bind_Ok in Hg as ([] & db3 & [_ ->]%tx_fail_if_Ok & Hg).
  apply tx_bind_Ok in Hg as (m & db3 & [Hm ->]%fetch_one_Ok & Hg). simpl in Hm.
  apply tx_bind_Ok in Hg as (h & db3 & Hlog%append_event_log_only & Hg).
  apply tx_ret_Ok in Hg as [-> ->]. unfold set_leased in Hlog, Hrc. cbn in Hlog.
  set (expires := least_expiry tenant ids (clock 0%nat + cp_lease_ms policy * 1000) _) in Hlog, Hrc.
  set (r1 := set_lease Leased (r_lease_epoch r + 1) (Some worker) (Some expires)
    (r_attempt r + 1) true (clock 1%nat) r) in *.
  assert (r_active_slot_held r = false) as Hheld by (by rewrite (rl_slot _ Hl), Hst).
  assert (slot_update db tenant run r r1 t (set_served (seq + 1) t)
    (with_runs <[(tenant, run) := r1]> (with_tenants <[tenant := set_served (seq + 1) t]>
      (with_dispatch_seq (seq + 1) db)))) as Hup.
  { constructor; simpl; auto.
    - exists seq, (seq + 1). split_and!; auto; lia.
    - apply set_lease_moves; [right|lia|lia]. by rewrite Hst; destruct (uncertain _ _).
    - destruct Hl. constructor; simpl; eauto. lia.
    - done.
    - rewrite Hheld. simpl. lia.
    - rewrite Hheld. simpl. lia. }
  destruct (slot_db_ok Hup Hlog Hok) as [Hok' Hmoves]. split_and!; [done..|].
  destruct (slot_row Hup Hlog) as (hn & hh & _ & Hruns).
  destruct Hlog as [_ (Htn & _ & _ & _ & _ & Hsq) _].
  eexists _, seq. split_and!; [reflexivity|done|done| |done|by rewrite Hsq|by rewrite Htn].
  constructor. exists r, (set_event_head hn hh r1), expires. simpl.
  split_and!; try done. by rewrite Hruns, lookup_insert_eq.
Qed.

Lemma run_tenant_Ok run allowed db tenant db' :
  run_tenant run allowed db = Ok (tenant, db') →
  db' = db ∧ tenant ∈ allowed ∧ ∃ r, db_runs db !! (tenant, run) = Some r.
Proof.
  unfold run_tenant. intros Hrt. inv_db. bools.
  match goal with E : run_by_id _ _ = Some ?p |- _ => destruct p as [[t id] r];
    apply run_by_id_Some in E as [-> ?] end.
  simpl in *. eauto.
Qed.

Lemma holds_lease_true worker epoch now r :
  holds_lease worker epoch now r = true ↔
  r_lease_owner r = Some worker ∧ r_lease_epoch r = epoch ∧ lease_live now r = true ∧
  r_active_slot_held r = true.
Proof. unfold holds_lease. autorewrite with bools. tauto. Qed.

Lemma heartbeat_run_ok clock run worker allowed epoch lease_ms db hb db' :
  db_ok db → heartbeat_run clock run worker allowed epoch lease_ms db = Ok (hb, db') →
  db_ok db' ∧ db_moves db db' ∧
  ∃ tenant r r', tenant ∈ allowed ∧ db_runs db !! (tenant, run) = Some r ∧
    holds_lease worker epoch (clock 0%nat) r = true ∧
    grant_live (clock 1%nat) tenant (r_grant_id r) db = true ∧
    r' = set_renewed (least_expiry tenant [r_grant_id r] (clock 2%nat + lease_ms * 1000) db)
           (clock 3%nat) r ∧
    db' = with_runs <[(tenant, run) := r']> db.
Proof.
  intros Hok Hh. unfold heartbeat_run in Hh.
  apply tx_bind_Ok in Hh as ([] & db0 & [_ ->]%tx_fail_if_Ok & Hh).
  apply tx_bind_Ok in Hh as (tenant & db0 & (-> & Hal & _)%run_tenant_Ok & Hh).
  apply tx_bind_Ok in Hh as (r & db0 & [Hr ->]%fetch_one_Ok & Hh).
  apply tx_bind_Ok in Hh as (live & db0 & [-> ->]%tx_gets_Ok & Hh).
  apply tx_bind_Ok in Hh as (expires & db0 & [-> ->]%tx_gets_Ok & Hh).
  apply tx_bind_Ok in Hh as (n & db0 & Hup & Hh).
  apply tx_bind_Ok in Hh as ([] & db1 & [Hn ->]%tx_fail_if_Ok & Hh).
  apply tx_ret_Ok in Hh as [-> ->].
  apply update_run_Ok in Hup as [(r' & Hr' & Hguard & Hcheck & _ & ->)|(-> & _)]; [|done].
  simplify_eq. rewrite !andb_true_iff in Hguard. destruct Hguard as [[Hlease Hslot] Hlive].
  pose proof Hok as (Hs & _ & _). destruct (so_runs _ Hs _ _ Hr) as [Hl _ _ _ Hidle].
  pose proof (proj1 (holds_lease_true _ _ _ _) Hlease) as (Hown & _ & _ & Hheld).
  set (r1 := set_renewed _ _ r) in *.
  assert (run_local r1) as Hl1.
  { destruct Hl. constructor; simpl; auto. rewrite Hheld, Hown. eauto. }
  assert (db_ok (with_runs <[(tenant, run) := r1]> db) ∧
    db_moves db (with_runs <[(tenant, run) := r1]> db)) as [? ?]; [|by eauto 15].
  (* no event is appended: the head is written back unchanged *)
  eapply (run_update_ok db _ tenant run r r1 Hok Hr); simpl; auto.
  - apply set_lease_moves; [by left|lia|auto].
  - split; [|done|done].
    exists (r_next_event_seq r), (r_last_event_hash r), r1. split_and!.
    + simpl. by rewrite lookup_insert_eq.
    + destruct Hl as [Hc _ _ _ _]. unfold run_check in Hc. bools. lia.
    + simpl. rewrite insert_insert_eq. by destruct r.
Qed.

Lemma mark_run_started_ok clock run worker allowed epoch db u db' :
  db_ok db → mark_run_started clock run worker allowed epoch db = Ok (u, db') →
  db_ok db' ∧ db_moves db db' ∧
  ∃ tenant r r', tenant ∈ allowed ∧ db_runs db !! (tenant, run) = Some r ∧
    holds_lease worker epoch (clock 0%nat) r = true ∧
    (r_state r = Running → db' = db) ∧
    db_runs db' !! (tenant, run) = Some r' ∧ r_state r' = Running.
Proof.
  intros Hok Hm. unfold mark_run_started in Hm.
  apply tx_bind_Ok in Hm as ([] & db0 & [_ ->]%tx_fail_if_Ok & Hm).
  apply tx_bind_Ok in Hm as (tenant & db0 & (-> & Hal & _)%run_tenant_Ok & Hm).
  apply tx_bind_Ok in Hm as (r & db0 & [Hr ->]%fetch_one_Ok & Hm).
  apply tx_bind_Ok in Hm as ([] & db0 & [Hg ->]%tx_fail_if_Ok & Hm).
  apply orb_false_iff in Hg as [Hlease%negb_false_iff Hslot%negb_false_iff].
  pose proof Hok as (Hs & _ & _). destruct (so_runs _ Hs _ _ Hr) as [Hl _ _ _ Hidle].
  case_bool (bool_decide (r_state r = Leased)).
  - apply tx_bind_Ok in Hm as (n & db1 & Hup & Hm).
    apply (update_run_all _ _ _ _ _ _ _ Hr) in Hup as (Hcheck & _ & ->).
    apply tx_bind_Ok in Hm as (h & db2 & Hlog%append_event_log_only & Hm).
    apply tx_ret_Ok in Hm as [-> ->].
    destruct (run_update_ok db db2 tenant run r (set_state Running (clock 1%nat) r))
      as [Hok' Hmoves]; simpl; auto.
    + apply set_lease_moves; [right|lia|auto]. by rewrite Hb; destruct (uncertain _ _).
    + apply set_state_local; auto; by rewrite Hb.
    + done.
    + split_and!; [done..|]. destruct (lo_runs _ _ _ _ Hlog) as (hn & hh & row & Hrow & _ & Hrs).
      simpl in Hrow. rewrite lookup_insert_eq in Hrow. injection Hrow as <-.
      eexists tenant, r, _. split_and!; [done..|congruence| |].
      * rewrite Hrs. apply lookup_insert_eq.
      * done.
  - apply tx_ret_Ok in Hm as [_ ->]. split_and!; [done|apply db_moves_refl|].
    exists tenant, r, r. split_and!; auto. by destruct (r_state r).
Qed.

(** A verdict is a transition the state machine allows: an uncertain effect
    leads to reconciliation and nowhere else. *)
Lemma reap_verdict_ok u cancel exhausted full next outcome event s :
  reap_verdict u cancel exhausted full = (next, outcome, event) →
  slot_state s = true ∨ (s = RetryWait ∧ full = false) →
  RunState_transition s next u false = Ok next ∧ slot_state next = false ∧
  (pending next = true → u = false) ∧ (u = true ↔ next = NeedsReconciliation).
Proof.
  destruct u, cancel, exhausted, full; intros [= <- <- <-] Hs; destruct s;
    try (exfalso; destruct Hs as [Hs|[Hs Hs']]; discriminate); by split_and!.
Qed.

(** The outcome of reaping a run, read off the database before it. *)
Record reaped_run (tenant run : Uuid) (outcome : Reaped) (db db' : Db) : Prop := {
  rr_row : ∃ r r', db_runs db !! (tenant, run) = Some r ∧
    db_runs db' !! (tenant, run) = Some r' ∧ r_active_slot_held r' = false ∧
    r_lease_epoch r' = r_lease_epoch r ∧
    (uncertain (tenant, run) db = true ↔ r_state r' = NeedsReconciliation);
  rr_uncertain : uncertain (tenant, run) db = true ↔ outcome = ReapedNeedsReconciliation;
}.

Lemma reap_verdict_outcome u cancel exhausted full next outcome event :
  reap_verdict u cancel exhausted full = (next, outcome, event) →
  u = true ↔ outcome = ReapedNeedsReconciliation.
Proof. by destruct u, cancel, exhausted, full; intros [= <- <- <-]. Qed.

Lemma promote_run_ok now policy tenant run db x db' :
  db_ok db → promote_run now policy tenant run db = Ok (x, db') →
  db_ok db' ∧ db_moves db db' ∧
  ∃ outcome, x = Some (run, outcome) ∧ reaped_run tenant run outcome db db'.
Proof.
  intros Hok Hp. unfold promote_run in Hp.
  apply tx_bind_Ok in Hp as (t & db0 & [Ht ->]%fetch_one_Ok & Hp).
  apply tx_bind_Ok in Hp as (r & db0 & [Hr ->]%fetch_one_Ok & Hp).
  apply tx_bind_Ok in Hp as ([] & db0 & [Hg ->]%tx_fail_if_Ok & Hp).
  apply tx_bind_Ok in Hp as (u & db0 & [-> ->]%tx_gets_Ok & Hp).
  destruct (reap_verdict _ _ _ _) as [[next outcome] event] eqn:Hv.
  autorewrite with bools in Hg. destruct Hg as [Hst Hheld].
  destruct (reap_verdict_ok _ _ _ _ _ _ _ RetryWait Hv) as (Htr & Hslot & Hidle & Hun); [by right|].
  apply tx_bind_Ok in Hp as (n & db1 & Hup & Hp).
  apply (update_run_all _ _ _ _ _ _ _ Hr) in Hup as (Hcheck & _ & ->).
  apply tx_bind_Ok in Hp as (h & db2 & Hlog%append_event_log_only & Hp).
  apply tx_ret_Ok in Hp as [-> ->].
  pose proof Hok as (Hs & _ & _). destruct (so_runs _ Hs _ _ Hr) as [Hl _ _ _ _].
  destruct (run_update_ok db db2 tenant run r (set_state next now r))
    as [Hok' Hmoves]; simpl; auto.
  - apply set_lease_moves; [right|lia|auto]. by rewrite Hst.
  - apply set_state_local; auto. by rewrite Hst.
  - split_and!; [done..|]. exists outcome. split; [done|].
    destruct (lo_runs _ _ _ _ Hlog) as (hn & hh & row & Hrow & _ & Hrs).
    simpl in Hrow. rewrite lookup_insert_eq in Hrow. injection Hrow as <-.
    constructor; [|by eapply reap_verdict_outcome].
    eexists r, _. rewrite Hrs, lookup_insert_eq. by split_and!.
Qed.

Lemma reap_selected_ok clock policy pending_now tenant run db x db' :
  db_ok db → reap_selected clock policy pending_now tenant run db = Ok (x, db') →
  db_ok db' ∧ db_moves db db' ∧
  ((x = None ∧ db' = db) ∨
   ∃ outcome r, x = Some (run, outcome) ∧ db_runs db !! (tenant, run) = Some r ∧
     r_active_slot_held r = true ∧ lease_expired (clock 0%nat) r = true ∧
     reaped_run tenant run outcome db db').
Proof.
  intros Hok Hp. unfold reap_selected in Hp.
  apply tx_bind_Ok in Hp as (t & db0 & [Ht ->]%fetch_one_Ok & Hp).
  apply tx_bind_Ok in Hp as ([] & db0 & [_ ->]%tx_fail_if_Ok & Hp).
  apply tx_bind_Ok in Hp as (r & db0 & [Hr ->]%fetch_one_Ok & Hp).
  apply tx_bind_Ok in Hp as ([] & db0 & [Hheld%negb_false_iff ->]%tx_fail_if_Ok & Hp).
  destruct (lease_expired (clock 0%nat) r) eqn:Hexp; cbn [negb] in Hp.
  2:{ apply tx_ret_Ok in Hp as [-> ->]. split_and!; [done|apply db_moves_refl|by left]. }
  apply tx_bind_Ok in Hp as (u & db0 & [-> ->]%tx_gets_Ok & Hp).
  apply tx_bind_Ok in Hp as (tp & db0 & [-> ->]%tx_gets_Ok & Hp). cbv zeta in Hp.
  destruct (reap_verdict _ _ _ _) as [[next outcome] event] eqn:Hv.
  pose proof Hok as (Hs & _ & _). destruct (so_runs _ Hs _ _ Hr) as [Hl _ _ _ _].
  pose proof (rl_slot _ Hl) as Hslot. rewrite Hheld in Hslot.
  destruct (reap_verdict_ok _ _ _ _ _ _ _ (r_state r) Hv) as (Htr & Hnslot & Hidle & Hun); [by left|].
  apply tx_bind_Ok in Hp as (n & db1 & Hut & Hp).
  apply tx_bind_Ok in Hp as ([] & db1' & [Hn ->]%tx_fail_if_Ok & Hp).
  apply update_tenant_Ok in Hut as [(t' & Ht' & Hpos & Htc & _ & ->)|(-> & _)]; [|done].
  simplify_eq. apply tx_bind_Ok in Hp as (n' & db1 & Hur & Hp).
  apply (update_run_all _ _ _ _ _ _ r) in Hur as (Hrc & _ & ->); [|done].
  apply tx_bind_Ok in Hp as (h & db2 & Hlog1%append_event_log_only & Hp).
  apply tx_bind_Ok in Hp as (h' & db3 & Hlog2%append_event_log_only & Hp).
  apply tx_ret_Ok in Hp as [-> ->]. pose proof (log_only_trans _ _ _ _ _ Hlog1 Hlog2) as Hlog.
  destruct (so_seq _ Hs) as (seq & Hseq & Hrange & _).
  assert (slot_update db tenant run r (set_released next (clock 1%nat) r) t (set_slot_freed t)
    (with_runs <[(tenant, run) := set_released next (clock 1%nat) r]>
      (with_tenants <[tenant := set_slot_freed t]> db))) as Hup.
  { constructor; simpl; auto.
    - exists seq, seq. split_and!; auto; lia.
    - apply set_lease_moves; [by right|lia|done].
    - by apply set_released_local.
    - rewrite Hheld. simpl. lia.
    - rewrite Hheld. pose proof (so_active _ Hs). simpl. lia. }
  destruct (slot_db_ok Hup Hlog Hok) as [Hok' Hmoves]. split_and!; [done..|]. right.
  exists outcome, r. split_and!; [done..|].
  constructor; [|by eapply reap_verdict_outcome].
  destruct (slot_row Hup Hlog) as (hn & hh & _ & Hruns).
  eexists r, _. rewrite Hruns, lookup_insert_eq. by split_and!.
Qed.

Lemma reap_one_ok clock between policy db x db' :
  db_ok db → db_ok (between db) → reap_one clock between policy db = Ok (x, db') →
  db_ok db' ∧ ∃ mid, (mid = db ∨ mid = between db) ∧ db_moves mid db' ∧
    match x with
    | None => db' = mid
    | Some (run, outcome) => ∃ tenant, reaped_run tenant run outcome mid db'
    end.
Proof.
  intros Hok Hbetween Hp. unfold reap_one in Hp.
  apply tx_bind_Ok in Hp as ([] & db0 & [_ ->]%tx_fail_if_Ok & Hp).
  apply tx_bind_Ok in Hp as ([] & db0 & [_ ->]%begin_scheduler_Ok & Hp).
  apply tx_bind_Ok in Hp as (g & db0 & [-> ->]%tx_gets_Ok & Hp).
  apply tx_bind_Ok in Hp as (w & db0 & [-> ->]%tx_gets_Ok & Hp).
  destruct (if queued_global db <? _ then _ else _) as [[tenant run]|].
  { apply promote_run_ok in Hp as (Hok' & Hmoves & outcome & -> & Hr); [|done].
    split; [done|]. exists db. eauto. }
  apply tx_bind_Ok in Hp as (c & db0 & [-> ->]%tx_gets_Ok & Hp).
  destruct (expired_candidate _ db) as [[tenant run]|].
  - apply tx_bind_Ok in Hp as ([] & db0 & ->%tx_modify_Ok & Hp).
    apply reap_selected_ok in Hp as (Hok' & Hmoves & Hcase); [|done].
    split; [done|]. exists (between db). split_and!; [by right|done|].
    destruct Hcase as [[-> ->]|(o & r & -> & _ & _ & _ & Hr)]; [done|by eauto].
  - apply tx_ret_Ok in Hp as [-> ->]. split; [done|]. exists db.
    split_and!; [by left|apply db_moves_refl|done].
Qed.

Lemma finish_state_ok cancel error_code :
  let st := finish_state cancel error_code in
  slot_state st = false ∧ pending st = false ∧ RunState_terminal st = true ∧
  RunState_transition Running st false false = Ok st.
Proof. by destruct cancel, error_code. Qed.

(** A run without an unresolved effect has no uncertain one. *)
Lemma resolved_certain tenant run db :
  effect_in unresolved_states tenant run db = false → uncertain (tenant, run) db = false.
Proof.
  intros Hun. apply not_true_is_false. unfold uncertain. intros (o & e & He & Hin)%effect_in_true.
  apply not_true_iff_false in Hun. apply Hun, effect_in_true. exists o, e. split; [done|].
  unfold uncertain_states, unresolved_states in *. set_solver.
Qed.

(** Finishing a running, resolved run frees its slot. *)
Lemma finished_update {tenant run r t db} output error_code now :
  sched_ok db → db_runs db !! (tenant, run) = Some r → r_state r = Running →
  r_active_slot_held r = true → db_tenants db !! tenant = Some t →
  effect_in unresolved_states tenant run db = false →
  let r' := set_finished (finish_state (r_cancel_requested r) error_code) output error_code now r in
  run_check r' = true → tenant_check (set_slot_freed t) = true →
  slot_update db tenant run r r' t (set_slot_freed t)
    (with_runs <[(tenant, run) := r']> (with_tenants <[tenant := set_slot_freed t]> db)).
Proof.
  intros Hs Hr Hrun Hheld Ht Hun%resolved_certain r' Hcheck Htcheck.
  destruct (so_runs _ Hs _ _ Hr) as [Hl _ _ _ _].
  destruct (so_seq _ Hs) as (seq & Hseq & Hrange & _).
  destruct (finish_state_ok (r_cancel_requested r) error_code) as (Hslot & Hpend & Hterm & Htr).
  unfold r' in *. set (st := finish_state (r_cancel_requested r) error_code) in *.
  constructor; simpl; auto.
  - exists seq, seq. split_and!; auto; lia.
  - apply set_result_moves, set_lease_moves; [right|lia|done]. by rewrite Hrun, Hun.
  - destruct Hl. by constructor.
  - rewrite Hheld. simpl. lia.
  - rewrite Hheld. pose proof (so_active _ Hs). simpl. lia.
Qed.

Lemma finish_run_ok clock run worker allowed epoch output error_code db record db' :
  db_ok db → finish_run clock run worker allowed epoch output error_code db = Ok (record, db') →
  db_ok db' ∧ db_moves db db' ∧
  ∃ tenant r r', tenant ∈ allowed ∧ db_runs db !! (tenant, run) = Some r ∧
    holds_lease worker epoch (clock 0%nat) r = true ∧ r_state r = Running ∧
    effect_in unresolved_states tenant run db = false ∧
    db_runs db' !! (tenant, run) = Some r' ∧ RunState_terminal (r_state r') = true ∧
    r_output_bytes r' = output ∧ r_error_code r' = error_code ∧
    r_active_slot_held r' = false ∧
    r_state r' = finish_state (r_cancel_requested r) error_code ∧
    rrec_id record = run ∧ rrec_state record = RunState_name (r_state r') ∧
    ∃ t, db_tenants db !! tenant = Some t ∧ db_tenants db' !! tenant = Some (set_slot_freed t).
Proof.
  intros Hok Hp. unfold finish_run in Hp.
  apply tx_bind_Ok in Hp as ([] & db0 & [Hpar%negb_false_iff ->]%tx_fail_if_Ok & Hp).
  apply tx_bind_Ok in Hp as ([] & db0 & [_ ->]%begin_scheduler_Ok & Hp).
  apply tx_bind_Ok in Hp as (tenant & db0 & (-> & Hal & _)%run_tenant_Ok & Hp).
  apply tx_bind_Ok in Hp as (t & db0 & [Ht ->]%fetch_one_Ok & Hp).
  apply tx_bind_Ok in Hp as ([] & db0 & [_ ->]%tx_fail_if_Ok & Hp).
  apply tx_bind_Ok in Hp as (r & db0 & [Hr ->]%fetch_one_Ok & Hp).
  apply tx_bind_Ok in Hp as ([] & db0 & [Hg ->]%tx_fail_if_Ok & Hp).
  apply orb_false_iff in Hg as [Hrun%negb_false_iff Hlease%negb_false_iff].
  apply bool_decide_eq_true in Hrun.
  apply tx_bind_Ok in Hp as (u & db0 & [-> ->]%tx_gets_Ok & Hp).
  apply tx_bind_Ok in Hp as ([] & db0 & [Hun ->]%tx_fail_if_Ok & Hp). cbv zeta in Hp.
  destruct (finish_state_ok (r_cancel_requested r) error_code) as (Hslot & Hpend & Hterm & Htr).
  set (st := finish_state (r_cancel_requested r) error_code) in *.
  pose proof Hok as (Hs & _ & _).
  pose proof (proj1 (holds_lease_true _ _ _ _) Hlease) as (_ & _ & _ & Hheld).
  apply tx_bind_Ok in Hp as (n & db1 & Hut & Hp).
  apply tx_bind_Ok in Hp as ([] & db1' & [Hn ->]%tx_fail_if_Ok & Hp).
  apply update_tenant_Ok in Hut as [(t' & Ht' & Hpos & Htc & _ & ->)|(-> & _)]; [|done].
  simplify_eq. apply tx_bind_Ok in Hp as (n' & db1 & Hur & Hp).
  apply (update_run_all _ _ _ _ _ _ r) in Hur as (Hrc & _ & ->); [|done].
  apply tx_bind_Ok in Hp as (h & db2 & Hlog%append_event_log_only & Hp).
  pose proof (fetch_run_by_key_Ok _ _ _ _ _ Hp) as (-> & id & r2 & Hkey & Hid & Hstate & _).
  pose proof (finished_update output error_code (clock 1%nat) Hs Hr Hrun Hheld Ht Hun Hrc Htc)
    as Hup.
  destruct (slot_db_ok Hup Hlog Hok) as [Hok' Hmoves]. split_and!; [done..|].
  destruct (slot_row Hup Hlog) as (hn & hh & _ & Hruns).
  exists tenant, r, (set_event_head hn hh (set_finished st output error_code (clock 1%nat) r)).
  assert (db_runs db2 !! (tenant, run) = Some (set_event_head hn hh
    (set_finished st output error_code (clock 1%nat) r))) as Hrow'
    by (by rewrite Hruns, lookup_insert_eq).
  pose proof (run_by_key_unique _ _ _ _ (so_unique _ (proj1 Hok')) Hrow') as Hk'.
  simpl in Hk'. rewrite Hk' in Hkey. injection Hkey as <- <-. split_and!; try done.
  exists t. split; [done|]. rewrite (proj1 (lo_frame _ _ _ _ Hlog)). simpl. apply lookup_insert_eq.
Qed.

Lemma claim_run_ok clock worker allowed slots policy db x db' :
  db_ok db → claim_run clock worker allowed slots policy db = Ok (x, db') →
  db_ok db' ∧ db_moves db db' ∧
  match x with
  | None => db_tenants db' = db_tenants db ∧ db_dispatch_seq db' = db_dispatch_seq db
  | Some lease => ∃ t seq chain,
      claim_candidate allowed (cp_max_active_per_tenant policy) (cp_max_attempts policy) db =
        Some (l_tenant lease, l_run lease) ∧
      db_tenants db !! l_tenant lease = Some t ∧
      active_sum db < cp_max_active_global policy ∧ worker_active worker db < 2 ∧
      load_chain (l_tenant lease)
        (default 0 (r_grant_id <$> db_runs db !! (l_tenant lease, l_run lease))) db = Ok chain ∧
      grants_live clock (l_tenant lease) (g_id <$> chain) db = true ∧
      leased_to worker (g_id <$> chain) (clock 5%nat + cp_lease_ms policy * 1000) db db' lease ∧
      db_dispatch_seq db = Some seq ∧ db_dispatch_seq db' = Some (seq + 1) ∧
      db_tenants db' = <[l_tenant lease := set_served (seq + 1) t]> (db_tenants db)
  end.
Proof.
  intros Hok Hp. unfold claim_run in Hp.
  apply tx_bind_Ok in Hp as ([] & db0 & [Hpar%negb_false_iff ->]%tx_fail_if_Ok & Hp).
  apply tx_bind_Ok in Hp as ([] & db0 & [_ ->]%begin_scheduler_Ok & Hp).
  apply tx_bind_Ok in Hp as (act & db0 & [-> ->]%tx_gets_Ok & Hp).
  apply tx_bind_Ok in Hp as ([] & db0 & [_ ->]%tx_fail_if_Ok & Hp).
  case_bool (cp_max_active_global policy <=? active_sum db).
  { apply tx_ret_Ok in Hp as [-> ->]. split_and!; auto using db_moves_refl. }
  apply tx_bind_Ok in Hp as (busy & db0 & [-> ->]%tx_gets_Ok & Hp).
  case_bool (2 <=? worker_active worker db).
  { apply tx_ret_Ok in Hp as [-> ->]. split_and!; auto using db_moves_refl. }
  apply tx_bind_Ok in Hp as (cand & db0 & [-> ->]%tx_gets_Ok & Hp).
  destruct (claim_candidate _ _ _ db) as [[tenant run]|] eqn:Hcand.
  2:{ apply tx_ret_Ok in Hp as [-> ->]. split_and!; auto using db_moves_refl. }
  unfold claim_selected in Hp.
  apply tx_bind_Ok in Hp as (t & db0 & [Ht ->]%fetch_one_Ok & Hp).
  apply tx_bind_Ok in Hp as ([] & db0 & [_ ->]%tx_fail_if_Ok & Hp).
  apply tx_bind_Ok in Hp as (r & db0 & [Hr ->]%fetch_one_Ok & Hp).
  apply tx_bind_Ok in Hp as ([] & db0 & [Hg ->]%tx_fail_if_Ok & Hp).
  autorewrite with bools in Hg. destruct Hg as [[[Hst _] _] _].
  apply tx_bind_Ok in Hp as (chain & db0 & Hload & Hp).
  apply tx_query_Ok in Hload as [Hload ->].
  apply tx_bind_Ok in Hp as ([] & db0 & [_ ->]%tx_fail_if_Ok & Hp).
  apply tx_bind_Ok in Hp as (live & db0 & [-> ->]%tx_gets_Ok & Hp).
  destruct (grants_live clock tenant (g_id <$> chain) db) eqn:Hlive; cbn [negb] in Hp.
  - assert (cp_max_active_global policy ≤ 4) as Hmax.
    { unfold claim_parameters_ok in Hpar. bools. lia. }
    apply (grant_lease_ok _ _ _ _ _ _ _ _ _ r t) in Hp
      as (Hok' & Hmoves & lease & seq & -> & Hlt & Hlr & Hleased & Hseq & Hseq' & Hten);
      [|done..|lia].
    split_and!; [done..|]. subst tenant run. exists t, seq, chain. rewrite Hr. by split_and!.
  - pose proof Hp as Hd. apply (deny_claim_ok _ _ _ _ _ _ r) in Hp as (-> & Hok' & Hmoves); [|done..].
    split; [done|]. split; [done|]. unfold deny_claim in Hd.
    apply tx_bind_Ok in Hd as (n & db1 & Hup & Hd).
    apply (update_run_all _ _ _ _ _ _ _ Hr) in Hup as (_ & _ & ->).
    apply tx_bind_Ok in Hd as (h & db2 & Hlog1%append_event_log_only & Hd).
    apply tx_bind_Ok in Hd as (h' & db3 & Hlog2%append_event_log_only & Hd).
    apply tx_ret_Ok in Hd as [_ ->].
    destruct (log_only_trans _ _ _ _ _ Hlog1 Hlog2) as [_ (Htn & _ & _ & _ & _ & Hsq) _].
    by rewrite Htn, Hsq.
Qed.
End operations.
