(* ===== verification/System.v ===== *)
(** * System: every history of the store

    The store as a transition system: its steps are the operations of
    [crates/store/src], run to commit, and the writes of the effect broker and
    the cancellation interface, which are not part of this repository.  The
    invariant of [Slots] holds in every reachable state. *)
From S2P Require Export Slots.

(** ** The environment *)

Definition set_cancel (r : RunRow) : RunRow := {|
  r_idempotency_key := r_idempotency_key r; r_request_hash := r_request_hash r;
  r_module_digest := r_module_digest r; r_grant_id := r_grant_id r;
  r_input_bytes := r_input_bytes r; r_output_bytes := r_output_bytes r;
  r_limits := r_limits r; r_state := r_state r; r_lease_epoch := r_lease_epoch r;
  r_lease_owner := r_lease_owner r; r_lease_expires_at := r_lease_expires_at r;
  r_attempt := r_attempt r; r_active_slot_held := r_active_slot_held r;
  r_cancel_requested := true; r_error_code := r_error_code r;
  r_next_event_seq := r_next_event_seq r; r_last_event_hash := r_last_event_hash r;
  r_created_at := r_created_at r; r_updated_at := r_updated_at r;
|}.

(** What the environment may write: it prepares effects of running runs, moves
    effects of runs that are not waiting in a queue along the effect state
    machine, and requests cancellation. *)
Inductive environment (db : Db) : Db → Prop :=
  | env_prepare tenant run ordinal e r :
      db_runs db !! (tenant, run) = Some r → r_state r = Running →
      db_effects db !! (tenant, run, ordinal) = None →
      e_state e = Prepared → e_reservation_charged e = false →
      environment db (with_effects <[(tenant, run, ordinal) := e]> db)
  | env_effect tenant run ordinal e e' r evidence retry :
      db_runs db !! (tenant, run) = Some r → pending (r_state r) = false →
      db_effects db !! (tenant, run, ordinal) = Some e →
      effect_step evidence retry (e_state e) (e_state e') →
      e_reservation_charged e' = e_reservation_charged e →
      environment db (with_effects <[(tenant, run, ordinal) := e']> db)
  | env_cancel tenant run r :
      db_runs db !! (tenant, run) = Some r →
      environment db (with_runs <[(tenant, run) := set_cancel r]> db).

Section system.
Context `{PgTime, !PgTimeLaws, LimitsJson, Sha256, !Sha256Laws}.

(** Operations that do not take the scheduler lock. *)
Inductive lock_free (db : Db) : Db → Prop :=
  | free_heartbeat clock run worker allowed epoch lease_ms hb db' :
      heartbeat_run clock run worker allowed epoch lease_ms db = Ok (hb, db') →
      lock_free db db'
  | free_started clock run worker allowed epoch db' :
      mark_run_started clock run worker allowed epoch db = Ok ((), db') → lock_free db db'
  | free_module tenant digest wasm kind db' :
      put_module tenant digest wasm db = Ok (kind, db') → lock_free db db'
  | free_create id now tenant parent actor authority record db' :
      clock_ok now →
      create_grant id now tenant parent actor authority db = Ok (record, db') →
      lock_free db db'
  | free_revoke now tenant id actor reason record db' :
      revoke_grant now tenant id actor reason db = Ok (record, db') → lock_free db db'
  | free_reserve now updated_at request kind db' :
      reserve_grant_chain now updated_at request db = Ok (kind, db') → lock_free db db'
  | free_environment db' : environment db db' → lock_free db db'.

(** The state in which [reap_one] locks its run: what committed since it chose
    an expired one is there, and it chooses a waiting one and locks it at once. *)
Definition reap_locks (clock : nat → Z) (between : Db → Db) (policy : ReapPolicy) (db : Db) : Db :=
  match (if queued_global db <? rp_max_pending_global policy
         then retry_candidate (rp_max_pending_tenant policy) db else None) with
  | Some _ => db
  | None => match expired_candidate (clock 0%nat) db with Some _ => between db | None => db end
  end.

(** One committed transaction: [store_commit db locked db'] commits [db'] from
    the state [locked] that it holds its locks in.  A reaper lets any number of
    lock-free ones commit between choosing its candidate and locking it. *)
Inductive store_commit (db : Db) : Db → Db → Prop :=
  | commit_free db' : lock_free db db' → store_commit db db db'
  | commit_admit run_id now created_at updated_at tenant key request gmax tmax adm db' :
      length (nr_module_digest request) = 32%nat →
      (∀ ordinal, db_effects db !! (tenant, run_id, ordinal) = None) →
      admit_run run_id now created_at updated_at tenant key request gmax tmax db =
        Ok (adm, db') → store_commit db db db'
  | commit_claim clock worker allowed slots policy lease db' :
      claim_run clock worker allowed slots policy db = Ok (lease, db') → store_commit db db db'
  | commit_reap clock between policy reaped db' :
      rtc lock_free db (between db) →
      reap_one clock between policy db = Ok (reaped, db') →
      store_commit db (reap_locks clock between policy db) db'
  | commit_finish clock run worker allowed epoch output error_code record db' :
      finish_run clock run worker allowed epoch output error_code db = Ok (record, db') →
      store_commit db db db'.
Definition store_step (db db' : Db) : Prop := ∃ locked, store_commit db locked db'.

Lemma step_free db db' : lock_free db db' → store_step db db'.
Proof. intros. exists db. by apply commit_free. Qed.
Lemma step_admit db run_id now created_at updated_at tenant key request gmax tmax adm db' :
  length (nr_module_digest request) = 32%nat →
  (∀ ordinal, db_effects db !! (tenant, run_id, ordinal) = None) →
  admit_run run_id now created_at updated_at tenant key request gmax tmax db = Ok (adm, db') →
  store_step db db'.
Proof. intros. exists db. by eapply commit_admit. Qed.
Lemma step_claim db clock worker allowed slots policy lease db' :
  claim_run clock worker allowed slots policy db = Ok (lease, db') → store_step db db'.
Proof. intros. exists db. by eapply commit_claim. Qed.
Lemma step_reap db clock between policy reaped db' :
  rtc lock_free db (between db) → reap_one clock between policy db = Ok (reaped, db') →
  store_step db db'.
Proof. intros. eexists. by eapply commit_reap. Qed.
Lemma step_finish db clock run worker allowed epoch output error_code record db' :
  finish_run clock run worker allowed epoch output error_code db = Ok (record, db') →
  store_step db db'.
Proof. intros. exists db. by eapply commit_finish. Qed.

(** A fresh installation: tenants and nothing else. *)
Record initial (db : Db) : Prop := {
  in_runs : db_runs db = ∅; in_grants : db_grants db = ∅; in_effects : db_effects db = ∅;
  in_reservations : db_reservations db = ∅; in_events : db_events db = ∅;
  in_seq : db_dispatch_seq db = Some 0;
  in_tenants : ∀ k t, db_tenants db !! k = Some t →
    tenant_check t = true ∧ t_active_count t = 0 ∧ t_last_served_seq t = 0;
}.

Definition reachable (db : Db) : Prop := ∃ db0, initial db0 ∧ rtc store_step db0 db.

(** ** Preservation *)

(** Steps that leave runs and tenants alone. *)
Lemma sched_ok_frame db db' :
  sched_ok db → db_runs db' = db_runs db → db_tenants db' = db_tenants db →
  db_dispatch_seq db' = db_dispatch_seq db →
  (∀ k, is_Some (db_grants db !! k) → is_Some (db_grants db' !! k)) →
  (∀ k, is_Some (db_modules db !! k) → is_Some (db_modules db' !! k)) →
  (∀ k r, db_runs db !! k = Some r → pending (r_state r) = true →
     uncertain k db = false → uncertain k db' = false) →
  sched_ok db'.
Proof.
  intros [Hu Hr Ht Hseq Ha] Hruns Hten Hs Hg Hm He. split.
  - unfold runs_unique. by rewrite Hruns.
  - intros k r. rewrite Hruns. intros Hk. destruct (Hr _ _ Hk) as [Hl Htk Hgk Hmk Hi].
    constructor; rewrite ?Hten; eauto.
  - unfold held_tenant. rewrite Hruns, Hten. apply Ht.
  - rewrite Hs, Hten. apply Hseq.
  - by rewrite (active_sum_ext db).
Qed.

Lemma logs_ok_same db db' :
  logs_ok db → db_runs db' = db_runs db → db_events db' = db_events db → logs_ok db'.
Proof.
  intros Hl Hr He. apply (logs_ok_frame db); [done|done|..]; rewrite Hr; eauto.
Qed.

Lemma uncertain_ext db db' k : db_effects db' = db_effects db → uncertain k db' = uncertain k db.
Proof. intros He. unfold uncertain, effect_in. by rewrite He. Qed.

Lemma grants_evolve_dom m m' (k : Uuid * Uuid) :
  grants_evolve m m' → is_Some (m !! k) → is_Some (m' !! k).
Proof. intros Hev [row Hk]. destruct (Hev _ _ Hk) as (row' & ? & _). eauto. Qed.

Lemma db_moves_same db db' :
  db_runs db' = db_runs db → db_tenants db' = db_tenants db → db_moves db db'.
Proof.
  intros Hr Ht. unfold db_moves. rewrite Hr, Ht. apply (db_moves_refl db).
Qed.

(** Grant operations touch neither runs nor tenants. *)
Lemma grant_step_ok db db' :
  db_ok db → ledger_ok db' → grants_evolve (db_grants db) (db_grants db') →
  db_runs db' = db_runs db → db_tenants db' = db_tenants db →
  db_dispatch_seq db' = db_dispatch_seq db → db_modules db' = db_modules db →
  db_events db' = db_events db →
  (∀ k, uncertain k db' = uncertain k db) →
  db_ok db' ∧ db_moves db db'.
Proof.
  intros (Hs & Hl & _) Hled Hev Hr Ht Hsq Hm He Hun. split.
  - split_and!; [|by apply (logs_ok_same db)|done].
    apply (sched_ok_frame db); try done; rewrite ?Hm; auto.
    + intros k. by apply grants_evolve_dom.
    + intros k r _ _. by rewrite Hun.
  - by apply db_moves_same.
Qed.

(** Writing one effect, when it does not make a waiting run uncertain and keeps
    the charge. *)
Lemma with_effect_ok db tenant run ordinal e :
  db_ok db →
  (∀ r, db_runs db !! (tenant, run) = Some r → pending (r_state r) = true →
     e_state e ∉ uncertain_states) →
  e_reservation_charged e =
    match db_effects db !! (tenant, run, ordinal) with
    | Some e0 => e_reservation_charged e0 | None => false end →
  db_ok (with_effects <[(tenant, run, ordinal) := e]> db).
Proof.
  intros (Hs & Hl & Hled) Hcertain Hch. split_and!; [|by apply (logs_ok_same db)|].
  - apply (sched_ok_frame db); try done. intros [t ru] r Hr Hp.
    rewrite <-!not_true_iff_false. unfold uncertain.
    rewrite !effect_in_true. intros Hn (o & e0 & He0 & Hin). apply Hn. simpl in *.
    destruct (decide ((t, ru, o) = (tenant, run, ordinal))) as [[= -> -> ->]|Hne].
    + rewrite lookup_insert_eq in He0. injection He0 as <-. by destruct (Hcertain _ Hr Hp).
    + rewrite lookup_insert_ne in He0 by done. eauto.
  - apply (ledger_ok_frame db); try done; simpl; [..|by eauto].
    + intros k e0. destruct (decide (k = (tenant, run, ordinal))) as [->|Hne].
      * rewrite lookup_insert_eq. intros [= <-] Hc. rewrite Hch in Hc. case_match; eauto. done.
      * rewrite lookup_insert_ne by done. eauto.
    + intros k e0 He0 Hc. destruct (decide (k = (tenant, run, ordinal))) as [->|Hne].
      * exists e. rewrite lookup_insert_eq. rewrite He0 in Hch. split; congruence.
      * exists e0. by rewrite lookup_insert_ne.
Qed.

Lemma environment_ok db db' : db_ok db → environment db db' → db_ok db' ∧ db_moves db db'.
Proof.
  intros Hok Henv. pose proof Hok as (Hs & _ & _).
  destruct Henv as [tenant run ordinal e r Hr Hst Hnone Hprep Hch
    |tenant run ordinal e e' r ev re Hr Hpend He Hstep Hch|tenant run r Hr].
  - split; [|by apply db_moves_same]. apply with_effect_ok; [done|..].
    + intros r' _ _. rewrite Hprep. unfold uncertain_states. set_solver.
    + by rewrite Hnone.
  - split; [|by apply db_moves_same]. apply with_effect_ok; [done|..].
    + intros r' Hr' Hp. simplify_eq. congruence.
    + by rewrite He.
  - destruct (so_runs _ Hs _ _ Hr) as [Hlo _ _ _ Hidle].
    eapply (run_update_ok db _ tenant run r (set_cancel r) Hok Hr); simpl; auto.
    + by constructor; auto.
    + destruct Hlo. by constructor.
    + split; [|done|done].
      exists (r_next_event_seq r), (r_last_event_hash r), (set_cancel r). split_and!.
      * simpl. by rewrite lookup_insert_eq.
      * pose proof (rl_check _ Hlo) as Hc. unfold run_check in Hc. bools. lia.
      * simpl. rewrite insert_insert_eq. by destruct r.
Qed.

Lemma lock_free_ok db db' : db_ok db → lock_free db db' → db_ok db' ∧ db_moves db db'.
Proof.
  intros Hok Hstep. pose proof Hok as (Hs & Hl & Hled).
  destruct Hstep as [clock run worker allowed epoch lease_ms hb db' Hop
    |clock run worker allowed epoch db' Hop|tenant digest wasm kind db' Hop
    |id now tenant parent actor authority record db' Hnow Hop
    |now tenant id actor reason record db' Hop|now updated_at request kind db' Hop|db' Henv].
  - by destruct (heartbeat_run_ok _ _ _ _ _ _ _ _ _ Hok Hop) as (? & ? & _).
  - by destruct (mark_run_started_ok _ _ _ _ _ _ _ _ Hok Hop) as (? & ? & _).
  - apply put_module_Ok in Hop as [->|[_ ->]]; [split; [done|apply db_moves_refl]|].
    split; [|by apply db_moves_same]. split_and!.
    + apply (sched_ok_frame db); try done. simpl. intros k Hk. apply lookup_insert_is_Some.
      destruct (decide ((tenant, digest) = k)); eauto.
    + by apply (logs_ok_same db).
    + apply (ledger_ok_frame db); try done; simpl; eauto.
  - destruct (create_grant_ledger _ _ _ _ _ _ _ _ _ Hled Hnow Hop) as [Hled' Hev].
    apply create_grant_Ok in Hop as (l & _ & _ & _ & _ & _ & -> & _); [|apply Hled].
    by apply grant_step_ok.
  - destruct (revoke_grant_ledger _ _ _ _ _ _ _ _ Hled Hop) as [Hled' Hev].
    apply revoke_grant_Ok in Hop as (row & _ & [(t & _ & -> & _)|(_ & _ & _ & ->)]);
      by apply grant_step_ok.
  - destruct (reserve_ledger _ _ _ _ _ _ Hled Hop) as [Hled' Hev].
    apply (reserve_grant_chain_Ok _ _ _ _ _ _ Hled) in Hop
      as (r & l & e & Hr & _ & He & [(_ & _ & ->)|(_ & _ & Hst & _ & db1 & Happ & ->)]);
      [by apply grant_step_ok|].
    destruct Happ as [_ _ _ _ Hf]. rewrite Hf. apply grant_step_ok; try done; simpl.
    + rewrite Hf in Hled'. done.
    + intros [t ru]. unfold uncertain. apply eq_true_iff_eq. rewrite !effect_in_true. simpl.
      split; intros (o & e0 & He0 & Hin); [|exists o].
      * destruct (decide ((t, ru, o) = (res_tenant request, res_run request, res_ordinal request)))
          as [Heq|Hne]; [|rewrite lookup_insert_ne in He0 by done; eauto].
        rewrite Heq, lookup_insert_eq in He0. injection He0 as <-. simplify_eq. eauto.
      * destruct (decide ((t, ru, o) = (res_tenant request, res_run request, res_ordinal request)))
          as [Heq|Hne]; [|exists e0; by rewrite lookup_insert_ne].
        simplify_eq. rewrite lookup_insert_eq. eauto.
  - by apply environment_ok.
Qed.

Lemma admit_step_ok run_id now created_at updated_at tenant key request gmax tmax db adm db' :
  db_ok db → length (nr_module_digest request) = 32%nat →
  (∀ ordinal, db_effects db !! (tenant, run_id, ordinal) = None) →
  admit_run run_id now created_at updated_at tenant key request gmax tmax db = Ok (adm, db') →
  db_ok db' ∧ db_moves db db'.
Proof.
  intros Hok Hdig Heff Hadm. pose proof Hok as (Hs & Hl & Hled).
  apply admit_run_Ok in Hadm as (_ & _ & t & Ht & [(id & r & _ & -> & _)|
    (_ & Hkey & Hid & Hcheck & Hmod & Hlive & _ & _ & -> & _)]);
    [split; [done|apply db_moves_refl]|].
  set (row := new_run_row key request created_at updated_at) in *.
  pose proof (run_by_id_None db tenant run_id Hid) as Hfresh.
  assert (∀ k, uncertain k (admitted tenant run_id row db) = uncertain k db) as Hun
    by (intros k; by apply uncertain_ext).
  assert (∀ tn, held_tenant tn (admitted tenant run_id row db) = held_tenant tn db) as Hheld.
  { intros tn. unfold held_tenant. rewrite count_admitted by done. unfold count_one.
    rewrite decide_False; [lia|]. by intros [_ ?]. }
  split; [split_and!|].
  - destruct Hs as [Hu Hr Hten Hseq Ha]. split; [by apply runs_unique_admitted|..|exact Hseq|exact Ha].
    + intros k r. destruct (decide (k = (tenant, run_id))) as [->|Hne].
      * rewrite admitted_row. intros [= <-]. constructor; simpl; [|by eauto|.. |].
        -- apply run_local_head; [apply sha256_length|]. by constructor.
        -- unfold grant_live in Hlive. by destruct (db_grants db !! _).
        -- done.
        -- intros _. rewrite Hun. apply not_true_is_false. unfold uncertain.
           intros (o & e & He & _)%effect_in_true. simpl in He. by rewrite Heff in He.
      * rewrite admitted_other by done. intros [Hlo Htk Hgk Hmk Hi]%Hr.
        constructor; rewrite ?Hun; auto.
    + intros tn t0 Ht0. rewrite Hheld. by apply Hten.
  - by apply logs_ok_admitted.
  - by apply ledger_ok_admitted.
  - split; [|apply (db_moves_refl db)]. intros k r Hk. exists r.
    rewrite admitted_other by congruence. split; [done|apply row_moves_refl].
Qed.

Lemma lock_free_star_ok db db' :
  db_ok db → rtc lock_free db db' → db_ok db' ∧ rtc db_moves db db'.
Proof.
  intros Hok. induction 1 as [|db db1 db' Hstep _ IH]; [done|].
  destruct (lock_free_ok _ _ Hok Hstep) as [Hok1 Hm1]. destruct (IH Hok1) as [Hok' Hm'].
  split; [done|]. by eapply rtc_l.
Qed.

(** A reap that chose a candidate acts on the state it locked it in. *)
Lemma reap_one_locks clock between policy db x db' :
  db_ok db → db_ok (between db) → reap_one clock between policy db = Ok (x, db') →
  db_ok db' ∧ db_moves (reap_locks clock between policy db) db'.
Proof.
  intros Hok Hbetween Hp. unfold reap_one in Hp.
  apply tx_bind_Ok in Hp as ([] & db0 & [_ ->]%tx_fail_if_Ok & Hp).
  apply tx_bind_Ok in Hp as ([] & db0 & [_ ->]%begin_scheduler_Ok & Hp).
  apply tx_bind_Ok in Hp as (g & db0 & [-> ->]%tx_gets_Ok & Hp).
  apply tx_bind_Ok in Hp as (w & db0 & [-> ->]%tx_gets_Ok & Hp). unfold reap_locks.
  destruct (if queued_global db <? _ then _ else _) as [[tenant run]|].
  { by apply promote_run_ok in Hp as (? & ? & _). }
  apply tx_bind_Ok in Hp as (c & db0 & [-> ->]%tx_gets_Ok & Hp).
  destruct (expired_candidate _ db) as [[tenant run]|].
  - apply tx_bind_Ok in Hp as ([] & db0 & ->%tx_modify_Ok & Hp).
    by apply reap_selected_ok in Hp as (? & ? & _).
  - apply tx_ret_Ok in Hp as [-> ->]. split; [done|apply db_moves_refl].
Qed.

Lemma reap_locks_free clock between policy db :
  rtc lock_free db (between db) → rtc lock_free db (reap_locks clock between policy db).
Proof. intros. unfold reap_locks. by repeat case_match. Qed.

Lemma store_commit_ok db locked db' :
  db_ok db → store_commit db locked db' →
  db_ok db' ∧ rtc lock_free db locked ∧ db_moves locked db'.
Proof.
  intros Hok Hstep. destruct Hstep as [db' Hop|run_id now ca ua tenant key request gmax tmax adm
    db' Hdig Heff Hop|clock worker allowed slots policy lease db' Hop
    |clock between policy reaped db' Hbetween Hop
    |clock run worker allowed epoch output error_code record db' Hop].
  - by destruct (lock_free_ok _ _ Hok Hop).
  - by destruct (admit_step_ok _ _ _ _ _ _ _ _ _ _ _ _ Hok Hdig Heff Hop).
  - by destruct (claim_run_ok _ _ _ _ _ _ _ _ Hok Hop) as (? & ? & _).
  - destruct (lock_free_star_ok _ _ Hok Hbetween) as [Hokb _].
    destruct (reap_one_locks _ _ _ _ _ _ Hok Hokb Hop). by split_and!; [|apply reap_locks_free|].
  - by destruct (finish_run_ok _ _ _ _ _ _ _ _ _ _ Hok Hop) as (? & ? & _).
Qed.

Lemma store_step_ok db db' : db_ok db → store_step db db' → db_ok db' ∧ rtc db_moves db db'.
Proof.
  intros Hok [locked Hstep]. destruct (store_commit_ok _ _ _ Hok Hstep) as (Hok' & Hfree & Hm).
  split; [done|]. destruct (lock_free_star_ok _ _ Hok Hfree) as [_ Hms].
  etrans; [exact Hms|by apply rtc_once].
Qed.

Lemma initial_ok db : initial db → db_ok db.
Proof.
  intros [Hr Hg He Hres Hev Hseq Hten]. split_and!.
  - split.
    + intros k k' r r'. by rewrite Hr, lookup_empty.
    + intros k r. by rewrite Hr, lookup_empty.
    + intros tenant t Ht. destruct (Hten _ _ Ht) as (? & Hc & _). split; [done|].
      unfold held_tenant. by rewrite Hr, count_rows_empty, Hc.
    + exists 0. unfold i64_max. split_and!; [done|lia|lia|]. intros tenant t Ht.
      destruct (Hten _ _ Ht) as (_ & _ & ->). lia.
    + assert (active_sum db = 0) as ->; [|lia].
      unfold active_sum. revert Hten. generalize (db_tenants db) as m.
      induction m as [|k t m Hk IH] using map_ind; intros Hm; [by rewrite map_fold_empty|].
      rewrite map_fold_insert_L; [|intros; lia|done].
      rewrite IH; [|intros k' t' Hk'; apply (Hm k'); rewrite lookup_insert_ne; congruence].
      destruct (Hm k t) as (_ & -> & _); [by rewrite lookup_insert_eq|]. lia.
  - split.
    + intros tenant run row. by rewrite Hr, lookup_empty.
    + intros tenant run seq _. by rewrite Hev, lookup_empty.
  - split.
    + split; [intros k row|intros tenant id row]; by rewrite Hg, lookup_empty.
    + intros tenant id row. by rewrite Hg, lookup_empty.
    + intros tenant run ordinal e. by rewrite He, lookup_empty.
    + intros tenant run ordinal id. rewrite Hres. set_solver.
Qed.

Lemma steps_ok db db' : db_ok db → rtc store_step db db' → db_ok db' ∧ rtc db_moves db db'.
Proof.
  intros Hok. induction 1 as [|db db1 db' Hstep _ IH]; [done|].
  destruct (store_step_ok _ _ Hok Hstep) as [Hok1 Hm1]. destruct (IH Hok1) as [Hok' Hm'].
  split; [done|]. by etrans.
Qed.

Lemma reachable_ok db : reachable db → db_ok db.
Proof. intros (db0 & Hin & Hsteps). by apply (steps_ok db0); [apply initial_ok|]. Qed.

(** ** Histories of one run *)

(** The states of a run along a history, each step allowed by the state machine. *)
Lemma moves_history db db' k r :
  rtc db_moves db db' → db_runs db !! k = Some r →
  ∃ r' h, db_runs db' !! k = Some r' ∧ run_history (r_state r) h (r_state r') ∧
    r_lease_epoch r ≤ r_lease_epoch r' ∧
    r_idempotency_key r' = r_idempotency_key r ∧ r_request_hash r' = r_request_hash r ∧
    r_grant_id r' = r_grant_id r ∧
    (r_lease_epoch r' = r_lease_epoch r → r_active_slot_held r' = true →
     r_active_slot_held r = true ∧ r_lease_owner r' = r_lease_owner r).
Proof.
  intros Hm. revert r. induction Hm as [db|db db1 db' Hstep _ IH]; intros r Hr.
  - exists r, []. split_and!; auto; [constructor|lia].
  - destruct (proj1 Hstep _ _ Hr) as (r1 & Hr1 & []).
    destruct (IH _ Hr1) as (r' & h & Hr' & Hh & He & Hk & Hq & Hg & Hf).
    exists r'. destruct rm_state as [Heq|Htr].
    + exists h. rewrite <-Heq. split_and!; try congruence; try lia.
      intros Hee Hheld. destruct Hf as [Hh1 Ho1]; [lia|done|].
      destruct rm_fence as [Hh0 Ho0]; [lia|done|]. split; [done|congruence].
    + exists ((uncertain k db, false, r_state r1) :: h). split_and!; try congruence; try lia.
      * econstructor; [by constructor|done].
      * intros Hee Hheld. destruct Hf as [Hh1 Ho1]; [lia|done|].
        destruct rm_fence as [Hh0 Ho0]; [lia|done|]. split; [done|congruence].
Qed.
End system.
