(* ===== verification/Guarantees.v ===== *)
(** * Guarantees: what holds in every history of the store

    Theorems over the transition system of [System]: the invariant and the slot
    bounds, exclusive leases and their fencing, the refinement of the run state
    machine, reconciliation of uncertain effects, and the budget that a grant's
    whole subtree shares. *)
From S2P Require Export System.

(** ** Counting slots *)

(** All slots held. *)
Definition held_total (db : Db) : Z :=
  count_rows (λ kv : Uuid * Uuid * RunRow, r_active_slot_held kv.2 = true) (db_runs db).

Lemma count_rows_split `{Countable K} {A} (P Q R : K * A → Prop) `{∀ kv, Decision (P kv)}
    `{∀ kv, Decision (Q kv)} `{∀ kv, Decision (R kv)} (m : gmap K A) :
  (∀ kv, R kv ↔ P kv ∨ Q kv) → (∀ kv, P kv → ¬ Q kv) →
  count_rows R m = count_rows P m + count_rows Q m.
Proof.
  intros HR Hdisj. induction m as [|k a m Hk IH] using map_ind.
  { by rewrite !count_rows_empty. }
  rewrite !count_rows_insert_None by done. rewrite IH. unfold count_one.
  specialize (HR (k, a)). specialize (Hdisj (k, a)).
  destruct (decide (P (k, a))), (decide (Q (k, a))), (decide (R (k, a))); try lia; tauto.
Qed.

(** The tenants' counters add up to the slots held. *)
Lemma held_total_sum db : sched_ok db → held_total db = active_sum db.
Proof.
  intros Hs.
  assert (∀ m : gmap Uuid TenantRow,
    (∀ k t, m !! k = Some t → t_active_count t = held_tenant k db) →
    count_rows (λ kv : Uuid * Uuid * RunRow, kv.1.1 ∈ dom m ∧ r_active_slot_held kv.2 = true)
      (db_runs db) = count_sum m) as Hsum.
  { intros m. unfold count_sum.
    induction m as [|k t m Hk IH] using map_ind; intros Hm.
    - rewrite map_fold_empty. apply count_rows_zero. intros k r _ [Hin _].
      rewrite dom_empty_L in Hin. set_solver.
    - rewrite map_fold_insert_L; [|intros; lia|done].
      rewrite <-IH by (intros k' t' Hk'; apply Hm; rewrite lookup_insert_ne; congruence).
      rewrite (Hm k t) by (by rewrite lookup_insert_eq). unfold held_tenant.
      apply count_rows_split.
      + intros kv. rewrite dom_insert_L. set_solver.
      + intros kv [<- _] [Hin _]. by apply not_elem_of_dom in Hk. }
  unfold held_total, active_sum. fold (count_sum (db_tenants db)).
  rewrite <-Hsum by (intros k t Ht; by apply (so_tenants _ Hs)).
  unfold count_rows. do 2 f_equal. apply map_filter_ext. intros k r Hr. simpl.
  split; [|tauto]. intros Hheld. split; [|done]. apply elem_of_dom.
  apply (ro_tenant _ _ _ (so_runs _ Hs _ _ Hr)).
Qed.

Section guarantees.
Context `{PgTime, !PgTimeLaws, LimitsJson, Sha256, !Sha256Laws}.

Lemma steps_reachable db db' : reachable db → rtc store_step db db' → reachable db'.
Proof. intros (db0 & ? & ?) ?. exists db0. split; [done|]. by etrans. Qed.

(** Only the holder of the current, released-or-superseded-free lease is heard. *)
Lemma fenced_row db later tenant run r epoch :
  db_ok db → db_runs db !! (tenant, run) = Some r →
  epoch < r_lease_epoch r ∨ (epoch = r_lease_epoch r ∧ r_active_slot_held r = false) →
  rtc store_step db later →
  ∃ r', db_runs later !! (tenant, run) = Some r' ∧
    ∀ worker now, holds_lease worker epoch now r' = false.
Proof.
  intros Hok Hr Hfenced Hsteps. destruct (steps_ok _ _ Hok Hsteps) as [_ Hmoves].
  destruct (moves_history _ _ _ _ Hmoves Hr) as (r' & h & Hr' & _ & Hle & _ & _ & _ & Hf).
  exists r'. split; [done|]. intros worker now. apply not_true_is_false.
  intros (_ & He & _ & Hheld)%holds_lease_true.
  destruct Hfenced as [?|[-> Hn]]; [lia|]. destruct (Hf He Hheld). congruence.
Qed.

Lemma run_tenant_unique db tenant run r allowed tenant' db' :
  sched_ok db → db_runs db !! (tenant, run) = Some r →
  run_tenant run allowed db = Ok (tenant', db') → tenant' = tenant.
Proof.
  intros Hs Hr (-> & _ & r' & Hr')%run_tenant_Ok.
  pose proof (so_unique _ Hs _ _ _ _ Hr Hr' (or_intror eq_refl)) as Heq. by injection Heq.
Qed.

(** The candidate query picks the least recently served eligible tenant. *)
Lemma claim_candidate_least allowed per_tenant max_attempts db tenant run t :
  claim_candidate allowed per_tenant max_attempts db = Some (tenant, run) →
  db_tenants db !! tenant = Some t →
  ∀ other t' run', db_tenants db !! other = Some t' →
    eligible allowed per_tenant max_attempts db (other, t') = Some run' →
    t_last_served_seq t ≤ t_last_served_seq t'.
Proof.
  unfold claim_candidate. intros ([[tn seq] ru] & Hmin & [= -> ->])%fmap_Some Ht other t' run' Ht' Hel.
  apply min_by_Some in Hmin as [Hin Hleast].
  apply list_elem_of_omap in Hin as ([tn' t0] & Hin & Hel0). apply elem_of_map_to_list in Hin.
  assert (tn = tn' ∧ seq = t_last_served_seq t0) as [-> ->].
  { unfold eligible in Hel0. case_match; [|done]. simpl in *.
    apply bind_Some in Hel0 as (? & _ & Heq). injection Heq as <- <- _. done. }
  simplify_eq. destruct run' as [[o seq'] ro].
  assert (o = other ∧ seq' = t_last_served_seq t') as [-> ->].
  { unfold eligible in Hel. case_match; [|done]. simpl in *.
    apply bind_Some in Hel as (? & _ & Heq). injection Heq as <- <- _. done. }
  assert ((other, t_last_served_seq t', ro) ∈
    omap (eligible allowed per_tenant max_attempts db) (map_to_list (db_tenants db))) as Hx.
  { apply list_elem_of_omap. exists (other, t'). split; [by apply elem_of_map_to_list|done]. }
  specialize (Hleast _ Hx). unfold lex_le in Hleast. simpl in Hleast. bools. lia.
Qed.

Lemma least_expiry_le tenant ids deadline db id g :
  id ∈ ids → db_grants db !! (tenant, id) = Some g →
  least_expiry tenant ids deadline db ≤ gr_expires_at g.
Proof.
  intros Hin Hg. induction ids as [|i ids IH]; [by apply not_elem_of_nil in Hin|].
  simpl. apply elem_of_cons in Hin as [->|Hin].
  - rewrite Hg. lia.
  - specialize (IH Hin). destruct (db_grants db !! (tenant, i)); lia.
Qed.

Lemma least_expiry_deadline tenant ids deadline db :
  least_expiry tenant ids deadline db ≤ deadline.
Proof. induction ids as [|i ids IH]; simpl; [lia|]. case_match; lia. Qed.

Lemma grants_live_all clock tenant ids db id :
  grants_live clock tenant ids db = true → id ∈ ids →
  ∃ i g, db_grants db !! (tenant, id) = Some g ∧ gr_revoked_at g = None ∧
    clock i < gr_expires_at g.
Proof.
  revert clock. induction ids as [|i ids IH]; intros clock Hlive Hin;
    [by apply not_elem_of_nil in Hin|].
  simpl in Hlive. apply andb_true_iff in Hlive as [Hi Hrest].
  apply elem_of_cons in Hin as [->|Hin].
  2:{ destruct (IH _ Hrest Hin) as (j & g & ? & ? & ?). by exists (S j), g. }
  unfold grant_live in Hi. destruct (db_grants db !! (tenant, i)) as [g|]; [|done].
  bools. by exists 0%nat, g.
Qed.
End guarantees.

(** ** A concrete history *)

Module SysDemo.
Import Reference PgReference.

Definition at_ (t : Z) : nat → Z := λ _, t.
Definition policy : ClaimPolicy := mkClaimPolicy 4 1 3 5000.
Definition reap_policy : ReapPolicy := mkReapPolicy 3 5 2.
Definition late : Z := Demo.now + 10000000.

Definition claim : StoreTx (option Lease) :=
  claim_run (at_ Demo.now) "worker" [Demo.tenant] 1 policy.
Definition leased_db : Db := Eval vm_compute in tx_state claim AdmitDemo.queued_db.
Definition start : StoreTx unit :=
  mark_run_started (at_ Demo.now) 20 "worker" [Demo.tenant] 1.
Definition running_db : Db := Eval vm_compute in tx_state start leased_db.
Definition finish (now : Z) : StoreTx RunRecord :=
  finish_run (at_ now) 20 "worker" [Demo.tenant] 1 (Some [x07]) None.
Definition finished_db : Db := Eval vm_compute in tx_state (finish Demo.now) running_db.
Definition reap : StoreTx (option (Uuid * Reaped)) := reap_one (at_ late) (λ db, db) reap_policy.
Definition reaped_db : Db := Eval vm_compute in tx_state reap running_db.

Definition lease : Lease := {|
  l_tenant := Demo.tenant; l_run := 20; l_epoch := 1;
  l_expires_at := pg_to_char (Demo.now + 5000000); l_module_digest := replicate 32 x00;
  l_module := [x00]; l_input := [x01]; l_limits_json := limits_jsonb Limits_default;
|}.

Lemma claimed : claim AdmitDemo.queued_db = Ok (Some lease, leased_db).
Proof. vm_compute. reflexivity. Qed.
Lemma started : start leased_db = Ok ((), running_db).
Proof. vm_compute. reflexivity. Qed.
Lemma reaped : reap running_db = Ok (Some (20, Requeued), reaped_db).
Proof. vm_compute. reflexivity. Qed.

Lemma initial_demo : initial Demo.empty_db.
Proof.
  split; try reflexivity. intros k t Ht. unfold Demo.empty_db in Ht. simpl in Ht.
  apply lookup_singleton_Some in Ht as [_ <-]. by vm_compute.
Qed.

Lemma queued_reachable : reachable AdmitDemo.queued_db.
Proof.
  exists Demo.empty_db. split; [apply initial_demo|].
  eapply rtc_l; [eapply step_free, free_create, Demo.root_create; apply Demo.clock|].
  eapply rtc_l; [eapply step_free, free_create, Demo.child_create; apply Demo.clock|].
  apply rtc_once. eapply step_admit, AdmitDemo.admitted_run; [reflexivity|].
  intros ordinal. assert (db_effects Demo.child_db = ∅) as -> by (vm_compute; reflexivity).
  apply lookup_empty.
Qed.

Lemma leased_steps : rtc store_step AdmitDemo.queued_db leased_db.
Proof. apply rtc_once. eapply step_claim, claimed. Qed.
Lemma running_steps : rtc store_step leased_db running_db.
Proof. apply rtc_once. eapply step_free, free_started, started. Qed.
Lemma reaped_steps : rtc store_step running_db reaped_db.
Proof. apply rtc_once. eapply step_reap, reaped. apply rtc_refl. Qed.

Lemma running_reachable : reachable running_db.
Proof.
  eapply steps_reachable; [apply queued_reachable|].
  etrans; [apply leased_steps|apply running_steps].
Qed.
Lemma reaped_reachable : reachable reaped_db.
Proof. eapply steps_reachable; [apply running_reachable|apply reaped_steps]. Qed.

Lemma demo_steps : rtc store_step AdmitDemo.queued_db reaped_db.
Proof. etrans; [apply leased_steps|]. etrans; [apply running_steps|apply reaped_steps]. Qed.

(** The running run's first effect is prepared and charged. *)
Definition prepared_db : Db := Eval vm_compute in
  with_effects <[(Demo.tenant, 20, 0) := Demo.effect]> running_db.
Definition charged_db : Db := Eval vm_compute in
  tx_state (reserve_grant_chain Demo.now Demo.now Demo.request) prepared_db.
Lemma charged :
  reserve_grant_chain Demo.now Demo.now Demo.request prepared_db =
    Ok (ReservationCreated, charged_db).
Proof. vm_compute. reflexivity. Qed.
Lemma charged_reachable : reachable charged_db.
Proof.
  eapply steps_reachable; [apply running_reachable|].
  eapply rtc_l; [|eapply rtc_once, step_free, free_reserve, charged].
  apply step_free, free_environment.
  assert (prepared_db = with_effects <[(Demo.tenant, 20, 0) := Demo.effect]> running_db) as ->
    by (vm_compute; reflexivity).
  eapply env_prepare; vm_compute; reflexivity.
Qed.
Lemma charged_row : ∃ row, db_grants charged_db !! (Demo.tenant, 10) = Some row ∧
  gr_used_effects row = 1.
Proof. eexists. split; [vm_compute; reflexivity|]. reflexivity. Qed.

Lemma queued_row : ∃ r, db_runs AdmitDemo.queued_db !! (Demo.tenant, 20) = Some r ∧
  r_state r = Queued.
Proof. eexists. split; [vm_compute; reflexivity|]. reflexivity. Qed.

Lemma reaped_row : ∃ r, db_runs reaped_db !! (Demo.tenant, 20) = Some r ∧
  1 = r_lease_epoch r ∧ r_active_slot_held r = false.
Proof. eexists. split; [vm_compute; reflexivity|]. split; reflexivity. Qed.
Lemma requeued_row : ∃ r, db_runs reaped_db !! (Demo.tenant, 20) = Some r ∧ r_state r = Queued.
Proof. eexists. split; [vm_compute; reflexivity|]. reflexivity. Qed.
End SysDemo.

(** ** What the properties are about *)

(** An effect of the run is in flight, or its outcome is not known. *)
Definition may_have_happened (db : Db) (k : Uuid * Uuid) : Prop :=
  ∃ ordinal e, db_effects db !! (k, ordinal) = Some e ∧
    (e_state e = Dispatching ∨ e_state e = OutcomeUnknown).

Lemma uncertain_iff k db : uncertain k db = true ↔ may_have_happened db k.
Proof.
  unfold uncertain, may_have_happened. rewrite effect_in_true, <-surjective_pairing.
  unfold uncertain_states. split; intros (o & e & He & Hs); exists o, e; split; set_solver.
Qed.

(** The effects charged to a run whose grant is [ancestor] or derived from it. *)
Definition charged_below (db : Db) (tenant ancestor : Uuid) (k : Uuid * Uuid * Z) : Prop :=
  k.1.1 = tenant ∧ ∃ e r l, db_effects db !! k = Some e ∧ e_reservation_charged e = true ∧
    db_runs db !! k.1 = Some r ∧ path (db_grants db) tenant (r_grant_id r) l ∧ ancestor ∈ l.*1.

(** The reservations on a grant are the charges below it. *)
Lemma charges_below `{PgTime} db tenant ancestor :
  ledger_ok db →
  ∃ charged : gset (Uuid * Uuid * Z), (∀ k, k ∈ charged ↔ charged_below db tenant ancestor k) ∧
    size charged = size (charges tenant ancestor db).
Proof.
  intros Hok. exists (set_map fst (charges tenant ancestor db)). split.
  - intros [[t run] ordinal]. rewrite elem_of_map. unfold charges, charged_below. split.
    + intros ([k id] & -> & [[Ht Hid] Hin]%elem_of_filter). destruct k as [[t' run'] ordinal'].
      simpl in *. subst t' id. destruct (ledger_effect _ Hok _ _ _ _ Hin) as (e & He & Hch).
      destruct (ledger_charged _ Hok _ _ _ _ He Hch) as (r & l & Hr & Hl & Hids).
      split; [done|]. exists e, r, l. split_and!; auto. by apply Hids.
    + simpl. intros (-> & e & r & l & He & Hch & Hr & Hl & Hin).
      destruct (ledger_charged _ Hok _ _ _ _ He Hch) as (r' & l' & Hr' & Hl' & Hids).
      simplify_eq. rewrite (path_fun _ _ _ Hl' Hl) in Hids.
      exists (tenant, run, ordinal, ancestor). split; [done|]. apply elem_of_filter.
      split; [done|]. by apply Hids.
  - unfold set_map. rewrite size_list_to_set; [by rewrite length_fmap|].
    apply NoDup_fmap_fst; [|apply NoDup_elements].
    intros k id id'. rewrite !elem_of_elements. unfold charges.
    intros [[_ Hi] _]%elem_of_filter [[_ Hi'] _]%elem_of_filter. simpl in *. congruence.
Qed.

(** Charging one more effect below a grant. *)
Lemma charged_below_charge `{PgTime} db db' tenant ancestor run ordinal e' r l :
  ledger_ok db → db_effects db' = <[(tenant, run, ordinal) := e']> (db_effects db) →
  e_reservation_charged e' = true → db_runs db' = db_runs db →
  grants_evolve (db_grants db) (db_grants db') →
  db_runs db !! (tenant, run) = Some r → path (db_grants db) tenant (r_grant_id r) l →
  ancestor ∈ l.*1 →
  ∀ k, charged_below db' tenant ancestor k ↔
    k = (tenant, run, ordinal) ∨ charged_below db tenant ancestor k.
Proof.
  intros Hok Heff Hch' Hruns Hev Hr Hl Hin k. unfold charged_below. rewrite Heff, Hruns. split.
  - intros (Ht & e0 & r0 & l0 & He0 & Hch0 & Hr0 & Hl0 & Hin0).
    destruct (decide (k = (tenant, run, ordinal))) as [->|Hne]; [by left|right].
    rewrite lookup_insert_ne in He0 by done. destruct k as [[t run0] ordinal0]. simpl in *. subst t.
    destruct (ledger_charged _ Hok _ _ _ _ He0 Hch0) as (r1 & l1 & Hr1 & Hl1 & _). simplify_eq.
    split; [done|]. exists e0, r0, l1. split_and!; auto.
    by rewrite <-(path_evolves_ids _ _ _ _ _ _ Hev Hl1 Hl0).
  - assert (∀ leaf l1, path (db_grants db) tenant leaf l1 → ancestor ∈ l1.*1 →
      ∃ l2, path (db_grants db') tenant leaf l2 ∧ ancestor ∈ l2.*1) as Hpath.
    { intros leaf l1 Hl1 Hin1. destruct (path_evolves _ _ _ _ _ Hev Hl1) as (l2 & Hl2 & _).
      exists l2. split; [done|]. by rewrite (path_evolves_ids _ _ _ _ _ _ Hev Hl1 Hl2). }
    intros [->|(Ht & e0 & r0 & l0 & He0 & Hch0 & Hr0 & Hl0 & Hin0)].
    + destruct (Hpath _ _ Hl Hin) as (l2 & ? & ?). split; [done|]. exists e', r, l2.
      by rewrite lookup_insert_eq.
    + destruct (Hpath _ _ Hl0 Hin0) as (l2 & ? & ?). split; [done|].
      destruct (decide (k = (tenant, run, ordinal))) as [->|Hne].
      * exists e', r0, l2. by rewrite lookup_insert_eq.
      * exists e0, r0, l2. by rewrite lookup_insert_ne.
Qed.

(** ** Properties *)

(** C1: the invariant of the store holds in every reachable state.
    From a fresh installation, whatever sequence of admissions, claims,
    heartbeats, starts, reaps (with other transactions in between),
    completions, grant operations and broker writes is committed, the tenants'
    counters equal the slots their runs hold, every run's row is coherent, every
    event log is an unbroken hash chain and the grant ledger adds up. *)
Theorem store_invariant `{PgTime, !PgTimeLaws, LimitsJson, Sha256, !Sha256Laws} db :
  reachable db → db_ok db.
Proof. apply reachable_ok. Qed.

Lemma store_invariant_witness : db_ok SysDemo.running_db.
Proof. apply (store_invariant SysDemo.running_db SysDemo.running_reachable). Defined.

(** C2: delegation cannot multiply a budget.  In every state a history of the
    store leads to, however a grant was delegated further, the effects charged to
    runs of its whole subtree are exactly as many as its own counter says, which
    is at most its budget, which is at most 100.  A reservation for a run of the
    subtree that charges an effect finds the counter below the budget, adds that
    effect and no other to them and raises the counter by one, so once the budget
    is spent no grant of the subtree can be charged again. *)
Theorem subtree_budget `{PgTime, !PgTimeLaws, LimitsJson, Sha256, !Sha256Laws}
    db tenant ancestor row :
  reachable db → db_grants db !! (tenant, ancestor) = Some row →
  (∃ charged : gset (Uuid * Uuid * Z), (∀ k, k ∈ charged ↔ charged_below db tenant ancestor k) ∧
     Z.of_nat (size charged) = gr_used_effects row) ∧
  gr_used_effects row ≤ gr_max_effects row ≤ 100 ∧
  (∀ now updated_at request r l db',
     res_tenant request = tenant → db_runs db !! (tenant, res_run request) = Some r →
     path (db_grants db) tenant (r_grant_id r) l → ancestor ∈ l.*1 →
     reserve_grant_chain now updated_at request db = Ok (ReservationCreated, db') →
     gr_used_effects row < gr_max_effects row ∧
     db_grants db' !! (tenant, ancestor) = Some (set_used (gr_used_effects row + 1) row) ∧
     let k := (tenant, res_run request, res_ordinal request) in
     ¬ charged_below db tenant ancestor k ∧
     ∀ k', charged_below db' tenant ancestor k' ↔ k' = k ∨ charged_below db tenant ancestor k').
Proof.
  intros (_ & _ & Hok)%reachable_ok Hrow.
  pose proof (forest_check _ (ledger_forest _ Hok) _ _ Hrow) as Hcheck.
  unfold grant_check in Hcheck. bools. split_and!; try lia.
  - destruct (charges_below db tenant ancestor Hok) as (charged & Hcharged & Hsize).
    exists charged. split; [done|]. by rewrite Hsize, (ledger_used _ Hok _ _ _ Hrow).
  - intros now updated_at request r l db' <- Hr Hl Hin Hres.
    destruct (reserve_ledger _ _ _ _ _ _ Hok Hres) as [Hok' Hev].
    pose proof (reserve_grant_chain_Ok _ _ _ _ _ _ Hok Hres) as (r2 & l2 & e & Hr2 & Hl2 & He & Hcase).
    simplify_eq. rewrite (path_fun _ _ _ Hl2 Hl) in Hcase.
    destruct Hcase as [(? & _)|(_ & Hch & _ & [_ Hroom] & db1 & Happ & ->)]; [done|].
    apply list_elem_of_fmap in Hin as ([i row'] & -> & Hin).
    pose proof (path_row _ _ _ _ Hl Hin) as Hrow'. simpl in *. simplify_eq. split_and!.
    + by destruct (Hroom _ (list_elem_of_fmap_2 (to_grant _) _ _ Hin)).
    + exact (applied_row _ _ _ _ _ _ _ _ _ Hl Happ Hin).
    + intros [_ (e' & ? & ? & He' & Hch' & _)]. simpl in He'. simplify_eq. congruence.
    + pose proof (pa_frame _ _ _ _ _ _ Happ) as Hframe.
      apply (charged_below_charge db _ _ _ _ _ (set_charged updated_at e) r l); try done.
      * simpl. by rewrite Hframe.
      * simpl. by rewrite Hframe.
      * by apply (list_elem_of_fmap_2 fst _ (i, row)).
Qed.

Lemma subtree_budget_witness :
  ∃ row, db_grants SysDemo.charged_db !! (Demo.tenant, 10) = Some row ∧
    gr_used_effects row = 1 ∧
    ∃ charged : gset (Uuid * Uuid * Z), Z.of_nat (size charged) = gr_used_effects row.
Proof.
  destruct SysDemo.charged_row as (row & Hrow & Hused). exists row.
  split; [exact Hrow|]. split; [exact Hused|].
  destruct (proj1 (subtree_budget _ _ _ _ SysDemo.charged_reachable Hrow)) as (charged & _ & Hs).
  exists charged. exact Hs.
Defined.

(** C34: concurrency stays within its bounds.  In every reachable state at
    most four slots are held in all, a tenant holds no more than its own limit,
    and a slot is held exactly by the leased and running runs, each with an
    owner and a deadline, in one of its first three attempts, numbered by its
    lease epoch. *)
Theorem slots_bounded `{PgTime, !PgTimeLaws, LimitsJson, Sha256, !Sha256Laws} db :
  reachable db →
  held_total db ≤ 4 ∧ held_total db = active_sum db ∧
  (∀ tenant t, db_tenants db !! tenant = Some t →
     held_tenant tenant db = t_active_count t ∧ held_tenant tenant db ≤ t_active_limit t) ∧
  (∀ k r, db_runs db !! k = Some r →
     (r_active_slot_held r = true ↔ r_state r = Leased ∨ r_state r = Running) ∧
     (r_active_slot_held r = true ↔ is_Some (r_lease_owner r)) ∧
     (r_active_slot_held r = true ↔ is_Some (r_lease_expires_at r)) ∧
     r_lease_epoch r = r_attempt r ∧ 0 ≤ r_attempt r ≤ 3).
Proof.
  intros (Hs & _ & _)%reachable_ok. rewrite (held_total_sum db Hs).
  split_and!; [apply Hs|done|..].
  - intros tenant t Ht. destruct (so_tenants _ Hs _ _ Ht) as [Hc Hcount].
    unfold tenant_check in Hc. bools. split; lia.
  - intros k r Hr. destruct (ro_local _ _ _ (so_runs _ Hs _ _ Hr)) as [Hc Hslot Hlease Hep _].
    unfold run_check in Hc. bools. split_and!; try lia.
    + rewrite Hslot. split; [|by intros [-> | ->]]. destruct (r_state r); simpl; auto; discriminate.
    + destruct (r_active_slot_held r); [by destruct Hlease|].
      destruct Hlease as [-> _]. split; [done|]. by intros [? ?].
    + destruct (r_active_slot_held r); [by destruct Hlease|].
      destruct Hlease as [_ ->]. split; [done|]. by intros [? ?].
Qed.

Lemma slots_bounded_witness : held_total SysDemo.running_db ≤ 4.
Proof. exact (proj1 (slots_bounded SysDemo.running_db SysDemo.running_reachable)). Defined.

(** C8: a lease that has ended is never heard again.  Once a run's epoch has
    moved on, or its slot has been released, then in every later state each
    heartbeat, start and completion that quotes the old epoch is refused,
    whoever sends it and whenever; and what is accepted comes from the recorded
    owner of the current epoch before its deadline. *)
Theorem lease_fencing `{PgTime, !PgTimeLaws, LimitsJson, Sha256, !Sha256Laws}
    db later tenant run r epoch :
  reachable db → db_runs db !! (tenant, run) = Some r →
  epoch < r_lease_epoch r ∨ (epoch = r_lease_epoch r ∧ r_active_slot_held r = false) →
  rtc store_step db later →
  ∀ clock worker allowed lease_ms output error_code,
    is_ok (heartbeat_run clock run worker allowed epoch lease_ms later) = false ∧
    is_ok (mark_run_started clock run worker allowed epoch later) = false ∧
    is_ok (finish_run clock run worker allowed epoch output error_code later) = false.
Proof.
  intros Hok%reachable_ok Hr Hfenced Hsteps clock worker allowed lease_ms output error_code.
  destruct (fenced_row _ _ _ _ _ _ Hok Hr Hfenced Hsteps) as (r' & Hr' & Hno).
  destruct (steps_ok _ _ Hok Hsteps) as [Hok' _].
  assert (∀ tenant' r0, db_runs later !! (tenant', run) = Some r0 → r0 = r') as Huniq.
  { intros tenant' r0 Hr0.
    pose proof (so_unique _ (proj1 Hok') _ _ _ _ Hr' Hr0 (or_intror eq_refl)). congruence. }
  split_and!.
  - destruct (heartbeat_run _ _ _ _ _ _ later) as [[hb db']|e] eqn:Hop; [|done].
    apply heartbeat_run_ok in Hop as (_ & _ & tn & r0 & _ & _ & Hr0 & Hl & _); [|done].
    rewrite (Huniq _ _ Hr0), Hno in Hl. done.
  - destruct (mark_run_started _ _ _ _ _ later) as [[u db']|e] eqn:Hop; [|done].
    apply mark_run_started_ok in Hop as (_ & _ & tn & r0 & _ & _ & Hr0 & Hl & _); [|done].
    rewrite (Huniq _ _ Hr0), Hno in Hl. done.
  - destruct (finish_run _ _ _ _ _ _ _ later) as [[rec db']|e] eqn:Hop; [|done].
    apply finish_run_ok in Hop as (_ & _ & tn & r0 & _ & _ & Hr0 & Hl & _); [|done].
    rewrite (Huniq _ _ Hr0), Hno in Hl. done.
Qed.

Lemma lease_fencing_witness :
  is_ok (SysDemo.finish SysDemo.late SysDemo.reaped_db) = false.
Proof.
  destruct SysDemo.reaped_row as (r & Hr & He & Hh).
  exact (proj2 (proj2 (lease_fencing SysDemo.reaped_db SysDemo.reaped_db Demo.tenant 20 r 1
    SysDemo.reaped_reachable Hr (or_intror (conj He Hh)) (rtc_refl _ _)
    (SysDemo.at_ SysDemo.late) "worker" [Demo.tenant] 1 (Some [x07]) None))).
Defined.

(** C7: a claim is exclusive and authorized.  A lease is only granted for a
    queued run of an allowed tenant with no uncertain effect, below the global
    limit, whose whole grant ancestry is live; it carries a new epoch, larger
    than that of every earlier lease of the run and smaller than that of every
    later one, its deadline lies within the requested term and within the
    deadline of every grant of the ancestry, and what it tells the worker to run
    is the run's own module, input and limits, the module its tenant uploaded. *)
Theorem claim_exclusive `{PgTime, !PgTimeLaws, LimitsJson, Sha256, !Sha256Laws}
    db clock worker allowed slots policy lease db' :
  reachable db → claim_run clock worker allowed slots policy db = Ok (Some lease, db') →
  l_tenant lease ∈ allowed ∧ held_total db < cp_max_active_global policy ∧
  uncertain (l_tenant lease, l_run lease) db = false ∧
  (∃ r r' expires l,
     db_runs db !! (l_tenant lease, l_run lease) = Some r ∧
     db_runs db' !! (l_tenant lease, l_run lease) = Some r' ∧
     r_state r = Queued ∧ r_state r' = Leased ∧ r_lease_owner r' = Some worker ∧
     l_epoch lease = r_lease_epoch r + 1 ∧ r_lease_epoch r' = l_epoch lease ∧
     r_lease_expires_at r' = Some expires ∧
     expires ≤ clock 5%nat + cp_lease_ms policy * 1000 ∧
     path (db_grants db) (l_tenant lease) (r_grant_id r) l ∧
     l_module_digest lease = r_module_digest r ∧
     db_modules db !! (l_tenant lease, r_module_digest r) = Some (l_module lease) ∧
     l_input lease = default [] (r_input_bytes r) ∧ l_limits_json lease = r_limits r ∧
     ∀ id g, (id, g) ∈ l → gr_revoked_at g = None ∧ expires ≤ gr_expires_at g ∧
       ∃ i, clock i < gr_expires_at g) ∧
  (∀ later clock2 worker2 allowed2 slots2 policy2 lease2 later',
     rtc store_step db' later →
     claim_run clock2 worker2 allowed2 slots2 policy2 later = Ok (Some lease2, later') →
     l_tenant lease2 = l_tenant lease → l_run lease2 = l_run lease →
     l_epoch lease < l_epoch lease2).
Proof.
  intros Hok%reachable_ok Hclaim.
  destruct (claim_run_ok _ _ _ _ _ _ _ _ Hok Hclaim) as (Hok' & _ &
    (t & seq & chain & Hcand & Ht & Hact & _ & Hload & Hlive & [Hrow] & _)).
  destruct Hrow as (r & r' & expires & Hr & Hr' & Hq & Hst & Hown & Hep & _ & Hle & Hexp & Hmin &
    Hdig & Hmod & Hinp & Hlim).
  pose proof Hok as (Hs & _ & Hled). rewrite Hr in Hload. simpl in Hload.
  apply load_chain_Ok in Hload as (l & Hl & ->); [|apply Hled].
  split_and!.
  - by apply claim_candidate_Some in Hcand as (? & ? & _ & ? & _).
  - by rewrite (held_total_sum db Hs).
  - apply (ro_idle _ _ _ (so_runs _ Hs _ _ Hr)). by rewrite Hq.
  - exists r, r', expires, l. split_and!; try done; try lia.
    + rewrite Hmin. apply least_expiry_deadline.
    + intros id g Hin. pose proof (path_row _ _ _ _ Hl Hin) as Hg.
      assert (id ∈ g_id <$> (to_grant (l_tenant lease) <$> l)) as Hid.
      { rewrite <-list_fmap_compose. by apply (list_elem_of_fmap_2 (g_id ∘ to_grant _) _ (id, g)). }
      destruct (grants_live_all _ _ _ _ _ Hlive Hid) as (i & g' & Hg' & Hrev & Hlt).
      rewrite Hg in Hg'. injection Hg' as <-. split_and!; [done| |by exists i].
      rewrite Hmin. by eapply least_expiry_le.
  - intros later clock2 worker2 allowed2 slots2 policy2 lease2 later' Hsteps Hclaim2 Htn Hrn.
    destruct (steps_ok _ _ Hok' Hsteps) as [Hokl Hmoves].
    destruct (claim_run_ok _ _ _ _ _ _ _ _ Hokl Hclaim2) as (_ & _ &
      (? & ? & ? & _ & _ & _ & _ & _ & _ & [Hrow2] & _)).
    destruct Hrow2 as (r2 & r2' & ? & Hr2 & _ & _ & _ & _ & Hep2 & _ & Hle2 & _).
    rewrite Htn, Hrn in Hr2.
    destruct (moves_history _ _ _ _ Hmoves Hr') as (r3 & h & Hr3 & _ & Hmono & _).
    simplify_eq. lia.
Qed.

Lemma claim_exclusive_witness :
  held_total AdmitDemo.queued_db < 4 ∧
  uncertain (Demo.tenant, 20) AdmitDemo.queued_db = false.
Proof.
  destruct (claim_exclusive _ _ _ _ _ _ _ _ SysDemo.queued_reachable SysDemo.claimed)
    as (_ & Hheld & Hun & _).
  split; [exact Hheld|exact Hun].
Defined.

(** C17: the store refines the run state machine.  Every transaction
    committed in any history of the store leaves each run's state alone or moves
    it as the domain's [RunState::transition] allows without an explicit resume,
    its [unresolved] flag being whether an effect of that run is in flight or of
    unknown outcome in the state the transaction holds its locks in; and it keeps
    the run's key, request and grant.  So the states a run goes through along a
    history form a history of the state machine, and a terminal run never changes
    its state again. *)
Theorem store_refines_run_states `{PgTime, !PgTimeLaws, LimitsJson, Sha256, !Sha256Laws} db :
  reachable db →
  (∀ locked db' k r, store_commit db locked db' → db_runs locked !! k = Some r →
   ∃ r', db_runs db' !! k = Some r' ∧
     (∃ unresolved, (unresolved = true ↔ may_have_happened locked k) ∧
        (r_state r' = r_state r ∨
         RunState_transition (r_state r) (r_state r') unresolved false = Ok (r_state r'))) ∧
     r_lease_epoch r ≤ r_lease_epoch r' ∧
     r_idempotency_key r' = r_idempotency_key r ∧ r_request_hash r' = r_request_hash r ∧
     r_grant_id r' = r_grant_id r) ∧
  (∀ later k r, rtc store_step db later → db_runs db !! k = Some r →
   ∃ r' h, db_runs later !! k = Some r' ∧ run_history (r_state r) h (r_state r') ∧
     r_lease_epoch r ≤ r_lease_epoch r' ∧
     r_idempotency_key r' = r_idempotency_key r ∧ r_request_hash r' = r_request_hash r ∧
     r_grant_id r' = r_grant_id r ∧
     (RunState_terminal (r_state r) = true → r_state r' = r_state r)).
Proof.
  intros Hok%reachable_ok. split.
  - intros locked db' k r Hc Hr. destruct (store_commit_ok _ _ _ Hok Hc) as (_ & _ & [Hm _]).
    destruct (Hm _ _ Hr) as (r' & Hr' & []). exists r'. split_and!; try done.
    exists (uncertain k locked). split; [apply uncertain_iff|done].
  - intros later k r Hsteps Hr. destruct (steps_ok _ _ Hok Hsteps) as [_ Hmoves].
    destruct (moves_history _ _ _ _ Hmoves Hr) as (r' & h & Hr' & Hh & He & Hk & Hq & Hg & _).
    exists r', h. split_and!; auto. intros Hterm.
    by destruct (run_history_terminal _ _ _ Hh Hterm).
Qed.

Lemma store_refines_run_states_witness :
  ∃ r' h, db_runs SysDemo.reaped_db !! (Demo.tenant, 20) = Some r' ∧
    run_history Queued h (r_state r').
Proof.
  destruct SysDemo.queued_row as (r & Hr & Hq).
  destruct (proj2 (store_refines_run_states _ SysDemo.queued_reachable) _ _ _ SysDemo.demo_steps Hr)
    as (r' & h & Hr' & Hh & _).
  exists r', h. split; [exact Hr'|]. rewrite <-Hq. exact Hh.
Defined.

(** C9: an uncertain remote effect is never replayed automatically.
    When a slot is reaped or a waiting run is promoted, the run goes to
    reconciliation exactly when one of its effects is in flight or of unknown
    outcome, its slot is free afterwards and its epoch is kept; and no run that
    waits to be claimed has such an effect. *)
Theorem reap_never_replays `{PgTime, !PgTimeLaws, LimitsJson, Sha256, !Sha256Laws}
    db clock between policy run outcome db' :
  reachable db → rtc lock_free db (between db) →
  reap_one clock between policy db = Ok (Some (run, outcome), db') →
  (∃ tenant mid r r', (mid = db ∨ mid = between db) ∧
     db_runs mid !! (tenant, run) = Some r ∧ db_runs db' !! (tenant, run) = Some r' ∧
     (may_have_happened mid (tenant, run) ↔ r_state r' = NeedsReconciliation) ∧
     (may_have_happened mid (tenant, run) ↔ outcome = ReapedNeedsReconciliation) ∧
     r_active_slot_held r' = false ∧ r_lease_epoch r' = r_lease_epoch r) ∧
  (∀ k r, db_runs db' !! k = Some r → r_state r = Queued ∨ r_state r = RetryWait →
     ¬ may_have_happened db' k).
Proof.
  intros Hok%reachable_ok Hbetween Hop.
  destruct (lock_free_star_ok _ _ Hok Hbetween) as [Hokb _].
  destruct (reap_one_ok _ _ _ _ _ _ Hok Hokb Hop) as
    (Hok' & mid & Hmid & _ & tenant & [(r & r' & Hr & Hr' & Hheld & Hep & Hun) Hout]).
  split; [exists tenant, mid, r, r'; by rewrite <-uncertain_iff|].
  intros k r0 Hr0 Hst. rewrite <-uncertain_iff, not_true_iff_false.
  apply (ro_idle _ _ _ (so_runs _ (proj1 Hok') _ _ Hr0)). by destruct Hst as [-> | ->].
Qed.

Lemma reap_never_replays_witness : ¬ may_have_happened SysDemo.reaped_db (Demo.tenant, 20).
Proof.
  destruct SysDemo.requeued_row as (r & Hr & Hq).
  refine (proj2 (reap_never_replays SysDemo.running_db (SysDemo.at_ SysDemo.late) (λ db, db)
    SysDemo.reap_policy 20 Requeued SysDemo.reaped_db SysDemo.running_reachable
    (rtc_refl _ _) SysDemo.reaped) _ _ Hr (or_introl Hq)).
Defined.
