(* ===== verification/Progress.v ===== *)
(** * Progress: the scheduler operations succeed

    In every reachable state the operations that take the scheduler lock do not
    fail for internal reasons: no counter, slot or log is ever found corrupt. *)
From S2P Require Export Guarantees.

Lemma is_ok_intro {E A} (r : result E A) : (∃ a, r = Ok a) → is_ok r = true.
Proof. by intros [a ->]. Qed.

(** The counters are far from the end of their range. *)
Definition counters_ok (db : Db) : Prop :=
  (∀ k r, db_runs db !! k = Some r → r_next_event_seq r + 2 ≤ i64_max) ∧
  (∀ seq, db_dispatch_seq db = Some seq → seq < i64_max).

Section progress.
Context `{PgTime, !PgTimeLaws, LimitsJson, Sha256, !Sha256Laws}.

(** Appending one event, and then another, after a statement that kept the
    event head. *)
Lemma append_ok db tenant run kind payload r :
  logs_ok db → db_runs db !! (tenant, run) = Some r → run_check r = true →
  event_size_ok (kind, payload) → r_next_event_seq r < i64_max →
  ∃ h, append_event tenant run kind payload db =
    Ok (h, appended tenant run kind payload r db).
Proof.
  intros Hlogs Hr Hc Hsize Hmax. destruct (proj1 Hlogs _ _ _ Hr) as [log Hlog].
  eexists. by apply (append_event_total _ _ _ _ _ _ _ Hr Hc Hlog).
Qed.

Lemma append2_ok db tenant run k1 p1 k2 p2 r :
  logs_ok db → db_runs db !! (tenant, run) = Some r → run_check r = true →
  event_size_ok (k1, p1) → event_size_ok (k2, p2) → r_next_event_seq r + 2 ≤ i64_max →
  ∃ h1 h2 db', append_event tenant run k1 p1 db = Ok (h1, appended tenant run k1 p1 r db) ∧
    append_event tenant run k2 p2 (appended tenant run k1 p1 r db) = Ok (h2, db').
Proof.
  intros Hlogs Hr Hc Hs1 Hs2 Hmax.
  destruct (append_ok db tenant run k1 p1 r) as [h1 Happ1]; auto; [lia|].
  destruct (append_ok (appended tenant run k1 p1 r db) tenant run k2 p2 _
    (logs_ok_appended _ _ _ _ _ _ Hlogs Hr Hs1) (appended_self _ _ _ _ _ _))
    as [h2 Happ2]; [..|by exists h1, h2; eexists].
  - apply set_event_head_check; [done|apply sha256_length].
  - done.
  - simpl. lia.
Qed.

(** Logs survive an update of the run that keeps its event head. *)
Lemma logs_ok_update db db1 k r r1 :
  logs_ok db → db_runs db !! k = Some r → db_runs db1 = <[k := r1]> (db_runs db) →
  db_events db1 = db_events db → r_next_event_seq r1 = r_next_event_seq r →
  r_last_event_hash r1 = r_last_event_hash r → logs_ok db1.
Proof.
  intros Hlogs Hr Hruns Hev Hn Hh. apply (logs_ok_frame db); [done|done|..]; rewrite Hruns.
  - intros k' r'. destruct (decide (k' = k)) as [->|Hne].
    + rewrite lookup_insert_eq. intros [= <-]. by exists r.
    + rewrite lookup_insert_ne by done. eauto.
  - intros k'. by intros [? _]%lookup_insert_None.
Qed.

Lemma update_run_total tenant run f db r :
  db_runs db !! (tenant, run) = Some r → run_check (f r) = true →
  update_run tenant run (λ _, true) f db = Ok (1, with_runs <[(tenant, run) := f r]> db).
Proof. intros Hr Hc. unfold update_run. by rewrite Hr, Hc. Qed.

(** The CHECK constraint of a run reads none of the scheduler's columns but the
    epoch and the attempt. *)
Lemma set_lease_check st ep ow ex att held now r :
  run_check r = true → 0 ≤ ep → 0 ≤ att ≤ 3 →
  run_check (set_lease st ep ow ex att held now r) = true.
Proof. unfold run_check. simpl. intros. bools. split_and!; auto; lia. Qed.

Lemma run_check_attempt r : run_check r = true → 0 ≤ r_lease_epoch r ∧ 0 ≤ r_attempt r ≤ 3.
Proof. unfold run_check. intros. bools. lia. Qed.

Lemma claim_payload_size epoch worker :
  1 ≤ epoch ≤ 3 → worker_identifier worker = true →
  event_size_ok ("lease.claimed"%string, claim_payload epoch worker).
Proof.
  unfold worker_identifier. intros He Hw. bools.
  split_and!; [done|vm_compute; done|].
  assert (length (json_number epoch) = 1%nat) as Hn.
  { assert (epoch = 1 ∨ epoch = 2 ∨ epoch = 3) as [-> | [-> | ->]] by lia; reflexivity. }
  unfold claim_payload, json_object, json_field, json_string. simpl.
  unfold str_len in *.
  rewrite !length_app. simpl. rewrite !length_app. simpl. rewrite ?length_app, Hn. simpl.
  rewrite ?length_app. simpl. lia.
Qed.

Lemma deny_claim_total now tenant run db r :
  db_ok db → counters_ok db → db_runs db !! (tenant, run) = Some r →
  is_ok (deny_claim now tenant run db) = true.
Proof.
  intros (Hs & Hlogs & _) [Hcnt _] Hr.
  pose proof (rl_check _ (ro_local _ _ _ (so_runs _ Hs _ _ Hr))) as Hc.
  assert (run_check (set_denied now r) = true) as Hc1.
  { destruct (run_check_attempt _ Hc). unfold set_denied, set_state.
    pose proof (set_lease_check Failed (r_lease_epoch r) (r_lease_owner r)
      (r_lease_expires_at r) (r_attempt r) (r_active_slot_held r) now r Hc) as Hx.
    unfold run_check in *. simpl in *. apply Hx; lia. }
  destruct (append2_ok (with_runs <[(tenant, run) := set_denied now r]> db) tenant run
    "grant.denied" (json_object [json_field "reason" (json_string "inactive")])
    "run.failed" (json_object [json_field "state" (json_string "failed");
                  json_field "error_code" (json_string "GRANT_DENIED")])
    (set_denied now r)) as (h1 & h2 & db' & H1' & H2').
  - by eapply (logs_ok_update db _ _ r (set_denied now r)).
  - simpl. by rewrite lookup_insert_eq.
  - done.
  - split_and!; [done|vm_compute; done|vm_compute; done].
  - split_and!; [done|vm_compute; done|vm_compute; done].
  - simpl. apply (Hcnt _ _ Hr).
  - unfold deny_claim, mbind, tx_bind. rewrite (update_run_total _ _ _ _ _ Hr Hc1).
    by rewrite H1', H2'.
Qed.

Lemma set_served_check seq t :
  tenant_check t = true → t_active_count t < t_active_limit t →
  tenant_check (set_served seq t) = true.
Proof. unfold tenant_check. simpl. intros. bools. split_and!; auto; lia. Qed.

Lemma set_slot_freed_check t :
  tenant_check t = true → 0 < t_active_count t → tenant_check (set_slot_freed t) = true.
Proof. unfold tenant_check. simpl. intros. bools. split_and!; auto; lia. Qed.

Lemma grant_lease_total clock worker policy tenant run ids db r t :
  db_ok db → counters_ok db → worker_identifier worker = true →
  db_runs db !! (tenant, run) = Some r → db_tenants db !! tenant = Some t →
  r_attempt r < 3 → t_active_count t < t_active_limit t →
  is_ok (grant_lease clock worker policy tenant run ids db) = true.
Proof.
  intros (Hs & Hlogs & _) [Hcnt Hseq] Hw Hr Ht Hatt Hcount.
  destruct (so_runs _ Hs _ _ Hr) as [[Hc _ _ Hep Hdig] _ _ [m Hm] _]. simpl in Hm.
  destruct (run_check_attempt _ Hc) as [? ?].
  destruct (so_seq _ Hs) as (seq & Hs0 & _). specialize (Hseq _ Hs0).
  pose proof (set_served_check (seq + 1) t (proj1 (so_tenants _ Hs _ _ Ht)) Hcount) as Htc.
  set (db1 := with_tenants <[tenant := set_served (seq + 1) t]> (with_dispatch_seq (seq + 1) db)).
  set (expires := least_expiry tenant ids (clock 0%nat + cp_lease_ms policy * 1000) db1).
  assert (run_check (set_leased worker expires (clock 1%nat) r) = true) as Hrc
    by (apply set_lease_check; [done|lia|lia]).
  set (r1 := set_leased worker expires (clock 1%nat) r) in *.
  set (db2 := with_runs <[(tenant, run) := r1]> db1).
  assert (db_runs db2 !! (tenant, run) = Some r1) as Hr1
    by (unfold db2; simpl; by rewrite lookup_insert_eq).
  destruct (append_ok db2 tenant run "lease.claimed" (claim_payload (r_lease_epoch r1) worker) r1)
    as [h Happ]; auto.
  { by eapply (logs_ok_update db db2 (tenant, run) r r1). }
  { apply claim_payload_size; [simpl; lia|done]. }
  { simpl. specialize (Hcnt _ _ Hr). lia. }
  apply is_ok_intro. eexists (_, _). unfold grant_lease. tx_step.
  { unfold bump_dispatch_seq. rewrite Hs0, (proj2 (Z.ltb_lt _ _) Hseq). reflexivity. }
  tx_step; [by apply tx_ok_or_Ok|]. tx_step.
  { unfold update_tenant. cbn [db_tenants with_dispatch_seq]. rewrite Ht, Htc. reflexivity. }
  tx_step; [by apply tx_gets_Ok|].
  tx_step; [apply (update_run_total tenant run (set_leased worker expires (clock 1%nat)) db1 r Hr Hrc)|].
  tx_step; [by apply tx_fail_if_Ok|]. tx_step; [by apply fetch_one_Ok|].
  tx_step; [apply tx_fail_if_Ok; split; [|reflexivity]|].
  { change (r_module_digest r1) with (r_module_digest r). by rewrite Hdig. }
  tx_step; [by apply fetch_one_Ok|]. tx_step; [exact Happ|]. reflexivity.
Qed.

Lemma begin_scheduler_total db : sched_ok db → begin_scheduler db = Ok ((), db).
Proof.
  intros Hs. apply begin_scheduler_Ok. destruct (so_seq _ Hs) as (seq & -> & _). eauto.
Qed.

Lemma claim_selected_total clock worker policy tenant run db t r :
  db_ok db → counters_ok db → worker_identifier worker = true →
  cp_max_active_per_tenant policy = 1 → cp_max_attempts policy ≤ 3 →
  db_tenants db !! tenant = Some t → db_runs db !! (tenant, run) = Some r →
  t_active_count t < Z.min (t_active_limit t) 1 →
  claimable (cp_max_attempts policy) tenant (tenant, run, r) →
  is_ok (claim_selected clock worker policy tenant run db) = true.
Proof.
  intros Hok Hcnt Hw Hper Hmax Ht Hr Hcount (_ & Hq & _ & Hatt). simpl in Hq, Hatt.
  pose proof Hok as (Hs & _ & Hled).
  destruct (so_runs _ Hs _ _ Hr) as [[Hc Hslot _ Hep _] _ [g Hg] _ _]. simpl in Hg.
  destruct (run_check_attempt _ Hc) as [? ?].
  destruct (so_tenants _ Hs _ _ Ht) as [Htc _]. unfold tenant_check in Htc. bools.
  destruct (forest_path _ (ledger_forest _ Hled) _ _ _ Hg) as (l & Hl & _).
  apply is_ok_intro. unfold claim_selected.
  assert (is_ok ((let grant_ids := g_id <$> (to_grant tenant <$> l) in
    tx_fail_if (bool_decide (grant_ids = [])) Database;;
    live ← tx_gets (grants_live clock tenant grant_ids);
    if negb live then deny_claim (clock 5%nat) tenant run
    else grant_lease (λ i, clock (5 + i)%nat) worker policy tenant run grant_ids) db) = true)
    as Hrest.
  { cbv zeta. unfold tx_fail_if, tx_lift, tx_gets, mbind, tx_bind.
    rewrite bool_decide_eq_false_2.
    - cbn [fail_if]. destruct (grants_live _ _ _ _); cbn [negb].
      + apply (grant_lease_total _ _ _ _ _ _ _ r t); auto; lia.
      + by eapply deny_claim_total.
    - rewrite <-list_fmap_compose. destruct (path_last _ _ Hl) as (l' & row & -> & _).
      rewrite fmap_app. by destruct (_ <$> l'). }
  destruct (_ : result Error (option Lease * Db)) as [[x db']|] eqn:Hx in Hrest; [|done].
  exists (x, db'). tx_step; [by apply fetch_one_Ok|].
  tx_step; [apply tx_fail_if_Ok; split; [rewrite Hper; autorewrite with bools; lia|done]|].
  tx_step; [by apply fetch_one_Ok|].
  tx_step; [apply tx_fail_if_Ok; split; [|done]|].
  { rewrite Hslot, Hq. rewrite bool_decide_eq_true_2 by done.
    autorewrite with bools. unfold i64_max. simpl. split_and!; auto; lia. }
  tx_step; [apply tx_query_Ok; split; [by apply load_chain_path; [apply Hled|]|done]|].
  exact Hx.
Qed.

Lemma state_payload_size kind st :
  kind ∈ ["run.needs_reconciliation"; "run.cancelled"; "run.failed"; "run.retry_wait";
          "run.requeued"; "run.succeeded"]%string →
  event_size_ok (kind, state_payload st).
Proof.
  intros Hk. assert (kind ≠ ""%string ∧ str_len kind ≤ 128) as [? ?].
  { revert kind Hk. apply Forall_forall. repeat constructor; vm_compute; done. }
  split_and!; [done..|]. destruct st; vm_compute; done.
Qed.

Lemma reap_verdict_event u cancel exhausted full next outcome event :
  reap_verdict u cancel exhausted full = (next, outcome, event) →
  event_size_ok (event, state_payload next).
Proof.
  intros Hv. apply state_payload_size.
  destruct u, cancel, exhausted, full; injection Hv as <- <- <-; set_solver.
Qed.

Lemma promote_run_total now policy tenant run db r :
  db_ok db → counters_ok db → db_runs db !! (tenant, run) = Some r → r_state r = RetryWait →
  is_ok (promote_run now policy tenant run db) = true.
Proof.
  intros (Hs & Hlogs & _) [Hcnt _] Hr Hst.
  destruct (so_runs _ Hs _ _ Hr) as [[Hc Hslot _ _ _] [t Ht] _ _ _]. simpl in Ht.
  destruct (run_check_attempt _ Hc) as [? ?].
  destruct (reap_verdict (effect_in uncertain_states tenant run db) (r_cancel_requested r)
    (rp_max_attempts policy <=? r_attempt r) false) as [[next outcome] event] eqn:Hv.
  assert (run_check (set_state next now r) = true) as Hrc by (by apply set_lease_check).
  destruct (append_ok (with_runs <[(tenant, run) := set_state next now r]> db) tenant run
    event (state_payload next) (set_state next now r)) as [h Happ]; auto.
  { by eapply (logs_ok_update db _ (tenant, run) r (set_state next now r)). }
  { simpl. by rewrite lookup_insert_eq. }
  { by eapply reap_verdict_event. }
  { simpl. specialize (Hcnt _ _ Hr). lia. }
  apply is_ok_intro. eexists (_, _). unfold promote_run.
  tx_step; [by apply fetch_one_Ok|]. tx_step; [by apply fetch_one_Ok|].
  tx_step; [apply tx_fail_if_Ok; split; [|done]; by rewrite Hslot, Hst|].
  tx_step; [by apply tx_gets_Ok|]. rewrite Hv.
  tx_step; [by apply update_run_total|]. tx_step; [exact Happ|]. reflexivity.
Qed.

Lemma free_slot_total db tenant t :
  db_tenants db !! tenant = Some t → tenant_check t = true → 0 < t_active_count t →
  update_tenant tenant (λ t, 0 <? t_active_count t) set_slot_freed db =
    Ok (1, with_tenants <[tenant := set_slot_freed t]> db).
Proof.
  intros Ht Hc Hpos. unfold update_tenant. rewrite Ht, (proj2 (Z.ltb_lt _ _) Hpos).
  by rewrite set_slot_freed_check.
Qed.

(** A run that holds a slot is counted. *)
Lemma held_pos db tenant run r :
  db_runs db !! (tenant, run) = Some r → r_active_slot_held r = true →
  0 < held_tenant tenant db.
Proof. intros Hr Hh. by eapply count_rows_pos. Qed.

Lemma reap_selected_total clock policy pending_now tenant run db r :
  db_ok db → counters_ok db → db_runs db !! (tenant, run) = Some r →
  r_active_slot_held r = true →
  is_ok (reap_selected clock policy pending_now tenant run db) = true.
Proof.
  intros (Hs & Hlogs & _) [Hcnt _] Hr Hheld.
  destruct (so_runs _ Hs _ _ Hr) as [[Hc Hslot _ _ _] [t Ht] _ _ _]. simpl in Ht.
  destruct (run_check_attempt _ Hc) as [? ?].
  destruct (so_tenants _ Hs _ _ Ht) as [Htc Hcount].
  pose proof (held_pos _ _ _ _ Hr Hheld) as Hpos. rewrite <-Hcount in Hpos.
  apply is_ok_intro. unfold reap_selected. destruct (lease_expired (clock 0%nat) r) eqn:Hexp.
  2:{ eexists (_, _). tx_step; [by apply fetch_one_Ok|].
      tx_step; [apply tx_fail_if_Ok; split; [autorewrite with bools; lia|done]|].
      tx_step; [by apply fetch_one_Ok|]. tx_step; [apply tx_fail_if_Ok; by rewrite Hheld|].
      rewrite Hexp. reflexivity. }
  destruct (reap_verdict (effect_in uncertain_states tenant run db) (r_cancel_requested r)
    (rp_max_attempts policy <=? r_attempt r)
    ((rp_max_pending_global policy <=? pending_now)
     || (Z.min (t_queue_limit t) (rp_max_pending_tenant policy) <=? queued_tenant tenant db)))
    as [[next outcome] event] eqn:Hv.
  set (r1 := set_released next (clock 1%nat) r).
  assert (run_check r1 = true) as Hrc by (by apply set_lease_check).
  set (db1 := with_tenants <[tenant := set_slot_freed t]> db).
  destruct (append2_ok (with_runs <[(tenant, run) := r1]> db1) tenant run "lease.expired"
    (json_object [json_field "expired" (bytes "true")]) event (state_payload next) r1)
    as (h1 & h2 & db' & Happ1 & Happ2); auto.
  { by eapply (logs_ok_update db _ (tenant, run) r r1). }
  { simpl. by rewrite lookup_insert_eq. }
  { split_and!; [done|vm_compute; done|vm_compute; done]. }
  { by eapply reap_verdict_event. }
  { simpl. specialize (Hcnt _ _ Hr). lia. }
  eexists (_, _). tx_step; [by apply fetch_one_Ok|].
  tx_step; [apply tx_fail_if_Ok; split; [autorewrite with bools; lia|done]|].
  tx_step; [by apply fetch_one_Ok|]. tx_step; [apply tx_fail_if_Ok; by rewrite Hheld|].
  rewrite Hexp. cbn [negb]. tx_step; [by apply tx_gets_Ok|]. tx_step; [by apply tx_gets_Ok|].
  cbv zeta. rewrite Hv. tx_step; [by apply free_slot_total|].
  tx_step; [by apply tx_fail_if_Ok|].
  tx_step; [apply (update_run_total tenant run (set_released next (clock 1%nat)) db1 r Hr Hrc)|].
  tx_step; [exact Happ1|]. tx_step; [exact Happ2|]. reflexivity.
Qed.

Lemma retry_candidate_Some limit db tenant run :
  retry_candidate limit db = Some (tenant, run) →
  ∃ r, db_runs db !! (tenant, run) = Some r ∧ r_state r = RetryWait.
Proof.
  unfold retry_candidate. intros ([k r] & Hmin & ->)%fmap_Some.
  apply min_by_filter in Hmin as [Hin [Hst _]]. apply elem_of_map_to_list in Hin.
  destruct k. eauto.
Qed.

Lemma expired_candidate_Some now db tenant run :
  expired_candidate now db = Some (tenant, run) →
  ∃ r, db_runs db !! (tenant, run) = Some r ∧ r_active_slot_held r = true ∧
    lease_expired now r = true.
Proof.
  unfold expired_candidate. intros ([k r] & Hmin & ->)%fmap_Some.
  apply min_by_filter in Hmin as [Hin (Hh & _ & He)]. apply elem_of_map_to_list in Hin.
  destruct k. eauto.
Qed.
End progress.

Lemma claim_parameters_true worker allowed slots policy :
  claim_parameters_ok worker allowed slots policy = true →
  worker_identifier worker = true ∧ cp_max_active_per_tenant policy = 1 ∧
  cp_max_attempts policy ≤ 3.
Proof. unfold claim_parameters_ok. intros. bools. auto. Qed.

Lemma run_tenant_total tenant run allowed db r `{PgTime, Sha256} :
  sched_ok db → db_runs db !! (tenant, run) = Some r → tenant ∈ allowed →
  run_tenant run allowed db = Ok (tenant, db).
Proof.
  intros Hs Hr Hal. unfold run_tenant. tx_step.
  - apply fetch_optional_Ok. split; [by apply run_by_id_unique; [apply Hs|]|done].
  - cbn [fst]. tx_step; [apply tx_fail_if_Ok; by rewrite bool_decide_eq_true_2|]. done.
Qed.

(** What other transactions may do to the slot the reaper chose: renew it, start
    it or cancel it, but not take it away. *)
Definition slots_kept (db db' : Db) : Prop :=
  ∀ k r, db_runs db !! k = Some r → r_active_slot_held r = true →
    ∃ r', db_runs db' !! k = Some r' ∧ r_active_slot_held r' = true.

(** Past their parameter checks, the operations are these decisions. *)
Lemma claim_run_eq `{PgTime, Sha256} clock worker allowed slots policy db :
  sched_ok db → claim_parameters_ok worker allowed slots policy = true →
  claim_run clock worker allowed slots policy db =
    if cp_max_active_global policy <=? active_sum db then Ok (None, db)
    else if 2 <=? worker_active worker db then Ok (None, db)
    else match claim_candidate allowed (cp_max_active_per_tenant policy)
                 (cp_max_attempts policy) db with
         | None => Ok (None, db)
         | Some (tenant, run) => claim_selected clock worker policy tenant run db
         end.
Proof.
  intros Hs Hpar. unfold claim_run, tx_fail_if, tx_lift, tx_gets, mbind, tx_bind.
  rewrite Hpar. cbn [negb fail_if]. rewrite (begin_scheduler_total db Hs). cbn [negb fail_if].
  rewrite (proj2 (in_range_spec _ _ _) (so_active _ Hs)). cbn [negb fail_if].
  by repeat case_match.
Qed.

Lemma reap_one_eq `{PgTime, Sha256} clock between policy db :
  sched_ok db → reap_parameters_ok policy = true →
  reap_one clock between policy db =
    match (if queued_global db <? rp_max_pending_global policy
           then retry_candidate (rp_max_pending_tenant policy) db else None) with
    | Some (tenant, run) => promote_run (clock 0%nat) policy tenant run db
    | None =>
      match expired_candidate (clock 0%nat) db with
      | None => Ok (None, db)
      | Some (tenant, run) =>
        reap_selected (λ i, clock (S i)) policy (queued_global db) tenant run (between db)
      end
    end.
Proof.
  intros Hs Hpar. unfold reap_one, tx_fail_if, tx_lift, tx_gets, tx_modify, mbind, tx_bind.
  rewrite Hpar. cbn [negb fail_if]. rewrite (begin_scheduler_total db Hs).
  by repeat case_match.
Qed.

Module ProgressDemo.
Import Reference PgReference.

Lemma queued_counters : counters_ok AdmitDemo.queued_db.
Proof.
  split.
  - assert (map_Forall (λ _ r, r_next_event_seq r + 2 ≤ i64_max) (db_runs AdmitDemo.queued_db))
      as Hall by (apply (bool_decide_unpack _); vm_compute; exact I).
    exact Hall.
  - assert (db_dispatch_seq AdmitDemo.queued_db = Some 0) as -> by (vm_compute; reflexivity).
    by intros seq [= <-].
Qed.
Lemma queued_claim_ok :
  claim_parameters_ok "worker" [Demo.tenant] 1 SysDemo.policy = true.
Proof. reflexivity. Qed.
Lemma reaped_run : ∃ r, db_runs SysDemo.reaped_db !! (Demo.tenant, 20) = Some r ∧
  held_tenant Demo.tenant SysDemo.reaped_db = 0.
Proof. eexists. split; vm_compute; reflexivity. Qed.
Lemma reaped_counters : counters_ok SysDemo.reaped_db.
Proof.
  split.
  - assert (map_Forall (λ _ r, r_next_event_seq r + 2 ≤ i64_max) (db_runs SysDemo.reaped_db))
      as Hall by (apply (bool_decide_unpack _); vm_compute; exact I).
    exact Hall.
  - assert (db_dispatch_seq SysDemo.reaped_db = Some 1) as -> by (vm_compute; reflexivity).
    by intros seq [= <-].
Qed.

(** Two tenants with one run each: the first is served and reaped, then the
    second, and the third claim serves the first again. *)
Definition fresh_db : Db := {|
  db_tenants := {[1 := mkTenantRow 10 1 0 0; 2 := mkTenantRow 10 1 0 0]};
  db_dispatch_seq := Some 0;
  db_modules := {[(1, replicate 32 x00) := [x00]; (2, replicate 32 x00) := [x00]]};
  db_grants := ∅; db_runs := ∅; db_effects := ∅; db_reservations := ∅; db_events := ∅;
  db_operator_events := [];
|}.
Definition create (id tenant : Uuid) : StoreTx GrantRecord :=
  create_grant id Demo.now tenant None "operator" (Demo.authority 3).
Definition submit (run tenant grant : Uuid) : StoreTx Admission :=
  admit_run run Demo.now Demo.now Demo.now tenant "key"
    (mkNormalizedRun (replicate 32 x00) grant [x01] Limits_default) 5 2.
Definition claim : StoreTx (option Lease) :=
  claim_run (SysDemo.at_ Demo.now) "worker" [1; 2] 1 SysDemo.policy.
Definition reap : StoreTx (option (Uuid * Reaped)) := SysDemo.reap.

Definition grants_db : Db := tx_state (create 12 2) (tx_state (create 11 1) fresh_db).
Definition db1 : Db := Eval vm_compute in
  tx_state (submit 30 2 12) (tx_state (submit 20 1 11) grants_db).
Definition db2 : Db := Eval vm_compute in tx_state claim db1.
Definition db3 : Db := Eval vm_compute in
  tx_state reap (tx_state claim (tx_state reap db2)).

Definition first_lease : Lease := Eval vm_compute in
  match claim db1 with Ok (Some l, _) => l | _ => SysDemo.lease end.
Definition second_lease : Lease := Eval vm_compute in
  match claim db3 with Ok (Some l, _) => l | _ => SysDemo.lease end.

Lemma first_claim : claim db1 = Ok (Some first_lease, db2).
Proof. vm_compute. reflexivity. Qed.
Lemma second_claim : ∃ db4, claim db3 = Ok (Some second_lease, db4).
Proof. eexists. vm_compute. reflexivity. Qed.
Lemma other_tenant : 2 ≠ l_tenant first_lease.
Proof. done. Qed.
Lemma tenants_before : db_tenants db1 !! 2 = Some (mkTenantRow 10 1 0 0).
Proof. reflexivity. Qed.
Lemma tenants_after : ∃ t, db_tenants db3 !! 2 = Some t ∧
  eligible [1; 2] 1 3 db3 (2, t) = Some (2, 2, 30).
Proof. eexists. split; vm_compute; reflexivity. Qed.

Lemma fresh_initial : initial fresh_db.
Proof.
  split; try reflexivity. intros k t. unfold fresh_db. cbn [db_tenants].
  intros [[_ <-]|[_ [_ <-]%lookup_singleton_Some]]%lookup_insert_Some; by vm_compute.
Qed.

Lemma state_step {A} (m : StoreTx A) db :
  (∀ a db', m db = Ok (a, db') → store_step db db') → rtc store_step db (tx_state m db).
Proof.
  intros Hm. unfold tx_state. destruct (m db) as [[a db']|e] eqn:Hop; [|done].
  eapply rtc_once, Hm. done.
Qed.
Lemma create_step id tenant db : rtc store_step db (tx_state (create id tenant) db).
Proof. apply state_step. intros. eapply step_free, free_create; [apply Demo.clock|done]. Qed.
Lemma submit_step run tenant grant db :
  (∀ ordinal, db_effects db !! (tenant, run, ordinal) = None) →
  rtc store_step db (tx_state (submit run tenant grant) db).
Proof. intros He. apply state_step. intros adm db' Hop. eapply step_admit, Hop; done. Qed.
Lemma claim_step db : rtc store_step db (tx_state claim db).
Proof. apply state_step. intros. by eapply step_claim. Qed.
Lemma reap_step db : rtc store_step db (tx_state reap db).
Proof. apply state_step. intros. eapply step_reap; [|done]. apply rtc_refl. Qed.

Lemma db1_reachable : reachable db1.
Proof.
  exists fresh_db. split; [apply fresh_initial|].
  assert (db1 = tx_state (submit 30 2 12) (tx_state (submit 20 1 11) grants_db)) as ->
    by (vm_compute; reflexivity).
  assert (db_effects grants_db = ∅ ∧ db_effects (tx_state (submit 20 1 11) grants_db) = ∅)
    as [He1 He2] by (split; vm_compute; reflexivity).
  etrans; [|apply submit_step; intros; by rewrite He2].
  etrans; [|apply submit_step; intros; by rewrite He1].
  etrans; [apply create_step|apply create_step].
Qed.
Lemma db3_steps : rtc store_step db2 db3.
Proof.
  assert (db3 = tx_state reap (tx_state claim (tx_state reap db2))) as ->
    by (vm_compute; reflexivity).
  etrans; [apply reap_step|]. etrans; [apply claim_step|apply reap_step].
Qed.
End ProgressDemo.

(** ** Completion *)

(** A well-formed completion. *)
Definition completion_formed (worker : string) (epoch : Z) (output : option (list byte))
    (error_code : option string) : Prop :=
  (worker ≠ "" ∧ str_len worker ≤ 64 ∧
   ∀ b, b ∈ bytes worker → is_ascii_alphanumeric b = true ∨ b = "-"%byte ∨ b = "_"%byte) ∧
  0 < epoch ∧
  (∀ o, output = Some o → Z.of_nat (length o) ≤ 65536) ∧
  (∀ c, error_code = Some c → c ≠ "" ∧ str_len c ≤ 64 ∧
     ∀ b, b ∈ bytes c → is_ascii_uppercase b = true ∨ b = "_"%byte) ∧
  (output = None ∨ error_code = None).

(** The caller holds the run's lease, and the run has nothing left undone. *)
Definition may_complete (now : Z) (worker : string) (epoch : Z) (k : Uuid * Uuid) (r : RunRow)
    (db : Db) : Prop :=
  r_state r = Running ∧ r_lease_owner r = Some worker ∧ r_lease_epoch r = epoch ∧
  (∃ deadline, r_lease_expires_at r = Some deadline ∧ now < deadline) ∧
  r_active_slot_held r = true ∧
  ∀ ordinal e, db_effects db !! (k, ordinal) = Some e →
    e_state e = Committed ∨ e_state e = DefinitelyFailed.

Lemma forallb_elem {A} (f : A → bool) l : forallb f l = true ↔ ∀ x, x ∈ l → f x = true.
Proof.
  rewrite List.forallb_forall. by setoid_rewrite list_elem_of_In.
Qed.

Lemma completion_formed_spec worker epoch output error_code :
  finish_parameters_ok worker epoch output error_code = true ↔
  completion_formed worker epoch output error_code.
Proof.
  unfold finish_parameters_ok, completion_formed, worker_identifier, str_is_empty.
  rewrite negb_true_iff, !orb_false_iff, negb_false_iff, !andb_true_iff, negb_true_iff,
    bool_decide_eq_false, Z.leb_le, Z.leb_gt, forallb_elem.
  repeat setoid_rewrite orb_true_iff. repeat setoid_rewrite bool_decide_eq_true.
  assert (match output with Some o => 65536 <? Z.of_nat (length o) | None => false end = false ↔
    ∀ o, output = Some o → Z.of_nat (length o) ≤ 65536) as ->.
  { destruct output as [o|]; [rewrite Z.ltb_ge|]; naive_solver. }
  assert (match error_code with
    | Some c => bool_decide (c = "") || (64 <? str_len c)
        || negb (forallb (λ b, is_ascii_uppercase b || bool_decide (b = "_"%byte)) (bytes c))
    | None => false
    end = false ↔ ∀ c, error_code = Some c → c ≠ "" ∧ str_len c ≤ 64 ∧
      ∀ b, b ∈ bytes c → is_ascii_uppercase b = true ∨ b = "_"%byte) as ->.
  { destruct error_code as [c|]; [|naive_solver].
    rewrite !orb_false_iff, negb_false_iff, bool_decide_eq_false, Z.ltb_ge, forallb_elem.
    setoid_rewrite orb_true_iff. setoid_rewrite bool_decide_eq_true. split.
    - by intros [[? ?] ?] c' [= <-].
    - intros Hc. by destruct (Hc c eq_refl) as (? & ? & ?). }
  assert ((∀ b, b ∈ bytes worker → (((is_ascii_digit b = true ∨ is_ascii_uppercase b = true) ∨
      is_ascii_lowercase b = true) ∨ b = "-"%byte) ∨ b = "_"%byte) ↔
    (∀ b, b ∈ bytes worker → ((is_ascii_digit b = true ∨ is_ascii_uppercase b = true) ∨
      is_ascii_lowercase b = true) ∨ b = "-"%byte ∨ b = "_"%byte)) as ->
    by (split; intros Hb b Hin; destruct (Hb b Hin); tauto).
  assert (match output with
    | Some _ => match error_code with Some _ => true | None => false end
    | None => false end = false ↔ output = None ∨ error_code = None) as ->
    by (destruct output, error_code; naive_solver).
  tauto.
Qed.

Lemma may_complete_spec now worker epoch tenant run r db :
  (r_state r = Running ∧ holds_lease worker epoch now r = true ∧
   effect_in unresolved_states tenant run db = false) ↔
  may_complete now worker epoch (tenant, run) r db.
Proof.
  unfold may_complete, lease_live. rewrite holds_lease_true, <-not_true_iff_false, effect_in_true.
  unfold lease_live. assert ((∃ d, r_lease_expires_at r = Some d ∧ now < d) ↔
    match r_lease_expires_at r with Some t => now <? t | None => false end = true) as ->.
  { destruct (r_lease_expires_at r); [rewrite Z.ltb_lt|]; naive_solver. }
  assert ((∀ o e, db_effects db !! (tenant, run, o) = Some e →
      e_state e = Committed ∨ e_state e = DefinitelyFailed) ↔
    ¬ ∃ o e, db_effects db !! (tenant, run, o) = Some e ∧ e_state e ∈ unresolved_states) as ->;
    [|tauto].
  unfold unresolved_states. split.
  - intros Hall (o & e & He & Hin). destruct (Hall _ _ He) as [Hs|Hs]; rewrite Hs in Hin; set_solver.
  - intros Hno o e He. destruct (e_state e) eqn:Hs; auto; destruct Hno; exists o, e;
      (split; [done|rewrite Hs; set_solver]).
Qed.

Section finish.
Context `{PgTime, !PgTimeLaws, LimitsJson, Sha256, !Sha256Laws}.

Lemma finish_formed clock run worker allowed epoch output error_code db :
  sched_ok db → finish_parameters_ok worker epoch output error_code = true →
  finish_run clock run worker allowed epoch output error_code db =
  (tenant ← run_tenant run allowed;
   tenant_row ← fetch_one (λ db, db_tenants db !! tenant);
   tx_fail_if (t_active_count tenant_row <=? 0) CorruptScheduler;;
   row ← fetch_one (λ db, db_runs db !! (tenant, run));
   tx_fail_if (negb (bool_decide (r_state row = Running))
               || negb (holds_lease worker epoch (clock 0%nat) row)) LeaseConflict;;
   unresolved ← tx_gets (effect_in unresolved_states tenant run);
   tx_fail_if unresolved LeaseConflict;;
   let state := finish_state (r_cancel_requested row) error_code in
   updated ← update_tenant tenant (λ t, 0 <? t_active_count t) set_slot_freed;
   tx_fail_if (negb (updated =? 1)) CorruptScheduler;;
   update_run tenant run (λ _, true) (set_finished state output error_code (clock 1%nat));;
   append_event tenant run (finish_event state) (state_payload state);;
   fetch_run_by_key tenant (r_idempotency_key row)) db.
Proof.
  intros Hs Hpar. unfold finish_run. tx_run; [by rewrite Hpar|].
  tx_run; [exact (begin_scheduler_total db Hs)|]. done.
Qed.

Lemma run_tenant_missing run allowed db :
  (∀ tenant, tenant ∈ allowed → db_runs db !! (tenant, run) = None) →
  run_tenant run allowed db = Err RunNotFound.
Proof.
  intros Hnone. unfold run_tenant, fetch_optional, tx_gets, tx_ok_or, tx_lift, mbind, tx_bind.
  destruct (run_by_id run db) as [[[tenant id] r]|] eqn:Hid; [|done]. cbn.
  apply run_by_id_Some in Hid as [-> Hr]. unfold tx_fail_if, tx_lift.
  case_bool_decide as Hin; [|done]. by rewrite (Hnone _ Hin) in Hr.
Qed.

Lemma finish_refused clock tenant run r t worker allowed epoch output error_code db :
  sched_ok db → db_runs db !! (tenant, run) = Some r → tenant ∈ allowed →
  db_tenants db !! tenant = Some t → 0 < t_active_count t →
  finish_parameters_ok worker epoch output error_code = true →
  ¬ (r_state r = Running ∧ holds_lease worker epoch (clock 0%nat) r = true ∧
     effect_in unresolved_states tenant run db = false) →
  finish_run clock run worker allowed epoch output error_code db = Err LeaseConflict.
Proof.
  intros Hs Hr Hal Ht Hpos Hpar Hno. rewrite (finish_formed _ _ _ _ _ _ _ _ Hs Hpar).
  tx_run; [by eapply run_tenant_total|]. tx_run; [by apply fetch_one_Ok|].
  tx_run; [apply tx_fail_if_Ok; split; [autorewrite with bools; lia|done]|].
  tx_run; [by apply fetch_one_Ok|].
  destruct (negb (bool_decide (r_state r = Running))
    || negb (holds_lease worker epoch (clock 0%nat) r)) eqn:Hl; [by apply tx_bind_stop|].
  tx_run; [by apply tx_fail_if_Ok|]. tx_run; [by apply tx_gets_Ok|].
  bools. apply tx_bind_stop, tx_fail_if_Err.
  destruct (effect_in unresolved_states tenant run db); [done|]. by destruct Hno.
Qed.

Lemma finish_total clock tenant run r worker allowed epoch output error_code db :
  db_ok db → counters_ok db → db_runs db !! (tenant, run) = Some r → tenant ∈ allowed →
  finish_parameters_ok worker epoch output error_code = true →
  (r_state r = Running ∧ holds_lease worker epoch (clock 0%nat) r = true ∧
     effect_in unresolved_states tenant run db = false) →
  (∀ ordinal e, db_effects db !! (tenant, run, ordinal) = Some e →
     length (e_request_hash e) = 32%nat) →
  ∃ a, finish_run clock run worker allowed epoch output error_code db = Ok a.
Proof.
  intros Hok Hcnt Hr Hal Hpar (Hrun & Hhold & Hun) Hhash. pose proof Hok as (Hs & Hlogs & _).
  pose proof (proj1 (holds_lease_true _ _ _ _) Hhold) as (_ & _ & _ & Hheld).
  destruct (so_runs _ Hs _ _ Hr) as [[Hc Hslot _ _ Hdig] [t Ht] _ _ _]. simpl in Ht.
  destruct (run_check_attempt _ Hc) as [? ?].
  destruct (so_tenants _ Hs _ _ Ht) as [Htc Hcount].
  pose proof (held_pos _ _ _ _ Hr Hheld) as Hpos. rewrite <-Hcount in Hpos.
  set (st := finish_state (r_cancel_requested r) error_code).
  set (r1 := set_finished st output error_code (clock 1%nat) r).
  assert (run_check r1 = true) as Hrc.
  { apply completion_formed_spec in Hpar as (_ & _ & Hout & _).
    unfold run_check, r1 in *. simpl. bools. split_and!; auto.
    destruct output as [o|]; [|done]. apply Z.leb_le. by apply Hout. }
  pose proof (set_slot_freed_check t Htc Hpos) as Htc'.
  set (db1 := with_runs <[(tenant, run) := r1]> (with_tenants <[tenant := set_slot_freed t]> db)).
  destruct (append_ok db1 tenant run (finish_event st) (state_payload st) r1) as [h Happ].
  { by eapply (logs_ok_update db db1 (tenant, run) r r1). }
  { unfold db1. simpl. by rewrite lookup_insert_eq. }
  { done. }
  { apply state_payload_size. unfold st, finish_state. destruct (r_cancel_requested r), error_code;
      simpl; set_solver. }
  { simpl. destruct Hcnt as [Hcnt _]. specialize (Hcnt _ _ Hr). lia. }
  pose proof (finished_update output error_code (clock 1%nat) Hs Hr Hrun Hheld Ht Hun Hrc Htc')
    as Hup.
  pose proof (append_event_log_only _ _ _ _ _ _ _ Happ) as Hlog.
  destruct (slot_db_ok Hup Hlog Hok) as [[Hs2 _] _].
  destruct (slot_row Hup Hlog) as (hn & hh & _ & Hruns).
  set (db2 := appended _ _ _ _ _ _) in *.
  assert (db_runs db2 !! (tenant, run) = Some (set_event_head hn hh r1)) as Hr2
    by (by rewrite Hruns, lookup_insert_eq).
  destruct (fetch_run_by_key_total tenant (r_idempotency_key r) db2 run _
    (run_by_key_unique _ _ _ _ (so_unique _ Hs2) Hr2) Hdig) as (record & Hfetch & _).
  { intros o e He. by apply (Hhash o e). }
  eexists. rewrite (finish_formed _ _ _ _ _ _ _ _ Hs Hpar).
  tx_run; [by eapply run_tenant_total|]. tx_run; [by apply fetch_one_Ok|].
  tx_run; [apply tx_fail_if_Ok; split; [autorewrite with bools; lia|done]|].
  tx_run; [by apply fetch_one_Ok|].
  tx_run; [apply tx_fail_if_Ok; split; [|done]; by rewrite Hrun, Hhold|].
  tx_run; [by apply tx_gets_Ok|]. tx_run; [by apply tx_fail_if_Ok|]. cbv zeta.
  tx_run; [by apply free_slot_total|]. tx_run; [by apply tx_fail_if_Ok|].
  tx_run; [exact (update_run_total tenant run (set_finished st output error_code (clock 1%nat))
    (with_tenants <[tenant := set_slot_freed t]> db) r Hr Hrc)|].
  tx_run; [exact Happ|]. exact Hfetch.
Qed.
End finish.

Lemma finish_formed_demo : completion_formed "worker" 1 (Some [x07]) None.
Proof. apply completion_formed_spec. vm_compute. reflexivity. Qed.

(** ** Properties *)

(** C35: the scheduler never finds its own state corrupt.  In a reachable
    state whose counters have room, every well-formed claim succeeds, with a
    lease or with none, and so does every well-formed reap, even when other
    transactions commit between its choice and its lock. *)
Theorem scheduler_progress `{PgTime, !PgTimeLaws, LimitsJson, Sha256, !Sha256Laws} db :
  reachable db → counters_ok db →
  (∀ clock worker allowed slots policy,
     claim_parameters_ok worker allowed slots policy = true →
     is_ok (claim_run clock worker allowed slots policy db) = true) ∧
  (∀ clock between policy,
     reap_parameters_ok policy = true →
     rtc lock_free db (between db) → slots_kept db (between db) → counters_ok (between db) →
     is_ok (reap_one clock between policy db) = true).
Proof.
  intros Hok%reachable_ok Hcnt. pose proof Hok as (Hs & _ & _). split.
  - intros clock worker allowed slots policy Hpar. rewrite (claim_run_eq _ _ _ _ _ _ Hs Hpar).
    repeat case_match; try done.
    match goal with E : claim_candidate _ _ _ _ = Some _ |- _ =>
      apply claim_candidate_Some in E as (t & r & Ht & _ & Hcount & Hr & Hcl) end.
    destruct (claim_parameters_true _ _ _ _ Hpar) as (Hw & Hper & Hatt). rewrite Hper in Hcount.
    by eapply claim_selected_total.
  - intros clock between policy Hpar Hbetween Hkept Hcnt'.
    destruct (lock_free_star_ok _ _ Hok Hbetween) as [Hokb _].
    rewrite (reap_one_eq _ _ _ _ Hs Hpar).
    destruct (if queued_global db <? rp_max_pending_global policy then _ else _)
      as [[tenant run]|] eqn:Hwait.
    + destruct (queued_global db <? rp_max_pending_global policy); [|done].
      apply retry_candidate_Some in Hwait as (r & Hr & Hst). by eapply promote_run_total.
    + destruct (expired_candidate (clock 0%nat) db) as [[tenant run]|] eqn:Hc; [|done].
      apply expired_candidate_Some in Hc as (r & Hr & Hh & _).
      destruct (Hkept _ _ Hr Hh) as (r' & Hr' & Hh'). by eapply reap_selected_total.
Qed.

Lemma scheduler_progress_witness :
  is_ok (SysDemo.claim AdmitDemo.queued_db) = true.
Proof.
  exact (proj1 (scheduler_progress _ SysDemo.queued_reachable ProgressDemo.queued_counters)
    _ _ _ _ _ ProgressDemo.queued_claim_ok).
Defined.

(** C36: tenants are served in turn.  Between two claims that serve the same
    tenant, every other tenant with claimable work at the second one has been
    served; and the claim itself is recorded as the most recent service. *)
Theorem claim_fair `{PgTime, !PgTimeLaws, LimitsJson, Sha256, !Sha256Laws}
    db1 clock1 worker1 allowed1 slots1 policy1 lease1 db1'
    db2 clock2 worker2 allowed2 slots2 policy2 lease2 db2' other t1 t2 work :
  reachable db1 →
  claim_run clock1 worker1 allowed1 slots1 policy1 db1 = Ok (Some lease1, db1') →
  rtc store_step db1' db2 →
  claim_run clock2 worker2 allowed2 slots2 policy2 db2 = Ok (Some lease2, db2') →
  l_tenant lease2 = l_tenant lease1 → other ≠ l_tenant lease1 →
  db_tenants db1 !! other = Some t1 → db_tenants db2 !! other = Some t2 →
  eligible allowed2 (cp_max_active_per_tenant policy2) (cp_max_attempts policy2) db2
    (other, t2) = Some work →
  t_last_served_seq t1 < t_last_served_seq t2.
Proof.
  intros Hok%reachable_ok Hc1 Hsteps Hc2 Hsame Hne Ht1 Ht2 Hel.
  destruct (claim_run_ok _ _ _ _ _ _ _ _ Hok Hc1) as (Hok1 & _ &
    (ta & seq & ? & _ & Hta & _ & _ & _ & _ & _ & Hseq & _ & Hten1)).
  destruct (so_seq _ (proj1 Hok)) as (seq' & Hseq' & _ & Hserved). simplify_eq.
  pose proof (Hserved _ _ Ht1) as Hle1.
  destruct (steps_ok _ _ Hok1 Hsteps) as [Hok2 Hmoves].
  assert (∃ ta2, db_tenants db2 !! l_tenant lease1 = Some ta2 ∧ seq + 1 ≤ t_last_served_seq ta2)
    as (ta2 & Hta2 & Hle2).
  { assert (db_tenants db1' !! l_tenant lease1 = Some (set_served (seq + 1) ta)) as Hta1
      by (by rewrite Hten1, lookup_insert_eq).
    revert Hta1. assert (seq + 1 ≤ t_last_served_seq (set_served (seq + 1) ta)) as Hbase by done.
    revert Hbase. generalize (set_served (seq + 1) ta) as t0. clear -Hmoves.
    induction Hmoves as [db|db dbm db' [_ Hm] _ IH]; intros t0 Hb Ht0; [by eauto|].
    destruct (Hm _ _ Ht0) as (t' & Ht' & [_ _ Hmono]). apply (IH t'); [lia|done]. }
  destruct (claim_run_ok _ _ _ _ _ _ _ _ Hok2 Hc2) as (_ & _ & (tb & ? & ? & Hcand & Htb & _)).
  rewrite Hsame in Hcand, Htb. assert (tb = ta2) as -> by congruence.
  pose proof (claim_candidate_least _ _ _ _ _ _ _ Hcand Htb _ _ _ Ht2 Hel). lia.
Qed.

Lemma claim_fair_witness :
  ∃ t, db_tenants ProgressDemo.db3 !! 2 = Some t ∧ 0 < t_last_served_seq t.
Proof.
  destruct ProgressDemo.second_claim as [db4 Hclaim].
  destruct ProgressDemo.tenants_after as (t & Ht & Hel). exists t. split; [exact Ht|].
  exact (claim_fair ProgressDemo.db1 _ _ _ _ _ _ _ ProgressDemo.db3 _ _ _ _ _ _ _ 2 _ t _
    ProgressDemo.db1_reachable ProgressDemo.first_claim ProgressDemo.db3_steps Hclaim
    eq_refl ProgressDemo.other_tenant ProgressDemo.tenants_before Ht Hel).
Defined.

(** C37: what completing a run answers and does, on every branch.  A malformed
    request is refused as such, and a run the caller may not see as not found.
    When no run of the tenant holds a slot the answer is [CorruptScheduler],
    before the lease is looked at, although the invariant holds; when some slot is
    held, a caller that does not hold this running run's lease, or a run with an
    effect that is not resolved, is answered [LeaseConflict].  Otherwise, in a
    state whose counters have room and whose effects have their 32-byte hashes,
    the completion succeeds: the run becomes cancelled, failed or succeeded, keeps
    the output and the error code, and frees its slot, and the invariant holds. *)
Theorem finish_outcome `{PgTime, !PgTimeLaws, LimitsJson, Sha256, !Sha256Laws}
    db clock run worker allowed epoch output error_code :
  reachable db → counters_ok db →
  let answer := finish_run clock run worker allowed epoch output error_code db in
  (¬ completion_formed worker epoch output error_code → ∃ m, answer = Err (Configuration m)) ∧
  (completion_formed worker epoch output error_code →
   ((∀ tenant, tenant ∈ allowed → db_runs db !! (tenant, run) = None) →
    answer = Err RunNotFound) ∧
   ∀ tenant r, tenant ∈ allowed → db_runs db !! (tenant, run) = Some r →
   (held_tenant tenant db = 0 → answer = Err CorruptScheduler) ∧
   (0 < held_tenant tenant db → ¬ may_complete (clock 0%nat) worker epoch (tenant, run) r db →
    answer = Err LeaseConflict) ∧
   (may_complete (clock 0%nat) worker epoch (tenant, run) r db →
    (∀ ordinal e, db_effects db !! (tenant, run, ordinal) = Some e →
       length (e_request_hash e) = 32%nat) →
    ∃ record db' r', answer = Ok (record, db') ∧ db_runs db' !! (tenant, run) = Some r' ∧
      r_state r' = (if r_cancel_requested r then Cancelled
                    else match error_code with Some _ => Failed | None => Succeeded end) ∧
      r_output_bytes r' = output ∧ r_error_code r' = error_code ∧
      rrec_id record = run ∧ rrec_state record = RunState_name (r_state r') ∧
      held_tenant tenant db' = held_tenant tenant db - 1 ∧ db_ok db')).
Proof.
  intros Hok%reachable_ok Hcnt answer. pose proof Hok as (Hs & _ & _). split.
  { intros Hn. rewrite <-completion_formed_spec, not_true_iff_false in Hn.
    eexists. unfold answer, finish_run. apply tx_bind_stop, tx_fail_if_Err. by rewrite Hn. }
  rewrite <-completion_formed_spec. intros Hpar. split.
  { intros Hnone. unfold answer. rewrite (finish_formed _ _ _ _ _ _ _ _ Hs Hpar).
    apply tx_bind_stop. by apply run_tenant_missing. }
  intros tenant r Hal Hr.
  destruct (ro_tenant _ _ _ (so_runs _ Hs _ _ Hr)) as [t Ht]. simpl in Ht.
  destruct (so_tenants _ Hs _ _ Ht) as [_ Hcount]. rewrite <-Hcount.
  rewrite <-(may_complete_spec (clock 0%nat)). split_and!.
  - intros Hzero. unfold answer. rewrite (finish_formed _ _ _ _ _ _ _ _ Hs Hpar).
    tx_run; [by eapply run_tenant_total|]. tx_run; [by apply fetch_one_Ok|].
    by rewrite Hzero; apply tx_bind_stop.
  - intros Hpos Hno. by eapply finish_refused.
  - intros Hmay Hhash. destruct (finish_total clock tenant run r worker allowed epoch output
      error_code db Hok Hcnt Hr Hal Hpar Hmay Hhash) as ([record db'] & Hfin).
    unfold answer. rewrite Hfin.
    destruct (finish_run_ok _ _ _ _ _ _ _ _ _ _ Hok Hfin) as (Hok' & _ & tn & r0 & r' & _ & Hr0 &
      _ & _ & _ & Hr' & _ & Ho & He & _ & Hst' & Hid & Hname & t0 & Ht0 & Hfreed).
    pose proof (so_unique _ Hs _ _ _ _ Hr Hr0 (or_intror eq_refl)) as [= <-]. simplify_eq.
    exists record, db', r'. split_and!; auto.
    by destruct (so_tenants _ (proj1 Hok') _ _ Hfreed) as [_ <-].
Qed.

(** A completion that arrives after the slot was reaped. *)
Lemma finish_outcome_witness :
  SysDemo.finish SysDemo.late SysDemo.reaped_db = Err CorruptScheduler.
Proof.
  destruct ProgressDemo.reaped_run as (r & Hr & Hheld).
  refine (proj1 (proj2 (proj2 (finish_outcome _ (SysDemo.at_ SysDemo.late) 20 "worker" [Demo.tenant]
    1 (Some [x07]) None SysDemo.reaped_reachable ProgressDemo.reaped_counters)
    finish_formed_demo) _ _ _ Hr) Hheld).
  apply list_elem_of_here.
Defined.
