(* ===== verification/Ipc.v ===== *)
(** * Ipc: the length-prefixed protocol between supervisor and runner

    Models [crates/runtime/src/ipc.rs].  A pipe is the list of bytes that can
    still be read from it, and a writer the list of bytes written so far; an
    operation that fails gives up its pipe, as its callers do.  JSON is a
    service, with the round trip its documentation promises. *)
From S2P Require Export Types.

Definition START_FRAME_BYTES : Z := 4 * 1024 * 1024.
Definition MESSAGE_FRAME_BYTES : Z := 128 * 1024.

Inductive ProtocolError :=
  | PIo
  | PFrameSize
  | PJson
  | PMessage
  | PSequence.

#[global] Instance ProtocolError_eq_dec : EqDecision ProtocolError.
Proof. solve_decision. Defined.

(** ** Frames *)

Record StartFrame := mkStartFrame {
  sf_version : Z;
  sf_kind : string;
  sf_module_b64 : string;
  sf_input_b64 : string;
  sf_limits : Limits;
}.

Inductive ChildFrame :=
  | EffectRequestFrame (version message_id : Z) (request : EffectRequest)
  | LogFrame (version : Z) (message : string)
  | FinishFrame (version : Z) (output_b64 error_code : option string).

Record RawEffectRequestFrame := mkRawEffectRequestFrame {
  raw_version : Z;
  raw_kind : string;
  raw_message_id : Z;
  raw_request : list byte;
}.

(** [EffectReply], [Committed] and [TicketResponse] of [abi.rs]. *)
Inductive Committed_state := COMMITTED.

Record TicketResponse := mkTicketResponse {
  tr_ticket_id : string;
  tr_project : string;
}.

Record EffectReply := mkEffectReply {
  rep_ordinal : Z;
  rep_state : Committed_state;
  rep_response : TicketResponse;
  rep_replayed : bool;
}.

Inductive EffectResponse :=
  | ResponseCommitted (reply : EffectReply)
  | ResponseFailed (code : Z).

Record EffectResponseFrame := mkEffectResponseFrame {
  rf_version : Z;
  rf_kind : string;
  rf_message_id : Z;
  rf_response : EffectResponse;
}.

#[global] Instance Committed_state_eq_dec : EqDecision Committed_state.
Proof. solve_decision. Defined.
#[global] Instance TicketResponse_eq_dec : EqDecision TicketResponse.
Proof. solve_decision. Defined.
#[global] Instance EffectReply_eq_dec : EqDecision EffectReply.
Proof. solve_decision. Defined.
#[global] Instance EffectResponse_eq_dec : EqDecision EffectResponse.
Proof. solve_decision. Defined.
#[global] Instance EffectResponseFrame_eq_dec : EqDecision EffectResponseFrame.
Proof. solve_decision. Defined.
#[global] Instance ChildFrame_eq_dec : EqDecision ChildFrame.
Proof. solve_decision. Defined.
#[global] Instance StartFrame_eq_dec : EqDecision StartFrame.
Proof. solve_decision. Defined.

Definition ChildFrame_version (frame : ChildFrame) : Z :=
  match frame with
  | EffectRequestFrame version _ _ => version
  | LogFrame version _ => version
  | FinishFrame version _ _ => version
  end.

(** The [type] tag of a child frame. *)
Definition ChildFrame_tag (frame : ChildFrame) : string :=
  match frame with
  | EffectRequestFrame _ _ _ => "effect_request"
  | LogFrame _ _ => "log"
  | FinishFrame _ _ _ => "finish"
  end.

(** ** JSON

    [serde_json::to_vec] and [serde_json::from_slice] on the frames.
    [value_type] is the [type] member of a JSON value, when the bytes are JSON
    and the member is a string; [effect_request_text] is the text of a request
    inside the frame that carries it. *)
Class FrameJson := {
  start_to_vec : StartFrame → option (list byte);
  start_from_slice : list byte → option StartFrame;
  child_to_vec : ChildFrame → option (list byte);
  child_from_slice : list byte → option ChildFrame;
  value_type : list byte → option (option string);
  raw_effect_from_slice : list byte → option RawEffectRequestFrame;
  effect_request_text : EffectRequest → list byte;
  response_to_vec : EffectResponseFrame → option (list byte);
  response_from_slice : list byte → option EffectResponseFrame;
  reply_to_vec : EffectReply → option (list byte);
  reply_from_slice : list byte → option EffectReply;
}.

(** The values the Rust types hold. *)
Definition child_typed (frame : ChildFrame) : Prop :=
  is_u8 (ChildFrame_version frame) = true ∧
  match frame with
  | EffectRequestFrame _ id r => is_u64 id = true ∧ is_u64 (er_ordinal r) = true
  | _ => True
  end.
Definition start_typed (frame : StartFrame) : Prop :=
  is_u8 (sf_version frame) = true ∧ limits_u64 (sf_limits frame).
Definition reply_typed (reply : EffectReply) : Prop := is_u64 (rep_ordinal reply) = true.
Definition response_typed (frame : EffectResponseFrame) : Prop :=
  is_u8 (rf_version frame) = true ∧ is_u64 (rf_message_id frame) = true ∧
  match rf_response frame with
  | ResponseCommitted reply => reply_typed reply
  | ResponseFailed code => is_i32 code = true
  end.

Class FrameJsonLaws `{FrameJson, EffectRequestJson} : Prop := {
  start_json : ∀ f, start_typed f →
    ∃ body, start_to_vec f = Some body ∧ body ≠ [] ∧ start_from_slice body = Some f;
  child_json : ∀ f, child_typed f →
    ∃ body, child_to_vec f = Some body ∧ body ≠ [] ∧
      value_type body = Some (Some (ChildFrame_tag f)) ∧ child_from_slice body = Some f;
  effect_json : ∀ version id r, child_typed (EffectRequestFrame version id r) →
    ∃ body, child_to_vec (EffectRequestFrame version id r) = Some body ∧
      raw_effect_from_slice body =
        Some (mkRawEffectRequestFrame version "effect_request" id (effect_request_text r)) ∧
      effect_request_from_slice (effect_request_text r) = Some r;
  response_json : ∀ f, response_typed f →
    ∃ body, response_to_vec f = Some body ∧ body ≠ [] ∧ response_from_slice body = Some f;
  reply_json : ∀ r, reply_typed r →
    ∃ body, reply_to_vec r = Some body ∧ reply_from_slice body = Some r;
}.

(** ** Framing *)

Section framing.
Context {T : Type}.

(** [Read::read_exact] *)
Definition read_exact (count : Z) : Tx (list byte) ProtocolError (list byte) := λ pipe,
  if count <=? Z.of_nat (length pipe)
  then Ok (take (Z.to_nat count) pipe, drop (Z.to_nat count) pipe)
  else Err PIo.

Definition read_frame_bytes (maximum : Z) : Tx (list byte) ProtocolError (list byte) :=
  header ← read_exact 4;
  let length := be_value header in
  tx_fail_if ((length =? 0) || (maximum <? length)) PFrameSize;;
  read_exact length.

Definition read_frame (from_slice : list byte → option T) (maximum : Z) :
    Tx (list byte) ProtocolError T :=
  body ← read_frame_bytes maximum;
  tx_ok_or (from_slice body) PJson.

(** [Write::write_all], on a writer that takes every byte. *)
Definition write_all (b : list byte) : Tx (list byte) ProtocolError unit :=
  tx_modify (λ written, written ++ b).

Definition write_frame (to_vec : T → option (list byte)) (frame : T) (maximum : Z) :
    Tx (list byte) ProtocolError unit :=
  body ← tx_ok_or (to_vec frame) PJson;
  let size := Z.of_nat (length body) in
  tx_fail_if (bool_decide (body = []) || (maximum <? size)) PFrameSize;;
  length ← tx_ok_or (checked 0 u32_max size) PFrameSize;
  write_all (u32_be length);;
  write_all body.
End framing.

Section protocol.
Context `{FrameJson, EffectRequestJson, Base64}.

Definition canonical_base64 (value : string) (max_bytes : Z) :
    result ProtocolError (list byte) :=
  fail_if (b64_cap max_bytes <? str_len value) PFrameSize;;
  decoded ← ok_or (b64_decode value) PMessage;
  fail_if ((max_bytes <? Z.of_nat (length decoded))
           || negb (bool_decide (b64_encode decoded = value))) PMessage;;
  mret decoded.

Definition StartFrame_check (self : StartFrame) : result ProtocolError unit :=
  fail_if (negb (sf_version self =? 1) || negb (bool_decide (sf_kind self = "start"%string)))
    PMessage;;
  canonical_base64 (sf_module_b64 self) MODULE_BYTES;;
  canonical_base64 (sf_input_b64 self) PAYLOAD_BYTES;;
  mret ().

Definition EffectResponseFrame_check (self : EffectResponseFrame) : result ProtocolError unit :=
  fail_if (negb (rf_version self =? 1)
           || negb (bool_decide (rf_kind self = "effect_response"%string))) PMessage;;
  match rf_response self with
  | ResponseFailed code => fail_if (negb (in_range (-7) (-3) code)) PMessage
  | ResponseCommitted _ => Ok ()
  end.

Definition read_start : Tx (list byte) ProtocolError StartFrame :=
  start ← read_frame start_from_slice START_FRAME_BYTES;
  tx_lift (StartFrame_check start);;
  mret start.

(** The test of an error code in [read_child]. *)
Definition bad_error_code (code : string) : bool :=
  str_is_empty code || (64 <? str_len code)
  || negb (forallb (λ b, is_ascii_uppercase b || bool_decide (b = "_"%byte)) (bytes code)).

(** The final [match] of [read_child]. *)
Definition child_check (frame : ChildFrame) : result ProtocolError unit :=
  match frame with
  | EffectRequestFrame _ _ request => map_err (λ _, PMessage) (EffectRequest_validate request)
  | LogFrame _ message => if str_len message <=? 16 * 1024 then Ok () else Err PMessage
  | FinishFrame _ output_b64 error_code =>
    fail_if (bool_decide (is_Some output_b64) && bool_decide (is_Some error_code)) PMessage;;
    match output_b64 with
    | Some output => canonical_base64 output PAYLOAD_BYTES;; mret ()
    | None => Ok ()
    end;;
    fail_if (match error_code with Some code => bad_error_code code | None => false end) PMessage
  end.

(** The frame of a body whose [type] is [kind]. *)
Definition child_of_body (kind : string) (body : list byte) : result ProtocolError ChildFrame :=
  if bool_decide (kind = "effect_request"%string) then
    raw ← ok_or (raw_effect_from_slice body) PJson;
    fail_if (negb (bool_decide (raw_kind raw = "effect_request"%string))) PMessage;;
    request ← map_err (λ _, PMessage) (EffectRequest_parse (raw_request raw));
    mret (EffectRequestFrame (raw_version raw) (raw_message_id raw) request)
  else ok_or (child_from_slice body) PJson.

Definition read_child : Tx (list byte) ProtocolError ChildFrame :=
  body ← read_frame_bytes MESSAGE_FRAME_BYTES;
  value ← tx_ok_or (value_type body) PJson;
  kind ← tx_ok_or value PMessage;
  frame ← tx_lift (child_of_body kind body);
  tx_fail_if (negb (ChildFrame_version frame =? 1)) PMessage;;
  tx_lift (child_check frame);;
  mret frame.
End protocol.

(** ** The parent's view of one child *)

Record ParentSequence := mkParentSequence {
  ps_next_id : Z;
  ps_pending : option Z;
  ps_finished : bool;
  ps_log_bytes : Z;
  ps_log_cap : Z;
  ps_messages : Z;
}.

Definition ParentSequence_new : ParentSequence := {|
  ps_next_id := 1; ps_pending := None; ps_finished := false; ps_log_bytes := 0;
  ps_log_cap := 16 * 1024; ps_messages := 0;
|}.

Definition with_log_cap (log_cap : Z) : result ProtocolError ParentSequence :=
  fail_if ((log_cap =? 0) || (16 * 1024 <? log_cap)) PFrameSize;;
  mret {|
    ps_next_id := 1; ps_pending := None; ps_finished := false; ps_log_bytes := 0;
    ps_log_cap := log_cap; ps_messages := 0;
  |}.

(** [&mut self] methods yield the state they leave behind, failing or not. *)
Definition observe (self : ParentSequence) (frame : ChildFrame) :
    result ProtocolError unit * ParentSequence :=
  let self := mkParentSequence (ps_next_id self) (ps_pending self) (ps_finished self)
    (ps_log_bytes self) (ps_log_cap self) (saturating_u32 (ps_messages self + 1)) in
  if ps_finished self || (128 <? ps_messages self) then (Err PSequence, self)
  else
    match frame with
    | EffectRequestFrame _ message_id _ =>
      if bool_decide (ps_pending self = None) && (message_id =? ps_next_id self) then
        match checked_u64 (ps_next_id self + 1) with
        | Some next =>
          (Ok (), mkParentSequence next (Some message_id) (ps_finished self) (ps_log_bytes self)
                    (ps_log_cap self) (ps_messages self))
        | None =>
          (Err PSequence, mkParentSequence (ps_next_id self) (Some message_id) (ps_finished self)
                            (ps_log_bytes self) (ps_log_cap self) (ps_messages self))
        end
      else (Err PSequence, self)
    | LogFrame _ message =>
      if bool_decide (ps_pending self = None)
         && (str_len message <=? Z.max 0 (ps_log_cap self - ps_log_bytes self)) then
        (Ok (), mkParentSequence (ps_next_id self) (ps_pending self) (ps_finished self)
                  (ps_log_bytes self + str_len message) (ps_log_cap self) (ps_messages self))
      else (Err PSequence, self)
    | FinishFrame _ _ _ =>
      if bool_decide (ps_pending self = None) then
        (Ok (), mkParentSequence (ps_next_id self) (ps_pending self) true (ps_log_bytes self)
                  (ps_log_cap self) (ps_messages self))
      else (Err PSequence, self)
    end.

Definition respond (self : ParentSequence) (response : EffectResponseFrame) :
    result ProtocolError unit * ParentSequence :=
  match EffectResponseFrame_check response with
  | Err e => (Err e, self)
  | Ok _ =>
    if negb (bool_decide (ps_pending self = Some (rf_message_id response)))
    then (Err PSequence, self)
    else (Ok (), mkParentSequence (ps_next_id self) None (ps_finished self) (ps_log_bytes self)
                   (ps_log_cap self) (ps_messages self))
  end.

(** ** Framing lemmas *)

Section framing_lemmas.
Context {T : Type}.
Implicit Types (pipe body rest : list byte).

Lemma read_exact_Ok count pipe b rest :
  0 ≤ count →
  read_exact count pipe = Ok (b, rest) ↔ pipe = b ++ rest ∧ Z.of_nat (length b) = count.
Proof.
  intros Hc. unfold read_exact. case_bool (count <=? Z.of_nat (length pipe)); split.
  - intros [= <- <-]. rewrite take_drop, length_take. split; [done|lia].
  - intros [-> <-]. by rewrite Nat2Z.id, take_app_length, drop_app_length.
  - done.
  - intros [-> Hl]. rewrite length_app in Hb. lia.
Qed.

(** What a frame looks like on the wire. *)
Definition wire body : list byte := u32_be (Z.of_nat (length body)) ++ body.

Definition framed (maximum : Z) body : Prop :=
  1 ≤ Z.of_nat (length body) ≤ maximum ∧ Z.of_nat (length body) ≤ u32_max.

Lemma length_4 n : length (u32_be n) = 4%nat.
Proof. apply length_be_bytes. Qed.

Lemma be_value_u32 n : 0 ≤ n ≤ u32_max → be_value (u32_be n) = n.
Proof. intros Hn. unfold u32_be. rewrite be_value_bytes. apply Z.mod_small. unfold u32_max in Hn. lia. Qed.

Lemma read_frame_bytes_wire maximum body rest :
  framed maximum body → read_frame_bytes maximum (wire body ++ rest) = Ok (body, rest).
Proof.
  intros [Hsize Hu]. unfold read_frame_bytes, wire. rewrite <-app_assoc.
  tx_step; [apply read_exact_Ok; [done|]; split; [done|by rewrite length_4]|]. cbn beta.
  cbv zeta. rewrite be_value_u32 by lia.
  tx_step; [apply tx_fail_if_Ok; split; [autorewrite with bools; lia|done]|].
  by apply read_exact_Ok; [lia|].
Qed.

Lemma read_frame_bytes_Ok maximum pipe body rest :
  read_frame_bytes maximum pipe = Ok (body, rest) → pipe = wire body ++ rest ∧ framed maximum body.
Proof.
  intros Hr. unfold read_frame_bytes in Hr.
  apply tx_bind_Ok in Hr as (header & pipe1 & Hh & Hr).
  apply read_exact_Ok in Hh as [-> Hlen]; [|done].
  apply tx_bind_Ok in Hr as ([] & pipe2 & [Hsize ->]%tx_fail_if_Ok & Hr).
  pose proof (be_value_range header) as Hrange. rewrite Hlen in Hrange.
  change (256 ^ 4) with 4294967296 in Hrange.
  apply read_exact_Ok in Hr as [-> Hbody]; [|lia].
  apply orb_false_iff in Hsize as [Hz%Z.eqb_neq Hm%Z.ltb_ge].
  unfold wire, framed. rewrite Hbody.
  assert (u32_be (be_value header) = header) as ->.
  { pose proof (be_bytes_value header) as Hv. by replace (length header) with 4%nat in Hv by lia. }
  rewrite app_assoc. split; [done|]. unfold u32_max. lia.
Qed.

(** The length is rejected on the header alone. *)
Lemma read_frame_bytes_oversize maximum header rest :
  length header = 4%nat → maximum < be_value header →
  read_frame_bytes maximum (header ++ rest) = Err PFrameSize.
Proof.
  intros Hl Hsize. unfold read_frame_bytes.
  etrans; [eapply tx_bind_run, read_exact_Ok; [done|]; split; [done|by rewrite Hl]|].
  cbv zeta beta. apply tx_bind_stop, tx_fail_if_Err. apply orb_true_iff. right. lia.
Qed.

Lemma write_frame_Ok (to_vec : T → option (list byte)) frame maximum out u out' :
  write_frame to_vec frame maximum out = Ok (u, out') ↔
  ∃ body, to_vec frame = Some body ∧ framed maximum body ∧ out' = out ++ wire body.
Proof.
  unfold write_frame, framed, wire, write_all. split.
  - intros Hw. inv_ok.
    match goal with Hc : checked _ _ _ = Some _ |- _ => apply checked_Some in Hc as [Hu ->] end.
    match goal with Hb : _ || _ = false |- _ =>
      apply orb_false_iff in Hb as [Hb ?%Z.ltb_ge]; apply bool_decide_eq_false in Hb end.
    match goal with Hb : ?b ≠ [] |- _ =>
      exists b; assert (0 < Z.of_nat (length b)) by (destruct b; simpl; [done|lia]) end.
    rewrite app_assoc. split_and!; done || lia.
  - intros (body & Hb & [Hsize Hu] & ->). destruct u.
    tx_step; [by apply tx_ok_or_Ok|]. cbv zeta.
    assert (body ≠ []) by (intros ->; simpl in *; lia).
    tx_step; [apply tx_fail_if_Ok; rewrite bool_decide_eq_false_2 by done; split; [lia|done]|].
    tx_step; [apply tx_ok_or_Ok; split; [apply checked_Some; split; [lia|done]|done]|].
    tx_step; [by apply tx_modify_Ok|]. apply tx_modify_Ok. by rewrite app_assoc.
Qed.
End framing_lemmas.

Lemma read_frame_bytes_short maximum body n :
  framed maximum body → (n < length (wire body))%nat →
  read_frame_bytes maximum (take n (wire body)) = Err PIo.
Proof.
  intros [Hsize Hu] Hn. unfold wire in *. rewrite length_app, length_4 in Hn.
  unfold read_frame_bytes. destruct (decide (n < 4)%nat) as [Hshort|Hlong].
  - apply tx_bind_stop. unfold read_exact. rewrite length_take, length_app, length_4.
    rewrite (proj2 (Z.leb_gt _ _)) by lia. done.
  - rewrite take_app, take_ge by (rewrite length_4; lia).
    etrans; [eapply tx_bind_run, read_exact_Ok; [done|]; split; [done|by rewrite length_4]|].
    cbv zeta beta. rewrite be_value_u32 by lia.
    etrans; [eapply (tx_bind_run _ _ _ ()), tx_fail_if_Ok; split; [|done]|].
    { apply orb_false_iff. split; lia. }
    unfold read_exact. rewrite length_take, length_4. by rewrite (proj2 (Z.leb_gt _ _)) by lia.
Qed.

(** ** What a child frame holds *)

Section child_frames.
Context `{FrameJson, EffectRequestJson, Base64}.

Definition canonical_text (value : string) (max_bytes : Z) : Prop :=
  ∃ b, value = b64_encode b ∧ Z.of_nat (length b) ≤ max_bytes.

Definition child_content (frame : ChildFrame) : Prop :=
  match frame with
  | EffectRequestFrame _ _ request => effect_request_ok request
  | LogFrame _ message => str_len message ≤ 16 * 1024
  | FinishFrame _ output_b64 error_code =>
    (output_b64 = None ∨ error_code = None) ∧
    (∀ output, output_b64 = Some output → canonical_text output PAYLOAD_BYTES) ∧
    (∀ code, error_code = Some code → bad_error_code code = false)
  end.

Context `{!Base64Laws}.

Lemma canonical_base64_Ok value max_bytes b :
  0 ≤ max_bytes →
  canonical_base64 value max_bytes = Ok b ↔
  value = b64_encode b ∧ Z.of_nat (length b) ≤ max_bytes.
Proof.
  intros Hmax. unfold canonical_base64. rewrite guard_Ok. split.
  - intros [_ Hb]. inv_ok. bools. by split; [|lia].
  - intros [-> Hlen]. rewrite b64_encode_length, b64_decode_encode. split.
    + unfold b64_cap, div_ceil. apply Z.ltb_ge. Z.to_euclidean_division_equations. lia.
    + simpl. rewrite bool_decide_eq_true_2 by done.
      by rewrite (proj2 (Z.ltb_ge _ _)) by lia.
Qed.

Lemma canonical_text_check value max_bytes :
  0 ≤ max_bytes →
  (canonical_base64 value max_bytes ≫= λ _, mret ()) = Ok () ↔ canonical_text value max_bytes.
Proof.
  intros Hmax. rewrite bind_Ok. setoid_rewrite canonical_base64_Ok; [|done].
  unfold canonical_text. naive_solver.
Qed.

Lemma child_check_Ok frame : child_check frame = Ok () ↔ child_content frame.
Proof.
  destruct frame as [version id request|version message|version output code]; simpl.
  - rewrite map_err_Ok. apply EffectRequest_validate_Ok.
  - case_bool (str_len message <=? 16 * 1024); split; try done; lia.
  - rewrite guard_Ok, seq_Ok, fail_if_Ok. autorewrite with bools.
    rewrite <-!eq_None_not_Some. split.
    + intros (Hone & Ho & Hc). split_and!; [done| |].
      * intros o ->. by apply canonical_text_check.
      * by intros c ->.
    + intros (Hone & Ho & Hc). split_and!; [done| |].
      * destruct output as [o|]; [|done]. apply canonical_text_check; [done|auto].
      * destruct code; auto.
Qed.

(** Exactly the bytes of a frame with a [type], a valid content and version 1. *)
Lemma read_child_Ok pipe frame rest :
  read_child pipe = Ok (frame, rest) ↔
  ∃ body kind, pipe = wire body ++ rest ∧ framed MESSAGE_FRAME_BYTES body ∧
    value_type body = Some (Some kind) ∧ child_of_body kind body = Ok frame ∧
    ChildFrame_version frame = 1 ∧ child_content frame.
Proof.
  unfold read_child. split.
  - intros Hr. apply tx_bind_Ok in Hr as (body & pipe1 & [-> Hf]%read_frame_bytes_Ok & Hr).
    inv_ok. match goal with Hc : child_check _ = Ok _ |- _ => apply child_check_Ok in Hc end.
    bools. eauto 10.
  - intros (body & kind & -> & Hf & Htype & Hbody & Hver & Hcont).
    tx_step; [by apply read_frame_bytes_wire|]. cbn beta. rewrite Htype. simpl.
    tx_step; [by apply tx_ok_or_Ok|]. cbn beta.
    tx_step; [by apply tx_ok_or_Ok|]. cbn beta.
    tx_step; [by apply tx_lift_Ok|]. cbn beta. rewrite Hver.
    tx_step; [by apply tx_fail_if_Ok|].
    tx_step; [apply tx_lift_Ok; split; [by apply child_check_Ok|done]|]. done.
Qed.

(** What an honest child sends: well-typed version 1 frames of valid content,
    an effect request of at most the cap when it is printed. *)
Record child_sendable (frame : ChildFrame) : Prop := {
  send_typed : child_typed frame;
  send_version : ChildFrame_version frame = 1;
  send_content : child_content frame;
  send_text : ∀ version id request, frame = EffectRequestFrame version id request →
    Z.of_nat (length (effect_request_text request)) ≤ EFFECT_REQUEST_BYTES;
}.

Context `{!FrameJsonLaws}.

Lemma child_body_decodes frame body :
  child_sendable frame → child_to_vec frame = Some body →
  ∃ kind, value_type body = Some (Some kind) ∧ child_of_body kind body = Ok frame.
Proof.
  intros [Htyped Hver Hcont Htext] Hbody.
  destruct (child_json _ Htyped) as (body' & Hb & _ & Htag & Hfrom). simplify_eq.
  exists (ChildFrame_tag frame). split; [done|]. unfold child_of_body.
  destruct frame as [version id request| |]; simpl; [|by rewrite Hfrom..].
  destruct (effect_json _ _ _ Htyped) as (body' & Hb & Hraw & Hreq). simplify_eq.
  rewrite Hraw. simpl.
  assert (EffectRequest_parse (effect_request_text request) = Ok request) as ->; [|done].
  apply EffectRequest_parse_Ok. eauto.
Qed.

Lemma child_frame_roundtrip frame out out' rest :
  child_sendable frame →
  write_frame child_to_vec frame MESSAGE_FRAME_BYTES out = Ok ((), out') →
  ∃ bytes, out' = out ++ bytes ∧ read_child (bytes ++ rest) = Ok (frame, rest).
Proof.
  intros Hsend (body & Hbody & Hf & ->)%write_frame_Ok. exists (wire body). split; [done|].
  destruct (child_body_decodes _ _ Hsend Hbody) as (kind & Htype & Hdec).
  apply read_child_Ok. destruct Hsend. eauto 10.
Qed.
End child_frames.

(** Reading frames one after the other. *)
Fixpoint read_frames {T} (read : Tx (list byte) ProtocolError T) (count : nat) :
    Tx (list byte) ProtocolError (list T) :=
  match count with
  | O => mret []
  | S count => frame ← read; frames ← read_frames read count; mret (frame :: frames)
  end.

Lemma frames_roundtrip `{FrameJsonLaws, !Base64, !Base64Laws} frames out out' rest :
  Forall child_sendable frames →
  tx_for_each (λ f, write_frame child_to_vec f MESSAGE_FRAME_BYTES) frames out = Ok ((), out') →
  ∃ bytes, out' = out ++ bytes ∧
    read_frames read_child (length frames) (bytes ++ rest) = Ok (frames, rest).
Proof.
  intros Hall. revert out. induction Hall as [|f frames Hf Hall IH]; intros out Hw.
  - apply tx_ret_Ok in Hw as [_ ->]. exists []. by rewrite app_nil_r.
  - apply tx_bind_Ok in Hw as ([] & out1 & Hw1 & Hw).
    destruct (IH _ Hw) as (bytes & -> & Hr).
    destruct (child_frame_roundtrip f out out1 (bytes ++ rest) Hf Hw1) as (b1 & -> & Hr1).
    exists (b1 ++ bytes). rewrite <-!app_assoc. split; [done|].
    cbn [length read_frames]. tx_step; [exact Hr1|]. cbn beta. tx_step; [exact Hr|]. done.
Qed.

(** ** The conversation *)

Inductive message :=
  | Observed (frame : ChildFrame)
  | Responded (response : EffectResponseFrame).

Definition exchange (self : ParentSequence) (m : message) : option ParentSequence :=
  match (match m with Observed f => observe self f | Responded r => respond self r end) with
  | (Ok _, self') => Some self'
  | (Err _, _) => None
  end.

(** The state after a conversation, as long as every message is accepted. *)
Fixpoint converse (self : ParentSequence) (l : list message) : option ParentSequence :=
  match l with
  | [] => Some self
  | m :: l => self' ← exchange self m; converse self' l
  end.

(** The conversations of one child: log messages within the cap, effect
    requests with consecutive identifiers, each answered before anything else
    is said, and at most one finish, at the end. *)
Inductive talk (cap : Z) : Z → Z → list message → Prop :=
  | talk_nil id used : talk cap id used []
  | talk_log id used version text l :
      used + str_len text ≤ cap → talk cap id (used + str_len text) l →
      talk cap id used (Observed (LogFrame version text) :: l)
  | talk_ask id used version request :
      talk cap id used [Observed (EffectRequestFrame version id request)]
  | talk_answer id used version request response l :
      EffectResponseFrame_check response = Ok () → rf_message_id response = id →
      talk cap (id + 1) used l →
      talk cap id used
        (Observed (EffectRequestFrame version id request) :: Responded response :: l)
  | talk_finish id used version output code :
      talk cap id used [Observed (FinishFrame version output code)].

Definition is_observed (m : message) : bool :=
  match m with Observed _ => true | Responded _ => false end.
Definition observations (l : list message) : Z := Z.of_nat (length (filter is_observed l)).

(** The states between two exchanges, during one, and after the last. *)
Definition listening (cap id used seen : Z) : ParentSequence :=
  mkParentSequence id None false used cap seen.
Definition answering (cap id used seen : Z) : ParentSequence :=
  mkParentSequence (id + 1) (Some id) false used cap seen.
Definition closed (cap id used seen : Z) : ParentSequence :=
  mkParentSequence id None true used cap seen.

Lemma observations_cons m l :
  observations (m :: l) = (if is_observed m then 1 else 0) + observations l.
Proof. unfold observations. rewrite filter_cons. destruct m; simpl; lia. Qed.

Lemma observations_nonneg l : 0 ≤ observations l.
Proof. unfold observations. lia. Qed.

Section conversation.
Variables (cap id used seen : Z).
Hypothesis Hused : 0 ≤ used ≤ cap.
Hypothesis Hseen : 0 ≤ seen ≤ 128.
Hypothesis Hid : 1 ≤ id ≤ seen + 1.

Lemma saturating_small z : 0 ≤ z ≤ u32_max → saturating_u32 z = z.
Proof. unfold saturating_u32. lia. Qed.

Lemma exchange_listening m :
  exchange (listening cap id used seen) m =
  match m with
  | Observed (LogFrame _ text) =>
    if (seen <? 128) && (used + str_len text <=? cap)
    then Some (listening cap id (used + str_len text) (seen + 1)) else None
  | Observed (EffectRequestFrame _ message_id _) =>
    if (seen <? 128) && (message_id =? id)
    then Some (answering cap id used (seen + 1)) else None
  | Observed (FinishFrame _ _ _) =>
    if seen <? 128 then Some (closed cap id used (seen + 1)) else None
  | Responded _ => None
  end.
Proof.
  unfold exchange, listening, observe, respond.
  cbn [ps_next_id ps_pending ps_finished ps_log_bytes ps_log_cap ps_messages].
  destruct m as [f|r].
  - rewrite saturating_small by (unfold u32_max; lia). cbn [orb].
    rewrite (Z.ltb_antisym (seen + 1)). case_bool (seen <? 128); cbn [andb].
    + rewrite (proj2 (Z.leb_le _ _)) by lia. cbn [negb]. destruct f as [v mid r|v text|v o c].
      * rewrite bool_decide_eq_true_2 by done. simpl.
        case_bool (mid =? id); [|done]. subst.
        unfold checked_u64. rewrite (proj2 (checked_Some _ _ _ (id + 1))); [done|].
        unfold u64_max. lia.
      * rewrite bool_decide_eq_true_2 by done. simpl. rewrite Z.max_r by lia.
        case_bool (used + str_len text <=? cap).
        -- by rewrite (proj2 (Z.leb_le _ _)) by lia.
        -- by rewrite (proj2 (Z.leb_gt _ _)) by lia.
      * by rewrite bool_decide_eq_true_2 by done.
    + rewrite (proj2 (Z.leb_gt _ _)) by lia. cbn [negb]. by destruct f.
  - destruct (EffectResponseFrame_check r); [|done]. by rewrite bool_decide_eq_false_2.
Qed.

Lemma exchange_answering m :
  exchange (answering cap id used seen) m =
  match m with
  | Observed _ => None
  | Responded r =>
    if decide (EffectResponseFrame_check r = Ok () ∧ rf_message_id r = id)
    then Some (listening cap (id + 1) used seen) else None
  end.
Proof.
  unfold exchange, answering, observe, respond.
  cbn [ps_next_id ps_pending ps_finished ps_log_bytes ps_log_cap ps_messages].
  destruct m as [f|r].
  - rewrite !bool_decide_eq_false_2 by done. cbn [orb andb].
    destruct (128 <? _); [done|]. by destruct f.
  - destruct (EffectResponseFrame_check r) as [[]|e]; [|by rewrite decide_False by naive_solver].
    case_decide as Hr.
    + destruct Hr as [_ ->]. by rewrite bool_decide_eq_true_2.
    + rewrite bool_decide_eq_false_2; [done|]. naive_solver.
Qed.

Lemma exchange_closed m : exchange (closed cap id used seen) m = None.
Proof.
  unfold exchange, closed, observe, respond.
  cbn [ps_next_id ps_pending ps_finished ps_log_bytes ps_log_cap ps_messages].
  destruct m as [f|r]; [done|].
  destruct (EffectResponseFrame_check r); [|done]. by rewrite bool_decide_eq_false_2.
Qed.
End conversation.

Lemma converse_talk n l cap id used seen :
  (length l ≤ n)%nat → 0 ≤ used ≤ cap → 0 ≤ seen ≤ 128 → 1 ≤ id ≤ seen + 1 →
  is_Some (converse (listening cap id used seen) l) ↔
  talk cap id used l ∧ seen + observations l ≤ 128.
Proof.
  revert l id used seen. induction n as [|n IH]; intros l id used seen Hlen Hu Hs Hi.
  { destruct l; [|simpl in Hlen; lia]. split; [|by eauto]. intros _. split; [constructor|].
    unfold observations. simpl. lia. }
  destruct l as [|m l].
  { split; [|by eauto]. intros _. split; [constructor|]. unfold observations. simpl. lia. }
  cbn [converse length] in *. rewrite exchange_listening, observations_cons by done.
  pose proof (observations_nonneg l) as Hobs.
  destruct m as [[version mid request|version text|version output code]|r]; cbn [is_observed].
  - case_bool ((seen <? 128) && (mid =? id)); cbn [mbind option_bind]; [|split].
    + destruct Hb as [Hb ->]. destruct l as [|m l]; cbn [converse].
      { split; [|by eauto]. intros _. split; [constructor|]. unfold observations. simpl. lia. }
      rewrite exchange_answering by lia. rewrite observations_cons in *. destruct m as [f|r].
      { split; [by intros [? ?]|]. intros [Ht _]. inversion Ht. }
      case_decide as Hr; cbn [mbind option_bind is_observed].
      * rewrite IH by (simpl in *; lia). destruct Hr as [Hr1 Hr2]. split.
        -- intros [Ht Ho]. split; [by constructor|lia].
        -- intros [Ht Ho]. inversion Ht; subst. split; [done|lia].
      * split; [by intros [? ?]|]. intros [Ht _]. inversion Ht; subst. naive_solver.
    + by intros [? ?].
    + intros [Ht Ho]. inversion Ht; subst; lia.
  - assert (0 ≤ str_len text) by apply str_len_nonneg.
    case_bool ((seen <? 128) && (used + str_len text <=? cap)); cbn [mbind option_bind]; [|split].
    + rewrite IH by lia. split.
      * intros [Ht Ho]. split; [constructor; [lia|done]|lia].
      * intros [Ht Ho]. inversion Ht; subst. split; [done|lia].
    + by intros [? ?].
    + intros [Ht Ho]. inversion Ht; subst. lia.
  - case_bool (seen <? 128); cbn [mbind option_bind]; [|split].
    + destruct l as [|m l]; cbn [converse].
      { split; [|by eauto]. intros _. split; [constructor|]. unfold observations. simpl. lia. }
      rewrite exchange_closed by lia. split; [by intros [? ?]|]. intros [Ht _]. inversion Ht.
    + by intros [? ?].
    + intros [Ht Ho]. lia.
  - split; [by intros [? ?]|]. intros [Ht _]. inversion Ht.
Qed.

(** Facts about every conversation. *)
Definition logged (l : list message) : Z :=
  foldr (λ m acc, match m with Observed (LogFrame _ text) => str_len text + acc | _ => acc end) 0 l.
Definition asked (l : list message) : list Z :=
  omap (λ m, match m with Observed (EffectRequestFrame _ id _) => Some id | _ => None end) l.
Definition answered (l : list message) : list Z :=
  omap (λ m, match m with Responded r => Some (rf_message_id r) | _ => None end) l.

Definition log_texts : list message → list string :=
  omap (λ m, match m with Observed (LogFrame _ text) => Some text | _ => None end).
Definition frames_of : list message → list ChildFrame :=
  omap (λ m, match m with Observed frame => Some frame | _ => None end).
Definition responses_of : list message → list EffectResponseFrame :=
  omap (λ m, match m with Responded response => Some response | _ => None end).

Lemma talk_facts cap id used l :
  used ≤ cap → talk cap id used l →
  used + logged l ≤ cap ∧ asked l = seqZ id (Z.of_nat (length (asked l))) ∧
  answered l `prefix_of` asked l ∧ (length (asked l) ≤ 1 + length (answered l))%nat.
Proof.
  intros Hcap. induction 1 as [id used|id used v text l Hfit Ht IH|id used v r
    |id used v r resp l Hc Hid Ht IH|id used v o c]; cbn [logged foldr asked answered omap].
  - split_and!; try done; simpl; lia.
  - destruct (IH Hfit) as (Hl & Ha & Hp & Hn). unfold logged in Hl. split_and!; try done. lia.
  - split_and!; simpl; try lia; [done|by apply prefix_nil].
  - destruct (IH Hcap) as (Hl & Ha & Hp & Hn). split_and!; [done| | |simpl in *; lia].
    + simpl. rewrite seqZ_cons, Nat2Z.inj_succ, Z.pred_succ, <-Z.add_1_r by lia. by f_equal.
    + simpl. rewrite Hid. by apply prefix_cons.
  - split_and!; simpl; try done; lia.
Qed.

(** ** A concrete JSON service

    Any injective encoding into bytes satisfies the laws; this one goes through
    the positive numbers of [Countable]. *)
Module JsonReference.
Fixpoint bits (p : positive) : list byte :=
  match p with xH => [x01] | xO p => x00 :: bits p | xI p => x02 :: bits p end.
Fixpoint unbits (l : list byte) : option positive :=
  match l with
  | [x01] => Some xH
  | x00 :: l => xO <$> unbits l
  | x02 :: l => xI <$> unbits l
  | _ => None
  end.

Definition to_bytes {A} `{Countable A} (a : A) : list byte := bits (encode a).
Definition of_bytes {A} `{Countable A} (l : list byte) : option A := unbits l ≫= decode.

Lemma unbits_bits p : unbits (bits p) = Some p.
Proof.
  induction p as [p IH|p IH|]; [simpl; by rewrite IH| |done].
  simpl. rewrite IH. by destruct (bits p).
Qed.
Lemma of_to_bytes {A} `{Countable A} (a : A) : of_bytes (to_bytes a) = Some a.
Proof. unfold of_bytes, to_bytes. rewrite unbits_bits. simpl. apply decode_encode. Qed.
Lemma to_bytes_nonempty {A} `{Countable A} (a : A) : to_bytes a ≠ [].
Proof. unfold to_bytes. by destruct (encode a). Qed.

#[global] Instance Limits_countable : Countable Limits.
Proof.
  refine (inj_countable' (λ l, (fuel l, memory_bytes l, wall_ms l, max_effects l))
    (λ '(f, m, w, e), mkLimits f m w e) _). by intros [].
Defined.
#[global] Instance StartFrame_countable : Countable StartFrame.
Proof.
  refine (inj_countable' (λ f, (sf_version f, sf_kind f, sf_module_b64 f, sf_input_b64 f, sf_limits f))
    (λ '(v, k, m, i, l), mkStartFrame v k m i l) _). by intros [].
Defined.
#[global] Instance EffectRequest_countable : Countable EffectRequest.
Proof.
  refine (inj_countable' (λ r, (er_ordinal r, er_action r, er_destination r,
      ta_project (er_arguments r), ta_title (er_arguments r), ta_body (er_arguments r)))
    (λ '(o, a, d, p, t, b), mkEffectRequest o a d (mkTicketArguments p t b)) _).
  by intros [? ? ? []].
Defined.
#[global] Instance ChildFrame_countable : Countable ChildFrame.
Proof.
  refine (inj_countable' (λ f, match f with
      | EffectRequestFrame v i r => inl (v, i, r)
      | LogFrame v m => inr (inl (v, m))
      | FinishFrame v o c => inr (inr (v, o, c)) end)
    (λ x, match x with
      | inl (v, i, r) => EffectRequestFrame v i r
      | inr (inl (v, m)) => LogFrame v m
      | inr (inr (v, o, c)) => FinishFrame v o c end) _). by intros [].
Defined.
#[global] Instance EffectReply_countable : Countable EffectReply.
Proof.
  refine (inj_countable' (λ r, (rep_ordinal r, tr_ticket_id (rep_response r),
      tr_project (rep_response r), rep_replayed r))
    (λ '(o, t, p, b), mkEffectReply o COMMITTED (mkTicketResponse t p) b) _).
  by intros [? [] [] ?].
Defined.
#[global] Instance EffectResponseFrame_countable : Countable EffectResponseFrame.
Proof.
  refine (inj_countable' (λ f, (rf_version f, rf_kind f, rf_message_id f,
      match rf_response f with ResponseCommitted r => inl r | ResponseFailed c => inr c end))
    (λ '(v, k, i, r), mkEffectResponseFrame v k i
      match r with inl r => ResponseCommitted r | inr c => ResponseFailed c end) _).
  by intros [? ? ? []].
Defined.

#[global] Instance effect_json_ref : EffectRequestJson := of_bytes.
#[global] Instance frame_json_ref : FrameJson := {|
  start_to_vec f := Some (to_bytes f); start_from_slice := of_bytes;
  child_to_vec f := Some (to_bytes f); child_from_slice := of_bytes;
  value_type b := (λ f : ChildFrame, Some (ChildFrame_tag f)) <$> of_bytes b;
  raw_effect_from_slice b :=
    f ← of_bytes b;
    match f with
    | EffectRequestFrame v i r => Some (mkRawEffectRequestFrame v "effect_request" i (to_bytes r))
    | _ => None
    end;
  effect_request_text r := to_bytes r;
  response_to_vec f := Some (to_bytes f); response_from_slice := of_bytes;
  reply_to_vec r := Some (to_bytes r); reply_from_slice := of_bytes;
|}.
#[global] Instance frame_json_ref_laws : FrameJsonLaws.
Proof.
  split; intros; eexists; (split; [reflexivity|]); cbn -[to_bytes of_bytes];
    rewrite ?of_to_bytes; cbn -[to_bytes of_bytes];
    split_and?; auto using to_bytes_nonempty, of_to_bytes.
  unfold effect_request_from_slice, effect_json_ref. apply of_to_bytes.
Qed.
End JsonReference.

Module IpcDemo.
Import Reference JsonReference.

Definition request : EffectRequest :=
  mkEffectRequest 0 "ticket.create" "desk" (mkTicketArguments "ops" "t" "").
Definition frames : list ChildFrame :=
  [EffectRequestFrame 1 1 request; LogFrame 1 "hi"; FinishFrame 1 None (Some "POLICY"%string)].
Definition write : Tx (list byte) ProtocolError unit :=
  tx_for_each (λ f, write_frame child_to_vec f MESSAGE_FRAME_BYTES) frames.
Definition written : list byte := tx_state write [].
Definition response : EffectResponseFrame :=
  mkEffectResponseFrame 1 "effect_response" 1 (ResponseFailed (-3)).
Definition dialogue : list message :=
  [Observed (LogFrame 1 "hi"); Observed (EffectRequestFrame 1 1 request); Responded response;
   Observed (FinishFrame 1 None None)].

Lemma request_ok : effect_request_ok request.
Proof. by apply (EffectRequest_validate_Ok _ ()). Qed.
Lemma sendable : Forall child_sendable frames.
Proof.
  repeat constructor; try done; try (intros ? ? ? [= <- <- <-]; by vm_compute);
    try apply request_ok.
  by intros c [= <-].
Qed.
Lemma wrote : write [] = Ok ((), written).
Proof. vm_compute. reflexivity. Qed.
Lemma read_one : ∃ rest, read_child written = Ok (EffectRequestFrame 1 1 request, rest).
Proof. eexists. vm_compute. reflexivity. Qed.
End IpcDemo.

(** ** Properties *)

(** The child's frames survive the pipe.  Whatever frames an honest
    child sends one after the other, reading as many frames from what it wrote
    (followed by anything) yields exactly those frames, in order, and leaves
    exactly what followed. *)
Theorem child_stream_roundtrip `{FrameJsonLaws, !Base64, !Base64Laws} frames written rest :
  Forall child_sendable frames →
  tx_for_each (λ f, write_frame child_to_vec f MESSAGE_FRAME_BYTES) frames [] = Ok ((), written) →
  read_frames read_child (length frames) (written ++ rest) = Ok (frames, rest).
Proof.
  intros Hall Hw. destruct (frames_roundtrip _ _ _ rest Hall Hw) as (b & -> & Hr). exact Hr.
Qed.

Lemma child_stream_roundtrip_witness :
  let _ := JsonReference.effect_json_ref in let _ := JsonReference.frame_json_ref in
  let _ := Reference.b64_ref in
  read_frames read_child 3 (IpcDemo.written ++ [x07]) = Ok (IpcDemo.frames, [x07]).
Proof.
  intros e f b.
  exact (child_stream_roundtrip (H3 := Reference.b64_ref_laws)
    (H1 := JsonReference.frame_json_ref_laws) _ _ [x07] IpcDemo.sendable IpcDemo.wrote).
Defined.

(** C31: what the supervisor accepts from a child, and what it refuses.  A
    frame is accepted exactly when the pipe starts with a length between 1 and
    the cap and that many bytes, which are JSON with a known type, version 1
    and content within the limits (an effect request as the domain validates
    it, a log of at most 16 KiB, a finish with canonical output or a bounded
    error code, not both), and then exactly those bytes are consumed; a length
    over the cap is refused whatever follows it, and a frame cut short is an
    I/O error. *)
Theorem read_child_exact `{FrameJson, EffectRequestJson, Base64Laws} pipe :
  (∀ frame rest,
     read_child pipe = Ok (frame, rest) ↔
     ∃ body kind, pipe = wire body ++ rest ∧ framed MESSAGE_FRAME_BYTES body ∧
       value_type body = Some (Some kind) ∧ child_of_body kind body = Ok frame ∧
       ChildFrame_version frame = 1 ∧ child_content frame) ∧
  (∀ header rest, pipe = header ++ rest → length header = 4%nat →
     MESSAGE_FRAME_BYTES < be_value header → read_child pipe = Err PFrameSize) ∧
  (∀ body n, framed MESSAGE_FRAME_BYTES body → (n < length (wire body))%nat →
     pipe = take n (wire body) → read_child pipe = Err PIo).
Proof.
  split_and!.
  - intros frame rest. apply read_child_Ok.
  - intros header rest -> Hl Hcap. by apply tx_bind_stop, read_frame_bytes_oversize.
  - intros body n Hf Hn ->. by apply tx_bind_stop, read_frame_bytes_short.
Qed.

Lemma read_child_exact_witness :
  let _ := JsonReference.effect_json_ref in let _ := JsonReference.frame_json_ref in
  let _ := Reference.b64_ref in
  ∃ rest body kind, IpcDemo.written = wire body ++ rest ∧ framed MESSAGE_FRAME_BYTES body ∧
    value_type body = Some (Some kind).
Proof.
  intros e f b. destruct IpcDemo.read_one as [rest Hr].
  destruct (proj1 (proj1 (read_child_exact (H2 := Reference.b64_ref_laws) IpcDemo.written) _ _) Hr)
    as (body & kind & Hp & Hf & Ht & _).
  exists rest, body, kind. split; [exact Hp|]. split; [exact Hf|exact Ht].
Defined.

(** C30: [ParentSequence] accepts exactly the protocol.  From a fresh
    sequence a conversation is accepted message for message exactly when it
    belongs to the language [talk] and observes at most 128 frames; and in an
    accepted conversation the logs fit the cap, the effect requests are
    numbered 1, 2, 3, ..., the answers name the requests in order, and at most
    the last request is unanswered. *)
Theorem parent_sequence_language cap self l :
  with_log_cap cap = Ok self → 0 ≤ cap →
  (is_Some (converse self l) ↔ talk cap 1 0 l ∧ observations l ≤ 128) ∧
  (is_Some (converse self l) →
   logged l ≤ cap ∧ asked l = seqZ 1 (Z.of_nat (length (asked l))) ∧
   answered l `prefix_of` asked l ∧ (length (asked l) ≤ 1 + length (answered l))%nat).
Proof.
  intros Hcap Hpos. unfold with_log_cap in Hcap. inv_ok.
  assert (is_Some (converse (listening cap 1 0 0) l) ↔ talk cap 1 0 l ∧ observations l ≤ 128)
    as Hiff by (rewrite (converse_talk (length l)) by lia; done).
  split; [exact Hiff|]. intros [Ht _]%Hiff. destruct (talk_facts _ _ _ _ Hpos Ht) as (? & ?).
  split; [lia|done].
Qed.

Lemma parent_sequence_language_witness :
  talk 16384 1 0 IpcDemo.dialogue ∧ observations IpcDemo.dialogue ≤ 128.
Proof.
  refine (proj1 (proj1 (parent_sequence_language 16384 ParentSequence_new IpcDemo.dialogue
    eq_refl _)) _); [done|by eexists].
Defined.
