(* ===== verification/Abi.v ===== *)
(** * Abi: the host functions a guest can call

    Models [crates/runtime/src/abi.rs].  The guest's linear memory, which the
    engine owns, is the class [GuestMemory]; the broker behind [effect_call] is
    the class [EffectDispatcher], as it is a trait in the code. *)
From S2P Require Export Ipc.

Definition MAX_HOST_CALLS : Z := 64.

(** ** The guest's memory

    [Memory::data_size], [Memory::read] into a buffer of the given length and
    [Memory::write]: both copies succeed exactly inside the memory. *)
Class GuestMemory (M : Type) := {
  data_size : M → Z;
  mem_read : M → Z → Z → option (list byte);
  mem_write : M → Z → list byte → option M;
}.
Class GuestMemoryLaws (M : Type) `{GuestMemory M} : Prop := {
  mem_read_range : ∀ m start len, 0 ≤ start → 0 ≤ len →
    start + len ≤ data_size m ↔ is_Some (mem_read m start len);
  mem_read_length : ∀ m start len b, 0 ≤ len → mem_read m start len = Some b →
    Z.of_nat (length b) = len;
  mem_write_range : ∀ m start b, 0 ≤ start →
    start + Z.of_nat (length b) ≤ data_size m ↔ is_Some (mem_write m start b);
  mem_write_size : ∀ m start b m', mem_write m start b = Some m' → data_size m' = data_size m;
  mem_write_read : ∀ m start b m', 0 ≤ start → mem_write m start b = Some m' →
    mem_read m' start (Z.of_nat (length b)) = Some b;
  mem_write_other : ∀ m start b m' start' len, 0 ≤ start → 0 ≤ start' → 0 ≤ len →
    mem_write m start b = Some m' →
    start' + len ≤ start ∨ start + Z.of_nat (length b) ≤ start' →
    mem_read m' start' len = mem_read m start' len;
}.

(** ** Codes and errors *)

Record AbiCaps := mkAbiCaps {
  host_calls : Z;
  cap_log_bytes : Z;
}.

Inductive AbiCode :=
  | AInvalidMemory
  | ASize
  | APolicy
  | AUnresolved
  | AReplayDivergence
  | AInvalidState
  | AUnavailable.

(** [code as i32] *)
Definition AbiCode_i32 (code : AbiCode) : Z :=
  match code with
  | AInvalidMemory => -1
  | ASize => -2
  | APolicy => -3
  | AUnresolved => -4
  | AReplayDivergence => -5
  | AInvalidState => -6
  | AUnavailable => -7
  end.

Inductive DispatchFailure :=
  | DPolicy
  | DUnresolved
  | DReplayDivergence
  | DUnavailable.

Definition DispatchFailure_code (self : DispatchFailure) : AbiCode :=
  match self with
  | DPolicy => APolicy
  | DUnresolved => AUnresolved
  | DReplayDivergence => AReplayDivergence
  | DUnavailable => AUnavailable
  end.

Inductive RuntimeError :=
  | RLimits (e : ConfigError)
  | RInvalidModule
  | RWasmtime
  | RWatchdog
  | RConcurrentRun.

Inductive AbiError :=
  | InputSize
  | InvalidCaps
  | Violation (code : AbiCode)
  | Runtime (e : RuntimeError)
  | StatePoisoned.

#[global] Instance AbiCode_eq_dec : EqDecision AbiCode.
Proof. solve_decision. Defined.
#[global] Instance DispatchFailure_eq_dec : EqDecision DispatchFailure.
Proof. solve_decision. Defined.
#[global] Instance RuntimeError_eq_dec : EqDecision RuntimeError.
Proof. solve_decision. Defined.
#[global] Instance AbiError_eq_dec : EqDecision AbiError.
Proof. solve_decision. Defined.

Definition AbiCaps_validate (self : AbiCaps) : result AbiError AbiCaps :=
  fail_if ((host_calls self =? 0) || (MAX_HOST_CALLS <? host_calls self)
           || (cap_log_bytes self =? 0) || (LOG_BYTES <? cap_log_bytes self)) InvalidCaps;;
  mret self.

(** The trait [EffectDispatcher]. *)
Class EffectDispatcher (D : Type) :=
  dispatch : D → EffectRequest → result DispatchFailure (list byte) * D.

Record AbiOutcome := mkAbiOutcome {
  ao_return_code : Z;
  ao_output : option (list byte);
  ao_logs : list string;
  ao_host_calls : Z;
}.

(** ** The shared state *)

Record State (D : Type) := mkState {
  s_input : list byte;
  s_output : option (list byte);
  s_logs : list string;
  s_log_bytes : Z;
  s_calls : Z;
  s_caps : AbiCaps;
  s_next_ordinal : Z;
  s_max_effects : Z;
  s_sticky : option AbiCode;
  s_dispatcher : D;
}.
Arguments mkState {D}.
Arguments s_input {D}.
Arguments s_output {D}.
Arguments s_logs {D}.
Arguments s_log_bytes {D}.
Arguments s_calls {D}.
Arguments s_caps {D}.
Arguments s_next_ordinal {D}.
Arguments s_max_effects {D}.
Arguments s_sticky {D}.
Arguments s_dispatcher {D}.

(** The state a host function works on, once it holds the lock: the shared
    state and the caller's exported memory, when it exports one. *)
Record World (D M : Type) := mkWorld {
  w_state : State D;
  w_memory : option M;
}.
Arguments mkWorld {D M}.
Arguments w_state {D M}.
Arguments w_memory {D M}.

Section setters.
Context {D : Type}.
Implicit Types s : State D.

Definition set_output (output : option (list byte)) s : State D :=
  mkState (s_input s) output (s_logs s) (s_log_bytes s) (s_calls s) (s_caps s)
    (s_next_ordinal s) (s_max_effects s) (s_sticky s) (s_dispatcher s).
Definition set_log (message : string) (len : Z) s : State D :=
  mkState (s_input s) (s_output s) (s_logs s ++ [message]) (s_log_bytes s + len) (s_calls s)
    (s_caps s) (s_next_ordinal s) (s_max_effects s) (s_sticky s) (s_dispatcher s).
Definition set_calls (calls : Z) s : State D :=
  mkState (s_input s) (s_output s) (s_logs s) (s_log_bytes s) calls (s_caps s)
    (s_next_ordinal s) (s_max_effects s) (s_sticky s) (s_dispatcher s).
Definition set_next_ordinal (next : Z) s : State D :=
  mkState (s_input s) (s_output s) (s_logs s) (s_log_bytes s) (s_calls s) (s_caps s)
    next (s_max_effects s) (s_sticky s) (s_dispatcher s).
Definition set_dispatcher (d : D) s : State D :=
  mkState (s_input s) (s_output s) (s_logs s) (s_log_bytes s) (s_calls s) (s_caps s)
    (s_next_ordinal s) (s_max_effects s) (s_sticky s) d.
(** [state.sticky.get_or_insert(code)] *)
Definition set_sticky (code : AbiCode) s : State D :=
  mkState (s_input s) (s_output s) (s_logs s) (s_log_bytes s) (s_calls s) (s_caps s)
    (s_next_ordinal s) (s_max_effects s)
    (match s_sticky s with Some first => Some first | None => Some code end) (s_dispatcher s).
End setters.

(** What a host call gives the guest: a value, or a trap that ends it. *)
Inductive HostResult :=
  | Returns (code : Z)
  | Trap.

(** [z as i32] *)
Definition wrap_i32 (z : Z) : Z := (z + 2147483648) mod 4294967296 - 2147483648.
(** [z as u32] *)
Definition wrap_u32 (z : Z) : Z := z mod 4294967296.

Inductive HostCall :=
  | InputLen
  | InputRead (ptr capacity : Z)
  | OutputWrite (ptr len : Z)
  | Log (ptr len : Z)
  | EffectCall (req_ptr req_len resp_ptr resp_cap : Z).

Section host.
Context {D M : Type} `{EffectDispatcher D, GuestMemory M, FrameJson, EffectRequestJson}.

(** The body of a host function: it may return early. *)
Abbreviation Host := (Act (World D M) HostResult).

Definition update_state (f : State D → State D) (w : World D M) : World D M :=
  mkWorld (f (w_state w)) (w_memory w).
Definition update_memory (m : M) (w : World D M) : World D M := mkWorld (w_state w) (Some m).

(** [return fail(&mut state, code)] *)
Definition fail {A} (code : AbiCode) : Host A :=
  act_stop (update_state (set_sticky code)) (Returns (AbiCode_i32 code)).
Definition fail_when (cond : bool) (code : AbiCode) : Host unit :=
  if cond then fail code else mret ().
(** [match r { Ok(value) => value, Err(code) => return fail(&mut state, code) }] *)
Definition or_fail {A} (f : World D M → result AbiCode A) : Host A :=
  r ← act_gets f;
  match r with Ok value => mret value | Err code => fail code end.

Definition unresolved {A} : Host A := act_stop (update_state (set_sticky AUnresolved)) Trap.

(** [budget(&mut state)], with the return of its caller. *)
Definition budget : Host unit :=
  act_modify (update_state (λ s, set_calls (saturating_u32 (s_calls s + 1)) s));;
  state ← act_gets w_state;
  match s_sticky state with
  | Some code => act_stop id (Returns (AbiCode_i32 code))
  | None =>
    fail_when (bool_decide (is_Some (s_output state))) AInvalidState;;
    fail_when (host_calls (s_caps state) <? s_calls state) AInvalidState
  end.

Definition range (ptr len : Z) (w : World D M) : result AbiCode (M * Z * Z) :=
  length ← (if len <? 0 then Err ASize else Ok len);
  let start := wrap_u32 ptr in
  end_ ← ok_or (checked_u64 (start + length)) AInvalidMemory;
  memory ← ok_or (w_memory w) AInvalidMemory;
  fail_if (data_size memory <? end_) AInvalidMemory;;
  start ← ok_or (checked_u64 start) AInvalidMemory;
  mret (memory, start, length).

Definition read (ptr len : Z) (w : World D M) : result AbiCode (list byte) :=
  '(memory, start, length) ← range ptr len w;
  ok_or (mem_read memory start length) AInvalidMemory.

Definition input_len : Host HostResult :=
  budget;;
  state ← act_gets w_state;
  mret (Returns (wrap_i32 (Z.of_nat (length (s_input state))))).

Definition input_read (ptr capacity : Z) : Host HostResult :=
  budget;;
  state ← act_gets w_state;
  fail_when ((capacity <? 0) || (capacity <? Z.of_nat (length (s_input state)))) ASize;;
  '(memory, start, _) ← or_fail (range ptr capacity);
  match mem_write memory start (s_input state) with
  | None => fail AInvalidMemory
  | Some memory =>
    act_modify (update_memory memory);;
    mret (Returns (wrap_i32 (Z.of_nat (length (s_input state)))))
  end.

Definition output_write (ptr len : Z) : Host HostResult :=
  budget;;
  state ← act_gets w_state;
  fail_when (bool_decide (is_Some (s_output state))) AInvalidState;;
  fail_when ((len <? 0) || (PAYLOAD_BYTES <? len)) ASize;;
  bytes ← or_fail (read ptr len);
  act_modify (update_state (set_output (Some bytes)));;
  mret (Returns len).

Definition log (ptr len : Z) : Host HostResult :=
  budget;;
  state ← act_gets w_state;
  fail_when ((len <? 0)
             || (Z.max 0 (cap_log_bytes (s_caps state) - s_log_bytes state) <? len)) ASize;;
  bytes ← or_fail (read ptr len);
  match from_utf8 bytes with
  | None => fail APolicy
  | Some message =>
    act_modify (update_state (set_log message len));;
    mret (Returns len)
  end.

(** [valid_reply] of [effect_call]. *)
Definition reply_matches (request : EffectRequest) (response : list byte) : bool :=
  match reply_from_slice response with
  | Some reply =>
    (rep_ordinal reply =? er_ordinal request)
    && bool_decide (tr_project (rep_response reply) = ta_project (er_arguments request))
    && negb (str_is_empty (tr_ticket_id (rep_response reply)))
  | None => false
  end.

(** [state.dispatcher.dispatch(request)] *)
Definition dispatch_request (request : EffectRequest) :
    Host (result DispatchFailure (list byte)) := λ w,
  let '(r, d) := dispatch (s_dispatcher (w_state w)) request in
  (Ok r, update_state (set_dispatcher d) w).

(** [effect_call] up to the dispatch: every check on the request and on the
    whole destination. *)
Definition effect_request_of (req_ptr req_len resp_ptr resp_cap : Z) : Host EffectRequest :=
  budget;;
  fail_when ((req_len <=? 0) || (EFFECT_REQUEST_BYTES <? req_len)
             || (resp_cap <? PAYLOAD_BYTES)) ASize;;
  or_fail (range resp_ptr resp_cap);;
  request_bytes ← or_fail (read req_ptr req_len);
  request ← match EffectRequest_parse request_bytes with
            | Ok request => mret request
            | Err _ => fail APolicy
            end;
  state ← act_gets w_state;
  fail_when ((s_next_ordinal state <? er_ordinal request)
             || (s_max_effects state <=? er_ordinal request)) APolicy;;
  mret request.

(** [effect_call] from the broker's answer on. *)
Definition deliver (request : EffectRequest) (resp_ptr resp_cap : Z) (response : list byte) :
    Host HostResult :=
  let size := Z.of_nat (length response) in
  (if (PAYLOAD_BYTES <? size) || (resp_cap <? size) then unresolved else mret ());;
  (if negb (reply_matches request response) then unresolved else mret ());;
  r ← act_gets (range resp_ptr resp_cap);
  match r with
  | Err _ => unresolved
  | Ok (memory, start, _) =>
    match mem_write memory start response with
    | None => unresolved
    | Some memory =>
      act_modify (update_memory memory);;
      state ← act_gets w_state;
      (if er_ordinal request =? s_next_ordinal state
       then act_modify (update_state (set_next_ordinal (s_next_ordinal state + 1)))
       else mret ());;
      mret (Returns (wrap_i32 size))
    end
  end.

Definition effect_call (req_ptr req_len resp_ptr resp_cap : Z) : Host HostResult :=
  request ← effect_request_of req_ptr req_len resp_ptr resp_cap;
  answer ← dispatch_request request;
  match answer with
  | Ok response => deliver request resp_ptr resp_cap response
  | Err error =>
    let code := DispatchFailure_code error in
    act_modify (update_state (set_sticky code));;
    if bool_decide (code = AUnresolved) then unresolved
    else mret (Returns (AbiCode_i32 code))
  end.

(** [shared.lock()], and the value of the closure; [None] is a poisoned lock. *)
Definition locked (poisoned : HostResult) (body : Host HostResult) (w : option (World D M)) :
    HostResult * option (World D M) :=
  match w with
  | None => (poisoned, None)
  | Some w => match body w with (Ok r, w) => (r, Some w) | (Err r, w) => (r, Some w) end
  end.

(** The five functions [install] links. *)
Definition host_call (call : HostCall) :
    option (World D M) → HostResult * option (World D M) :=
  match call with
  | InputLen => locked (Returns (AbiCode_i32 AUnavailable)) input_len
  | InputRead ptr capacity =>
    locked (Returns (AbiCode_i32 AUnavailable)) (input_read ptr capacity)
  | OutputWrite ptr len => locked (Returns (AbiCode_i32 AUnavailable)) (output_write ptr len)
  | Log ptr len => locked (Returns (AbiCode_i32 AUnavailable)) (log ptr len)
  | EffectCall req_ptr req_len resp_ptr resp_cap =>
    locked Trap (effect_call req_ptr req_len resp_ptr resp_cap)
  end.

(** The state [execute_abi] shares with the guest. *)
Definition initial_state (input : list byte) (caps : AbiCaps) (requested : Limits)
    (dispatcher : D) : State D := {|
  s_input := input; s_output := None; s_logs := []; s_log_bytes := 0; s_calls := 0;
  s_caps := caps; s_next_ordinal := 0; s_max_effects := max_effects requested;
  s_sticky := None; s_dispatcher := dispatcher;
|}.

(** [execute_abi]; [execute] is [engine.execute] with the functions [install]
    links: it yields its result and the shared state it leaves. *)
Definition execute_abi
    (execute : State D → result RuntimeError Z * option (State D))
    (input : list byte) (requested : Limits) (abi_caps : AbiCaps) (dispatcher : D) :
    result AbiError AbiOutcome :=
  fail_if (PAYLOAD_BYTES <? Z.of_nat (length input)) InputSize;;
  caps ← AbiCaps_validate abi_caps;
  let '(ran, shared) := execute (initial_state input caps requested dispatcher) in
  state ← ok_or shared StatePoisoned;
  match s_sticky state with
  | Some code => Err (Violation code)
  | None =>
    return_code ← map_err Runtime ran;
    mret {|
      ao_return_code := return_code; ao_output := s_output state;
      ao_logs := s_logs state; ao_host_calls := s_calls state;
    |}
  end.
End host.

(** ** A guest's run

    A guest changes its own memory as it likes and calls host functions until
    one of them traps. *)
Section guest.
Context {D M : Type} `{EffectDispatcher D, GuestMemory M, FrameJson, EffectRequestJson}.

Inductive guest_run (w0 : World D M) : list (HostCall * HostResult) → World D M → Prop :=
  | run_start : guest_run w0 [] w0
  | run_memory evs w m : guest_run w0 evs w → guest_run w0 evs (mkWorld (w_state w) m)
  | run_call evs w call r w' :
      guest_run w0 evs w → Forall (λ e, e.2 ≠ Trap) evs →
      host_call call (Some w) = (r, Some w') → guest_run w0 (evs ++ [(call, r)]) w'.
End guest.

Lemma wrap_i32_small z : 0 ≤ z ≤ PAYLOAD_BYTES → wrap_i32 z = z.
Proof. unfold wrap_i32, PAYLOAD_BYTES. intros ?. rewrite Z.mod_small; lia. Qed.

Lemma wrap_u32_range z : 0 ≤ wrap_u32 z ≤ u32_max.
Proof. unfold wrap_u32, u32_max. pose proof (Z.mod_pos_bound z 4294967296). lia. Qed.

Section ranges.
Context {D M : Type} `{EffectDispatcher D, GuestMemory M, FrameJson, EffectRequestJson}.

Lemma sticky_twice code (w : World D M) :
  update_state (set_sticky AUnresolved) (update_state (set_sticky code) w) =
  update_state (set_sticky code) w.
Proof. destruct w as [[? ? ? ? ? ? ? ? [] ?] ?]; done. Qed.

Lemma range_start ptr len (w : World D M) m start length :
  range ptr len w = Ok (m, start, length) →
  start = wrap_u32 ptr ∧ length = len ∧ 0 ≤ len ∧ 0 ≤ start ∧ start + len ≤ data_size m ∧
  w_memory w = Some m.
Proof.
  unfold range, checked_u64, wrap_u32. intros Hr. inv_ok. case_bool (len <? 0); inv_ok.
  repeat match goal with Hc : checked _ _ _ = Some _ |- _ => apply checked_Some in Hc as [? ->] end.
  bools. simplify_eq. split_and!; done || lia.
Qed.
End ranges.
