(* ===== verification/Guest.v ===== *)
(** * Guest: what a guest can make the host do

    The properties of the host functions of [Abi]: a guest is contained, its
    run's verdict is its first failure, and a committed effect reaches it. *)
From S2P Require Export Abi.

(** ** Every call keeps the guest contained

    The dispatcher is observed through a trace of what it was asked and what it
    answered. *)
Abbreviation Asked := (EffectRequest * result DispatchFailure (list byte))%type.

#[global] Instance traced {D} `{EffectDispatcher D} : EffectDispatcher (D * list Asked) :=
  λ d request,
    let '(r, d') := dispatch d.1 request in (r, (d', d.2 ++ [(request, r)])).

Section containment.
Context {D M : Type} `{EffectDispatcher D, GuestMemory M, FrameJson, EffectRequestJson}.
Abbreviation TState := (State (D * list Asked)).
Abbreviation TWorld := (World (D * list Asked) M).

Definition trace (s : TState) : list Asked := (s_dispatcher s).2.

(** The broker committed the effect and its reply is about it. *)
Definition settled (e : Asked) : Prop := ∃ b, e.2 = Ok b ∧ reply_matches e.1 b = true.

(** Every ordinal below [n] has been committed. *)
Definition committed_below (n : Z) (l : list Asked) : Prop :=
  ∀ j, 0 ≤ j < n → ∃ e, e ∈ l ∧ settled e ∧ er_ordinal e.1 = j.

Definition total_len (logs : list string) : Z := foldr (λ m acc, str_len m + acc) 0 logs.

Lemma total_len_nonneg logs : 0 ≤ total_len logs.
Proof. induction logs as [|m logs IH]; simpl; [done|]. pose proof (str_len_nonneg m). lia. Qed.

Record abi_ok (input : list byte) (caps : AbiCaps) (max : Z) (s : TState) : Prop := {
  ab_input : s_input s = input;
  ab_caps : s_caps s = caps;
  ab_max : s_max_effects s = max;
  ab_calls : 0 ≤ s_calls s;
  ab_used : Z.of_nat (length (trace s) + length (s_logs s)) ≤ Z.min (s_calls s) (host_calls caps);
  ab_valid : Forall (λ e : Asked, effect_request_ok e.1 ∧ er_ordinal e.1 < max) (trace s);
  ab_gapless : ∀ l1 e l2, trace s = l1 ++ e :: l2 → committed_below (er_ordinal e.1) l1;
  ab_next : 0 ≤ s_next_ordinal s ≤ Z.max 0 max ∧ committed_below (s_next_ordinal s) (trace s);
  ab_last : ∀ l1 e, trace s = l1 ++ [e] → Forall settled l1;
  ab_settled : s_sticky s = None → Forall settled (trace s);
  ab_output : ∀ b, s_output s = Some b → Z.of_nat (length b) ≤ PAYLOAD_BYTES;
  ab_logs : s_log_bytes s = total_len (s_logs s) ∧ s_log_bytes s ≤ cap_log_bytes caps;
}.

(** After the budget was charged: nothing failed, and one more action fits. *)
Record abi_ready (input : list byte) (caps : AbiCaps) (max : Z) (s : TState) : Prop := {
  ar_ok : abi_ok input caps max s;
  ar_sticky : s_sticky s = None;
  ar_output : s_output s = None;
  ar_room : Z.of_nat (length (trace s) + length (s_logs s)) < s_calls s ≤ host_calls caps;
}.

Lemma settled_committed n l e :
  committed_below n l → settled e → er_ordinal e.1 = n → committed_below (n + 1) (l ++ [e]).
Proof.
  intros Hl He Hn j Hj. destruct (decide (j = n)) as [->|Hne].
  - exists e. split; [set_solver|done].
  - destruct (Hl j) as (e' & Hin & ?); [lia|]. exists e'. split; [set_solver|done].
Qed.

Lemma committed_below_app n l l' : committed_below n l → committed_below n (l ++ l').
Proof. intros Hl j Hj. destruct (Hl j Hj) as (e & Hin & ?). exists e. split; [set_solver|done]. Qed.

Variables (input : list byte) (caps : AbiCaps) (max : Z).
Hypothesis Hcaps : host_calls caps ≤ MAX_HOST_CALLS.
Hypothesis Hinput : Z.of_nat (length input) ≤ PAYLOAD_BYTES.

Definition keeps (w : TWorld) : Prop := abi_ok input caps max (w_state w).
Definition ready (w : TWorld) : Prop := abi_ready input caps max (w_state w).

(** What a call answers tells whether the guest is still in good standing. *)
Definition answers (r : HostResult) (sticky : option AbiCode) : Prop :=
  match sticky with
  | None => ∃ n, r = Returns n ∧ 0 ≤ n
  | Some code => r = Returns (AbiCode_i32 code) ∨ (code = AUnresolved ∧ r = Trap)
  end.
Definition leaves (r : HostResult) (w : TWorld) : Prop :=
  keeps w ∧ answers r (s_sticky (w_state w)).

Lemma sticky_ok code s : abi_ok input caps max s → abi_ok input caps max (set_sticky code s).
Proof.
  intros []. split; simpl; try done. destruct (s_sticky s); done.
Qed.

(** Nothing failed so far; unlike [ready], the call may have had its effect. *)
Definition sound (w : TWorld) : Prop := keeps w ∧ s_sticky (w_state w) = None.

Lemma ready_sound w : ready w → sound w.
Proof. by intros []. Qed.

Lemma sound_fails code r w : sound w →
  r = Returns (AbiCode_i32 code) ∨ (code = AUnresolved ∧ r = Trap) →
  leaves r (update_state (set_sticky code) w).
Proof.
  intros [Hw Hst] Hr. split; [by apply sticky_ok|].
  unfold update_state, answers. simpl. by rewrite Hst.
Qed.

Lemma sound_returns n w : sound w → 0 ≤ n → leaves (Returns n) w.
Proof. intros [Hw Hst] Hn. split; [done|]. rewrite Hst. by exists n. Qed.

Lemma fail_spec {A} code (P : TWorld → Prop) (Q : A → TWorld → Prop) :
  (∀ w, P w → ready w) → act_spec P (fail code) Q leaves.
Proof. intros HP. apply act_spec_stop. intros w Hw. apply sound_fails; [by apply ready_sound, HP|auto]. Qed.

Lemma fail_when_spec (cond : bool) code (P : TWorld → Prop) :
  (∀ w, P w → ready w) →
  act_spec P (fail_when cond code) (λ _ w, P w ∧ cond = false) leaves.
Proof.
  intros HP. destruct cond; [by apply fail_spec|]. by apply act_spec_ret.
Qed.

Lemma or_fail_spec {A} (f : TWorld → result AbiCode A) (P : TWorld → Prop) :
  (∀ w, P w → ready w) →
  act_spec P (or_fail f) (λ a w, P w ∧ f w = Ok a) leaves.
Proof.
  intros HP w Hw. unfold or_fail, act_gets, mbind, act_bind.
  destruct (f w) as [a|code] eqn:Hf; [by split|]. simpl.
  apply sound_fails; [by apply ready_sound, HP|auto].
Qed.

Lemma unresolved_spec {A} (P : TWorld → Prop) (Q : A → TWorld → Prop) :
  (∀ w, P w → sound w) → act_spec P unresolved Q leaves.
Proof. intros HP. apply act_spec_stop. intros w Hw. apply sound_fails; auto. Qed.

Lemma budget_spec : act_spec keeps budget (λ _, ready) leaves.
Proof.
  intros [s mem] Hok. unfold keeps in Hok. simpl in Hok.
  unfold budget, act_modify, act_gets, mbind, act_bind. simpl. assert (abi_ok input caps max
    (set_calls (saturating_u32 (s_calls s + 1)) s)) as Hok'.
  { destruct Hok as [? ? ? Hc Hu ? ? ? ? ? ? ?]. split; simpl; try done.
    - unfold saturating_u32, u32_max. lia.
    - unfold trace in *. simpl. unfold saturating_u32, u32_max, MAX_HOST_CALLS in *. lia. }
  destruct (s_sticky s) as [code|] eqn:Hst.
  { split; [exact Hok'|]. unfold answers. simpl. rewrite Hst. by left. }
  assert (sound (mkWorld (set_calls (saturating_u32 (s_calls s + 1)) s) mem)) as Hs by done.
  unfold fail_when. case_bool_decide as Ho; simpl; [apply sound_fails; auto|].
  destruct (host_calls (s_caps s) <? saturating_u32 (s_calls s + 1)) eqn:Hcalls; simpl;
    [apply sound_fails; auto|]. apply Z.ltb_ge in Hcalls.
  split; simpl; try done.
  - destruct (s_output s) eqn:E; [|done]. destruct Ho. eauto.
  - destruct Hok as [_ Hcp _ Hc Hu _ _ _ _ _ _ _]. rewrite Hcp in Hcalls. unfold trace in *. simpl.
    unfold saturating_u32, u32_max, MAX_HOST_CALLS in *. lia.
Qed.

(** The state once the broker has answered [r] with [ans]. *)
Lemma sent_ok (s0 : TState) r ans d st next :
  abi_ready input caps max s0 → d.2 = trace s0 ++ [(r, ans)] →
  effect_request_ok r → er_ordinal r < max → er_ordinal r ≤ s_next_ordinal s0 →
  (st = None → settled (r, ans)) →
  next = s_next_ordinal s0 ∨
    (next = s_next_ordinal s0 + 1 ∧ er_ordinal r = s_next_ordinal s0 ∧ settled (r, ans)) →
  abi_ok input caps max (mkState (s_input s0) (s_output s0) (s_logs s0) (s_log_bytes s0)
    (s_calls s0) (s_caps s0) next (s_max_effects s0) st d).
Proof.
  intros [Hok Hst Hout Hroom] Hd Hr Hmax Hle Hset Hnext. destruct Hok. split; simpl; try done.
  - unfold trace in *. simpl. rewrite Hd, length_app. simpl. lia.
  - unfold trace. simpl. rewrite Hd. apply Forall_app. split; [done|by constructor].
  - unfold trace. simpl. rewrite Hd. intros l1 e l2 Hl.
    destruct l2 as [|e2 l2 _] using rev_ind.
    + apply app_inj_tail in Hl as [<- <-]. simpl. intros j Hj. apply ab_next0. lia.
    + rewrite app_comm_cons, app_assoc in Hl. apply app_inj_tail in Hl as [Hl _].
      by eapply ab_gapless0.
  - unfold trace. simpl. rewrite Hd. destruct Hnext as [->|(-> & Hn & Hs)].
    + split; [lia|]. apply committed_below_app, ab_next0.
    + split; [lia|]. apply settled_committed; [apply ab_next0|done|done].
  - unfold trace. simpl. rewrite Hd. intros l1 e [<- _]%app_inj_tail. auto.
  - intros ->. unfold trace. simpl. rewrite Hd. apply Forall_app. split; [auto|].
    constructor; [auto|constructor].
Qed.

Lemma effect_request_of_spec req_ptr req_len resp_ptr resp_cap :
  act_spec keeps (effect_request_of req_ptr req_len resp_ptr resp_cap)
    (λ r w, ready w ∧ effect_request_ok r ∧ er_ordinal r < max ∧
       er_ordinal r ≤ s_next_ordinal (w_state w)) leaves.
Proof.
  unfold effect_request_of. eapply act_spec_bind; [apply budget_spec|]. intros [].
  eapply act_spec_bind; [by apply fail_when_spec|]. intros [].
  eapply act_spec_bind; [apply or_fail_spec; by intros w [? _]|]. intros ?.
  eapply act_spec_bind; [apply or_fail_spec; by intros w [[? _] _]|].
  intros b. eapply (act_spec_bind _ _ (λ r w, ready w ∧ effect_request_ok r)).
  - destruct (EffectRequest_parse b) as [r|e] eqn:Hp.
    + apply EffectRequest_parse_Ok in Hp as (_ & _ & ?). apply act_spec_ret.
      by intros w [[[? _] _] _].
    + apply fail_spec. by intros w [[[? _] _] _].
  - intros r. eapply (act_spec_bind _ _ (λ st w, w_state w = st ∧ ready w ∧ effect_request_ok r)).
    { by apply act_spec_gets. }
    intros st. eapply act_spec_bind.
    { apply fail_when_spec. by intros w (_ & ? & _). }
    intros []. apply act_spec_ret. intros w [(<- & Hw & Hr) Hc].
    apply orb_false_iff in Hc as [Hn%Z.ltb_ge Hm%Z.leb_gt]. pose proof Hw as [[_ _ Hmax _ _ _ _ _ _ _ _ _] _ _ _].
    rewrite Hmax in Hm. done.
Qed.

(** [effect_call] once the request was sent: [w0] is the world before. *)
Definition answered_from (r : EffectRequest) (ans : result DispatchFailure (list byte))
    (w : TWorld) : Prop :=
  ∃ s0 d, abi_ready input caps max s0 ∧ d.2 = trace s0 ++ [(r, ans)] ∧ effect_request_ok r ∧
    er_ordinal r < max ∧ er_ordinal r ≤ s_next_ordinal s0 ∧ w_state w = set_dispatcher d s0.

Lemma dispatch_request_spec r :
  act_spec (λ w, ready w ∧ effect_request_ok r ∧ er_ordinal r < max ∧
      er_ordinal r ≤ s_next_ordinal (w_state w))
    (dispatch_request r) (λ ans, answered_from r ans) leaves.
Proof.
  intros w (Hw & Hr & Hm & Hn). unfold dispatch_request.
  change (@dispatch (D * list Asked) traced) with (@traced D _). unfold traced.
  destruct (dispatch (s_dispatcher (w_state w)).1 r) as [ans d'] eqn:Hd. simpl.
  exists (w_state w), (d', trace (w_state w) ++ [(r, ans)]). by split_and!.
Qed.

Lemma answered_fails req ans code r w :
  answered_from req ans w →
  r = Returns (AbiCode_i32 code) ∨ (code = AUnresolved ∧ r = Trap) →
  leaves r (update_state (set_sticky code) w).
Proof.
  intros (s0 & d & Hs & Hd & Hr & Hm & Hn & Hw) Hres. split.
  - unfold keeps, update_state. simpl. rewrite Hw.
    apply (sent_ok s0 req ans d); auto; simpl. by destruct (s_sticky s0).
  - unfold answers, update_state. simpl. rewrite Hw. simpl. by rewrite (ar_sticky _ _ _ _ Hs).
Qed.

Lemma answered_unresolved {A} r ans (P : TWorld → Prop) (Q : A → TWorld → Prop) :
  (∀ w, P w → answered_from r ans w) → act_spec P unresolved Q leaves.
Proof. intros HP. apply act_spec_stop. intros w Hw. eapply answered_fails; [by apply HP|auto]. Qed.

Lemma deliver_spec r resp_ptr resp_cap response :
  act_spec (answered_from r (Ok response)) (deliver r resp_ptr resp_cap response)
    leaves leaves.
Proof.
  unfold deliver. cbv zeta.
  eapply (act_spec_bind _ _ (λ _ w, answered_from r (Ok response) w ∧
    Z.of_nat (length response) ≤ PAYLOAD_BYTES)).
  { destruct (_ || _) eqn:Hsz; [by eapply answered_unresolved|].
    apply act_spec_ret. split; [done|bools; lia]. }
  intros [].
  eapply (act_spec_bind _ _ (λ _ w, answered_from r (Ok response) w ∧
    Z.of_nat (length response) ≤ PAYLOAD_BYTES ∧ reply_matches r response = true)).
  { destruct (reply_matches r response); simpl; [apply act_spec_ret|eapply answered_unresolved];
      by intros w []. }
  intros []. eapply (act_spec_bind _ _ (λ _ w, answered_from r (Ok response) w ∧
    Z.of_nat (length response) ≤ PAYLOAD_BYTES ∧
    reply_matches r response = true)); [by apply act_spec_gets|].
  intros [[[m start] len]|e]; [|eapply answered_unresolved; by intros w [? _]].
  destruct (mem_write m start response) as [m'|]; [|eapply answered_unresolved; by intros w [? _]].
  intros w [(s0 & d & Hs & Hd & Hr & Hm & Hn & Hw) [Hsz Hmatch]].
  unfold act_modify, act_gets, mbind, act_bind. simpl. rewrite Hw. simpl.
  assert (settled (r, Ok response)) as Hset by (by exists response).
  destruct (er_ordinal r =? s_next_ordinal s0) eqn:Heq; simpl;
    (apply sound_returns; [|rewrite wrap_i32_small; lia]); unfold sound, keeps; simpl;
    rewrite ?Hw; (split; [apply (sent_ok s0 r (Ok response) d); auto; simpl|apply Hs]).
  apply Z.eqb_eq in Heq. auto.
Qed.

Lemma effect_call_spec req_ptr req_len resp_ptr resp_cap :
  act_spec keeps (effect_call req_ptr req_len resp_ptr resp_cap) leaves leaves.
Proof.
  unfold effect_call. eapply act_spec_bind; [apply effect_request_of_spec|]. intros r.
  eapply act_spec_bind; [apply dispatch_request_spec|]. intros [response|error].
  - apply deliver_spec.
  - intros w Hw. cbv zeta. unfold mbind, act_bind, act_modify.
    case_bool_decide as Hc; simpl.
    + destruct error; try done. rewrite sticky_twice. by eapply answered_fails; [|right].
    + by eapply answered_fails; [|left].
Qed.

Lemma from_utf8_bytes b m : from_utf8 b = Some m → bytes m = b.
Proof. unfold from_utf8. destruct (utf8_valid b); [|done]. intros [= <-]. apply bytes_text. Qed.

Lemma total_len_snoc logs m : total_len (logs ++ [m]) = total_len logs + str_len m.
Proof. induction logs as [|x logs IH]; simpl in *; lia. Qed.

Lemma ready_input :
  act_spec ready (act_gets w_state) (λ st w, ready w ∧ s_input st = input) leaves.
Proof. intros w Hw. split; [done|]. apply Hw. Qed.

Lemma input_len_spec : act_spec keeps input_len leaves leaves.
Proof.
  unfold input_len. eapply act_spec_bind; [apply budget_spec|]. intros [].
  eapply (act_spec_bind _ _ (λ st w, ready w ∧ s_input st = input));
    [apply ready_input|]. intros st.
  apply act_spec_ret. intros w [Hw ->]. apply sound_returns; [by apply ready_sound|].
  rewrite wrap_i32_small; lia.
Qed.

Lemma input_read_spec ptr capacity :
  act_spec keeps (input_read ptr capacity) leaves leaves.
Proof.
  unfold input_read. eapply act_spec_bind; [apply budget_spec|]. intros [].
  eapply (act_spec_bind _ _ (λ st w, ready w ∧ s_input st = input));
    [apply ready_input|]. intros st.
  eapply act_spec_bind; [apply fail_when_spec; by intros w [? _]|]. intros [].
  eapply act_spec_bind; [apply or_fail_spec; by intros w [[? _] _]|].
  intros [[m start] len].
  destruct (mem_write m start (s_input st)) as [m'|].
  - intros w [[[Hw ->] _] _]. apply sound_returns; [by apply ready_sound in Hw|].
    rewrite wrap_i32_small; lia.
  - apply fail_spec. by intros w [[[? _] _] _].
Qed.

Context `{!GuestMemoryLaws M}.

Lemma read_length ptr len (w : TWorld) b : read ptr len w = Ok b → Z.of_nat (length b) = len ∧ 0 ≤ len.
Proof.
  unfold read. intros ([[m start] l] & Hr & Hb)%bind_Ok.
  apply range_start in Hr as (-> & -> & Hlen & _).
  apply ok_or_Ok, mem_read_length in Hb; done.
Qed.

Lemma output_write_spec ptr len :
  act_spec keeps (output_write ptr len) leaves leaves.
Proof.
  unfold output_write. eapply act_spec_bind; [apply budget_spec|]. intros [].
  eapply (act_spec_bind _ _ (λ _, ready)); [by apply act_spec_gets|]. intros st.
  eapply act_spec_bind; [by apply fail_when_spec|]. intros [].
  eapply act_spec_bind; [apply fail_when_spec; by intros w [? _]|]. intros [].
  eapply act_spec_bind; [apply or_fail_spec; by intros w [[? _] _]|]. intros b.
  intros w [[[Hw _] Hlen] [Hb Hpos]%read_length].
  apply orb_false_iff in Hlen as [_ Hlen%Z.ltb_ge]. apply sound_returns; [|done].
  destruct Hw as [[] Hst _ _]. split; [|done]. split; simpl; try done. intros ? [= <-]. lia.
Qed.

Lemma log_spec ptr len : act_spec keeps (log ptr len) leaves leaves.
Proof.
  unfold log. eapply act_spec_bind; [apply budget_spec|]. intros [].
  eapply (act_spec_bind _ _ (λ st w, ready w ∧ w_state w = st)); [by apply act_spec_gets|].
  intros st. eapply act_spec_bind; [apply fail_when_spec; by intros w [? _]|].
  intros []. eapply act_spec_bind; [apply or_fail_spec; by intros w [[? _] _]|].
  intros b. destruct (from_utf8 b) as [message|] eqn:Hm;
    [|apply fail_spec; by intros w [[[? _] _] _]].
  intros w [[[Hw <-] Hfit] [Hb Hpos]%read_length].
  apply orb_false_iff in Hfit as [_ Hfit%Z.ltb_ge].
  assert (str_len message = len) as Hlen
    by (unfold str_len; by rewrite (from_utf8_bytes _ _ Hm)).
  apply sound_returns; [|done].
  destruct Hw as [[] Hst Hout Hroom]. split; [|done]. split; simpl; try done.
  - unfold trace in *. simpl. rewrite length_app. simpl. lia.
  - rewrite total_len_snoc, Hlen. destruct ab_logs0 as [Hsum Hcap].
    rewrite ab_caps0 in Hfit. split; lia.
Qed.

Lemma locked_spec poisoned body (w w' : TWorld) r :
  act_spec keeps body leaves leaves → keeps w →
  locked poisoned body (Some w) = (r, Some w') → leaves r w'.
Proof.
  intros Hbody Hw Hl. specialize (Hbody w Hw). simpl in Hl.
  destruct (body w) as [[r1|r1] w1]; by simplify_eq.
Qed.

Lemma host_call_spec call (w w' : TWorld) r :
  keeps w → host_call call (Some w) = (r, Some w') → leaves r w'.
Proof.
  destruct call; intros Hw Hc; (eapply locked_spec; [|exact Hw|exact Hc]).
  - apply input_len_spec.
  - apply input_read_spec.
  - apply output_write_spec.
  - apply log_spec.
  - apply effect_call_spec.
Qed.

Lemma guest_run_keeps (w0 w : TWorld) evs : keeps w0 → guest_run w0 evs w → keeps w.
Proof. intros Hinit. induction 1; [done|done|by eapply host_call_spec]. Qed.

End containment.

Lemma guest_initial_ok {D} `{FrameJson} input caps requested (d : D) :
  0 ≤ cap_log_bytes caps → 0 ≤ host_calls caps →
  abi_ok input caps (max_effects requested)
    (initial_state input caps requested (d, [])).
Proof.
  intros Hl Hh. split; unfold trace; simpl; try done; try lia.
  - intros l1 e l2 Hl1. by destruct l1.
  - split; [lia|]. intros j Hj. lia.
  - intros l1 e Hl1. by destruct l1.
Qed.

(** ** What a run of the guest adds up to *)

Definition AbiCode_all : list AbiCode :=
  [AInvalidMemory; ASize; APolicy; AUnresolved; AReplayDivergence; AInvalidState; AUnavailable].
Definition AbiCode_of_i32 (n : Z) : option AbiCode :=
  snd <$> list_find (λ code, AbiCode_i32 code = n) AbiCode_all.

(** The failure a host call reports to the guest. *)
Definition call_failure (r : HostResult) : option AbiCode :=
  match r with Trap => Some AUnresolved | Returns n => AbiCode_of_i32 n end.
Fixpoint first_failure (evs : list (HostCall * HostResult)) : option AbiCode :=
  match evs with
  | [] => None
  | e :: evs => match call_failure e.2 with Some code => Some code | None => first_failure evs end
  end.

Lemma AbiCode_of_i32_neg code : AbiCode_of_i32 (AbiCode_i32 code) = Some code.
Proof. by destruct code. Qed.

Lemma AbiCode_of_i32_pos n : 0 ≤ n → AbiCode_of_i32 n = None.
Proof.
  intros Hn. unfold AbiCode_of_i32.
  destruct (list_find _ _) as [[i code]|] eqn:Hf; [|done].
  apply list_find_Some in Hf as (_ & Hc & _). destruct code; simpl in Hc; lia.
Qed.

Lemma call_failure_answers r sticky : answers r sticky → call_failure r = sticky.
Proof.
  destruct sticky as [code|]; simpl.
  - intros [->|[-> ->]]; [apply AbiCode_of_i32_neg|done].
  - intros (n & -> & Hn). by apply AbiCode_of_i32_pos.
Qed.

Lemma first_failure_app l l' :
  first_failure (l ++ l') =
  match first_failure l with Some code => Some code | None => first_failure l' end.
Proof. induction l as [|e l IH]; simpl; [done|]. by destruct (call_failure e.2). Qed.

Section frames.
Context {D M : Type} `{EffectDispatcher D, GuestMemory M, FrameJson, EffectRequestJson}.

(** A host function never poisons the lock. *)
Lemma host_call_lock call (w : World D M) : ∃ r w', host_call call (Some w) = (r, Some w').
Proof. destruct call; simpl; destruct (_ : result _ _ * _) as [[r|r] w']; eauto. Qed.

(** A host call stops where its budget check stops. *)
Lemma host_call_budget call (w w' : World D M) r :
  budget w = (Err r, w') → host_call call (Some w) = (r, Some w').
Proof.
  intros Hb. destruct call; simpl; unfold input_len, input_read, output_write, log, effect_call,
    effect_request_of, mbind, act_bind; by rewrite Hb.
Qed.

Lemma budget_sticky code (w : World D M) :
  s_sticky (w_state w) = Some code →
  budget w = (Err (Returns (AbiCode_i32 code)),
    update_state (set_calls (saturating_u32 (s_calls (w_state w) + 1))) w).
Proof.
  intros Hs. unfold budget, mbind, act_bind, act_modify, act_gets. simpl. by rewrite Hs.
Qed.

(** After the first failure only the call counter moves. *)
Lemma host_call_sticky call code (w : World D M) :
  s_sticky (w_state w) = Some code →
  host_call call (Some w) = (Returns (AbiCode_i32 code),
    Some (update_state (set_calls (saturating_u32 (s_calls (w_state w) + 1))) w)).
Proof. intros Hs. by apply host_call_budget, budget_sticky. Qed.

Lemma budget_spent (w : World D M) :
  host_calls (s_caps (w_state w)) <= s_calls (w_state w) < u32_max →
  ∃ r w', budget w = (Err r, w') ∧ s_sticky (w_state w') ≠ None.
Proof.
  intros Hn. unfold budget, mbind, act_bind, act_modify, act_gets. simpl.
  destruct (s_sticky (w_state w)) as [code|] eqn:Hs.
  { eexists _, _. split; [done|]. simpl. by rewrite Hs. }
  unfold fail_when. case_bool_decide; simpl.
  { eexists _, _. split; [done|]. simpl. by rewrite Hs. }
  replace (_ <? _) with true; [|symmetry; apply Z.ltb_lt; unfold saturating_u32; lia].
  eexists _, _. split; [done|]. simpl. by rewrite Hs.
Qed.

(** [m] leaves what [f] reads alone. *)
Definition untouched {A B} (f : World D M → B) (m : Act (World D M) HostResult A) : Prop :=
  ∀ w, f (m w).2 = f w.

Lemma untouched_bind {A A' B} (f : World D M → B) (m : Act (World D M) HostResult A)
    (k : A → Act (World D M) HostResult A') :
  untouched f m → (∀ a, untouched f (k a)) → untouched f (m ≫= k).
Proof.
  intros Hm Hk w. unfold mbind, act_bind. specialize (Hm w).
  destruct (m w) as [[a|e] w']; simpl in *; [by rewrite Hk|done].
Qed.

Lemma fail_untouched {A B} (f : World D M → B) code :
  (∀ w, f (update_state (set_sticky code) w) = f w) → untouched f (fail (A:=A) code).
Proof. intros Hf w. apply Hf. Qed.

Definition calls_made (w : World D M) : Z := s_calls (w_state w).
(** What a refused [effect_call] must leave alone. *)
Definition broker_view (w : World D M) : D * Z * option M :=
  (s_dispatcher (w_state w), s_next_ordinal (w_state w), w_memory w).
End frames.

(** [untouched] goals follow the code's statements. *)
Ltac untouched_step :=
  match goal with
  | |- untouched _ (_ ≫= _) => apply untouched_bind; [|intros ?]
  | |- untouched _ (mret _) => intros ?; reflexivity
  | |- untouched _ (act_gets _) => intros ?; reflexivity
  | |- untouched _ (act_modify _) => intros ?; reflexivity
  | |- untouched _ (fail _) => apply fail_untouched; done
  | |- untouched _ unresolved => intros ?; reflexivity
  | |- untouched _ (act_stop _ _) => intros ?; reflexivity
  | |- untouched _ (fail_when _ _) => unfold fail_when
  | |- untouched _ (or_fail _) => unfold or_fail
  | |- untouched _ (let '_ := _ in _) => case_match
  | |- untouched _ (match _ with _ => _ end) => case_match
  end.
Ltac untouched := repeat untouched_step.

Section counting.
Context {D M : Type} `{EffectDispatcher D, GuestMemory M, FrameJson, EffectRequestJson}.

Lemma dispatch_untouched r : untouched calls_made (dispatch_request (D:=D) (M:=M) r).
Proof. intros w. unfold dispatch_request. by destruct (dispatch _ _). Qed.

Lemma budget_calls (w : World D M) :
  calls_made (budget w).2 = saturating_u32 (calls_made w + 1).
Proof.
  unfold budget, mbind, act_bind, act_modify, act_gets, calls_made. simpl.
  destruct (s_sticky (w_state w)); [done|]. unfold fail_when.
  case_bool_decide; simpl; [done|]. by destruct (_ <? _).
Qed.

Lemma budget_then {A} (k : unit → Act (World D M) HostResult A) w :
  (∀ u, untouched calls_made (k u)) →
  calls_made ((budget ≫= k) w).2 = saturating_u32 (calls_made w + 1).
Proof.
  intros Hk. unfold mbind, act_bind. pose proof (budget_calls w) as Hb.
  destruct (budget w) as [[u|r] w1]; simpl in *; [by rewrite Hk|done].
Qed.

Lemma effect_request_calls req_ptr req_len resp_ptr resp_cap (w : World D M) :
  calls_made (effect_request_of req_ptr req_len resp_ptr resp_cap w).2 =
  saturating_u32 (calls_made w + 1).
Proof. apply budget_then. intros []. untouched. Qed.

Lemma deliver_calls request resp_ptr resp_cap response :
  untouched calls_made (deliver (D:=D) (M:=M) request resp_ptr resp_cap response).
Proof. unfold deliver. cbv zeta. untouched. Qed.

Lemma locked_calls poisoned body (w w' : World D M) r :
  calls_made (body w).2 = saturating_u32 (calls_made w + 1) →
  locked poisoned body (Some w) = (r, Some w') →
  calls_made w' = saturating_u32 (calls_made w + 1).
Proof. simpl. destruct (body w) as [[r1|r1] w1]; simpl; intros <- Hl; by simplify_eq. Qed.

(** Every host call costs one call. *)
Lemma host_call_calls call (w w' : World D M) r :
  host_call call (Some w) = (r, Some w') → calls_made w' = saturating_u32 (calls_made w + 1).
Proof.
  destruct call; (eapply locked_calls; unfold input_len, input_read, output_write, log).
  1-4: apply budget_then; intros []; untouched.
  unfold effect_call, mbind, act_bind.
  pose proof (effect_request_calls req_ptr req_len resp_ptr resp_cap w) as Hb.
  destruct (effect_request_of _ _ _ _ w) as [[request|e] w1]; simpl in *; [|done].
  rewrite <- Hb. apply untouched_bind; [apply dispatch_untouched|].
  intros [response|error]; [apply deliver_calls|]. intros w2. by case_bool_decide.
Qed.

(** What every answer of the dispatcher preserves, every host call preserves. *)
Definition dispatch_closed (I : D → Prop) : Prop := ∀ d r, I d → I (dispatch d r).2.
Definition broker (w : World D M) : D := s_dispatcher (w_state w).

Lemma untouched_keeps {A} (I : D → Prop) (m : Act (World D M) HostResult A) w :
  untouched broker m → I (broker w) → I (broker (m w).2).
Proof. intros Hu Hw. by rewrite (Hu w). Qed.

Lemma locked_result poisoned body (w w' : World D M) r :
  locked poisoned body (Some w) = (r, Some w') → w' = (body w).2.
Proof. simpl. destruct (body w) as [[r1|r1] w1]; simpl; intros Hl; by simplify_eq. Qed.

Lemma effect_call_closed (I : D → Prop) req_ptr req_len resp_ptr resp_cap (w : World D M) :
  dispatch_closed I → I (broker w) →
  I (broker (effect_call req_ptr req_len resp_ptr resp_cap w).2).
Proof.
  intros HI Hw. unfold effect_call, mbind, act_bind.
  assert (untouched broker (effect_request_of (D:=D) (M:=M) req_ptr req_len resp_ptr resp_cap)) as Hu
    by (unfold effect_request_of, budget; untouched).
  specialize (Hu w). destruct (effect_request_of _ _ _ _ w) as [[request|e] w1]; simpl in Hu;
    [|by rewrite <- Hu in Hw].
  rewrite <- Hu in Hw. pose proof (HI _ request Hw) as Hd. unfold dispatch_request, broker in *.
  destruct (dispatch (s_dispatcher (w_state w1)) request) as [ans d']. simpl in Hd.
  destruct ans as [response|error].
  - assert (untouched broker (deliver (D:=D) (M:=M) request resp_ptr resp_cap response)) as Hv
      by (unfold deliver; cbv zeta; untouched).
    specialize (Hv (update_state (set_dispatcher d') w1)). unfold broker in Hv. by rewrite Hv.
  - simpl. by case_bool_decide.
Qed.

Lemma host_call_closed (I : D → Prop) call (w w' : World D M) r :
  dispatch_closed I → host_call call (Some w) = (r, Some w') → I (broker w) → I (broker w').
Proof.
  intros HI Hc Hw. destruct call; pose proof (locked_result _ _ _ _ _ Hc) as ->.
  1-4: apply untouched_keeps; [|done];
    unfold input_len, input_read, output_write, log, budget; untouched.
  by apply effect_call_closed.
Qed.

Lemma guest_run_closed (I : D → Prop) (w0 w : World D M) evs :
  dispatch_closed I → I (broker w0) → guest_run w0 evs w → I (broker w).
Proof.
  intros HI Hw0. induction 1 as [|evs w m Hrun IH|evs w call r w' Hrun IH Hnt Hc]; [done|done|].
  by eapply host_call_closed.
Qed.

Lemma effect_request_untouched req_ptr req_len resp_ptr resp_cap :
  untouched broker_view (effect_request_of (D:=D) (M:=M) req_ptr req_len resp_ptr resp_cap).
Proof. unfold effect_request_of, budget. untouched. Qed.
End counting.

(** ** Whole runs *)
Section runs.
Context {D M : Type} `{EffectDispatcher D, GuestMemory M, FrameJson, EffectRequestJson}.
Context `{!GuestMemoryLaws M}.
Abbreviation TWorld := (World (D * list Asked) M).
Variables (input : list byte) (caps : AbiCaps) (max : Z).
Hypothesis Hcaps : host_calls caps ≤ MAX_HOST_CALLS.
Hypothesis Hinput : Z.of_nat (length input) ≤ PAYLOAD_BYTES.

Lemma run_sticky (w0 w : TWorld) evs :
  sound input caps max w0 → guest_run w0 evs w → s_sticky (w_state w) = first_failure evs.
Proof.
  intros [Hk Hs]. induction 1 as [|evs w m Hrun IH|evs w call r w' Hrun IH Hnt Hc]; [done|done|].
  rewrite first_failure_app. simpl. destruct (first_failure evs) as [code|].
  - rewrite (host_call_sticky call code w) in Hc by done. by simplify_eq/=.
  - apply (guest_run_keeps input caps max Hcaps Hinput) in Hrun; [|done].
    destruct (host_call_spec input caps max Hcaps Hinput _ _ _ _ Hrun Hc) as [_ ->%call_failure_answers].
    by destruct (s_sticky (w_state w')).
Qed.

(** A run without a failure made the calls it is charged for, within its cap. *)
Lemma run_calls (w0 w : TWorld) evs :
  sound input caps max w0 → calls_made w0 = 0 → 0 ≤ host_calls caps → guest_run w0 evs w →
  first_failure evs = None →
  calls_made w = Z.of_nat (length evs) ∧ calls_made w ≤ host_calls caps.
Proof.
  intros Hw0 Hz Hpos Hrun. pose proof Hrun as Hrun'. revert Hrun'.
  induction 1 as [|evs w m Hrun' IH|evs w call r w' Hrun' IH Hnt Hc]; intros Hff.
  - rewrite Hz. done.
  - by apply IH.
  - pose proof Hff as Hlast. rewrite first_failure_app in Hff.
    destruct (first_failure evs) eqn:He; [done|].
    destruct (IH Hrun' eq_refl) as [Hn Hle]. pose proof (host_call_calls _ _ _ _ Hc) as Hc'.
    rewrite length_app. simpl. unfold MAX_HOST_CALLS, saturating_u32, u32_max in *.
    destruct (decide (calls_made w = host_calls caps)) as [Hfull|]; [|lia].
    exfalso. pose proof (guest_run_keeps input caps max Hcaps Hinput w0 w evs (proj1 Hw0) Hrun') as Hk.
    destruct (budget_spent w) as (r' & w1 & Hb & Hst).
    { rewrite (ab_caps _ _ _ _ Hk). unfold calls_made, u32_max in *. lia. }
    pose proof (host_call_budget call w w1 r' Hb) as Hc1. rewrite Hc1 in Hc. simplify_eq.
    apply Hst. rewrite <- Hlast. by eapply run_sticky.
Qed.

(** The first failure is all a guest hears of afterwards. *)
Lemma run_after (w0 w : TWorld) evs l1 e l2 code :
  sound input caps max w0 → guest_run w0 evs w → evs = l1 ++ e :: l2 →
  first_failure l1 = None → call_failure e.2 = Some code →
  Forall (λ e', e'.2 = Returns (AbiCode_i32 code)) l2 ∧ (e.2 = Trap → l2 = []).
Proof.
  intros Hw0 Hrun. revert l2.
  induction Hrun as [|evs w m Hrun IH|evs w call r w' Hrun IH Hnt Hc]; intros l2 Hl Hl1 He.
  - by destruct l1.
  - eauto.
  - destruct l2 as [|x l2 _] using rev_ind; [done|].
    rewrite app_comm_cons, app_assoc in Hl. apply app_inj_tail in Hl as [-> <-].
    destruct (IH l2 eq_refl Hl1 He) as [IHl _]. split.
    + apply Forall_app. split; [done|]. constructor; [|done]. simpl.
      rewrite (host_call_sticky call code w) in Hc; [by simplify_eq|].
      rewrite (run_sticky w0 w (l1 ++ e :: l2)) by done.
      rewrite first_failure_app, Hl1. simpl. by rewrite He.
    + intros Ht. apply Forall_app in Hnt as [_ Hnt]. by apply Forall_cons in Hnt as [].
Qed.
End runs.

(** ** When an effect reaches the broker *)
Section commit.
Context {D M : Type} `{EffectDispatcher D, GuestMemory M, FrameJson, EffectRequestJson}.

(** Everything [effect_call] checks before it asks the broker for [request]. *)
Record effect_call_ready (w : World D M) (req_ptr req_len resp_ptr resp_cap : Z)
    (request : EffectRequest) (m : M) : Prop := {
  ec_clean : s_sticky (w_state w) = None;
  ec_open : s_output (w_state w) = None;
  ec_calls : s_calls (w_state w) < host_calls (s_caps (w_state w));
  ec_memory : w_memory w = Some m;
  ec_request : 0 < req_len ≤ EFFECT_REQUEST_BYTES;
  ec_response : PAYLOAD_BYTES ≤ resp_cap;
  ec_destination : wrap_u32 resp_ptr + resp_cap ≤ data_size m;
  ec_parsed : ∃ b, mem_read m (wrap_u32 req_ptr) req_len = Some b ∧
    EffectRequest_parse b = Ok request;
  ec_source : wrap_u32 req_ptr + req_len ≤ data_size m;
  ec_gapless : er_ordinal request ≤ s_next_ordinal (w_state w);
  ec_granted : er_ordinal request < s_max_effects (w_state w);
}.

Lemma range_Ok ptr len (w : World D M) x :
  len ≤ i32_max →
  range ptr len w = Ok x ↔
  ∃ m, x = (m, wrap_u32 ptr, len) ∧ w_memory w = Some m ∧ 0 ≤ len ∧
    wrap_u32 ptr + len ≤ data_size m.
Proof.
  intros Hmax. pose proof (wrap_u32_range ptr) as Hp. unfold i32_max, u32_max in *.
  split.
  - destruct x as [[m start] l]. intros Hr. apply range_start in Hr as (-> & -> & ? & ? & ? & ?).
    eauto.
  - intros (m & -> & Hm & Hl & Hd). unfold range.
    rewrite (proj2 (Z.ltb_ge len 0)) by lia. simpl.
    assert (∀ z, 0 ≤ z ≤ 6442450942 → checked_u64 z = Some z) as Hck.
    { intros z Hz. apply checked_Some. unfold u64_max. lia. }
    rewrite (Hck (wrap_u32 ptr)), (Hck (wrap_u32 ptr + len)) by lia. simpl.
    rewrite Hm. simpl. by rewrite (proj2 (Z.ltb_ge _ _)) by lia.
Qed.

Lemma or_fail_run {A} (f : World D M → result AbiCode A) w :
  or_fail f w = match f w with
                | Ok a => (Ok a, w)
                | Err code => (Err (Returns (AbiCode_i32 code)), update_state (set_sticky code) w)
                end.
Proof. unfold or_fail, act_gets, mbind, act_bind. by destruct (f w). Qed.

Lemma budget_Ok (w w' : World D M) u :
  calls_made w < u32_max → 0 ≤ calls_made w →
  budget w = (Ok u, w') ↔
  s_sticky (w_state w) = None ∧ s_output (w_state w) = None ∧
  calls_made w < host_calls (s_caps (w_state w)) ∧
  w' = update_state (set_calls (calls_made w + 1)) w.
Proof.
  intros Hc Hc0. unfold budget, mbind, act_bind, act_modify, act_gets, calls_made in *. simpl.
  assert (saturating_u32 (s_calls (w_state w) + 1) = s_calls (w_state w) + 1) as ->.
  { unfold saturating_u32. lia. }
  destruct u, (s_sticky (w_state w)); [naive_solver|]. unfold fail_when.
  case_bool_decide as Ho; simpl.
  { split; [done|]. intros (_ & Hno & _). rewrite Hno in Ho. by destruct Ho. }
  apply eq_None_not_Some in Ho. rewrite Ho.
  destruct (_ <? _) eqn:Hlt; simpl.
  - apply Z.ltb_lt in Hlt. split; [done|]. intros (_ & _ & ? & _). lia.
  - apply Z.ltb_ge in Hlt.
    assert (∀ w2, w2 = update_state (λ s, set_calls (saturating_u32 (s_calls s + 1)) s) w ↔
      w2 = update_state (set_calls (s_calls (w_state w) + 1)) w) as Hup.
    { intros w2. unfold update_state, saturating_u32.
      by replace (Z.max 0 _) with (s_calls (w_state w) + 1) by lia. }
    split.
    + intros [= <-]. split_and!; try done; [lia|by apply Hup].
    + intros (_ & _ & _ & ->%Hup). done.
Qed.

Lemma act_bind_Ok {S E A B} (m : Act S E A) (k : A → Act S E B) s b s' :
  (m ≫= k) s = (Ok b, s') ↔ ∃ a s1, m s = (Ok a, s1) ∧ k a s1 = (Ok b, s').
Proof. unfold mbind, act_bind. destruct (m s) as [[a|e] s1]; naive_solver. Qed.

Lemma fail_when_Ok cond code (w w' : World D M) u :
  fail_when cond code w = (Ok u, w') ↔ cond = false ∧ w' = w.
Proof. destruct cond, u; cbn; split; intros Hf; by inversion_clear Hf; subst. Qed.

Lemma or_fail_Ok {A} (f : World D M → result AbiCode A) w a w' :
  or_fail f w = (Ok a, w') ↔ f w = Ok a ∧ w' = w.
Proof. rewrite or_fail_run. destruct (f w); naive_solver. Qed.

Lemma read_Ok ptr len (w : World D M) b :
  len ≤ i32_max →
  read ptr len w = Ok b ↔
  ∃ m, w_memory w = Some m ∧ 0 ≤ len ∧ wrap_u32 ptr + len ≤ data_size m ∧
    mem_read m (wrap_u32 ptr) len = Some b.
Proof.
  intros Hmax. unfold read. rewrite bind_Ok. split.
  - intros (x & (m & -> & ? & ? & ?)%range_Ok & Hb%ok_or_Ok); [|done]. eauto.
  - intros (m & Hm & Hl & Hd & Hb). exists (m, wrap_u32 ptr, len).
    rewrite range_Ok by done. split; [eauto|]. by rewrite Hb.
Qed.

Lemma effect_request_of_Ok req_ptr req_len resp_ptr resp_cap (w w' : World D M) request :
  0 ≤ calls_made w < u32_max → resp_cap ≤ i32_max →
  effect_request_of req_ptr req_len resp_ptr resp_cap w = (Ok request, w') ↔
  w' = update_state (set_calls (calls_made w + 1)) w ∧
  ∃ m, effect_call_ready w req_ptr req_len resp_ptr resp_cap request m.
Proof.
  intros [Hc0 Hc] Hcap. unfold effect_request_of. rewrite act_bind_Ok. split.
  - intros (u & w1 & (Hst & Hout & Hcalls & ->)%budget_Ok & Hrest); [|done..].
    apply act_bind_Ok in Hrest as ([] & w2 & [Hsz ->]%fail_when_Ok & Hrest). bools.
    assert (req_len ≤ i32_max) by (unfold EFFECT_REQUEST_BYTES, i32_max in *; lia).
    apply act_bind_Ok in Hrest as (x & w2 & [(m & -> & Hm & Hr0 & Hdest)%range_Ok ->]%or_fail_Ok
      & Hrest); [|done].
    apply act_bind_Ok in Hrest as (b & w2 & [(m2 & Hm2 & Hq0 & Hsrc & Hb)%read_Ok ->]%or_fail_Ok
      & Hrest); [|done].
    apply act_bind_Ok in Hrest as (request' & w2 & Hp & Hrest).
    destruct (EffectRequest_parse b) as [r|] eqn:Hparse; [|done].
    injection Hp as -> <-. apply act_bind_Ok in Hrest as (st & w2 & [= <- <-] & Hrest).
    apply act_bind_Ok in Hrest as ([] & w2 & [Hord ->]%fail_when_Ok & [= -> <-]). bools.
    split; [done|]. exists m. simpl in *. simplify_eq. by constructor; eauto.
  - intros (-> & m & []). eexists (), _. split; [by apply budget_Ok|].
    apply act_bind_Ok. eexists (), _. split; [apply fail_when_Ok; split; [|done]; bools; split_and!; lia|].
    apply act_bind_Ok. exists (m, wrap_u32 resp_ptr, resp_cap), (update_state (set_calls (calls_made w + 1)) w).
    split.
    { apply or_fail_Ok. split; [|done]. apply range_Ok; [done|]. exists m.
      unfold PAYLOAD_BYTES in *. split_and!; try done. lia. }
    destruct ec_parsed0 as (b & Hb & Hparse).
    apply act_bind_Ok. exists b, (update_state (set_calls (calls_made w + 1)) w). split.
    { apply or_fail_Ok. split; [|done]. unfold EFFECT_REQUEST_BYTES, i32_max in *.
      apply read_Ok; unfold i32_max; [lia|]. exists m. split_and!; try done. lia. }
    apply act_bind_Ok. exists request, (update_state (set_calls (calls_made w + 1)) w).
    rewrite Hparse. split; [done|].
    apply act_bind_Ok. eexists _, _. split; [done|].
    apply act_bind_Ok. eexists (), _. split; [|done].
    apply fail_when_Ok. split; [|done]. simpl. bools. split_and!; lia.
Qed.

(** A reply [effect_call] hands to the guest. *)
Definition deliverable (request : EffectRequest) (b : list byte) : bool :=
  (Z.of_nat (length b) <=? PAYLOAD_BYTES) && reply_matches request b.

Lemma deliver_run request resp_ptr resp_cap b (w : World D M) m m' :
  w_memory w = Some m → wrap_u32 resp_ptr + resp_cap ≤ data_size m →
  PAYLOAD_BYTES ≤ resp_cap ≤ i32_max → deliverable request b = true →
  mem_write m (wrap_u32 resp_ptr) b = Some m' →
  deliver request resp_ptr resp_cap b w =
  (Ok (Returns (Z.of_nat (length b))),
   let s := w_state w in
   mkWorld (if er_ordinal request =? s_next_ordinal s
            then set_next_ordinal (s_next_ordinal s + 1) s else s) (Some m')).
Proof.
  intros Hm Hd [Hc Hcap] [Hb Hmatch]%andb_true_iff Hw'. apply Z.leb_le in Hb.
  unfold deliver, act_gets, act_modify, mbind, act_bind. cbv zeta.
  rewrite (proj2 (Z.ltb_ge PAYLOAD_BYTES _)), (proj2 (Z.ltb_ge resp_cap _)) by lia. simpl.
  rewrite Hmatch. simpl.
  assert (range resp_ptr resp_cap w = Ok (m, wrap_u32 resp_ptr, resp_cap)) as ->.
  { apply range_Ok; [done|]. exists m. unfold PAYLOAD_BYTES in *. split_and!; try done. lia. }
  rewrite Hw'. simpl. rewrite wrap_i32_small by lia. by destruct (_ =? _).
Qed.

Lemma deliver_stop request resp_ptr resp_cap b (w : World D M) :
  PAYLOAD_BYTES ≤ resp_cap → deliverable request b = false →
  deliver request resp_ptr resp_cap b w = (Err Trap, update_state (set_sticky AUnresolved) w).
Proof.
  intros Hc Hb. unfold deliver, mbind, act_bind. cbv zeta.
  destruct (_ || _) eqn:Hsz; [done|]. bools. simpl.
  unfold deliverable in Hb. rewrite (proj2 (Z.leb_le _ _)) in Hb by lia. simpl in Hb.
  by rewrite Hb.
Qed.

(** [effect_call] after its checks. *)
Lemma effect_call_sent req_ptr req_len resp_ptr resp_cap (w : World D M) request m ans d' :
  0 ≤ calls_made w < u32_max → resp_cap ≤ i32_max →
  effect_call_ready w req_ptr req_len resp_ptr resp_cap request m →
  dispatch (s_dispatcher (w_state w)) request = (ans, d') →
  let w1 := update_state (λ s, set_dispatcher d' (set_calls (calls_made w + 1) s)) w in
  effect_call req_ptr req_len resp_ptr resp_cap w =
  match ans with
  | Ok b => deliver request resp_ptr resp_cap b w1
  | Err e =>
    ((if bool_decide (DispatchFailure_code e = AUnresolved) then Err Trap
      else Ok (Returns (AbiCode_i32 (DispatchFailure_code e)))),
     update_state (set_sticky (DispatchFailure_code e)) w1)
  end.
Proof.
  intros Hc Hcap Hready Hd w1. unfold effect_call, mbind, act_bind.
  assert (effect_request_of req_ptr req_len resp_ptr resp_cap w =
    (Ok request, update_state (set_calls (calls_made w + 1)) w)) as ->
    by (apply effect_request_of_Ok; eauto).
  unfold dispatch_request. simpl. rewrite Hd. fold w1. destruct ans as [b|e]; [done|].
  unfold act_modify. simpl. case_bool_decide; [|done].
  destruct e; try done. unfold unresolved, act_stop. by rewrite sticky_twice.
Qed.
End commit.

(** ** A memory for the witnesses: a size and the writes, latest first *)
Module MemoryReference.
Record Writes := mkWrites { m_size : Z; m_writes : list (Z * list byte) }.

Fixpoint byte_at (ws : list (Z * list byte)) (a : Z) : byte :=
  match ws with
  | [] => x00
  | (start, b) :: ws =>
    if decide (start ≤ a) then default (byte_at ws a) (b !! Z.to_nat (a - start))
    else byte_at ws a
  end.
Definition bytes_at (ws : list (Z * list byte)) (start len : Z) : list byte :=
  (λ i, byte_at ws (start + Z.of_nat i)) <$> seq 0 (Z.to_nat len).

#[global] Instance writes_memory : GuestMemory Writes := {|
  data_size := m_size;
  mem_read m start len :=
    if decide (start + len ≤ m_size m) then Some (bytes_at (m_writes m) start len) else None;
  mem_write m start b :=
    if decide (start + Z.of_nat (length b) ≤ m_size m)
    then Some (mkWrites (m_size m) ((start, b) :: m_writes m)) else None;
|}.

#[global] Instance writes_memory_laws : GuestMemoryLaws Writes.
Proof.
  split; simpl.
  - intros m start len _ _. case_decide; split; by eauto using is_Some_None.
  - intros m start len b Hl Hb. case_decide; simplify_eq.
    unfold bytes_at. rewrite length_fmap, length_seq. lia.
  - intros m start b _. case_decide; split; by eauto using is_Some_None.
  - intros m start b m' Hw. by case_decide; simplify_eq.
  - intros m start b m' _ Hw. case_decide; simplify_eq. simpl. case_decide; [|done].
    f_equal. unfold bytes_at. rewrite Nat2Z.id. apply list_eq. intros i.
    rewrite list_lookup_fmap.
    destruct (decide (i < length b)%nat) as [Hi|Hi].
    + rewrite lookup_seq_lt by done. simpl. case_decide; [|lia].
      destruct (lookup_lt_is_Some_2 b i Hi) as [x Hx].
      by replace (Z.to_nat (start + Z.of_nat i - start)) with i by lia; rewrite Hx.
    + rewrite lookup_seq_ge by lia. simpl. symmetry. apply lookup_ge_None. lia.
  - intros m start b m' start' len Hs Hs' Hl Hw Hdis. case_decide; simplify_eq. simpl.
    case_decide; [|done]. f_equal. unfold bytes_at. apply list_fmap_ext.
    intros i x [-> Hx]%lookup_seq. simpl. case_decide; [|done].
    rewrite lookup_ge_None_2; [done|lia].
Qed.
End MemoryReference.

Module AbiDemo.
Import JsonReference MemoryReference.

Definition request : EffectRequest :=
  mkEffectRequest 0 "ticket.create" "desk" (mkTicketArguments "ops" "t" "").
Definition request_bytes : list byte := Eval vm_compute in to_bytes request.
Definition reply : list byte := Eval vm_compute in
  to_bytes (mkEffectReply 0 COMMITTED (mkTicketResponse "T1" "ops") false).

#[global] Instance broker : EffectDispatcher unit := λ d _, (Ok reply, d).

(** Two pages: the request at 0, a log message at 20000. *)
Definition memory : Writes :=
  mkWrites 131072 [(0, request_bytes); (20000, bytes "hi")].
Definition caps : AbiCaps := mkAbiCaps 64 16384.
Definition world : World (unit * list Asked) Writes :=
  mkWorld (initial_state [x07] caps Limits_default (tt, [])) (Some memory).

Definition request_len : Z := Eval vm_compute in Z.of_nat (length request_bytes).
Definition guest : list HostCall :=
  [InputLen; Log 20000 2; EffectCall 0 request_len 65536 65536; OutputWrite 65536 4;
   InputLen; Log 20000 2].

(** The guest makes these calls one after the other. *)
Fixpoint play {D} `{EffectDispatcher D} (calls : list HostCall) (w : World D Writes) :
    list (HostCall * HostResult) * World D Writes :=
  match calls with
  | [] => ([], w)
  | call :: calls =>
    match host_call call (Some w) with
    | (r, Some w) => let '(evs, w) := play calls w in ((call, r) :: evs, w)
    | (r, None) => ([(call, r)], w)
    end
  end.

Lemma play_run {D} `{EffectDispatcher D} (w0 : World D Writes) calls evs evs' w w' :
  guest_run w0 evs w → play calls w = (evs', w') → Forall (λ e, e.2 ≠ Trap) (evs ++ evs') →
  guest_run w0 (evs ++ evs') w'.
Proof.
  revert evs evs' w. induction calls as [|call calls IH]; intros evs evs' w Hrun Hp Hnt; simpl in Hp.
  - simplify_eq. by rewrite app_nil_r.
  - destruct (host_call_lock call w) as (r & w1 & Hc). rewrite Hc in Hp.
    destruct (play calls w1) as [evs2 w2] eqn:Hp2. simplify_eq.
    rewrite cons_middle, (assoc_L (++)) in Hnt |- *. apply (IH _ _ w1); [|done|done].
    eapply run_call; [done| |done]. by apply Forall_app in Hnt as [[]%Forall_app _].
Qed.

Definition played := Eval vm_compute in play guest world.
Definition events : list (HostCall * HostResult) := Eval vm_compute in fst played.
Definition final : World (unit * list Asked) Writes := Eval vm_compute in snd played.

Lemma plays : play guest world = (events, final).
Proof. vm_compute. reflexivity. Qed.
Lemma runs : guest_run world events final.
Proof. apply (play_run world guest [] events world final); [constructor|apply plays|]. by repeat constructor. Qed.
Lemma caps_ok : AbiCaps_validate caps = Ok caps.
Proof. done. Qed.
Lemma input_ok : Z.of_nat (length [x07]) ≤ PAYLOAD_BYTES.
Proof. done. Qed.
End AbiDemo.

(** ** Properties *)

(** C11: a guest is contained, whatever it does.  Whatever calls it
    makes with whatever arguments, and however it changes its memory between
    them, the broker is asked at most once per host call and never more than
    the cap (at most 64), only for valid requests with an ordinal below the
    run's limit; an ordinal is asked for only after every smaller one was
    committed; after an answer that did not commit nothing more is asked; and
    the output and the logs it leaves fit their limits. *)
Theorem guest_contained {D M} `{EffectDispatcher D, GuestMemoryLaws M, FrameJson, EffectRequestJson}
    (d : D) (mem : option M) input caps requested evs w :
  AbiCaps_validate caps = Ok caps → 0 ≤ host_calls caps → 0 ≤ cap_log_bytes caps →
  Z.of_nat (length input) ≤ PAYLOAD_BYTES →
  guest_run (mkWorld (initial_state input caps requested (d, [])) mem) evs w →
  let asked := trace (w_state w) in
  Z.of_nat (length asked + length (s_logs (w_state w))) ≤ host_calls caps ≤ MAX_HOST_CALLS ∧
  Forall (λ e : Asked, effect_request_ok e.1 ∧ er_ordinal e.1 < max_effects requested) asked ∧
  (∀ l1 e l2, asked = l1 ++ e :: l2 → committed_below (er_ordinal e.1) l1 ∧ Forall settled l1) ∧
  (∀ b, s_output (w_state w) = Some b → Z.of_nat (length b) ≤ PAYLOAD_BYTES) ∧
  total_len (s_logs (w_state w)) ≤ cap_log_bytes caps ≤ LOG_BYTES.
Proof.
  intros Hcaps Hh Hl Hinput Hrun. unfold AbiCaps_validate in Hcaps. inv_ok. bools.
  apply (guest_run_keeps input caps (max_effects requested)) in Hrun;
    [|try done; by apply guest_initial_ok..].
  destruct Hrun. simpl. split_and!; try done; try lia.
  intros l1 e l2 Hl12. split; [by eapply ab_gapless0|].
  destruct l2 as [|e2 l2 _] using rev_ind; [by eapply ab_last0|].
  rewrite app_comm_cons, app_assoc in Hl12. apply ab_last0 in Hl12.
  by apply Forall_app in Hl12 as [].
Qed.

Lemma guest_contained_witness :
  let s := w_state AbiDemo.final in
  length (trace s) = 1%nat ∧ Z.of_nat (length (trace s) + length (s_logs s)) ≤ 64.
Proof.
  split; [done|].
  exact (proj1 (proj1 (guest_contained (H1 := MemoryReference.writes_memory_laws) _ _ _ _ _ _ _
    AbiDemo.caps_ok ltac:(done) ltac:(done) AbiDemo.input_ok AbiDemo.runs))).
Defined.

(** C20: the verdict on a run is its first failure.  [execute_abi] says
    [Violation(code)] exactly when some host call failed, with the code of the
    first one, and otherwise reports what the guest returned (or the engine's
    error) with the exact number of calls, within the cap; after its first
    failure a guest is told that code by every call, and after a trap it makes
    none. *)
Theorem execute_abi_verdict {D M} `{EffectDispatcher D, GuestMemoryLaws M, FrameJson,
      EffectRequestJson} (d : D) (mem : option M) input caps requested execute evs w ran :
  AbiCaps_validate caps = Ok caps → 0 ≤ host_calls caps → 0 ≤ cap_log_bytes caps →
  Z.of_nat (length input) ≤ PAYLOAD_BYTES →
  let s0 := initial_state input caps requested (d, []) in
  guest_run (mkWorld s0 mem) evs w → execute s0 = (ran, Some (w_state w)) →
  execute_abi execute input requested caps (d, []) =
    match first_failure evs with
    | Some code => Err (Violation code)
    | None =>
      return_code ← map_err Runtime ran;
      Ok (mkAbiOutcome return_code (s_output (w_state w)) (s_logs (w_state w))
            (Z.of_nat (length evs)))
    end ∧
  (first_failure evs = None → Z.of_nat (length evs) ≤ host_calls caps) ∧
  (∀ l1 e l2 code, evs = l1 ++ e :: l2 → first_failure l1 = None →
     call_failure e.2 = Some code →
     Forall (λ e', e'.2 = Returns (AbiCode_i32 code)) l2 ∧ (e.2 = Trap → l2 = [])).
Proof.
  intros Hcaps Hh Hl Hinput s0 Hrun Hex. pose proof Hcaps as Hv. unfold AbiCaps_validate in Hv.
  inv_ok. bools.
  assert (sound input caps (max_effects requested) (mkWorld (M:=M) s0 mem)) as Hs
    by (split; [by apply guest_initial_ok|done]).
  pose proof (run_calls input caps (max_effects requested) ltac:(done) Hinput _ w evs Hs
    eq_refl Hh Hrun) as Hcalls. unfold calls_made in Hcalls.
  split_and!.
  - unfold execute_abi. rewrite (proj2 (Z.ltb_ge _ _)) by lia. simpl.
    rewrite Hcaps. simpl. fold s0. rewrite Hex. simpl.
    rewrite (run_sticky input caps (max_effects requested) ltac:(done) Hinput _ w evs Hs Hrun).
    destruct (first_failure evs); [done|]. by destruct (Hcalls eq_refl) as [-> _].
  - intros Hff. destruct (Hcalls Hff). lia.
  - intros l1 e l2 code. by eapply run_after.
Qed.

Lemma execute_abi_verdict_witness :
  first_failure AbiDemo.events = Some AInvalidState ∧
  execute_abi (λ _, (Ok 0, Some (w_state AbiDemo.final))) [x07] Limits_default AbiDemo.caps
    (tt, []) = Err (Violation AInvalidState).
Proof.
  split; [reflexivity|].
  exact (proj1 (execute_abi_verdict (H1 := MemoryReference.writes_memory_laws) _ _ _ _ _
    (λ _, (Ok 0, Some (w_state AbiDemo.final))) _ _ _
    AbiDemo.caps_ok ltac:(done) ltac:(done) AbiDemo.input_ok AbiDemo.runs eq_refl)).
Defined.

(** C19: an effect the broker committed always reaches the guest.  When
    [effect_call]'s checks pass, among them that the whole destination is
    inside the guest's memory, the request goes to the broker, and then a reply
    about it of at most 64 KiB is written there and its length returned, the
    next ordinal moving exactly when this one was new, while any other reply
    ends the guest as unresolved and a refusal is told to it; when a check
    fails, neither the broker, nor the ordinals, nor the memory are touched. *)
Theorem effect_call_commits {D M} `{EffectDispatcher D, GuestMemoryLaws M, FrameJson,
      EffectRequestJson} (w : World D M) req_ptr req_len resp_ptr resp_cap :
  0 ≤ calls_made w < u32_max → resp_cap ≤ i32_max →
  let call := EffectCall req_ptr req_len resp_ptr resp_cap in
  let ready := effect_call_ready w req_ptr req_len resp_ptr resp_cap in
  let next := s_next_ordinal (w_state w) in
  (∀ request m ans d', ready request m → dispatch (s_dispatcher (w_state w)) request = (ans, d') →
     ∃ r w', host_call call (Some w) = (r, Some w') ∧ s_dispatcher (w_state w') = d' ∧
     match ans with
     | Ok b =>
       if deliverable request b then
         r = Returns (Z.of_nat (length b)) ∧ s_sticky (w_state w') = None ∧
         s_next_ordinal (w_state w') = (if er_ordinal request =? next then next + 1 else next) ∧
         ∃ m', w_memory w' = Some m' ∧ data_size m' = data_size m ∧
           mem_read m' (wrap_u32 resp_ptr) (Z.of_nat (length b)) = Some b
       else r = Trap ∧ s_sticky (w_state w') = Some AUnresolved
     | Err e =>
       let code := DispatchFailure_code e in
       s_sticky (w_state w') = Some code ∧
       r = if bool_decide (code = AUnresolved) then Trap else Returns (AbiCode_i32 code)
     end) ∧
  ((∀ request m, ¬ ready request m) →
     ∃ r w', host_call call (Some w) = (r, Some w') ∧ broker_view w' = broker_view w).
Proof.
  intros Hc Hcap call ready next. split.
  - intros request m ans d' Hready Hd. pose proof Hready as [Hst _ _ Hm _ Hresp Hdest _ _ _ _].
    simpl. rewrite (effect_call_sent _ _ _ _ _ _ _ _ _ Hc Hcap Hready Hd).
    destruct ans as [b|e].
    + destruct (deliverable request b) eqn:Hb.
      * pose proof Hb as [Hsz%Z.leb_le _]%andb_true_iff.
        destruct (proj1 (mem_write_range m (wrap_u32 resp_ptr) b ltac:(apply wrap_u32_range)))
          as [m' Hw']; [lia|].
        rewrite (deliver_run _ _ _ _ _ m m') by done. simpl. eexists _, _. split; [done|].
        simpl. fold next.
        destruct (er_ordinal request =? next); (split; [done|]); split_and!; try done; exists m';
          (split; [done|]); (split; [by eapply mem_write_size|]);
          (apply (mem_write_read m); [apply wrap_u32_range|done]).
      * rewrite deliver_stop by done. eexists _, _. split; [done|]. simpl. by rewrite Hst.
    + case_bool_decide; (eexists _, _; split; [done|]); simpl; by rewrite Hst.
  - intros Hno. simpl. unfold effect_call, mbind, act_bind.
    pose proof (effect_request_untouched req_ptr req_len resp_ptr resp_cap w) as Hu.
    destruct (effect_request_of _ _ _ _ w) as [[request|r] w1] eqn:He; simpl in Hu; [|eauto].
    apply effect_request_of_Ok in He as (_ & m & Hready); [|done..]. by destruct (Hno request m).
Qed.

Lemma effect_call_commits_witness :
  ∃ w' : World (unit * list Asked) MemoryReference.Writes,
    host_call (EffectCall 0 AbiDemo.request_len 65536 65536) (Some AbiDemo.world) =
      (Returns (Z.of_nat (length AbiDemo.reply)), Some w') ∧
    s_next_ordinal (w_state w') = 1.
Proof.
  destruct (proj1 (effect_call_commits (H1 := MemoryReference.writes_memory_laws) AbiDemo.world
    0 AbiDemo.request_len 65536 65536 ltac:(done) ltac:(done)) AbiDemo.request AbiDemo.memory
    (Ok AbiDemo.reply) (tt, [(AbiDemo.request, Ok AbiDemo.reply)]))
    as (r & w' & Hc & _ & Hb).
  - split; try done. exists AbiDemo.request_bytes. split; vm_compute; reflexivity.
  - reflexivity.
  - replace (deliverable AbiDemo.request AbiDemo.reply) with true in Hb
      by (vm_compute; reflexivity).
    destruct Hb as (-> & _ & Hn & _). exists w'. split; [exact Hc|]. rewrite Hn. reflexivity.
Defined.
