(* ===== verification/Validate.v ===== *)
(** * Validate: which modules implement the ABI

    Models [crates/runtime/src/validate.rs].  [wasmparser] is the class
    [Wasmparser]: its validator under the WebAssembly 2.0 features, and the
    payloads its parser yields, as much of them as [validate] looks at. *)
From S2P Require Export Abi.

Inductive InvalidModule := InvalidModule_.

(** ** What the parser yields; [None] is an item the parser fails on *)

Inductive ValType := I32 | I64 | F32 | F64 | V128 | Ref.
Record FuncType := mkFuncType { params : list ValType; results : list ValType }.
Inductive CompositeInnerType := Func (function : FuncType) | OtherComposite.
Inductive TypeRef := TypeRef_Func (type_index : Z) | OtherTypeRef.
Record Import := mkImport { im_module : string; im_name : string; im_ty : TypeRef }.
Record MemoryType := mkMemoryType {
  memory64 : bool;
  shared : bool;
  initial : Z;
  maximum : option Z;
  page_size_log2 : option Z;
}.
Inductive ExternalKind := ExternalFunc | ExternalMemory | OtherExternal.
Record Export := mkExport { ex_name : string; ex_kind : ExternalKind; ex_index : Z }.

Inductive Payload :=
  | Version (is_module : bool)
  | TypeSection (groups : list (option (list CompositeInnerType)))
  | ImportSection (reader : list (option Import))
  | FunctionSection (reader : list (option Z))
  | MemorySection (reader : list (option MemoryType))
  | GlobalSection (reader : list (option ValType))
  | TableSection
  | ElementSection
  | ExportSection (reader : list (option Export))
  | StartSection
  | CodeSectionStart (count : Z)
  | CodeSectionEntry
  | DataSection (count : Z)
  | DataCountSection (count : Z)
  | CustomSection
  | End_
  | OtherPayload.

Class Wasmparser := {
  validate_all : list byte → bool;
  parse_all : list byte → list (option Payload);
}.

#[global] Instance InvalidModule_eq_dec : EqDecision InvalidModule.
Proof. solve_decision. Defined.
#[global] Instance ValType_eq_dec : EqDecision ValType.
Proof. solve_decision. Defined.
#[global] Instance FuncType_eq_dec : EqDecision FuncType.
Proof. solve_decision. Defined.

(** ** The validator *)

Definition expected (name : string) : option FuncType :=
  if bool_decide (name = "input_len"%string) then Some (mkFuncType [] [I32])
  else if bool_decide (name = "input_read"%string) || bool_decide (name = "output_write"%string)
          || bool_decide (name = "log"%string) then Some (mkFuncType [I32; I32] [I32])
  else if bool_decide (name = "effect_call"%string)
  then Some (mkFuncType [I32; I32; I32; I32] [I32])
  else None.

Abbreviation Checked := (result InvalidModule).
Definition reject {A} : Checked A := Err InvalidModule_.
Definition require {A} (o : option A) : Checked A := ok_or o InvalidModule_.
Definition reject_if (cond : bool) : Checked unit := fail_if cond InvalidModule_.

Definition signature (types : list FuncType) (index : Z) : Checked FuncType :=
  require (types !! Z.to_nat index).

(** The mutable variables of [validate]. *)
Record Seen := mkSeen {
  types : list FuncType;
  imports : gmap string Z;
  imported_functions : Z;
  local_type_indices : list Z;
  memories : Z;
  globals : Z;
  code_bodies : Z;
  run_export : option Z;
  memory_export : option Z;
}.
Definition Seen_new : Seen := mkSeen [] ∅ 0 [] 0 0 0 None None.

Definition checked_u32 : Z → option Z := checked 0 u32_max.

(** [for item in reader { ... }] over the parser's items. *)
Fixpoint visit {A} (body : Seen → A → Checked Seen) (s : Seen) (reader : list (option A)) :
    Checked Seen :=
  match reader with
  | [] => mret s
  | item :: reader =>
    item ← require item;
    s ← body s item;
    visit body s reader
  end.

Definition push_type (s : Seen) (subtype : CompositeInnerType) : Checked Seen :=
  match subtype with
  | Func function =>
    reject_if (1024 <=? Z.of_nat (length (types s)));;
    mret (mkSeen (types s ++ [function]) (imports s) (imported_functions s)
      (local_type_indices s) (memories s) (globals s) (code_bodies s) (run_export s)
      (memory_export s))
  | OtherComposite => reject
  end.
Definition visit_group (s : Seen) (group : list CompositeInnerType) : Checked Seen :=
  visit push_type s (Some <$> group).

Definition visit_import (s : Seen) (import : Import) : Checked Seen :=
  match im_ty import with
  | OtherTypeRef => reject
  | TypeRef_Func type_index =>
    reject_if (negb (bool_decide (im_module import = "effectlatch_v1"%string))
               || bool_decide (expected (im_name import) = None)
               || bool_decide (is_Some (imports s !! im_name import)));;
    count ← require (checked_u32 (imported_functions s + 1));
    mret (mkSeen (types s) (<[im_name import := type_index]> (imports s)) count
      (local_type_indices s) (memories s) (globals s) (code_bodies s) (run_export s)
      (memory_export s))
  end.

Definition visit_function (s : Seen) (index : Z) : Checked Seen :=
  mret (mkSeen (types s) (imports s) (imported_functions s) (local_type_indices s ++ [index])
    (memories s) (globals s) (code_bodies s) (run_export s) (memory_export s)).
(** The length is checked before the item is read. *)
Fixpoint visit_functions (s : Seen) (reader : list (option Z)) : Checked Seen :=
  match reader with
  | [] => mret s
  | index :: reader =>
    reject_if (1024 <=? Z.of_nat (length (local_type_indices s)));;
    index ← require index;
    s ← visit_function s index;
    visit_functions s reader
  end.

Definition bad_memory (memory : MemoryType) : bool :=
  memory64 memory || shared memory || bool_decide (is_Some (page_size_log2 memory))
  || (1024 <? initial memory)
  || match maximum memory with Some maximum => 1024 <? maximum | None => true end.
Definition visit_memory (s : Seen) (memory : MemoryType) : Checked Seen :=
  count ← require (checked_u32 (memories s + 1));
  reject_if (bad_memory memory);;
  mret (mkSeen (types s) (imports s) (imported_functions s) (local_type_indices s) count
    (globals s) (code_bodies s) (run_export s) (memory_export s)).

Definition visit_global (s : Seen) (content_type : ValType) : Checked Seen :=
  count ← require (checked_u32 (globals s + 1));
  reject_if ((32 <? count)
             || negb (bool_decide (content_type = I32) || bool_decide (content_type = I64)));;
  mret (mkSeen (types s) (imports s) (imported_functions s) (local_type_indices s) (memories s)
    count (code_bodies s) (run_export s) (memory_export s)).

Definition visit_export (s : Seen) (export : Export) : Checked Seen :=
  match ex_kind export with
  | ExternalFunc =>
    reject_if (negb (bool_decide (ex_name export = "run"%string))
               || bool_decide (is_Some (run_export s)));;
    mret (mkSeen (types s) (imports s) (imported_functions s) (local_type_indices s)
      (memories s) (globals s) (code_bodies s) (Some (ex_index export)) (memory_export s))
  | ExternalMemory =>
    reject_if (negb (bool_decide (ex_name export = "memory"%string))
               || bool_decide (is_Some (memory_export s)));;
    mret (mkSeen (types s) (imports s) (imported_functions s) (local_type_indices s)
      (memories s) (globals s) (code_bodies s) (run_export s) (Some (ex_index export)))
  | OtherExternal => reject
  end.

Definition visit_code (s : Seen) : Checked Seen :=
  count ← require (checked_u32 (code_bodies s + 1));
  reject_if (1024 <? count);;
  mret (mkSeen (types s) (imports s) (imported_functions s) (local_type_indices s) (memories s)
    (globals s) count (run_export s) (memory_export s)).

(** The arms of the [match] on a payload. *)
Definition visit_payload (s : Seen) (payload : Payload) : Checked Seen :=
  match payload with
  | Version is_module => if is_module then mret s else reject
  | TypeSection groups => visit visit_group s groups
  | ImportSection reader => visit visit_import s reader
  | FunctionSection reader => visit_functions s reader
  | MemorySection reader => visit visit_memory s reader
  | GlobalSection reader => visit visit_global s reader
  | TableSection | ElementSection => reject
  | ExportSection reader => visit visit_export s reader
  | StartSection => reject
  | CodeSectionStart count => if count <=? 1024 then mret s else reject
  | CodeSectionEntry => visit_code s
  | DataSection count => if count <=? 256 then mret s else reject
  | DataCountSection count => if count <=? 256 then mret s else reject
  | CustomSection | End_ => mret s
  | OtherPayload => reject
  end.

Definition check_import (types : list FuncType) : string * Z → Checked unit :=
  λ '(name, type_index),
    sig ← require (expected name);
    ty ← signature types type_index;
    reject_if (negb (bool_decide (params ty = params sig))
               || negb (bool_decide (results ty = results sig))).

(** [validate] after the loop. *)
Definition check_surface (s : Seen) : Checked unit :=
  reject_if (negb (bool_decide (size (imports s) = 5%nat)) || negb (memories s =? 1)
             || negb (bool_decide (memory_export s = Some 0)));;
  for_each (check_import (types s)) (map_to_list (imports s));;
  run_index ← require (run_export s);
  local_index ← require (checked_u32 (run_index - imported_functions s));
  run_type_index ← require (local_type_indices s !! Z.to_nat local_index);
  run_type ← signature (types s) run_type_index;
  reject_if (negb (bool_decide (params run_type = []))
             || negb (bool_decide (results run_type = [I32]))).

Definition validate `{Wasmparser} (b : list byte) : Checked unit :=
  reject_if (bool_decide (b = []) || (MODULE_BYTES <? Z.of_nat (length b)));;
  reject_if (negb (validate_all b));;
  s ← visit visit_payload Seen_new (parse_all b);
  check_surface s.

(** ** What an accepted module is, without the loop

    A module's payloads say a list of facts about it; a payload the ABI has no
    room for says nothing acceptable. *)
Inductive fact :=
  | FType (f : FuncType)
  | FImport (name : string) (type_index : Z)
  | FFunction (type_index : Z)
  | FMemory
  | FGlobal
  | FCode
  | FRun (index : Z)
  | FMemoryExport (index : Z).

(** The host functions of [effectlatch_v1], whose signatures are those crates/runtime/src/abi.rs
    links them with. *)
Definition abi_imports : list (string * FuncType) := [
  ("input_len", mkFuncType [] [I32]);
  ("input_read", mkFuncType [I32; I32] [I32]);
  ("output_write", mkFuncType [I32; I32] [I32]);
  ("effect_call", mkFuncType [I32; I32; I32; I32] [I32]);
  ("log", mkFuncType [I32; I32] [I32])
]%string.
#[global] Arguments abi_imports : simpl never.

(** A plain 32-bit memory whose declared maximum is at most 1024 pages. *)
Definition memory_fits (memory : MemoryType) : bool :=
  match memory with
  | mkMemoryType false false initial (Some maximum) None =>
    (initial <=? 1024) && (maximum <=? 1024)
  | _ => false
  end.

Definition collect {A} (facts : A → option (list fact)) (reader : list (option A)) :
    option (list fact) :=
  mjoin <$> mapM (λ item, item ≫= facts) reader.

Definition only (cond : bool) (fs : list fact) : option (list fact) :=
  if cond then Some fs else None.

Definition type_facts (subtype : CompositeInnerType) : option (list fact) :=
  match subtype with Func f => Some [FType f] | OtherComposite => None end.
Definition import_facts (import : Import) : option (list fact) :=
  match im_ty import with
  | TypeRef_Func i =>
    only (bool_decide (im_module import = "effectlatch_v1"%string)
          && bool_decide (im_name import ∈ abi_imports.*1)) [FImport (im_name import) i]
  | OtherTypeRef => None
  end.
Definition global_facts (content_type : ValType) : option (list fact) :=
  only (bool_decide (content_type = I32) || bool_decide (content_type = I64)) [FGlobal].
Definition export_facts (export : Export) : option (list fact) :=
  match ex_kind export with
  | ExternalFunc => only (bool_decide (ex_name export = "run"%string)) [FRun (ex_index export)]
  | ExternalMemory =>
    only (bool_decide (ex_name export = "memory"%string)) [FMemoryExport (ex_index export)]
  | OtherExternal => None
  end.
Definition payload_facts (payload : Payload) : option (list fact) :=
  match payload with
  | Version is_module => only is_module []
  | TypeSection groups => collect (λ group, collect type_facts (Some <$> group)) groups
  | ImportSection reader => collect import_facts reader
  | FunctionSection reader => collect (λ i, Some [FFunction i]) reader
  | MemorySection reader => collect (λ m, only (memory_fits m) [FMemory]) reader
  | GlobalSection reader => collect global_facts reader
  | ExportSection reader => collect export_facts reader
  | CodeSectionStart count => only (count <=? 1024) []
  | CodeSectionEntry => Some [FCode]
  | DataSection count | DataCountSection count => only (count <=? 256) []
  | CustomSection | End_ => Some []
  | TableSection | ElementSection | StartSection | OtherPayload => None
  end.

Definition ftypes : list fact → list FuncType :=
  omap (λ f, match f with FType t => Some t | _ => None end).
Definition fimports : list fact → list (string * Z) :=
  omap (λ f, match f with FImport name i => Some (name, i) | _ => None end).
Definition ffunctions : list fact → list Z :=
  omap (λ f, match f with FFunction i => Some i | _ => None end).
Definition fmemories : list fact → list unit :=
  omap (λ f, match f with FMemory => Some () | _ => None end).
Definition fglobals : list fact → list unit :=
  omap (λ f, match f with FGlobal => Some () | _ => None end).
Definition fcodes : list fact → list unit :=
  omap (λ f, match f with FCode => Some () | _ => None end).
Definition fruns : list fact → list Z :=
  omap (λ f, match f with FRun i => Some i | _ => None end).
Definition fmemory_exports : list fact → list Z :=
  omap (λ f, match f with FMemoryExport i => Some i | _ => None end).

(** The bounds the loop enforces. *)
Record within (fs : list fact) : Prop := {
  wi_types : (length (ftypes fs) ≤ 1024)%nat;
  wi_imports : NoDup (fimports fs).*1;
  wi_expected : Forall (λ x, x.1 ∈ abi_imports.*1) (fimports fs);
  wi_functions : (length (ffunctions fs) ≤ 1024)%nat;
  wi_memories : Z.of_nat (length (fmemories fs)) ≤ u32_max;
  wi_globals : (length (fglobals fs) ≤ 32)%nat;
  wi_codes : (length (fcodes fs) ≤ 1024)%nat;
  wi_runs : (length (fruns fs) ≤ 1)%nat;
  wi_memory_exports : (length (fmemory_exports fs) ≤ 1)%nat;
}.

(** The ABI's surface: the five imports with their signatures, one memory
    exported as [memory], and a local [run : [] -> [i32]]. *)
Record abi_surface (fs : list fact) : Prop := {
  su_imports : ∀ name sig, (name, sig) ∈ abi_imports →
    ∃ i, FImport name i ∈ fs ∧ ftypes fs !! Z.to_nat i = Some sig;
  su_memory : fmemories fs = [()];
  su_export : fmemory_exports fs = [0];
  su_run : ∃ run i, fruns fs = [run] ∧ 5 ≤ run ≤ u32_max + 5 ∧
    ffunctions fs !! Z.to_nat (run - 5) = Some i ∧
    ftypes fs !! Z.to_nat i = Some (mkFuncType [] [I32]);
}.

(** What the loop has seen after the facts [fs]. *)
Definition seen_of (fs : list fact) : Seen :=
  mkSeen (ftypes fs) (list_to_map (fimports fs)) (Z.of_nat (length (fimports fs)))
    (ffunctions fs) (Z.of_nat (length (fmemories fs))) (Z.of_nat (length (fglobals fs)))
    (Z.of_nat (length (fcodes fs))) (last (fruns fs)) (last (fmemory_exports fs)).

(** [expected] and [bad_memory] are the surface the ABI asks for. *)
Lemma expected_abi name sig : expected name = Some sig ↔ (name, sig) ∈ abi_imports.
Proof.
  unfold expected, abi_imports. set_unfold. repeat (case_bool_decide; subst; simpl); naive_solver.
Qed.

Lemma five_names name : is_Some (expected name) ↔ name ∈ abi_imports.*1.
Proof.
  unfold is_Some. setoid_rewrite expected_abi. rewrite list_elem_of_fmap. split.
  - intros [sig Hs]. by exists (name, sig).
  - intros ([n sig] & -> & Hs). by exists sig.
Qed.

Lemma bad_memory_fits m : bad_memory m = negb (memory_fits m).
Proof.
  unfold bad_memory. destruct m as [[] [] i [max|] [p|]]; simpl; rewrite ?orb_true_r; try done.
  by rewrite negb_andb, <- !Z.ltb_antisym.
Qed.

Definition denotes {A} (body : Seen → A → Checked Seen) (facts : A → option (list fact)) : Prop :=
  ∀ fs a s', within fs →
    body (seen_of fs) a = Ok s' ↔
    ∃ fs', facts a = Some fs' ∧ within (fs ++ fs') ∧ s' = seen_of (fs ++ fs').

Ltac facts_app :=
  unfold ftypes, fimports, ffunctions, fmemories, fglobals, fcodes, fruns, fmemory_exports in *;
  rewrite ?omap_app in *; simpl in *; rewrite ?app_nil_r in *; rewrite ?length_app in *; simpl in *.

Lemma within_app fs fs' : within (fs ++ fs') → within fs.
Proof.
  intros []. split; facts_app; try lia.
  - rewrite fmap_app in *. by apply NoDup_app in wi_imports0 as [].
  - by apply Forall_app in wi_expected0 as [].
Qed.

Lemma visit_denotes {A} (body : Seen → A → Checked Seen) facts :
  denotes body facts → denotes (visit body) (collect facts).
Proof.
  intros Hb fs reader. revert fs.
  induction reader as [|[a|] reader IH]; intros fs s' Hfs; unfold collect; simpl.
  - split.
    + intros [= <-]. exists []. by rewrite app_nil_r.
    + intros (? & [= <-] & ? & ->). by rewrite app_nil_r.
  - rewrite bind_Ok. setoid_rewrite (Hb fs a); [|done]. split.
    + intros (s1 & (fs1 & Hf & Hw & ->) & Hrest). apply IH in Hrest as (fs2 & Hc & Hw2 & ->); [|done].
      exists (fs1 ++ fs2). rewrite (assoc_L (++)). split; [|done].
      unfold collect in Hc. apply fmap_Some in Hc as (l & Hl & ->). simpl. by rewrite Hf, Hl.
    + intros (fs' & Hc & Hw & ->). destruct (facts a) as [fs1|] eqn:Hf; [|done]. simpl in Hc.
      destruct (mapM _ reader) as [l|] eqn:Hl; [|done]. simplify_eq/=. rewrite (assoc_L (++)) in Hw |- *.
      eexists. split; [exists fs1; split_and!; [done|by eapply within_app|done]|].
      apply IH; [by eapply within_app|]. exists (mjoin l). unfold collect. by rewrite Hl.
  - split; [done|]. by intros (? & ? & _).
Qed.

Definition room (fs : list fact) (f : fact) : Prop :=
  match f with
  | FType _ => (length (ftypes fs) < 1024)%nat
  | FImport name _ => (name ∉ (fimports fs).*1) ∧ name ∈ abi_imports.*1
  | FFunction _ => (length (ffunctions fs) < 1024)%nat
  | FMemory => Z.of_nat (length (fmemories fs)) + 1 ≤ u32_max
  | FGlobal => (length (fglobals fs) < 32)%nat
  | FCode => (length (fcodes fs) < 1024)%nat
  | FRun _ => fruns fs = []
  | FMemoryExport _ => fmemory_exports fs = []
  end.

Lemma within_snoc fs f : within fs → (within (fs ++ [f]) ↔ room fs f).
Proof.
  intros Hfs. split.
  - intros []. destruct f; simpl; facts_app; try lia.
    + rewrite fmap_app in *. apply NoDup_app in wi_imports0 as (_ & Hd & _).
      apply Forall_app in wi_expected0 as [_ He]. apply Forall_cons in He as [He _].
      split; [|done]. intros Hin. apply (Hd _ Hin). simpl. set_solver.
    + apply length_zero_iff_nil. lia.
    + apply length_zero_iff_nil. lia.
  - intros Hr. destruct Hfs. destruct f; simpl in Hr; split; facts_app; try done; try lia.
    + destruct Hr as [Hn _]. rewrite fmap_app. apply NoDup_app. split_and!; [done| |].
      * intros x Hx Hin. simpl in Hin. set_solver.
      * simpl. apply NoDup_singleton.
    + apply Forall_app. split; [done|]. constructor; [|done]. apply Hr.
    + by rewrite Hr.
    + by rewrite Hr.
Qed.

(** A body that adds one fact. *)
Lemma denotes_one {A} (body : Seen → A → Checked Seen) facts :
  (∀ fs a s', within fs →
     body (seen_of fs) a = Ok s' ↔
     ∃ f, facts a = Some [f] ∧ room fs f ∧ s' = seen_of (fs ++ [f])) →
  (∀ a fs, facts a = Some fs → ∃ f, fs = [f]) →
  denotes body facts.
Proof.
  intros Hb Hone fs a s' Hfs. rewrite Hb by done. split.
  - intros (f & Hf & Hr & ->). exists [f]. by rewrite within_snoc by done.
  - intros (fs' & Hf & Hw & ->). destruct (Hone _ _ Hf) as [f ->]. exists f.
    by rewrite <- within_snoc by done.
Qed.

Lemma only_Some cond fs fs' : only cond fs = Some fs' ↔ cond = true ∧ fs' = fs.
Proof. destruct cond; naive_solver. Qed.

Lemma push_type_denotes : denotes push_type type_facts.
Proof.
  apply denotes_one.
  - intros fs [f|] s' Hfs; simpl; [|naive_solver].
    unfold reject_if. rewrite guard_Ok. bools. split.
    + intros [Hl [= <-]]. exists (FType f). split_and!; [done|simpl; lia|].
      unfold seen_of; facts_app. done.
    + intros (f' & [= <-] & Hr & ->). simpl in Hr. split; [lia|].
      unfold seen_of; facts_app. done.
  - intros [f|] fs Hf; naive_solver.
Qed.

Lemma require_u32_Ok z k : (require (checked_u32 z) : Checked Z) = Ok k ↔ 0 ≤ z ≤ u32_max ∧ k = z.
Proof. unfold require, checked_u32. rewrite ok_or_Ok. apply checked_Some. Qed.

(** Expected names do not repeat, so there are at most five. *)
Lemma imports_few fs : within fs → (length (fimports fs) ≤ 5)%nat.
Proof.
  intros [_ Hnd He _ _ _ _ _ _]. rewrite <- (length_fmap fst).
  change 5%nat with (length abi_imports.*1). apply submseteq_length.
  apply NoDup_submseteq; [done|]. intros n [x [-> Hx]]%list_elem_of_fmap.
  rewrite Forall_forall in He. by apply He.
Qed.

Lemma import_denotes : denotes visit_import import_facts.
Proof.
  apply denotes_one.
  - intros fs [m name [i|]] s' Hfs; unfold visit_import, import_facts; simpl; [|naive_solver].
    pose proof (imports_few fs Hfs) as Hfew.
    unfold reject_if. rewrite guard_Ok, bind_Ok. setoid_rewrite require_u32_Ok.
    setoid_rewrite only_Some. bools. unfold u32_max.
    assert (¬ is_Some (list_to_map (M:=gmap string Z) (fimports fs) !! name) ↔
      name ∉ (fimports fs).*1) as Hnot.
    { rewrite not_elem_of_list_to_map, eq_None_not_Some. done. }
    rewrite Hnot. split.
    + intros ([[-> He] Hn] & k & [Hk ->] & [= <-]). exists (FImport name i).
      apply not_eq_None_Some, five_names in He. split_and!; try done.
      * rewrite andb_true_iff. split; by apply bool_decide_eq_true_2.
      * unfold seen_of; facts_app. f_equal; [|lia].
        by rewrite list_to_map_snoc.
    + intros (f & [[->%bool_decide_eq_true He%bool_decide_eq_true]%andb_true_iff [= ->]] &
        [Hn Hex] & ->).
      apply five_names, not_eq_None_Some in He. split_and!; try done.
      exists (Z.of_nat (length (fimports fs)) + 1). split_and!; try lia.
      unfold seen_of; facts_app. unfold mret, result_ret. do 2 f_equal; [|lia].
      by rewrite list_to_map_snoc.
  - intros [m name [i|]] fs; unfold import_facts; simpl; [|done]. intros [_ ->]%only_Some. eauto.
Qed.

Lemma function_denotes :
  denotes (λ s index, reject_if (1024 <=? Z.of_nat (length (local_type_indices s)));;
    visit_function s index) (λ i, Some [FFunction i]).
Proof.
  apply denotes_one; [|naive_solver].
  intros fs i s' Hfs. unfold reject_if, visit_function. simpl. rewrite guard_Ok. bools. split.
  - intros [Hl [= <-]]. exists (FFunction i). split_and!; [done|simpl; lia|].
    unfold seen_of; facts_app. done.
  - intros (f & [= <-] & Hr & ->). simpl in Hr. split; [lia|]. unfold seen_of; facts_app. done.
Qed.

(** Every failure is the same, so it does not matter which check comes first. *)
Lemma visit_functions_visit s reader :
  visit_functions s reader =
  visit (λ s index, reject_if (1024 <=? Z.of_nat (length (local_type_indices s)));;
    visit_function s index) s reader.
Proof.
  revert s. induction reader as [|[i|] reader IH]; intros s; simpl; [done| |].
  - unfold reject_if. destruct (_ <=? _); simpl; [done|]. apply IH.
  - unfold reject_if. by destruct (_ <=? _).
Qed.

Lemma memory_denotes : denotes visit_memory (λ m, only (memory_fits m) [FMemory]).
Proof.
  apply denotes_one; [|intros m fs [_ ->]%only_Some; eauto].
  intros fs m s' Hfs. unfold visit_memory, reject_if. simpl.
  rewrite bad_memory_fits, bind_Ok.
  setoid_rewrite require_u32_Ok. setoid_rewrite guard_Ok. setoid_rewrite only_Some.
  setoid_rewrite negb_false_iff. split.
  - intros (k & [Hk ->] & Hb & [= <-]). exists FMemory. split_and!; try done; [simpl; lia|].
    unfold seen_of; facts_app. f_equal. lia.
  - intros (f & [Hb [= ->]] & Hr & ->). simpl in Hr. eexists.
    split; [split; [lia|done]|]. split; [done|].
    unfold seen_of; facts_app. unfold mret, result_ret. do 2 f_equal. lia.
Qed.

Lemma global_denotes : denotes visit_global global_facts.
Proof.
  apply denotes_one; [|intros m fs [_ ->]%only_Some; eauto].
  intros fs t s' Hfs. unfold visit_global, global_facts, reject_if. simpl. rewrite bind_Ok.
  setoid_rewrite require_u32_Ok. setoid_rewrite guard_Ok. setoid_rewrite only_Some.
  setoid_rewrite orb_false_iff. setoid_rewrite negb_false_iff. split.
  - intros (k & [Hk ->] & [Hb%Z.ltb_ge Ht] & [= <-]). exists FGlobal.
    split_and!; try done; [simpl; lia|]. unfold seen_of; facts_app. f_equal. lia.
  - intros (f & [Hb [= ->]] & Hr & ->). simpl in Hr. eexists.
    split; [split; [unfold u32_max; lia|done]|]. split; [split; [apply Z.ltb_ge; lia|done]|].
    unfold seen_of; facts_app. unfold mret, result_ret. do 2 f_equal. lia.
Qed.

Lemma last_one {A} (l : list A) : ¬ is_Some (last l) ↔ l = [].
Proof. by rewrite <- eq_None_not_Some, last_None. Qed.

Lemma export_denotes : denotes visit_export export_facts.
Proof.
  apply denotes_one.
  - intros fs [name [] i] s' Hfs; unfold visit_export, export_facts, reject_if; simpl;
      [| |naive_solver]; rewrite guard_Ok; setoid_rewrite only_Some; bools;
      rewrite last_one.
    + split.
      * intros [[-> Hn] [= <-]]. exists (FRun i). split_and!; try done.
        unfold seen_of; facts_app. by rewrite last_snoc.
      * intros (f & [->%bool_decide_eq_true [= ->]] & Hr & ->). split_and!; try done.
        unfold seen_of; facts_app. by rewrite last_snoc.
    + split.
      * intros [[-> Hn] [= <-]]. exists (FMemoryExport i). split_and!; try done.
        unfold seen_of; facts_app. by rewrite last_snoc.
      * intros (f & [->%bool_decide_eq_true [= ->]] & Hr & ->). split_and!; try done.
        unfold seen_of; facts_app. by rewrite last_snoc.
  - intros [name [] i] fs; unfold export_facts; simpl; [| |done]; intros [_ ->]%only_Some; eauto.
Qed.

Lemma code_denotes : denotes (λ s (_ : unit), visit_code s) (λ _, Some [FCode]).
Proof.
  apply denotes_one; [|naive_solver].
  intros fs [] s' Hfs. unfold visit_code, reject_if. simpl. rewrite bind_Ok.
  setoid_rewrite require_u32_Ok. setoid_rewrite guard_Ok. setoid_rewrite Z.ltb_ge. split.
  - intros (k & [Hk ->] & Hb & [= <-]). exists FCode. split_and!; try done; [simpl; lia|].
    unfold seen_of; facts_app. f_equal. lia.
  - intros (f & [= <-] & Hr & ->). simpl in Hr. eexists.
    split; [split; [unfold u32_max; lia|done]|]. split; [lia|].
    unfold seen_of; facts_app. unfold mret, result_ret. do 2 f_equal. lia.
Qed.

(** A payload the loop lets pass without looking. *)
Lemma passes fs cond s' :
  within fs →
  (if cond : bool then mret (seen_of fs) else reject) = Ok s' ↔
  ∃ fs', only cond [] = Some fs' ∧ within (fs ++ fs') ∧ s' = seen_of (fs ++ fs').
Proof.
  intros Hfs. setoid_rewrite only_Some. destruct cond; split.
  - intros [= <-]. exists []. by rewrite app_nil_r.
  - intros (? & [_ ->] & _ & ->). by rewrite app_nil_r.
  - done.
  - by intros (? & [? _] & _).
Qed.

Lemma payload_denotes : denotes visit_payload payload_facts.
Proof.
  intros fs p s' Hfs. destruct p; simpl; try (by apply (passes _ true)); try (by apply passes);
    try (split; [done|by intros (? & ? & _)]).
  - apply (visit_denotes visit_group (λ group, collect type_facts (Some <$> group))); [|done].
    intros fs1 g s1 H1. by apply (visit_denotes _ _ push_type_denotes).
  - by apply (visit_denotes _ _ import_denotes).
  - rewrite visit_functions_visit. by apply (visit_denotes _ _ function_denotes).
  - by apply (visit_denotes _ _ memory_denotes).
  - by apply (visit_denotes _ _ global_denotes).
  - by apply (visit_denotes _ _ export_denotes).
  - by apply (code_denotes fs ()).
Qed.

(** ** The final checks *)

Lemma fimports_elem fs name i : (name, i) ∈ fimports fs ↔ FImport name i ∈ fs.
Proof.
  unfold fimports. rewrite list_elem_of_omap. split.
  - by intros ([] & Hf & [= -> ->]).
  - intros Hf. by exists (FImport name i).
Qed.

Lemma fimports_functional fs name i j :
  within fs → FImport name i ∈ fs → FImport name j ∈ fs → i = j.
Proof.
  rewrite <- !fimports_elem. intros Hfs Hi Hj.
  apply (elem_of_list_to_map_1 (M:=gmap string)) in Hi, Hj; [|apply Hfs..].
  by simplify_eq.
Qed.

Lemma imports_all fs :
  within fs →
  (length (fimports fs) = 5%nat ↔
   ∀ name, name ∈ abi_imports.*1 → name ∈ (fimports fs).*1).
Proof.
  intros Hfs. pose proof (imports_few fs Hfs) as Hfew. destruct Hfs as [_ Hnd He _ _ _ _ _ _].
  assert ((fimports fs).*1 ⊆+ abi_imports.*1) as Hsub.
  { apply NoDup_submseteq; [done|]. intros n [x [-> Hx]]%list_elem_of_fmap.
    rewrite Forall_forall in He. by apply He. }
  rewrite <- (length_fmap fst) in Hfew |- *. split.
  - intros Hlen name Hname.
    rewrite (submseteq_length_Permutation _ _ Hsub); [done|]. by rewrite Hlen.
  - intros Hall. apply Nat.le_antisymm; [lia|].
    change 5%nat with (length abi_imports.*1). apply submseteq_length.
    apply NoDup_submseteq; [|done].
    by apply (bool_decide_unpack _).
Qed.

Lemma signature_Ok ts i ty : signature ts i = Ok ty ↔ ts !! Z.to_nat i = Some ty.
Proof. apply ok_or_Ok. Qed.

Lemma check_import_Ok ts name i u :
  check_import ts (name, i) = Ok u ↔ ∃ sig, expected name = Some sig ∧ ts !! Z.to_nat i = Some sig.
Proof.
  unfold check_import, require, reject_if. rewrite bind_Ok. setoid_rewrite ok_or_Ok.
  setoid_rewrite bind_Ok. setoid_rewrite signature_Ok. setoid_rewrite fail_if_Ok. split.
  - intros ([ps rs] & He & [ps' rs'] & Ht & Hb). bools. simpl in *. subst. eauto.
  - intros (sig & He & Ht). exists sig. split; [done|]. exists sig. split; [done|].
    by rewrite !bool_decide_eq_true_2.
Qed.

Lemma check_surface_Ok fs : within fs → (check_surface (seen_of fs) = Ok () ↔ abi_surface fs).
Proof.
  intros Hfs. unfold check_surface, reject_if, require. simpl.
  rewrite guard_Ok, seq_Ok, for_each_Ok, bind_Ok. bools.
  assert (map_to_list (list_to_map (M:=gmap string Z) (fimports fs)) ≡ₚ fimports fs) as Hperm
    by (apply map_to_list_to_map, Hfs).
  rewrite Hperm. rewrite <- length_map_to_list, Hperm.
  setoid_rewrite ok_or_Ok. setoid_rewrite bind_Ok. setoid_rewrite ok_or_Ok.
  setoid_rewrite bind_Ok. setoid_rewrite ok_or_Ok. setoid_rewrite bind_Ok.
  setoid_rewrite signature_Ok. setoid_rewrite fail_if_Ok. setoid_rewrite orb_false_iff.
  setoid_rewrite negb_false_iff. setoid_rewrite bool_decide_eq_true.
  setoid_rewrite checked_Some. rewrite imports_all by done.
  assert (length (fmemories fs) = 1%nat ↔ fmemories fs = [()]) as Hmem.
  { destruct (fmemories fs) as [|[] [|]]; naive_solver. }
  assert (∀ (l : list Z) x, (length l ≤ 1)%nat → last l = Some x ↔ l = [x]) as Hlast.
  { intros [|y [|]] x Hl; simpl in *; [naive_solver..|lia]. }
  rewrite !(Hlast _ _) by apply Hfs. setoid_rewrite (Hlast (fruns fs)); [|apply Hfs].
  split.
  - intros ([[Hall Hm] Hme] & Himp & run & Hrun & k & [Hk ->] & i & Hi & [ps rs] & Ht & Hp & Hr).
    simpl in *. subst. assert (length (fimports fs) = 5%nat) as Hfive by (by apply imports_all).
    split; [|by apply Hmem, Nat2Z.inj|done|].
    + intros name sig Hsig%expected_abi.
      destruct (proj1 (list_elem_of_fmap _ _ _) (Hall name (proj1 (five_names name) ltac:(eauto))))
        as [[n i'] [-> Hin]].
      rewrite Forall_forall in Himp. pose proof (Himp _ Hin) as (sig' & Hs & Ht')%check_import_Ok.
      simpl in *. simplify_eq. exists i'. by rewrite <- fimports_elem.
    + exists run, i. rewrite Hfive in *. split_and!; try done; lia.
  - intros [Himp Hmemo Hexp (run & i & Hrun & Hrange & Hi & Ht)].
    assert (∀ name, name ∈ abi_imports.*1 → name ∈ (fimports fs).*1) as Hall.
    { intros name [[n sig] [-> Hsig]]%list_elem_of_fmap.
      destruct (Himp _ _ Hsig) as (j & Hj & _). apply list_elem_of_fmap.
      exists (n, j). by rewrite fimports_elem. }
    assert (length (fimports fs) = 5%nat) as Hfive by (by apply imports_all).
    split_and!; [done|by rewrite Hmemo|done| |].
    + apply Forall_forall. intros [name j] Hin. apply check_import_Ok.
      pose proof (wi_expected _ Hfs) as He. rewrite Forall_forall in He.
      destruct (proj2 (five_names _) (He _ Hin)) as [sig Hsig]. exists sig. split; [done|].
      apply expected_abi in Hsig. destruct (Himp _ _ Hsig) as (j' & Hj' & Ht'). apply fimports_elem in Hin.
      by rewrite (fimports_functional fs name j j').
    + exists run. split; [done|]. rewrite Hfive. eexists. split; [split; [|done]; lia|].
      exists i. split; [done|]. eexists. by split.
Qed.

Module ValidateDemo.

Definition imported (name : string) (i : Z) : option Import :=
  Some (mkImport "effectlatch_v1" name (TypeRef_Func i)).
(** The module of the source's own tests. *)
Definition payloads : list (option Payload) := [
  Some (Version true);
  Some (TypeSection [Some [Func (mkFuncType [] [I32])];
    Some [Func (mkFuncType [I32; I32] [I32])];
    Some [Func (mkFuncType [I32; I32; I32; I32] [I32])]]);
  Some (ImportSection [imported "input_len" 0; imported "input_read" 1; imported "effect_call" 2;
    imported "output_write" 1; imported "log" 1]);
  Some (FunctionSection [Some 0]);
  Some (MemorySection [Some (mkMemoryType false false 1 (Some 1024) None)]);
  Some (ExportSection [Some (mkExport "memory" ExternalMemory 0);
    Some (mkExport "run" ExternalFunc 5)]);
  Some (CodeSectionStart 1); Some CodeSectionEntry; Some End_].

#[global] Instance parser : Wasmparser :=
  {| validate_all _ := true; parse_all _ := payloads |}.

Example surface_accepted : validate [x00] = Ok ().
Proof. vm_compute. reflexivity. Qed.
End ValidateDemo.

(** ** Properties *)

(** C22: a module is accepted exactly when it implements the ABI.  It
    must be of 1 byte to 2 MiB, valid WebAssembly 2.0, and made of payloads the
    ABI has room for within the bounds: then it imports exactly the five host
    functions of [abi_imports] with their signatures and nothing else, has one
    plain memory whose declared maximum is at most 1024 pages, exported as
    [memory], exports besides that only a function of
    its own [run : [] -> [i32]], and has no table, element, start or unknown
    section. *)
Theorem validate_surface `{Wasmparser} b :
  validate b = Ok () ↔
  (b ≠ [] ∧ Z.of_nat (length b) ≤ 2 * 1024 * 1024) ∧ validate_all b = true ∧
  ∃ fs, collect payload_facts (parse_all b) = Some fs ∧ within fs ∧ abi_surface fs.
Proof.
  unfold validate, reject_if. rewrite !guard_Ok, bind_Ok. bools.
  assert (within []) as Hnil
    by (split; simpl; try constructor; try (unfold u32_max; lia)).
  pose proof (visit_denotes _ _ payload_denotes [] (parse_all b)) as Hv.
  split.
  - intros ([Hb Hl] & Hva & s & Hs & Hc). split_and!; try done.
    apply (Hv s) in Hs as (fs & Hf & Hw & ->); [|done]. simpl in *.
    exists fs. split_and!; try done. by apply check_surface_Ok.
  - intros ([Hb Hl] & Hva & fs & Hf & Hw & Hs). split_and!; try done.
    exists (seen_of fs). split; [|by apply check_surface_Ok].
    apply (Hv (seen_of fs)); [done|]. eauto.
Qed.

Lemma validate_surface_witness :
  ∃ fs, collect payload_facts (parse_all [x00]) = Some fs ∧ abi_surface fs.
Proof.
  destruct (proj1 (validate_surface [x00]) ValidateDemo.surface_accepted) as (_ & _ & fs & Hf & _ & Hs).
  exists fs. split; [exact Hf|exact Hs].
Defined.
