(* ===== verification/Engine.v ===== *)
(** * Engine: one bounded invocation

    Models [crates/runtime/src/engine.rs].  [wasmtime] is a parameter: compiling
    a module, and running [run] in a store with the limits it was given. *)
From S2P Require Export Validate.

(** [StoreLimits] *)
Record StoreLimits := mkStoreLimits {
  sl_memory_size : Z;
  sl_instances : Z;
  sl_memories : Z;
  sl_tables : Z;
}.

(** [RuntimeStore], with the fuel and the epoch deadline of its [Store]. *)
Record RuntimeStore (T : Type) := mkRuntimeStore {
  rs_host : T;
  rs_limits : StoreLimits;
  rs_wall_ms : Z;
  rs_fuel : Z;
  rs_epoch_deadline : Z;
}.
Arguments mkRuntimeStore {T}.
Arguments rs_host {T}.
Arguments rs_limits {T}.
Arguments rs_wall_ms {T}.
Arguments rs_fuel {T}.
Arguments rs_epoch_deadline {T}.

Section engine.
Context `{Wasmparser} {Module_ : Type}.

(** [BoundedEngine::compile]; [module_new] is [Module::new]. *)
Definition compile (module_new : list byte → option Module_) (b : list byte) :
    result RuntimeError Module_ :=
  map_err (λ _, RInvalidModule) (validate b);;
  ok_or (module_new b) RWasmtime.

(** [BoundedEngine::new_store]; a [u64] is a [usize]. *)
Definition new_store {T} (host : T) (requested operator_caps : Limits) :
    result RuntimeError (RuntimeStore T) :=
  limits ← map_err RLimits (Limits_validate requested operator_caps);
  memory_bytes ← ok_or (checked_u64 (memory_bytes limits))
    (RLimits (InvalidLimit "memory_bytes"));
  mret (mkRuntimeStore host (mkStoreLimits memory_bytes 1 1 0) (wall_ms limits) (fuel limits) 1).

(** [BoundedEngine::execute], and the flag [active] it leaves.  [configure] is
    whether the imports could be linked, [watchdog] whether its thread started,
    and [call] instantiates the module and calls its [run]. *)
Definition execute {T} (active : bool) (host : T) (requested operator_caps : Limits)
    (configure watchdog : bool) (call : RuntimeStore T → result RuntimeError Z) :
    result RuntimeError Z * bool :=
  if active then (Err RConcurrentRun, active)
  else
    let ran :=
      store ← new_store host requested operator_caps;
      fail_if (negb configure) RWasmtime;;
      fail_if (negb watchdog) RWatchdog;;
      call store in
    (* [ActiveGuard] is dropped on every return. *)
    (ran, false).
End engine.

(** The flag is free again after every run, and a second run is refused. *)
Lemma execute_active {T} (active : bool) (host : T) requested caps configure watchdog call :
  (execute active host requested caps configure watchdog call).2 = active ∧
  (active = true →
   (execute active host requested caps configure watchdog call).1 = Err RConcurrentRun).
Proof. by destruct active. Qed.

(** The store a guest runs in is bounded by the operator's caps. *)
Lemma new_store_bounded {T} (host : T) requested caps store :
  limits_u64 requested → new_store host requested caps = Ok store →
  0 < rs_fuel store ≤ fuel caps ∧ 0 < rs_wall_ms store ≤ wall_ms caps ∧
  0 < sl_memory_size (rs_limits store) ≤ 64 * 1024 * 1024 ∧
  sl_memories (rs_limits store) = 1 ∧ sl_tables (rs_limits store) = 0.
Proof.
  intros Hu Hs. unfold new_store in Hs. inv_ok.
  match goal with Hv : Limits_validate _ _ = _ |- _ =>
    apply Limits_validate_Ok_iff in Hv as [-> []]; [|done] end.
  match goal with Hc : checked_u64 _ = _ |- _ => apply checked_Some in Hc as [_ ->] end.
  simpl. split_and!; done || lia.
Qed.

(** ** The epoch watchdog

    [EpochWatchdog]: a thread that waits for a message until the invocation's
    wall time is over, and moves the engine's epoch when none came.  Dropping the
    watchdog sends the message and joins the thread, on every return of
    [execute].  The store was given the epoch after the one it was created in as
    its deadline, so the guest traps once the epoch has moved. *)
Inductive WatchdogThread := Waiting | Finished.
Inductive Phase := Calling | Dropping | Returned.

Record Watched := mkWatched {
  wt_epoch : Z;
  wt_deadline : Z;
  wt_elapsed : bool;
  wt_stop : bool;
  wt_thread : WatchdogThread;
  wt_phase : Phase;
}.

(** [EpochWatchdog::start] in a store whose epoch deadline is [delta] ahead. *)
Definition watchdog_start (epoch delta : Z) : Watched :=
  mkWatched epoch (epoch + delta) false false Waiting Calling.

(** A step of the clock, of the watchdog's thread, or of the invocation.  At its
    timeout the thread may find the message or not. *)
Inductive watched_step (w : Watched) : Watched → Prop :=
  | wall_elapses :
      watched_step w (mkWatched (wt_epoch w) (wt_deadline w) true (wt_stop w) (wt_thread w)
        (wt_phase w))
  | watchdog_fires :
      wt_thread w = Waiting → wt_elapsed w = true →
      watched_step w (mkWatched (wt_epoch w + 1) (wt_deadline w) (wt_elapsed w) (wt_stop w)
        Finished (wt_phase w))
  | watchdog_stops :
      wt_thread w = Waiting → wt_stop w = true →
      watched_step w (mkWatched (wt_epoch w) (wt_deadline w) (wt_elapsed w) (wt_stop w)
        Finished (wt_phase w))
  | call_returns :
      wt_phase w = Calling →
      watched_step w (mkWatched (wt_epoch w) (wt_deadline w) (wt_elapsed w) true (wt_thread w)
        Dropping)
  | watchdog_joined :
      wt_phase w = Dropping → wt_thread w = Finished →
      watched_step w (mkWatched (wt_epoch w) (wt_deadline w) (wt_elapsed w) (wt_stop w)
        (wt_thread w) Returned).

(** The guest traps at its next check. *)
Definition interrupted (w : Watched) : bool := wt_deadline w <=? wt_epoch w.

(** What holds of an invocation that began in [epoch]. *)
Record watched_ok (epoch : Z) (w : Watched) : Prop := {
  wk_deadline : wt_deadline w = epoch + 1;
  wk_epoch : wt_epoch w = epoch ∨ wt_epoch w = epoch + 1;
  wk_early : wt_epoch w = epoch + 1 → wt_elapsed w = true;
  wk_waiting : wt_thread w = Waiting → wt_epoch w = epoch;
  wk_stop : wt_phase w ≠ Calling → wt_stop w = true;
  wk_calling : wt_phase w = Calling → wt_stop w = false;
  wk_fired : wt_thread w = Finished → wt_phase w = Calling → wt_epoch w = epoch + 1;
  wk_joined : wt_phase w = Returned → wt_thread w = Finished;
}.

Lemma watchdog_start_ok epoch : watched_ok epoch (watchdog_start epoch 1).
Proof. split; simpl; (done || auto || lia). Qed.

Lemma watched_step_ok epoch w w' : watched_ok epoch w → watched_step w w' → watched_ok epoch w'.
Proof.
  intros [Hd He Hearly Hw Hs Hc Hf Hj] Hstep.
  destruct Hstep; split; simpl in *; try done; try congruence; intuition (congruence || lia).
Qed.

Lemma watched_steps_ok epoch w w' :
  watched_ok epoch w → rtc watched_step w w' → watched_ok epoch w'.
Proof. intros Hw Hs. induction Hs; [done|]. eauto using watched_step_ok. Qed.

(** ** Properties *)

(** C23: an invocation's watchdog interrupts it in time, never early, and
    never outlives it.  Whatever order the clock, the watchdog's thread and the
    invocation take their steps in: the guest is interrupted only after its wall
    time; once that is over, the thread can always interrupt a guest that still
    runs; dropping the watchdog can always come to an end, without moving the
    epoch; and when [execute] has returned, no thread is left that could move the epoch
    under a later invocation. *)
Theorem watchdog_confined epoch w :
  rtc watched_step (watchdog_start epoch 1) w →
  (interrupted w = true → wt_elapsed w = true) ∧
  (wt_phase w = Calling → wt_elapsed w = true →
     interrupted w = true ∨ ∃ w', watched_step w w' ∧ interrupted w' = true) ∧
  (wt_phase w = Dropping →
     ∃ w', rtc watched_step w w' ∧ wt_phase w' = Returned ∧ wt_epoch w' = wt_epoch w) ∧
  (wt_phase w = Returned → ∀ w', rtc watched_step w w' → wt_epoch w' = wt_epoch w).
Proof.
  intros Hsteps. pose proof (watched_steps_ok _ _ _ (watchdog_start_ok epoch) Hsteps) as Hw.
  destruct Hw as [Hd He Hearly Hwait Hstop Hcall Hfired Hjoin]. unfold interrupted.
  split_and!.
  - intros Hi%Z.leb_le. apply Hearly. lia.
  - intros Hp Hel. destruct (wt_thread w) eqn:Ht.
    + right. eexists. split; [by apply watchdog_fires|]. simpl. apply Z.leb_le.
      rewrite Hd, Hwait; done || lia.
    + left. apply Z.leb_le. rewrite Hfired by done. lia.
  - intros Hp. specialize (Hstop ltac:(by rewrite Hp)). destruct (wt_thread w) eqn:Ht.
    + eexists. split; [eapply rtc_l; [by apply watchdog_stops|apply rtc_once; by apply watchdog_joined]|].
      done.
    + eexists. split; [apply rtc_once; by apply watchdog_joined|]. done.
  - intros Hp w' Hs. pose proof (Hjoin Hp) as Ht. clear -Hp Ht Hs.
    induction Hs as [|w w1 w2 Hstep _ IH]; [done|].
    destruct Hstep; simpl in *; try congruence. by rewrite IH.
Qed.

Lemma watchdog_confined_witness :
  let stuck := mkWatched 7 8 true false Waiting Calling in
  ∃ w', watched_step stuck w' ∧ interrupted w' = true.
Proof.
  intros stuck.
  destruct (watchdog_confined 7 stuck ltac:(apply rtc_once; exact (wall_elapses (watchdog_start 7 1))))
    as (_ & Hlive & _ & _).
  destruct (Hlive eq_refl eq_refl) as [Hi|Hw]; [discriminate Hi|exact Hw].
Defined.
