(* ===== verification/Supervisor.v ===== *)
(** * Supervisor: one supervised run

    Models [crates/runtime/src/supervisor.rs].  What the operating system, the
    clock, the broker and the threads answer is a list of ticks, one per
    iteration of the loop they are read in; what the run does to its child and its
    broker is kept in its variables; instants are nanoseconds. *)
From S2P Require Export Abi.

(** ** Durations *)
Definition from_millis (n : Z) : Z := n * 1000000.
Definition PROTOCOL_VERSION : Z := 1.
Definition SUPERVISION_ALLOWANCE : Z := from_millis 500.
Definition LEASE_POLL : Z := from_millis 20.
Definition EXIT_POLL : Z := from_millis 5.
Definition CLEANUP_WAIT : Z := from_millis 250.
Definition REAPER_CAPACITY : Z := 8.

(** [Instant::checked_add]: whole seconds are an [i64]. *)
Definition instant_max : Z := i64_max * 1000000000 + 999999999.
Definition instant_checked_add (at_ duration : Z) : option Z :=
  checked 0 instant_max (at_ + duration).
(** [Instant::saturating_duration_since] *)
Definition saturating_duration_since (self earlier : Z) : Z := Z.max 0 (self - earlier).

(** ** Errors *)

Inductive LeaseState :=
  | LeaseCurrent
  | LeaseCancelled
  | LeaseIsLost.

Inductive BrokerError :=
  | BrokerCancelled
  | BrokerLeaseLost
  | BrokerEffect (failure : DispatchFailure).

Inductive SupervisorError :=
  | UnsupportedHostError (e : ConfigError)
  | RunnerPath
  | InvalidAbiCaps
  | SupervisorIo
  | Protocol (e : ProtocolError)
  | Deadline
  | Cancelled
  | LeaseLost
  | RunnerFailure (code : string)
  | ChildExit (code : option Z)
  | BrokerResponse
  | Clock.

Record SupervisedOutcome := mkSupervisedOutcome {
  so_output : option (list byte);
  so_logs : list string;
}.

#[global] Instance LeaseState_eq_dec : EqDecision LeaseState.
Proof. solve_decision. Defined.
#[global] Instance SupervisorError_eq_dec : EqDecision SupervisorError.
Proof. solve_decision. Defined.
#[global] Instance SupervisedOutcome_eq_dec : EqDecision SupervisedOutcome.
Proof. solve_decision. Defined.

Record Supervisor := mkSupervisor {
  operator_caps : Limits;
  abi_caps : AbiCaps;
}.

(** [Supervisor::new_with_abi_caps]; the path is known by [is_file]. *)
Definition new_with_abi_caps (os arch : string) (is_file : bool) (caps : Limits)
    (abi : AbiCaps) : result SupervisorError Supervisor :=
  map_err UnsupportedHostError (require_execution_host os arch);;
  map_err UnsupportedHostError (Limits_validate caps caps);;
  map_err (λ _, InvalidAbiCaps) (AbiCaps_validate abi);;
  fail_if (negb is_file) RunnerPath;;
  mret (mkSupervisor caps abi).
(** [Supervisor::new] *)
Definition new (os arch : string) (is_file : bool) (caps : Limits) :
    result SupervisorError Supervisor :=
  new_with_abi_caps os arch is_file caps (mkAbiCaps MAX_HOST_CALLS LOG_BYTES).

Definition valid_reply (request : EffectRequest) (reply : EffectReply) : bool :=
  (rep_ordinal reply =? er_ordinal request)
  && bool_decide (tr_project (rep_response reply) = ta_project (er_arguments request))
  && negb (str_is_empty (tr_ticket_id (rep_response reply))).

Definition dispatch_code (failure : DispatchFailure) : Z :=
  match failure with
  | DPolicy => -3
  | DUnresolved => -4
  | DReplayDivergence => -5
  | DUnavailable => -7
  end.

(** ** The child *)

(** [child], [stdin] and [permit] are whether the option is [Some]. *)
Record RunnerChild := mkRunnerChild {
  rc_child : bool;
  rc_stdin : bool;
  rc_armed : bool;
  rc_permit : bool;
}.

(** [RunnerChild::kill_tree]: [exited] is whether [try_wait] finds it gone; the
    second value is whether the child and its permit went to the reaper. *)
Definition kill_tree (exited : bool) (self : RunnerChild) : RunnerChild * bool :=
  if rc_child self then
    if exited then (mkRunnerChild false false (rc_armed self) (rc_permit self), false)
    else (mkRunnerChild false false (rc_armed self) false, true)
  else (mkRunnerChild false false (rc_armed self) (rc_permit self), false).

(** [Drop for RunnerChild]; what is left of its permit is released after it. *)
Definition drop_runner (exited : bool) (self : RunnerChild) : RunnerChild * bool :=
  if rc_armed self then kill_tree exited self else (self, false).

(** ** The variables of [Supervisor::run]

    [lp_waiting] is [dispatch_pending].  [lp_dispatched] is what the run did to its
    broker: the message and the request of every [dispatch_if_current] it spawned a
    thread for.  [lp_written] is what it did to its child: the bytes written to its
    standard input.  [lp_history] is the messages exchanged so far, which the code
    does not keep. *)
Record Loop := mkLoop {
  lp_sequence : ParentSequence;
  lp_logs : list string;
  lp_waiting : bool;
  lp_dispatched : list (Z * EffectRequest);
  lp_written : list byte;
  lp_history : list message;
}.

(** The dispatch whose result is awaited: its thread sends the message and the
    request back along with the result. *)
Definition lp_pending (lp : Loop) : option (Z * EffectRequest) :=
  if lp_waiting lp then last (lp_dispatched lp) else None.

(** A computation of [run]: it may return early, or still be waiting when the
    ticks it was given end.  A success carries the variables it ended with. *)
Abbreviation Run := (result (option (result SupervisorError (SupervisedOutcome * Loop)))).
Definition return_err {A} (e : SupervisorError) : Run A := Err (Some (Err e)).
Definition waiting {A} : Run A := Err None.
(** The [?] operator. *)
Definition try_ {A} (r : result SupervisorError A) : Run A := map_err (λ e, Some (Err e)) r.

Definition check_lease (lease : LeaseState) : result SupervisorError unit :=
  match lease with
  | LeaseCurrent => Ok ()
  | LeaseCancelled => Err Cancelled
  | LeaseIsLost => Err LeaseLost
  end.

Inductive WriteEvent :=
  | WriteDone (ok : bool)
  | WriteTimeout
  | WriteDisconnected.
Record WriteTick := mkWriteTick {
  wt_lease : LeaseState;
  wt_now : Z;
  wt_event : WriteEvent;
}.

(** The loop of [RunnerChild::write_bounded]. *)
Fixpoint write_loop (deadline : Z) (ticks : list WriteTick) : Run unit :=
  match ticks with
  | [] => waiting
  | t :: ticks =>
    try_ (check_lease (wt_lease t));;
    (if saturating_duration_since deadline (wt_now t) =? 0 then return_err Deadline else mret ());;
    match wt_event t with
    | WriteDone ok => if ok then mret () else return_err SupervisorIo
    | WriteTimeout => write_loop deadline ticks
    | WriteDisconnected => return_err SupervisorIo
    end
  end.
(** [spawned] is whether the writing thread could be started, [stdin] what the
    child's input was sent before. *)
Definition write_bounded (self : RunnerChild) (stdin frame_bytes : list byte) (spawned : bool)
    (deadline : Z) (ticks : list WriteTick) : Run (list byte) :=
  (if rc_stdin self then mret () else return_err SupervisorIo);;
  (if spawned then mret () else return_err SupervisorIo);;
  write_loop deadline ticks;;
  mret (stdin ++ frame_bytes).

(** [ExitStatus]: the code, unless a signal ended the child. *)
Abbreviation ExitStatus := (option Z) (only parsing).
Record WaitTick := mkWaitTick {
  wa_now : Z;
  wa_try_wait : option (option ExitStatus);
  wa_later : Z;
}.

(** The loop of [RunnerChild::wait_bounded], to the smaller of both deadlines.
    Past it the child is killed as [drop_runner] kills it after any error. *)
Fixpoint wait_loop (child : bool) (deadline : Z) (ticks : list WaitTick) : Run ExitStatus :=
  match ticks with
  | [] => waiting
  | t :: ticks =>
    (if deadline <=? wa_now t then return_err SupervisorIo else mret ());;
    (if child then mret () else return_err SupervisorIo);;
    match wa_try_wait t with
    | None => return_err SupervisorIo
    | Some (Some status) => mret status
    | Some None =>
      (if deadline <=? wa_later t then return_err SupervisorIo else mret ());;
      wait_loop child deadline ticks
    end
  end.
Definition wait_bounded (self : RunnerChild) (now invocation_deadline : Z)
    (ticks : list WaitTick) : Run ExitStatus :=
  cleanup_deadline ← try_ (ok_or (instant_checked_add now CLEANUP_WAIT) SupervisorIo);
  wait_loop (rc_child self) (Z.min invocation_deadline cleanup_deadline) ticks.
(** [ExitStatus::success] *)
Definition success (status : ExitStatus) : bool := bool_decide (status = Some 0).

(** [RunnerChild::disarm]; [killed] is whether its process group could be
    signalled or was gone. *)
Definition disarm (killed : bool) (self : RunnerChild) : result SupervisorError RunnerChild :=
  fail_if (negb (rc_child self) || negb killed) SupervisorIo;;
  mret (mkRunnerChild (rc_child self) (rc_stdin self) false (rc_permit self)).

(** ** The loop *)

(** [dispatch_rx.try_recv()] *)
Inductive DispatchEvent :=
  | DispatchEmpty
  | DispatchDone (result : result BrokerError EffectReply)
  | DispatchDisconnected.
(** [frames_rx.recv_timeout(wait)] *)
Inductive FrameEvent :=
  | FrameRead (frame : result ProtocolError ChildFrame)
  | FrameTimeout
  | FrameDisconnected.

(** What one iteration is told: the lease, the clock at its two readings, the
    dispatch thread, the writes, the reader thread, whether a thread could be
    spawned, and the child's exit. *)
Record Tick := mkTick {
  tk_lease : LeaseState;
  tk_now : Z;
  tk_dispatch : DispatchEvent;
  tk_writer : bool;
  tk_write : list WriteTick;
  tk_later : Z;
  tk_frame : FrameEvent;
  tk_spawned : bool;
  tk_wait_now : Z;
  tk_wait : list WaitTick;
  tk_killed : bool;
}.

Section supervise.
Context `{FrameJson, EffectRequestJson, Base64}.

Definition response_of (request : EffectRequest) (result : result BrokerError EffectReply) :
    Run EffectResponse :=
  match result with
  | Ok reply =>
    if valid_reply request reply then mret (ResponseCommitted reply)
    else return_err BrokerResponse
  | Err BrokerCancelled => return_err Cancelled
  | Err BrokerLeaseLost => return_err LeaseLost
  | Err (BrokerEffect failure) => mret (ResponseFailed (dispatch_code failure))
  end.

(** [if dispatch_pending { ... }] *)
Definition poll_dispatch (child : RunnerChild) (deadline : Z) (t : Tick) (lp : Loop) : Run Loop :=
  match lp_pending lp with
  | None => mret lp
  | Some (message_id, request) =>
    match tk_dispatch t with
    | DispatchEmpty => mret lp
    | DispatchDisconnected => return_err BrokerResponse
    | DispatchDone result =>
      response ← response_of request result;
      let frame := mkEffectResponseFrame PROTOCOL_VERSION "effect_response" message_id response in
      sequence ← match respond (lp_sequence lp) frame with
                 | (Ok _, sequence) => mret sequence
                 | (Err e, _) => return_err (Protocol e)
                 end;
      '(_, response_bytes) ← try_ (map_err Protocol
        (write_frame response_to_vec frame MESSAGE_FRAME_BYTES []));
      written ← write_bounded child (lp_written lp) response_bytes (tk_writer t) deadline
        (tk_write t);
      mret (mkLoop sequence (lp_logs lp) false (lp_dispatched lp) written
        (lp_history lp ++ [Responded frame]))
    end
  end.

(** The arm of a finish frame: nothing is left to do but to return. *)
Definition handle_finish {A} (child : RunnerChild) (deadline : Z) (t : Tick) (lp : Loop)
    (output_b64 error_code : option string) : Run A :=
  status ← wait_bounded child (tk_wait_now t) deadline (tk_wait t);
  (if success status then mret () else return_err (ChildExit status));;
  (match error_code with Some code => return_err (RunnerFailure code) | None => mret () end);;
  output ← match output_b64 with
           | None => mret None
           | Some value =>
             Some <$> try_ (ok_or (b64_decode value) (Protocol PMessage))
           end;
  try_ (disarm (tk_killed t) child);;
  Err (Some (Ok (mkSupervisedOutcome output (lp_logs lp), lp))).

Definition handle_frame (child : RunnerChild) (deadline : Z) (t : Tick) (lp : Loop)
    (frame : ChildFrame) : Run Loop :=
  sequence ← match observe (lp_sequence lp) frame with
             | (Ok _, sequence) => mret sequence
             | (Err e, _) => return_err (Protocol e)
             end;
  let history := lp_history lp ++ [Observed frame] in
  match frame with
  | EffectRequestFrame _ message_id request =>
    (if lp_waiting lp then return_err (Protocol PSequence) else mret ());;
    (if tk_spawned t then mret () else return_err SupervisorIo);;
    mret (mkLoop sequence (lp_logs lp) true (lp_dispatched lp ++ [(message_id, request)])
      (lp_written lp) history)
  | LogFrame _ message =>
    mret (mkLoop sequence (lp_logs lp ++ [message]) (lp_waiting lp) (lp_dispatched lp)
      (lp_written lp) history)
  | FinishFrame _ output_b64 error_code =>
    (if lp_waiting lp then return_err (Protocol PSequence) else mret ());;
    handle_finish child deadline t lp output_b64 error_code
  end.

(** How long an iteration waits for a frame. *)
Definition frame_wait (deadline : Z) (t : Tick) : Z :=
  Z.min (saturating_duration_since deadline (tk_later t)) LEASE_POLL.

Definition iteration (child : RunnerChild) (deadline : Z) (t : Tick) (lp : Loop) : Run Loop :=
  try_ (check_lease (tk_lease t));;
  (if deadline <=? tk_now t then return_err Deadline else mret ());;
  lp ← poll_dispatch child deadline t lp;
  match tk_frame t with
  | FrameRead (Ok frame) => handle_frame child deadline t lp frame
  | FrameRead (Err error) => return_err (Protocol error)
  | FrameTimeout => mret lp
  | FrameDisconnected =>
    status ← wait_bounded child (tk_wait_now t) deadline (tk_wait t);
    return_err (ChildExit status)
  end.

Fixpoint run_loop (child : RunnerChild) (deadline : Z) (ticks : list Tick) (lp : Loop) :
    option (result SupervisorError (SupervisedOutcome * Loop)) :=
  match ticks with
  | [] => None
  | t :: ticks =>
    match iteration child deadline t lp with
    | Ok lp => run_loop child deadline ticks lp
    | Err returned => returned
    end
  end.

(** What [run] is told before its loop. *)
Record Launch := mkLaunch {
  la_started : Z;
  la_spawned : bool;
  la_writer : bool;
  la_write : list WriteTick;
  la_reader : bool;
}.

(** The child [RunnerChild::spawn] yields. *)
Definition spawned_child : RunnerChild := mkRunnerChild true true true true.

(** The frame it starts the child with. *)
Definition start_frame (module input : list byte) (limits : Limits) : StartFrame :=
  mkStartFrame PROTOCOL_VERSION "start" (b64_encode module) (b64_encode input) limits.

(** [Supervisor::run] up to its loop: the deadline and the loop's variables. *)
Definition prepare (self : Supervisor) (module input : list byte) (limits : Limits)
    (launch : Launch) : Run (Z * Loop) :=
  limits ← try_ (map_err UnsupportedHostError (Limits_validate limits (operator_caps self)));
  deadline ← try_ (ok_or (
    at_ ← instant_checked_add (la_started launch) (from_millis (wall_ms limits));
    instant_checked_add at_ SUPERVISION_ALLOWANCE) Clock);
  (if la_spawned launch then mret () else return_err SupervisorIo);;
  let start := start_frame module input limits in
  try_ (map_err Protocol (StartFrame_check start));;
  '(_, start_bytes) ← try_ (map_err Protocol
    (write_frame start_to_vec start START_FRAME_BYTES []));
  written ← write_bounded spawned_child [] start_bytes (la_writer launch) deadline
    (la_write launch);
  (if la_reader launch then mret () else return_err SupervisorIo);;
  sequence ← try_ (map_err Protocol (with_log_cap (cap_log_bytes (abi_caps self))));
  mret (deadline, mkLoop sequence [] false [] written []).

(** [Supervisor::run], with the variables a success ends with. *)
Definition supervise (self : Supervisor) (module input : list byte) (limits : Limits)
    (launch : Launch) (ticks : list Tick) :
    option (result SupervisorError (SupervisedOutcome * Loop)) :=
  match prepare self module input limits launch with
  | Ok (deadline, lp) => run_loop spawned_child deadline ticks lp
  | Err returned => returned
  end.
(** [Supervisor::run] *)
Definition run (self : Supervisor) (module input : list byte) (limits : Limits) (launch : Launch)
    (ticks : list Tick) : option (result SupervisorError SupervisedOutcome) :=
  match supervise self module input limits launch ticks with
  | Some (Ok (outcome, _)) => Some (Ok outcome)
  | Some (Err e) => Some (Err e)
  | None => None
  end.
End supervise.
