(* ===== verification/Supervision.v ===== *)
(** * Supervision: what a supervised run comes to

    The properties of [Supervisor]: what a successful run was, and that every
    run ends within its deadline's number of polls. *)
From S2P Require Export Supervisor.

(** ** What a finished run was *)

(** The frame an iteration read. *)
Definition tick_frame (t : Tick) : option ChildFrame :=
  match tk_frame t with FrameRead (Ok frame) => Some frame | _ => None end.

(** The dispatch that a frame asks for. *)
Definition frame_dispatch (f : ChildFrame) : option (Z * EffectRequest) :=
  match f with EffectRequestFrame _ id request => Some (id, request) | _ => None end.

(** What the child is told about its request for what the broker returned: a
    reply that is about the request, or the code of a failure. *)
Inductive answer_for (request : EffectRequest) :
    result BrokerError EffectReply → EffectResponse → Prop :=
  | answer_committed reply :
      rep_ordinal reply = er_ordinal request →
      tr_project (rep_response reply) = ta_project (er_arguments request) →
      tr_ticket_id (rep_response reply) ≠ ""%string →
      answer_for request (Ok reply) (ResponseCommitted reply)
  | answer_refused failure code :
      (failure, code) ∈ [(DPolicy, -3); (DUnresolved, -4); (DReplayDivergence, -5);
                         (DUnavailable, -7)] →
      answer_for request (Err (BrokerEffect failure)) (ResponseFailed code).

(** Every answer goes to the request before it, and is what the broker returned
    about it in one of the iterations. *)
Definition faithful (ticks : list Tick) (l : list message) : Prop :=
  ∀ l1 version id request response l2,
    l = l1 ++ Observed (EffectRequestFrame version id request) :: Responded response :: l2 →
    rf_message_id response = id ∧
    ∃ t result, t ∈ ticks ∧ tk_dispatch t = DispatchDone result ∧
      answer_for request result (rf_response response).

Lemma faithful_more ticks ticks' l : faithful ticks l → faithful (ticks ++ ticks') l.
Proof.
  intros Hl l1 v id request resp l2 Heq. destruct (Hl _ _ _ _ _ _ Heq) as (? & t & res & ? & ?).
  split; [done|]. exists t, res. split; [|done]. apply elem_of_app. by left.
Qed.

Lemma snoc_last {A} (l1 l2 l : list A) x y z :
  l ++ [z] = l1 ++ x :: y :: l2 →
  (l2 = [] ∧ l = l1 ++ [x] ∧ y = z) ∨ ∃ l2', l = l1 ++ x :: y :: l2'.
Proof.
  destruct l2 as [|w l2 _] using rev_ind; intros Heq.
  - left. replace (l1 ++ [x; y]) with ((l1 ++ [x]) ++ [y]) in Heq by (by rewrite <-(assoc_L (++))).
    by apply app_inj_tail in Heq as [-> ->].
  - right. rewrite 2!app_comm_cons, (assoc_L (++)) in Heq. apply app_inj_tail in Heq as [-> _].
    by exists l2.
Qed.

Lemma faithful_observed ticks l frame : faithful ticks l → faithful ticks (l ++ [Observed frame]).
Proof.
  intros Hl l1 v id r resp l2 [(_ & _ & ?)|[l2' ->]]%snoc_last; [done|by eapply Hl].
Qed.

Lemma faithful_responded ticks l version id request response t result :
  faithful ticks (l ++ [Observed (EffectRequestFrame version id request)]) →
  rf_message_id response = id → t ∈ ticks → tk_dispatch t = DispatchDone result →
  answer_for request result (rf_response response) →
  faithful ticks ((l ++ [Observed (EffectRequestFrame version id request)]) ++
    [Responded response]).
Proof.
  intros Hl Hid Ht Hd Ha l1 v' id' r' resp' l2 [(_ & Heq & [= ->])|[l2' Heq]]%snoc_last;
    [|by eapply Hl].
  apply app_inj_tail in Heq as [_ [= <- <- <-]]. split; [done|]. by exists t, result.
Qed.

Lemma converse_app self l l' :
  converse self (l ++ l') = self' ← converse self l; converse self' l'.
Proof.
  revert self. induction l as [|m l IH]; intros self; simpl; [done|].
  destruct (exchange self m); simpl; [apply IH|done].
Qed.

Section steps.
Context `{FrameJson, EffectRequestJson, Base64}.

Lemma try_Ok {A} (r : result SupervisorError A) a : (try_ r : Run A) = Ok a ↔ r = Ok a.
Proof. apply map_err_Ok. Qed.

Lemma respond_Ok self r u self' :
  respond self r = (Ok u, self') →
  ps_pending self = Some (rf_message_id r) ∧ ps_pending self' = None.
Proof.
  unfold respond. destruct (EffectResponseFrame_check r); [|done].
  case_bool_decide as Hp; simpl; [|done]. intros [= _ <-]. done.
Qed.

Lemma observe_Ok self f u self' :
  observe self f = (Ok u, self') →
  ps_pending self = None ∧
  ps_pending self' = match f with EffectRequestFrame _ id _ => Some id | _ => None end.
Proof.
  unfold observe. cbv zeta. cbn [ps_finished ps_messages ps_pending ps_next_id ps_log_cap ps_log_bytes].
  destruct (_ || _); [done|].
  destruct f; case_bool_decide as Hp; cbn [andb]; try done.
  - destruct (message_id =? _); [|done]. destruct (checked_u64 _); [|done]. by intros [= _ <-].
  - destruct (_ <=? _); [|done]. by intros [= _ <-].
  - by intros [= _ <-].
Qed.

(** A frame is the same bytes wherever it is written. *)
Lemma write_frame_after {T} (to_vec : T → option (list byte)) frame maximum u b out :
  write_frame to_vec frame maximum [] = Ok (u, b) →
  write_frame to_vec frame maximum out = Ok ((), out ++ b).
Proof.
  intros (body & Hb & Hf & ->)%write_frame_Ok. apply write_frame_Ok. by exists body.
Qed.

Lemma tx_for_each_snoc {S E A} (body : A → Tx S E unit) l x s s1 s2 :
  tx_for_each body l s = Ok ((), s1) → body x s1 = Ok ((), s2) →
  tx_for_each body (l ++ [x]) s = Ok ((), s2).
Proof.
  revert s. induction l as [|y l IH]; intros s Hl Hx.
  - apply tx_ret_Ok in Hl as [_ <-]. simpl. tx_step; [exact Hx|done].
  - simpl in *. apply tx_bind_Ok in Hl as ([] & s' & Hy & Hl). tx_step; [exact Hy|]. by apply IH.
Qed.

Lemma response_of_answer_for request result response :
  response_of request result = Ok response → answer_for request result response.
Proof.
  destruct result as [reply|[| |failure]]; simpl; try done.
  - unfold valid_reply, str_is_empty. destruct (_ && _) eqn:Hv; [|done]. intros [= <-].
    autorewrite with bools in Hv. destruct_and!. by constructor.
  - intros [= <-]. constructor. destruct failure; simpl; set_solver.
Qed.

(** The broker's answer, when an iteration finds one. *)
Lemma poll_dispatch_done child deadline t lp lp' :
  poll_dispatch child deadline t lp = Ok lp' →
  (lp' = lp ∧ (lp_pending lp = None ∨ tk_dispatch t = DispatchEmpty)) ∨
  ∃ id request result response sequence b,
    let frame := mkEffectResponseFrame PROTOCOL_VERSION "effect_response" id response in
    lp_pending lp = Some (id, request) ∧ tk_dispatch t = DispatchDone result ∧
    response_of request result = Ok response ∧
    respond (lp_sequence lp) frame = (Ok (), sequence) ∧
    write_frame response_to_vec frame MESSAGE_FRAME_BYTES [] = Ok ((), b) ∧
    lp' = mkLoop sequence (lp_logs lp) false (lp_dispatched lp) (lp_written lp ++ b)
      (lp_history lp ++ [Responded frame]).
Proof.
  unfold poll_dispatch. intros Hp.
  destruct (lp_pending lp) as [[id request]|]; [|left; injection Hp; auto].
  destruct (tk_dispatch t) as [|result|]; [left; injection Hp; auto| |done]. right.
  apply bind_Ok in Hp as (response & Hresp & Hp). cbv zeta in Hp.
  apply bind_Ok in Hp as (seq & Hseq & Hp).
  apply bind_Ok in Hp as ([[] b] & Hb%map_err_Ok%map_err_Ok & Hp).
  apply bind_Ok in Hp as (written & Hw & [= <-]).
  unfold write_bounded in Hw. do 3 (apply seq_Ok in Hw as [_ Hw]). injection Hw as <-.
  exists id, request, result, response.
  destruct (respond _ _) as [[[]|e] seq']; [|done]. injection Hseq as <-. by exists seq', b.
Qed.

(** What an iteration that goes on after a frame does. *)
Lemma handle_frame_done child deadline t lp lp' frame :
  handle_frame child deadline t lp frame = Ok lp' →
  ∃ u, observe (lp_sequence lp) frame = (Ok u, lp_sequence lp') ∧
    lp_history lp' = lp_history lp ++ [Observed frame] ∧ lp_written lp' = lp_written lp ∧
    lp_logs lp' = lp_logs lp ++ match frame with LogFrame _ text => [text] | _ => [] end ∧
    lp_dispatched lp' = lp_dispatched lp ++ option_list (frame_dispatch frame) ∧
    lp_waiting lp' =
      match frame with EffectRequestFrame _ _ _ => true | _ => lp_waiting lp end ∧
    match frame with FinishFrame _ _ _ => False | _ => True end.
Proof.
  unfold handle_frame. intros Hh. apply bind_Ok in Hh as (seq & Hseq & Hh).
  destruct (observe _ frame) as [[u|e] seq']; [|done]. injection Hseq as <-. exists u.
  cbv zeta in Hh. destruct frame as [version id request|version text|version output code].
  - apply seq_Ok in Hh as [_ Hh]. apply seq_Ok in Hh as [_ [= <-]]. simpl. by rewrite app_nil_r.
  - injection Hh as <-. simpl. by rewrite app_nil_r.
  - apply seq_Ok in Hh as [_ Hh]. unfold handle_finish in Hh.
    by repeat (apply bind_Ok in Hh as (? & _ & Hh)).
Qed.

End steps.

Section outcome.
Context `{FrameJson, EffectRequestJson, Base64}.
Variable start : ParentSequence.
Hypothesis Hstart : ps_pending start = None.

Record loop_ok (lp : Loop) : Prop := {
  lo_converse : converse start (lp_history lp) = Some (lp_sequence lp);
  lo_logs : lp_logs lp = log_texts (lp_history lp);
  lo_pending : ps_pending (lp_sequence lp) = fst <$> lp_pending lp;
  lo_waiting : lp_pending lp = None → lp_waiting lp = false;
  lo_request : ∀ id request, lp_pending lp = Some (id, request) →
    ∃ l version, lp_history lp = l ++ [Observed (EffectRequestFrame version id request)];
  lo_dispatched : lp_dispatched lp = omap frame_dispatch (frames_of (lp_history lp));
}.

Lemma loop_ok_start written : loop_ok (mkLoop start [] false [] written []).
Proof. by split. Qed.

(** What was written to the child after [start_bytes], and what it was told. *)
Record relayed (start_bytes : list byte) (ticks : list Tick) (lp : Loop) : Prop := {
  re_written : tx_for_each (λ response, write_frame response_to_vec response MESSAGE_FRAME_BYTES)
    (responses_of (lp_history lp)) start_bytes = Ok ((), lp_written lp);
  re_faithful : faithful ticks (lp_history lp);
}.

Lemma relayed_start start_bytes sequence :
  relayed start_bytes [] (mkLoop sequence [] false [] start_bytes []).
Proof. split; [done|]. intros l1 v id req resp l2 Heq. by destruct l1. Qed.

Lemma poll_dispatch_ok child deadline t lp lp' :
  loop_ok lp → poll_dispatch child deadline t lp = Ok lp' →
  loop_ok lp' ∧ frames_of (lp_history lp') = frames_of (lp_history lp).
Proof.
  intros Hlp [[-> _]|(id & request & result & response & seq & b & Hpend & _ & _ & Hr & _ & ->)]%poll_dispatch_done;
    [done|]. destruct Hlp.
  assert (frames_of (lp_history lp ++ [Responded (mkEffectResponseFrame PROTOCOL_VERSION
    "effect_response" id response)]) = frames_of (lp_history lp)) as Hf
    by (unfold frames_of; by rewrite omap_app, app_nil_r).
  split; [split|]; simpl; try done.
  - rewrite converse_app, lo_converse0. simpl. unfold exchange. by rewrite Hr.
  - rewrite lo_logs0. unfold log_texts. by rewrite omap_app, app_nil_r.
  - by apply respond_Ok in Hr as [_ ?].
  - by rewrite lo_dispatched0, Hf.
Qed.

Lemma poll_dispatch_relayed start_bytes child deadline t ticks lp lp' :
  loop_ok lp → relayed start_bytes ticks lp → poll_dispatch child deadline t lp = Ok lp' →
  relayed start_bytes (ticks ++ [t]) lp'.
Proof.
  intros Hlp [Hw Hf] [[-> _]|(id & request & result & response & seq & b & Hpend & Hd & Hresp & _ & Hb & ->)]%poll_dispatch_done.
  { split; [done|]. by apply faithful_more. }
  split; simpl.
  - unfold responses_of. rewrite omap_app. simpl.
    eapply tx_for_each_snoc; [exact Hw|]. by eapply write_frame_after.
  - destruct (lo_request _ Hlp _ _ Hpend) as (l & version & Hh). rewrite Hh in Hf |- *.
    eapply faithful_responded; [by apply faithful_more|done| |exact Hd|by apply response_of_answer_for].
    apply elem_of_app. right. by apply list_elem_of_singleton.
Qed.

(** [m] cannot be the success of the whole run. *)
Definition no_outcome {A} (m : Run A) : Prop := ∀ out, m ≠ Err (Some (Ok out)).

Lemma try_no_outcome {A} (r : result SupervisorError A) : no_outcome (try_ r).
Proof. by destruct r. Qed.

Lemma bind_outcome {A B} (m : Run A) (k : A → Run B) out :
  no_outcome m → m ≫= k = Err (Some (Ok out)) → ∃ a, m = Ok a ∧ k a = Err (Some (Ok out)).
Proof. intros Hm [Hf|Hf]%bind_Err; [by apply Hm in Hf|done]. Qed.

Lemma write_loop_no_outcome deadline ticks : no_outcome (write_loop deadline ticks).
Proof.
  induction ticks as [|t ticks IH]; intros out; simpl; [done|].
  destruct (check_lease _); simpl; [|done]. destruct (_ =? 0); simpl; [done|].
  destruct (wt_event t) as [[]| |]; done || apply IH.
Qed.

Lemma wait_loop_no_outcome child deadline ticks : no_outcome (wait_loop child deadline ticks).
Proof.
  induction ticks as [|t ticks IH]; intros out; simpl; [done|].
  destruct (deadline <=? wa_now t); simpl; [done|]. destruct child; simpl; [|done].
  destruct (wa_try_wait t) as [[|]|]; simpl; try done.
  destruct (deadline <=? wa_later t); simpl; [done|]. apply IH.
Qed.

Lemma wait_no_outcome child now deadline ticks : no_outcome (wait_bounded child now deadline ticks).
Proof.
  intros out Hw. unfold wait_bounded in Hw. apply bind_outcome in Hw as (? & _ & Hw);
    [by apply wait_loop_no_outcome in Hw|apply try_no_outcome].
Qed.

Lemma write_bounded_no_outcome child stdin frame_bytes spawned deadline ticks :
  no_outcome (write_bounded child stdin frame_bytes spawned deadline ticks).
Proof.
  intros o Ho. unfold write_bounded in Ho.
  apply bind_outcome in Ho as (? & _ & Ho); [|by destruct (rc_stdin child)].
  apply bind_outcome in Ho as (? & _ & Ho); [|by destruct spawned].
  apply bind_outcome in Ho as (? & _ & Ho); [done|apply write_loop_no_outcome].
Qed.

Lemma poll_no_outcome child deadline t lp : no_outcome (poll_dispatch child deadline t lp).
Proof.
  intros out Hp. unfold poll_dispatch in Hp. destruct (lp_pending lp) as [[id request]|]; [|done].
  destruct (tk_dispatch t) as [|result|]; [done| |done].
  apply bind_outcome in Hp as (r & _ & Hp).
  2: { intros o Ho. destruct result as [reply|[]]; simpl in Ho; try done.
       by destruct (valid_reply _ _). }
  cbv zeta in Hp. apply bind_outcome in Hp as (s & _ & Hp).
  2: { intros o Ho. by destruct (respond _ _) as [[] ?]. }
  apply bind_outcome in Hp as ([u b] & _ & Hp); [|apply try_no_outcome].
  apply bind_outcome in Hp as (written & _ & Hp); [done|apply write_bounded_no_outcome].
Qed.

(** The child was seen to exit in time. *)
Definition exited (status : ExitStatus) (deadline : Z) (t : Tick) : Prop :=
  ∃ w, w ∈ tk_wait t ∧ wa_try_wait w = Some (Some status) ∧ wa_now w < deadline.

Lemma wait_loop_exited child deadline ticks status :
  wait_loop child deadline ticks = Ok status →
  ∃ w, w ∈ ticks ∧ wa_try_wait w = Some (Some status) ∧ wa_now w < deadline.
Proof.
  induction ticks as [|t ticks IH]; simpl; [done|].
  destruct (deadline <=? wa_now t) eqn:Hd; simpl; [done|]. apply Z.leb_gt in Hd.
  destruct child; simpl; [|done].
  destruct (wa_try_wait t) as [[st|]|] eqn:Hw; simpl; [|destruct (_ <=? _); simpl; [done|]|done].
  - intros [= ->]. exists t. split; [set_solver|done].
  - intros (w & Hin & ?)%IH. exists w. split; [set_solver|done].
Qed.

Lemma wait_bounded_exited child now deadline ticks status :
  wait_bounded child now deadline ticks = Ok status →
  ∃ w, w ∈ ticks ∧ wa_try_wait w = Some (Some status) ∧ wa_now w < deadline.
Proof.
  intros Hw. unfold wait_bounded in Hw. apply bind_Ok in Hw as (cleanup & _ & Hw).
  apply wait_loop_exited in Hw as (w & ? & ? & ?). exists w. split_and!; try done. lia.
Qed.

(** The last iteration of a run that succeeds. *)
Record finished (deadline : Z) (t : Tick) (lp : Loop) (out : SupervisedOutcome) (version : Z)
    (output_b64 : option string) : Prop := {
  fi_frame : tick_frame t = Some (FinishFrame version output_b64 None);
  fi_exit : exited (Some 0) deadline t;
  fi_pending : lp_pending lp = None;
  fi_accepted : is_Some (exchange (lp_sequence lp) (Observed (FinishFrame version output_b64 None)));
  fi_output : match output_b64 with
              | None => so_output out = None
              | Some text => ∃ b, b64_decode text = Some b ∧ so_output out = Some b
              end;
  fi_logs : so_logs out = lp_logs lp;
}.

Lemma handle_finish_outcome {A} child deadline t lp output_b64 error_code out lp' :
  (handle_finish child deadline t lp output_b64 error_code : Run A) = Err (Some (Ok (out, lp'))) →
  lp' = lp ∧ error_code = None ∧ exited (Some 0) deadline t ∧ so_logs out = lp_logs lp ∧
  match output_b64 with
  | None => so_output out = None
  | Some text => ∃ b, b64_decode text = Some b ∧ so_output out = Some b
  end.
Proof.
  unfold handle_finish. intros Hf.
  apply bind_outcome in Hf as (status & Hw & Hf); [|apply wait_no_outcome].
  apply wait_bounded_exited in Hw.
  unfold success in Hf. case_bool_decide as Hst; [|done]. subst. simpl in Hf.
  destruct error_code as [code|]; [done|]. simpl in Hf.
  destruct output_b64 as [text|]; simpl in Hf.
  - destruct (b64_decode text) as [b|]; simpl in Hf; [|done].
    apply bind_outcome in Hf as (c & _ & Hf); [|apply try_no_outcome]. injection Hf as <- <-.
    split_and!; try done. by exists b.
  - apply bind_outcome in Hf as (c & _ & Hf); [|apply try_no_outcome]. by injection Hf as <- <-.
Qed.

Lemma handle_frame_ok child deadline t lp lp' frame :
  loop_ok lp → handle_frame child deadline t lp frame = Ok lp' →
  loop_ok lp' ∧ frames_of (lp_history lp') = frames_of (lp_history lp) ++ [frame].
Proof.
  intros Hlp (u & Ho & Hhist & _ & Hlogs & Hdisp & Hwait & Hnf)%handle_frame_done.
  assert (frames_of (lp_history lp') = frames_of (lp_history lp) ++ [frame]) as Hframes
    by (rewrite Hhist; unfold frames_of; by rewrite omap_app).
  split; [|done]. pose proof (observe_Ok _ _ _ _ Ho) as [Hnone Hpend].
  rewrite (lo_pending lp Hlp) in Hnone. apply fmap_None in Hnone.
  apply (lo_waiting lp Hlp) in Hnone.
  assert (lp_pending lp' = frame_dispatch frame) as Hp.
  { unfold lp_pending. rewrite Hwait, Hdisp.
    destruct frame; simpl; [by rewrite last_snoc|by rewrite Hnone|done]. }
  split.
  - rewrite Hhist, converse_app, (lo_converse lp Hlp). simpl. unfold exchange. by rewrite Ho.
  - rewrite Hlogs, Hhist, (lo_logs lp Hlp). unfold log_texts. rewrite omap_app. by destruct frame.
  - rewrite Hpend, Hp. by destruct frame.
  - rewrite Hp, Hwait. by destruct frame.
  - rewrite Hp, Hhist. intros id request Hf. destruct frame; simplify_eq/=. eauto.
  - rewrite Hdisp, Hframes, omap_app, (lo_dispatched lp Hlp). by destruct frame.
Qed.

Lemma handle_frame_relayed start_bytes child deadline t ticks lp lp' frame :
  relayed start_bytes ticks lp → handle_frame child deadline t lp frame = Ok lp' →
  relayed start_bytes ticks lp'.
Proof.
  intros [Hw Hf] (u & _ & Hhist & Hwritten & _)%handle_frame_done. split.
  - rewrite Hhist, Hwritten. unfold responses_of. rewrite omap_app. simpl. by rewrite app_nil_r.
  - rewrite Hhist. by apply faithful_observed.
Qed.

Lemma handle_frame_outcome child deadline t lp frame out lp' :
  loop_ok lp → tick_frame t = Some frame →
  handle_frame child deadline t lp frame = Err (Some (Ok (out, lp'))) →
  lp' = lp ∧ ∃ version output_b64, finished deadline t lp out version output_b64.
Proof.
  intros Hlp Ht Hh. unfold handle_frame in Hh.
  apply bind_outcome in Hh as (seq & Hseq & Hh).
  2: { intros o Ho. by destruct (observe _ _) as [[] ?]. }
  cbv zeta in Hh. destruct (observe (lp_sequence lp) frame) as [[u|e] seq'] eqn:Ho; [|done].
  destruct frame as [version id request|version text|version output code].
  - destruct (lp_waiting lp); [done|]. by destruct (tk_spawned t).
  - done.
  - destruct (lp_waiting lp) eqn:Hp; [done|]. simpl in Hh.
    apply handle_finish_outcome in Hh as (-> & -> & Hex & Hl & Hout).
    split; [done|]. exists version, output. split; try done.
    + unfold lp_pending. by rewrite Hp.
    + unfold exchange. by rewrite Ho.
Qed.

(** Every iteration that runs to its end read its messages in order, with the
    lease current and before the deadline. *)
Lemma iteration_current child deadline t lp r :
  iteration child deadline t lp = r → (∃ lp', r = Ok lp') ∨ (∃ out, r = Err (Some (Ok out))) →
  tk_lease t = LeaseCurrent ∧ tk_now t < deadline.
Proof.
  intros <- Hr. unfold iteration in Hr. destruct (tk_lease t); simpl in Hr; [|naive_solver..].
  destruct (deadline <=? tk_now t) eqn:Hd; simpl in Hr; [naive_solver|]. split; [done|].
  by apply Z.leb_gt.
Qed.

Lemma iteration_ok start_bytes ticks child deadline t lp lp' :
  loop_ok lp → relayed start_bytes ticks lp → iteration child deadline t lp = Ok lp' →
  loop_ok lp' ∧ relayed start_bytes (ticks ++ [t]) lp' ∧
  frames_of (lp_history lp') = frames_of (lp_history lp) ++ option_list (tick_frame t).
Proof.
  intros Hlp Hrel Hi. unfold iteration in Hi. apply seq_Ok in Hi as [_ Hi].
  apply seq_Ok in Hi as [_ Hi]. apply bind_Ok in Hi as (lp1 & Hp & Hi).
  pose proof (poll_dispatch_relayed _ _ _ _ _ _ _ Hlp Hrel Hp) as Hrel1.
  apply poll_dispatch_ok in Hp as [Hlp1 Hf]; [|done]. unfold tick_frame.
  destruct (tk_frame t) as [[frame|e]| |]; [| |injection Hi as <-|].
  - pose proof (handle_frame_relayed _ _ _ _ _ _ _ _ Hrel1 Hi).
    apply handle_frame_ok in Hi as [? ->]; [|done]. by rewrite Hf.
  - done.
  - simpl. by rewrite app_nil_r.
  - by apply bind_Ok in Hi as (st & _ & Hi).
Qed.

Lemma iteration_outcome start_bytes ticks child deadline t lp out lp1 :
  loop_ok lp → relayed start_bytes ticks lp →
  iteration child deadline t lp = Err (Some (Ok (out, lp1))) →
  loop_ok lp1 ∧ relayed start_bytes (ticks ++ [t]) lp1 ∧
  frames_of (lp_history lp1) = frames_of (lp_history lp) ∧
  ∃ version output_b64, finished deadline t lp1 out version output_b64.
Proof.
  intros Hlp Hrel Hi. unfold iteration in Hi.
  apply bind_outcome in Hi as (u & _ & Hi); [|apply try_no_outcome].
  apply bind_outcome in Hi as (u' & _ & Hi); [|by destruct (_ <=? _)].
  apply bind_outcome in Hi as (lp2 & Hp & Hi); [|apply poll_no_outcome].
  pose proof (poll_dispatch_relayed _ _ _ _ _ _ _ Hlp Hrel Hp) as Hrel1.
  apply poll_dispatch_ok in Hp as [Hlp1 Hf]; [|done].
  destruct (tk_frame t) as [[frame|e]| |] eqn:Ht; [|done..|].
  - apply handle_frame_outcome in Hi as (-> & version & output & Hfin); [|done|].
    + eauto 6.
    + unfold tick_frame. by rewrite Ht.
  - by apply bind_outcome in Hi as (st & _ & Hi); [|apply wait_no_outcome].
Qed.

Lemma run_loop_outcome start_bytes before child deadline ticks lp out lp' :
  loop_ok lp → relayed start_bytes before lp →
  run_loop child deadline ticks lp = Some (Ok (out, lp')) →
  ∃ used t rest version output_b64, ticks = used ++ t :: rest ∧ loop_ok lp' ∧
    relayed start_bytes (before ++ used ++ [t]) lp' ∧
    finished deadline t lp' out version output_b64 ∧
    frames_of (lp_history lp') = frames_of (lp_history lp) ++ omap tick_frame used ∧
    Forall (λ t, tk_lease t = LeaseCurrent ∧ tk_now t < deadline) (used ++ [t]).
Proof.
  revert before lp. induction ticks as [|t ticks IH]; intros before lp Hlp Hrel Hrun;
    simpl in Hrun; [done|].
  destruct (iteration child deadline t lp) as [lp1|returned] eqn:Hi.
  - pose proof (iteration_current _ _ _ _ _ Hi (or_introl (ex_intro _ _ eq_refl))) as Hcur.
    pose proof (iteration_ok _ _ _ _ _ _ _ Hlp Hrel Hi) as (Hlp1 & Hrel1 & Hf).
    destruct (IH _ _ Hlp1 Hrel1 Hrun)
      as (used & t' & rest & version & output & -> & H2 & H3 & H4 & H5 & H6).
    exists (t :: used), t', rest, version, output. split_and!; try done.
    + by rewrite <-(assoc_L (++)) in H3.
    + rewrite H5, Hf, <- (assoc_L (++)). simpl. by destruct (tick_frame t).
    + simpl. by constructor.
  - subst returned.
    pose proof (iteration_current _ _ _ _ _ Hi (or_intror (ex_intro _ _ eq_refl))) as Hcur.
    destruct (iteration_outcome _ _ _ _ _ _ _ _ Hlp Hrel Hi)
      as (Hl1 & Hl2 & Hl3 & version & output & Hfin).
    exists [], t, ticks, version, output. simpl. rewrite app_nil_r. split_and!; try done.
    by constructor.
Qed.
End outcome.

(** ** Every wait is bounded

    A wait that times out takes as long as it was asked to; instants never go
    back. *)

(** How many polls [poll] apart fit before the deadline. *)
Definition polls (deadline poll now : Z) : Z := (Z.max 0 (deadline - now) + poll - 1) / poll.

Lemma polls_nonneg deadline poll now : 0 < poll → 0 ≤ polls deadline poll now.
Proof. intros Hp. apply Z.div_pos; lia. Qed.

Lemma polls_step deadline poll now now' :
  0 < poll → now < deadline → Z.min deadline (now + poll) ≤ now' →
  polls deadline poll now' + 1 ≤ polls deadline poll now.
Proof.
  intros Hp Hn Hn'. unfold polls. destruct (decide (now + poll ≤ deadline)).
  - rewrite <- Z.div_add by lia. rewrite Z.mul_1_l. apply Z.div_le_mono; lia.
  - rewrite (Z.max_l 0 (deadline - now')) by lia. rewrite Z.div_small by lia.
    apply Z.div_le_lower_bound; lia.
Qed.

Lemma polls_mono deadline poll now now' :
  0 < poll → now ≤ now' → polls deadline poll now' ≤ polls deadline poll now.
Proof. intros Hp Hn. unfold polls. apply Z.div_le_mono; lia. Qed.

Fixpoint write_clocked (deadline now : Z) (ticks : list WriteTick) : Prop :=
  match ticks with
  | [] => True
  | t :: ticks =>
    now ≤ wt_now t ∧ write_clocked deadline (Z.min deadline (wt_now t + LEASE_POLL)) ticks
  end.
Fixpoint wait_clocked (deadline now : Z) (ticks : list WaitTick) : Prop :=
  match ticks with
  | [] => True
  | t :: ticks =>
    now ≤ wa_now t ≤ wa_later t ∧
    wait_clocked deadline (Z.min deadline (wa_later t + EXIT_POLL)) ticks
  end.

(** The ticks of a nested wait go on for as long as it can last. *)
Definition write_long (deadline now : Z) (ticks : list WriteTick) : Prop :=
  write_clocked deadline now ticks ∧ polls deadline LEASE_POLL now < Z.of_nat (length ticks).
Definition wait_long (deadline : Z) (t : Tick) : Prop :=
  let limit := Z.min deadline (tk_wait_now t + CLEANUP_WAIT) in
  wait_clocked limit (tk_wait_now t) (tk_wait t) ∧
  polls limit EXIT_POLL (tk_wait_now t) < Z.of_nat (length (tk_wait t)).

Fixpoint run_clocked (deadline now : Z) (ticks : list Tick) : Prop :=
  match ticks with
  | [] => True
  | t :: ticks =>
    now ≤ tk_now t ≤ tk_later t ∧ write_long deadline (tk_now t) (tk_write t) ∧ wait_long deadline t ∧
    run_clocked deadline
      (match tk_frame t with
       | FrameTimeout => tk_later t + frame_wait deadline t
       | _ => tk_later t
       end) ticks
  end.

Definition ends {A} (m : Run A) : Prop := m ≠ waiting.

Lemma ends_bind {A B} (m : Run A) (k : A → Run B) :
  ends m → (∀ a, m = Ok a → ends (k a)) → ends (m ≫= k).
Proof. intros Hm Hk. destruct m as [a|e]; [by apply Hk|]. intros [= ->]. by apply Hm. Qed.

Lemma try_ends {A} (r : result SupervisorError A) : ends (try_ r).
Proof. by destruct r. Qed.

Lemma write_loop_ends deadline now ticks : write_long deadline now ticks → ends (write_loop deadline ticks).
Proof.
  unfold write_long. revert now. induction ticks as [|t ticks IH]; intros now [Hc Hl].
  { pose proof (polls_nonneg deadline LEASE_POLL now ltac:(done)). simpl in Hl. lia. }
  destruct Hc as [Hn Hc]. simpl. apply ends_bind; [apply try_ends|]. intros _ _.
  destruct (_ =? 0) eqn:Hd; simpl; [done|]. apply Z.eqb_neq in Hd.
  destruct (wt_event t) as [[]| |]; try done.
  eapply IH. split; [exact Hc|].
  unfold saturating_duration_since in Hd. simpl length in Hl.
  pose proof (polls_step deadline LEASE_POLL (wt_now t) _ ltac:(done) ltac:(lia)
    (Z.le_refl (Z.min deadline (wt_now t + LEASE_POLL)))) as H1.
  pose proof (polls_mono deadline LEASE_POLL now (wt_now t) ltac:(done) Hn) as H2. lia.
Qed.

Lemma write_bounded_ends child stdin frame_bytes spawned deadline now ticks :
  write_long deadline now ticks →
  ends (write_bounded child stdin frame_bytes spawned deadline ticks).
Proof.
  intros Hl. apply ends_bind; [by destruct (rc_stdin child)|]. intros _ _.
  apply ends_bind; [by destruct spawned|]. intros _ _.
  apply ends_bind; [by eapply write_loop_ends|done].
Qed.

Lemma wait_loop_ends child deadline now ticks :
  wait_clocked deadline now ticks → polls deadline EXIT_POLL now < Z.of_nat (length ticks) →
  ends (wait_loop child deadline ticks).
Proof.
  revert now. induction ticks as [|t ticks IH]; intros now Hc Hl.
  { pose proof (polls_nonneg deadline EXIT_POLL now ltac:(done)). simpl in Hl. lia. }
  destruct Hc as [Hn Hc]. simpl. destruct (deadline <=? wa_now t); [done|]. simpl.
  destruct child; [|done]. simpl.
  destruct (wa_try_wait t) as [[st|]|]; [done| |done].
  destruct (deadline <=? wa_later t) eqn:Hd; simpl; [done|]. apply Z.leb_gt in Hd.
  apply (IH _ Hc). simpl length in Hl.
  pose proof (polls_step deadline EXIT_POLL (wa_later t) _ ltac:(done) Hd
    (Z.le_refl (Z.min deadline (wa_later t + EXIT_POLL)))) as H1.
  pose proof (polls_mono deadline EXIT_POLL now (wa_later t) ltac:(done) ltac:(lia)) as H2. lia.
Qed.

Lemma wait_bounded_ends child deadline t :
  wait_long deadline t → ends (wait_bounded child (tk_wait_now t) deadline (tk_wait t)).
Proof.
  intros [Hc Hl]. apply ends_bind; [apply try_ends|]. intros cleanup Hcl.
  apply map_err_Ok, ok_or_Ok, checked_Some in Hcl as [_ ->]. by eapply wait_loop_ends.
Qed.

(** ** The loop ends *)

Lemma frame_step_seen self f u self' :
  0 ≤ ps_messages self ≤ 128 → observe self f = (Ok u, self') →
  ps_messages self' = ps_messages self + 1 ∧ ps_messages self' ≤ 128.
Proof.
  intros Hm. unfold observe. cbv zeta. cbn [ps_finished ps_messages ps_pending ps_next_id ps_log_cap ps_log_bytes].
  rewrite saturating_small by (unfold u32_max; lia).
  destruct (ps_finished self || (128 <? ps_messages self + 1)) eqn:Hd; [done|].
  apply orb_false_iff in Hd as [_ Hd%Z.ltb_ge].
  destruct f.
  - destruct (_ && _); [|done]. destruct (checked_u64 _); [|done]. intros [= _ <-]. done.
  - destruct (_ && _); [|done]. intros [= _ <-]. done.
  - destruct (bool_decide _); [|done]. intros [= _ <-]. done.
Qed.

Lemma respond_seen self r : ps_messages (respond self r).2 = ps_messages self.
Proof.
  unfold respond. destruct (EffectResponseFrame_check r); [|done]. by destruct (negb _).
Qed.

Section ending.
Context `{FrameJson, EffectRequestJson, Base64}.

Definition seen (lp : Loop) : Z := ps_messages (lp_sequence lp).

Lemma poll_dispatch_ends child deadline t lp :
  write_long deadline (tk_now t) (tk_write t) → ends (poll_dispatch child deadline t lp).
Proof.
  intros Hw. unfold poll_dispatch. destruct (lp_pending lp) as [[id request]|]; [|done].
  destruct (tk_dispatch t) as [|result|]; [done| |done].
  apply ends_bind.
  { destruct result as [reply|[]]; try done. simpl. by destruct (valid_reply _ _). }
  intros response _. cbv zeta. apply ends_bind; [by destruct (respond _ _) as [[] ?]|].
  intros seq _. apply ends_bind; [apply try_ends|]. intros [u b] _.
  apply ends_bind; [by eapply write_bounded_ends|done].
Qed.

Lemma poll_dispatch_seen child deadline t lp lp' :
  poll_dispatch child deadline t lp = Ok lp' → seen lp' = seen lp.
Proof.
  intros [[-> _]|(id & request & result & response & seq & b & _ & _ & _ & Hr & _ & ->)]%poll_dispatch_done;
    [done|]. unfold seen. apply (f_equal (ps_messages ∘ snd)) in Hr. simpl in *.
  by rewrite <-Hr, respond_seen.
Qed.

Lemma handle_frame_ends child deadline t lp frame :
  wait_long deadline t → ends (handle_frame child deadline t lp frame).
Proof.
  intros Hw. unfold handle_frame. apply ends_bind; [by destruct (observe _ _) as [[] ?]|].
  intros seq _. cbv zeta. destruct frame as [version id request|version text|version output code].
  - destruct (lp_waiting lp); [done|]. by destruct (tk_spawned t).
  - done.
  - destruct (lp_waiting lp); [done|]. simpl. unfold handle_finish.
    apply ends_bind; [by apply wait_bounded_ends|]. intros st _.
    destruct (success st); [|done]. simpl. destruct code; [done|]. simpl.
    apply ends_bind.
    { destruct output; simpl; [|done]. by destruct (b64_decode _). }
    intros o _. apply ends_bind; [apply try_ends|done].
Qed.

Lemma handle_frame_seen child deadline t lp lp' frame :
  0 ≤ seen lp ≤ 128 → handle_frame child deadline t lp frame = Ok lp' →
  seen lp' = seen lp + 1 ∧ seen lp' ≤ 128.
Proof.
  intros Hs (u & Ho & _)%handle_frame_done. by apply frame_step_seen in Ho.
Qed.

Lemma iteration_ends child deadline t lp :
  write_long deadline (tk_now t) (tk_write t) → wait_long deadline t →
  ends (iteration child deadline t lp).
Proof.
  intros Hw Hwait. unfold iteration. apply ends_bind; [apply try_ends|]. intros _ _.
  apply ends_bind; [by destruct (_ <=? _)|]. intros _ _.
  apply ends_bind; [by apply poll_dispatch_ends|]. intros lp1 _.
  destruct (tk_frame t) as [[frame|e]| |]; [by apply handle_frame_ends|done|done|].
  apply ends_bind; [by apply wait_bounded_ends|done].
Qed.

(** An iteration that goes on has observed a frame, or waited. *)
Lemma iteration_progress child deadline t lp lp' :
  0 ≤ seen lp ≤ 128 → iteration child deadline t lp = Ok lp' →
  tk_now t < deadline ∧
  match tk_frame t with
  | FrameTimeout => seen lp' = seen lp
  | _ => seen lp' = seen lp + 1 ∧ seen lp' ≤ 128
  end.
Proof.
  intros Hs Hi. split.
  { by eapply iteration_current; [|left; eexists]. }
  unfold iteration in Hi. apply seq_Ok in Hi as [_ Hi]. apply seq_Ok in Hi as [_ Hi].
  apply bind_Ok in Hi as (lp1 & Hp & Hi). apply poll_dispatch_seen in Hp.
  destruct (tk_frame t) as [[frame|e]| |].
  - rewrite <- Hp in *. by apply handle_frame_seen in Hi.
  - done.
  - by injection Hi as <-.
  - by apply bind_Ok in Hi as (st & _ & Hi).
Qed.

Lemma run_loop_ends child deadline now ticks lp :
  0 ≤ seen lp ≤ 128 → run_clocked deadline now ticks →
  128 - seen lp + polls deadline LEASE_POLL now < Z.of_nat (length ticks) →
  is_Some (run_loop child deadline ticks lp).
Proof.
  revert now lp. induction ticks as [|t ticks IH]; intros now lp Hs Hc Hl; simpl length in Hl.
  { pose proof (polls_nonneg deadline LEASE_POLL now ltac:(done)). lia. }
  simpl in *. destruct Hc as (Hn & Hw & Hwait & Hc).
  pose proof (iteration_ends child deadline t lp Hw Hwait) as Hends.
  destruct (iteration child deadline t lp) as [lp'|[r|]] eqn:Hi; [|by eexists|done].
  apply iteration_progress in Hi as [Hnow Hprog]; [|done].
  pose proof (polls_mono deadline LEASE_POLL now (tk_now t) ltac:(done) ltac:(lia)).
  pose proof (polls_mono deadline LEASE_POLL (tk_now t) (tk_later t) ltac:(done) ltac:(lia)).
  destruct (tk_frame t); [eapply IH; [|exact Hc|]; lia| |eapply IH; [|exact Hc|]; lia].
  eapply IH; [lia|exact Hc|].
  assert (Z.min deadline (tk_now t + LEASE_POLL) ≤ tk_later t + frame_wait deadline t).
  { unfold frame_wait, saturating_duration_since. lia. }
  pose proof (polls_step deadline LEASE_POLL (tk_now t) (tk_later t + frame_wait deadline t)
    ltac:(done) ltac:(done) ltac:(done)). lia.
Qed.
End ending.

Lemma talk_finish_answered cap id used l version output code :
  talk cap id used (l ++ [Observed (FinishFrame version output code)]) → answered l = asked l.
Proof.
  remember (l ++ [Observed (FinishFrame version output code)]) as l' eqn:Hl. intros Ht. revert l Hl.
  induction Ht as [|id used v text l' Hfit Ht IH|id used v request|id used v request r l' Hc Hid Ht IH|];
    intros l Hl.
  - by destruct l.
  - destruct l as [|m l]; [done|]. simplify_eq/=. by apply IH.
  - destruct l as [|m [|]]; simplify_eq/=.
  - destruct l as [|m [|m' l]]; simplify_eq/=. f_equal. by apply IH.
  - destruct l as [|m [|]]; simplify_eq/=. done.
Qed.

Section preparing.
Context `{FrameJson, EffectRequestJson, Base64}.

Lemma prepare_no_outcome self module input limits launch :
  no_outcome (prepare self module input limits launch).
Proof.
  intros o Ho. unfold prepare in Ho. cbv zeta in Ho.
  do 4 (apply bind_outcome in Ho as (? & _ & Ho);
    [|first [apply try_no_outcome|by destruct (la_spawned launch)]]).
  apply bind_outcome in Ho as ([u b] & _ & Ho); [|apply try_no_outcome].
  do 3 (apply bind_outcome in Ho as (? & _ & Ho);
    [|first [apply try_no_outcome|apply write_bounded_no_outcome|by destruct (la_reader launch)]]).
  done.
Qed.

(** The start frame of a run that begins is one the child will accept, and the
    first bytes written to it. *)
Lemma prepare_Ok self module input limits launch deadline lp :
  prepare self module input limits launch = Ok (deadline, lp) →
  deadline = la_started launch + from_millis (wall_ms limits) + SUPERVISION_ALLOWANCE ∧
  (∃ start_bytes,
     write_frame start_to_vec (start_frame module input limits) START_FRAME_BYTES [] =
       Ok ((), start_bytes) ∧
     lp = mkLoop (listening (cap_log_bytes (abi_caps self)) 1 0 0) [] false [] start_bytes []) ∧
  cap_log_bytes (abi_caps self) ≤ LOG_BYTES ∧
  Limits_validate limits (operator_caps self) = Ok limits ∧
  StartFrame_check (start_frame module input limits) = Ok ().
Proof.
  unfold prepare. cbv zeta. intros Hp.
  apply bind_Ok in Hp as (limits' & Hlim & Hp). apply map_err_Ok, map_err_Ok in Hlim.
  assert (limits' = limits) as -> by (unfold Limits_validate in Hlim; by inv_ok).
  apply bind_Ok in Hp as (dl & Hdl & Hp). apply map_err_Ok, ok_or_Ok in Hdl.
  apply bind_Some in Hdl as (at1 & [_ ->]%checked_Some & [_ ->]%checked_Some).
  apply bind_Ok in Hp as (_ & _ & Hp).
  apply bind_Ok in Hp as ([] & Hc%map_err_Ok%map_err_Ok & Hp).
  apply bind_Ok in Hp as ([[] b] & Hb%map_err_Ok%map_err_Ok & Hp).
  apply bind_Ok in Hp as (written & Hw & Hp).
  unfold write_bounded in Hw. do 3 (apply seq_Ok in Hw as [_ Hw]). injection Hw as <-.
  apply bind_Ok in Hp as (? & _ & Hp).
  apply bind_Ok in Hp as (seq & Hseq & Hp). apply map_err_Ok, map_err_Ok in Hseq.
  injection Hp as <- <-. unfold with_log_cap in Hseq. inv_ok. bools. split_and!; try done. eauto.
Qed.

(** A run that succeeds ends with an accepted finish, in an iteration that was
    on time under a current lease, as all before it. *)
Lemma supervise_outcome self module input limits launch ticks out lp :
  supervise self module input limits launch ticks = Some (Ok (out, lp)) →
  let start := listening (cap_log_bytes (abi_caps self)) 1 0 0 in
  let deadline := la_started launch + from_millis (wall_ms limits) + SUPERVISION_ALLOWANCE in
  ∃ start_bytes used t rest version output_b64, ticks = used ++ t :: rest ∧ loop_ok start lp ∧
    write_frame start_to_vec (start_frame module input limits) START_FRAME_BYTES [] =
      Ok ((), start_bytes) ∧
    relayed start_bytes (used ++ [t]) lp ∧ finished deadline t lp out version output_b64 ∧
    frames_of (lp_history lp) = omap tick_frame used ∧
    Forall (λ t, tk_lease t = LeaseCurrent ∧ tk_now t < deadline) (used ++ [t]) ∧
    cap_log_bytes (abi_caps self) ≤ LOG_BYTES.
Proof.
  intros Hrun start deadline. unfold supervise in Hrun.
  destruct (prepare self module input limits launch) as [[deadline' lp0]|returned] eqn:Hl.
  2: { subst. by apply prepare_no_outcome in Hl. }
  apply prepare_Ok in Hl as (-> & (start_bytes & Hb & ->) & Hcap' & _).
  destruct (run_loop_outcome start eq_refl start_bytes [] _ _ _ _ _ _
    (loop_ok_start start eq_refl start_bytes) (relayed_start start_bytes start) Hrun)
    as (used & t & rest & version & output & -> & Hlp' & Hrel & Hfin & Hframes & Hall).
  by exists start_bytes, used, t, rest, version, output.
Qed.

Lemma run_supervise self module input limits launch ticks out :
  run self module input limits launch ticks = Some (Ok out) ↔
  ∃ lp, supervise self module input limits launch ticks = Some (Ok (out, lp)).
Proof.
  unfold run. destruct (supervise _ _ _ _ _ _) as [[[out' lp]|e]|]; split; naive_solver.
Qed.
End preparing.

Lemma prepare_ends `{FrameJson, EffectRequestJson, Base64} self module input limits launch :
  write_long (la_started launch + from_millis (wall_ms limits) + SUPERVISION_ALLOWANCE)
    (la_started launch) (la_write launch) →
  ends (prepare self module input limits launch).
Proof.
  intros Hw. unfold prepare. cbv zeta. apply ends_bind; [apply try_ends|]. intros limits' Hlim.
  apply map_err_Ok, map_err_Ok in Hlim. unfold Limits_validate in Hlim. inv_ok.
  apply ends_bind; [apply try_ends|]. intros dl Hdl. apply map_err_Ok, ok_or_Ok in Hdl.
  apply bind_Some in Hdl as (at1 & [_ ->]%checked_Some & [_ ->]%checked_Some).
  apply ends_bind; [by destruct (la_spawned launch)|]. intros _ _.
  apply ends_bind; [apply try_ends|]. intros _ _.
  apply ends_bind; [apply try_ends|]. intros [u b] _.
  apply ends_bind; [by eapply write_bounded_ends|]. intros written _.
  apply ends_bind; [by destruct (la_reader launch)|]. intros _ _.
  by apply ends_bind; [apply try_ends|].
Qed.

Module SupervisionDemo.
Import Reference JsonReference.

Definition supervisor : Supervisor := mkSupervisor Limits_default (mkAbiCaps 64 16384).
Definition request : EffectRequest :=
  mkEffectRequest 0 "ticket.create" "desk" (mkTicketArguments "ops" "t" "").
Definition reply : EffectReply := mkEffectReply 0 COMMITTED (mkTicketResponse "T1" "ops") false.
Definition write_now : list WriteTick := [mkWriteTick LeaseCurrent 10 (WriteDone true)].
Definition writes_from (i : nat) : list WriteTick :=
  (λ j : nat, mkWriteTick LeaseCurrent (from_millis (20 * Z.of_nat (i + j))) WriteTimeout)
    <$> seq 0 130.
Definition launch : Launch := mkLaunch 0 true true
  (mkWriteTick LeaseCurrent 0 (WriteDone true) :: writes_from 1) true.
Definition tick (event : DispatchEvent) (frame : FrameEvent) : Tick :=
  mkTick LeaseCurrent 20 event true write_now 30 frame true 40
    [mkWaitTick 50 (Some (Some (Some 0))) 60] true.
Definition ticks : list Tick := [
  tick DispatchEmpty (FrameRead (Ok (EffectRequestFrame 1 1 request)));
  tick (DispatchDone (Ok reply)) FrameTimeout;
  tick DispatchEmpty (FrameRead (Ok (LogFrame 1 "hi")));
  tick DispatchEmpty (FrameRead (Ok (FinishFrame 1 None None)))].

Lemma succeeds :
  run supervisor [x00] [x07] Limits_default launch ticks =
  Some (Ok (mkSupervisedOutcome None ["hi"%string])).
Proof. vm_compute. reflexivity. Qed.

(** A child that says nothing. *)
Definition silent_tick (i : nat) : Tick :=
  mkTick LeaseCurrent (from_millis (20 * Z.of_nat i)) DispatchEmpty true (writes_from i)
    (from_millis (20 * Z.of_nat i)) FrameTimeout true (from_millis (20 * Z.of_nat i))
    ((λ j : nat, mkWaitTick (from_millis (20 * Z.of_nat (i + j))) None
        (from_millis (20 * Z.of_nat (i + j)))) <$> seq 0 60) true.
Definition silent : list Tick := silent_tick <$> seq 0 260.

Definition deadline : Z := 2500000000.

Lemma writes_clocked i j n now :
  now ≤ from_millis (20 * Z.of_nat (i + j)) →
  write_clocked deadline now
    ((λ j : nat, mkWriteTick LeaseCurrent (from_millis (20 * Z.of_nat (i + j))) WriteTimeout)
      <$> seq j n).
Proof.
  revert j now. induction n as [|n IH]; intros j now Hn; simpl; [done|]. split; [done|].
  apply IH. unfold from_millis, LEASE_POLL, from_millis. lia.
Qed.

Lemma polls_start i : polls deadline LEASE_POLL (from_millis (20 * Z.of_nat i)) < 130.
Proof.
  eapply Z.le_lt_trans; [apply (polls_mono _ _ 0); [done|unfold from_millis; lia]|done].
Qed.

Lemma launch_long : write_long deadline 0 (la_write launch).
Proof. split; [|done]. split; [done|]. by apply (writes_clocked 1 0). Qed.

Lemma waits_clocked limit i j n now :
  now ≤ from_millis (20 * Z.of_nat (i + j)) →
  wait_clocked limit now
    ((λ j : nat, mkWaitTick (from_millis (20 * Z.of_nat (i + j))) None
        (from_millis (20 * Z.of_nat (i + j)))) <$> seq j n).
Proof.
  revert j now. induction n as [|n IH]; intros j now Hn; simpl; [done|]. split; [lia|].
  apply IH. unfold from_millis, EXIT_POLL, from_millis. lia.
Qed.

Lemma silent_tick_long i : wait_long deadline (silent_tick i).
Proof.
  split; [apply waits_clocked; simpl tk_wait_now; unfold from_millis; lia|].
  apply (Z.lt_le_trans _ 60); [|done]. unfold polls. simpl tk_wait_now.
  apply Z.div_lt_upper_bound; [done|]. unfold EXIT_POLL, CLEANUP_WAIT, from_millis. lia.
Qed.

Lemma silent_clocked : run_clocked deadline 0 silent.
Proof.
  unfold silent. generalize 260%nat. assert (∀ n i now, now ≤ from_millis (20 * Z.of_nat i) →
    run_clocked deadline now (silent_tick <$> seq i n)) as Hall.
  { induction n as [|n IH]; intros i now Hn; cbn [seq fmap list_fmap run_clocked]; [done|].
    split; [simpl; lia|]. split.
    { split; [apply writes_clocked; simpl; unfold from_millis; lia|]. apply polls_start. }
    split; [apply silent_tick_long|]. apply IH. simpl. unfold frame_wait.
    simpl. unfold LEASE_POLL, from_millis. lia. }
  intros n. by apply Hall.
Qed.
End SupervisionDemo.

(** ** Properties *)

(** C12: a successful run was one accepted conversation.  When [run]
    succeeds, the lease was current and the deadline ahead at every iteration.
    What it read, what it wrote and what it asked its broker are one history that
    [ParentSequence] accepts, ending in a finish without an error: its frames are
    the frames read, in order; its responses, behind the start frame, are the bytes
    written to the child, all of them; its requests are those handed to
    [dispatch_if_current], all of them, in order.  Every request was answered, and
    each answer is what the broker returned in one of the iterations: a reply with
    the request's ordinal and project and a ticket, or the code of a failure.  The
    child exited with status 0 in time, and the outcome is the logged messages and
    the decoded output of that finish. *)
Theorem supervised_outcome `{FrameJson, EffectRequestJson, Base64} self module input limits launch
    ticks out :
  0 ≤ cap_log_bytes (abi_caps self) →
  run self module input limits launch ticks = Some (Ok out) →
  ∃ lp used t rest history version output_b64,
    supervise self module input limits launch ticks = Some (Ok (out, lp)) ∧
    let deadline := la_started launch + from_millis (wall_ms limits) + SUPERVISION_ALLOWANCE in
    let finish := FinishFrame version output_b64 None in
    ticks = used ++ t :: rest ∧
    Forall (λ t, tk_lease t = LeaseCurrent ∧ tk_now t < deadline) (used ++ [t]) ∧
    is_Some (converse (listening (cap_log_bytes (abi_caps self)) 1 0 0)
      (history ++ [Observed finish])) ∧
    frames_of history = omap tick_frame used ∧ tick_frame t = Some finish ∧
    (∃ start_bytes,
       write_frame start_to_vec (start_frame module input limits) START_FRAME_BYTES [] =
         Ok ((), start_bytes) ∧
       tx_for_each (λ response, write_frame response_to_vec response MESSAGE_FRAME_BYTES)
         (responses_of history) start_bytes = Ok ((), lp_written lp)) ∧
    lp_dispatched lp = omap frame_dispatch (frames_of history) ∧
    answered history = asked history ∧ faithful (used ++ [t]) history ∧
    exited (Some 0) deadline t ∧ so_logs out = log_texts history ∧
    match output_b64 with
    | None => so_output out = None
    | Some text => ∃ b, b64_decode text = Some b ∧ so_output out = Some b
    end.
Proof.
  intros Hcap [lp Hrun]%run_supervise. pose proof Hrun as (start_bytes & used & t & rest & version
    & output & -> & Hlp & Hb & [Hwritten Hfaith] & Hfin & Hframes & Hall & Hcap')%supervise_outcome.
  destruct Hfin as [Hframe Hexit Hpend [seq Hex] Hout Hlogs].
  assert (converse (listening (cap_log_bytes (abi_caps self)) 1 0 0)
    (lp_history lp ++ [Observed (FinishFrame version output None)]) = Some seq) as Hconv.
  { rewrite converse_app, (lo_converse _ _ Hlp). simpl. by rewrite Hex. }
  exists lp, used, t, rest, (lp_history lp), version, output. split; [done|]. cbv zeta.
  split_and!; try done.
  - by exists start_bytes.
  - apply Hlp.
  - pose proof (proj1 (converse_talk (length (lp_history lp ++
      [Observed (FinishFrame version output None)])) _ (cap_log_bytes (abi_caps self)) 1 0 0
      ltac:(done) ltac:(lia) ltac:(lia) ltac:(lia)) (ex_intro _ _ Hconv)) as [Ht _].
    by eapply talk_finish_answered.
  - rewrite Hlogs. apply Hlp.
Qed.

Lemma supervised_outcome_witness :
  let _ := JsonReference.effect_json_ref in let _ := JsonReference.frame_json_ref in
  let _ := Reference.b64_ref in
  ∃ used t rest, SupervisionDemo.ticks = used ++ t :: rest ∧ exited (Some 0) (from_millis 2500) t.
Proof.
  intros e f b.
  destruct (supervised_outcome SupervisionDemo.supervisor _ _ _ _ _ _ ltac:(done)
      SupervisionDemo.succeeds) as (lp & used & t & rest & history & version & output & _ & Ht
        & _ & _ & _ & _ & _ & _ & _ & _ & Hex & _).
  exists used, t, rest. split; [exact Ht|exact Hex].
Defined.

(** C13: a supervised run ends.  Whatever the child, the broker and the
    pipes do, as long as instants do not go back and a wait that times out
    lasts as long as it was asked to, [run] returns within 128 observed frames
    and one poll of 20 ms per frame wait until the deadline, that is at most
    [wall_ms + 500] ms after it started; for that it needs no help from the
    child. *)
Theorem supervision_ends `{FrameJson, EffectRequestJson, Base64} self module input limits launch
    ticks :
  let deadline := la_started launch + from_millis (wall_ms limits) + SUPERVISION_ALLOWANCE in
  write_long deadline (la_started launch) (la_write launch) →
  run_clocked deadline (la_started launch) ticks →
  128 + polls deadline LEASE_POLL (la_started launch) < Z.of_nat (length ticks) →
  is_Some (run self module input limits launch ticks).
Proof.
  intros deadline Hw Hc Hl.
  assert (is_Some (supervise self module input limits launch ticks)) as [[[out lp]|e] Hs].
  - unfold supervise. pose proof (prepare_ends self module input limits launch Hw) as Hends.
    destruct (prepare self module input limits launch) as [[deadline' lp]|[r|]] eqn:Hp;
      [|by eexists|done].
    apply prepare_Ok in Hp as (-> & (b & _ & ->) & _).
    by apply (run_loop_ends _ _ (la_started launch)).
  - unfold run. rewrite Hs. by eexists.
  - unfold run. rewrite Hs. by eexists.
Qed.

Lemma supervision_ends_witness :
  let _ := JsonReference.effect_json_ref in let _ := JsonReference.frame_json_ref in
  let _ := Reference.b64_ref in
  is_Some (run SupervisionDemo.supervisor [x00] [x07] Limits_default SupervisionDemo.launch
    SupervisionDemo.silent).
Proof.
  intros e f b. apply supervision_ends.
  - exact SupervisionDemo.launch_long.
  - exact SupervisionDemo.silent_clocked.
  - vm_compute. reflexivity.
Defined.
