(* ===== verification/Reaper.v ===== *)
(** * Reaper: how many runner processes there can be

    Models the permits, the cleanup queue and the reaper thread of
    [crates/runtime/src/supervisor.rs]: every runner holds one of eight permits
    from before it is spawned until it has been reaped. *)
From S2P Require Export Supervisor.

(** [LIVE_RUNNERS], the [RunnerChild] values of the threads that supervise, the
    jobs in the channel, and those the reaper holds. *)
Record Fleet := mkFleet {
  fl_live : Z;
  fl_runs : list RunnerChild;
  fl_queue : Z;
  fl_active : Z;
}.
Definition Fleet_new : Fleet := mkFleet 0 [] 0 0.

(** [ReapPermit::reserve] *)
Definition reserve (live : Z) : option Z :=
  if live <? REAPER_CAPACITY then Some (live + 1) else None.
(** [Drop for ReapPermit] *)
Definition drop_permit (live : Z) : Z := live - 1.

(** [sender.try_send(job)] on the bounded channel. *)
Definition try_send (queue : Z) : option Z :=
  if queue <? REAPER_CAPACITY then Some (queue + 1) else None.
(** [queue_reap]; [None] is the abort. *)
Definition queue_reap (f : Fleet) : option Fleet :=
  queue ← try_send (fl_queue f);
  Some (mkFleet (fl_live f) (fl_runs f) queue (fl_active f)).

(** What [RunnerChild::spawn] holds before its child runs: the permit. *)
Definition permit_only : RunnerChild := mkRunnerChild false false false true.

Definition spawn_reserve (f : Fleet) : option Fleet :=
  live ← reserve (fl_live f);
  Some (mkFleet live (fl_runs f ++ [permit_only]) (fl_queue f) (fl_active f)).
Definition set_run (i : nat) (run : RunnerChild) (f : Fleet) : Fleet :=
  mkFleet (fl_live f) (<[i:=run]> (fl_runs f)) (fl_queue f) (fl_active f).

(** [kill_tree] on run [i]: a child that is not gone is sent with its permit;
    taking a permit that is not there, or a full queue, ends the process. *)
Definition kill_run (gone : bool) (i : nat) (run : RunnerChild) (f : Fleet) : option Fleet :=
  let '(run', queued) := kill_tree gone run in
  let f := set_run i run' f in
  if queued then (if rc_permit run then queue_reap f else None) else Some f.

(** The [RunnerChild] goes out of scope: [Drop], then its fields. *)
Definition drop_run (gone : bool) (i : nat) (run : RunnerChild) (f : Fleet) : option Fleet :=
  let '(run', queued) := drop_runner gone run in
  f ← (if queued then (if rc_permit run then queue_reap f else None) else Some f);
  Some (mkFleet (if rc_permit run' then drop_permit (fl_live f) else fl_live f)
    (delete i (fl_runs f)) (fl_queue f) (fl_active f)).

(** The reaper thread: it takes a job when it holds fewer than eight, and lets
    go of the jobs whose child has exited. *)
Definition reaper_take (f : Fleet) : option Fleet :=
  if (fl_active f <? REAPER_CAPACITY) && (0 <? fl_queue f)
  then Some (mkFleet (fl_live f) (fl_runs f) (fl_queue f - 1) (fl_active f + 1)) else None.
Definition reaper_release (f : Fleet) : option Fleet :=
  if 0 <? fl_active f
  then Some (mkFleet (drop_permit (fl_live f)) (fl_runs f) (fl_queue f) (fl_active f - 1))
  else None.

(** One step of any thread; [None] is the process aborting. *)
Inductive fleet_step (f : Fleet) : option Fleet → Prop :=
  | step_reserve f' : spawn_reserve f = Some f' → fleet_step f (Some f')
  | step_spawn i :
      fl_runs f !! i = Some permit_only → fleet_step f (Some (set_run i spawned_child f))
  | step_disarm i run run' killed :
      fl_runs f !! i = Some run → disarm killed run = Ok run' →
      fleet_step f (Some (set_run i run' f))
  | step_kill i run gone :
      fl_runs f !! i = Some run → fleet_step f (kill_run gone i run f)
  | step_drop i run gone :
      fl_runs f !! i = Some run → fleet_step f (drop_run gone i run f)
  | step_take f' : reaper_take f = Some f' → fleet_step f (Some f')
  | step_release f' : reaper_release f = Some f' → fleet_step f (Some f').

Inductive fleet_reachable : Fleet → Prop :=
  | fleet_start : fleet_reachable Fleet_new
  | fleet_next f f' : fleet_reachable f → fleet_step f (Some f') → fleet_reachable f'.

(** ** Every permit is accounted for *)

Definition held (runs : list RunnerChild) : Z := Z.of_nat (length (filter rc_permit runs)).
Definition processes (runs : list RunnerChild) : Z := Z.of_nat (length (filter rc_child runs)).

Record fleet_ok (f : Fleet) : Prop := {
  fo_live : fl_live f = held (fl_runs f) + fl_queue f + fl_active f;
  fo_cap : fl_live f ≤ REAPER_CAPACITY;
  fo_queue : 0 ≤ fl_queue f;
  fo_active : 0 ≤ fl_active f;
  fo_owned : Forall (λ run, rc_child run = true → rc_permit run = true) (fl_runs f);
}.

Definition weight (run : RunnerChild) : Z := if rc_permit run then 1 else 0.

Lemma held_app l l' : held (l ++ l') = held l + held l'.
Proof. unfold held. rewrite filter_app, length_app. lia. Qed.
Lemma held_cons run l : held (run :: l) = weight run + held l.
Proof. unfold held, weight. rewrite filter_cons. destruct (rc_permit run); simpl; lia. Qed.
Lemma held_nonneg l : 0 ≤ held l.
Proof. unfold held. lia. Qed.

Lemma held_split l i run :
  l !! i = Some run → held l = held (take i l) + weight run + held (drop (S i) l).
Proof.
  intros Hi. rewrite <- (take_drop_middle l i run Hi) at 1. rewrite held_app, held_cons. lia.
Qed.
Lemma held_insert l i run run' :
  l !! i = Some run → held (<[i:=run']> l) = held l - weight run + weight run'.
Proof.
  intros Hi. rewrite (held_split l i run Hi).
  rewrite insert_take_drop by (by eapply lookup_lt_Some). rewrite held_app, held_cons. lia.
Qed.
Lemma held_delete l i run : l !! i = Some run → held (delete i l) = held l - weight run.
Proof.
  intros Hi. rewrite (held_split l i run Hi), delete_take_drop, held_app. lia.
Qed.

Lemma processes_held runs :
  Forall (λ run, rc_child run = true → rc_permit run = true) runs → processes runs ≤ held runs.
Proof.
  induction 1 as [|run runs Hr Hruns IH]; [done|]. rewrite held_cons. unfold processes, weight in *.
  rewrite filter_cons. destruct (rc_child run); simpl.
  - rewrite (Hr eq_refl). simpl. lia.
  - destruct (rc_permit run); simpl; lia.
Qed.

Lemma queue_room f i run :
  fleet_ok f → fl_runs f !! i = Some run → rc_permit run = true → fl_queue f < REAPER_CAPACITY.
Proof.
  intros [] Hi Hp. pose proof (held_split _ _ _ Hi) as Hs.
  pose proof (held_nonneg (take i (fl_runs f))). pose proof (held_nonneg (drop (S i) (fl_runs f))).
  unfold weight in Hs. rewrite Hp in Hs. lia.
Qed.

(** [kill_tree] keeps the books: it fails only if the permit is gone or the
    queue is full, which it never is. *)
Lemma kill_run_ok gone i run f :
  fleet_ok f → fl_runs f !! i = Some run →
  ∃ f', kill_run gone i run f = Some f' ∧ fleet_ok f' ∧
    fl_live f' = fl_live f ∧ fl_runs f' = <[i:=(kill_tree gone run).1]> (fl_runs f).
Proof.
  intros Hf Hi. pose proof Hf as [Hlive Hcap Hq Ha Hown].
  pose proof (Forall_lookup_1 _ _ _ _ Hown Hi) as Hr.
  assert (Forall (λ run, rc_child run = true → rc_permit run = true)
    (<[i:=(kill_tree gone run).1]> (fl_runs f))) as Hown'.
  { apply Forall_insert; [done|]. unfold kill_tree. by destruct (rc_child run), gone. }
  unfold kill_run. destruct (kill_tree gone run) as [run' queued] eqn:Hk. simpl in Hown'.
  unfold kill_tree in Hk.
  destruct (rc_child run) eqn:Hc; [destruct gone|]; simplify_eq; simpl.
  - eexists. split; [done|]. split; [|done]. split; simpl; try done.
    rewrite (held_insert _ _ _ _ Hi). unfold weight. simpl. lia.
  - rewrite (Hr Hc). unfold queue_reap, try_send. simpl.
    pose proof (queue_room _ _ _ Hf Hi (Hr Hc)) as Hroom.
    rewrite (proj2 (Z.ltb_lt _ _)) by done. simpl. eexists. split; [done|]. split; [|done].
    split; simpl; try done; try lia. rewrite (held_insert _ _ _ _ Hi). unfold weight. simpl.
    rewrite (Hr Hc). lia.
  - eexists. split; [done|]. split; [|done]. split; simpl; try done.
    rewrite (held_insert _ _ _ _ Hi). unfold weight. simpl. lia.
Qed.

Lemma delete_insert_list {A} (l : list A) i x : delete i (<[i:=x]> l) = delete i l.
Proof. revert i. induction l as [|y l IH]; intros [|i]; [done..|]. simpl. f_equal. apply IH. Qed.

Lemma drop_run_kill gone i run f :
  drop_run gone i run f =
  (f' ← (if rc_armed run then kill_run gone i run f else Some f);
   let run' := (drop_runner gone run).1 in
   Some (mkFleet (if rc_permit run' then drop_permit (fl_live f') else fl_live f')
     (delete i (fl_runs f')) (fl_queue f') (fl_active f'))).
Proof.
  unfold drop_run, drop_runner, kill_run. destruct (rc_armed run); [|done].
  destruct (kill_tree gone run) as [run' queued]. unfold queue_reap, set_run. simpl.
  destruct queued; simpl; [|by rewrite delete_insert_list].
  destruct (rc_permit run); [|done].
  destruct (try_send (fl_queue f)); simpl; [|done]. by rewrite delete_insert_list.
Qed.

Lemma drop_run_ok gone i run f :
  fleet_ok f → fl_runs f !! i = Some run →
  ∃ f', drop_run gone i run f = Some f' ∧ fleet_ok f'.
Proof.
  intros Hf Hi. rewrite drop_run_kill.
  assert (∃ f1, (if rc_armed run then kill_run gone i run f else Some f) = Some f1 ∧ fleet_ok f1 ∧
    fl_runs f1 !! i = Some (drop_runner gone run).1) as (f1 & -> & [Hlive Hcap Hq Ha Hown] & Hi1).
  { unfold drop_runner. destruct (rc_armed run).
    - destruct (kill_run_ok gone i run f Hf Hi) as (f1 & -> & Hf1 & _ & Hr). exists f1.
      split_and!; [done|done|]. rewrite Hr. apply list_lookup_insert_eq. by eapply lookup_lt_Some.
    - by exists f. }
  simpl. eexists. split; [done|]. pose proof (held_delete _ _ _ Hi1) as Hd. unfold weight in Hd.
  unfold drop_permit. split; simpl; try done.
  - destruct (rc_permit _); lia.
  - destruct (rc_permit _); lia.
  - by apply Forall_delete.
Qed.

Lemma fleet_step_ok f r : fleet_ok f → fleet_step f r → ∃ f', r = Some f' ∧ fleet_ok f'.
Proof.
  intros Hf Hstep. pose proof Hf as [Hlive Hcap Hq Ha Hown].
  destruct Hstep as [f' Hr|i Hi|i run run' killed Hi Hd|i run gone Hi|i run gone Hi|f' Ht|f' Ht].
  - exists f'. split; [done|]. unfold spawn_reserve, reserve in Hr.
    destruct (_ <? _) eqn:Hlt; [|done]. simpl in Hr. simplify_eq. apply Z.ltb_lt in Hlt.
    split; simpl; try done; try lia.
    + rewrite held_app, held_cons. unfold weight, held. simpl. unfold held in Hlive. lia.
    + apply Forall_app. split; [done|]. by constructor.
  - eexists. split; [done|]. split; simpl; try done.
    + rewrite (held_insert _ _ _ _ Hi). unfold weight. simpl. lia.
    + by apply Forall_insert.
  - eexists. split; [done|]. unfold disarm in Hd. inv_ok. split; simpl; try done.
    + rewrite (held_insert _ _ _ _ Hi). unfold weight. simpl. lia.
    + apply Forall_insert; [done|]. simpl. by apply (Forall_lookup_1 _ _ _ _ Hown Hi).
  - destruct (kill_run_ok gone i run f Hf Hi) as (f' & ? & ? & _). eauto.
  - by apply drop_run_ok.
  - exists f'. split; [done|]. unfold reaper_take in Ht.
    destruct (_ && _) eqn:Hc; [|done]. bools. simplify_eq. split; simpl; try done; lia.
  - exists f'. split; [done|]. unfold reaper_release, drop_permit in Ht.
    destruct (_ <? _) eqn:Hc; [|done]. apply Z.ltb_lt in Hc. simplify_eq.
    split; simpl; try done; lia.
Qed.

Lemma fleet_reachable_ok f : fleet_reachable f → fleet_ok f.
Proof.
  induction 1 as [|f f' Hf IH Hstep].
  - by split; simpl; try constructor.
  - destruct (fleet_step_ok _ _ IH Hstep) as (f1 & [= <-] & ?). done.
Qed.

(** ** Properties *)

(** Runner processes are bounded and cleanup never fails.  Whatever
    the supervising threads and the reaper do, in whatever order, the counter
    of live runners is exactly the permits held by runs, by queued jobs and by
    the reaper; there are never more than eight unreaped runner processes; and
    no step finds the permit missing or the queue full, which would abort the
    process. *)
Theorem reaper_never_aborts f :
  fleet_reachable f →
  fl_live f = held (fl_runs f) + fl_queue f + fl_active f ∧
  processes (fl_runs f) + fl_queue f + fl_active f ≤ REAPER_CAPACITY ∧
  ¬ fleet_step f None.
Proof.
  intros Hf%fleet_reachable_ok. pose proof Hf as [Hlive Hcap Hq Ha Hown].
  pose proof (processes_held _ Hown). split_and!; [done|lia|].
  intros Hstep. by destruct (fleet_step_ok _ _ Hf Hstep) as (f' & ? & _).
Qed.

Module ReaperDemo.
Definition reserved : Fleet := mkFleet 1 [permit_only] 0 0.
Definition killed : Fleet := mkFleet 1 [mkRunnerChild false false true false] 1 0.

Lemma reached : fleet_reachable killed.
Proof.
  apply (fleet_next (set_run 0 spawned_child reserved)).
  - apply (fleet_next reserved); [|by apply (step_spawn reserved 0)].
    apply (fleet_next Fleet_new); [constructor|by apply (step_reserve Fleet_new)].
  - exact (step_kill (set_run 0 spawned_child reserved) 0 spawned_child false eq_refl).
Qed.
End ReaperDemo.

Lemma reaper_never_aborts_witness :
  processes (fl_runs ReaperDemo.killed) + fl_queue ReaperDemo.killed + fl_active ReaperDemo.killed
    ≤ 8 ∧ ¬ fleet_step ReaperDemo.killed None.
Proof.
  split; [vm_compute; discriminate|].
  exact (proj2 (proj2 (reaper_never_aborts _ ReaperDemo.reached))).
Defined.
