(* ===== verification/Runner.v ===== *)
(** * Runner: the child process

    Models [crates/runtime/src/bin/effectlatch-runner.rs]: what the runner
    requires before it starts, how it forwards effects to its parent, and what
    it reports. *)
From S2P Require Export Guest Supervisor Engine.

Inductive RunnerError :=
  | RunnerArguments
  | RunnerEnvironment
  | RunnerDescriptor
  | RunnerIo
  | RunnerProtocol (e : ProtocolError).

(** ** Before it starts *)

(** [text.parse::<uN>()]: an optional plus sign and decimal digits. *)
Fixpoint parse_digits (max acc : Z) (l : list byte) : option Z :=
  match l with
  | [] => Some acc
  | b :: l =>
    if is_ascii_digit b
    then acc ← checked 0 max (10 * acc + (byte_val b - byte_val "0")); parse_digits max acc l
    else None
  end.
Definition parse_unsigned (max : Z) (text : string) : option Z :=
  match bytes text with
  | [] => None
  | b :: l =>
    if bool_decide (b = "+"%byte)
    then match l with [] => None | _ => parse_digits max 0 l end
    else parse_digits max 0 (b :: l)
  end.

(** [serde_json::from_str::<Limits>] and [serde_json::to_string]. *)
Class LimitsJson := {
  limits_from_str : string → option Limits;
  limits_to_string : Limits → option string;
}.
Class LimitsJsonLaws `{LimitsJson} : Prop :=
  limits_from_to_string caps text :
    limits_u64 caps → limits_to_string caps = Some text → limits_from_str text = Some caps.

Section arguments.
Context `{LimitsJson}.

(** [parse_operator_caps]; an argument is [None] when it is not UTF-8. *)
Definition parse_operator_caps (args : list (option string)) :
    result RunnerError (Limits * AbiCaps) :=
  match args with
  | _ :: flag1 :: args =>
    fail_if (negb (bool_decide (flag1 = Some "--operator-caps-json"%string))) RunnerArguments;;
    raw ← ok_or (head args) RunnerArguments;
    let args := tail args in
    fail_if (negb (bool_decide (head args = Some (Some "--host-calls"%string)))) RunnerArguments;;
    let args := tail args in
    host_calls ← ok_or (head args ≫= λ value, value ≫= parse_unsigned u32_max) RunnerArguments;
    let args := tail args in
    fail_if (negb (bool_decide (head args = Some (Some "--log-bytes"%string)))) RunnerArguments;;
    let args := tail args in
    log_bytes ← ok_or (head args ≫= λ value, value ≫= parse_unsigned u64_max) RunnerArguments;
    let args := tail args in
    fail_if (negb (bool_decide (args = []))) RunnerArguments;;
    raw ← ok_or raw RunnerArguments;
    caps ← ok_or (limits_from_str raw) RunnerArguments;
    caps ← map_err (λ _, RunnerArguments) (Limits_validate caps caps);
    abi_caps ← map_err (λ _, RunnerArguments) (AbiCaps_validate (mkAbiCaps host_calls log_bytes));
    mret (caps, abi_caps)
  | _ => Err RunnerArguments
  end.

(** The command line of [RunnerChild::spawn]. *)
Definition spawn_args (path : option string) (caps : Limits) (abi_caps : AbiCaps) :
    result SupervisorError (list (option string)) :=
  text ← ok_or (limits_to_string caps) SupervisorIo;
  mret [path; Some "--operator-caps-json"%string; Some text; Some "--host-calls"%string;
    Some (pretty (host_calls abi_caps)); Some "--log-bytes"%string;
    Some (pretty (cap_log_bytes abi_caps))].
End arguments.

(** [verify_descriptor_allowlist] on Linux: an entry is its name, and whether
    it links to [/proc/.../fd]; [None] is an I/O error. *)
Definition check_descriptor (entry : option (option string * option bool)) :
    result RunnerError unit :=
  '(name, own) ← ok_or entry RunnerIo;
  fd ← ok_or (name ≫= parse_unsigned u32_max) RunnerDescriptor;
  if fd <=? 2 then mret ()
  else
    own_fd_directory ← ok_or own RunnerIo;
    fail_if (negb own_fd_directory) RunnerDescriptor.
Definition verify_descriptor_allowlist
    (entries : option (list (option (option string * option bool)))) : result RunnerError unit :=
  entries ← ok_or entries RunnerIo;
  for_each check_descriptor entries.

(** ** Effects through the parent *)

(** [next_id], whether the main thread still takes events, the answers the
    parent will have sent, and the traffic so far. *)
Record IpcDispatcher := mkIpcDispatcher {
  ip_next_id : Z;
  ip_open : bool;
  ip_responses : list EffectResponseFrame;
  ip_talk : list message;
}.

Definition failure_of_code (code : Z) : DispatchFailure :=
  if code =? -3 then DPolicy
  else if code =? -4 then DUnresolved
  else if code =? -5 then DReplayDivergence
  else DUnavailable.

Section runner.
Context `{FrameJson, EffectRequestJson, Base64}.

(** [IpcDispatcher::dispatch] *)
Definition ipc_dispatch (self : IpcDispatcher) (request : EffectRequest) :
    result DispatchFailure (list byte) * IpcDispatcher :=
  let message_id := ip_next_id self in
  match checked_u64 (ip_next_id self + 1) with
  | None => (Err DUnavailable, self)
  | Some next =>
    let self := mkIpcDispatcher next (ip_open self) (ip_responses self) (ip_talk self) in
    if negb (ip_open self) then (Err DUnavailable, self)
    else
      let talk := ip_talk self ++ [Observed (EffectRequestFrame 1 message_id request)] in
      match ip_responses self with
      | [] => (Err DUnavailable, mkIpcDispatcher next (ip_open self) [] talk)
      | response :: responses =>
        let self := mkIpcDispatcher next (ip_open self) responses (talk ++ [Responded response]) in
        if negb (rf_message_id response =? message_id) then (Err DUnavailable, self)
        else
          match rf_response response with
          | ResponseCommitted reply => (ok_or (reply_to_vec reply) DUnavailable, self)
          | ResponseFailed code => (Err (failure_of_code code), self)
          end
      end
  end.
#[global] Instance ipc_dispatcher : EffectDispatcher IpcDispatcher := ipc_dispatch.

Definition IpcDispatcher_new (responses : list EffectResponseFrame) : IpcDispatcher :=
  mkIpcDispatcher 1 true responses [].

Definition PARENT_GONE_EXIT : Z := 70.

(** The thread on the runner's input: the answers it hands to the worker, which
    takes [taken] of them, and the status it ends the process with. *)
Definition read_response : Tx (list byte) ProtocolError EffectResponseFrame :=
  frame ← read_frame response_from_slice MESSAGE_FRAME_BYTES;
  tx_lift (EffectResponseFrame_check frame);;
  mret frame.
Fixpoint parent_input (taken : nat) (stdin : list byte) : list EffectResponseFrame * Z :=
  match read_response stdin with
  | Err _ => ([], PARENT_GONE_EXIT)
  | Ok (response, stdin) =>
    match taken with
    | O => ([], PARENT_GONE_EXIT)
    | S taken => let '(responses, status) := parent_input taken stdin in
                 (response :: responses, status)
    end
  end.

(** The worker's [execute], on a fresh engine: [call] instantiates the module in
    its store and calls [run], and yields the shared state it leaves. *)
Definition worker `{Wasmparser} {Module_} (module_new : list byte → option Module_)
    (call : Module_ → RuntimeStore (State IpcDispatcher) →
            result RuntimeError Z * option (State IpcDispatcher))
    (start : StartFrame) (module input : list byte) (operator_caps : Limits) (caps : AbiCaps)
    (responses : list EffectResponseFrame) : result AbiError AbiOutcome :=
  compiled ← map_err Runtime (compile module_new module);
  execute_abi (λ s0,
      match new_store s0 (sf_limits start) operator_caps with
      | Ok store => call compiled store
      | Err e => (Err e, Some s0)
      end)
    input (sf_limits start) caps (IpcDispatcher_new responses).

Definition abi_error_code (error : AbiError) : string :=
  match error with
  | InputSize => "INPUT_SIZE"
  | InvalidCaps => "INVALID_CAPS"
  | Violation code =>
    match code with
    | AInvalidMemory => "INVALID_MEMORY"
    | ASize => "SIZE"
    | APolicy => "POLICY"
    | AUnresolved => "UNRESOLVED"
    | AReplayDivergence => "REPLAY_DIVERGED"
    | AInvalidState => "INVALID_STATE"
    | AUnavailable => "UNAVAILABLE"
    end
  | Runtime _ => "RUNTIME_FAILURE"
  | StatePoisoned => "STATE_POISONED"
  end.

(** The frames [run] writes for [WorkerEvent::Finished(result)]. *)
Definition final_frames (finished : result AbiError AbiOutcome) : list ChildFrame :=
  match finished with
  | Ok outcome =>
    (LogFrame 1 <$> ao_logs outcome) ++ [FinishFrame 1 (b64_encode <$> ao_output outcome) None]
  | Err error => [FinishFrame 1 None (Some (abi_error_code error))]
  end.

Inductive WorkerEvent :=
  | Frame (frame : ChildFrame)
  | Finished (finished : result AbiError AbiOutcome).

Definition write_child (frame : ChildFrame) : Tx (list byte) RunnerError unit := λ stdout,
  map_err RunnerProtocol (write_frame child_to_vec frame MESSAGE_FRAME_BYTES stdout).

(** The loop of [run] over the worker's events. *)
Fixpoint event_loop (events : list WorkerEvent) : Tx (list byte) RunnerError unit :=
  match events with
  | [] => tx_fail RunnerIo
  | Frame frame :: events => write_child frame;; event_loop events
  | Finished finished :: _ => tx_for_each write_child (final_frames finished)
  end.

(** What [run] hands to the worker: the start frame, module, input and caps. *)
Definition runner_start `{LimitsJson} (args : list (option string)) (environment : list string)
    (descriptors : option (list (option (option string * option bool)))) (stdin : list byte) :
    result RunnerError (StartFrame * list byte * list byte * Limits * AbiCaps * list byte) :=
  '(operator_caps, abi_caps) ← parse_operator_caps args;
  fail_if (negb (bool_decide (environment = []))) RunnerEnvironment;;
  verify_descriptor_allowlist descriptors;;
  '(start, stdin) ← map_err RunnerProtocol (read_start stdin);
  module ← ok_or (b64_decode (sf_module_b64 start)) (RunnerProtocol PMessage);
  input ← ok_or (b64_decode (sf_input_b64 start)) (RunnerProtocol PMessage);
  mret (start, module, input, operator_caps, abi_caps, stdin).

(** [run] and [main]: [threads] is whether the two threads could be started, and
    [execute] the events the worker sends for what it is handed. *)
Definition runner_run `{LimitsJson} (args : list (option string)) (environment : list string)
    (descriptors : option (list (option (option string * option bool)))) (stdin : list byte)
    (threads : bool * bool)
    (execute : StartFrame * list byte * list byte * Limits * AbiCaps * list byte →
               list WorkerEvent) : Tx (list byte) RunnerError unit :=
  handed ← tx_lift (runner_start args environment descriptors stdin);
  tx_fail_if (negb threads.1) RunnerIo;;
  tx_fail_if (negb threads.2) RunnerIo;;
  event_loop (execute handed).
Definition runner_main {A} (returned : result RunnerError A) : Z :=
  if is_ok returned then 0 else 1.
End runner.

(** ** What an honest runner says *)

(** The exchange with the parent: requests numbered from [id], each answered. *)
Fixpoint script (id : Z) (requests : list EffectRequest) (answers : list EffectResponseFrame) :
    list message :=
  match requests, answers with
  | request :: requests, answer :: answers =>
    Observed (EffectRequestFrame 1 id request) :: Responded answer ::
      script (id + 1) requests answers
  | _, _ => []
  end.

Lemma script_snoc id requests answers request answer :
  answers !! length requests = Some answer →
  script id (requests ++ [request]) answers =
  script id requests answers ++
    [Observed (EffectRequestFrame 1 (id + Z.of_nat (length requests)) request); Responded answer].
Proof.
  revert id answers. induction requests as [|r requests IH]; intros id [|a answers] Ha; simpl in *;
    try done; simplify_eq.
  - by rewrite Z.add_0_r.
  - rewrite IH by done. by replace (id + Z.of_nat (S (length requests))) with
      (id + 1 + Z.of_nat (length requests)) by lia.
Qed.

(** The answers the parent gives: valid, numbered 1, 2, 3, ... *)
Definition parent_answers (answers : list EffectResponseFrame) : Prop :=
  ∀ i, (i < 64)%nat → ∃ answer, answers !! i = Some answer ∧
    rf_message_id answer = 1 + Z.of_nat i ∧ EffectResponseFrame_check answer = Ok ().

Lemma talk_script cap id requests answers l :
  (∀ i, (i < length requests)%nat → ∃ answer, answers !! i = Some answer ∧
     rf_message_id answer = id + Z.of_nat i ∧ EffectResponseFrame_check answer = Ok ()) →
  talk cap (id + Z.of_nat (length requests)) 0 l → talk cap id 0 (script id requests answers ++ l).
Proof.
  revert id answers. induction requests as [|r requests IH]; intros id answers Ha Hl.
  - simpl in *. by rewrite Z.add_0_r in Hl.
  - destruct (Ha 0%nat) as (a & Ha0 & Hid & Hc); [simpl; lia|].
    destruct answers as [|a' answers]; simplify_eq/=. constructor; [done|lia|].
    apply IH.
    + intros i Hi. destruct (Ha (S i)) as (a' & ? & ? & ?); [lia|]. exists a'.
      split_and!; try done. lia.
    + by replace (id + 1 + Z.of_nat (length requests)) with
        (id + Z.of_nat (S (length requests))) by lia.
Qed.

Lemma talk_logs cap id used logs l :
  used + total_len logs ≤ cap → talk cap id (used + total_len logs) l →
  talk cap id used ((Observed ∘ LogFrame 1 <$> logs) ++ l).
Proof.
  revert used. induction logs as [|m logs IH]; intros used Hfit Hl; simpl in *.
  - by rewrite Z.add_0_r in Hl.
  - pose proof (total_len_nonneg logs). constructor; [lia|]. apply IH; [lia|].
    by replace (used + str_len m + total_len logs) with (used + (str_len m + total_len logs)) by lia.
Qed.

Lemma AbiCaps_validate_bounds caps :
  AbiCaps_validate caps = Ok caps → host_calls caps ≤ 64 ∧ cap_log_bytes caps ≤ LOG_BYTES.
Proof. unfold AbiCaps_validate. intros Hv. inv_ok. bools. unfold MAX_HOST_CALLS in *. lia. Qed.

Section honest_runner.
Context `{FrameJson, EffectRequestJson, Base64Laws}.
Variable answers : list EffectResponseFrame.
Hypothesis Hanswers : parent_answers answers.

Definition scripted (d : IpcDispatcher * list Asked) : Prop :=
  (length d.2 ≤ 64)%nat →
  ip_open d.1 = true ∧ ip_next_id d.1 = 1 + Z.of_nat (length d.2) ∧
  ip_responses d.1 = drop (length d.2) answers ∧ ip_talk d.1 = script 1 (d.2.*1) answers.

Lemma scripted_closed : dispatch_closed scripted.
Proof.
  intros [d l] r Hd. unfold scripted in *. simpl in *.
  change (@dispatch (IpcDispatcher * list Asked) traced) with (@traced IpcDispatcher _).
  unfold traced. simpl. change (@dispatch IpcDispatcher ipc_dispatcher) with ipc_dispatch.
  destruct (ipc_dispatch d r) as [ans d'] eqn:Hdisp. simpl. rewrite length_app. simpl.
  intros Hlen. destruct Hd as (Hopen & Hnext & Hresp & Htalk); [lia|].
  destruct (Hanswers (length l)) as (a & Ha & Hid & Hc); [lia|].
  unfold ipc_dispatch in Hdisp. rewrite Hnext in Hdisp.
  assert (checked_u64 (1 + Z.of_nat (length l) + 1) = Some (1 + Z.of_nat (length l) + 1)) as Hck
    by (apply checked_Some; unfold u64_max; lia).
  rewrite Hck in Hdisp. simpl in Hdisp. rewrite Hopen, Hresp in Hdisp. simpl in Hdisp.
  rewrite (drop_S _ _ _ Ha), Hid, Z.eqb_refl in Hdisp. simpl in Hdisp.
  assert (d' = mkIpcDispatcher (1 + Z.of_nat (length l) + 1) true (drop (S (length l)) answers)
    ((ip_talk d ++ [Observed (EffectRequestFrame 1 (1 + Z.of_nat (length l)) r)]) ++ [Responded a]))
    as -> by (destruct (rf_response a); by simplify_eq).
  simpl. replace (length l + 1)%nat with (S (length l)) by lia. split_and!; try done; [lia|].
  rewrite Htalk, fmap_app. simpl.
  rewrite (script_snoc 1 (l.*1) answers r a) by (by rewrite length_fmap).
  by rewrite length_fmap, <- (assoc_L (++)).
Qed.

Lemma frames_script id requests answers' :
  Forall effect_request_ok requests →
  (length (frames_of (script id requests answers')) ≤ length requests)%nat ∧
  Forall (λ f, ChildFrame_version f = 1 ∧ child_check f = Ok ())
    (frames_of (script id requests answers')).
Proof.
  intros Hr. revert id answers'.
  induction Hr as [|r requests Hr Hrs IH]; intros id [|a answers']; simpl; try by split; [lia|].
  destruct (IH (id + 1) answers') as [Hlen Hall]. split; [lia|]. constructor; [|done].
  split; [done|]. by apply child_check_Ok.
Qed.

Lemma observations_frames l : observations l = Z.of_nat (length (frames_of l)).
Proof.
  induction l as [|m l IH]; [done|]. rewrite observations_cons, IH.
  destruct m; simpl; lia.
Qed.

Lemma frames_observed l : frames_of (Observed <$> l) = l.
Proof. induction l as [|f l IH]; simpl; [done|]. by f_equal. Qed.

Lemma final_frames_ok (finished : result AbiError AbiOutcome) :
  (∀ o, finished = Ok o → total_len (ao_logs o) ≤ LOG_BYTES ∧
     ∀ b, ao_output o = Some b → Z.of_nat (length b) ≤ PAYLOAD_BYTES) →
  Forall (λ f, ChildFrame_version f = 1 ∧ child_check f = Ok ()) (final_frames finished).
Proof.
  intros Hfin. destruct finished as [o|e]; simpl.
  - destruct (Hfin o eq_refl) as [Hlogs Hout]. apply Forall_app. split.
    + apply Forall_fmap, Forall_forall. intros m Hm. split; [done|]. simpl.
      rewrite (proj2 (Z.leb_le _ _)); [done|]. clear -Hm Hlogs.
      assert (str_len m ≤ total_len (ao_logs o)); [|unfold LOG_BYTES in *; lia].
      clear Hlogs. induction (ao_logs o) as [|x l IH]; [by apply not_elem_of_nil in Hm|].
      apply elem_of_cons in Hm as [->|Hm]; simpl.
      * pose proof (total_len_nonneg l). lia.
      * pose proof (str_len_nonneg x). specialize (IH Hm). lia.
    + constructor; [|constructor]. split; [done|]. apply child_check_Ok. simpl. split_and!.
      * by right.
      * intros text Ht. apply fmap_Some in Ht as (b & Hb & ->). exists b. auto.
      * done.
  - constructor; [|constructor]. split; [done|]. by destruct e as [| |[]| |].
Qed.
(** The conversation, frame by frame. *)
Lemma frames_said talk id requests answers' l :
  talk = script id requests answers' →
  frames_of (talk ++ (Observed <$> l)) = frames_of (script id requests answers') ++ l.
Proof. intros ->. unfold frames_of. rewrite omap_app. f_equal. apply frames_observed. Qed.

(** What a guest of the runner makes it say: a script of valid requests, and
    the verdict on what the guest left. *)
Record words (talk : list message) (requests : list EffectRequest) (logs : list string)
    (output : option (list byte)) (cap : Z) (finished : result AbiError AbiOutcome) : Prop := {
  wo_script : talk = script 1 requests answers;
  wo_requests : Forall effect_request_ok requests;
  wo_count : (length requests + length logs ≤ 64)%nat;
  wo_outcome : ∀ o, finished = Ok o → ao_logs o = logs ∧ ao_output o = output ∧
    total_len logs ≤ cap ∧ ∀ b, output = Some b → Z.of_nat (length b) ≤ PAYLOAD_BYTES;
}.

Lemma honest_words {M} `{GuestMemoryLaws M}
    (mem : option M) input caps requested execute evs w ran :
  AbiCaps_validate caps = Ok caps → 0 ≤ host_calls caps → 0 ≤ cap_log_bytes caps →
  Z.of_nat (length input) ≤ PAYLOAD_BYTES →
  let d0 := (IpcDispatcher_new answers, []) in
  let s0 := initial_state input caps requested d0 in
  guest_run (mkWorld s0 mem) evs w → execute s0 = (ran, Some (w_state w)) →
  words (ip_talk (s_dispatcher (w_state w)).1) ((s_dispatcher (w_state w)).2).*1
    (s_logs (w_state w)) (s_output (w_state w)) (cap_log_bytes caps)
    (execute_abi execute input requested caps d0).
Proof.
  intros Hcaps Hh Hl Hinput d0 s0 Hrun Hex.
  pose proof (AbiCaps_validate_bounds _ Hcaps) as [Hcalls _].
  assert (scripted (broker w)) as Hscript.
  { apply (guest_run_closed scripted (mkWorld s0 mem) w evs); [|done|done].
    by apply scripted_closed. }
  apply (guest_run_keeps input caps (max_effects requested)) in Hrun;
    [|try done; by apply guest_initial_ok..].
  destruct Hrun as [_ _ _ _ Hused Hvalid _ _ _ _ Hout [Hsum Hlogs]].
  unfold trace in Hused, Hvalid.
  destruct Hscript as (_ & _ & _ & Htalk); [unfold broker; lia|]. unfold broker in Htalk.
  split; [done| |rewrite length_fmap; lia|].
  - apply Forall_fmap. eapply Forall_impl; [exact Hvalid|]. by intros e [? _].
  - intros o Ho. unfold execute_abi in Ho. rewrite (proj2 (Z.ltb_ge _ _)) in Ho by lia.
    simpl in Ho. rewrite Hcaps in Ho. simpl in Ho. fold s0 in Ho. rewrite Hex in Ho. simpl in Ho.
    destruct (s_sticky (w_state w)); [done|]. apply bind_Ok in Ho as (rc & _ & [= <-]).
    simpl. split_and!; try done; lia.
Qed.
End honest_runner.

Module RunnerDemo.
Import Reference JsonReference MemoryReference.

Definition answers : list EffectResponseFrame :=
  (λ i : nat, mkEffectResponseFrame 1 "effect_response" (1 + Z.of_nat i)
    (if decide (i = 0%nat)
     then ResponseCommitted (mkEffectReply 0 COMMITTED (mkTicketResponse "T1" "ops") false)
     else ResponseFailed (-3))) <$> seq 0 64.
Lemma answers_ok : parent_answers answers.
Proof.
  intros i Hi. unfold answers. eexists. split.
  - rewrite list_lookup_fmap, lookup_seq_lt by done. reflexivity.
  - split; [done|]. simpl. by case_decide.
Qed.

Definition world : World (IpcDispatcher * list Asked) Writes :=
  mkWorld (initial_state [x07] AbiDemo.caps Limits_default (IpcDispatcher_new answers, []))
    (Some AbiDemo.memory).
Definition guest : list HostCall :=
  [Log 20000 2; EffectCall 0 AbiDemo.request_len 65536 65536; OutputWrite 65536 4].
Definition final : World (IpcDispatcher * list Asked) Writes :=
  Eval vm_compute in (AbiDemo.play guest world).2.
Definition events : list (HostCall * HostResult) :=
  Eval vm_compute in (AbiDemo.play guest world).1.

Lemma runner_plays : AbiDemo.play guest world = (events, final).
Proof. vm_compute. reflexivity. Qed.
Lemma runner_runs : guest_run world events final.
Proof.
  apply (AbiDemo.play_run world guest [] events world final);
    [constructor|apply runner_plays|by repeat constructor].
Qed.
End RunnerDemo.

(** ** Properties *)

(** What an honest runner says is the protocol.  Whatever its guest does, when
    the parent answers each request in turn, the frames the runner writes (its
    effect requests, then the logs and the finish of [execute_abi]'s verdict)
    and the answers it got form a conversation the parent's sequence accepts to
    the end, of at most 65 frames, each of which passes the parent's checks. *)
Theorem runner_honest {M} `{GuestMemoryLaws M, FrameJson, EffectRequestJson, Base64Laws} answers
    (mem : option M) input caps requested execute evs w ran :
  parent_answers answers →
  AbiCaps_validate caps = Ok caps → 0 ≤ host_calls caps → 0 ≤ cap_log_bytes caps →
  Z.of_nat (length input) ≤ PAYLOAD_BYTES →
  let d0 := (IpcDispatcher_new answers, []) in
  let s0 := initial_state input caps requested d0 in
  guest_run (mkWorld s0 mem) evs w → execute s0 = (ran, Some (w_state w)) →
  let finished := execute_abi execute input requested caps d0 in
  let said := ip_talk (s_dispatcher (w_state w)).1 ++ (Observed <$> final_frames finished) in
  is_Some (converse (listening (cap_log_bytes caps) 1 0 0) said) ∧
  observations said ≤ 65 ∧
  Forall (λ f, ChildFrame_version f = 1 ∧ child_check f = Ok ()) (frames_of said).
Proof.
  intros Hanswers Hcaps Hh Hl Hinput d0 s0 Hrun Hex finished said.
  pose proof (AbiCaps_validate_bounds _ Hcaps) as [_ Hlogcap].
  destruct (honest_words answers Hanswers mem input caps requested execute evs w ran
    Hcaps Hh Hl Hinput Hrun Hex) as [Htalk Hreq Hcount Hfin].
  fold d0 finished in Hfin.
  set (requests := ((s_dispatcher (w_state w)).2).*1) in *.
  assert (Forall (λ f, ChildFrame_version f = 1 ∧ child_check f = Ok ()) (final_frames finished))
    as Hfinal.
  { apply final_frames_ok. intros o Ho. destruct (Hfin o Ho) as (-> & -> & Hlogs & Hout). split; [lia|done]. }
  assert (talk (cap_log_bytes caps) (1 + Z.of_nat (length requests)) 0
    (Observed <$> final_frames finished) ∧
    (length (final_frames finished) ≤ S (length (s_logs (w_state w))))%nat) as [Htail Hlen].
  { destruct finished as [o|e]; simpl; [|split; [constructor|lia]].
    destruct (Hfin o eq_refl) as (-> & _ & Hlogs & _). split.
    - rewrite fmap_app, <- list_fmap_compose. apply talk_logs; [lia|constructor].
    - rewrite length_app, length_fmap. simpl. lia. }
  destruct (frames_script 1 requests answers Hreq) as [Hrlen Hrall].
  assert (frames_of said = frames_of (script 1 requests answers) ++ final_frames finished) as Hframes
    by (by apply frames_said).
  assert (observations said ≤ 65) as Hobs.
  { rewrite observations_frames, Hframes, length_app. lia. }
  split_and!; [|done|by rewrite Hframes; apply Forall_app].
  apply (converse_talk (length said)); [done|lia|lia|lia|]. split; [|lia].
  unfold said. rewrite Htalk. apply talk_script; [|done].
  intros i Hi. apply Hanswers. lia.
Qed.

Lemma runner_honest_witness :
  let _ := JsonReference.effect_json_ref in let _ := JsonReference.frame_json_ref in
  let _ := Reference.b64_ref in
  is_Some (converse (listening 16384 1 0 0)
    (ip_talk (s_dispatcher (w_state RunnerDemo.final)).1 ++
     [Observed (LogFrame 1 "hi");
      Observed (FinishFrame 1 (b64_encode <$> s_output (w_state RunnerDemo.final)) None)])).
Proof.
  intros e f b.
  exact (proj1 (runner_honest (H0 := MemoryReference.writes_memory_laws)
    (H4 := Reference.b64_ref_laws) RunnerDemo.answers _ _ _ _
    (λ _, (Ok 0, Some (w_state RunnerDemo.final))) _ _ _ RunnerDemo.answers_ok AbiDemo.caps_ok
    ltac:(done) ltac:(done) AbiDemo.input_ok RunnerDemo.runner_runs eq_refl)).
Defined.
