(* ===== verification/Session.v ===== *)
(** * Session: a supervisor and its runner

    Composes [Supervisor] and [Runner] over what connects them: the command line
    and the start frame on the runner's standard input, and the frames it writes
    to its standard output, which a thread of the supervisor reads, and the answers
    that a thread of the runner reads. *)
From S2P Require Export Supervision Runner.

(** ** The thread that reads the runner's output *)

(** The loop of the thread [run] spawns: what it sends for what is on the pipe,
    in at most [fuel] rounds.  The supervisor hears nothing after an error,
    which it returns with. *)
Fixpoint reader `{FrameJson, EffectRequestJson, Base64} (fuel : nat) (stdout : list byte) :
    list (result ProtocolError ChildFrame) :=
  match fuel with
  | O => []
  | S fuel =>
    match read_child stdout with
    | Ok (frame, stdout) =>
      Ok frame :: match frame with FinishFrame _ _ _ => [] | _ => reader fuel stdout end
    | Err e => [Err e]
    end
  end.

(** What an iteration of the supervisor takes from that thread. *)
Definition tick_read (t : Tick) : option (result ProtocolError ChildFrame) :=
  match tk_frame t with FrameRead r => Some r | _ => None end.
Definition read_ok (r : result ProtocolError ChildFrame) : option ChildFrame :=
  match r with Ok frame => Some frame | Err _ => None end.

Lemma reads_frames (ticks : list Tick) :
  omap read_ok (omap tick_read ticks) = omap tick_frame ticks.
Proof.
  induction ticks as [|t ticks IH]; [done|].
  assert (tick_frame t = tick_read t ≫= read_ok) as Ht
    by (unfold tick_read, tick_frame; by destruct (tk_frame t) as [[]| |]).
  simpl. rewrite Ht. destruct (tick_read t) as [[frame|e]|]; [|exact IH..].
  exact (f_equal (cons frame) IH).
Qed.

Lemma prefix_omap {A B} (f : A → option B) l1 l2 :
  l1 `prefix_of` l2 → omap f l1 `prefix_of` omap f l2.
Proof. intros [k ->]. rewrite omap_app. by exists (omap f k). Qed.

(** ** Numbers on the command line *)

Lemma bytes_pretty_char n s :
  (n < 10)%N → ∃ b, bytes (String (pretty_N_char n) s) = b :: bytes s ∧
    is_ascii_digit b = true ∧ byte_val b - byte_val "0" = Z.of_N n.
Proof.
  intros Hn. exists (byte_of_Z (48 + Z.of_N n)).
  assert (n = 0 ∨ n = 1 ∨ n = 2 ∨ n = 3 ∨ n = 4 ∨ n = 5 ∨ n = 6 ∨ n = 7 ∨ n = 8 ∨ n = 9)%N
    as Hd by lia.
  repeat (destruct Hd as [->|Hd]; [by vm_compute|]). subst. by vm_compute.
Qed.

Lemma parse_digits_go max n s :
  Z.of_N n ≤ max →
  parse_digits max 0 (bytes (pretty_N_go n s)) = parse_digits max (Z.of_N n) (bytes s).
Proof.
  revert s. induction (N.lt_wf_0 n) as [n _ IH]. intros s Hmax.
  destruct (decide (n = 0)%N) as [->|Hn]; [done|].
  rewrite pretty_N_go_step by lia.
  destruct (bytes_pretty_char (n mod 10) s) as (b & Hb & Hdig & Hv); [by apply N.mod_lt|].
  rewrite IH; [|apply N.div_lt; lia|].
  - rewrite Hb. simpl. rewrite Hdig, Hv.
    assert (10 * Z.of_N (n `div` 10) + Z.of_N (n `mod` 10) = Z.of_N n) as ->.
    { rewrite (N.div_mod n 10) at 3 by done. lia. }
    assert (checked 0 max (Z.of_N n) = Some (Z.of_N n)) as -> by (apply checked_Some; lia). done.
  - assert (n `div` 10 ≤ n)%N by (apply N.Div0.div_le_upper_bound; lia). lia.
Qed.

Lemma bytes_go_digit n s :
  (n ≠ 0)%N → ∃ b l, bytes (pretty_N_go n s) = b :: l ∧ is_ascii_digit b = true.
Proof.
  revert s. induction (N.lt_wf_0 n) as [n _ IH]. intros s Hn. rewrite pretty_N_go_step by lia.
  destruct (decide (n `div` 10 = 0)%N) as [->|Hd].
  - destruct (bytes_pretty_char (n mod 10) s) as (b & Hb & Hdig & _); [by apply N.mod_lt|].
    by exists b, (bytes s).
  - apply IH; [apply N.div_lt; lia|done].
Qed.

(** A number of an unsigned type survives printing and parsing. *)
Lemma parse_unsigned_pretty max n : 0 ≤ n ≤ max → parse_unsigned max (pretty n) = Some n.
Proof.
  intros Hn. assert (parse_digits max 0 (bytes (pretty n)) = Some n ∧
    ∃ b l, bytes (pretty n) = b :: l ∧ is_ascii_digit b = true) as [Hp (b & l & Hb & Hd)].
  { destruct n as [|p|p]; [|change (pretty (Z.pos p)) with (pretty_N_go (N.pos p) "")|lia].
    - split; [|by exists "0"%byte, []].
      assert (checked 0 max 0 = Some 0) as Hz by (apply checked_Some; lia).
      change (checked 0 max 0 ≫= (λ acc, parse_digits max acc []) = Some 0). by rewrite Hz.
    - split; [|by apply bytes_go_digit].
      rewrite parse_digits_go by (simpl; lia). done. }
  unfold parse_unsigned. rewrite Hb in Hp |- *.
  by rewrite bool_decide_eq_false_2 by (intros ->; vm_compute in Hd; done).
Qed.

(** ** What the supervisor hears *)

(** Writing only appends. *)
Lemma tx_for_each_app {T} (to_vec : T → option (list byte)) maximum l out out' :
  tx_for_each (λ x, write_frame to_vec x maximum) l out = Ok ((), out') → ∃ b, out' = out ++ b.
Proof.
  revert out. induction l as [|x l IH]; intros out Hw.
  - apply tx_ret_Ok in Hw as [_ ->]. exists []. by rewrite app_nil_r.
  - apply tx_bind_Ok in Hw as ([] & out1 & (body & _ & _ & ->)%write_frame_Ok & Hw).
    apply IH in Hw as [b ->]. exists (wire body ++ b). by rewrite (assoc_L (++)).
Qed.

Section pipe.
Context `{FrameJsonLaws, !Base64, !Base64Laws}.

(** Whatever is read from a frame's bytes is that frame. *)
Lemma read_child_sent frame frame' body rest rest' :
  child_typed frame → child_to_vec frame = Some body → framed MESSAGE_FRAME_BYTES body →
  read_child (wire body ++ rest) = Ok (frame', rest') → frame' = frame ∧ rest' = rest.
Proof.
  intros Htyped Hbody Hf (body' & kind & Hw & Hf' & Htype & Hof & _)%read_child_Ok.
  pose proof (read_frame_bytes_wire _ _ rest Hf) as Hread.
  rewrite Hw, (read_frame_bytes_wire _ _ rest' Hf') in Hread. injection Hread as -> ->.
  split; [|done]. destruct (child_json _ Htyped) as (b & Hb & _ & Htag & Hfrom). simplify_eq.
  unfold child_of_body in Hof. destruct frame as [version id request| |]; simpl in Hof;
    [|rewrite Hfrom in Hof; by simplify_eq/=..].
  destruct (effect_json _ _ _ Htyped) as (b' & Hb' & Hraw & Hreq). simplify_eq.
  rewrite Hraw in Hof. simpl in Hof. apply bind_Ok in Hof as (r & Hr%map_err_Ok & [= <-]).
  apply EffectRequest_parse_Ok in Hr as (_ & Hr & _). congruence.
Qed.

(** The supervisor hears no frame but those written, in their order. *)
Lemma reader_hears frames out out' :
  Forall child_typed frames → tx_for_each write_child frames out = Ok ((), out') →
  ∃ stdout, out' = out ++ stdout ∧
    ∀ fuel, omap read_ok (reader fuel stdout) `prefix_of` frames.
Proof.
  intros Hall. revert out. induction Hall as [|f frames Hf Hall IH]; intros out Hw.
  - apply tx_ret_Ok in Hw as [_ ->]. exists []. rewrite app_nil_r. split; [done|].
    intros [|fuel]; apply prefix_nil.
  - apply tx_bind_Ok in Hw as ([] & out1 & Hw1 & Hw).
    destruct (IH _ Hw) as (stdout & -> & Hr).
    apply map_err_Ok, write_frame_Ok in Hw1 as (body & Hbody & Hfr & ->).
    exists (wire body ++ stdout). rewrite app_assoc. split; [done|].
    intros [|fuel]; [apply prefix_nil|]. cbn [reader].
    destruct (read_child (wire body ++ stdout)) as [[f' rest]|e] eqn:Hread; [|apply prefix_nil].
    destruct (read_child_sent _ _ _ _ _ Hf Hbody Hfr Hread) as [-> ->].
    destruct (Hr fuel) as [k Hk]. destruct f; [exists k; exact (f_equal (cons _) Hk)..|].
    by exists frames.
Qed.

(** The answers the supervisor writes are the ones the worker is handed, and
    the runner ends once its parent's end of the pipe is closed. *)
Lemma answers_arrive answers out stdin taken :
  Forall (λ a, response_typed a ∧ EffectResponseFrame_check a = Ok ()) answers →
  tx_for_each (λ a, write_frame response_to_vec a MESSAGE_FRAME_BYTES) answers out =
    Ok ((), out ++ stdin) →
  (length answers ≤ taken)%nat → parent_input taken stdin = (answers, PARENT_GONE_EXIT).
Proof.
  intros Hall. revert out stdin taken.
  induction Hall as [|a answers [Htyped Hcheck] Hall IH]; intros out stdin taken Hw Hlen.
  - apply tx_ret_Ok in Hw as [_ Hw]. rewrite <-(app_nil_r out) in Hw at 2.
    apply (inj (app out)) in Hw as ->. by destruct taken.
  - apply tx_bind_Ok in Hw as ([] & out1 & Hw1 & Hw).
    apply write_frame_Ok in Hw1 as (body & Hbody & Hf & ->).
    destruct (response_json _ Htyped) as (b & Hb & _ & Hfrom). simplify_eq.
    pose proof Hw as Happ. apply tx_for_each_app in Happ as [rest Hrest].
    rewrite <-(assoc_L (++)) in Hrest. apply (inj (app out)) in Hrest as ->.
    rewrite (assoc_L (++)) in Hw. simpl in Hlen. destruct taken as [|taken]; [lia|].
    cbn [parent_input].
    assert (read_response (wire body ++ rest) = Ok (a, rest)) as ->.
    { unfold read_response. tx_step; [|tx_step; [by apply tx_lift_Ok|done]].
      unfold read_frame. tx_step; [by apply read_frame_bytes_wire|]. by apply tx_ok_or_Ok. }
    rewrite (IH _ rest taken Hw) by lia. done.
Qed.

Lemma event_loop_writes frames finished out :
  event_loop ((Frame <$> frames) ++ [Finished finished]) out =
  tx_for_each write_child (frames ++ final_frames finished) out.
Proof.
  revert out. induction frames as [|f frames IH]; intros out; [done|].
  cbn [fmap list_fmap app event_loop tx_for_each]. unfold mbind, tx_bind.
  by destruct (write_child f out) as [[[] out']|e].
Qed.
End pipe.

(** ** One session *)

Definition not_finish (f : ChildFrame) : Prop :=
  match f with FinishFrame _ _ _ => False | _ => True end.

Lemma prefix_finish l x l1 y :
  l ++ [x] `prefix_of` l1 ++ [y] → ¬ not_finish x → Forall not_finish l1 → l = l1 ∧ x = y.
Proof.
  intros [k Hk] Hx Hl1. destruct k as [|z k _] using rev_ind.
  - rewrite app_nil_r in Hk. by apply app_inj_tail in Hk as [-> ->].
  - rewrite (assoc_L (++)) in Hk. apply app_inj_tail in Hk as [-> _].
    apply Forall_app in Hl1 as [[_ Hl1]%Forall_app _].
    rewrite Forall_singleton in Hl1. by destruct Hx.
Qed.

Lemma script_not_finish id requests answers :
  Forall not_finish (frames_of (script id requests answers)).
Proof.
  revert id answers. induction requests as [|r requests IH]; intros id [|a answers]; simpl;
    try done.
  constructor; [done|apply IH].
Qed.

Lemma log_texts_frames l :
  log_texts l = omap (λ f, match f with LogFrame _ text => Some text | _ => None end) (frames_of l).
Proof.
  induction l as [|[f|r] l IH]; [done| |exact IH].
  destruct f as [| ? message|]; [exact IH| |exact IH].
  exact (f_equal (cons message) IH).
Qed.

Lemma script_logs id requests answers : log_texts (script id requests answers) = [].
Proof.
  revert id answers. induction requests as [|r requests IH]; intros id [|a answers]; [done..|].
  apply IH.
Qed.

(** All the runner writes before its finish. *)
Definition before_finish (finished : result AbiError AbiOutcome) : list ChildFrame :=
  match finished with Ok outcome => LogFrame 1 <$> ao_logs outcome | Err _ => [] end.
Definition finish_frame `{Base64} (finished : result AbiError AbiOutcome) : ChildFrame :=
  match finished with
  | Ok outcome => FinishFrame 1 (b64_encode <$> ao_output outcome) None
  | Err error => FinishFrame 1 None (Some (abi_error_code error))
  end.
Lemma final_frames_split `{Base64} finished :
  final_frames finished = before_finish finished ++ [finish_frame finished].
Proof. by destruct finished. Qed.

Lemma before_finish_logs finished :
  omap (λ f, match f with LogFrame _ text => Some text | _ => None end) (before_finish finished) =
  match finished with Ok outcome => ao_logs outcome | Err _ => [] end.
Proof. destruct finished as [o|]; simpl; [|done]. induction (ao_logs o); simpl; by f_equal. Qed.

Lemma before_finish_not finished : Forall not_finish (before_finish finished).
Proof. destruct finished as [o|]; simpl; [|done]. by apply Forall_fmap, Forall_true. Qed.

Lemma script_typed id requests answers :
  0 ≤ id → id + Z.of_nat (length requests) ≤ u64_max →
  Forall (λ r, is_u64 (er_ordinal r) = true) requests →
  Forall child_typed (frames_of (script id requests answers)).
Proof.
  intros Hid Hmax Hr. revert id answers Hid Hmax.
  induction Hr as [|r requests Hr Hrs IH]; intros id [|a answers] Hid Hmax; simpl in *; try done.
  constructor; [|apply IH; lia]. split; [done|]. split; [|done].
  apply in_range_spec. lia.
Qed.

Lemma final_typed `{Base64} finished : Forall child_typed (final_frames finished).
Proof.
  rewrite final_frames_split. apply Forall_app. split.
  - destruct finished as [o|]; simpl; [|done]. apply Forall_fmap, Forall_true. by split.
  - constructor; [|done]. by destruct finished.
Qed.

Lemma script_requests id requests answers :
  (length requests ≤ length answers)%nat →
  (omap frame_dispatch (frames_of (script id requests answers))).*2 = requests.
Proof.
  revert id answers. induction requests as [|r requests IH]; intros id [|a answers] Hl;
    simpl in Hl; [done|done|lia|].
  exact (f_equal (cons r) (IH (id + 1) answers ltac:(lia))).
Qed.

Lemma before_finish_requests finished : omap frame_dispatch (before_finish finished) = [].
Proof. destruct finished as [o|]; [|done]. unfold before_finish. by induction (ao_logs o). Qed.

Lemma parent_answers_length answers : parent_answers answers → (64 ≤ length answers)%nat.
Proof.
  intros Ha. destruct (Ha 63%nat) as (a & Hl & _); [lia|]. apply lookup_lt_Some in Hl. lia.
Qed.

(** A list the supervisor heard up to a finish is all the runner said. *)
Lemma heard_all used t rest said f finish :
  omap tick_frame (used ++ t :: rest) `prefix_of` said ++ [finish] →
  Forall not_finish said → tick_frame t = Some f → ¬ not_finish f →
  omap tick_frame used = said ∧ f = finish ∧ omap tick_frame rest = [].
Proof.
  intros Hp Hsaid Ht Hf.
  assert (omap tick_frame (t :: rest) = f :: omap tick_frame rest) as Hc by (simpl; by rewrite Ht).
  rewrite omap_app, Hc in Hp.
  assert (omap tick_frame used ++ [f] `prefix_of` said ++ [finish]) as Hp'.
  { etrans; [|exact Hp]. exists (omap tick_frame rest). by rewrite <-(assoc_L (++)). }
  apply prefix_finish in Hp' as [Hu ->]; [|done..]. split_and!; [done|done|].
  rewrite Hu in Hp.
  apply prefix_length in Hp. rewrite !length_app in Hp. simpl in Hp.
  apply length_zero_iff_nil. lia.
Qed.

(** ** The start *)

Lemma new_Ok os arch is_file caps abi self :
  new_with_abi_caps os arch is_file caps abi = Ok self →
  self = mkSupervisor caps abi ∧ Limits_validate caps caps = Ok caps ∧
  AbiCaps_validate abi = Ok abi.
Proof.
  unfold new_with_abi_caps. intros [_ Hn]%seq_Ok.
  apply bind_Ok in Hn as (caps' & Hc%map_err_Ok & Hn).
  apply bind_Ok in Hn as (abi' & Ha%map_err_Ok & [_ [= <-]]%guard_Ok).
  split_and!; [done| |].
  - rewrite Hc. by apply bind_Ok in Hc as (? & _ & [= <-]).
  - rewrite Ha. by apply guard_Ok in Ha as [_ [= <-]].
Qed.

Section start.
Context `{LimitsJsonLaws, FrameJsonLaws, !Base64, !Base64Laws}.

(** The supervisor's command line, read back by the runner. *)
Lemma parse_spawn_args path caps abi args :
  limits_u64 caps → 0 ≤ host_calls abi → 0 ≤ cap_log_bytes abi →
  Limits_validate caps caps = Ok caps → AbiCaps_validate abi = Ok abi →
  spawn_args path caps abi = Ok args → parse_operator_caps args = Ok (caps, abi).
Proof.
  intros Htyped Hh Hl Hcaps Habi Hs.
  apply bind_Ok in Hs as (text & Ht%ok_or_Ok & [= <-]).
  pose proof (AbiCaps_validate_bounds _ Habi) as [Hhm Hlm]. unfold LOG_BYTES in Hlm.
  unfold parse_operator_caps. simpl.
  rewrite (parse_unsigned_pretty u32_max) by (unfold u32_max; lia). simpl.
  rewrite (parse_unsigned_pretty u64_max) by (unfold u64_max; lia). simpl.
  rewrite (limits_from_to_string caps text Htyped Ht). simpl.
  rewrite Hcaps. simpl. destruct abi. simpl in *. by rewrite Habi.
Qed.

Lemma read_start_sent start rest stdin :
  start_typed start → StartFrame_check start = Ok () →
  write_frame start_to_vec start START_FRAME_BYTES [] = Ok ((), stdin) →
  read_start (stdin ++ rest) = Ok (start, rest).
Proof.
  intros Htyped Hcheck (body & Hbody & Hf & ->)%write_frame_Ok.
  destruct (start_json _ Htyped) as (b & Hb & _ & Hfrom). simplify_eq.
  unfold read_start. tx_step; [|tx_step; [by apply tx_lift_Ok|done]].
  unfold read_frame. tx_step; [by apply read_frame_bytes_wire|]. by apply tx_ok_or_Ok.
Qed.
End start.

Module SessionDemo.
Import Reference JsonReference MemoryReference RunnerDemo.

#[global] Instance limits_json_ref : LimitsJson := {|
  limits_from_str s := of_bytes (bytes s);
  limits_to_string l := Some (text (to_bytes l));
|}.
#[global] Instance limits_json_ref_laws : LimitsJsonLaws.
Proof.
  intros caps t _ [= <-]. change (of_bytes (bytes (text (to_bytes caps))) = Some caps).
  rewrite bytes_text. apply of_to_bytes.
Qed.

(** The runner of [RunnerDemo], and what it writes. *)
Definition execute (s0 : State (IpcDispatcher * list Asked)) :
    result RuntimeError Z * option (State (IpcDispatcher * list Asked)) :=
  (Ok 0, Some (w_state final)).
Definition finished : result AbiError AbiOutcome := Eval vm_compute in
  execute_abi execute [x07] Limits_default AbiDemo.caps (IpcDispatcher_new answers, []).
Definition dispatched : list ChildFrame := frames_of (ip_talk (s_dispatcher (w_state final)).1).
Definition write : Tx (list byte) RunnerError unit :=
  event_loop ((Frame <$> dispatched) ++ [Finished finished]).
Definition stdout : list byte := Eval vm_compute in tx_state write [].
Lemma runner_wrote : write [] = Ok ((), stdout).
Proof. vm_compute. reflexivity. Qed.

(** A supervisor that reads it in three iterations and answers in a fourth. *)
Definition heard : list FrameEvent := Eval vm_compute in FrameRead <$> reader 8 stdout.
Definition ticks : list Tick :=
  match heard with
  | [request; log; finish] =>
    [SupervisionDemo.tick DispatchEmpty request;
     SupervisionDemo.tick (DispatchDone (Ok SupervisionDemo.reply)) FrameTimeout;
     SupervisionDemo.tick DispatchEmpty log; SupervisionDemo.tick DispatchEmpty finish]
  | _ => []
  end.
Lemma heard_prefix : omap tick_read ticks `prefix_of` reader 8 stdout.
Proof. exists []. vm_compute. reflexivity. Qed.
Definition outcome : SupervisedOutcome := mkSupervisedOutcome (Some [x02; x00; x02; x02]) ["hi"%string].
Lemma session_succeeds :
  run SupervisionDemo.supervisor [x00] [x07] Limits_default SupervisionDemo.launch ticks =
  Some (Ok outcome).
Proof. vm_compute. reflexivity. Qed.

(** The same supervisor's start of it. *)
Definition start_write : Tx (list byte) ProtocolError unit :=
  write_frame start_to_vec (start_frame [x00] [x07] Limits_default) START_FRAME_BYTES.
Definition stdin : list byte := Eval vm_compute in tx_state start_write [].
Lemma start_wrote : start_write [] = Ok ((), stdin).
Proof. vm_compute. reflexivity. Qed.
Definition args : list (option string) := Eval vm_compute in
  match spawn_args (Some "effectlatch-runner"%string) Limits_default AbiDemo.caps with
  | Ok args => args
  | Err _ => []
  end.
Definition descriptors : option (list (option (option string * option bool))) :=
  Some [Some (Some "0"%string, None); Some (Some "1"%string, None); Some (Some "2"%string, None);
        Some (Some "3"%string, Some true)].
Lemma prepares : ∃ prepared,
  prepare SupervisionDemo.supervisor [x00] [x07] Limits_default SupervisionDemo.launch = Ok prepared.
Proof. eexists. vm_compute. reflexivity. Qed.
End SessionDemo.

(** ** Properties *)

(** C16: the runner starts with exactly what its supervisor was given.  A
    supervisor that was accepted spawns its runner with a command line and, once
    a run was prepared, writes it a start frame; the runner, in an empty
    environment and with no other descriptors, accepts both, and hands its worker
    the module, the input, the limits and the caps of the supervisor, leaves what
    follows on its input unread, and the limits pass the validation it repeats; with
    its threads started, all it then does is to write what its worker sends. *)
Theorem session_start `{LimitsJsonLaws, FrameJsonLaws, !Base64, !Base64Laws} os arch is_file caps abi
    self module input limits launch prepared path args descriptors stdin rest :
  new_with_abi_caps os arch is_file caps abi = Ok self →
  limits_u64 caps → limits_u64 limits → 0 ≤ host_calls abi → 0 ≤ cap_log_bytes abi →
  prepare self module input limits launch = Ok prepared →
  spawn_args path (operator_caps self) (abi_caps self) = Ok args →
  write_frame start_to_vec (start_frame module input limits) START_FRAME_BYTES [] = Ok ((), stdin) →
  verify_descriptor_allowlist descriptors = Ok () →
  runner_start args [] descriptors (stdin ++ rest) =
    Ok (start_frame module input limits, module, input, caps, abi, rest) ∧
  (∀ execute out, runner_run args [] descriptors (stdin ++ rest) (true, true) execute out =
     event_loop (execute (start_frame module input limits, module, input, caps, abi, rest)) out) ∧
  Limits_validate limits caps = Ok limits.
Proof.
  intros Hnew Hcaps Hlimits Hh Hl Hprep Hargs Hstdin Hdesc.
  apply new_Ok in Hnew as (-> & Hvcaps & Hvabi). simpl in *.
  destruct prepared as [deadline lp]. apply prepare_Ok in Hprep as (_ & _ & _ & Hvlim & Hcheck).
  pose proof (parse_spawn_args _ _ _ _ Hcaps Hh Hl Hvcaps Hvabi Hargs) as Hparse.
  assert (start_typed (start_frame module input limits)) as Htyped by (by split).
  assert (runner_start args [] descriptors (stdin ++ rest) =
    Ok (start_frame module input limits, module, input, caps, abi, rest)) as Hrs.
  { unfold runner_start. rewrite Hparse. simpl. rewrite Hdesc. simpl.
    rewrite (read_start_sent _ rest _ Htyped Hcheck Hstdin). simpl. by rewrite !b64_decode_encode. }
  split_and!; [exact Hrs| |exact Hvlim]. intros execute out. unfold runner_run. by rewrite Hrs.
Qed.

Lemma session_start_witness :
  let _ := SessionDemo.limits_json_ref in let _ := JsonReference.effect_json_ref in
  let _ := JsonReference.frame_json_ref in let _ := Reference.b64_ref in
  runner_start SessionDemo.args [] SessionDemo.descriptors (SessionDemo.stdin ++ [x07]) =
  Ok (start_frame [x00] [x07] Limits_default, [x00], [x07], Limits_default, AbiDemo.caps, [x07]).
Proof.
  intros l e f b. destruct SessionDemo.prepares as [prepared Hp].
  exact (proj1 (session_start (H0 := SessionDemo.limits_json_ref_laws)
    (H3 := JsonReference.frame_json_ref_laws) (H5 := Reference.b64_ref_laws)
    "linux" "x86_64" true Limits_default AbiDemo.caps SupervisionDemo.supervisor [x00] [x07]
    Limits_default SupervisionDemo.launch prepared (Some "effectlatch-runner"%string)
    SessionDemo.args SessionDemo.descriptors SessionDemo.stdin [x07]
    eq_refl ltac:(by vm_compute) ltac:(by vm_compute) ltac:(done) ltac:(done) Hp eq_refl
    SessionDemo.start_wrote eq_refl)).
Defined.

(** C15: a supervised run that succeeds reports what its guest did.  Let
    any guest run in an honest runner, whose frames (its effect requests, then
    the logs and the finish of [execute_abi]'s verdict) are written to a pipe
    that the supervisor's thread reads.  If the supervisor succeeds, then the
    guest succeeded: the outcome is exactly its output and its log messages, and
    the requests the supervisor handed to its broker's [dispatch_if_current] are
    exactly the guest's effects, in their order. *)
Theorem session_outcome {M} `{GuestMemoryLaws M, FrameJsonLaws, !Base64, !Base64Laws} answers
    (mem : option M) guest_input caps requested execute evs w ran stdout fuel
    self module input limits launch ticks out :
  parent_answers answers →
  AbiCaps_validate caps = Ok caps → 0 ≤ host_calls caps → 0 ≤ cap_log_bytes caps →
  Z.of_nat (length guest_input) ≤ PAYLOAD_BYTES →
  let d0 := (IpcDispatcher_new answers, []) in
  let s0 := initial_state guest_input caps requested d0 in
  guest_run (mkWorld s0 mem) evs w → execute s0 = (ran, Some (w_state w)) →
  let requests := ((s_dispatcher (w_state w)).2).*1 in
  Forall (λ request, is_u64 (er_ordinal request) = true) requests →
  let finished := execute_abi execute guest_input requested caps d0 in
  let dispatched := frames_of (ip_talk (s_dispatcher (w_state w)).1) in
  event_loop ((Frame <$> dispatched) ++ [Finished finished]) [] = Ok ((), stdout) →
  omap tick_read ticks `prefix_of` reader fuel stdout →
  run self module input limits launch ticks = Some (Ok out) →
  (∃ lp, supervise self module input limits launch ticks = Some (Ok (out, lp)) ∧
     (lp_dispatched lp).*2 = requests) ∧
  ∃ o, finished = Ok o ∧ so_output out = ao_output o ∧ so_logs out = ao_logs o.
Proof.
  intros Hanswers Hcaps Hh Hl Hinput d0 s0 Hrun Hex requests Hu64 finished dispatched Hw Hreads Hout.
  destruct (honest_words answers Hanswers mem guest_input caps requested execute evs w ran
    Hcaps Hh Hl Hinput Hrun Hex) as [Htalk _ Hcount Hfin].
  fold d0 finished requests in Htalk, Hcount, Hfin.
  pose proof (parent_answers_length _ Hanswers) as Hlen.
  rewrite event_loop_writes, final_frames_split in Hw.
  apply reader_hears in Hw as (out0 & -> & Hheard).
  2: { apply Forall_app. unfold dispatched. rewrite Htalk, <-final_frames_split.
       split; [|apply final_typed]. apply script_typed; [lia|unfold u64_max; lia|done]. }
  apply (prefix_omap read_ok) in Hreads. rewrite reads_frames in Hreads.
  specialize (Hheard fuel). rewrite (assoc_L (++)) in Hheard.
  pose proof (transitivity Hreads Hheard) as Hp.
  apply run_supervise in Hout as [lp Hout]. pose proof Hout as (start_bytes & used & t & rest
    & version & output & -> & Hlp & _ & _ & Hf & Hhist & _ & _)%supervise_outcome.
  destruct Hf as [Hframe _ _ _ Houtput Hlogs]. rewrite (lo_logs _ _ Hlp), log_texts_frames, Hhist in Hlogs.
  destruct (heard_all _ _ _ _ _ _ Hp ltac:(apply Forall_app; split;
    [unfold dispatched; rewrite Htalk; apply script_not_finish|apply before_finish_not]) Hframe
    (λ H, H)) as (Hused & Hfinish & Hrest).
  rewrite Hused, omap_app in Hlogs. unfold dispatched in Hlogs.
  rewrite <-log_texts_frames, before_finish_logs in Hlogs.
  assert (log_texts (ip_talk (s_dispatcher (w_state w)).1) = []) as Hquiet
    by (rewrite Htalk; apply script_logs).
  split.
  - exists lp. split; [done|].
    rewrite (lo_dispatched _ _ Hlp), Hhist, Hused, omap_app, before_finish_requests, app_nil_r.
    unfold dispatched. rewrite Htalk. by apply script_requests; lia.
  - destruct finished as [o|e]; [|by injection Hfinish]. injection Hfinish as _ ->.
    exists o. split; [done|]. split.
    + destruct (ao_output o) as [b|]; [|done]. destruct Houtput as (b' & Hb & ->).
      by rewrite b64_decode_encode in Hb.
    + by rewrite Hlogs, Hquiet.
Qed.

Lemma session_outcome_witness :
  let _ := JsonReference.effect_json_ref in let _ := JsonReference.frame_json_ref in
  let _ := Reference.b64_ref in
  ∃ lp, supervise SupervisionDemo.supervisor [x00] [x07] Limits_default SupervisionDemo.launch
    SessionDemo.ticks = Some (Ok (SessionDemo.outcome, lp)) ∧
    (lp_dispatched lp).*2 = ((s_dispatcher (w_state RunnerDemo.final)).2).*1.
Proof.
  intros e f b.
  exact (proj1 (session_outcome (H0 := MemoryReference.writes_memory_laws)
    (H3 := JsonReference.frame_json_ref_laws) (H5 := Reference.b64_ref_laws)
    RunnerDemo.answers _ _ _ _ SessionDemo.execute _ _ _ SessionDemo.stdout 8
    SupervisionDemo.supervisor [x00] [x07] Limits_default SupervisionDemo.launch SessionDemo.ticks
    SessionDemo.outcome RunnerDemo.answers_ok AbiDemo.caps_ok ltac:(done) ltac:(done)
    AbiDemo.input_ok RunnerDemo.runner_runs eq_refl ltac:(by repeat constructor)
    SessionDemo.runner_wrote SessionDemo.heard_prefix SessionDemo.session_succeeds)).
Defined.
