(* ===== verification/Dialogue.v ===== *)
(** * Dialogue: a supervisor that hears an honest runner

    What [Session] shows of a run that succeeded is half of the composition; the
    other half is that the supervisor does not take an honest runner for a broken
    one.  The lemmas here say so for one message at a time: of [said], the
    conversation at the runner's end, the supervisor accepts the next frame, and it
    can send the next answer.  [Joint] puts them together. *)
From S2P Require Export Session.

Section answering.
Context `{FrameJson, EffectRequestJson, Base64}.

(** What the supervisor answers in an iteration, if its broker has one. *)
Definition answer_of (t : Tick) (lp : Loop) : option EffectResponseFrame :=
  match lp_pending lp, tk_dispatch t with
  | Some (id, request), DispatchDone result =>
    match response_of request result with
    | Ok response => Some (mkEffectResponseFrame PROTOCOL_VERSION "effect_response" id response)
    | Err _ => None
    end
  | _, _ => None
  end.

(** It fits a frame. *)
Definition answer_fits (t : Tick) (lp : Loop) : bool :=
  match answer_of t lp with
  | Some frame => is_ok (tx_result (write_frame response_to_vec frame MESSAGE_FRAME_BYTES) [])
  | None => true
  end.

End answering.

Lemma converse_prefix start h said :
  h `prefix_of` said → is_Some (converse start said) → is_Some (converse start h).
Proof.
  intros [l ->] [s Hs]. rewrite converse_app in Hs. by destruct (converse start h); [eexists|].
Qed.

(** ** Returns that blame the runner *)

Definition accepted {A} (m : Run A) : Prop := ∀ e, m ≠ Err (Some (Err (Protocol e))).

Create HintDb accepted.

Lemma accepted_bind {A B} (m : Run A) (k : A → Run B) :
  accepted m → (∀ a, m = Ok a → accepted (k a)) → accepted (m ≫= k).
Proof. intros Hm Hk e [He|(a & Ha & He)]%bind_Err; [by apply Hm in He|by apply Hk in He]. Qed.

Lemma accepted_ret {A} (a : A) : accepted (mret a).
Proof. done. Qed.

Lemma accepted_if {A} (c : bool) (m1 m2 : Run A) :
  accepted m1 → accepted m2 → accepted (if c then m1 else m2).
Proof. by destruct c. Qed.

Lemma accepted_try {A} (r : result SupervisorError A) :
  (∀ e, r ≠ Err (Protocol e)) → accepted (try_ r).
Proof. intros Hr e He. destruct r as [|e']; [done|]. injection He as ->. by destruct (Hr e). Qed.

Lemma accepted_lease lease : accepted (try_ (check_lease lease)).
Proof. by apply accepted_try; destruct lease. Qed.

#[export] Hint Resolve accepted_ret accepted_if accepted_lease : accepted.

Lemma accepted_write_loop deadline ticks : accepted (write_loop deadline ticks).
Proof.
  induction ticks as [|t ticks IH]; [done|]. simpl.
  apply accepted_bind; [auto with accepted|]. intros _ _.
  apply accepted_bind; [by apply accepted_if|]. intros _ _.
  by destruct (wt_event t) as [[]| |].
Qed.

Lemma accepted_write child stdin frame_bytes spawned deadline ticks :
  accepted (write_bounded child stdin frame_bytes spawned deadline ticks).
Proof.
  unfold write_bounded. do 2 (apply accepted_bind; [by apply accepted_if|]; intros _ _).
  apply accepted_bind; [apply accepted_write_loop|done].
Qed.

Lemma accepted_wait_loop child deadline ticks : accepted (wait_loop child deadline ticks).
Proof.
  induction ticks as [|t ticks IH]; intros e; simpl; [done|].
  destruct (deadline <=? wa_now t); simpl; [done|]. destruct child; simpl; [|done].
  destruct (wa_try_wait t) as [[|]|]; simpl; try done.
  destruct (deadline <=? wa_later t); simpl; [done|]. apply IH.
Qed.

Lemma accepted_wait child now deadline ticks : accepted (wait_bounded child now deadline ticks).
Proof.
  unfold wait_bounded. apply accepted_bind; [|intros; apply accepted_wait_loop].
  apply accepted_try. intros e. by destruct (instant_checked_add _ _).
Qed.
#[export] Hint Resolve accepted_write accepted_wait : accepted.

(** ** An honest runner is not blamed *)

Section honest.
Context `{FrameJson, EffectRequestJson, Base64Laws}.
Variables (start : ParentSequence) (said : list message).
Hypothesis Hstart : ps_pending start = None.
Hypothesis Hsaid : is_Some (converse start said).
Hypothesis Hchecked : Forall (λ f, child_check f = Ok ()) (frames_of said).

(** The supervisor's conversation so far is the runner's. *)
Record in_step (lp : Loop) : Prop := {
  is_ok_loop : loop_ok start lp;
  is_prefix : lp_history lp `prefix_of` said;
}.

Lemma next_accepted lp m :
  in_step lp → lp_history lp ++ [m] `prefix_of` said → is_Some (exchange (lp_sequence lp) m).
Proof.
  intros [Hlp _] Hp. apply (converse_prefix start) in Hp; [|done].
  rewrite converse_app, (lo_converse _ _ Hlp) in Hp. simpl in Hp.
  destruct (exchange (lp_sequence lp) m); [by eexists|by destruct Hp].
Qed.

Lemma response_of_checked request result id response :
  response_of request result = Ok response →
  EffectResponseFrame_check
    (mkEffectResponseFrame PROTOCOL_VERSION "effect_response" id response) = Ok ().
Proof.
  destruct result as [reply|[| |failure]]; simpl; try done.
  - destruct (valid_reply _ _); [|done]. by intros [= <-].
  - intros [= <-]. by destruct failure.
Qed.

(** An iteration's dispatch changes nothing, or answers the pending request. *)
Lemma poll_answers child deadline t lp lp' :
  poll_dispatch child deadline t lp = Ok lp' →
  (lp' = lp ∧ answer_of t lp = None) ∨
  (∃ frame b, is_Some (lp_pending lp) ∧ answer_of t lp = Some frame ∧ lp_pending lp' = None ∧
     lp_history lp' = lp_history lp ++ [Responded frame] ∧
     write_frame response_to_vec frame MESSAGE_FRAME_BYTES [] = Ok ((), b) ∧
     lp_written lp' = lp_written lp ++ b).
Proof.
  unfold answer_of. intros [[-> Hn]|(id & request & result & response & seq & b & Hpend & Hd & Hresp
    & _ & Hb & ->)]%poll_dispatch_done.
  - left. split; [done|]. destruct Hn as [->| ->]; [done|]. by destruct (lp_pending lp) as [[]|].
  - right. rewrite Hpend, Hd, Hresp. do 2 eexists. by split_and!; [eexists|..].
Qed.

Lemma poll_accepted child deadline t lp :
  loop_ok start lp → answer_fits t lp = true → accepted (poll_dispatch child deadline t lp).
Proof.
  intros Hlp Hfit. unfold answer_fits, answer_of in Hfit. unfold poll_dispatch.
  destruct (lp_pending lp) as [[id request]|] eqn:Hpend; [|done].
  destruct (tk_dispatch t) as [|result|]; [done| |done].
  apply accepted_bind.
  { intros e. destruct result as [reply|[| |]]; simpl; try done. by destruct (valid_reply _ _). }
  intros response Hresp. rewrite Hresp in Hfit.
  pose proof (response_of_checked _ _ id _ Hresp) as Hcheck. cbv zeta in *.
  set (frame := mkEffectResponseFrame _ _ _ _) in *.
  apply accepted_bind.
  { unfold respond. rewrite Hcheck, (lo_pending _ _ Hlp), Hpend. simpl.
    by rewrite bool_decide_eq_true_2. }
  intros seq _. apply accepted_bind; [|intros [u b] _; apply accepted_bind; auto with accepted].
  apply accepted_try. intros e He. unfold tx_result in Hfit. by destruct (write_frame _ _ _ _).
Qed.

Lemma finish_accepted {A} child deadline t lp version output_b64 error_code :
  child_check (FinishFrame version output_b64 error_code) = Ok () →
  accepted (handle_finish child deadline t lp output_b64 error_code : Run A).
Proof.
  intros (_ & Hout & _)%child_check_Ok. unfold handle_finish.
  apply accepted_bind; [auto with accepted|]. intros status _.
  apply accepted_bind; [by apply accepted_if|]. intros _ _.
  apply accepted_bind; [by destruct error_code|]. intros _ _.
  apply accepted_bind.
  - destruct output_b64 as [text|]; [|done]. destruct (Hout text eq_refl) as (b & -> & _).
    by rewrite b64_decode_encode.
  - intros output _. apply accepted_bind; [|done]. apply accepted_try. intros e.
    unfold disarm. by destruct (_ || _).
Qed.

Lemma handle_frame_accepted child deadline t lp f :
  in_step lp → lp_history lp ++ [Observed f] `prefix_of` said →
  accepted (handle_frame child deadline t lp f).
Proof.
  intros Hin Hp. pose proof Hin as [Hlp _]. destruct (next_accepted _ _ Hin Hp) as [seq' Hex].
  unfold exchange in Hex. unfold handle_frame.
  destruct (observe (lp_sequence lp) f) as [[u|e] seq] eqn:Ho; [|done].
  apply observe_Ok in Ho as [Hnone _]. rewrite (lo_pending _ _ Hlp) in Hnone.
  apply fmap_None, (lo_waiting _ _ Hlp) in Hnone. apply accepted_bind; [done|].
  intros seq2 _. cbv zeta. rewrite Hnone.
  destruct f as [version id request|version text|version output code]; [|done|].
  - apply accepted_bind; [done|]. intros _ _. apply accepted_bind; [by apply accepted_if|]. done.
  - apply accepted_bind; [done|]. intros _ _. apply (finish_accepted _ _ _ _ version).
    rewrite Forall_forall in Hchecked. apply Hchecked. destruct Hp as [l ->].
    unfold frames_of. rewrite !omap_app. apply elem_of_app. left. apply elem_of_app. right.
    by apply list_elem_of_singleton.
Qed.

End honest.
