(* ===== verification/Joint.v ===== *)
(** * Joint: a supervisor and an honest runner, each at its own pace

    The two run as they do in two processes, joined by two pipes of bytes, the
    runner's standard output and its standard input, and any interleaving of their
    steps is a run of the pair.  The bytes are framed and read back with the code
    of [Ipc] at both ends, so a frame that does not fit, or that the other end
    refuses, is a step like any other. *)
From S2P Require Export Dialogue.

(** ** The pair

    [jo_todo] is what the runner has still to write or to be answered, of the
    conversation its guest leads it through; [jo_stdin] is what follows the start
    frame it has read. *)
Record Joint := mkJoint {
  jo_loop : Loop;
  jo_todo : list message;
  jo_stdout : list byte;
  jo_stdin : list byte;
}.

Section joint.
Context `{FrameJson, EffectRequestJson, Base64}.
Variables (child : RunnerChild) (deadline : Z).

(** The runner has ended, and closed its end of the pipe: it has said all, or
    could not write its next frame. *)
Definition runner_ended (j : Joint) : Prop :=
  match jo_todo j with
  | [] => True
  | Observed frame :: _ => is_ok (tx_result (write_child frame) (jo_stdout j)) = false
  | Responded _ :: _ => False
  end.

(** What an iteration takes from the thread that reads the runner's output: the
    next frame, or the error of reading it; of an empty pipe nothing is read
    before the runner has closed it. *)
Definition takes (t : Tick) (j : Joint) (rest : list byte) : Prop :=
  match tick_read t with
  | Some (Ok frame) => read_child (jo_stdout j) = Ok (frame, rest)
  | Some (Err e) =>
    read_child (jo_stdout j) = Err e ∧ (jo_stdout j = [] → runner_ended j)
  | None => rest = jo_stdout j
  end.

Inductive joint_step : Joint → Joint → Prop :=
| runner_writes lp frame todo stdout stdout' stdin :
    write_child frame stdout = Ok ((), stdout') →
    joint_step (mkJoint lp (Observed frame :: todo) stdout stdin) (mkJoint lp todo stdout' stdin)
| runner_reads lp response todo stdout stdin stdin' :
    read_response stdin = Ok (response, stdin') →
    joint_step (mkJoint lp (Responded response :: todo) stdout stdin)
      (mkJoint lp todo stdout stdin')
| supervisor_iterates j lp t rest sent :
    takes t j rest → iteration child deadline t (jo_loop j) = Ok lp →
    lp_written lp = lp_written (jo_loop j) ++ sent →
    joint_step j (mkJoint lp (jo_todo j) rest (jo_stdin j ++ sent)).

(** Somebody is at work: the runner can go on, the supervisor has a frame to
    hear or an effect to answer, or an answer is on its way to the runner that
    waits for one. *)
Definition runner_moves (j : Joint) : Prop :=
  match jo_todo j with
  | Observed frame :: _ => is_ok (tx_result (write_child frame) (jo_stdout j)) = true
  | Responded response :: _ => ∃ rest, read_response (jo_stdin j) = Ok (response, rest)
  | [] => False
  end.
Definition at_work (j : Joint) : Prop :=
  runner_moves j ∨ jo_stdout j ≠ [] ∨ is_Some (lp_pending (jo_loop j)) ∨
  ∃ sent awaited todo, read_response (jo_stdin j) = Ok (sent, []) ∧
    jo_todo j = Responded awaited :: todo.

(** The texts that are too long: for any frame, and for an effect request. *)
Definition oversized {T} (to_vec : T → option (list byte)) (x : T) : Prop :=
  ∃ body, to_vec x = Some body ∧ 128 * 1024 < Z.of_nat (length body).
Definition overlong (request : EffectRequest) : Prop :=
  16 * 1024 < Z.of_nat (length (effect_request_text request)).

(** The runner cannot write what it has to write next. *)
Definition unwritable (j : Joint) : Prop :=
  ∃ frame todo, jo_todo j = Observed frame :: todo ∧ oversized child_to_vec frame.

(** Why an iteration may end in a protocol error: the answer it should send does
    not fit a frame; the next frame on the runner's output is an effect request
    whose text is longer than [read_child] takes; or there is none, and the frame
    the runner should have written does not fit a frame. *)
Inductive excuse (said : list message) (t : Tick) (j : Joint) : Prop :=
| answer_oversized id request result response :
    lp_pending (jo_loop j) = Some (id, request) → tk_dispatch t = DispatchDone result →
    answer_for request result response →
    oversized response_to_vec (mkEffectResponseFrame 1 "effect_response" id response) →
    excuse said t j
| request_overlong version id request body rest :
    EffectRequestFrame version id request ∈ frames_of said →
    child_to_vec (EffectRequestFrame version id request) = Some body →
    jo_stdout j = wire body ++ rest → overlong request → excuse said t j
| frame_oversized :
    jo_stdout j = [] → unwritable j → excuse said t j.

(** What the two have still to do of [said]. *)
Definition joint_left (said : list message) (j : Joint) : nat :=
  length (jo_todo j) + (length said - length (lp_history (jo_loop j))).
End joint.

(** ** Frames on a pipe *)

Inductive carries {T} (to_vec : T → option (list byte)) : list T → list byte → Prop :=
| carries_nil : carries to_vec [] []
| carries_cons x l body b :
    to_vec x = Some body → framed MESSAGE_FRAME_BYTES body → carries to_vec l b →
    carries to_vec (x :: l) (wire body ++ b).

Lemma carries_snoc {T} (to_vec : T → option (list byte)) l b x out :
  carries to_vec l b → write_frame to_vec x MESSAGE_FRAME_BYTES b = Ok ((), out) →
  carries to_vec (l ++ [x]) out.
Proof.
  intros Hl (body & Hb & Hf & ->)%write_frame_Ok. induction Hl as [|y l body' b Hy Hf' Hl IH].
  - simpl. rewrite <-(app_nil_r (wire body)). constructor; [done..|constructor].
  - rewrite <-(assoc_L (++)). by constructor.
Qed.

Lemma wire_not_nil body rest : wire body ++ rest ≠ [].
Proof.
  intros Hn. apply (f_equal length) in Hn. unfold wire in Hn.
  rewrite !length_app, length_4 in Hn. simpl in Hn. lia.
Qed.

Lemma carries_empty {T} (to_vec : T → option (list byte)) l b :
  carries to_vec l b → (b = [] ↔ l = []).
Proof. intros []; [done|]. split; [by intros ?%wire_not_nil|done]. Qed.

(** A frame that cannot be written is too big for one. *)
Lemma write_frame_oversized {T} (to_vec : T → option (list byte)) x body out :
  to_vec x = Some body → body ≠ [] →
  is_ok (tx_result (write_frame to_vec x MESSAGE_FRAME_BYTES) out) = false → oversized to_vec x.
Proof.
  intros Hb Hne Hw. exists body. split; [done|]. apply Z.lt_nge. intros Hle.
  assert (write_frame to_vec x MESSAGE_FRAME_BYTES out = Ok ((), out ++ wire body)) as Hok.
  { apply write_frame_Ok. exists body. split_and!; [done| |done].
    unfold framed, MESSAGE_FRAME_BYTES, u32_max. destruct body; simpl in *; [done|]. lia. }
  unfold tx_result in Hw. by rewrite Hok in Hw.
Qed.

Section pipes.
Context `{FrameJsonLaws, !Base64, !Base64Laws}.

Lemma write_child_oversized frame out :
  child_typed frame → is_ok (tx_result (write_child frame) out) = false →
  oversized child_to_vec frame.
Proof.
  intros Htyped Hw. destruct (child_json _ Htyped) as (body & Hb & Hne & _).
  apply (write_frame_oversized _ _ body out); [done..|]. unfold tx_result, write_child in *.
  by destruct (write_frame _ _ _ _) as [[]|].
Qed.

(** Reading the next frame of an honest runner: it is what was written, and is
    refused only if it is an overlong request. *)
Lemma read_child_next f frames stdout :
  child_typed f → ChildFrame_version f = 1 → child_check f = Ok () →
  carries child_to_vec (f :: frames) stdout →
  ∃ body rest, child_to_vec f = Some body ∧ stdout = wire body ++ rest ∧
    carries child_to_vec frames rest ∧
    match read_child stdout with
    | Ok (f', rest') => f' = f ∧ rest' = rest
    | Err _ => ∃ version id request, f = EffectRequestFrame version id request ∧ overlong request
    end.
Proof.
  intros Htyped Hver Hcheck Hc. inversion Hc as [|? ? body rest Hb Hf Hrest]; subst.
  exists body, rest. split_and!; [done..|].
  destruct (read_child (wire body ++ rest)) as [[f' rest']|e] eqn:Hread.
  { by eapply read_child_sent. }
  apply child_check_Ok in Hcheck.
  assert (∀ version id request, f = EffectRequestFrame version id request → ¬ overlong request →
    Z.of_nat (length (effect_request_text request)) ≤ EFFECT_REQUEST_BYTES) as Hshort
    by (unfold overlong, EFFECT_REQUEST_BYTES; intros; lia).
  assert (child_sendable f → False) as Hno.
  { intros Hsend. destruct (child_body_decodes _ _ Hsend Hb) as (kind & Hk & Hd).
    assert (read_child (wire body ++ rest) = Ok (f, rest)) as Hr
      by (apply read_child_Ok; eauto 10). by rewrite Hr in Hread. }
  destruct f as [version id request| |]; [|destruct Hno; by split..].
  exists version, id, request. split; [done|]. unfold overlong. apply Z.nle_gt. intros Hle.
  apply Hno. split; [done..|]. by intros ? ? ? [= -> -> ->].
Qed.

(** Reading the next answer of the supervisor. *)
Lemma read_response_next response answers stdin :
  response_typed response → EffectResponseFrame_check response = Ok () →
  carries response_to_vec (response :: answers) stdin →
  ∃ rest, read_response stdin = Ok (response, rest) ∧ carries response_to_vec answers rest.
Proof.
  intros Htyped Hcheck Hc. inversion Hc as [|? ? body rest Hb Hf Hrest]; subst.
  exists rest. split; [|done].
  destruct (response_json _ Htyped) as (b & Hb' & _ & Hfrom). simplify_eq.
  unfold read_response. tx_step; [|tx_step; [by apply tx_lift_Ok|done]].
  unfold read_frame. tx_step; [by apply read_frame_bytes_wire|]. by apply tx_ok_or_Ok.
Qed.
End pipes.

(** ** What their pipes hold *)

Section invariant.
Context `{FrameJsonLaws, !Base64, !Base64Laws}.
Variables (start : ParentSequence) (said : list message).
Hypothesis Hstart : ps_pending start = None.
Hypothesis Hsaid : is_Some (converse start said).
Hypothesis Htyped : Forall child_typed (frames_of said).
Hypothesis Hversion : Forall (λ f, ChildFrame_version f = 1) (frames_of said).
Hypothesis Hchecked : Forall (λ f, child_check f = Ok ()) (frames_of said).
Hypothesis Hfinish : Exists (λ f, ¬ not_finish f) (frames_of said).

(** Either the supervisor lags behind by the frames on the runner's output, or
    the runner by the one answer on its input. *)
Inductive lag (done history : list message) :
    list ChildFrame → list EffectResponseFrame → Prop :=
| frames_unheard stdout :
    done = history ++ (Observed <$> stdout) → lag done history stdout []
| answer_unread response :
    history = done ++ [Responded response] → lag done history [] [response].

(** The conversation of a pair whose pipes hold these frames and answers. *)
Record joint_talk (lp : Loop) (todo : list message) (stdout : list ChildFrame)
    (stdin : list EffectResponseFrame) : Prop := {
  jk_loop : loop_ok start lp;
  jk_open : Forall not_finish (frames_of (lp_history lp));
  jk_lag : ∃ done, said = done ++ todo ∧ lag done (lp_history lp) stdout stdin;
}.

Lemma pending_hears lp m :
  loop_ok start lp → lp_history lp ++ [m] `prefix_of` said →
  match m with Observed _ => lp_pending lp = None | Responded _ => is_Some (lp_pending lp) end.
Proof.
  intros Hlp Hp. destruct (next_accepted start said Hsaid lp m) as [s Hs]; [|done|].
  { split; [done|]. by apply prefix_app_l in Hp. }
  unfold exchange in Hs. pose proof (lo_pending _ _ Hlp) as Hpend.
  destruct m as [f|r].
  - destruct (observe _ f) as [[u|e] s'] eqn:Ho; [|done]. apply observe_Ok in Ho as [Hn _].
    rewrite Hpend in Hn. by apply fmap_None in Hn.
  - destruct (respond _ r) as [[u|e] s'] eqn:Ho; [|done]. apply respond_Ok in Ho as [Hn _].
    rewrite Hpend in Hn. by apply fmap_Some in Hn as (? & -> & _).
Qed.

(** Once it has answered, the supervisor has nothing pending, and the runner
    writes nothing before it has read the answer. *)
Lemma answered_waits lp done todo response :
  loop_ok start lp → said = done ++ todo → lp_history lp = done ++ [Responded response] →
  Forall not_finish (frames_of (lp_history lp)) →
  lp_pending lp = None ∧ ∃ awaited rest, todo = Responded awaited :: rest.
Proof.
  intros Hlp -> Hh Hopen. pose proof (lo_converse _ _ Hlp) as Hc. rewrite Hh, converse_app in Hc.
  destruct (converse start done) as [s|] eqn:Hd; [|done]. simpl in Hc. unfold exchange in Hc.
  destruct (respond s response) as [[u|e] s'] eqn:Hr; [|done]. injection Hc as Hs'.
  apply respond_Ok in Hr as [Hp Hp']. rewrite Hs', (lo_pending _ _ Hlp) in Hp'. split.
  { by apply fmap_None in Hp'. }
  destruct todo as [|[f|r] todo]; [|exfalso|by eauto].
  - rewrite app_nil_r in Hfinish. rewrite Hh in Hopen. unfold frames_of in Hopen.
    rewrite omap_app in Hopen. apply Forall_app in Hopen as [Hopen _].
    apply Exists_exists in Hfinish as (f & Hf & Hn).
    rewrite Forall_forall in Hopen. by destruct Hn; apply Hopen.
  - rewrite converse_app, Hd in Hsaid. simpl in Hsaid. unfold exchange in Hsaid.
    destruct (observe s f) as [[u'|e] s''] eqn:Ho; [|by destruct Hsaid].
    apply observe_Ok in Ho as [Hn _]. congruence.
Qed.

Lemma joint_history lp todo stdout stdin :
  joint_talk lp todo stdout stdin → (length (lp_history lp) ≤ length said)%nat.
Proof.
  intros [Hlp Hopen (done & Hd & Hlag)].
  destruct Hlag as [stdout Hh|response Hh].
  - rewrite Hd, Hh, !length_app. lia.
  - destruct (answered_waits _ _ _ _ Hlp Hd Hh Hopen) as (_ & a & rest & ->).
    rewrite Hd, Hh, !length_app. simpl. lia.
Qed.

(** A pair that has not finished has something left to say. *)
Lemma unfinished lp todo :
  joint_talk lp todo [] [] → ∃ m rest, todo = m :: rest.
Proof.
  intros [Hlp Hopen (done & Hd & Hlag)]. destruct todo as [|m todo]; [exfalso|eauto].
  rewrite app_nil_r in Hd. inversion Hlag as [? Hh|]. simpl in Hh. rewrite app_nil_r in Hh.
  rewrite Hd, Hh in Hfinish. apply Exists_exists in Hfinish as (f & Hf & Hn).
  rewrite Forall_forall in Hopen. by destruct Hn; apply Hopen.
Qed.

(** An answer is sent only once the runner was heard out. *)
Lemma poll_joint child deadline t lp lp1 todo stdout stdin :
  joint_talk lp todo stdout stdin → poll_dispatch child deadline t lp = Ok lp1 →
  joint_talk lp1 todo stdout (stdin ++ option_list (answer_of t lp)) ∧
  (lp1 = lp ∧ answer_of t lp = None ∨
   stdout = [] ∧ (length (lp_history lp) < length (lp_history lp1))%nat).
Proof.
  intros [Hlp Hopen (done & Hd & Hlag)] Hp. simpl in *.
  pose proof (poll_dispatch_ok _ _ _ _ _ _ Hlp Hp) as [Hlp1 Hf].
  apply poll_answers in Hp as [[-> ->]|(frame & b & Hpend & -> & Hnone & Hh1 & _)].
  { rewrite app_nil_r. split; [|by left]. split; simpl; eauto. }
  destruct Hlag as [stdout Hh|response Hh].
  2: { destruct (answered_waits _ _ _ _ Hlp Hd Hh Hopen) as [Hn _].
       rewrite Hn in Hpend. by destruct Hpend. }
  destruct stdout as [|f stdout].
  2: { pose proof (pending_hears lp (Observed f) Hlp) as Hn. simpl in Hn.
       rewrite Hn in Hpend; [by destruct Hpend|]. rewrite Hd, Hh. simpl.
       exists ((Observed <$> stdout) ++ todo). by rewrite <-!(assoc_L (++)). }
  simpl in Hh. rewrite app_nil_r in Hh. subst done. split.
  - split; simpl; [done|by rewrite Hf|]. exists (lp_history lp). split; [done|].
    by constructor.
  - right. split; [done|]. rewrite Hh1, length_app. simpl. lia.
Qed.

(** The next frame on the runner's output is one the supervisor accepts. *)
Lemma hear_joint child deadline t lp todo f rest stdin :
  joint_talk lp todo (f :: rest) stdin →
  accepted (handle_frame child deadline t lp f) ∧
  ∀ lp', handle_frame child deadline t lp f = Ok lp' →
    joint_talk lp' todo rest stdin ∧
    (length (lp_history lp) < length (lp_history lp'))%nat.
Proof.
  intros [Hlp Hopen (done & Hd & Hlag)]. simpl in *. inversion Hlag as [stdout Hh|]; subst.
  assert (in_step start said lp) as Hin.
  { split; [done|]. rewrite Hd, <-!(assoc_L (++)). by eexists. }
  assert (lp_history lp ++ [Observed f] `prefix_of` said) as Hp.
  { rewrite Hd. exists ((Observed <$> rest) ++ todo). simpl. by rewrite <-!(assoc_L (++)). }
  split; [by eapply handle_frame_accepted|]. intros lp' Hf.
  pose proof (handle_frame_ok _ _ _ _ _ _ _ Hlp Hf) as [Hlp' Hfr].
  apply handle_frame_done in Hf as (u & _ & Hh' & _ & _ & _ & _ & Hn). split.
  - split; simpl; [done| |].
    + rewrite Hfr. by apply Forall_app; split; [|constructor].
    + eexists. split; [exact Hd|]. constructor. rewrite Hh'. by rewrite <-(assoc_L (++)).
  - rewrite Hh', length_app. simpl. lia.
Qed.

(** ** The bytes of those pipes *)

Definition sound (response : EffectResponseFrame) : Prop :=
  response_typed response ∧ EffectResponseFrame_check response = Ok ().

Definition joint_ok (j : Joint) : Prop :=
  ∃ frames responses, joint_talk (jo_loop j) (jo_todo j) frames responses ∧
    carries child_to_vec frames (jo_stdout j) ∧
    carries response_to_vec responses (jo_stdin j) ∧ Forall sound responses.

Lemma joint_frames lp todo frames responses :
  joint_talk lp todo frames responses →
  frames_of said = frames_of (lp_history lp) ++ frames ++ frames_of todo.
Proof.
  intros [_ _ (done & -> & Hlag)]. unfold frames_of. rewrite omap_app.
  destruct Hlag as [stdout ->|response ->]; rewrite omap_app.
  - fold (frames_of (Observed <$> stdout)). by rewrite frames_observed, <-(assoc_L (++)).
  - simpl. by rewrite app_nil_r.
Qed.

(** What is known of every frame said. *)
Lemma said_frame f :
  f ∈ frames_of said → child_typed f ∧ ChildFrame_version f = 1 ∧ child_check f = Ok ().
Proof. rewrite !Forall_forall in Htyped, Hversion, Hchecked. auto. Qed.

Lemma answer_sound lp todo frames responses id request result response :
  joint_talk lp todo frames responses → lp_pending lp = Some (id, request) →
  response_of request result = Ok response →
  sound (mkEffectResponseFrame PROTOCOL_VERSION "effect_response" id response).
Proof.
  intros Htalk Hpend Hresp. split; [|by eapply response_of_checked].
  destruct (lo_request _ _ (jk_loop _ _ _ _ Htalk) _ _ Hpend) as (l & version & Hh).
  assert (EffectRequestFrame version id request ∈ frames_of said) as Hin.
  { rewrite (joint_frames _ _ _ _ Htalk), Hh. unfold frames_of at 1. rewrite omap_app.
    set_solver. }
  apply said_frame in Hin as ((_ & Hid & Hord) & _). split_and!; [done..|]. simpl.
  apply response_of_answer_for in Hresp as [reply Ho _ _|failure code Hcode].
  - unfold reply_typed. by rewrite Ho.
  - set_unfold. by destruct Hcode as [[= _ ->]|[[= _ ->]|[[= _ ->]|[[= _ ->]|[]]]]].
Qed.

Lemma poll_bytes child deadline t lp lp1 todo frames responses stdin :
  joint_talk lp todo frames responses → carries response_to_vec responses stdin →
  Forall sound responses → poll_dispatch child deadline t lp = Ok lp1 →
  let sent := responses ++ option_list (answer_of t lp) in
  Forall sound sent ∧
  ∃ b, lp_written lp1 = lp_written lp ++ b ∧ carries response_to_vec sent (stdin ++ b).
Proof.
  intros Htalk Hc Hs Hp. cbv zeta. unfold answer_of.
  apply poll_dispatch_done in Hp as [[-> Hn]|(id & request & result & response & seq & b & Hpend & Hd
    & Hresp & _ & Hb & ->)].
  - assert (answer_of t lp = None) as Ha
      by (unfold answer_of; destruct Hn as [->| ->]; [done|by destruct (lp_pending lp) as [[]|]]).
    unfold answer_of in Ha. rewrite Ha, app_nil_r. split; [done|]. exists [].
    by rewrite !app_nil_r.
  - rewrite Hpend, Hd, Hresp. split.
    { apply Forall_app. split; [done|]. constructor; [|done]. by eapply answer_sound. }
    exists b. split; [done|]. eapply carries_snoc; [done|]. by eapply write_frame_after.
Qed.

(** The next frame the supervisor takes. *)
Lemma takes_next t j rest f frames responses :
  joint_talk (jo_loop j) (jo_todo j) frames responses → carries child_to_vec frames (jo_stdout j) →
  takes t j rest → tick_read t = Some (Ok f) →
  ∃ frames', frames = f :: frames' ∧ carries child_to_vec frames' rest.
Proof.
  intros Htalk Hc Ht Hr. unfold takes in Ht. rewrite Hr in Ht.
  destruct frames as [|f0 frames].
  { by rewrite (proj2 (carries_empty _ _ _ Hc) eq_refl) in Ht. }
  assert (f0 ∈ frames_of said) as (Hf1 & Hf2 & Hf3)%said_frame
    by (rewrite (joint_frames _ _ _ _ Htalk); set_solver).
  destruct (read_child_next _ _ _ Hf1 Hf2 Hf3 Hc) as (body & rest0 & _ & _ & Hc' & Hread).
  rewrite Ht in Hread. destruct Hread as [-> ->]. by exists frames.
Qed.

(** An error of reading it. *)
Lemma takes_error t j rest e frames responses :
  joint_talk (jo_loop j) (jo_todo j) frames responses → carries child_to_vec frames (jo_stdout j) →
  takes t j rest → tick_read t = Some (Err e) → excuse said t j.
Proof.
  intros Htalk Hc Ht Hr. unfold takes in Ht. rewrite Hr in Ht. destruct Ht as [Hread Hend].
  destruct frames as [|f frames].
  - apply frame_oversized; [by apply (carries_empty _ _ _ Hc)|].
    specialize (Hend (proj2 (carries_empty _ _ _ Hc) eq_refl)). unfold runner_ended in Hend.
    destruct (jo_todo j) as [|[f|r] todo] eqn:Htodo; [exfalso| |done].
    + destruct responses as [|r responses].
      * by destruct (unfinished _ _ Htalk) as (? & ? & ?).
      * destruct Htalk as [Hlp Hopen (done & Hd & Hlag)]. inversion Hlag as [|? Hh].
        by destruct (answered_waits _ _ _ _ Hlp Hd Hh Hopen) as (_ & ? & ? & ?).
    + exists f, todo. split; [done|]. eapply write_child_oversized; [|exact Hend].
      apply said_frame. rewrite (joint_frames _ _ _ _ Htalk). set_solver.
  - assert (f ∈ frames_of said) as Hin by (rewrite (joint_frames _ _ _ _ Htalk); set_solver).
    pose proof (said_frame _ Hin) as (Hf1 & Hf2 & Hf3).
    destruct (read_child_next _ _ _ Hf1 Hf2 Hf3 Hc) as (body & rest0 & Hb & Hs & _ & Hex).
    rewrite Hread in Hex. destruct Hex as (version & id & request & -> & Hlong).
    by eapply request_overlong.
Qed.
(** An iteration blames the runner only with an excuse. *)
Lemma joint_excuse child deadline t j rest e :
  joint_ok j → takes t j rest →
  iteration child deadline t (jo_loop j) = Err (Some (Err (Protocol e))) → excuse said t j.
Proof.
  intros (frames & responses & Htalk & Hframes & Hresponses & Hs) Ht Hi.
  assert (∀ m : Run unit, accepted m → ∀ k : unit → Run Loop,
    m ≫= k = Err (Some (Err (Protocol e))) → k () = Err (Some (Err (Protocol e)))) as Hskip.
  { intros m Hm k [Hf|([] & _ & Hk)]%bind_Err; [by apply Hm in Hf|done]. }
  unfold iteration in Hi. apply Hskip in Hi; [|auto with accepted].
  apply Hskip in Hi; [|by apply accepted_if].
  apply bind_Err in Hi as [Hp|(lp1 & Hp & Hi)].
  - destruct (answer_fits t (jo_loop j)) eqn:Hfit.
    { by apply (poll_accepted start) in Hp; [|apply Htalk|]. }
    unfold answer_fits, answer_of in Hfit.
    destruct (lp_pending (jo_loop j)) as [[id request]|] eqn:Hpend; [|done].
    destruct (tk_dispatch t) as [|result|] eqn:Hd; [done| |done].
    destruct (response_of request result) as [response|] eqn:Hresp; [|done].
    eapply answer_oversized; [done..|by apply response_of_answer_for|].
    destruct (answer_sound _ _ _ _ _ _ _ _ Htalk Hpend Hresp) as [Hty _].
    destruct (response_json _ Hty) as (body & Hb & Hne & _).
    by apply (write_frame_oversized _ _ body []).
  - destruct (poll_joint _ _ _ _ _ _ _ _ Htalk Hp) as [Htalk1 _].
    destruct (tick_read t) as [[f|e']|] eqn:Hread.
    + destruct (takes_next _ _ _ _ _ _ Htalk Hframes Ht Hread) as (frames' & -> & _).
      unfold tick_read in Hread. destruct (tk_frame t) as [r| |]; [|done..].
      injection Hread as ->. by apply (hear_joint child deadline t) in Htalk1 as [Ha _];
        apply Ha in Hi.
    + by eapply takes_error.
    + unfold tick_read in Hread. destruct (tk_frame t) as [r| |]; [done|done|].
      apply bind_Err in Hi as [Hw|(st & _ & Hi)]; [by apply accepted_wait in Hw|done].
Qed.

(** An iteration that goes on keeps the pipes as they should be. *)
Lemma joint_iterates child deadline t j rest lp sent :
  joint_ok j → takes t j rest → iteration child deadline t (jo_loop j) = Ok lp →
  lp_written lp = lp_written (jo_loop j) ++ sent →
  let j' := mkJoint lp (jo_todo j) rest (jo_stdin j ++ sent) in
  joint_ok j' ∧
  (j' = j ∨ (length (lp_history (jo_loop j)) < length (lp_history lp))%nat).
Proof.
  intros (frames & responses & Htalk & Hframes & Hresponses & Hs) Ht Hi Hsent j'.
  unfold iteration in Hi. apply seq_Ok in Hi as [_ Hi]. apply seq_Ok in Hi as [_ Hi].
  apply bind_Ok in Hi as (lp1 & Hp & Hi).
  destruct (poll_bytes _ _ _ _ _ _ _ _ _ Htalk Hresponses Hs Hp) as (Hs1 & b & Hb & Hc1).
  destruct (poll_joint _ _ _ _ _ _ _ _ Htalk Hp) as [Htalk1 Hcase].
  assert (∀ lp', lp_written lp' = lp_written lp1 → lp = lp' → sent = b) as Hbytes.
  { intros lp' Hw ->. rewrite Hsent, Hb in Hw. by apply (inj (app _)) in Hw. }
  destruct (tick_read t) as [[f|e]|] eqn:Hread.
  - destruct (takes_next _ _ _ _ _ _ Htalk Hframes Ht Hread) as (frames' & -> & Hf').
    unfold tick_read in Hread. destruct (tk_frame t) as [r| |]; [|done..]. injection Hread as ->.
    pose proof (handle_frame_done _ _ _ _ _ _ Hi) as (_ & _ & _ & Hw & _).
    pose proof (Hbytes lp Hw eq_refl) as ->.
    apply (hear_joint child deadline t) in Htalk1 as [_ Hh]. destruct (Hh lp Hi) as [Htalk' Hlt].
    split; [by exists frames', (responses ++ option_list (answer_of t (jo_loop j)))|].
    right. by destruct Hcase as [[-> _]|[? _]].
  - unfold tick_read in Hread. destruct (tk_frame t) as [r| |]; [|done..].
    by injection Hread as ->.
  - assert (lp = lp1) as ->.
    { unfold tick_read in Hread. destruct (tk_frame t) as [r| |]; [done|by injection Hi|].
      by apply bind_Ok in Hi as (? & _ & Hi). }
    pose proof (Hbytes lp1 eq_refl eq_refl) as ->.
    unfold takes in Ht. rewrite Hread in Ht. unfold j'. rewrite Ht. split.
    { by exists frames, (responses ++ option_list (answer_of t (jo_loop j))). }
    destruct Hcase as [[-> Ha]|[_ Hlt]]; [left|by right].
    rewrite <-(app_nil_r (lp_written (jo_loop j))) in Hb at 1. apply (inj (app _)) in Hb as <-.
    rewrite app_nil_r. by destruct j.
Qed.

Lemma joint_left_ok j :
  joint_ok j → (length (lp_history (jo_loop j)) ≤ length said)%nat.
Proof. intros (? & ? & Htalk & _). by eapply joint_history. Qed.

Lemma joint_step_ok child deadline j j' :
  joint_ok j → joint_step child deadline j j' →
  joint_ok j' ∧ (j' = j ∨ (joint_left said j' < joint_left said j)%nat).
Proof.
  intros Hj Hstep. pose proof (joint_left_ok _ Hj) as Hlen.
  destruct Hstep as [lp f todo stdout stdout' stdin Hw|lp r todo stdout stdin stdin' Hr
    |j lp t rest sent Htakes Hi Hsent].
  - split; [|right; unfold joint_left; simpl; lia].
    destruct Hj as (frames & responses & [Hlp Hopen (done & Hd & Hlag)] & Hf & Hb & Hs).
    simpl in *. exists (frames ++ [f]), responses. apply map_err_Ok in Hw.
    split_and!; [|by eapply carries_snoc|done..]. split; [done..|]. simpl.
    exists (done ++ [Observed f]). split; [by rewrite <-(assoc_L (++))|].
    destruct Hlag as [frames Hh|response Hh].
    + constructor. by rewrite Hh, fmap_app, <-(assoc_L (++)).
    + by destruct (answered_waits _ _ _ _ Hlp Hd Hh Hopen) as (_ & ? & ? & ?).
  - split; [|right; unfold joint_left; simpl; lia].
    destruct Hj as (frames & responses & [Hlp Hopen (done & Hd & Hlag)] & Hf & Hb & Hs).
    simpl in *. destruct responses as [|r0 responses].
    { by rewrite (proj2 (carries_empty _ _ _ Hb) eq_refl) in Hr. }
    apply Forall_cons in Hs as [[Hty Hcheck] Hs].
    destruct (read_response_next _ _ _ Hty Hcheck Hb) as (rest & Hr' & Hb').
    rewrite Hr' in Hr. injection Hr as -> ->. exists frames, responses.
    split_and!; [|done..]. split; [done..|]. simpl.
    exists (done ++ [Responded r]). split; [by rewrite <-(assoc_L (++))|].
    inversion Hlag as [|response Hh]; subst. constructor. by rewrite Hh, app_nil_r.
  - destruct (joint_iterates _ _ _ _ _ _ _ Hj Htakes Hi Hsent) as [Hj' Hcase].
    split; [done|]. destruct Hcase as [He|Hlt]; [by left|right].
    apply joint_left_ok in Hj'. unfold joint_left. simpl in *. lia.
Qed.

Lemma joint_ok_at_work j : joint_ok j → at_work j ∨ unwritable j.
Proof.
  intros (frames & responses & Htalk & Hf & Hb & Hs). destruct frames as [|f frames].
  2: { left. right. left. by intros Hn%(carries_empty _ _ _ Hf). }
  destruct responses as [|r responses].
  - destruct (unfinished _ _ Htalk) as (m & todo & Hm).
    pose proof (joint_frames _ _ _ _ Htalk) as Hin. destruct m as [f|r].
    + destruct (is_ok (tx_result (write_child f) (jo_stdout j))) eqn:Hw.
      { left. left. unfold runner_moves. by rewrite Hm. }
      right. exists f, todo. split; [done|]. eapply write_child_oversized; [|exact Hw].
      apply said_frame. rewrite Hin, Hm. set_solver.
    + left. right. right. left. destruct Htalk as [Hlp _ (done & Hd & Hlag)].
      inversion Hlag as [? Hh|]. simpl in Hh. rewrite app_nil_r in Hh.
      apply (pending_hears _ (Responded r) Hlp). rewrite Hd, Hh, Hm. exists todo.
      by rewrite <-(assoc_L (++)).
  - left. right. right. right. destruct Htalk as [Hlp Hopen (done & Hd & Hlag)].
    destruct responses; [|by inversion Hlag]. inversion Hlag as [|response Hh].
    destruct (answered_waits _ _ _ _ Hlp Hd Hh Hopen) as (_ & a & rest & Ha).
    apply Forall_cons in Hs as [[Hty Hcheck] _].
    destruct (read_response_next _ _ _ Hty Hcheck Hb) as (rest' & Hr & Hc).
    apply carries_empty in Hc as [_ Hc]. rewrite (Hc eq_refl) in Hr. eauto.
Qed.

(** No two answers are on their way. *)
Lemma joint_ok_stdin j response rest :
  joint_ok j → read_response (jo_stdin j) = Ok (response, rest) → rest = [].
Proof.
  intros (frames & responses & Htalk & Hf & Hb & Hs) Hr.
  destruct Htalk as [_ _ (done & _ & Hlag)].
  destruct Hlag as [frames Hh|r Hh].
  { by rewrite (proj2 (carries_empty _ _ _ Hb) eq_refl) in Hr. }
  apply Forall_cons in Hs as [[Hty Hcheck] _].
  destruct (read_response_next _ _ _ Hty Hcheck Hb) as (rest' & Hr' & Hc).
  rewrite Hr' in Hr. injection Hr as _ ->. by apply (carries_empty _ _ _ Hc).
Qed.

Lemma joint_ok_start b : joint_ok (mkJoint (mkLoop start [] false [] b []) said [] []).
Proof.
  exists [], []. split_and!; [|constructor..]. split; [by apply loop_ok_start|done|].
  exists []. split; [done|]. by constructor.
Qed.
End invariant.

(** ** A run of the pair *)

Module JointDemo.
Import Reference JsonReference MemoryReference RunnerDemo.

(** The session of [SessionDemo]: the runner asks, the supervisor hears it and
    answers, the runner reads the answer and goes on to its finish. *)
Definition said : list message := Eval vm_compute in
  ip_talk (s_dispatcher (w_state final)).1 ++ (Observed <$> final_frames SessionDemo.finished).
Definition prepared : Z * Loop := Eval vm_compute in
  match prepare SupervisionDemo.supervisor [x00] [x07] Limits_default SupervisionDemo.launch with
  | Ok prepared => prepared
  | Err _ => (0, mkLoop ParentSequence_new [] false [] [] [])
  end.
Definition after (n : nat) : Loop :=
  foldl (λ lp t, match iteration spawned_child prepared.1 t lp with Ok lp => lp | Err _ => lp end)
    prepared.2 (take n SessionDemo.ticks).
Definition bytes_of (frames : list ChildFrame) : list byte :=
  tx_state (tx_for_each write_child frames) [].
Definition answer_bytes : list byte := Eval vm_compute in
  drop (length (lp_written prepared.2)) (lp_written (after 2)).
Definition heard_log : Joint := Eval vm_compute in
  mkJoint (after 3) [] (bytes_of (drop 2 (frames_of said))) [].

Lemma iterates n todo stdout rest stdin sent j t :
  SessionDemo.ticks !! n = Some t →
  (∃ f, tick_read t = Some (Ok f) ∧ read_child stdout = Ok (f, rest)) ∨
    tick_read t = None ∧ rest = stdout →
  iteration spawned_child prepared.1 t (after n) = Ok (after (S n)) →
  lp_written (after (S n)) = lp_written (after n) ++ sent →
  rtc (joint_step spawned_child prepared.1) (mkJoint (after (S n)) todo rest (stdin ++ sent)) j →
  rtc (joint_step spawned_child prepared.1) (mkJoint (after n) todo stdout stdin) j.
Proof.
  intros _ Ht Hi Hs Hj. eapply rtc_l; [|exact Hj].
  refine (supervisor_iterates _ _ (mkJoint (after n) todo stdout stdin) _ t rest sent _ Hi Hs).
  unfold takes. by destruct Ht as [(f & -> & Hr)|[-> Hr]].
Qed.

Lemma pair_plays :
  rtc (joint_step spawned_child prepared.1) (mkJoint prepared.2 said [] []) heard_log.
Proof.
  eapply rtc_l; [by apply runner_writes; vm_compute|].
  eapply (iterates 0 _ _ [] _ []); [by vm_compute|left; eexists; by vm_compute|by vm_compute..|].
  eapply (iterates 1 _ _ [] _ answer_bytes); [by vm_compute|by right|by vm_compute..|].
  eapply rtc_l; [by apply runner_reads; vm_compute|].
  do 2 (eapply rtc_l; [by apply runner_writes; vm_compute|]).
  eapply (iterates 2 _ _ (jo_stdout heard_log) _ []);
    [by vm_compute|left; eexists; by vm_compute|by vm_compute..|].
  vm_compute. apply rtc_refl.
Qed.
End JointDemo.

(** ** Properties *)

(** C14: supervisor and runner never deadlock, and an honest runner is
    blamed only for a text that is too long.  Whatever its guest does, from the
    moment a run was prepared and its start frame read, in any interleaving of the
    runner's writes and reads with iterations of the supervisor, over pipes of
    bytes: an iteration ends in a protocol error only if the answer it should send
    is longer than 128 KiB, if the next frame on the runner's output is a request
    of its guest whose text is longer than 16 KiB, or if that pipe is empty and the
    frame the runner should have written is longer than 128 KiB.  There is always
    work to go on with, at the runner, on the pipes or in the broker, unless the
    runner cannot write such a frame; behind an answer on its way there is nothing
    else; and every step does nothing or brings the conversation nearer to its
    end. *)
Theorem session_live {M} `{GuestMemoryLaws M, FrameJsonLaws, !Base64, !Base64Laws}
    answers (mem : option M) guest_input requested execute evs w ran
    self module input limits launch deadline lp j :
  parent_answers answers → let caps := abi_caps self in
  AbiCaps_validate caps = Ok caps → 0 ≤ host_calls caps → 0 ≤ cap_log_bytes caps →
  Z.of_nat (length guest_input) ≤ PAYLOAD_BYTES →
  let d0 := (IpcDispatcher_new answers, []) in
  let s0 := initial_state guest_input caps requested d0 in
  guest_run (mkWorld s0 mem) evs w → execute s0 = (ran, Some (w_state w)) →
  Forall (λ request, is_u64 (er_ordinal request) = true)
    ((s_dispatcher (w_state w)).2).*1 →
  let finished := execute_abi execute guest_input requested caps d0 in
  let said := ip_talk (s_dispatcher (w_state w)).1 ++ (Observed <$> final_frames finished) in
  prepare self module input limits launch = Ok (deadline, lp) →
  rtc (joint_step spawned_child deadline) (mkJoint lp said [] []) j →
  (∀ t rest e, takes t j rest →
     iteration spawned_child deadline t (jo_loop j) = Err (Some (Err (Protocol e))) →
     excuse said t j) ∧
  (at_work j ∨ unwritable j) ∧
  (∀ response rest, read_response (jo_stdin j) = Ok (response, rest) → rest = []) ∧
  (∀ j', joint_step spawned_child deadline j j' →
     j' = j ∨ (joint_left said j' < joint_left said j)%nat).
Proof.
  intros Hanswers caps Hcaps Hh Hl Hinput d0 s0 Hrun Hex Hu64 finished said Hprep Hreach.
  destruct (runner_honest answers mem guest_input caps requested execute evs w ran
    Hanswers Hcaps Hh Hl Hinput Hrun Hex) as (Hsaid & _ & Hchecked).
  destruct (honest_words answers Hanswers mem guest_input caps requested execute evs w ran
    Hcaps Hh Hl Hinput Hrun Hex) as [Htalk _ Hcount _].
  fold d0 finished said in Hsaid, Hchecked. apply Forall_and in Hchecked as [Hver Hc].
  apply prepare_Ok in Hprep as (_ & (b & _ & ->) & _).
  set (start := listening (cap_log_bytes caps) 1 0 0) in *.
  assert (frames_of said = frames_of (ip_talk (s_dispatcher (w_state w)).1) ++ final_frames finished)
    as Hframes by (unfold said, frames_of; rewrite omap_app; f_equal; apply frames_observed).
  assert (Forall child_typed (frames_of said)) as Hty.
  { rewrite Hframes, Htalk. apply Forall_app. split; [|apply final_typed].
    apply script_typed; [lia|unfold u64_max; lia|done]. }
  assert (Exists (λ f, ¬ not_finish f) (frames_of said)) as Hfin.
  { rewrite Hframes, final_frames_split. apply Exists_app. right. apply Exists_app. right.
    constructor. intros Hn. by destruct finished. }
  assert (joint_ok start said j) as Hj.
  { revert j Hreach. apply rtc_ind_r; [by apply joint_ok_start|].
    intros j1 j2 _ Hstep Hok. by eapply joint_step_ok. }
  split_and!.
  - intros t rest e Ht Hi. by eapply (joint_excuse start said).
  - by eapply (joint_ok_at_work start said).
  - intros response rest. by eapply (joint_ok_stdin start said).
  - intros j' Hstep. by eapply (joint_step_ok start said).
Qed.

Lemma session_live_witness :
  let _ := JsonReference.effect_json_ref in let _ := JsonReference.frame_json_ref in
  let _ := Reference.b64_ref in at_work JointDemo.heard_log ∨ unwritable JointDemo.heard_log.
Proof.
  intros e f b.
  exact (proj1 (proj2 (session_live (H0 := MemoryReference.writes_memory_laws)
    (H3 := JsonReference.frame_json_ref_laws) (H5 := Reference.b64_ref_laws)
    RunnerDemo.answers _ _ _ SessionDemo.execute _ _ _
    SupervisionDemo.supervisor [x00] [x07] Limits_default SupervisionDemo.launch _ _
    JointDemo.heard_log RunnerDemo.answers_ok AbiDemo.caps_ok ltac:(done) ltac:(done)
    AbiDemo.input_ok RunnerDemo.runner_runs eq_refl ltac:(by repeat constructor) eq_refl
    JointDemo.pair_plays))).
Defined.
