(* ===== verification/Process.v ===== *)
(** * Process: starting, killing and reaping runner processes

    The operating system's side of [crates/runtime/src/supervisor.rs]: what
    [RunnerChild::spawn] does in which order, whom a signal reaches, and a round of
    the reaper thread, in terms of the steps of [Reaper]. *)
From S2P Require Export Reaper Session.

(** ** Starting a runner *)

(** [std::process::Child]: its identifier, a [u32], and the pipes not yet taken. *)
Record ChildProcess := mkChildProcess {
  cp_id : Z;
  cp_stdin : bool;
  cp_stdout : bool;
}.

(** The cell of [reaper_sender], filled once: whether the reaper thread could be
    started. *)
Definition reaper_sender (thread_spawned : bool) (cell : option bool) :
    result SupervisorError unit * option bool :=
  let reaper := default thread_spawned cell in
  (if reaper then Ok () else Err SupervisorIo, Some reaper).

(** [RunnerChild::spawn]: [started] is what [command.spawn()] yields.  The
    permit is dropped by every return that does not move it into the child. *)
Definition spawn `{LimitsJson} (reaper : result SupervisorError unit) (path : option string)
    (caps : Limits) (abi_caps : AbiCaps) (started : option ChildProcess) (live : Z) :
    result SupervisorError (RunnerChild * ChildProcess) * Z :=
  match reaper with
  | Err e => (Err e, live)
  | Ok _ =>
    match reserve live with
    | None => (Err SupervisorIo, live)
    | Some live =>
      let spawned :=
        spawn_args path caps abi_caps;;
        child ← ok_or started SupervisorIo;
        fail_if (negb (cp_stdin child)) SupervisorIo;;
        mret (spawned_child, mkChildProcess (cp_id child) false (cp_stdout child)) in
      (spawned, match spawned with Ok _ => live | Err _ => drop_permit live end)
    end
  end.

Definition take_stdout (child : option ChildProcess) : result SupervisorError ChildProcess :=
  child ← ok_or child SupervisorIo;
  fail_if (negb (cp_stdout child)) SupervisorIo;;
  mret (mkChildProcess (cp_id child) (cp_stdin child) false).

(** ** Killing its group *)

(** What [kill(2)] answers. *)
Inductive KillResult :=
  | KillSent
  | KillNoSuchProcess
  | KillFailed.

(** [Pid::from_raw] of rustix, which has no pid for zero. *)
Class Rustix := Pid_from_raw : Z → option Z.
Class RustixLaws `{Rustix} : Prop := {
  Pid_from_zero : Pid_from_raw 0 = None;
  Pid_from_positive raw : 0 < raw → Pid_from_raw raw = Some raw;
}.

Section group.
Context `{Rustix}.

(** [RunnerChild::kill_process_group], with the groups it signals. *)
Definition kill_process_group (kill : Z → KillResult) (child : option ChildProcess) :
    result SupervisorError unit * list Z :=
  match (id ← cp_id <$> child; raw ← checked (-2147483648) i32_max id; Pid_from_raw raw) with
  | None => (Err SupervisorIo, [])
  | Some group =>
    (match kill group with
     | KillSent | KillNoSuchProcess => Ok ()
     | KillFailed => Err SupervisorIo
     end, [group])
  end.

(** [disarm], and [drop] of a child, with the groups they signal. *)
Definition disarm_group (kill : Z → KillResult) (child : option ChildProcess) (self : RunnerChild) :
    result SupervisorError RunnerChild * list Z :=
  let '(killed, signalled) := kill_process_group kill child in
  (disarm (is_ok killed) self, signalled).
Definition drop_group (kill : Z → KillResult) (child : option ChildProcess) (gone : bool)
    (self : RunnerChild) : RunnerChild * bool * list Z :=
  (drop_runner gone self,
   if rc_armed self then (kill_process_group kill child).2 else []).
End group.

(** ** The reaper thread *)

(** One round: a job if there is room for one and one is queued, then the jobs
    whose child is [gone] are dropped. *)
Definition reaper_round (gone : nat) (f : Fleet) : Fleet :=
  let f := default f (reaper_take f) in
  Nat.iter gone (λ f, default f (reaper_release f)) f.

(** ** They are steps of the fleet *)

Definition fleet_moves : Fleet → Fleet → Prop := λ f f', fleet_step f (Some f').

Lemma moves_reachable f f' : fleet_reachable f → rtc fleet_moves f f' → fleet_reachable f'.
Proof.
  intros Hf. revert f'. apply rtc_ind_r; [done|]. intros g g' _ Hstep Hg. by eapply fleet_next.
Qed.

Lemma set_last runs run run' live queue active :
  set_run (length runs) run' (mkFleet live (runs ++ [run]) queue active) =
  mkFleet live (runs ++ [run']) queue active.
Proof.
  unfold set_run. simpl. f_equal. rewrite insert_app_r_alt by lia. by rewrite Nat.sub_diag.
Qed.

(** A [spawn] reserves a permit and starts a child, or gives its permit back. *)
Lemma spawn_moves `{LimitsJson} reaper path caps abi started f :
  let '(spawned, live) := spawn reaper path caps abi started (fl_live f) in
  rtc fleet_moves f (mkFleet live
    (fl_runs f ++ match spawned with Ok (run, _) => [run] | Err _ => [] end)
    (fl_queue f) (fl_active f)).
Proof.
  unfold spawn. destruct f as [live runs queue active]. cbn [fl_live fl_runs fl_queue fl_active].
  destruct reaper as [u|e]; [|rewrite app_nil_r; apply rtc_refl].
  destruct (reserve live) as [live'|] eqn:Hr; [|rewrite app_nil_r; apply rtc_refl].
  eapply rtc_l.
  { apply step_reserve. unfold spawn_reserve. simpl. by rewrite Hr. }
  simpl. set (g := mkFleet live' (runs ++ [permit_only]) queue active).
  assert (fl_runs g !! length runs = Some permit_only) as Hi by (apply list_lookup_middle; done).
  set (spawned := spawn_args path caps abi;; _). destruct spawned as [[run child]|e] eqn:Hs.
  - unfold spawned in Hs. inv_ok. eapply rtc_l; [by apply (step_spawn g (length runs))|].
    unfold g. rewrite set_last. apply rtc_refl.
  - apply rtc_once. unfold fleet_moves. replace (Some (mkFleet (drop_permit live') (runs ++ []) queue active))
      with (drop_run true (length runs) permit_only g);
      [by apply step_drop|].
    unfold drop_run, g. simpl. by rewrite delete_middle.
Qed.

Lemma release_moves n f :
  rtc fleet_moves f (Nat.iter n (λ f, default f (reaper_release f)) f).
Proof.
  induction n as [|n IH]; [apply rtc_refl|]. simpl. etrans; [exact IH|].
  destruct (reaper_release _) as [f'|] eqn:Hr; [|apply rtc_refl]. by apply rtc_once, step_release.
Qed.

Lemma reaper_round_moves n f : rtc fleet_moves f (reaper_round n f).
Proof.
  unfold reaper_round. etrans; [|apply release_moves].
  destruct (reaper_take f) as [f'|] eqn:Ht; [|apply rtc_refl]. by apply rtc_once, step_take.
Qed.

Lemma fleet_moves_ok f f' : fleet_ok f → rtc fleet_moves f f' → fleet_ok f'.
Proof.
  intros Hf. revert f'. apply rtc_ind_r; [done|]. intros g g' _ Hstep Hg.
  destruct (fleet_step_ok _ _ Hg Hstep) as (g1 & [= <-] & ?). done.
Qed.

Lemma releases n f :
  0 ≤ fl_active f →
  Nat.iter n (λ f, default f (reaper_release f)) f =
  let released := Z.min (Z.of_nat n) (fl_active f) in
  mkFleet (fl_live f - released) (fl_runs f) (fl_queue f) (fl_active f - released).
Proof.
  intros Ha. induction n as [|n IH]; cbv zeta in *.
  - destruct f. simpl in *. rewrite Z.min_l by lia. f_equal; lia.
  - simpl Nat.iter. rewrite IH. unfold reaper_release, drop_permit.
    cbn [fl_live fl_runs fl_queue fl_active].
    destruct (0 <? _) eqn:Hlt; simpl; [apply Z.ltb_lt in Hlt|apply Z.ltb_ge in Hlt]; f_equal; lia.
Qed.

(** Rounds that find every child gone empty the queue. *)
Lemma round_drains f :
  fleet_ok f →
  let f' := reaper_round (Z.to_nat REAPER_CAPACITY) f in
  fl_active f' = 0 ∧ fl_queue f' = Z.max 0 (fl_queue f - 1) ∧ fl_runs f' = fl_runs f.
Proof.
  intros [Hlive Hcap Hq Ha Hown] f'. pose proof (held_nonneg (fl_runs f)).
  unfold f', reaper_round, reaper_take. unfold REAPER_CAPACITY in *.
  destruct (_ && _) eqn:Hc; cbn [default from_option]; unfold id;
    rewrite releases by (simpl; lia); cbn [fl_live fl_runs fl_queue fl_active].
  - apply andb_true_iff in Hc as [? ?]. bools. split_and!; lia || done.
  - apply andb_false_iff in Hc. rewrite !Z.ltb_ge in Hc. split_and!; lia || done.
Qed.

Lemma rounds_drain n f :
  fleet_ok f →
  let f' := Nat.iter (S n) (reaper_round (Z.to_nat REAPER_CAPACITY)) f in
  fl_active f' = 0 ∧ fl_queue f' = Z.max 0 (fl_queue f - Z.of_nat (S n)) ∧
  fl_runs f' = fl_runs f ∧ fleet_ok f'.
Proof.
  assert (∀ g, fleet_ok g → fleet_ok (reaper_round (Z.to_nat REAPER_CAPACITY) g)) as Hok
    by (intros g Hg; eapply fleet_moves_ok; [exact Hg|apply reaper_round_moves]).
  pose proof round_drains as Hround. cbv zeta in *. intros Hf.
  generalize dependent (reaper_round (Z.to_nat REAPER_CAPACITY)). intros round Hok Hround.
  induction n as [|n IH]; simpl in *.
  - destruct (Hround f Hf) as (? & ? & ?). auto.
  - destruct IH as (_ & Hq & Hr & Hg). destruct (Hround _ Hg) as (? & Hq' & Hr').
    split_and!; [done|lia|congruence|auto].
Qed.

(** The identifiers a process can have. *)
Abbreviation is_pid := (in_range 1 i32_max).

(** A signal is for the child's own group, never for the supervisor's, which is
    [0], nor for a process named by a negative number. *)
Lemma group_signalled `{RustixLaws} kill child :
  is_u32 (cp_id child) = true →
  (kill_process_group kill (Some child)).2 =
    if is_pid (cp_id child) then [cp_id child] else [].
Proof.
  intros [Hlo Hhi]%in_range_spec. unfold kill_process_group, checked, in_range. simpl.
  rewrite (proj2 (Z.leb_le _ _)) by lia. simpl.
  destruct (cp_id child <=? i32_max) eqn:Hmax; simpl; [|by rewrite andb_false_r].
  rewrite andb_true_r. destruct (decide (cp_id child = 0)) as [->|Hz].
  - by rewrite Pid_from_zero.
  - rewrite Pid_from_positive by lia. by rewrite (proj2 (Z.leb_le _ _)) by lia.
Qed.

(** A child leaves its guard only with its group killed: by [disarm] before a
    success, and by [drop] otherwise. *)
Lemma guard_kills `{RustixLaws} kill child gone self :
  is_u32 (cp_id child) = true →
  (drop_group kill (Some child) gone self).2 =
    (if rc_armed self && is_pid (cp_id child) then [cp_id child] else []) ∧
  ∀ self', (disarm_group kill (Some child) self).1 = Ok self' →
    kill (cp_id child) ≠ KillFailed ∧ (disarm_group kill (Some child) self).2 = [cp_id child] ∧
    rc_armed self' = false.
Proof.
  intros Hid. pose proof (group_signalled kill child Hid) as Hs. split.
  { unfold drop_group. simpl. rewrite Hs. by destruct (rc_armed self). }
  unfold disarm_group. destruct (kill_process_group kill (Some child)) as [killed signalled] eqn:Hk.
  simpl in *. subst signalled. intros self' Hd. unfold disarm in Hd.
  destruct killed as [u|e]; [|by destruct (rc_child self)].
  unfold kill_process_group in Hk. destruct (_ ≫= _) as [group|]; [|done].
  injection Hk as Hk Hg. destruct (is_pid _); [|done]. injection Hg as ->. inv_ok.
  split_and!; [|done..]. intros Hfail. by rewrite Hfail in Hk.
Qed.

(** Once [spawn] found the reaper, [queue_reap] finds it. *)
Lemma reaper_sender_once thread cell thread' :
  (reaper_sender thread cell).1 = Ok () →
  (reaper_sender thread' (reaper_sender thread cell).2).1 = Ok ().
Proof. unfold reaper_sender. simpl. done. Qed.

Lemma rounds_move n m f : rtc fleet_moves f (Nat.iter n (reaper_round m) f).
Proof.
  induction n as [|n IH]; [apply rtc_refl|]. etrans; [exact IH|]. apply reaper_round_moves.
Qed.

(** ** Properties *)

(** C21: runner processes are bounded, killed and reaped.  Whatever the
    supervising threads and the reaper did, in whatever order: the counter of
    live runners is exactly the permits held by runs, by queued jobs and by the
    reaper, there are at most eight unreaped runners, and no step finds a permit
    missing or the queue full, which would abort the process.  A spawn takes one
    permit for the child it yields, and none when it fails, at any point, and
    leaves the reaper running for that child.  A child
    leaves its guard with the kill signal sent to its own group and to nothing
    else, by [disarm] before a success and by [drop] otherwise.  Eight rounds of
    the reaper that find the children gone give back every permit not held by a
    run. *)
Theorem runner_lifecycle `{LimitsJson, RustixLaws} f :
  fleet_reachable f →
  (fl_live f = held (fl_runs f) + fl_queue f + fl_active f ∧
   processes (fl_runs f) + fl_queue f + fl_active f ≤ REAPER_CAPACITY ∧ ¬ fleet_step f None) ∧
  (∀ thread cell path caps abi started,
     let '(reaper, cell') := reaper_sender thread cell in
     let '(spawned, live) := spawn reaper path caps abi started (fl_live f) in
     (is_ok spawned = true → ∀ thread', (reaper_sender thread' cell').1 = Ok ()) ∧
     fleet_reachable (mkFleet live
       (fl_runs f ++ match spawned with Ok (run, _) => [run] | Err _ => [] end)
       (fl_queue f) (fl_active f))) ∧
  (∀ kill child gone self, is_u32 (cp_id child) = true →
     (drop_group kill (Some child) gone self).2 =
       (if rc_armed self && is_pid (cp_id child) then [cp_id child] else []) ∧
     ∀ self', (disarm_group kill (Some child) self).1 = Ok self' →
       kill (cp_id child) ≠ KillFailed ∧ (disarm_group kill (Some child) self).2 = [cp_id child] ∧
       rc_armed self' = false) ∧
  let cap := Z.to_nat REAPER_CAPACITY in
  let f' := Nat.iter cap (reaper_round cap) f in
  fleet_reachable f' ∧ fl_runs f' = fl_runs f ∧ fl_live f' = held (fl_runs f).
Proof.
  intros Hf. pose proof (fleet_reachable_ok _ Hf) as Hok. split_and!; [|..|split_and!].
  - apply Hok.
  - pose proof (processes_held _ (fo_owned _ Hok)). destruct Hok. lia.
  - intros Hstep. by destruct (fleet_step_ok _ _ Hok Hstep) as (f' & ? & _).
  - intros thread cell path caps abi started.
    pose proof (reaper_sender_once thread cell) as Honce.
    destruct (reaper_sender thread cell) as [reaper cell'].
    pose proof (spawn_moves reaper path caps abi started f) as Hs.
    destruct (spawn _ _ _ _ _ _) as [spawned live] eqn:Hsp. split; [|by eapply moves_reachable].
    intros Hspawned thread'. apply Honce. destruct reaper as [[]|e]; [done|].
    by injection Hsp as <- _.
  - intros. by apply guard_kills.
  - eapply moves_reachable; [exact Hf|apply rounds_move].
  - by destruct (rounds_drain 7 f Hok) as (_ & _ & ? & _).
  - destruct (rounds_drain 7 f Hok) as (Ha & Hq & Hr & [Hlive _ _ _ _]).
    pose proof (held_nonneg (fl_runs f)). destruct Hok. unfold REAPER_CAPACITY in *.
    change (Z.to_nat 8) with 8%nat in *. rewrite Hlive, Ha, Hq, Hr. lia.
Qed.

Module ProcessDemo.
#[global] Instance rustix_ref : Rustix := λ raw, if raw =? 0 then None else Some raw.
#[global] Instance rustix_ref_laws : RustixLaws.
Proof.
  split; [done|]. intros raw Hraw. unfold Pid_from_raw, rustix_ref.
  by rewrite (proj2 (Z.eqb_neq _ _)) by lia.
Qed.
End ProcessDemo.

Lemma runner_lifecycle_witness :
  let _ := SessionDemo.limits_json_ref in
  fl_live (Nat.iter 8 (reaper_round 8) ReaperDemo.killed) = held (fl_runs ReaperDemo.killed).
Proof.
  intros l.
  exact (proj2 (proj2 (proj2 (proj2 (proj2 (runner_lifecycle (H1 := ProcessDemo.rustix_ref_laws) _
    ReaperDemo.reached)))))).
Defined.
