(* ===== verification/Auth.v ===== *)
(** * Auth: who a credential stands for

    Models [crates/control/src/auth.rs]: the operator's principals and the
    lookup of a credential among them. *)
From S2P Require Export Hash.

Inductive AuthError :=
  | AuthConfiguration
  | AuthRead
  | Unauthorized
  | Forbidden.

Inductive Authority :=
  | Owner (tenant : Uuid)
  | Invoker (tenant : Uuid) (grants : gset Uuid)
  | Worker (worker_id : string) (tenants : gset Uuid).

Record Principal := mkPrincipal {
  pr_id : string;
  authority : Authority;
}.

#[global] Instance AuthError_eq_dec : EqDecision AuthError.
Proof. solve_decision. Defined.
#[global] Instance Authority_eq_dec : EqDecision Authority.
Proof. solve_decision. Defined.
#[global] Instance Principal_eq_dec : EqDecision Principal.
Proof. solve_decision. Defined.

(** [Principal::owner_tenant], [tenant], [permits_grant] and [permits_worker] *)
Definition owner_tenant (self : Principal) : result AuthError Uuid :=
  match authority self with Owner tenant => Ok tenant | _ => Err Forbidden end.
Definition tenant (self : Principal) : result AuthError Uuid :=
  match authority self with
  | Owner tenant | Invoker tenant _ => Ok tenant
  | Worker _ _ => Err Forbidden
  end.
Definition permits_grant (self : Principal) (tenant grant : Uuid) : bool :=
  match authority self with
  | Owner own => own =? tenant
  | Invoker own grants => (own =? tenant) && bool_decide (grant ∈ grants)
  | Worker _ _ => false
  end.
Definition permits_worker (self : Principal) (worker : string) (tenant : Uuid) : bool :=
  match authority self with
  | Worker worker_id tenants => bool_decide (worker_id = worker) && bool_decide (tenant ∈ tenants)
  | _ => false
  end.

(** ** The operator's file *)

Record PrincipalRecord := mkPrincipalRecord {
  pf_id : string;
  pf_role : string;
  pf_token_sha256 : string;
  pf_tenant_id : option string;
  pf_worker_id : option string;
  pf_allowed_grants : list string;
  pf_allowed_tenants : list string;
}.
Record File := mkFile {
  file_version : Z;
  file_principals : list PrincipalRecord;
}.
(** [serde_json::from_slice::<File>] *)
Class PrincipalsJson := principals_from_slice : list byte → option File.

Definition identifier (value : string) : bool :=
  negb (str_is_empty value) && (str_len value <=? 64)
  && forallb (λ b, is_ascii_alphanumeric b || bool_decide (b = "-"%byte)
                   || bool_decide (b = "_"%byte)) (bytes value).

Section auth.
Context `{UuidText, Sha256, PrincipalsJson}.

Definition canonical_uuid (value : string) : result AuthError Uuid :=
  id ← ok_or (uuid_parse value) AuthConfiguration;
  fail_if (negb (bool_decide (uuid_to_string id = value))) AuthConfiguration;;
  mret id.

Definition ids (values : list string) : result AuthError (gset Uuid) :=
  fail_if (1024 <? Z.of_nat (length values)) AuthConfiguration;;
  parsed ← try_map canonical_uuid values;
  let found : gset Uuid := list_to_set parsed in
  fail_if (negb (bool_decide (size found = length values))) AuthConfiguration;;
  mret found.

(** The [digest] of a record; each pair was checked to be lowercase hex. *)
Definition token_digest (token_sha256 : string) : list byte :=
  map hex_byte (as_chunks2 (bytes token_sha256)).

Definition bad_digest_text (token_sha256 : string) : bool :=
  negb (str_len token_sha256 =? 64)
  || negb (forallb (λ b, is_ascii_digit b || in_range (byte_val "a") (byte_val "f") (byte_val b))
             (bytes token_sha256)).

Definition record_authority (record : PrincipalRecord) : result AuthError Authority :=
  if (bool_decide (pf_role record = "owner"%string) || bool_decide (pf_role record = "invoker"%string))
     && bool_decide (pf_worker_id record = None) && bool_decide (pf_allowed_tenants record = [])
  then
    text ← ok_or (pf_tenant_id record) AuthConfiguration;
    tenant ← canonical_uuid text;
    grants ← ids (pf_allowed_grants record);
    if bool_decide (pf_role record = "owner"%string) then
      fail_if (negb (bool_decide (grants = ∅))) AuthConfiguration;;
      mret (Owner tenant)
    else mret (Invoker tenant grants)
  else if bool_decide (pf_role record = "worker"%string)
          && bool_decide (pf_tenant_id record = None) && bool_decide (pf_allowed_grants record = [])
  then
    worker_id ← ok_or (pf_worker_id record) AuthConfiguration;
    tenants ← ids (pf_allowed_tenants record);
    fail_if (negb (identifier worker_id) || bool_decide (tenants = ∅)) AuthConfiguration;;
    mret (Worker worker_id tenants)
  else Err AuthConfiguration.

(** [Principals]: the digest of each credential and whom it stands for. *)
Abbreviation Principals := (list (list byte * Principal)).

(** The loop over the records, with the names and digests already taken. *)
Fixpoint parse_records (records : list PrincipalRecord) (names : gset string)
    (hashes : gset (list byte)) : result AuthError Principals :=
  match records with
  | [] => mret []
  | record :: records =>
    fail_if (negb (identifier (pf_id record)) || bool_decide (pf_id record ∈ names)
             || bad_digest_text (pf_token_sha256 record)) AuthConfiguration;;
    let digest := token_digest (pf_token_sha256 record) in
    fail_if (bool_decide (digest ∈ hashes)) AuthConfiguration;;
    authority ← record_authority record;
    entries ← parse_records records ({[pf_id record]} ∪ names) ({[digest]} ∪ hashes);
    mret ((digest, mkPrincipal (pf_id record) authority) :: entries)
  end.

(** [Principals::parse] *)
Definition Principals_parse (b : list byte) : result AuthError Principals :=
  fail_if (1048576 <? Z.of_nat (length b)) AuthConfiguration;;
  file ← ok_or (principals_from_slice b) AuthConfiguration;
  fail_if (negb (file_version file =? 1) || bool_decide (file_principals file = [])
           || (1024 <? Z.of_nat (length (file_principals file)))) AuthConfiguration;;
  parse_records (file_principals file) ∅ ∅.

(** [Principals::load]; metadata is whether the path is a regular file, and its
    length; [None] is an I/O error. *)
Definition Principals_load (metadata : option (bool * Z)) (opened : option (option bool))
    (contents : option (list byte)) : result AuthError Principals :=
  '(is_file, len) ← ok_or metadata AuthRead;
  fail_if (negb is_file || (1048576 <? len)) AuthConfiguration;;
  file ← ok_or opened AuthRead;
  is_file ← ok_or file AuthRead;
  fail_if (negb is_file) AuthConfiguration;;
  b ← ok_or contents AuthRead;
  Principals_parse (take (Z.to_nat 1048577) b).

(** [authorization.strip_prefix("Bearer ")] *)
Definition strip_prefix (prefix value : string) : option string :=
  if decide (take (length (bytes prefix)) (bytes value) = bytes prefix)
  then Some (text (drop (length (bytes prefix)) (bytes value))) else None.

Definition bad_token (token : string) : bool :=
  negb (in_range 32 256 (str_len token)) || negb (forallb is_ascii_graphic (bytes token)).

(** The last entry with the digest: the loop compares with every one. *)
Definition last_match (digest : list byte) (self : Principals) : option Principal :=
  foldl (λ matched entry, if decide (entry.1 = digest) then Some entry.2 else matched) None self.

(** [Principals::authenticate] *)
Definition Principals_authenticate (self : Principals) (authorization : string) :
    result AuthError Principal :=
  token ← ok_or (strip_prefix "Bearer " authorization) Unauthorized;
  fail_if (bad_token token) Unauthorized;;
  ok_or (last_match (sha256 (bytes token)) self) Unauthorized.
End auth.

(** ** What a configured principal is *)

Section configured.
Context `{UuidTextLaws, Sha256, PrincipalsJson}.

(** The texts of distinct identifiers, at most 1024. *)
Definition id_list (values : list string) (found : gset Uuid) : Prop :=
  ∃ l, NoDup l ∧ Forall uuid_ok l ∧ values = uuid_to_string <$> l ∧ found = list_to_set l ∧
    (length l ≤ 1024)%nat.

Record configured (record : PrincipalRecord) (entry : list byte * Principal) : Prop := {
  cf_id : pr_id entry.2 = pf_id record ∧ identifier (pf_id record) = true;
  cf_digest : length entry.1 = 32%nat ∧ pf_token_sha256 record = hex entry.1;
  cf_authority :
    match authority entry.2 with
    | Owner tenant =>
      pf_role record = "owner"%string ∧ uuid_ok tenant ∧
      pf_tenant_id record = Some (uuid_to_string tenant) ∧ pf_worker_id record = None ∧
      pf_allowed_grants record = [] ∧ pf_allowed_tenants record = []
    | Invoker tenant grants =>
      pf_role record = "invoker"%string ∧ uuid_ok tenant ∧
      pf_tenant_id record = Some (uuid_to_string tenant) ∧ pf_worker_id record = None ∧
      id_list (pf_allowed_grants record) grants ∧ pf_allowed_tenants record = []
    | Worker worker_id tenants =>
      pf_role record = "worker"%string ∧ pf_tenant_id record = None ∧
      pf_worker_id record = Some worker_id ∧ identifier worker_id = true ∧
      pf_allowed_grants record = [] ∧ tenants ≠ ∅ ∧ id_list (pf_allowed_tenants record) tenants
    end;
}.

Lemma canonical_uuid_Ok value id :
  canonical_uuid value = Ok id ↔ uuid_ok id ∧ value = uuid_to_string id.
Proof.
  unfold canonical_uuid. split.
  - intros Hc. inv_ok. bools. split; [by eapply uuid_parse_ok|done].
  - intros [Hid ->]. rewrite uuid_parse_to_string by done. simpl.
    by rewrite bool_decide_eq_true_2.
Qed.

Lemma try_map_canonical values l :
  try_map canonical_uuid values = Ok l ↔ Forall uuid_ok l ∧ values = uuid_to_string <$> l.
Proof.
  rewrite try_map_Ok. split.
  - induction 1 as [|v u values l Hv Hall [IH1 IH2]]; [done|].
    apply canonical_uuid_Ok in Hv as [Hu ->]. split; [by constructor|]. simpl. by f_equal.
  - intros [Hl ->]. induction Hl as [|u l Hu Hl IH]; simpl; constructor; [|done].
    by apply canonical_uuid_Ok.
Qed.

Lemma ids_Ok values found : ids values = Ok found ↔ id_list values found.
Proof.
  unfold ids, id_list. rewrite guard_Ok, bind_Ok. cbv zeta. setoid_rewrite try_map_canonical.
  split.
  - intros [Hlen (l & [Hok ->] & Hrest)]. apply guard_Ok in Hrest as [Hsz [= <-]]. bools.
    rewrite length_fmap in *. exists l. split_and!; try done; [|lia].
    by apply size_list_to_set_NoDup.
  - intros (l & Hnd & Hok & -> & -> & Hlen). rewrite length_fmap. split; [apply Z.ltb_ge; lia|].
    exists l. split; [done|]. apply guard_Ok. split; [|done].
    apply negb_false_iff, bool_decide_eq_true. by apply size_list_to_set_NoDup.
Qed.

Lemma digest_Ok record digest :
  bad_digest_text (pf_token_sha256 record) = false ∧ digest = token_digest (pf_token_sha256 record) ↔
  length digest = 32%nat ∧ pf_token_sha256 record = hex digest.
Proof.
  assert (bad_digest_text (pf_token_sha256 record) = false ∧
    digest = token_digest (pf_token_sha256 record) ↔
    digest_bytes (pf_token_sha256 record) = Ok digest) as ->.
  { unfold digest_bytes. rewrite guard_Ok. unfold bad_digest_text, is_lower_hex, token_digest.
    split; [by intros [? ->]|by intros [? [= ->]]]. }
  rewrite digest_bytes_Ok. naive_solver.
Qed.
End configured.

Section parsing.
Context `{UuidTextLaws, Sha256, PrincipalsJson}.

Lemma id_list_nil found : id_list [] found ↔ found = ∅.
Proof.
  split.
  - by intros ([|u l] & _ & _ & Hl & -> & _).
  - intros ->. exists []. split_and!; try done; [constructor|simpl; lia].
Qed.

Lemma id_list_empty values : id_list values ∅ → values = [].
Proof.
  intros ([|u l] & _ & _ & -> & Hl & _); [done|]. exfalso. simpl in Hl. set_solver.
Qed.

Lemma record_authority_Ok record a digest :
  length digest = 32%nat → pf_token_sha256 record = hex digest → identifier (pf_id record) = true →
  record_authority record = Ok a ↔ configured record (digest, mkPrincipal (pf_id record) a).
Proof.
  intros Hlen Hdig Hid. unfold record_authority. split.
  - intros Ha. split; [done|done|]. simpl.
    destruct (_ && _) eqn:Hc.
    + bools. inv_ok. match goal with Hu : canonical_uuid _ = _, Hi : ids _ = _ |- _ =>
        apply canonical_uuid_Ok in Hu as [Hok ->]; apply ids_Ok in Hi end.
      case_bool_decide as Hrole; inv_ok; bools; subst.
      * split_and!; try done. by apply id_list_empty.
      * match goal with Hr : _ ∨ _ |- _ => by destruct Hr end.
    + clear Hc. destruct (_ && _) eqn:Hc; [|done]. bools. inv_ok. bools.
      match goal with Hi : ids _ = _ |- _ => apply ids_Ok in Hi end. done.
  - intros [_ _ Ha]. simpl in Ha. destruct a as [t|t gs|w ts].
    + destruct Ha as (Hrole & Ht & -> & -> & -> & ->). rewrite Hrole. simpl.
      assert (canonical_uuid (uuid_to_string t) = Ok t) as -> by (by apply canonical_uuid_Ok).
      simpl. assert (ids [] = Ok ∅) as -> by (by apply ids_Ok, id_list_nil). simpl.
      by rewrite bool_decide_eq_true_2.
    + destruct Ha as (Hrole & Ht & -> & -> & Hg%ids_Ok & ->). rewrite Hrole. simpl.
      assert (canonical_uuid (uuid_to_string t) = Ok t) as -> by (by apply canonical_uuid_Ok).
      simpl. by rewrite Hg.
    + destruct Ha as (Hrole & -> & -> & Hw & -> & Hne & Ht%ids_Ok). rewrite Hrole. simpl.
      rewrite Ht. simpl. rewrite Hw, bool_decide_eq_false_2 by done. done.
Qed.

(** The records of a file and what they are parsed to, names and digests being
    distinct and none of those already taken. *)
Lemma parse_records_Ok records names hashes entries :
  parse_records records names hashes = Ok entries ↔
  Forall2 configured records entries ∧
  NoDup (pf_id <$> records) ∧ Forall (λ r, pf_id r ∉ names) records ∧
  NoDup entries.*1 ∧ Forall (λ e, e.1 ∉ hashes) entries.
Proof.
  revert names hashes entries. induction records as [|record records IH]; intros names hashes entries;
    cbn [parse_records].
  { split.
    - intros [= <-]. split_and!; constructor.
    - by intros (->%Forall2_nil_inv_l & _). }
  rewrite guard_Ok. cbv zeta. split.
  - intros [Hbad Hp]. bools. inv_ok. bools.
    match goal with Hr : parse_records _ _ _ = _ |- _ => apply IH in Hr as (Hall & Hn & Hnn & Hd & Hdn) end.
    match goal with Hr : bad_digest_text _ = false |- _ =>
      pose proof (proj1 (digest_Ok record _) (conj Hr eq_refl)) as [Hlen Hhex] end.
    match goal with Ha : record_authority _ = _ |- _ =>
      apply (record_authority_Ok _ _ (token_digest (pf_token_sha256 record))) in Ha; [|done..] end.
    rewrite !fmap_cons, !NoDup_cons, !Forall_cons. simpl. split_and!; try done.
    + by constructor.
    + intros Hin. apply list_elem_of_fmap in Hin as (r & Hr & Hin).
      rewrite Forall_forall in Hnn. apply (Hnn r Hin). set_solver.
    + eapply Forall_impl; [exact Hnn|]. simpl. set_solver.
    + intros Hin. apply list_elem_of_fmap in Hin as (e & He & Hin).
      rewrite Forall_forall in Hdn. apply (Hdn e Hin). set_solver.
    + eapply Forall_impl; [exact Hdn|]. simpl. set_solver.
  - intros (Hall & Hn & Hnn & Hd & Hdn).
    apply Forall2_cons_inv_l in Hall as ([digest p] & entries' & Hc & Hall & ->).
    rewrite !fmap_cons, !NoDup_cons, !Forall_cons in *. simpl in *. destruct_and!.
    pose proof Hc as [[Hpid Hident] [Hlen Hhex] _]. simpl in *.
    destruct (proj2 (digest_Ok record digest) (conj Hlen Hhex)) as [Hbad Hdig]. subst digest.
    destruct p as [pid a]. simpl in *. subst pid.
    split.
    + rewrite Hident, Hbad. simpl. by rewrite bool_decide_eq_false_2.
    + apply guard_Ok. split; [by apply bool_decide_eq_false_2|].
      apply bind_Ok. exists a. split.
      { by apply (record_authority_Ok _ _ (token_digest (pf_token_sha256 record))). }
      apply bind_Ok. exists entries'. split; [|done]. apply IH. split_and!; try done.
      * apply Forall_forall. intros r Hr. rewrite not_elem_of_union, not_elem_of_singleton. split.
        -- intros Heq. match goal with Hx : pf_id record ∉ _ <$> _ |- _ => apply Hx end.
           rewrite <- Heq. by apply list_elem_of_fmap_2.
        -- by eapply Forall_forall in Hr; [|done].
      * apply Forall_forall. intros e He. rewrite not_elem_of_union, not_elem_of_singleton. split.
        -- intros Heq. match goal with Hx : token_digest _ ∉ _.*1 |- _ => apply Hx end.
           rewrite <- Heq. by apply list_elem_of_fmap_2.
        -- by eapply Forall_forall in He; [|done].
Qed.
End parsing.

(** ** The lookup *)

Lemma foldl_match digest (self : list (list byte * Principal)) acc p :
  NoDup self.*1 →
  foldl (λ matched entry, if decide (entry.1 = digest) then Some entry.2 else matched) acc self =
    Some p ↔
  (digest, p) ∈ self ∨ ((digest ∉ self.*1) ∧ acc = Some p).
Proof.
  revert acc. induction self as [|[d q] self IH]; intros acc Hnd; simpl.
  - split; [intros ->; right; split; [set_solver|done]|]. by intros [?%elem_of_nil|[_ ->]].
  - rewrite fmap_cons in Hnd. apply NoDup_cons in Hnd as [Hd Hnd]. rewrite IH by done. simpl in *.
    rewrite elem_of_cons, not_elem_of_cons. case_decide as Heq; subst.
    + split.
      * intros [Hin|[_ [= ->]]]; [|auto]. left. by right.
      * intros [[[= ->]|Hin]|[[? _] _]]; [right; auto|auto|done].
    + split; [|naive_solver]. intros [Hin|[Hn ->]]; [auto|]. right. split; [|done]. by split.
Qed.

Lemma last_match_Some digest (self : list (list byte * Principal)) p :
  NoDup self.*1 → last_match digest self = Some p ↔ (digest, p) ∈ self.
Proof. intros Hnd. unfold last_match. rewrite foldl_match by done. naive_solver. Qed.

Lemma last_match_elem digest (self : list (list byte * Principal)) p :
  last_match digest self = Some p → (digest, p) ∈ self.
Proof.
  unfold last_match. induction self as [|[d q] self IH] using rev_ind; [done|].
  rewrite foldl_app. simpl. rewrite elem_of_app, list_elem_of_singleton.
  case_decide as Hd; [|auto]. subst. intros [= ->]. by right.
Qed.

Lemma strip_prefix_Some prefix value token :
  strip_prefix prefix value = Some token ↔ bytes value = bytes prefix ++ bytes token.
Proof.
  unfold strip_prefix. split.
  - case_decide as Hp; [|done]. intros [= <-]. rewrite bytes_text. rewrite <- Hp at 1.
    by rewrite take_drop.
  - intros Hv. rewrite Hv, take_app_length, decide_True, drop_app_length by done.
    f_equal. by rewrite text_bytes.
Qed.

(** A credential's token: 32 to 256 visible ASCII bytes. *)
Definition token_ok (token : string) : Prop :=
  32 ≤ str_len token ≤ 256 ∧ Forall (λ b, is_ascii_graphic b = true) (bytes token).

Lemma bad_token_false token : bad_token token = false ↔ token_ok token.
Proof.
  unfold bad_token, token_ok. bools. rewrite forallb_forall, Forall_forall.
  setoid_rewrite list_elem_of_In. done.
Qed.

Module AuthDemo.
Import Reference.

Definition tenant : Uuid := 7.
Definition token : string := "0123456789abcdef0123456789abcdef".
Definition record : PrincipalRecord :=
  mkPrincipalRecord "ops" "owner" (hex (sha256 (bytes token))) (Some (uuid_to_string tenant)) None
    [] [].
#[global] Instance principals_json : PrincipalsJson := λ _, Some (mkFile 1 [record]).

Definition principals : list (list byte * Principal) :=
  [(sha256 (bytes token), mkPrincipal "ops" (Owner tenant))].
Lemma parsed : Principals_parse [] = Ok principals.
Proof. vm_compute. reflexivity. Qed.
Lemma authenticated :
  Principals_authenticate principals ("Bearer " +:+ token) = Ok (mkPrincipal "ops" (Owner tenant)).
Proof. vm_compute. reflexivity. Qed.
End AuthDemo.

(** ** Properties *)

(** C24: a credential stands for the principal the operator configured for
    it, and for no other.  The principals file is accepted exactly when it is of
    at most 1 MiB, has version 1 and 1 to 1024 records with distinct names and
    distinct token digests, each an owner of a tenant, an invoker with a tenant
    and grants, or a worker with a name and tenants, and nothing else; and then
    a credential authenticates as a principal exactly when it is a bearer token
    of 32 to 256 visible bytes whose SHA-256 is that principal's digest. *)
Theorem authenticate_exact `{UuidTextLaws, Sha256, PrincipalsJson} b entries :
  (Principals_parse b = Ok entries ↔
   Z.of_nat (length b) ≤ 1048576 ∧
   ∃ file, principals_from_slice b = Some file ∧ file_version file = 1 ∧
     (1 ≤ length (file_principals file) ≤ Z.to_nat 1024)%nat ∧
     NoDup (pf_id <$> file_principals file) ∧ NoDup entries.*1 ∧
     Forall2 configured (file_principals file) entries) ∧
  (Principals_parse b = Ok entries → ∀ authorization p,
     Principals_authenticate entries authorization = Ok p ↔
     ∃ token, bytes authorization = bytes "Bearer " ++ bytes token ∧ token_ok token ∧
       (sha256 (bytes token), p) ∈ entries).
Proof.
  assert (Principals_parse b = Ok entries ↔
   Z.of_nat (length b) ≤ 1048576 ∧
   ∃ file, principals_from_slice b = Some file ∧ file_version file = 1 ∧
     (1 ≤ length (file_principals file) ≤ Z.to_nat 1024)%nat ∧
     NoDup (pf_id <$> file_principals file) ∧ NoDup entries.*1 ∧
     Forall2 configured (file_principals file) entries) as Hparse.
  { unfold Principals_parse. rewrite guard_Ok, bind_Ok, Z.ltb_ge. setoid_rewrite ok_or_Ok.
    setoid_rewrite guard_Ok. setoid_rewrite parse_records_Ok.
    apply and_iff_compat_l. apply exist_proper. intros [version records]. simpl. bools. split.
    - intros (Hf & ((Hv & Hne) & Hl) & Hall & Hn & _ & Hd & _). split_and!; try done; [|lia].
      destruct records; [done|simpl; lia].
    - intros (Hf & Hv & Hl & Hn & Hd & Hall). split_and!; try done; [|lia| |].
      + intros ->. simpl in Hl. lia.
      + apply Forall_forall. set_solver.
      + apply Forall_forall. set_solver. }
  split; [exact Hparse|]. intros (_ & file & _ & _ & _ & _ & Hnd & _)%Hparse authorization p.
  unfold Principals_authenticate. rewrite bind_Ok. setoid_rewrite ok_or_Ok.
  setoid_rewrite guard_Ok. setoid_rewrite ok_or_Ok. setoid_rewrite strip_prefix_Some.
  setoid_rewrite bad_token_false. setoid_rewrite last_match_Some; [|done]. done.
Qed.

Lemma authenticate_exact_witness :
  let _ := Reference.uuid_ref in let _ := Reference.sha256_ref in
  let _ := AuthDemo.principals_json in
  ∃ token, bytes ("Bearer " +:+ AuthDemo.token) = bytes "Bearer " ++ bytes token ∧
    (sha256 (bytes token), mkPrincipal "ops" (Owner AuthDemo.tenant)) ∈ AuthDemo.principals.
Proof.
  intros u s j.
  destruct (proj1 (proj2 (authenticate_exact (H0 := Reference.uuid_ref_laws) [] AuthDemo.principals)
    AuthDemo.parsed _ _) AuthDemo.authenticated) as (token & Hb & _ & Hin).
  exists token. split; [exact Hb|exact Hin].
Defined.
