(* ===== verification/Config.v ===== *)
(** * Config: what an operator may configure

    Models [crates/control/src/config.rs].  [toml::from_str] and the parser of
    [http::Uri] are parameters; a [BTreeMap] is a [gmap], since the validation
    loop answers the same whichever entry it rejects first. *)
From S2P Require Export Limits.

(** ** Service URLs *)

Record UriAuthority := mkUriAuthority {
  ua_as_str : string;
  ua_port_u16 : option Z;
}.
Record Uri := mkUri {
  uri_scheme_str : option string;
  uri_authority : option UriAuthority;
  uri_path : string;
  uri_query : option string;
}.
(** [value.parse::<axum::http::Uri>()] *)
Class HttpUri := uri_parse : string → option Uri.

Definition local_fixture_url `{HttpUri} (value : string) : bool :=
  match uri_parse value with
  | None => false
  | Some uri =>
    match uri_authority uri with
    | None => false
    | Some authority =>
      match ua_port_u16 authority with
      | None => false
      | Some port =>
        bool_decide (uri_scheme_str uri = Some "http"%string)
        && ((bool_decide (ua_as_str authority = ("127.0.0.1:" +:+ pretty port)%string)
             && negb (port =? 0))
            || bool_decide (ua_as_str authority = "fixture:8790"%string))
        && bool_decide (uri_path uri = "/"%string) && bool_decide (uri_query uri = None)
      end
    end
  end.

(** ** The configuration *)

Inductive SocketAddr :=
  | SocketV4 (ip port : Z)
  | SocketV6 (ip port flowinfo scope_id : Z).

Record Server := mkServer {
  sv_bind : SocketAddr;
  sv_max_json_bytes : Z;
  sv_max_module_bytes : Z;
}.
Record ConfigLimits := mkConfigLimits {
  cl_max_pending_global : Z;
  cl_max_pending_per_tenant : Z;
  cl_max_active_global : Z;
  cl_max_active_per_tenant : Z;
  cl_max_attempts : Z;
  cl_lease_ms : Z;
  cl_heartbeat_ms : Z;
  cl_sweep_ms : Z;
  cl_wall_ms : Z;
  cl_memory_bytes : Z;
  cl_fuel : Z;
  cl_max_effects : Z;
  cl_max_host_calls : Z;
  cl_max_log_bytes : Z;
}.
Record Retention := mkRetention {
  rt_payload_hours : Z;
  rt_metadata_days : Z;
}.
Record Adapter := mkAdapter {
  ad_base_url : string;
  ad_idempotency : bool;
  ad_retention_seconds : Z;
  ad_retry_horizon_seconds : Z;
  ad_mode : string;
  ad_projects : list string;
  ad_namespace : option string;
}.
Record Config := mkConfig {
  cf_server : Server;
  cf_limits : ConfigLimits;
  cf_retention : Retention;
  cf_adapters : gmap string Adapter;
}.

Inductive ControlConfigError := InvalidConfiguration.

(** [toml::from_str::<Config>] *)
Class ConfigToml := toml_from_str : string → option Config.

(** Every number of the configuration is a [u64]. *)
Definition server_u64 (s : Server) : Prop :=
  is_u64 (sv_max_json_bytes s) = true ∧ is_u64 (sv_max_module_bytes s) = true.
Definition limits_fields (l : ConfigLimits) : list Z := [
  cl_max_pending_global l; cl_max_pending_per_tenant l; cl_max_active_global l;
  cl_max_active_per_tenant l; cl_max_attempts l; cl_lease_ms l; cl_heartbeat_ms l;
  cl_sweep_ms l; cl_wall_ms l; cl_memory_bytes l; cl_fuel l; cl_max_effects l;
  cl_max_host_calls l; cl_max_log_bytes l].
Definition config_u64 (c : Config) : Prop :=
  server_u64 (cf_server c) ∧ Forall (λ n, is_u64 n = true) (limits_fields (cf_limits c)).

Class ConfigTomlLaws `{ConfigToml} : Prop :=
  toml_u64 : ∀ text c, toml_from_str text = Some c → config_u64 c.

Definition identifier (value : string) : bool :=
  negb (str_is_empty value) && (str_len value <=? 64)
  && forallb (λ b, is_ascii_alphanumeric b || bool_decide (b = "-"%byte)
                   || bool_decide (b = "_"%byte)) (bytes value).

Definition bounded (c : Config) : list (Z * Z) :=
  let l := cf_limits c in [
    (sv_max_json_bytes (cf_server c), 131072);
    (sv_max_module_bytes (cf_server c), 2097152);
    (cl_max_pending_global l, 1000);
    (cl_max_pending_per_tenant l, 100);
    (cl_max_active_global l, 4);
    (cl_max_active_per_tenant l, 1);
    (cl_max_attempts l, 3);
    (cl_lease_ms l, 6000);
    (cl_heartbeat_ms l, 2000);
    (cl_sweep_ms l, 1000);
    (cl_memory_bytes l, 67108864);
    (cl_max_effects l, 8);
    (cl_max_host_calls l, 64);
    (cl_max_log_bytes l, 16384);
    (cl_wall_ms l, 60000)].

Section config.
Context `{HttpUri, ConfigToml}.

(** The body of the loop over the adapters. *)
Definition validate_adapter (entry : string * Adapter) : result ControlConfigError unit :=
  let '(alias, adapter) := entry in
  fail_if (negb (identifier alias)
    || (2048 <? str_len (ad_base_url adapter))
    || negb (local_fixture_url (ad_base_url adapter))
    || bool_decide (ad_projects adapter = [])
    || (16 <? Z.of_nat (length (ad_projects adapter)))
    || existsb (λ p, negb (identifier p)) (ad_projects adapter)
    || negb (bool_decide (size (list_to_set (ad_projects adapter) : gset string)
                          = length (ad_projects adapter)))
    || match ad_namespace adapter with
       | Some v => (64 <? str_len v) || str_is_empty v
       | None => false
       end) InvalidConfiguration;;
  if ad_idempotency adapter then
    fail_if (negb (bool_decide (ad_mode adapter = "idem"%string))
      || negb (ad_retry_horizon_seconds adapter =? 82800)
      || (ad_retention_seconds adapter <? 86400)) InvalidConfiguration
  else
    fail_if (negb (bool_decide (ad_mode adapter = "nonidem"%string))
      || negb (ad_retry_horizon_seconds adapter =? 0)
      || negb (ad_retention_seconds adapter =? 0)) InvalidConfiguration.

Definition Config_validate (self : Config) : result ControlConfigError unit :=
  let l := cf_limits self in
  fail_if (existsb (λ '(value, max), (value =? 0) || (max <? value)) (bounded self)
    || (cl_lease_ms l <=? cl_heartbeat_ms l)
    || (cl_max_pending_global l <? cl_max_pending_per_tenant l)
    || (cl_max_active_global l <? cl_max_active_per_tenant l)
    || (cl_wall_ms l =? 0)
    || (cl_fuel l =? 0)
    || negb (rt_payload_hours (cf_retention self) =? 24)
    || negb (rt_metadata_days (cf_retention self) =? 30)
    || bool_decide (cf_adapters self = ∅)
    || (16 <? Z.of_nat (size (cf_adapters self)))) InvalidConfiguration;;
  for_each validate_adapter (map_to_list (cf_adapters self)).

(** [Config::parse] *)
Definition Config_parse (b : list byte) : result ControlConfigError Config :=
  fail_if (65536 <? Z.of_nat (length b)) InvalidConfiguration;;
  text ← ok_or (from_utf8 b) InvalidConfiguration;
  value ← ok_or (toml_from_str text) InvalidConfiguration;
  Config_validate value;;
  mret value.

(** ** What an accepted configuration promises *)

Record limits_bounded (l : ConfigLimits) : Prop := {
  lb_pending_global : 1 ≤ cl_max_pending_global l ≤ 1000;
  lb_pending_tenant : 1 ≤ cl_max_pending_per_tenant l ≤ 100;
  lb_pending : cl_max_pending_per_tenant l ≤ cl_max_pending_global l;
  lb_active_global : 1 ≤ cl_max_active_global l ≤ 4;
  lb_active_tenant : cl_max_active_per_tenant l = 1;
  lb_attempts : 1 ≤ cl_max_attempts l ≤ 3;
  lb_lease : 1 ≤ cl_lease_ms l ≤ 6000;
  lb_heartbeat : 1 ≤ cl_heartbeat_ms l ≤ 2000;
  lb_renewal : cl_heartbeat_ms l < cl_lease_ms l;
  lb_sweep : 1 ≤ cl_sweep_ms l ≤ 1000;
  lb_wall : 1 ≤ cl_wall_ms l ≤ 60000;
  lb_memory : 1 ≤ cl_memory_bytes l ≤ 67108864;
  lb_fuel : 1 ≤ cl_fuel l ≤ u64_max;
  lb_effects : 1 ≤ cl_max_effects l ≤ 8;
  lb_host_calls : 1 ≤ cl_max_host_calls l ≤ 64;
  lb_log_bytes : 1 ≤ cl_max_log_bytes l ≤ 16384;
}.

(** [http://127.0.0.1:port/] with a port, or [http://fixture:8790/]. *)
Definition fixture_address (url : string) : Prop :=
  ∃ uri authority port, uri_parse url = Some uri ∧ uri_authority uri = Some authority ∧
    ua_port_u16 authority = Some port ∧ uri_scheme_str uri = Some "http"%string ∧
    (ua_as_str authority = ("127.0.0.1:" +:+ pretty port)%string ∧ port ≠ 0 ∨
     ua_as_str authority = "fixture:8790"%string) ∧
    uri_path uri = "/"%string ∧ uri_query uri = None.

Lemma local_fixture_url_address url : local_fixture_url url = true → fixture_address url.
Proof.
  unfold local_fixture_url. intros Hu. destruct (uri_parse url) as [uri|] eqn:Hp; [|done].
  destruct (uri_authority uri) as [authority|] eqn:Ha; [|done].
  destruct (ua_port_u16 authority) as [port|] eqn:Hport; [|done].
  autorewrite with bools in Hu. exists uri, authority, port. naive_solver.
Qed.

Definition adapter_ok (alias : string) (a : Adapter) : Prop :=
  identifier alias = true ∧ fixture_address (ad_base_url a) ∧
  1 ≤ Z.of_nat (length (ad_projects a)) ≤ 16 ∧ NoDup (ad_projects a) ∧
  Forall (λ p, identifier p = true) (ad_projects a) ∧
  (* A key may be replayed only while the service still remembers it. *)
  (if ad_idempotency a
   then ad_mode a = "idem"%string ∧ ad_retry_horizon_seconds a < ad_retention_seconds a
   else ad_mode a = "nonidem"%string ∧ ad_retry_horizon_seconds a = 0).

Lemma Config_validate_limits c :
  config_u64 c → Config_validate c = Ok () → limits_bounded (cf_limits c).
Proof.
  intros [[Hj Hm] Hl] Hv. unfold limits_fields in Hl. unfold Config_validate in Hv.
  rewrite !Forall_cons in Hl. apply guard_Ok in Hv as [Hg _]. simpl in Hg.
  autorewrite with bools in *. destruct_and!.
  constructor; unfold u64_max in *; lia.
Qed.

Lemma validate_adapter_Ok alias a : validate_adapter (alias, a) = Ok () → adapter_ok alias a.
Proof.
  unfold validate_adapter. intros [Hg Hm]%guard_Ok. autorewrite with bools in Hg.
  destruct Hg as [[[[[[[Hid Hlen] Hurl] Hne] Hmax] Hp] Hsize%size_list_to_set_NoDup] Hns].
  split_and!; try done; try lia; [by apply local_fixture_url_address|..].
  - destruct (ad_projects a); [done|simpl; lia].
  - apply Forall_forall. intros p Hin. apply not_false_iff_true. intros Hf.
    apply not_true_iff_false in Hp. apply Hp, existsb_exists. exists p. split; [|by rewrite Hf].
    by apply list_elem_of_In.
  - destruct (ad_idempotency a); apply fail_if_Ok in Hm; autorewrite with bools in Hm;
      destruct_and?; split; (done || lia).
Qed.

Lemma Config_validate_adapters c :
  Config_validate c = Ok () → map_Forall adapter_ok (cf_adapters c).
Proof.
  intros [_ Hall%for_each_Ok]%guard_Ok. apply map_Forall_to_list.
  eapply Forall_impl; [exact Hall|]. intros [alias a]. apply validate_adapter_Ok.
Qed.

Lemma Config_parse_Ok b c : Config_parse b = Ok c →
  (∃ text, toml_from_str text = Some c) ∧ Config_validate c = Ok ().
Proof. unfold Config_parse. intros Hp. inv_ok. split; [by eexists|done]. Qed.
End config.
