(* ===== verification/GrantRequest.v ===== *)
(** * GrantRequest: which authorities a client may ask for

    Models [Bounds] and [GrantCreate::normalize] of
    [crates/control/src/grants/mod.rs]: the operator's adapters bound the
    authority of every grant. *)
From S2P Require Export Config Grants.

Record Bounds := mkBounds {
  bo_actions : gset string;
  bo_projects_by_destination : gmap string (gset string);
}.

(** [Bounds::from_config] *)
Definition from_config (adapters : gmap string Adapter) : Bounds := {|
  bo_actions := {["ticket.create"%string]};
  bo_projects_by_destination := (λ adapter, list_to_set (ad_projects adapter)) <$> adapters;
|}.

(** [Bounds::permits] *)
Definition permits (self : Bounds) (authority : Authority) : bool :=
  bool_decide (actions authority ⊆ bo_actions self)
  && forallb (λ destination,
       match bo_projects_by_destination self !! destination with
       | Some allowed => bool_decide (projects authority ⊆ allowed)
       | None => false
       end) (elements (destinations authority)).

Record GrantCreate := mkGrantCreate {
  gc_actions : list string;
  gc_destinations : list string;
  gc_projects : list string;
  gc_expires_at : string;
  gc_max_effects : Z;
}.

(** [OffsetDateTime::parse(_, &Rfc3339)], as its [unix_timestamp_nanos]. *)
Class Rfc3339 := rfc3339_nanos : string → option Z.

Section normalize.
Context `{Rfc3339}.

(** [GrantCreate::normalize] *)
Definition GrantCreate_normalize (self : GrantCreate) (bounds : Bounds) :
    result GrantError Authority :=
  fail_if (bool_decide (gc_actions self = []) || (16 <? Z.of_nat (length (gc_actions self)))
    || bool_decide (gc_destinations self = [])
    || (16 <? Z.of_nat (length (gc_destinations self)))
    || bool_decide (gc_projects self = [])
    || (16 <? Z.of_nat (length (gc_projects self)))) GInvalid;;
  let action_count := length (gc_actions self) in
  let destination_count := length (gc_destinations self) in
  let project_count := length (gc_projects self) in
  let actions : gset string := list_to_set (gc_actions self) in
  let destinations : gset string := list_to_set (gc_destinations self) in
  let projects : gset string := list_to_set (gc_projects self) in
  fail_if (negb (bool_decide (size actions = action_count))
    || negb (bool_decide (size destinations = destination_count))
    || negb (bool_decide (size projects = project_count))) GInvalid;;
  expires ← ok_or (rfc3339_nanos (gc_expires_at self)) GInvalid;
  expires_at_ms ← ok_or (checked_i64 (Z.quot expires 1000000)) GInvalid;
  let authority := {|
    actions := actions; destinations := destinations; projects := projects;
    expires_at_ms := expires_at_ms; au_max_effects := gc_max_effects self;
  |} in
  Authority_validate_shape authority;;
  fail_if (negb (permits bounds authority)) GEscalation;;
  mret authority.

(** ** What an accepted request is *)

(** The operator configured every destination, and for each of them every
    project, the authority may be used for. *)
Definition within_adapters (adapters : gmap string Adapter) (authority : Authority) : Prop :=
  actions authority = {["ticket.create"%string]} ∧
  ∀ destination project,
    destination ∈ destinations authority → project ∈ projects authority →
    ∃ adapter, adapters !! destination = Some adapter ∧ project ∈ ad_projects adapter.

Lemma permits_true bounds authority :
  permits bounds authority = true ↔
  actions authority ⊆ bo_actions bounds ∧
  ∀ destination, destination ∈ destinations authority →
    ∃ allowed, bo_projects_by_destination bounds !! destination = Some allowed ∧
      projects authority ⊆ allowed.
Proof.
  unfold permits. rewrite andb_true_iff, bool_decide_eq_true, forallb_forall. f_equiv.
  split; intros Hall d Hd.
  - specialize (Hall d). rewrite <-list_elem_of_In, elem_of_elements in Hall. specialize (Hall Hd).
    destruct (_ !! d) as [allowed|]; [|done]. exists allowed. by rewrite bool_decide_eq_true in Hall.
  - apply list_elem_of_In, elem_of_elements in Hd. destruct (Hall d Hd) as (allowed & -> & Hsub).
    by apply bool_decide_eq_true.
Qed.

Lemma permits_from_config adapters authority :
  permits (from_config adapters) authority = true → size (actions authority) = 1%nat →
  within_adapters adapters authority.
Proof.
  rewrite permits_true. intros [Ha Hd] Hsize. split.
  - simpl in Ha. apply size_1_elem_of in Hsize as [x Hx]. set_solver.
  - intros d p Hin Hp. destruct (Hd d Hin) as (allowed & Hl & Hsub). simpl in Hl.
    rewrite lookup_fmap in Hl. destruct (adapters !! d) as [a|]; [|done].
    injection Hl as <-. exists a. set_solver.
Qed.

(** The request names [authority] without repetition. *)
Record names (self : GrantCreate) (authority : Authority) : Prop := {
  na_actions : NoDup (gc_actions self) ∧ actions authority = list_to_set (gc_actions self);
  na_destinations :
    NoDup (gc_destinations self) ∧ destinations authority = list_to_set (gc_destinations self);
  na_projects : NoDup (gc_projects self) ∧ projects authority = list_to_set (gc_projects self);
  na_expires : ∃ nanos, rfc3339_nanos (gc_expires_at self) = Some nanos ∧
    expires_at_ms authority = Z.quot nanos 1000000 ∧
    is_i64 (expires_at_ms authority) = true;
  na_effects : au_max_effects authority = gc_max_effects self;
}.

Lemma GrantCreate_normalize_inv self bounds authority :
  GrantCreate_normalize self bounds = Ok authority →
  names self authority ∧ Authority_validate_shape authority = Ok () ∧
  permits bounds authority = true.
Proof.
  unfold GrantCreate_normalize. intros [_ [Hsz Hn]%guard_Ok]%guard_Ok.
  autorewrite with bools in Hsz. rewrite !size_list_to_set_NoDup in Hsz.
  destruct Hsz as [[Ha Hd] Hp]. inv_ok. bools.
  match goal with E : checked_i64 _ = Some _ |- _ => apply checked_Some in E as [Hr ->] end.
  split; [|done]. constructor; simpl; eauto.
  eexists. split_and!; [done|done|]. unfold in_range. bools. lia.
Qed.

Lemma shape_sizes authority :
  Authority_validate_shape authority = Ok () →
  size (actions authority) = 1%nat ∧ "ticket.create"%string ∈ actions authority ∧
  (0 < size (destinations authority) ≤ 16)%nat ∧ (0 < size (projects authority) ≤ 16)%nat.
Proof.
  unfold Authority_validate_shape. intros [_ [Hs Hall%for_each_Ok]%guard_Ok]%guard_Ok.
  rewrite !Forall_cons in Hall. unfold alias_set in Hall. rewrite !fail_if_Ok in Hall.
  autorewrite with bools in *. destruct_and!.
  repeat match goal with H : _ ≠ ∅ |- _ =>
    rewrite <-leibniz_equiv_iff, <-size_non_empty_iff in H end.
  split_and!; (done || lia).
Qed.

Lemma named_length (l : list string) (X : gset string) n :
  NoDup l → X = list_to_set l → (0 < size X ≤ n)%nat → (0 < length l ≤ n)%nat.
Proof. intros Hl ->. by apply size_list_to_set_NoDup in Hl as ->. Qed.

Lemma GrantCreate_normalize_run self bounds authority :
  names self authority → Authority_validate_shape authority = Ok () →
  GrantCreate_normalize self bounds =
    if permits bounds authority then Ok authority else Err GEscalation.
Proof.
  intros [[Ha Hae] [Hd Hde] [Hp Hpe] (nanos & Hn & Hq & Hr) He] Hs.
  destruct (shape_sizes _ Hs) as (Hsa & _ & Hsd & Hsp).
  pose proof (named_length _ _ 1 Ha Hae ltac:(lia)) as La.
  pose proof (named_length _ _ _ Hd Hde Hsd) as Ld.
  pose proof (named_length _ _ _ Hp Hpe Hsp) as Lp.
  unfold GrantCreate_normalize.
  match goal with |- fail_if ?c _ ≫= _ = _ => assert (c = false) as -> end.
  { autorewrite with bools. split_and!; try lia; intros Hnil; rewrite Hnil in *; simpl in *; lia. }
  match goal with |- fail_if false _ ≫= ?f = _ => change (f () = if permits bounds authority then Ok authority else Err GEscalation); cbv beta zeta end.
  match goal with |- fail_if ?c _ ≫= _ = _ => assert (c = false) as -> end.
  { autorewrite with bools. by rewrite !size_list_to_set_NoDup. }
  rewrite Hn. cbn [fail_if ok_or mbind result_bind]. unfold checked_i64, checked.
  rewrite <-Hq, Hr. cbn [ok_or mbind result_bind].
  rewrite <-Hae, <-Hde, <-Hpe, <-He.
  replace (mkAuthority _ _ _ _ _) with authority by (by destruct authority).
  rewrite Hs. by destruct (permits bounds authority).
Qed.

Lemma permits_within adapters authority :
  Authority_validate_shape authority = Ok () →
  permits (from_config adapters) authority = true ↔ within_adapters adapters authority.
Proof.
  intros Hs. destruct (shape_sizes _ Hs) as (Hsize & _ & _ & Hproj). split.
  - intros Hp. by apply permits_from_config.
  - intros [Ha Hd]. apply permits_true. split; [by rewrite Ha|]. intros d Hin.
    simpl. rewrite lookup_fmap.
    destruct (size_pos_elem_of (projects authority)) as [p0 Hp0]; [lia|].
    destruct (Hd d p0 Hin Hp0) as (a & Hl & _). rewrite Hl. eexists. split; [done|].
    intros p Hp. destruct (Hd d p Hin Hp) as (a' & Hl' & Hpa). simplify_eq. set_solver.
Qed.
Lemma shape_error authority e : Authority_validate_shape authority = Err e → e = GInvalid.
Proof.
  unfold Authority_validate_shape. intros [[_ <-]|[_ [[_ <-]|[_ Hall]]%guard_Err]]%guard_Err;
    [done|done|]. apply for_each_Err in Hall as (pre & x & post & _ & _ & Hx).
  unfold alias_set in Hx. by apply fail_if_Err in Hx as [_ <-].
Qed.

(** An escalation is a well-formed request for more than the operator allows. *)
Lemma GrantCreate_normalize_escalation self bounds :
  GrantCreate_normalize self bounds = Err GEscalation →
  ∃ authority, names self authority ∧ Authority_validate_shape authority = Ok () ∧
    permits bounds authority = false.
Proof.
  unfold GrantCreate_normalize. intros [[_ [=]]|[_ [[_ [=]]|[Hsz He]]%guard_Err]]%guard_Err.
  autorewrite with bools in Hsz. rewrite !size_list_to_set_NoDup in Hsz.
  destruct Hsz as [[Ha Hd] Hp].
  apply bind_Err in He as [[_ [=]]%ok_or_Err|(nanos & Hn%ok_or_Ok & He)].
  apply bind_Err in He as [[_ [=]]%ok_or_Err|(ms & [Hr ->]%ok_or_Ok%checked_Some & He)].
  apply bind_Err in He as [[=]%shape_error|([] & Hs & [[Hb _]|[_ [=]]]%guard_Err)].
  eexists. split; [|split; [exact Hs|by apply negb_true_iff]].
  constructor; simpl; eauto. eexists. split_and!; [done|done|]. unfold in_range. bools. lia.
Qed.
End normalize.

(** ** Properties *)

(** C26: a grant request is accepted exactly when it names, without
    repetition, a well-formed authority the operator configured: the one action,
    and for every destination every project of the request.  A well-formed
    request for more is told apart as an escalation, and nothing else is. *)
Theorem grant_request_exact `{Rfc3339} self adapters :
  (∀ authority, GrantCreate_normalize self (from_config adapters) = Ok authority ↔
     names self authority ∧ Authority_validate_shape authority = Ok () ∧
     within_adapters adapters authority) ∧
  (GrantCreate_normalize self (from_config adapters) = Err GEscalation ↔
     ∃ authority, names self authority ∧ Authority_validate_shape authority = Ok () ∧
       ¬ within_adapters adapters authority).
Proof.
  split; [intros authority|]; split.
  - intros (Hn & Hs & Hp)%GrantCreate_normalize_inv. rewrite <-permits_within by done. done.
  - intros (Hn & Hs & Hw). apply permits_within in Hw; [|done].
    by rewrite (GrantCreate_normalize_run _ _ authority), Hw.
  - intros (authority & Hn & Hs & Hp)%GrantCreate_normalize_escalation. exists authority.
    rewrite <-permits_within, Hp by done. done.
  - intros (authority & Hn & Hs & Hw). rewrite <-permits_within in Hw by done.
    rewrite (GrantCreate_normalize_run _ _ authority) by done. by destruct (permits _ _).
Qed.
