(* ===== verification/Api.v ===== *)
(** * Api: authenticated admission over HTTP

    Models [crates/control/src/api/mod.rs]: the state the handlers share, the
    credential check in front of them, module uploads and run submissions.  A
    handler is a computation on the database that may return early with a
    response; what [axum] extracts from a request (a header's values, a path
    segment, a decoded body or the status of its rejection) is an argument. *)
From S2P Require Export Validate Auth GrantRequest Scheduler.

(** ** Responses *)

Abbreviation StatusCode := Z (only parsing).
Definition OK : StatusCode := 200.
Definition CREATED : StatusCode := 201.
Definition ACCEPTED : StatusCode := 202.
Definition BAD_REQUEST : StatusCode := 400.
Definition UNAUTHORIZED : StatusCode := 401.
Definition FORBIDDEN : StatusCode := 403.
Definition NOT_FOUND : StatusCode := 404.
Definition CONFLICT : StatusCode := 409.
Definition PAYLOAD_TOO_LARGE : StatusCode := 413.
Definition UNSUPPORTED_MEDIA_TYPE : StatusCode := 415.
Definition UNPROCESSABLE_ENTITY : StatusCode := 422.
Definition TOO_MANY_REQUESTS : StatusCode := 429.
Definition SERVICE_UNAVAILABLE : StatusCode := 503.

Record ModuleResponse := mkModuleResponse {
  mr_digest : string;
  mr_size_bytes : Z;
  mr_abi_version : Z;
}.
Record EffectView := mkEffectView {
  evw_ordinal : Z;
  evw_state : string;
  evw_request_hash : string;
  evw_provider_key : string;
  evw_send_attempts : Z;
}.
Record RunView := mkRunView {
  rv_id : Uuid;
  rv_state : string;
  rv_module_digest : string;
  rv_grant_id : Uuid;
  rv_created_at : string;
  rv_updated_at : string;
  rv_lease_epoch : Z;
  rv_attempt : Z;
  rv_cancel_requested : bool;
  rv_output_b64 : option string;
  rv_error_code : option string;
  rv_effects : list EffectView;
}.
(** [GrantView] and [RevocationView] of [grants/mod.rs]. *)
Record GrantView := mkGrantView {
  gv_id : Uuid;
  gv_parent_id : option Uuid;
  gv_depth : Z;
  gv_actions : list string;
  gv_destinations : list string;
  gv_projects : list string;
  gv_expires_at : string;
  gv_max_effects : Z;
  gv_used_effects : Z;
  gv_remaining_effects : Z;
  gv_revoked_at : option string;
  gv_ancestry : list Uuid;
}.
Record RevocationView := mkRevocationView {
  rvw_id : Uuid;
  rvw_revoked_at : string;
}.
(** The objects the handlers of [scheduler/mod.rs] answer with. *)
Record LeaseView := mkLeaseView {
  lv_run_id : Uuid;
  lv_epoch : Z;
  lv_expires_at : string;
  lv_module_digest : string;
  lv_module_b64 : string;
  lv_input_b64 : string;
  lv_limits : string;
}.

(** A body, before [serde_json] writes it. *)
Inductive Body :=
  | ErrorBody (code message request_id : string) (retryable : bool)
  | ModuleBody (response : ModuleResponse)
  | RunBody (view : RunView)
  | GrantBody (view : GrantView)
  | RevocationBody (view : RevocationView)
  | LeaseBody (lease : option LeaseView)
  | HeartbeatBody (expires_at : string) (cancel_requested : bool)
  | StateBody (state : string).

Record Response := mkResponse {
  rs_status : StatusCode;
  rs_retry_after : option string;
  rs_body : Body;
}.
Definition reply (status : StatusCode) (body : Body) : Response := mkResponse status None body.

(** ** The state of the handlers *)

Record ApiState := mkApiState {
  st_caps : Limits;
  st_max_pending_global : Z;
  st_max_pending_tenant : Z;
  st_grant_bounds : Bounds;
  st_lease_ms : Z;
  st_max_active_global : Z;
  st_max_active_per_tenant : Z;
  st_max_attempts : Z;
}.

(** [z as u8] *)
Definition wrap_u8 (z : Z) : Z := z mod 256.

(** [ApiState::new] *)
Definition ApiState_new (configuration : Config) : ApiState :=
  let limits := cf_limits configuration in {|
    st_caps := {|
      fuel := cl_fuel limits;
      memory_bytes := cl_memory_bytes limits;
      wall_ms := cl_wall_ms limits;
      max_effects := cl_max_effects limits;
    |};
    st_max_pending_global := cl_max_pending_global limits;
    st_max_pending_tenant := cl_max_pending_per_tenant limits;
    st_grant_bounds := from_config (cf_adapters configuration);
    st_lease_ms := cl_lease_ms limits;
    st_max_active_global := wrap_u8 (cl_max_active_global limits);
    st_max_active_per_tenant := wrap_u8 (cl_max_active_per_tenant limits);
    st_max_attempts := wrap_u8 (cl_max_attempts limits);
  |}.

(** ** Calls to the store

    What a handler learns of its transaction: an unreachable database ran
    nothing; a commit whose acknowledgement is lost has happened, and is an
    error like any other to the handler. *)
Inductive Fate := Acknowledged | Unreachable | Unacknowledged.

(** What the run of a request depends on besides the database: the fate of its
    transaction, the readings of the clock, and the fresh identifiers of the
    store and of an error. *)
Record Env := mkEnv {
  en_fate : Fate;
  en_clock : nat → Z;
  en_fresh : Uuid;
  en_request_id : Uuid;
}.

Abbreviation Handler := (Act Db Response).

Definition store_call {A} (fate : Fate) (op : StoreTx A) : Handler (result Error A) := λ db,
  match fate, op db with
  | Unreachable, _ => (Ok (Err Database), db)
  | Acknowledged, Ok (a, db') => (Ok (Ok a), db')
  | Unacknowledged, Ok (_, db') => (Ok (Err Database), db')
  | _, Err e => (Ok (Err e), db)
  end.

(** The response of a handler, however it returned. *)
Definition respond_with (m : Handler Response) (db : Db) : Response * Db :=
  match m db with (Ok r, db) => (r, db) | (Err r, db) => (r, db) end.

(** [HeaderValue::to_str] *)
Class HeaderText := header_to_str : list byte → option string.

Section api.
Context `{UuidText, HeaderText}.

Definition error (env : Env) (status : StatusCode) (code message : string) (retryable : bool) :
    Response :=
  reply status (ErrorBody code message (uuid_to_string (en_request_id env)) retryable).

(** [return error(...)] *)
Definition return_error {A} (env : Env) (status : StatusCode) (code message : string)
    (retryable : bool) : Handler A :=
  act_stop id (error env status code message retryable).
(** [if cond { return error(...) }] *)
Definition return_error_if (env : Env) (cond : bool) (status : StatusCode)
    (code message : string) : Handler unit :=
  if cond then return_error env status code message false else mret ().
(** [match r { Ok(a) => a, Err(_) => return error(...) }] *)
Definition or_error {E A} (env : Env) (r : result E A) (status : StatusCode)
    (code message : string) : Handler A :=
  match r with Ok a => mret a | Err _ => return_error env status code message false end.

(** A rejected [Json] payload. *)
Definition json_code (status : StatusCode) : string :=
  if status =? PAYLOAD_TOO_LARGE then "BODY_TOO_LARGE"
  else if status =? UNSUPPORTED_MEDIA_TYPE then "INVALID_MEDIA_TYPE"
  else "INVALID_JSON".
Definition json_payload {A} (env : Env) (message : string) (payload : result StatusCode A) :
    Handler A :=
  match payload with
  | Ok a => mret a
  | Err status => return_error env status (json_code status) message false
  end.

(** ** The credential check *)

Context `{Sha256, PrincipalsJson}.

(** [authenticate], up to [next.run]: exactly one Authorization header. *)
Definition credential (principals : list (list byte * Principal))
    (authorization : list (list byte)) : option Principal :=
  match authorization with
  | [value] =>
    text ← header_to_str value;
    match Principals_authenticate principals text with Ok p => Some p | Err _ => None end
  | _ => None
  end.

Definition authenticate (env : Env) (principals : list (list byte * Principal))
    (authorization : list (list byte)) (next : Principal → Handler Response) : Handler Response :=
  match credential principals authorization with
  | Some principal => next principal
  | None => mret (error env UNAUTHORIZED "UNAUTHORIZED" "Invalid credential" false)
  end.

(** ** Modules *)

Context `{Wasmparser}.

Definition upload_module (env : Env) (principal : Principal) (content_type : option (list byte))
    (body : result StatusCode (list byte)) : Handler Response :=
  content_type ← or_error env (ok_or content_type ()) UNSUPPORTED_MEDIA_TYPE
    "INVALID_MEDIA_TYPE" "Expected application/wasm";
  return_error_if env (negb (bool_decide (content_type = bytes "application/wasm")))
    UNSUPPORTED_MEDIA_TYPE "INVALID_MEDIA_TYPE" "Expected application/wasm";;
  tenant ← or_error env (Auth.tenant principal) FORBIDDEN "FORBIDDEN" "Role is not permitted";
  body ← match body with
         | Ok body => mret body
         | Err status => return_error env status
             (if status =? PAYLOAD_TOO_LARGE then "BODY_TOO_LARGE" else "INVALID_BODY")
             "Module body is invalid" false
         end;
  or_error env (validate body) UNPROCESSABLE_ENTITY "INVALID_MODULE"
    "Module does not implement EffectLatch ABI v1";;
  let digest := sha256 body in
  stored ← store_call (en_fate env) (put_module tenant digest body);
  mret (match stored with
        | Ok kind =>
          let status := match kind with PutCreated => CREATED | PutExisting => OK end in
          reply status (ModuleBody (mkModuleResponse (hex digest) (Z.of_nat (length body)) 1))
        | Err _ => error env SERVICE_UNAVAILABLE "STORE_UNAVAILABLE"
            "Module could not be stored" true
        end).

(** ** Runs *)

Context `{Base64}.

(** [impl From<RunRecord> for RunView] *)
Definition RunView_from (run : RunRecord) : RunView := {|
  rv_id := rrec_id run; rv_state := rrec_state run;
  rv_module_digest := hex (rrec_module_digest run); rv_grant_id := rrec_grant_id run;
  rv_created_at := rrec_created_at run; rv_updated_at := rrec_updated_at run;
  rv_lease_epoch := rrec_lease_epoch run; rv_attempt := rrec_attempt run;
  rv_cancel_requested := rrec_cancel_requested run;
  rv_output_b64 := b64_encode <$> rrec_output run; rv_error_code := rrec_error_code run;
  rv_effects := (λ effect, {|
    evw_ordinal := erec_ordinal effect; evw_state := erec_state effect;
    evw_request_hash := hex (erec_request_hash effect);
    evw_provider_key := erec_provider_key effect;
    evw_send_attempts := erec_send_attempts effect;
  |}) <$> rrec_effects run;
|}.

(** The idempotency key among the values of its header. *)
Definition idempotency_key (env : Env) (values : list (list byte)) : Handler string :=
  match values with
  | [value] =>
    match header_to_str value with
    | Some value =>
      if negb (str_is_empty value) && (str_len value <=? 128)
         && forallb is_ascii_graphic (bytes value)
      then mret value
      else return_error env BAD_REQUEST "INVALID_IDEMPOTENCY_KEY"
             "Idempotency-Key must be 1..128 visible ASCII bytes" false
    | None => return_error env BAD_REQUEST "INVALID_IDEMPOTENCY_KEY"
             "Idempotency-Key must be 1..128 visible ASCII bytes" false
    end
  | _ => return_error env BAD_REQUEST "INVALID_IDEMPOTENCY_KEY"
           "Exactly one Idempotency-Key is required" false
  end.

Context `{PgTime, LimitsJson}.

Definition admission_response (env : Env) (admitted : result Error Admission) : Response :=
  match admitted with
  | Ok admission =>
    let status := match adm_kind admission with
                  | AdmissionCreated => ACCEPTED | AdmissionExisting => OK end in
    reply status (RunBody (RunView_from (adm_run admission)))
  | Err IdempotencyConflict => error env CONFLICT "IDEMPOTENCY_CONFLICT"
      "Idempotency-Key is bound to another request" false
  | Err CapacityExhausted =>
    let response := error env TOO_MANY_REQUESTS "QUEUE_FULL"
      "Pending run capacity is exhausted" true in
    mkResponse (rs_status response) (Some "1"%string) (rs_body response)
  | Err ModuleNotFound => error env NOT_FOUND "MODULE_NOT_FOUND" "Module does not exist" false
  | Err GrantDenied => error env UNPROCESSABLE_ENTITY "GRANT_DENIED" "Grant is unavailable" false
  | Err _ => error env SERVICE_UNAVAILABLE "STORE_UNAVAILABLE" "Run could not be admitted" true
  end.

(** The store's [admit_run] under this request's environment. *)
Definition submit_run (env : Env) (state : ApiState) (tenant : Uuid) (key : string)
    (request : NormalizedRun) : StoreTx Admission :=
  admit_run (en_fresh env) (en_clock env 0) (en_clock env 1) (en_clock env 2) tenant key request
    (st_max_pending_global state) (st_max_pending_tenant state).

Definition create_run (env : Env) (state : ApiState) (principal : Principal)
    (idempotency_keys : list (list byte)) (payload : result StatusCode RunCreate) :
    Handler Response :=
  tenant ← or_error env (Auth.tenant principal) FORBIDDEN "FORBIDDEN" "Role is not permitted";
  key ← idempotency_key env idempotency_keys;
  create ← json_payload env "Run body is invalid" payload;
  request ← or_error env (RunCreate_normalize create (st_caps state)) UNPROCESSABLE_ENTITY
    "INVALID_RUN" "Run request is invalid";
  return_error_if env (negb (permits_grant principal tenant (nr_grant_id request)))
    FORBIDDEN "FORBIDDEN" "Grant is not permitted";;
  admitted ← store_call (en_fate env) (submit_run env state tenant key request);
  mret (admission_response env admitted).
End api.
