(* ===== verification/GrantsApi.v ===== *)
(** * GrantsApi: owner-managed grants over HTTP

    Models the handlers of [crates/control/src/grants/mod.rs]. *)
From S2P Require Export Api.

(** [i64::saturating_sub] *)
Definition saturating_sub_i64 (a b : Z) : Z := Z.max i64_min (Z.min i64_max (a - b)).

(** [impl From<GrantRecord> for GrantView] *)
Definition GrantView_from (record : GrantRecord) : GrantView := {|
  gv_id := grec_id record; gv_parent_id := grec_parent_id record; gv_depth := grec_depth record;
  gv_actions := grec_actions record; gv_destinations := grec_destinations record;
  gv_projects := grec_projects record; gv_expires_at := grec_expires_at record;
  gv_max_effects := grec_max_effects record; gv_used_effects := grec_used_effects record;
  gv_remaining_effects :=
    saturating_sub_i64 (grec_max_effects record) (grec_used_effects record);
  gv_revoked_at := grec_revoked_at record; gv_ancestry := grec_ancestry record;
|}.

Section grants.
Context `{UuidText, PgTime, Sha256, Rfc3339}.

Definition canonical_id (value : string) : option Uuid :=
  id ← uuid_parse value;
  if negb (bool_decide (uuid_to_string id = value)) then None else Some id.

Definition not_found (env : Env) : Response :=
  error env NOT_FOUND "GRANT_NOT_FOUND" "Grant does not exist" false.

Definition grant_store_error (env : Env) (error_value : Error) : Response :=
  match error_value with
  | GrantNotFound => not_found env
  | GrantValidation _ =>
    error env UNPROCESSABLE_ENTITY "INVALID_GRANT" "Grant authority is invalid" false
  | _ => error env SERVICE_UNAVAILABLE "STORE_UNAVAILABLE"
      "Grant operation could not be completed" true
  end.

Definition grant_response (env : Env) (status : StatusCode) (stored : result Error GrantRecord) :
    Response :=
  match stored with
  | Ok record => reply status (GrantBody (GrantView_from record))
  | Err error_value => grant_store_error env error_value
  end.

Definition create (env : Env) (state : ApiState) (principal : Principal) (parent : option Uuid)
    (payload : result StatusCode GrantCreate) : Handler Response :=
  tenant ← or_error env (owner_tenant principal) FORBIDDEN "FORBIDDEN" "Owner role is required";
  create ← json_payload env "Grant body is invalid" payload;
  authority ← or_error env (GrantCreate_normalize create (st_grant_bounds state))
    UNPROCESSABLE_ENTITY "INVALID_GRANT" "Grant authority is invalid";
  stored ← store_call (en_fate env)
    (create_grant (en_fresh env) (en_clock env 0) tenant parent (pr_id principal) authority);
  mret (grant_response env CREATED stored).

Definition create_root (env : Env) (state : ApiState) (principal : Principal)
    (payload : result StatusCode GrantCreate) : Handler Response :=
  create env state principal None payload.

(** [match canonical_id(&id) { Some(id) => id, None => return not_found() }] *)
Definition path_id (env : Env) (id : string) : Handler Uuid :=
  match canonical_id id with Some id => mret id | None => act_stop (λ db, db) (not_found env) end.

Definition create_child (env : Env) (state : ApiState) (principal : Principal) (id : string)
    (payload : result StatusCode GrantCreate) : Handler Response :=
  parent ← path_id env id;
  create env state principal (Some parent) payload.

Definition get (env : Env) (principal : Principal) (id : string) : Handler Response :=
  id ← path_id env id;
  tenant ← match Auth.tenant principal with
           | Ok tenant =>
             if permits_grant principal tenant id then mret tenant
             else act_stop (λ db, db) (not_found env)
           | Err _ => act_stop (λ db, db) (not_found env)
           end;
  stored ← store_call (en_fate env) (get_grant tenant id);
  mret (grant_response env OK stored).

Definition revoke (env : Env) (principal : Principal) (id : string)
    (payload : result StatusCode string) : Handler Response :=
  id ← path_id env id;
  tenant ← or_error env (owner_tenant principal) FORBIDDEN "FORBIDDEN" "Owner role is required";
  reason ← json_payload env "Revocation body is invalid" payload;
  return_error_if env
    (str_is_empty reason || (1024 <? str_len reason) || (256 <? chars_count reason))
    UNPROCESSABLE_ENTITY "INVALID_REASON" "Revocation reason is invalid";;
  stored ← store_call (en_fate env)
    (revoke_grant (en_clock env 0) tenant id (pr_id principal) reason);
  mret (match stored with
        | Ok record => reply OK (RevocationBody (mkRevocationView (rev_id record)
            (rev_revoked_at record)))
        | Err error_value => grant_store_error env error_value
        end).
End grants.
