(* ===== verification/LeaseApi.v ===== *)
(** * LeaseApi: the workers' lease protocol over HTTP

    Models [crates/control/src/scheduler/mod.rs]: the four worker handlers and
    the sweep that reaps expired leases. *)
From S2P Require Export Api.

Record ClaimRequest := mkClaimRequest {
  cq_worker_id : string;
  cq_available_slots : Z;
}.
Record LeaseRequest := mkLeaseRequest {
  lq_worker_id : string;
  lq_lease_epoch : Z;
}.
Record FinishRequest := mkFinishRequest {
  fq_worker_id : string;
  fq_lease_epoch : Z;
  fq_output_b64 : option string;
  fq_error_code : option string;
}.

(** The tenants of the worker the credential names, when the request names the
    same one. *)
Definition worker_tenants (principal : Principal) (worker_id : string) :
    result unit (gset Uuid) :=
  match Auth.authority principal with
  | Worker configured tenants =>
    if bool_decide (configured = worker_id) then Ok tenants else Err ()
  | _ => Err ()
  end.

(** [tenants.iter().copied().collect()]: a set lists its elements in order. *)
Definition tenant_list (tenants : gset Uuid) : list Uuid := merge_sort Z.le (elements tenants).

(** [serde_json::from_str::<Value>], as the text the value is written as. *)
Class JsonText := json_value : string → option string.

Section leases.
Context `{UuidText, PgTime, Sha256, Base64, JsonText}.

Definition bad_json {A} (env : Env) : Handler A :=
  return_error env BAD_REQUEST "INVALID_JSON" "Worker request is invalid" false.
Definition worker_payload {A} (env : Env) (request : result StatusCode A) : Handler A :=
  match request with Ok request => mret request | Err _ => bad_json env end.
(** The [match] on [worker_tenants] that opens every handler, with [forbidden]
    for its refusal. *)
Definition allowed_tenants (env : Env) (principal : Principal) (worker_id : string) :
    Handler (list Uuid) :=
  tenants ← or_error env (worker_tenants principal worker_id) FORBIDDEN "FORBIDDEN"
    "Worker is not permitted";
  mret (tenant_list tenants).

Definition lease_store_error (env : Env) (e : Error) : Response :=
  match e with
  | RunNotFound => error env NOT_FOUND "RUN_NOT_FOUND" "Run does not exist" false
  | LeaseConflict => error env CONFLICT "LEASE_CONFLICT"
      "Lease is stale, expired or incompatible" false
  | Configuration _ => error env UNPROCESSABLE_ENTITY "INVALID_LEASE_REQUEST"
      "Lease request is invalid" false
  | _ => error env SERVICE_UNAVAILABLE "STORE_UNAVAILABLE" "Lease operation unavailable" true
  end.

(** The [ClaimPolicy] of [claim]. *)
Definition claim_policy (state : ApiState) : ClaimPolicy := {|
  cp_max_active_global := st_max_active_global state;
  cp_max_active_per_tenant := st_max_active_per_tenant state;
  cp_max_attempts := st_max_attempts state;
  cp_lease_ms := st_lease_ms state;
|}.

Definition claim_response (env : Env) (claimed : result Error (option Lease)) : Response :=
  match claimed with
  | Ok (Some lease) =>
    match json_value (l_limits_json lease) with
    | None => error env SERVICE_UNAVAILABLE "STORE_UNAVAILABLE" "Stored limits are invalid" false
    | Some limits =>
      reply OK (LeaseBody (Some {|
        lv_run_id := l_run lease; lv_epoch := l_epoch lease;
        lv_expires_at := l_expires_at lease;
        lv_module_digest := hex (l_module_digest lease);
        lv_module_b64 := b64_encode (l_module lease);
        lv_input_b64 := b64_encode (l_input lease); lv_limits := limits;
      |}))
    end
  | Ok None => reply OK (LeaseBody None)
  | Err e => lease_store_error env e
  end.

Definition claim (env : Env) (state : ApiState) (principal : Principal)
    (request : result StatusCode ClaimRequest) : Handler Response :=
  request ← worker_payload env request;
  tenants ← allowed_tenants env principal (cq_worker_id request);
  claimed ← store_call (en_fate env) (claim_run (en_clock env) (cq_worker_id request) tenants
    (cq_available_slots request) (claim_policy state));
  mret (claim_response env claimed).

Definition heartbeat (env : Env) (state : ApiState) (principal : Principal) (id : Uuid)
    (request : result StatusCode LeaseRequest) : Handler Response :=
  request ← worker_payload env request;
  tenants ← allowed_tenants env principal (lq_worker_id request);
  renewed ← store_call (en_fate env) (heartbeat_run (en_clock env) id (lq_worker_id request)
    tenants (lq_lease_epoch request) (st_lease_ms state));
  mret (match renewed with
        | Ok result => reply OK (HeartbeatBody (hb_expires_at result) (hb_cancel_requested result))
        | Err e => lease_store_error env e
        end).

Definition started (env : Env) (principal : Principal) (id : Uuid)
    (request : result StatusCode LeaseRequest) : Handler Response :=
  request ← worker_payload env request;
  tenants ← allowed_tenants env principal (lq_worker_id request);
  marked ← store_call (en_fate env) (mark_run_started (en_clock env) id (lq_worker_id request)
    tenants (lq_lease_epoch request));
  mret (match marked with
        | Ok _ => reply OK (StateBody "running")
        | Err e => lease_store_error env e
        end).

(** The decoded output of a finish request: canonical base64 of at most 64 KiB. *)
Definition finish_output (env : Env) (output_b64 : option string) :
    Handler (option (list byte)) :=
  match output_b64 with
  | Some encoded =>
    match b64_decode encoded with
    | Some decoded =>
      if (Z.of_nat (length decoded) <=? 65536) && bool_decide (b64_encode decoded = encoded)
      then mret (Some decoded)
      else return_error env UNPROCESSABLE_ENTITY "INVALID_OUTPUT"
             "Output must be canonical bounded base64" false
    | None => return_error env UNPROCESSABLE_ENTITY "INVALID_OUTPUT"
        "Output must be canonical bounded base64" false
    end
  | None => mret None
  end.

Definition finish (env : Env) (principal : Principal) (id : Uuid)
    (request : result StatusCode FinishRequest) : Handler Response :=
  request ← worker_payload env request;
  tenants ← allowed_tenants env principal (fq_worker_id request);
  output ← finish_output env (fq_output_b64 request);
  finished ← store_call (en_fate env) (finish_run (en_clock env) id (fq_worker_id request)
    tenants (fq_lease_epoch request) output (fq_error_code request));
  mret (match finished with
        | Ok run => reply OK (RunBody (RunView_from run))
        | Err e => lease_store_error env e
        end).

(** ** The sweep *)

(** One reaping of a tick: its clock, what commits within it, its fate. *)
Record Reaping := mkReaping {
  rg_clock : nat → Z;
  rg_between : Db → Db;
  rg_fate : Fate;
}.

(** [for _ in 0..64] of one tick. *)
Definition sweep_limit : nat := 64.

(** The loop of a tick over the reapings it may make; it counts those that
    found work. *)
Fixpoint sweep_batch (policy : ReapPolicy) (reapings : list Reaping) (db : Db) : nat * Db :=
  match reapings with
  | [] => (O, db)
  | r :: reapings =>
    match store_call (rg_fate r) (reap_one (rg_clock r) (rg_between r) policy) db with
    | (Ok (Ok (Some _)), db) =>
      let '(n, db) := sweep_batch policy reapings db in (S n, db)
    | (_, db) => (O, db)
    end
  end.
Definition sweep_tick (policy : ReapPolicy) (reapings : nat → Reaping) (db : Db) : nat * Db :=
  sweep_batch policy (reapings <$> seq 0 sweep_limit) db.

(** What [tokio::select!] took: a change of the stop signal, [None] when its
    sender is gone, or a tick of the interval. *)
Inductive SweepEvent :=
  | StopChanged (value : option bool)
  | Ticked (reapings : nat → Reaping).

(** [sweep]; the first value is whether it has returned. *)
Fixpoint sweep (policy : ReapPolicy) (events : list SweepEvent) (db : Db) : bool * Db :=
  match events with
  | [] => (false, db)
  | StopChanged None :: _ | StopChanged (Some true) :: _ => (true, db)
  | StopChanged (Some false) :: events => sweep policy events db
  | Ticked reapings :: events => sweep policy events (sweep_tick policy reapings db).2
  end.
End leases.
