(* ===== verification/Isolation.v ===== *)
(** * Isolation: whose rows an operation writes

    Every row of every table belongs to a tenant.  [agree P] says that two
    databases have the same rows of the tenants with [P]; only the scheduler's
    sequence number belongs to nobody.  [untouched T] is agreement outside the
    tenants [T]: each operation of the store keeps everything outside the tenant
    it was called for. *)
From S2P Require Export System.

Section agree.
Context (P : Uuid → Prop) `{!∀ t, Decision (P t)}.

Record agree (db db' : Db) : Prop := {
  ag_tenants : ∀ t, P t → db_tenants db' !! t = db_tenants db !! t;
  ag_modules : ∀ t d, P t → db_modules db' !! (t, d) = db_modules db !! (t, d);
  ag_grants : ∀ t g, P t → db_grants db' !! (t, g) = db_grants db !! (t, g);
  ag_runs : ∀ t r, P t → db_runs db' !! (t, r) = db_runs db !! (t, r);
  ag_effects : ∀ t r o, P t → db_effects db' !! (t, r, o) = db_effects db !! (t, r, o);
  ag_reservations : ∀ t r o g, P t →
    (t, r, o, g) ∈ db_reservations db' ↔ (t, r, o, g) ∈ db_reservations db;
  ag_events : ∀ t r s, P t → db_events db' !! (t, r, s) = db_events db !! (t, r, s);
  ag_operator : filter (λ e, P (oe_tenant e)) (db_operator_events db') =
    filter (λ e, P (oe_tenant e)) (db_operator_events db);
}.

#[export] Instance agree_equivalence : Equivalence agree.
Proof.
  split.
  - intros db. by split.
  - intros db db' [Ht Hm Hg Hr He Hv Hn Ho]. split; intros; symmetry; auto.
  - intros db1 db2 db3 [Ht Hm Hg Hr He Hv Hn Ho] [Ht' Hm' Hg' Hr' He' Hv' Hn' Ho'].
    split; intros; rewrite ?Ht', ?Hm', ?Hg', ?Hr', ?He', ?Hv', ?Hn', ?Ho' by done; auto.
Qed.
End agree.

Lemma agree_mono (P Q : Uuid → Prop) `{!∀ t, Decision (P t), !∀ t, Decision (Q t)} db db' :
  (∀ t, Q t → P t) → agree P db db' → agree Q db db'.
Proof.
  intros HQ [Ht Hm Hg Hr He Hv Hn Ho]. split; auto.
  assert (∀ l : list OperatorEvent, filter (λ e, Q (oe_tenant e)) l =
    filter (λ e, Q (oe_tenant e)) (filter (λ e, P (oe_tenant e)) l)) as Hf.
  { intros l. rewrite list_filter_filter. apply list_filter_iff. naive_solver. }
  by rewrite Hf, Ho, <-Hf.
Qed.

Abbreviation untouched T := (agree (λ t, t ∉ (T : gset Uuid))).

(** ** Operations that keep to a set of tenants *)

Definition keeps {A} (T : gset Uuid) (m : StoreTx A) : Prop :=
  ∀ db a db', m db = Ok (a, db') → untouched T db db'.

Create HintDb isolation.

Section keeps.
Context (T : gset Uuid).

Lemma keeps_bind {A B} (m : StoreTx A) (f : A → StoreTx B) :
  keeps T m → (∀ db a db', m db = Ok (a, db') → keeps T (f a)) → keeps T (m ≫= f).
Proof.
  intros Hm Hf db b db' (a & db1 & Ha & Hb)%tx_bind_Ok.
  transitivity db1; [by eapply Hm|]. by eapply Hf.
Qed.

(** Whatever only reads keeps everything. *)
Definition reads {A} (m : StoreTx A) : Prop := ∀ db a db', m db = Ok (a, db') → db' = db.
Lemma keeps_reads {A} (m : StoreTx A) : reads m → keeps T m.
Proof. by intros Hm db a db' ->%Hm. Qed.

Lemma reads_bind {A B} (m : StoreTx A) (f : A → StoreTx B) :
  reads m → (∀ a, reads (f a)) → reads (m ≫= f).
Proof. intros Hm Hf db b db' (a & db1 & ->%Hm & Hb)%tx_bind_Ok. by eapply Hf. Qed.
Lemma reads_ret {A} (a : A) : reads (mret a).
Proof. by intros db b db' [_ ->]%tx_ret_Ok. Qed.
Lemma reads_lift {A} (r : result Error A) : reads (tx_lift r).
Proof. by intros db b db' [_ ->]%tx_lift_Ok. Qed.
Lemma reads_gets {A} (f : Db → A) : reads (tx_gets f).
Proof. by intros db b db' [_ ->]%tx_gets_Ok. Qed.
Lemma reads_query {A} (f : Db → result Error A) : reads (tx_query f).
Proof. by intros db b db' [_ ->]%tx_query_Ok. Qed.
Lemma reads_fail {A} e : reads (tx_fail e : StoreTx A).
Proof. done. Qed.

Lemma keeps_update_tenant t guard f : t ∈ T → keeps T (update_tenant t guard f).
Proof.
  unfold update_tenant. intros Ht db n db' Hup. repeat case_match; simplify_eq; [|done|done].
  split; try done. intros t' Hn. simpl. rewrite lookup_insert_ne; [done|set_solver].
Qed.
Lemma keeps_update_grant t g guard f : t ∈ T → keeps T (update_grant t g guard f).
Proof.
  unfold update_grant. intros Ht db n db' Hup. repeat case_match; simplify_eq; [|done|done].
  split; try done. intros t' g' Hn. simpl. rewrite lookup_insert_ne; [done|set_solver].
Qed.
Lemma keeps_update_run t r guard f : t ∈ T → keeps T (update_run t r guard f).
Proof.
  unfold update_run. intros Ht db n db' Hup. repeat case_match; simplify_eq; [|done|done].
  split; try done. intros t' r' Hn. simpl. rewrite lookup_insert_ne; [done|set_solver].
Qed.
Lemma keeps_update_effect t r o guard f : t ∈ T → keeps T (update_effect t r o guard f).
Proof.
  unfold update_effect. intros Ht db n db' Hup. repeat case_match; simplify_eq; [|done|done].
  split; try done. intros t' r' o' Hn. simpl. rewrite lookup_insert_ne; [done|set_solver].
Qed.
Lemma keeps_insert_module t digest wasm : t ∈ T → keeps T (insert_module t digest wasm).
Proof.
  unfold insert_module. intros Ht db n db' Hup. repeat case_match; simplify_eq; [done|].
  split; try done. intros t' d' Hn. simpl. rewrite lookup_insert_ne; [done|set_solver].
Qed.
Lemma keeps_insert_run t r row : t ∈ T → keeps T (insert_run t r row).
Proof.
  intros Ht db n db' [(_ & -> & _)|(_ & _ & _ & _ & ->)]%insert_run_Ok; [done|].
  split; try done. intros t' r' Hn. simpl. rewrite lookup_insert_ne; [done|set_solver].
Qed.
Lemma keeps_insert_grant t g row : t ∈ T → keeps T (insert_grant t g row).
Proof.
  unfold insert_grant. intros Ht db n db' Hup. case_match; simplify_eq.
  split; try done. intros t' g' Hn. simpl. rewrite lookup_insert_ne; [done|set_solver].
Qed.
Lemma keeps_insert_operator_event e : oe_tenant e ∈ T → keeps T (insert_operator_event e).
Proof.
  unfold insert_operator_event. intros Ht db n db' Hup. case_match; simplify_eq.
  split; try done. simpl. rewrite filter_app, filter_cons_False, filter_nil, app_nil_r; [done|].
  by intros [].
Qed.
Lemma keeps_insert_reservation t r o g : t ∈ T → keeps T (insert_reservation t r o g).
Proof.
  unfold insert_reservation. intros Ht db n db' Hup. case_match; simplify_eq.
  split; try done. simpl. set_solver.
Qed.
Lemma keeps_insert_event t r s e : t ∈ T → keeps T (insert_event t r s e).
Proof.
  unfold insert_event. intros Ht db n db' Hup. case_match; simplify_eq.
  split; try done. intros t' r' s' Hn. simpl. rewrite lookup_insert_ne; [done|set_solver].
Qed.
Lemma keeps_for_each {A} (body : A → StoreTx unit) l :
  (∀ x, keeps T (body x)) → keeps T (tx_for_each body l).
Proof.
  intros Hb. induction l as [|x l IH]; simpl; [apply keeps_reads, reads_ret|].
  apply keeps_bind; auto.
Qed.
Lemma keeps_bump : keeps T bump_dispatch_seq.
Proof.
  unfold bump_dispatch_seq. intros db n db' Hup. repeat case_match; simplify_eq; [|done|done].
  by split.
Qed.
End keeps.

#[export] Hint Resolve keeps_update_tenant keeps_update_grant keeps_update_run
  keeps_update_effect keeps_insert_module keeps_insert_run keeps_insert_grant
  keeps_insert_operator_event keeps_insert_reservation keeps_insert_event keeps_bump
  reads_ret reads_lift reads_gets reads_query reads_fail : isolation.
#[export] Hint Extern 1 (reads (tx_fail_if _ _)) => apply reads_lift : isolation.
#[export] Hint Extern 1 (reads (tx_ok_or _ _)) => apply reads_lift : isolation.
#[export] Hint Extern 1 (reads (load_grant_chain_locked _ _)) => apply reads_query : isolation.
#[export] Hint Extern 2 (reads (fetch_one _)) =>
  apply reads_bind; [apply reads_gets|intros; apply reads_lift] : isolation.
#[export] Hint Extern 2 (reads (fetch_optional _ _)) =>
  apply reads_bind; [apply reads_gets|intros; apply reads_lift] : isolation.
#[export] Hint Extern 5 (keeps _ _) => apply keeps_reads : isolation.

(** [keeps] goes through an operation statement by statement. *)
Ltac keeps_step :=
  match goal with
  | |- keeps _ (_ ≫= _) => apply keeps_bind; [|intros ? ? ? ?]
  | |- keeps _ (match ?x with _ => _ end) => destruct x eqn:?
  | |- reads (_ ≫= _) => apply reads_bind; [|intros ?]
  | |- reads (match ?x with _ => _ end) => destruct x eqn:?
  | |- _ => solve [eauto 3 with isolation]
  end.
Ltac keeps := repeat keeps_step.

Section operations.
Context `{PgTime, LimitsJson, Sha256}.
Implicit Types T : gset Uuid.

Lemma begin_scheduler_reads : reads begin_scheduler.
Proof. unfold begin_scheduler. keeps. Qed.
Lemma fetch_run_by_key_reads tenant key : reads (fetch_run_by_key tenant key).
Proof. unfold fetch_run_by_key. keeps. Qed.
Lemma fetch_grant_record_reads tenant id ancestry : reads (fetch_grant_record tenant id ancestry).
Proof. unfold fetch_grant_record. keeps. Qed.
Lemma existing_run_reads tenant key hash row : reads (existing_run tenant key hash row).
Proof. unfold existing_run. keeps. apply fetch_run_by_key_reads. Qed.
Lemma get_grant_reads tenant id : reads (get_grant tenant id).
Proof. unfold get_grant. keeps. apply fetch_grant_record_reads. Qed.
Lemma run_tenant_reads run allowed : reads (run_tenant run allowed).
Proof. unfold run_tenant. keeps. Qed.
End operations.
#[export] Hint Resolve begin_scheduler_reads fetch_run_by_key_reads fetch_grant_record_reads
  existing_run_reads get_grant_reads run_tenant_reads : isolation.

Section tenants.
Context `{PgTime, LimitsJson, Sha256} (T : gset Uuid).

Lemma append_event_keeps tenant run kind payload :
  tenant ∈ T → keeps T (append_event tenant run kind payload).
Proof. intros Ht. unfold append_event. keeps. Qed.
Hint Resolve append_event_keeps : isolation.

Lemma put_module_keeps tenant digest wasm : tenant ∈ T → keeps T (put_module tenant digest wasm).
Proof. intros Ht. unfold put_module. keeps. Qed.

Lemma admit_run_keeps id t0 t1 t2 tenant key request gmax tmax :
  tenant ∈ T → keeps T (admit_run id t0 t1 t2 tenant key request gmax tmax).
Proof. intros Ht. unfold admit_run. keeps. Qed.

Lemma create_grant_keeps id now tenant parent actor authority :
  tenant ∈ T → keeps T (create_grant id now tenant parent actor authority).
Proof. intros Ht. unfold create_grant. keeps. Qed.

Lemma revoke_grant_keeps now tenant id actor reason :
  tenant ∈ T → keeps T (revoke_grant now tenant id actor reason).
Proof. intros Ht. unfold revoke_grant. keeps. Qed.

Lemma reserve_grant_chain_keeps now t1 request :
  res_tenant request ∈ T → keeps T (reserve_grant_chain now t1 request).
Proof.
  intros Ht. unfold reserve_grant_chain. keeps. apply keeps_for_each. intros e.
  unfold charge_grant. keeps.
Qed.

Lemma run_tenant_allowed run allowed db tenant db' :
  run_tenant run allowed db = Ok (tenant, db') → tenant ∈ allowed.
Proof. by intros (_ & Hin & _)%run_tenant_Ok. Qed.

(** The workers' operations keep to the tenants they are allowed. *)
Context (allowed : list Uuid) (Hallowed : ∀ t, t ∈ allowed → t ∈ T).

Ltac worker_keeps :=
  keeps; try match goal with
  | Hr : run_tenant _ _ _ = Ok (?t, _) |- _ =>
    apply run_tenant_allowed, Hallowed in Hr; keeps
  end.

Lemma heartbeat_run_keeps clock run worker epoch lease_ms :
  keeps T (heartbeat_run clock run worker allowed epoch lease_ms).
Proof. unfold heartbeat_run. worker_keeps. Qed.

Lemma mark_run_started_keeps clock run worker epoch :
  keeps T (mark_run_started clock run worker allowed epoch).
Proof. unfold mark_run_started. worker_keeps. Qed.

Lemma finish_run_keeps clock run worker epoch output error_code :
  keeps T (finish_run clock run worker allowed epoch output error_code).
Proof. unfold finish_run. worker_keeps. Qed.

Lemma claim_selected_keeps clock worker policy tenant run :
  tenant ∈ T → keeps T (claim_selected clock worker policy tenant run).
Proof. intros Ht. unfold claim_selected, deny_claim, grant_lease. keeps. Qed.

Lemma claim_run_keeps clock worker slots policy :
  keeps T (claim_run clock worker allowed slots policy).
Proof.
  unfold claim_run. keeps.
  match goal with Hc : tx_gets _ _ = Ok (_, _) |- _ => apply tx_gets_Ok in Hc as [Hc _];
    symmetry in Hc; apply claim_candidate_Some in Hc as (_ & _ & _ & Hin & _) end.
  by apply claim_selected_keeps, Hallowed.
Qed.
End tenants.
