(* ===== verification/Views.v ===== *)
(** * Views: what an operation can tell a tenant

    Two databases are in one view of the tenants [T] when they have the same rows
    of those tenants.  An operation called for one of them behaves alike on
    both: it gives the same result, or the same error, and leaves databases in one
    view.  [Proper (view T ==> view_result T) m] states it for a transaction. *)
From S2P Require Export Isolation.

(** [ids] are identifiers drawn afresh: no other tenant has a run named so. *)
Record view (T : gset Uuid) (id : Uuid) (db1 db2 : Db) : Prop := {
  vw_agree : agree (λ t, t ∈ T) db1 db2;
  vw_seq : is_Some (db_dispatch_seq db1) ↔ is_Some (db_dispatch_seq db2);
  vw_unique1 : runs_unique db1;
  vw_unique2 : runs_unique db2;
  vw_fresh1 : ∀ t, is_Some (db_runs db1 !! (t, id)) → t ∈ T;
  vw_fresh2 : ∀ t, is_Some (db_runs db2 !! (t, id)) → t ∈ T;
}.

#[export] Instance view_symmetric T id : Symmetric (view T id).
Proof. intros db1 db2 [Ha Hs]. by split. Qed.

(** The results of one transaction on two databases. *)
Definition view_result {A} (T : gset Uuid) (id : Uuid) (r1 r2 : result Error (A * Db)) : Prop :=
  match r1, r2 with
  | Ok (a1, d1), Ok (a2, d2) => a1 = a2 ∧ view T id d1 d2
  | Err e1, Err e2 => e1 = e2
  | _, _ => False
  end.

Abbreviation views T id m := (Proper (view T id ==> view_result T id) m).

Create HintDb views.

Section views.
Context (T : gset Uuid) (id : Uuid).

Lemma view_bind_at {A B} (m : StoreTx A) (f : A → StoreTx B) db1 db2 :
  view_result T id (m db1) (m db2) →
  (∀ a d1 d2, m db1 = Ok (a, d1) → m db2 = Ok (a, d2) → view T id d1 d2 →
     view_result T id (f a d1) (f a d2)) →
  view_result T id ((m ≫= f) db1) ((m ≫= f) db2).
Proof.
  unfold mbind, tx_bind. intros Hm Hf.
  destruct (m db1) as [[a1 d1]|e1], (m db2) as [[a2 d2]|e2]; simpl in Hm; try done.
  destruct Hm as [-> Hv]. by apply Hf.
Qed.

#[export] Instance view_bind {A B} (m : StoreTx A) (f : A → StoreTx B) :
  views T id m → (∀ a, views T id (f a)) → views T id (m ≫= f).
Proof.
  intros Hm Hf db1 db2 Hv. apply view_bind_at; [by apply Hm|]. intros a d1 d2 _ _. apply Hf.
Qed.

#[export] Instance view_ret {A} (a : A) : views T id (mret a : StoreTx A).
Proof. by intros db1 db2 Hv. Qed.
#[export] Instance view_lift {A} (r : result Error A) : views T id (tx_lift r).
Proof. intros db1 db2 Hv. unfold tx_lift. by destruct r. Qed.
#[export] Instance view_fail {A} e : views T id (tx_fail e : StoreTx A).
Proof. by intros db1 db2 Hv. Qed.

(** Reads of what the view shows. *)
Lemma view_gets {A} (f : Db → A) : Proper (view T id ==> eq) f → views T id (tx_gets f).
Proof. intros Hf db1 db2 Hv. simpl. split; [by apply Hf|done]. Qed.
Lemma view_query {A} (f : Db → result Error A) :
  Proper (view T id ==> eq) f → views T id (tx_query f).
Proof. intros Hf db1 db2 Hv. unfold tx_query. rewrite (Hf _ _ Hv). by destruct (f db2). Qed.
Lemma view_fetch_one {A} (f : Db → option A) :
  Proper (view T id ==> eq) f → views T id (fetch_one f).
Proof. intros Hf. apply view_bind; [by apply view_gets|]. intros o. apply view_lift. Qed.
Lemma view_fetch_optional {A} (f : Db → option A) e :
  Proper (view T id ==> eq) f → views T id (fetch_optional f e).
Proof. intros Hf. apply view_bind; [by apply view_gets|]. intros o. apply view_lift. Qed.

Lemma view_tenant t : t ∈ T → Proper (view T id ==> eq) (λ db, db_tenants db !! t).
Proof. intros Ht db1 db2 Hv. symmetry. by apply (ag_tenants _ _ _ (vw_agree _ _ _ _ Hv)). Qed.
Lemma view_module t d : t ∈ T → Proper (view T id ==> eq) (λ db, db_modules db !! (t, d)).
Proof. intros Ht db1 db2 Hv. symmetry. by apply (ag_modules _ _ _ (vw_agree _ _ _ _ Hv)). Qed.
Lemma view_grant t g : t ∈ T → Proper (view T id ==> eq) (λ db, db_grants db !! (t, g)).
Proof. intros Ht db1 db2 Hv. symmetry. by apply (ag_grants _ _ _ (vw_agree _ _ _ _ Hv)). Qed.
Lemma view_run t r : t ∈ T → Proper (view T id ==> eq) (λ db, db_runs db !! (t, r)).
Proof. intros Ht db1 db2 Hv. symmetry. by apply (ag_runs _ _ _ (vw_agree _ _ _ _ Hv)). Qed.
Lemma view_effect t r o : t ∈ T → Proper (view T id ==> eq) (λ db, db_effects db !! (t, r, o)).
Proof. intros Ht db1 db2 Hv. symmetry. by apply (ag_effects _ _ _ (vw_agree _ _ _ _ Hv)). Qed.

(** ** Writes *)

(** A map of rows by tenant, updated at a tenant of the view. *)
Lemma insert_agree `{Countable K} {A} (m1 m2 : gmap K A) k v k' :
  (k' ≠ k → m2 !! k' = m1 !! k') → <[k:=v]> m2 !! k' = <[k:=v]> m1 !! k'.
Proof.
  intros Hk. destruct (decide (k' = k)) as [->|Hne]; [by rewrite !lookup_insert_eq|].
  rewrite !lookup_insert_ne by done. auto.
Qed.
End views.

Ltac view_write Hv :=
  let Ha := fresh in pose proof (vw_agree _ _ _ _ Hv) as Ha; destruct Hv as [_ ? ? ? ? ?];
  split; try done; destruct Ha as [? ? ? ? ? ? ? ?]; split; simpl; try done;
  try (intros; apply insert_agree; auto).

Section writes.
Context (T : gset Uuid) (id : Uuid) (t : Uuid) (Ht : t ∈ T).

Lemma view_update_tenant guard f : views T id (update_tenant t guard f).
Proof.
  intros db1 db2 Hv. unfold update_tenant. pose proof (view_tenant T id t Ht _ _ Hv) as Hr.
  simpl in Hr. rewrite Hr. repeat case_match; try done. split; [done|]. view_write Hv.
Qed.
Lemma view_update_grant g guard f : views T id (update_grant t g guard f).
Proof.
  intros db1 db2 Hv. unfold update_grant. pose proof (view_grant T id t g Ht _ _ Hv) as Hr.
  simpl in Hr. rewrite Hr. repeat case_match; try done. split; [done|]. view_write Hv.
Qed.
Lemma view_update_effect r o guard f : views T id (update_effect t r o guard f).
Proof.
  intros db1 db2 Hv. unfold update_effect. pose proof (view_effect T id t r o Ht _ _ Hv) as Hr.
  simpl in Hr. rewrite Hr. repeat case_match; try done. split; [done|]. view_write Hv.
Qed.

(** A run keeps its idempotency key, so keys and identifiers stay unique. *)
Lemma runs_unique_update db r row row' :
  runs_unique db → db_runs db !! (t, r) = Some row →
  r_idempotency_key row' = r_idempotency_key row →
  runs_unique (with_runs <[(t, r) := row']> db).
Proof.
  intros Hu Hr Hk. apply (runs_unique_frame db); [done|]. intros k r'. simpl.
  destruct (decide (k = (t, r))) as [->|Hne].
  - rewrite lookup_insert_eq. intros [= <-]. eauto.
  - rewrite lookup_insert_ne by done. eauto.
Qed.

Lemma fresh_update (m : gmap (Uuid * Uuid) RunRow) r row' :
  (∀ t', is_Some (m !! (t', id)) → t' ∈ T) →
  ∀ t', is_Some (<[(t, r) := row']> m !! (t', id)) → t' ∈ T.
Proof.
  intros Hm t'. destruct (decide ((t', id) = (t, r))) as [[= -> ->]|Hne]; [done|].
  rewrite lookup_insert_ne by done. apply Hm.
Qed.

Lemma view_update_run r guard f :
  (∀ row, r_idempotency_key (f row) = r_idempotency_key row) →
  views T id (update_run t r guard f).
Proof.
  intros Hf db1 db2 Hv. unfold update_run. pose proof (view_run T id t r Ht _ _ Hv) as Hr.
  simpl in Hr. rewrite Hr. destruct (db_runs db2 !! (t, r)) as [row|] eqn:Hrow; [|done].
  destruct (guard row), (run_check (f row)); try done. split; [done|].
  destruct Hv as [[? ? ? ? ? ? ? ?] ? Hu1 Hu2 Hf1 Hf2]. split; try done.
  - split; simpl; try done. intros. apply insert_agree; auto.
  - by eapply runs_unique_update.
  - by eapply runs_unique_update.
  - by apply fresh_update.
  - by apply fresh_update.
Qed.

Lemma view_insert_module digest wasm : views T id (insert_module t digest wasm).
Proof.
  intros db1 db2 Hv. unfold insert_module. pose proof (view_module T id t digest Ht _ _ Hv) as Hr.
  pose proof (view_tenant T id t Ht _ _ Hv) as Htn. simpl in Hr, Htn. rewrite Hr, Htn.
  repeat case_match; try done. split; [done|]. view_write Hv.
Qed.

Lemma view_insert_grant g row : views T id (insert_grant t g row).
Proof.
  intros db1 db2 Hv. unfold insert_grant.
  pose proof (view_tenant T id t Ht _ _ Hv) as Htn. simpl in Htn.
  assert (∀ g', db_grants db1 !! (t, g') = db_grants db2 !! (t, g')) as Hg
    by (intros g'; apply (view_grant T id t g' Ht _ _ Hv)).
  rewrite Hg, Htn. destruct (gr_parent_id row) as [parent|]; [rewrite (Hg parent)|];
    (case_match; [done|]); (split; [done|]); view_write Hv.
Qed.

Lemma view_insert_operator_event e : oe_tenant e = t → views T id (insert_operator_event e).
Proof.
  intros He db1 db2 Hv. unfold insert_operator_event. rewrite He.
  pose proof (view_tenant T id t Ht _ _ Hv) as Htn. simpl in Htn. rewrite Htn.
  case_match; [|done]. split; [done|]. view_write Hv.
  rewrite !filter_app. by f_equal.
Qed.

Lemma view_insert_reservation r o g : views T id (insert_reservation t r o g).
Proof.
  intros db1 db2 Hv. unfold insert_reservation.
  pose proof (view_effect T id t r o Ht _ _ Hv) as He.
  pose proof (view_grant T id t g Ht _ _ Hv) as Hg. simpl in He, Hg. rewrite He, Hg.
  rewrite (bool_decide_ext ((t, r, o, g) ∈ db_reservations db1) ((t, r, o, g) ∈ db_reservations db2))
    by (symmetry; by apply (ag_reservations _ _ _ (vw_agree _ _ _ _ Hv))).
  case_match; [done|]. split; [done|]. view_write Hv. set_solver.
Qed.

Lemma view_insert_event r s e : views T id (insert_event t r s e).
Proof.
  intros db1 db2 Hv. unfold insert_event.
  pose proof (view_run T id t r Ht _ _ Hv) as Hr. simpl in Hr. rewrite Hr.
  rewrite (ag_events _ _ _ (vw_agree _ _ _ _ Hv)) by done.
  case_match; [done|]. split; [done|]. view_write Hv.
Qed.

(** ** Selections *)

Lemma view_run_by_key key : Proper (view T id ==> eq) (run_by_key t key).
Proof.
  assert (∀ db1 db2 row, view T id db1 db2 →
    run_by_key t key db1 = Some row → run_by_key t key db2 = Some row) as Hsel.
  { intros db1 db2 [[t' r] row] Hv Hk. apply run_by_key_Some in Hk as (-> & <- & Hr).
    apply run_by_key_unique; [apply Hv|]. by rewrite <-(view_run T id t r Ht _ _ Hv). }
  intros db1 db2 Hv. destruct (run_by_key t key db1) as [row|] eqn:H1.
  - symmetry. by eapply Hsel.
  - destruct (run_by_key t key db2) as [row|] eqn:H2; [|done].
    symmetry in Hv. by rewrite (Hsel _ _ _ Hv H2) in H1.
Qed.

(** A run is found by its identifier alone, and then its tenant is checked. *)
Lemma view_run_tenant r (allowed : list Uuid) :
  (∀ t', t' ∈ allowed → t' ∈ T) → views T id (run_tenant r allowed).
Proof using.
  intros Hallowed.
  assert (∀ db1 db2 t' row, view T id db1 db2 → t' ∈ T →
    run_by_id r db1 = Some (t', r, row) → run_by_id r db2 = Some (t', r, row)) as Hsel.
  { intros db1 db2 t' row Hv Ht' [Hr _]%select_first_Some.
    apply run_by_id_unique; [apply Hv|]. by rewrite <-(view_run T id t' r Ht' _ _ Hv). }
  assert (∀ db, run_tenant r allowed db =
    match run_by_id r db with
    | Some row => if bool_decide (row.1.1 ∈ allowed) then Ok (row.1.1, db) else Err RunNotFound
    | None => Err RunNotFound
    end) as Heq.
  { intros db. unfold run_tenant, fetch_optional, tx_gets, tx_ok_or, tx_fail_if, tx_lift, mbind,
      tx_bind, mret, tx_ret. destruct (run_by_id r db) as [row|]; simpl; [|done].
    by destruct (bool_decide _). }
  assert (∀ db t' r' row, run_by_id r db = Some (t', r', row) → r' = r) as Hid
    by (by intros db t' r' row [_ ?]%select_first_Some).
  assert (∀ db1 db2, view T id db1 db2 → is_ok (run_tenant r allowed db1) = true →
    ∃ t', run_tenant r allowed db1 = Ok (t', db1) ∧ run_tenant r allowed db2 = Ok (t', db2)) as Hok.
  { intros db1 db2 Hv. rewrite !Heq. destruct (run_by_id r db1) as [[[t' r'] row]|] eqn:Hr; [|done].
    case_bool_decide as Ht'; [|done]. intros _. exists t'. split; [done|].
    pose proof (Hid _ _ _ _ Hr) as ->.
    rewrite (Hsel _ _ _ _ Hv (Hallowed _ Ht') Hr). by rewrite bool_decide_eq_true_2. }
  intros db1 db2 Hv.
  assert (∀ db e, run_tenant r allowed db = Err e → e = RunNotFound) as Herr.
  { intros db e. rewrite Heq. destruct (run_by_id r db); [case_bool_decide|]; congruence. }
  destruct (run_tenant r allowed db1) as [[t1 d1]|e1] eqn:H1.
  - destruct (Hok db1 db2 Hv) as (t' & Ht1 & ->); [by rewrite H1|].
    rewrite H1 in Ht1. injection Ht1 as <- ->. done.
  - destruct (run_tenant r allowed db2) as [[t2 d2]|e2] eqn:H2.
    + symmetry in Hv. destruct (Hok db2 db1 Hv) as (t' & _ & H1'); [by rewrite H2|congruence].
    + simpl. by rewrite (Herr _ _ H1), (Herr _ _ H2).
Qed.
End writes.

(** ** The recursive query *)

Section recursion.
Context (tenant : Uuid).
Implicit Types grants : gmap (Uuid * Uuid) GrantRow.

Lemma grant_cte_agree fuel grants grants' id chain :
  (∀ g, grants !! (tenant, g) = grants' !! (tenant, g)) →
  grant_cte fuel grants tenant id chain = grant_cte fuel grants' tenant id chain.
Proof.
  intros Hg. revert id chain. induction fuel as [|fuel IH]; intros id chain; [done|].
  cbn [grant_cte]. rewrite <-Hg. destruct (grants !! (tenant, id)) as [g|]; [|done].
  destruct (decide _); [done|]. destruct (gr_parent_id g); [apply IH|done].
Qed.

(** The rows a recursion has collected. *)
Definition collected grants (chain : list chain_row) : Prop :=
  NoDup chain ∧ Forall (λ row, ∃ g, grants !! (tenant, row.1.1) = Some g ∧
    row = (row.1.1, gr_parent_id g, gr_depth g)) chain.

Lemma collected_size grants chain : collected grants chain → (length chain ≤ size grants)%nat.
Proof.
  intros [Hnd Hall]. rewrite Forall_forall in Hall.
  rewrite <-size_dom, <-(length_fmap (λ row : chain_row, (tenant, row.1.1))).
  rewrite <-(size_list_to_set (C:=gset (Uuid * Uuid))).
  - apply subseteq_size. intros k (row & -> & Hrow)%elem_of_list_to_set%list_elem_of_fmap.
    apply elem_of_dom. destruct (Hall _ Hrow) as (g & Hg & _). by exists g.
  - apply NoDup_fmap_2_strong; [|done]. intros x y Hx Hy [= Heq].
    destruct (Hall _ Hx) as (g & Hg & ->), (Hall _ Hy) as (g' & Hg' & ->).
    simpl in *. congruence.
Qed.

(** More rounds than there are grants change nothing. *)
Lemma grant_cte_enough fuel more grants id chain :
  collected grants chain → (size grants < fuel + length chain)%nat →
  grant_cte (fuel + more) grants tenant id chain = grant_cte fuel grants tenant id chain.
Proof.
  revert id chain. induction fuel as [|fuel IH]; intros id chain Hc Hf.
  - apply collected_size in Hc. simpl in Hf. lia.
  - cbn [grant_cte Nat.add]. destruct (grants !! (tenant, id)) as [g|] eqn:Hg; [|done].
    destruct (decide _) as [|Hrow]; [done|]. destruct (gr_parent_id g) as [parent|] eqn:Hp; [|done].
    apply IH; [|rewrite length_app; simpl; lia]. destruct Hc as [Hnd Hall]. split.
    + apply NoDup_app. split_and!; [done|set_solver|apply NoDup_singleton].
    + apply Forall_app. split; [done|]. apply Forall_singleton. exists g. simpl. by rewrite Hp.
Qed.

Lemma grant_ids_agree leaf db1 db2 :
  (∀ g, db_grants db1 !! (tenant, g) = db_grants db2 !! (tenant, g)) →
  grant_ids tenant leaf db1 = grant_ids tenant leaf db2.
Proof.
  intros Hg. unfold grant_ids. f_equal. f_equal.
  set (g1 := db_grants db1) in *. set (g2 := db_grants db2) in *.
  assert (∀ g, collected g []) as Hnil by (split; constructor).
  rewrite <-(grant_cte_enough (S (size g1)) (S (size g2)) g1) by (done || simpl; lia).
  rewrite <-(grant_cte_enough (S (size g2)) (S (size g1)) g2) by (done || simpl; lia).
  rewrite (grant_cte_agree _ g1 g2) by done. f_equal. lia.
Qed.
End recursion.

(** ** What the view shows *)

Section shown.
Context (T : gset Uuid) (id : Uuid) (t : Uuid) (Ht : t ∈ T).

Lemma view_load_chain `{PgTime} leaf : Proper (view T id ==> eq) (load_chain t leaf).
Proof.
  intros db1 db2 Hv. unfold load_chain.
  assert (∀ g, db_grants db1 !! (t, g) = db_grants db2 !! (t, g)) as Hg
    by (intros g; apply (view_grant T id t g Ht _ _ Hv)).
  rewrite (grant_ids_agree t leaf db1 db2 Hg).
  assert (∀ g, load_grant t db1 g = load_grant t db2 g) as Hload
    by (intros g; unfold load_grant; by rewrite Hg).
  assert (∀ ids, try_map (load_grant t db1) ids = try_map (load_grant t db2) ids) as Hmap.
  { intros ids. induction ids as [|g ids IH]; [done|]. cbn [try_map]. by rewrite Hload, IH. }
  by rewrite Hmap.
Qed.

Lemma view_rows {A} (P : Uuid * Uuid * A → Prop) `{!∀ kv, Decision (P kv)}
    (m1 m2 : gmap (Uuid * Uuid) A) :
  (∀ kv, P kv → kv.1.1 = t) → (∀ r, m1 !! (t, r) = m2 !! (t, r)) → filter P m1 = filter P m2.
Proof.
  intros HP Hm. apply map_eq. intros [t' r]. apply option_eq. intros a.
  rewrite !map_lookup_filter_Some. split; intros [Hl Ha]; (split; [|done]);
    pose proof (HP _ Ha) as Heq; simpl in Heq; subst; congruence.
Qed.

Lemma view_module_exists d :
  Proper (view T id ==> eq) (λ db, bool_decide (is_Some (db_modules db !! (t, d)))).
Proof.
  intros db1 db2 Hv. pose proof (view_module T id t d Ht _ _ Hv) as Hm. simpl in *. by rewrite Hm.
Qed.

Lemma view_pending_tenant : Proper (view T id ==> eq) (pending_tenant t).
Proof.
  intros db1 db2 Hv. unfold pending_tenant, count_rows. do 2 f_equal. apply view_rows.
  - by intros kv [? _].
  - intros r. by apply (view_run T id t r Ht).
Qed.

Lemma view_grant_live now g : Proper (view T id ==> eq) (grant_live now t g).
Proof.
  intros db1 db2 Hv. unfold grant_live. pose proof (view_grant T id t g Ht _ _ Hv) as Hg.
  simpl in Hg. by rewrite Hg.
Qed.

Lemma view_least_expiry ids deadline : Proper (view T id ==> eq) (least_expiry t ids deadline).
Proof.
  intros db1 db2 Hv. unfold least_expiry. induction ids as [|g ids IH]; [done|]. simpl.
  pose proof (view_grant T id t g Ht _ _ Hv) as Hg. simpl in Hg. by rewrite Hg, IH.
Qed.

Lemma view_effect_in states r : Proper (view T id ==> eq) (effect_in states t r).
Proof.
  intros db1 db2 Hv. apply eq_true_iff_eq. rewrite !effect_in_true.
  f_equiv. intros o. by rewrite (view_effect T id t r o Ht _ _ Hv).
Qed.

Lemma view_effects_of r : Proper (view T id ==> eq) (effects_of t r).
Proof.
  intros db1 db2 Hv. unfold effects_of.
  set (rows m := (λ kv : Uuid * Uuid * Z * EffectRow, (kv.1.2, kv.2)) <$>
    filter (λ kv, kv.1.1 = (t, r)) (map_to_list m)).
  assert (∀ m x, x ∈ rows m ↔ m !! (t, r, x.1) = Some x.2) as Hrows.
  { intros m [o e]. unfold rows. rewrite list_elem_of_fmap. split.
    - intros ([[k o'] e'] & [= -> ->] & Hin). apply list_elem_of_filter in Hin as [Hk Hin].
      simpl in Hk. subst k. by apply elem_of_map_to_list in Hin.
    - simpl. intros Hl. exists (t, r, o, e). split; [done|]. apply list_elem_of_filter.
      split; [done|]. by apply elem_of_map_to_list. }
  assert (∀ m, NoDup (rows m)) as Hnd.
  { intros m. unfold rows. apply NoDup_fmap_2_strong; [|apply NoDup_filter, NoDup_map_to_list].
    intros [[k o] e] [[k' o'] e'] [Hk _]%list_elem_of_filter [Hk' _]%list_elem_of_filter [= -> ->].
    simpl in *. by subst. }
  assert (rows (db_effects db1) ≡ₚ rows (db_effects db2)) as Hperm.
  { apply NoDup_Permutation; [apply Hnd|apply Hnd|]. intros x. rewrite !Hrows.
    by rewrite (view_effect T id t r x.1 Ht _ _ Hv). }
  change (merge_sort ordinal_le (rows (db_effects db1)) = merge_sort ordinal_le (rows (db_effects db2))).
  apply (StronglySorted_unique_strong ordinal_le).
  - intros x y Hx Hy. rewrite !merge_sort_Permutation, !Hrows in Hx, Hy. unfold ordinal_le.
    rewrite <-(view_effect T id t r y.1 Ht _ _ Hv) in Hy.
    destruct x as [o e], y as [o' e']. simpl in *. intros. assert (o = o') as <- by lia. congruence.
  - apply StronglySorted_merge_sort; intros x; unfold ordinal_le; intros; lia.
  - apply StronglySorted_merge_sort; intros x; unfold ordinal_le; intros; lia.
  - by rewrite !merge_sort_Permutation.
Qed.
End shown.

(** ** Operations *)

Lemma view_bind_post {A B} T id (m : StoreTx A) (f : A → StoreTx B) :
  views T id m → (∀ db a db', m db = Ok (a, db') → views T id (f a)) → views T id (m ≫= f).
Proof.
  intros Hm Hf db1 db2 Hv. apply view_bind_at; [by apply Hm|].
  intros a d1 d2 Ha _ Hd. by eapply Hf.
Qed.

Lemma view_for_each {A} T id (body : A → StoreTx unit) l :
  (∀ x, views T id (body x)) → views T id (tx_for_each body l).
Proof.
  intros Hb. induction l as [|x l IH]; simpl; [apply view_ret|].
  apply view_bind_post; [apply Hb|done].
Qed.

Lemma view_begin_scheduler T id : views T id begin_scheduler.
Proof.
  intros db1 db2 Hv. unfold begin_scheduler, fetch_optional, tx_gets, tx_ok_or, tx_lift, mbind,
    tx_bind, mret, tx_ret. pose proof (vw_seq _ _ _ _ Hv) as Hs.
  destruct (db_dispatch_seq db1), (db_dispatch_seq db2); simpl; try done.
  - by destruct (proj1 Hs ltac:(eauto)).
  - by destruct (proj2 Hs ltac:(eauto)).
Qed.

#[export] Hint Resolve view_ret view_lift view_fail view_begin_scheduler
  view_update_tenant view_update_grant view_update_effect view_insert_module view_insert_grant
  view_insert_reservation view_insert_event view_load_chain view_tenant view_module view_grant
  view_run view_effect view_run_by_key view_module_exists view_pending_tenant view_grant_live view_least_expiry
  view_effect_in view_effects_of : views.
#[export] Hint Extern 1 (views _ _ (tx_fail_if _ _)) => apply view_lift : views.
#[export] Hint Extern 1 (views _ _ (tx_ok_or _ _)) => apply view_lift : views.
#[export] Hint Extern 1 (views _ _ (tx_gets _)) => apply view_gets : views.
#[export] Hint Extern 1 (views _ _ (tx_query _)) => apply view_query : views.
#[export] Hint Extern 1 (views _ _ (fetch_one _)) => apply view_fetch_one : views.
#[export] Hint Extern 1 (views _ _ (fetch_optional _ _)) => apply view_fetch_optional : views.
#[export] Hint Extern 1 (views _ _ (load_grant_chain_locked _ _)) => apply view_query : views.
#[export] Hint Extern 1 (views _ _ (update_run _ _ _ _)) =>
  apply view_update_run; [|intros; reflexivity] : views.
#[export] Hint Extern 1 (views _ _ (insert_operator_event _)) =>
  eapply view_insert_operator_event; [|reflexivity] : views.

(** [views] goes through an operation statement by statement. *)
Ltac views_step :=
  match goal with
  | |- Proper _ (_ ≫= _) => apply view_bind_post; [|intros ? ? ? ?]
  | |- Proper _ (match ?x with _ => _ end) => destruct x eqn:?
  | |- _ => solve [eauto 4 with views]
  end.
Ltac views := repeat views_step.

Section operations.
Context `{PgTime, LimitsJson, Sha256} (T : gset Uuid) (id : Uuid).

Section tenant.
Context (t : Uuid) (Ht : t ∈ T).

Lemma view_put_module digest wasm : views T id (put_module t digest wasm).
Proof using Ht. unfold put_module. views. Qed.

Lemma view_append_event r kind payload : views T id (append_event t r kind payload).
Proof using Ht. unfold append_event. views. Qed.

Lemma view_fetch_grant_record g ancestry : views T id (fetch_grant_record t g ancestry).
Proof using Ht. unfold fetch_grant_record. views. Qed.

Lemma view_get_grant g : views T id (get_grant t g).
Proof using Ht. unfold get_grant. views. apply view_fetch_grant_record. Qed.

Lemma view_create_grant g now parent actor authority :
  views T id (create_grant g now t parent actor authority).
Proof using Ht. unfold create_grant. views; apply view_fetch_grant_record. Qed.

Lemma view_revoke_grant now g actor reason : views T id (revoke_grant now t g actor reason).
Proof using Ht. unfold revoke_grant. views. Qed.

Lemma view_fetch_run_by_key key : views T id (fetch_run_by_key t key).
Proof using Ht.
  unfold fetch_run_by_key. views. apply view_query. intros db1 db2 Hv.
  by rewrite (view_effects_of T id t Ht _ _ _ Hv).
Qed.

Lemma view_existing_run key hash row : views T id (existing_run t key hash row).
Proof using Ht. unfold existing_run. views. apply view_fetch_run_by_key. Qed.

(** The uniqueness of identifiers spans tenants; a fresh one tells nothing. *)
Lemma view_insert_run row :
  views T id (insert_run t id row).
Proof using Ht.
  intros db1 db2 Hv. unfold insert_run. rewrite (view_run_by_key T id t Ht _ _ _ Hv).
  pose proof (view_tenant T id t Ht _ _ Hv) as Htn.
  pose proof (view_module T id t (r_module_digest row) Ht _ _ Hv) as Hm.
  pose proof (view_grant T id t (r_grant_id row) Ht _ _ Hv) as Hg. simpl in Htn, Hm, Hg.
  rewrite Htn, Hm, Hg. destruct (negb (run_check row)); [done|].
  destruct (run_by_key t (r_idempotency_key row) db2) eqn:Hkey; [done|].
  assert (∀ db1 db2, view T id db1 db2 →
    is_Some (run_by_id id db1) → is_Some (run_by_id id db2)) as Hid.
  { clear. intros db1 db2 Hv [[[t' r] row] [Hr Hid]%select_first_Some]. simpl in Hid. subst r.
    pose proof (vw_fresh1 _ _ _ _ Hv t' (mk_is_Some _ _ Hr)) as Ht'.
    rewrite (view_run T id t' id Ht' _ _ Hv) in Hr. exists (t', id, row).
    by apply run_by_id_unique; [apply Hv|]. }
  rewrite (bool_decide_ext (is_Some (run_by_id id db1)) (is_Some (run_by_id id db2)))
    by (split; apply Hid; [done|by symmetry]).
  match goal with |- context [if ?c then _ else _] => destruct c eqn:Hc end; [done|].
  split; [done|]. autorewrite with bools in Hc. destruct Hc as [[[Hn _] _] _].
  rewrite <-eq_None_not_Some in Hn.
  assert (run_by_id id db1 = None) as Hn1.
  { apply eq_None_not_Some. intros Hs. apply (Hid _ _ Hv) in Hs. rewrite Hn in Hs. by destruct Hs. }
  pose proof (view_run_by_key T id t Ht (r_idempotency_key row) _ _ Hv) as Hk1. rewrite Hkey in Hk1.
  destruct Hv as [[? ? ? ? ? ? ? ?] ? Hu1 Hu2 Hf1 Hf2]. split; try done.
  - split; simpl; try done. intros. apply insert_agree; auto.
  - by apply runs_unique_insert.
  - by apply runs_unique_insert.
  - by apply fresh_update.
  - by apply fresh_update.
Qed.

(** A read keeps two databases as they are. *)
Lemma view_read_bind {A B} (m : StoreTx A) (f : A → StoreTx B) db1 db2 :
  reads m → view_result T id (m db1) (m db2) →
  (∀ a, view_result T id (f a db1) (f a db2)) →
  view_result T id ((m ≫= f) db1) ((m ≫= f) db2).
Proof.
  intros Hr Hm Hf. apply view_bind_at; [done|].
  intros a d1 d2 ->%Hr ->%Hr _. apply Hf.
Qed.

(** One read of a submission, which is the same on both sides. *)
#[local] Ltac look Hat := apply view_read_bind;
  [solve [eauto 3 with isolation]|apply Hat; solve [eauto 4 with views]|intros ?].

(** Submissions also learn whether the queue of everybody is full. *)
Lemma view_admit_run t0 t1 t2 key request gmax tmax db1 db2 :
  view T id db1 db2 → pending_global db1 = pending_global db2 →
  view_result T id (admit_run id t0 t1 t2 t key request gmax tmax db1)
    (admit_run id t0 t1 t2 t key request gmax tmax db2).
Proof using Ht.
  intros Hv Hg. unfold admit_run.
  assert (∀ {A} (m : StoreTx A), views T id m → view_result T id (m db1) (m db2)) as Hat
    by (intros A m Hm; by apply Hm).
  do 4 look Hat. match goal with |- context [match ?x with Some _ => _ | None => _ end] =>
    destruct x as [[? ?]|] end; [by apply view_existing_run|].
  do 4 look Hat. apply view_read_bind; [apply reads_gets|by split|intros ?]. do 2 look Hat.
  apply Hat. apply view_bind_post; [apply view_insert_run|]. intros ? ? ? ?. views;
    first [apply view_existing_run|apply view_append_event|apply view_fetch_run_by_key].
Qed.
End tenant.

(** ** The workers' operations *)

Context (allowed : list Uuid) (Hallowed : ∀ t, t ∈ allowed → t ∈ T).

Lemma view_after_tenant {B} run (f : Uuid → StoreTx B) :
  (∀ t, t ∈ T → views T id (f t)) → views T id (run_tenant run allowed ≫= f).
Proof using Hallowed.
  intros Hf. apply view_bind_post; [by apply view_run_tenant|].
  intros db t db' Hr%run_tenant_allowed. by apply Hf, Hallowed.
Qed.

Lemma view_heartbeat_run clock run worker epoch lease_ms :
  views T id (heartbeat_run clock run worker allowed epoch lease_ms).
Proof using Hallowed.
  unfold heartbeat_run. apply view_bind; [apply view_lift|intros _].
  apply view_after_tenant. intros t Ht. views.
Qed.

Lemma view_mark_run_started clock run worker epoch :
  views T id (mark_run_started clock run worker allowed epoch).
Proof using Hallowed.
  unfold mark_run_started. apply view_bind; [apply view_lift|intros _].
  apply view_after_tenant. intros t Ht. views. by apply view_append_event.
Qed.

Lemma view_finish_run clock run worker epoch output error_code :
  views T id (finish_run clock run worker allowed epoch output error_code).
Proof using Hallowed.
  unfold finish_run. apply view_bind; [apply view_lift|intros _].
  apply view_bind; [apply view_begin_scheduler|intros _].
  apply view_after_tenant. intros t Ht. views; [by apply view_append_event|].
  by apply view_fetch_run_by_key.
Qed.
End operations.
