(* ===== verification/Control.v ===== *)
(** * Control: the whole control plane

    [routes] and [authenticate] of [crates/control/src/api/mod.rs] over the
    handlers of [Api], [GrantsApi] and [LeaseApi], and the sweep beside them.
    Whatever a request says, it commits at most one operation of the store, one
    its credential permits. *)
From S2P Require Import Submission Guarantees.
From S2P Require Export GrantsApi LeaseApi Views.

(** A request, as the router and the extractors hand it to its handler. *)
Inductive Call :=
  | PostModules (content_type : option (list byte)) (body : result StatusCode (list byte))
  | PostRuns (idempotency_keys : list (list byte)) (payload : result StatusCode RunCreate)
  | PostGrants (payload : result StatusCode GrantCreate)
  | PostChildren (id : string) (payload : result StatusCode GrantCreate)
  | GetGrant (id : string)
  | PostRevoke (id : string) (payload : result StatusCode string)
  | PostClaim (request : result StatusCode ClaimRequest)
  | PostHeartbeat (id : Uuid) (request : result StatusCode LeaseRequest)
  | PostStarted (id : Uuid) (request : result StatusCode LeaseRequest)
  | PostFinish (id : Uuid) (request : result StatusCode FinishRequest).
Record Request := mkRequest {
  rq_authorization : list (list byte);
  rq_call : Call;
}.

Section control.
Context `{UuidText, HeaderText, Sha256, PrincipalsJson, Wasmparser, Base64, PgTime,
  LimitsJson, Rfc3339, JsonText}.

(** [routes] *)
Definition route (env : Env) (state : ApiState) (principal : Principal) (call : Call) :
    Handler Response :=
  match call with
  | PostModules content_type body => upload_module env principal content_type body
  | PostRuns keys payload => create_run env state principal keys payload
  | PostGrants payload => create_root env state principal payload
  | PostChildren id payload => create_child env state principal id payload
  | GetGrant id => get env principal id
  | PostRevoke id payload => revoke env principal id payload
  | PostClaim request => claim env state principal request
  | PostHeartbeat id request => heartbeat env state principal id request
  | PostStarted id request => started env principal id request
  | PostFinish id request => finish env principal id request
  end.

Definition handle (env : Env) (state : ApiState) (principals : list (list byte * Principal))
    (request : Request) : Db → Response * Db :=
  respond_with (authenticate env principals (rq_authorization request)
    (λ principal, route env state principal (rq_call request))).

(** ** What a request may do

    The committed operations a credential permits: an owner's or an invoker's
    on its tenant, a worker's on the tenants of its allowlist, under its own
    name. *)
Inductive permitted (env : Env) (state : ApiState) (principal : Principal) (db : Db) :
    Db → Prop :=
  | may_upload tenant wasm kind db' :
      Auth.tenant principal = Ok tenant → validate wasm = Ok () →
      put_module tenant (sha256 wasm) wasm db = Ok (kind, db') →
      permitted env state principal db db'
  | may_submit tenant key create request admission db' :
      Auth.tenant principal = Ok tenant →
      RunCreate_normalize create (st_caps state) = Ok request →
      permits_grant principal tenant (nr_grant_id request) = true →
      submit_run env state tenant key request db = Ok (admission, db') →
      permitted env state principal db db'
  | may_grant tenant parent create authority record db' :
      Auth.authority principal = Owner tenant →
      GrantCreate_normalize create (st_grant_bounds state) = Ok authority →
      create_grant (en_fresh env) (en_clock env 0) tenant parent (pr_id principal) authority db =
        Ok (record, db') → permitted env state principal db db'
  | may_revoke tenant id reason record db' :
      Auth.authority principal = Owner tenant →
      revoke_grant (en_clock env 0) tenant id (pr_id principal) reason db = Ok (record, db') →
      permitted env state principal db db'
  | may_claim worker tenants slots lease db' :
      Auth.authority principal = Worker worker tenants →
      claim_run (en_clock env) worker (tenant_list tenants) slots (claim_policy state) db =
        Ok (lease, db') → permitted env state principal db db'
  | may_renew worker tenants id epoch renewed db' :
      Auth.authority principal = Worker worker tenants →
      heartbeat_run (en_clock env) id worker (tenant_list tenants) epoch (st_lease_ms state) db =
        Ok (renewed, db') → permitted env state principal db db'
  | may_start worker tenants id epoch db' :
      Auth.authority principal = Worker worker tenants →
      mark_run_started (en_clock env) id worker (tenant_list tenants) epoch db = Ok ((), db') →
      permitted env state principal db db'
  | may_finish worker tenants id epoch output error_code record db' :
      Auth.authority principal = Worker worker tenants →
      finish_run (en_clock env) id worker (tenant_list tenants) epoch output error_code db =
        Ok (record, db') → permitted env state principal db db'.

(** Nothing was committed, or one permitted operation. *)
Definition at_most_one (env : Env) (state : ApiState) (principal : Principal) (db db' : Db) :
    Prop := db' = db ∨ permitted env state principal db db'.

(** The steps of a handler before its call to the store only decide. *)
Definition still {A} (m : Handler A) : Prop := ∀ db, (m db).2 = db.

Lemma decide_bind (P : Db → Prop) {A} (m : Handler A) (f : A → Handler Response) db :
  still m → P db → (∀ a, m db = (Ok a, db) → P (respond_with (f a) db).2) →
  P (respond_with (m ≫= f) db).2.
Proof.
  intros Hm HP Hf. specialize (Hm db). unfold respond_with, mbind, act_bind in *.
  destruct (m db) as [[a|r] d]; simpl in Hm; subst d; [by apply Hf|done].
Qed.

Lemma or_error_Ok {E A} env (r : result E A) status code message db a db' :
  or_error env r status code message db = (Ok a, db') → r = Ok a.
Proof. unfold or_error, return_error, act_stop, mret, act_ret. destruct r; congruence. Qed.
Lemma return_error_if_Ok env c status code message db u db' :
  return_error_if env c status code message db = (Ok u, db') → c = false.
Proof. by destruct c. Qed.

(** A store call and the response made of its result. *)
Lemma respond_store {A} fate (op : StoreTx A) (f : result Error A → Response) db :
  let db' := (respond_with (r ← store_call fate op; mret (f r)) db).2 in
  db' = db ∨ ∃ a, op db = Ok (a, db').
Proof.
  unfold respond_with, mbind, act_bind, store_call, mret, act_ret.
  destruct fate, (op db) as [[a d]|e]; simpl; eauto.
Qed.

Lemma owner_tenant_Ok principal tenant :
  owner_tenant principal = Ok tenant → Auth.authority principal = Owner tenant.
Proof. unfold owner_tenant. destruct (Auth.authority principal); congruence. Qed.
Lemma allowed_tenants_Ok env principal worker_id db ts db' :
  allowed_tenants env principal worker_id db = (Ok ts, db') →
  ∃ tenants, Auth.authority principal = Worker worker_id tenants ∧ ts = tenant_list tenants.
Proof.
  unfold allowed_tenants, worker_tenants, or_error, mbind, act_bind, mret, act_ret.
  destruct (Auth.authority principal) as [| |configured tenants]; [done|done|].
  case_bool_decide; [|done]. intros [= <- <-]. subst. eauto.
Qed.

Lemma allowed_tenants_still env principal worker_id :
  still (allowed_tenants env principal worker_id).
Proof.
  intros db. unfold allowed_tenants, or_error, mbind, act_bind, mret, act_ret.
  by destruct (worker_tenants principal worker_id).
Qed.

Ltac still := first [apply allowed_tenants_still | intros ?; unfold path_id, idempotency_key, json_payload, or_error, return_error_if,
  worker_payload, finish_output, mret, act_ret; repeat case_match; simplify_eq; done].
Ltac decides := repeat (apply decide_bind; [still|by left|intros ? ?]).
Ltac stores :=
  match goal with
  | |- at_most_one _ _ _ _ (respond_with (store_call ?fate ?op ≫= λ x, mret (@?f x)) ?db).2 =>
    destruct (respond_store fate op f db) as [->|[? ?]]; [by left|]
  end;
  repeat match goal with
  | H : or_error _ _ _ _ _ _ = (Ok _, _) |- _ => apply or_error_Ok in H
  | H : return_error_if _ _ _ _ _ _ = (Ok _, _) |- _ => apply return_error_if_Ok in H
  | H : owner_tenant _ = Ok _ |- _ => apply owner_tenant_Ok in H
  | H : allowed_tenants _ _ _ _ = (Ok _, _) |- _ => apply allowed_tenants_Ok in H as (? & ? & ->)
  | u : unit |- _ => destruct u
  end.

Lemma create_permitted env state principal parent payload db :
  at_most_one env state principal db (respond_with (create env state principal parent payload) db).2.
Proof. unfold create. decides. stores. right. by eapply may_grant. Qed.

Lemma upload_permitted env state principal content_type body db :
  at_most_one env state principal db
    (respond_with (upload_module env principal content_type body) db).2.
Proof.
  unfold upload_module. decides. stores. right. by eapply may_upload.
Qed.

Lemma submit_permitted env state principal keys payload db :
  at_most_one env state principal db
    (respond_with (create_run env state principal keys payload) db).2.
Proof.
  unfold create_run. decides. stores. right. eapply may_submit; [done|done| |done].
  by apply negb_false_iff.
Qed.

Lemma get_permitted env state principal id db :
  at_most_one env state principal db (respond_with (get env principal id) db).2.
Proof. unfold get. decides. stores. left. by eapply get_grant_reads. Qed.

Lemma revoke_permitted env state principal id payload db :
  at_most_one env state principal db (respond_with (revoke env principal id payload) db).2.
Proof. unfold revoke. decides. stores. right. by eapply may_revoke. Qed.

Lemma worker_permitted env state principal call db :
  match call with
  | PostClaim _ | PostHeartbeat _ _ | PostStarted _ _ | PostFinish _ _ => True
  | _ => False
  end →
  at_most_one env state principal db (respond_with (route env state principal call) db).2.
Proof.
  destruct call; simpl; try done; intros _.
  - unfold claim. decides. stores. right. by eapply may_claim.
  - unfold heartbeat. decides. stores. right. by eapply may_renew.
  - unfold started. decides. stores. right. by eapply may_start.
  - unfold finish. decides. stores. right. by eapply may_finish.
Qed.

Lemma route_permitted env state principal call db :
  at_most_one env state principal db (respond_with (route env state principal call) db).2.
Proof.
  destruct call; try (by apply worker_permitted); simpl.
  - apply upload_permitted.
  - apply submit_permitted.
  - apply create_permitted.
  - unfold create_child. decides. apply create_permitted.
  - apply get_permitted.
  - apply revoke_permitted.
Qed.

(** ** The credential *)

Lemma handle_credential env state principals request db :
  handle env state principals request db =
    match credential principals (rq_authorization request) with
    | Some principal => respond_with (route env state principal (rq_call request)) db
    | None => (error env UNAUTHORIZED "UNAUTHORIZED" "Invalid credential" false, db)
    end.
Proof. unfold handle, authenticate. by destruct (credential _ _). Qed.

Lemma credential_Some principals authorization principal :
  credential principals authorization = Some principal →
  ∃ value text token, authorization = [value] ∧ header_to_str value = Some text ∧
    bytes text = bytes "Bearer " ++ bytes token ∧
    (sha256 (bytes token), principal) ∈ principals.
Proof.
  unfold credential. intros Hc. destruct authorization as [|value [|]]; [done| |done].
  apply bind_Some in Hc as (text & Ht & Hc).
  destruct (Principals_authenticate principals text) as [p|] eqn:Hp; [|done].
  injection Hc as ->. unfold Principals_authenticate in Hp.
  apply bind_Ok in Hp as (token & Htok%ok_or_Ok & Hp). apply guard_Ok in Hp as [_ Hp%ok_or_Ok].
  exists value, text, token. split_and!; [done|done|by apply strip_prefix_Some|].
  by apply last_match_elem.
Qed.

(** The tenants a credential speaks for. *)
Definition principal_tenants (principal : Principal) : gset Uuid :=
  match Auth.authority principal with
  | Owner tenant | Invoker tenant _ => {[tenant]}
  | Worker _ tenants => tenants
  end.

Lemma tenant_Ok principal tenant :
  Auth.tenant principal = Ok tenant → principal_tenants principal = {[tenant]}.
Proof.
  unfold Auth.tenant, principal_tenants. destruct (Auth.authority principal); congruence.
Qed.

Lemma elem_of_tenant_list t tenants : t ∈ tenant_list tenants ↔ t ∈ tenants.
Proof. unfold tenant_list. by rewrite merge_sort_Permutation, elem_of_elements. Qed.

Lemma permitted_untouched env state principal db db' :
  permitted env state principal db db' → untouched (principal_tenants principal) db db'.
Proof.
  intros [tenant wasm kind d Ht _ Hop|tenant key create request adm d Ht _ _ Hop
    |tenant parent create authority record d Ha _ Hop|tenant id reason record d Ha Hop
    |worker tenants slots lease d Ha Hop|worker tenants id epoch renewed d Ha Hop
    |worker tenants id epoch d Ha Hop|worker tenants id epoch output code record d Ha Hop].
  - rewrite (tenant_Ok _ _ Ht). eapply put_module_keeps; [|exact Hop]. set_solver.
  - rewrite (tenant_Ok _ _ Ht). eapply admit_run_keeps; [|exact Hop]. set_solver.
  - unfold principal_tenants. rewrite Ha. eapply create_grant_keeps; [|exact Hop]. set_solver.
  - unfold principal_tenants. rewrite Ha. eapply revoke_grant_keeps; [|exact Hop]. set_solver.
  - unfold principal_tenants. rewrite Ha. eapply claim_run_keeps; [|exact Hop].
    intros t. apply elem_of_tenant_list.
  - unfold principal_tenants. rewrite Ha. eapply heartbeat_run_keeps; [|exact Hop].
    intros t. apply elem_of_tenant_list.
  - unfold principal_tenants. rewrite Ha. eapply mark_run_started_keeps; [|exact Hop].
    intros t. apply elem_of_tenant_list.
  - unfold principal_tenants. rewrite Ha. eapply finish_run_keeps; [|exact Hop].
    intros t. apply elem_of_tenant_list.
Qed.
End control.

(** ** The control plane and the store's histories *)

Section histories.
Context `{UuidText, !UuidTextLaws, HeaderText, Sha256, !Sha256Laws, PrincipalsJson, Wasmparser,
  Base64, PgTime, !PgTimeLaws, LimitsJson, Rfc3339, JsonText}.

(** The clock runs, and the identifier drawn for a run is nobody's. *)
Definition env_ok (env : Env) (db : Db) : Prop :=
  clock_ok (en_clock env 0) ∧
  ∀ tenant ordinal, db_effects db !! (tenant, en_fresh env, ordinal) = None.

Lemma normalized_digest create caps request :
  RunCreate_normalize create caps = Ok request → length (nr_module_digest request) = 32%nat.
Proof.
  unfold RunCreate_normalize. intros Hn. inv_ok.
  match goal with E : digest_bytes _ = _ |- _ => by apply digest_bytes_Ok in E as [Hd _] end.
Qed.

Lemma permitted_step env state principal db db' :
  env_ok env db → permitted env state principal db db' → store_step db db'.
Proof.
  intros [Hclock Hfresh] [tenant wasm kind d _ _ Hop|tenant key create request adm d _ Hn _ Hop
    |tenant parent create authority record d _ _ Hop|tenant id reason record d _ Hop
    |worker tenants slots lease d _ Hop|worker tenants id epoch renewed d _ Hop
    |worker tenants id epoch d _ Hop|worker tenants id epoch output code record d _ Hop].
  - by eapply step_free, free_module.
  - eapply step_admit; [by eapply normalized_digest|apply Hfresh|exact Hop].
  - by eapply step_free, free_create.
  - by eapply step_free, free_revoke.
  - by eapply step_claim.
  - by eapply step_free, free_heartbeat.
  - by eapply step_free, free_started.
  - by eapply step_finish.
Qed.

Lemma handle_steps env state principals request db :
  env_ok env db → rtc store_step db (handle env state principals request db).2.
Proof.
  intros Henv. rewrite handle_credential. destruct (credential _ _) as [p|]; [|apply rtc_refl].
  destruct (route_permitted env state p (rq_call request) db) as [->|Hp]; [apply rtc_refl|].
  apply rtc_once. by eapply permitted_step.
Qed.

(** Every reaping of a tick runs among transactions of the store. *)
Definition reapings_ok (reapings : list Reaping) : Prop :=
  Forall (λ r, ∀ db, rtc lock_free db (rg_between r db)) reapings.

Lemma reap_call_steps r policy db :
  (∀ d, rtc lock_free d (rg_between r d)) →
  rtc store_step db (store_call (rg_fate r) (reap_one (rg_clock r) (rg_between r) policy) db).2.
Proof.
  intros Hb. unfold store_call.
  destruct (rg_fate r), (reap_one (rg_clock r) (rg_between r) policy db) as [[x d]|e] eqn:Hr; simpl;
    first [apply rtc_refl | apply rtc_once; eapply step_reap; [apply Hb|exact Hr]].
Qed.

Lemma sweep_batch_steps policy reapings db :
  reapings_ok reapings → rtc store_step db (sweep_batch policy reapings db).2.
Proof.
  intros Hall. revert db. induction Hall as [|r reapings Hr _ IH]; intros db; [apply rtc_refl|].
  pose proof (reap_call_steps r policy db Hr) as Hstep. simpl.
  destruct (store_call _ _ db) as [[[[x|]|e]|e] d]; simpl in *; try done.
  specialize (IH d). destruct (sweep_batch policy reapings d). simpl in *. by etrans.
Qed.

Lemma sweep_batch_count policy reapings db :
  ((sweep_batch policy reapings db).1 ≤ length reapings)%nat.
Proof.
  revert db. induction reapings as [|r reapings IH]; intros db; simpl; [lia|].
  destruct (store_call _ _ db) as [[[[x|]|e]|e] d]; simpl; try lia.
  specialize (IH d). destruct (sweep_batch policy reapings d). simpl in *. lia.
Qed.

(** One thing the control plane does: it serves a request, or sweeps; at its
    shutdown it may abort a sweep after some of the reapings. *)
Inductive control_step (state : ApiState) (principals : list (list byte * Principal))
    (policy : ReapPolicy) (db : Db) : Db → Prop :=
  | serve_request env request :
      env_ok env db → control_step state principals policy db
        (handle env state principals request db).2
  | sweep_leases reapings :
      reapings_ok (reapings <$> seq 0 sweep_limit) →
      control_step state principals policy db (sweep_tick policy reapings db).2
  | sweep_aborted n reapings :
      reapings_ok (reapings <$> seq 0 n) → (n ≤ sweep_limit)%nat →
      control_step state principals policy db
        (sweep_batch policy (reapings <$> seq 0 n) db).2.

(** The task the daemon spawns is such a history, and ends on its signal. *)
Definition sweeps_ok (events : list SweepEvent) : Prop :=
  Forall (λ e, match e with
               | Ticked reapings => reapings_ok (reapings <$> seq 0 sweep_limit)
               | StopChanged _ => True
               end) events.

Lemma sweep_steps state principals policy events db :
  sweeps_ok events → rtc (control_step state principals policy) db (sweep policy events db).2.
Proof.
  intros Hall. revert db. induction Hall as [|[[[]|]|reapings] events He _ IH]; intros db; simpl;
    try done.
  eapply rtc_l; [by apply sweep_leases|apply IH].
Qed.

Lemma sweep_returns policy events db :
  (sweep policy events db).1 = true ↔
  Exists (λ e, e = StopChanged None ∨ e = StopChanged (Some true)) events.
Proof.
  revert db. induction events as [|e events IH]; intros db; simpl.
  - rewrite Exists_nil. done.
  - rewrite Exists_cons. destruct e as [[[]|]|reapings]; rewrite ?IH; naive_solver.
Qed.

Lemma control_steps state principals policy db db' :
  rtc (control_step state principals policy) db db' → rtc store_step db db'.
Proof.
  induction 1 as [d|d1 d2 d3 Hstep _ IH]; [apply rtc_refl|]. etrans; [|exact IH].
  destruct Hstep; [by apply handle_steps|by apply sweep_batch_steps|by apply sweep_batch_steps].
Qed.
End histories.

(** ** Retries *)

Section retries.
Context `{UuidText, HeaderText, Sha256, PrincipalsJson, Wasmparser, Base64, PgTime, LimitsJson,
  Rfc3339, JsonText}.

(** A run submission either never reaches the store, or always reaches it with
    the same arguments. *)
Lemma create_run_decides state principals authorization keys payload :
  (∀ env db, (handle env state principals
     (mkRequest authorization (PostRuns keys payload)) db).2 = db) ∨
  ∃ tenant key request, ∀ env db,
    handle env state principals (mkRequest authorization (PostRuns keys payload)) db =
    respond_with (admitted ← store_call (en_fate env) (submit_run env state tenant key request);
                  mret (admission_response env admitted)) db.
Proof.
  setoid_rewrite handle_credential. simpl.
  destruct (credential principals authorization) as [p|]; [|by left].
  unfold create_run. destruct (Auth.tenant p) as [tenant|e]; [|by left].
  destruct keys as [|value [|]]; [by left| |by left].
  unfold idempotency_key. destruct (header_to_str value) as [key|]; [|by left].
  match goal with |- context [if ?c then mret key else _] => destruct c end; [|by left].
  destruct payload as [create|status]; [|by left].
  destruct (RunCreate_normalize create (st_caps state)) as [request|e] eqn:Hn.
  2:{ left. intros env db. unfold mbind, act_bind, or_error, json_payload. simpl. by rewrite Hn. }
  destruct (permits_grant p tenant (nr_grant_id request)) eqn:Hg.
  2:{ left. intros env db. unfold mbind, act_bind, or_error, json_payload. simpl.
      rewrite Hn. simpl. by rewrite Hg. }
  right. exists tenant, key, request. intros env db.
  unfold respond_with, mbind, act_bind, or_error, json_payload. simpl. rewrite Hn. simpl. by rewrite Hg.
Qed.
End retries.

(** ** What a response tells *)

Section tells.
Context `{UuidText, HeaderText, Sha256, PrincipalsJson, Wasmparser, Base64, PgTime, LimitsJson,
  Rfc3339, JsonText}.
Context (T : gset Uuid) (id : Uuid) (db1 db2 : Db) (Hview : view T id db1 db2).

(** A handler answers alike on both databases. *)
Definition alike {A} (m : Handler A) : Prop :=
  (m db1).1 = (m db2).1 ∧ view T id (m db1).2 (m db2).2.

(** A step that does not look at the database. *)
Definition decided {A} (m : Handler A) : Prop := ∃ r, ∀ db, m db = (r, db).

Lemma alike_decided {A B} (m : Handler A) (f : A → Handler B) :
  decided m → (∀ a, (∀ db, m db = (Ok a, db)) → alike (f a)) → alike (m ≫= f).
Proof using Hview.
  intros [r Hr] Hf. unfold alike, mbind, act_bind. rewrite !Hr.
  destruct r as [a|e]; [by apply Hf|done].
Qed.

Lemma alike_store {A} fate (op : StoreTx A) (g : result Error A → Response) :
  view_result T id (op db1) (op db2) → alike (r ← store_call fate op; mret (g r)).
Proof using Hview.
  unfold alike, mbind, act_bind, store_call, mret, act_ret. intros Hop.
  destruct (op db1) as [[a1 d1]|e1], (op db2) as [[a2 d2]|e2]; simpl in Hop; try done;
    destruct fate; simpl; destruct_and?; subst; done.
Qed.

Lemma allowed_tenants_decided env principal worker_id :
  decided (allowed_tenants env principal worker_id).
Proof.
  unfold allowed_tenants, or_error, mbind, act_bind, mret, act_ret.
  destruct (worker_tenants principal worker_id); by eexists.
Qed.

Ltac decided := first [apply allowed_tenants_decided | unfold path_id, idempotency_key,
  json_payload, or_error, return_error_if, worker_payload, finish_output; repeat case_match;
  eexists; intros ?; reflexivity].
Ltac alike := repeat (apply alike_decided; [decided|intros ? ?]); apply alike_store.

(** A principal speaks for the tenant a handler takes from it. *)
Lemma tenant_in env principal status code message tenant :
  (∀ db, or_error env (Auth.tenant principal) status code message db = (Ok tenant, db)) →
  tenant ∈ principal_tenants principal.
Proof. intros Ht. specialize (Ht db1). apply or_error_Ok, tenant_Ok in Ht as ->. set_solver. Qed.
Lemma owner_in env principal status code message tenant :
  (∀ db, or_error env (owner_tenant principal) status code message db = (Ok tenant, db)) →
  tenant ∈ principal_tenants principal.
Proof.
  intros Ht. specialize (Ht db1). apply or_error_Ok, owner_tenant_Ok in Ht.
  unfold principal_tenants. rewrite Ht. set_solver.
Qed.
Lemma allowed_in env principal worker_id tenants t :
  (∀ db, allowed_tenants env principal worker_id db = (Ok tenants, db)) →
  t ∈ tenants → t ∈ principal_tenants principal.
Proof.
  intros Ha. specialize (Ha db1). apply allowed_tenants_Ok in Ha as (ts & Ha & ->).
  unfold principal_tenants. by rewrite Ha, elem_of_tenant_list.
Qed.
Hint Resolve tenant_in owner_in allowed_in : isolation.

Lemma create_alike env state principal parent payload :
  principal_tenants principal = T → alike (create env state principal parent payload).
Proof using Hview.
  intros HT. unfold create. alike. apply view_create_grant; [|done]. rewrite <-HT.
  eauto with isolation.
Qed.

Lemma route_alike env state principal call :
  principal_tenants principal = T → en_fresh env = id →
  match call with
  | PostClaim _ => False
  | PostRuns _ _ => pending_global db1 = pending_global db2
  | _ => True
  end → alike (route env state principal call).
Proof using Hview.
  intros HT Hid Hcall. destruct call; simpl; try done.
  - unfold upload_module. alike. apply view_put_module; [|done]. rewrite <-HT. eauto with isolation.
  - unfold create_run. alike. unfold submit_run. rewrite Hid. apply view_admit_run; [|done|done].
    rewrite <-HT. eauto with isolation.
  - by apply create_alike.
  - unfold create_child. apply alike_decided; [decided|intros parent _]. by apply create_alike.
  - unfold get. alike. apply view_get_grant; [|done]. rewrite <-HT.
    match goal with Ha : ∀ d, _ = (Ok ?t, d) |- ?t ∈ _ =>
      specialize (Ha db1); unfold act_stop, mret, act_ret in Ha end.
    destruct (Auth.tenant principal) as [t|] eqn:Ht; [|done].
    destruct (permits_grant principal t _); [|done]. simplify_eq/=.
    rewrite (tenant_Ok _ _ Ht). set_solver.
  - unfold revoke. alike. apply view_revoke_grant; [|done]. rewrite <-HT. eauto with isolation.
  - unfold heartbeat. alike. apply view_heartbeat_run; [|done]. rewrite <-HT. eauto with isolation.
  - unfold started. alike. apply view_mark_run_started; [|done]. rewrite <-HT. eauto with isolation.
  - unfold finish. alike. apply view_finish_run; [|done]. rewrite <-HT. eauto with isolation.
Qed.
End tells.

(** The [ReapPolicy] the daemon sweeps with. *)
Definition daemon_reap_policy (config : Config) : ReapPolicy := {|
  rp_max_attempts := wrap_u8 (cl_max_attempts (cf_limits config));
  rp_max_pending_global := cl_max_pending_global (cf_limits config);
  rp_max_pending_tenant := cl_max_pending_per_tenant (cf_limits config);
|}.
