(* ===== verification/Plane.v ===== *)
(** * Plane: the properties of the control plane

    What [Control] comes to: whose rows a request changes and reads, what it
    commits, what serving and sweeping make of a fresh installation, what a retried
    submission is answered, and that an accepted configuration serves. *)
From S2P Require Import Submission Guarantees.
From S2P Require Export Control.

(** ** A concrete control plane *)

Module ControlDemo.
Import Reference PgReference.

#[global] Instance header_text : HeaderText := λ v,
  if forallb (λ b, in_range 32 126 (byte_val b)) v then Some (text v) else None.
#[global] Instance rfc3339 : Rfc3339 := λ _, Some 1700000060000000000.
#[global] Instance json_text : JsonText := Some.
#[global] Instance http_uri : HttpUri := λ _,
  Some (mkUri (Some "http"%string) (Some (mkUriAuthority "127.0.0.1:8790" (Some 8790))) "/" None).

Definition config : Config := {|
  cf_server := mkServer (SocketV4 2130706433 8080) 131072 2097152;
  cf_limits := mkConfigLimits 5 2 4 1 3 5000 1000 500 2000 67108864 10000000 8 64 16384;
  cf_retention := mkRetention 24 30;
  cf_adapters := {["desk"%string :=
    mkAdapter "http://127.0.0.1:8790/" true 86400 82800 "idem" ["ops"%string] None]};
|}.
#[global] Instance toml : ConfigToml := λ _, Some config.
#[global] Instance toml_laws : ConfigTomlLaws.
Proof.
  intros t c [= <-]. split; [by split|]. apply (bool_decide_unpack _). vm_compute. exact I.
Qed.
Lemma config_parsed : Config_parse [] = Ok config.
Proof. vm_compute. reflexivity. Qed.

Definition state : ApiState := ApiState_new config.
Definition principals : list (list byte * Principal) :=
  [(sha256 (bytes AuthDemo.token), mkPrincipal "operator" (Owner Demo.tenant))].
Definition authorization : list (list byte) := [bytes ("Bearer " +:+ AuthDemo.token)].
Definition at_ (fresh : Uuid) : Env := mkEnv Acknowledged (λ _, Demo.now) fresh 97.
Definition ask (budget : Z) : GrantCreate :=
  mkGrantCreate ["ticket.create"%string] ["desk"%string] ["ops"%string] "" budget.
Definition ask_root : Request := mkRequest authorization (PostGrants (Ok (ask 3))).
Definition ask_child : Request :=
  mkRequest authorization (PostChildren (uuid_to_string 10) (Ok (ask 2))).
Definition lost : Env := mkEnv Unacknowledged (λ _, Demo.now) 20 99.
Definition again : Env := mkEnv Acknowledged (λ _, Demo.now + 1) 21 98.
Definition submit : Request :=
  mkRequest authorization (PostRuns [bytes "key"] (Ok (render AdmitDemo.request))).
Definition unacknowledged : Response :=
  error lost SERVICE_UNAVAILABLE "STORE_UNAVAILABLE" "Run could not be admitted" true.

Lemma submitted : handle lost state principals submit Demo.child_db =
  (unacknowledged, AdmitDemo.queued_db).
Proof. vm_compute. reflexivity. Qed.
Lemma known :
  credential principals authorization = Some (mkPrincipal "operator" (Owner Demo.tenant)).
Proof. vm_compute. reflexivity. Qed.
Lemma tenants :
  principal_tenants (mkPrincipal "operator" (Owner Demo.tenant)) = {[Demo.tenant]}.
Proof. reflexivity. Qed.
Lemma rooted : (handle (at_ 10) state principals ask_root Demo.empty_db).2 = Demo.root_db.
Proof. vm_compute. reflexivity. Qed.
Lemma derived : (handle (at_ 11) state principals ask_child Demo.root_db).2 = Demo.child_db.
Proof. vm_compute. reflexivity. Qed.
Lemma env_fine env db : clock_ok (en_clock env 0) → db_effects db = ∅ → env_ok env db.
Proof. intros Hc He. split; [done|]. intros tenant ordinal. by rewrite He, lookup_empty. Qed.
Lemma served policy :
  rtc (control_step state principals policy) Demo.empty_db AdmitDemo.queued_db.
Proof.
  apply (rtc_l _ _ Demo.root_db); [rewrite <-rooted|].
  { apply serve_request, env_fine; [apply Demo.clock|done]. }
  apply (rtc_l _ _ Demo.child_db); [rewrite <-derived|].
  { apply serve_request, env_fine; [apply Demo.clock|vm_compute; reflexivity]. }
  apply rtc_once. assert (AdmitDemo.queued_db = (handle lost state principals submit Demo.child_db).2)
    as -> by by rewrite submitted.
  apply serve_request, env_fine; [apply Demo.clock|vm_compute; reflexivity].
Qed.
Lemma changed : AdmitDemo.queued_db ≠ Demo.child_db.
Proof. intros He. apply (f_equal (λ db, size (db_runs db))) in He. vm_compute in He. done. Qed.

(** The same rows, and another tenant with a grant of its own. *)
Definition crowded_db : Db :=
  with_grants (λ m, match m !! (Demo.tenant, 10) with
                    | Some g => <[(2, 10) := g]> m
                    | None => m
                    end)
    (with_tenants <[2 := mkTenantRow 5 1 0 0]> Demo.child_db).
Lemma crowded : view {[Demo.tenant]} 20 Demo.child_db crowded_db.
Proof.
  destruct AdmitDemo.no_runs as [Hr _]. split.
  - assert (∀ t, t ∈ ({[Demo.tenant]} : gset Uuid) → t ≠ 2) as Hne
      by (intros t ->%elem_of_singleton [=]).
    unfold crowded_db. split; intros; cbn [with_grants with_tenants db_tenants db_modules
      db_grants db_runs db_effects db_reservations db_events db_operator_events]; try done.
    + apply lookup_insert_ne. intros <-. by eapply Hne.
    + case_match; [|done]. apply lookup_insert_ne. intros [= <- _]. by eapply Hne.
  - done.
  - apply AdmitDemo.unique.
  - apply AdmitDemo.unique.
  - intros t. rewrite Hr, lookup_empty. by intros [].
  - intros t. change (db_runs crowded_db) with (db_runs Demo.child_db).
    rewrite Hr, lookup_empty. by intros [].
Qed.
Lemma as_full : pending_global Demo.child_db = pending_global crowded_db.
Proof. reflexivity. Qed.
End ControlDemo.

(** ** Properties *)

(** C6: a request commits at most one operation of the store, one its
    credential permits.  Without exactly one Authorization header that carries a
    configured bearer token the answer is 401 and nothing happens.  With it, the
    database afterwards is what it was, or what one committed operation the
    principal may do left: uploads and submissions on its own tenant, of valid
    modules, normalized runs and permitted grants; grants and revocations as
    that tenant's owner; leases under its own worker name and on its own
    tenants. *)
Theorem request_authorized `{UuidText, HeaderText, Sha256, PrincipalsJson, Wasmparser, Base64,
    PgTime, LimitsJson, Rfc3339, JsonText} env state principals request db :
  match credential principals (rq_authorization request) with
  | None => handle env state principals request db =
      (error env UNAUTHORIZED "UNAUTHORIZED" "Invalid credential" false, db)
  | Some principal =>
      (∃ value text token, rq_authorization request = [value] ∧
         header_to_str value = Some text ∧ bytes text = bytes "Bearer " ++ bytes token ∧
         (sha256 (bytes token), principal) ∈ principals) ∧
      at_most_one env state principal db (handle env state principals request db).2
  end.
Proof.
  rewrite handle_credential. destruct (credential _ _) as [p|] eqn:Hc; [|done].
  split; [by apply credential_Some|apply route_permitted].
Qed.

(** C3: tenants are isolated.  Whatever a request says, no row of a tenant
    its credential does not speak for is written, added or removed, in any
    table; a request without a valid credential writes nothing at all. *)
Theorem tenant_isolation `{UuidText, HeaderText, Sha256, PrincipalsJson, Wasmparser, Base64,
    PgTime, LimitsJson, Rfc3339, JsonText} env state principals request db response db' :
  handle env state principals request db = (response, db') →
  match credential principals (rq_authorization request) with
  | None => db' = db
  | Some principal => untouched (principal_tenants principal) db db'
  end.
Proof.
  intros Hh. assert (db' = (handle env state principals request db).2) as -> by by rewrite Hh.
  clear Hh. rewrite handle_credential. destruct (credential _ _) as [p|]; [|done].
  destruct (route_permitted env state p (rq_call request) db) as [->|Hp]; [done|].
  by eapply permitted_untouched.
Qed.

Lemma tenant_isolation_witness :
  (2 ∉ ({[Demo.tenant]} : gset Uuid)) ∧
  db_grants AdmitDemo.queued_db !! (2, 11) = db_grants Demo.child_db !! (2, 11).
Proof.
  assert (2 ∉ ({[Demo.tenant]} : gset Uuid)) as Hne by (vm_compute; by intros [=]).
  split; [exact Hne|].
  pose proof (tenant_isolation ControlDemo.lost ControlDemo.state ControlDemo.principals
    ControlDemo.submit Demo.child_db _ _ ControlDemo.submitted) as Hiso.
  change (rq_authorization ControlDemo.submit) with ControlDemo.authorization in Hiso.
  rewrite ControlDemo.known in Hiso. apply (ag_grants _ _ _ Hiso).
  rewrite ControlDemo.tenants. exact Hne.
Defined.

(** C5: the control plane only makes histories of the store.  From a fresh
    installation, whatever requests it serves, with whatever credentials, bodies
    and lost replies, and however often it sweeps, the database stays one that
    the store's invariants hold of; and a sweep reaps at most 64 leases. *)
Theorem control_reachable `{UuidText, !UuidTextLaws, HeaderText, Sha256, !Sha256Laws,
    PrincipalsJson, Wasmparser, Base64, PgTime, !PgTimeLaws, LimitsJson, Rfc3339, JsonText}
    state principals policy db0 db :
  initial db0 → rtc (control_step state principals policy) db0 db →
  reachable db ∧ db_ok db ∧ ∀ reapings, ((sweep_tick policy reapings db).1 ≤ 64)%nat.
Proof.
  intros Hinit Hsteps. assert (reachable db) as Hr
    by (exists db0; split; [done|by eapply control_steps]).
  split_and!; [done|by apply reachable_ok|]. intros reapings.
  pose proof (sweep_batch_count policy (reapings <$> seq 0 sweep_limit) db) as Hc.
  by rewrite length_fmap, length_seq in Hc.
Qed.

Lemma control_reachable_witness : reachable AdmitDemo.queued_db.
Proof.
  pose proof (ControlDemo.served SysDemo.reap_policy) as Hsteps.
  exact (proj1 (control_reachable _ _ _ _ _ SysDemo.initial_demo Hsteps)).
Defined.

(** C10: a submission can be retried safely.  Once a run was committed for a
    submission, whether or not its reply arrived, sending the same request again,
    at any time and any number of times, changes nothing and is answered with
    that same run; the first reply was that run too, or told the client to
    retry. *)
Theorem retry_admits_once `{UuidText, HeaderText, Sha256, PrincipalsJson, Wasmparser, Base64,
    PgTime, LimitsJson, Rfc3339, JsonText}
    env1 state principals authorization keys payload db r1 db1 :
  let request := mkRequest authorization (PostRuns keys payload) in
  runs_unique db → handle env1 state principals request db = (r1, db1) → db1 ≠ db →
  ∃ view, rv_id view = en_fresh env1 ∧
    r1 = (match en_fate env1 with
          | Acknowledged => reply ACCEPTED (RunBody view)
          | _ => error env1 SERVICE_UNAVAILABLE "STORE_UNAVAILABLE" "Run could not be admitted" true
          end) ∧
    ∀ env2, (handle env2 state principals request db1).2 = db1 ∧
      (en_fate env2 = Acknowledged →
       handle env2 state principals request db1 = (reply OK (RunBody view), db1)).
Proof.
  intros request Hu Hh Hne. unfold request in *.
  destruct (create_run_decides state principals authorization keys payload)
    as [Hstill|(tenant & key & nr & Hrun)]; [exfalso; apply Hne; by rewrite <-(Hstill env1), Hh|].
  rewrite Hrun in Hh. setoid_rewrite Hrun. clear Hrun request.
  unfold respond_with, mbind, act_bind, store_call, mret, act_ret in Hh.
  destruct (submit_run env1 state tenant key nr db) as [[adm d]|e] eqn:Hadm;
    [|by destruct (en_fate env1); injection Hh as _ <-].
  unfold submit_run in Hadm. pose proof (admit_run_Ok _ _ _ _ _ _ _ _ _ _ _ _ Hadm) as (Hparam & _).
  destruct (admit_run_taken_after _ _ _ _ _ _ _ _ _ _ _ _ Hu Hadm)
    as (_ & Hseq & (t & Ht) & id & r & Hkey & Hhash & Hf & Hcase).
  pose proof (fetch_run_by_key_Ok _ _ _ _ _ Hf) as (_ & id' & r' & Hkey' & Hid & _).
  rewrite Hkey in Hkey'. injection Hkey' as <- <-.
  assert (∀ env2, submit_run env2 state tenant key nr d =
    Ok ({| adm_kind := AdmissionExisting; adm_run := adm_run adm |}, d)) as Hagain.
  { intros env2. unfold submit_run. rewrite (admit_run_taken _ _ _ _ _ _ _ _ _ _ _ _ _ Hparam Hseq Ht Hkey).
    apply existing_run_Ok. auto. }
  assert (db1 = d) as -> by (destruct (en_fate env1); injection Hh as _ <-; done).
  destruct Hcase as [[_ ->]|(Hkind & -> & _)]; [done|].
  exists (RunView_from (adm_run adm)). split; [exact Hid|]. split.
  - destruct (en_fate env1); injection Hh as <-; try done.
    unfold admission_response. by rewrite Hkind.
  - intros env2. unfold respond_with, mbind, act_bind, store_call, mret, act_ret.
    rewrite Hagain. destruct (en_fate env2); done.
Qed.

Lemma retry_admits_once_witness :
  ∃ view, rv_id view = 20 ∧
    handle ControlDemo.again ControlDemo.state ControlDemo.principals ControlDemo.submit
      AdmitDemo.queued_db = (reply OK (RunBody view), AdmitDemo.queued_db).
Proof.
  destruct (retry_admits_once ControlDemo.lost ControlDemo.state ControlDemo.principals
    ControlDemo.authorization [bytes "key"] (Ok (render AdmitDemo.request)) Demo.child_db
    ControlDemo.unacknowledged AdmitDemo.queued_db AdmitDemo.unique ControlDemo.submitted
    ControlDemo.changed) as (view & Hid & _ & Hagain).
  exists view. split; [exact Hid|]. apply (proj2 (Hagain ControlDemo.again)). reflexivity.
Defined.

(** C25: an accepted configuration is one the store serves.  The limits of
    every accepted file reach the state of the API, the policy of a claim and
    the policy of the sweeper unchanged, the ones narrowed to bytes included;
    they are caps runs can be
    validated against, and are parameters the scheduler, the admission and the
    reaper never refuse: a claim, a submission or a renewal is refused as
    misconfigured only for what the request itself says; leases outlive their
    renewals, and effects go to loopback or fixture addresses only. *)
Theorem config_serves `{HttpUri, ConfigTomlLaws} b c :
  Config_parse b = Ok c →
  let state := ApiState_new c in
  let l := cf_limits c in
  st_caps state = {| fuel := cl_fuel l; memory_bytes := cl_memory_bytes l;
                     wall_ms := cl_wall_ms l; max_effects := cl_max_effects l |} ∧
  (st_max_pending_global state, st_max_pending_tenant state) =
    (cl_max_pending_global l, cl_max_pending_per_tenant l) ∧
  claim_policy state =
    {| cp_max_active_global := cl_max_active_global l;
       cp_max_active_per_tenant := cl_max_active_per_tenant l;
       cp_max_attempts := cl_max_attempts l; cp_lease_ms := cl_lease_ms l |} ∧
  daemon_reap_policy c =
    {| rp_max_attempts := cl_max_attempts l;
       rp_max_pending_global := cl_max_pending_global l;
       rp_max_pending_tenant := cl_max_pending_per_tenant l |} ∧
  (st_lease_ms state = cl_lease_ms l ∧ cl_heartbeat_ms l < st_lease_ms state) ∧
  Limits_validate (st_caps state) (st_caps state) = Ok (st_caps state) ∧
  reap_parameters_ok (daemon_reap_policy c) = true ∧
  (∀ worker allowed slots,
     claim_parameters_ok worker allowed slots (claim_policy state) = true ↔
     worker_identifier worker = true ∧ (1 ≤ length allowed ≤ Z.to_nat 1024)%nat ∧ 1 ≤ slots ≤ 2) ∧
  in_range 1 6000 (st_lease_ms state) = true ∧
  (∀ key, admission_parameters_ok key (st_max_pending_global state)
            (st_max_pending_tenant state) = true ↔
     key ≠ ""%string ∧ str_len key ≤ 128 ∧ forallb is_ascii_graphic (bytes key) = true) ∧
  map_Forall adapter_ok (cf_adapters c).
Proof.
  intros [[text Htoml] Hv]%Config_parse_Ok state.
  destruct (Config_validate_limits c (toml_u64 _ _ Htoml) Hv).
  pose proof (Config_validate_adapters c Hv) as Hadapters.
  assert (∀ z, 0 ≤ z ≤ 4 → wrap_u8 z = z) as Hwrap by (intros; unfold wrap_u8; apply Z.mod_small; lia).
  unfold state, ApiState_new, daemon_reap_policy, claim_policy. simpl.
  rewrite !Hwrap by lia. split_and!; try done; try lia.
  - apply Limits_validate_Ok_iff; [|split; [done|]].
    + unfold limits_u64, in_range, u64_max in *. simpl. bools. lia.
    + constructor; simpl; unfold MAX_EFFECTS; lia.
  - unfold reap_parameters_ok, in_range. simpl. bools. lia.
  - intros worker allowed slots. assert (allowed ≠ [] ↔ (1 ≤ length allowed)%nat) as Hne
      by (destruct allowed; simpl; split; (done || lia)).
    unfold claim_parameters_ok, in_range. simpl. bools. intuition lia.
  - unfold in_range. bools. lia.
  - intros key. unfold admission_parameters_ok, str_is_empty. bools. intuition lia.
Qed.

Lemma config_serves_witness :
  reap_parameters_ok (daemon_reap_policy ControlDemo.config) = true.
Proof.
  destruct (config_serves [] ControlDemo.config ControlDemo.config_parsed)
    as (_ & _ & _ & _ & _ & _ & Hreap & _).
  exact Hreap.
Defined.

(** C4: tenants are confidential.  What a request other than a claim is
    answered, and what it leaves of its tenants' rows, is the same on any two
    databases (in which no two tenants' runs share an identifier, a fresh one
    included) with the same rows of the tenants its credential speaks for,
    whatever the others hold; a submission is the one request that also learns
    whether the queue all tenants share is full. *)
Theorem tenant_confidentiality `{UuidText, HeaderText, Sha256, PrincipalsJson, Wasmparser, Base64,
    PgTime, LimitsJson, Rfc3339, JsonText} env state principals request principal db1 db2 :
  credential principals (rq_authorization request) = Some principal →
  view (principal_tenants principal) (en_fresh env) db1 db2 →
  (∀ claim, rq_call request ≠ PostClaim claim) →
  (∀ keys payload, rq_call request = PostRuns keys payload →
     pending_global db1 = pending_global db2) →
  (handle env state principals request db1).1 = (handle env state principals request db2).1 ∧
  view (principal_tenants principal) (en_fresh env)
    (handle env state principals request db1).2 (handle env state principals request db2).2.
Proof.
  intros Hc Hv Hclaim Hruns. rewrite !handle_credential, Hc.
  assert (alike (principal_tenants principal) (en_fresh env) db1 db2
    (route env state principal (rq_call request))) as [Hr Hd].
  { apply route_alike; [done|done|done|]. destruct (rq_call request); try done; eauto.
    by destruct (Hclaim request0). }
  unfold respond_with.
  destruct (route env state principal (rq_call request) db1) as [[r1|r1] d1],
    (route env state principal (rq_call request) db2) as [[r2|r2] d2]; simpl in *; simplify_eq; done.
Qed.

Lemma tenant_confidentiality_witness :
  (handle ControlDemo.lost ControlDemo.state ControlDemo.principals ControlDemo.submit
     Demo.child_db).1 =
  (handle ControlDemo.lost ControlDemo.state ControlDemo.principals ControlDemo.submit
     ControlDemo.crowded_db).1.
Proof.
  refine (proj1 (tenant_confidentiality ControlDemo.lost ControlDemo.state
    ControlDemo.principals ControlDemo.submit _ Demo.child_db ControlDemo.crowded_db
    ControlDemo.known ControlDemo.crowded _ (λ _ _ _, ControlDemo.as_full))).
  intros claim [=].
Defined.
