(* ===== verification/Server.v ===== *)
(** * Server: the listener and the daemon around it

    Models [crates/control/src/server.rs] and
    [crates/control/src/bin/effectlatchd.rs]: the accounting of connections, the
    readiness probe, and the daemon: what it checks before it listens, and how it
    ends.  What the runtime, the sockets and the files answer is an argument. *)
From S2P Require Export Plane Schema.

(** ** Connections *)

Record ConnectionStats := mkConnectionStats {
  completed : Z;
  protocol_errors : Z;
  deadline_exceeded : Z;
  task_failures : Z;
  aborted_on_shutdown : Z;
}.
Definition ConnectionStats_default : ConnectionStats := mkConnectionStats 0 0 0 0 0.

(** What a joined task gives: its number, or [None] when it panicked. *)
Abbreviation Joined := (option Z) (only parsing).

Definition record (stats : ConnectionStats) (result : Joined) : ConnectionStats :=
  match result with
  | Some 0 => mkConnectionStats (completed stats + 1) (protocol_errors stats)
      (deadline_exceeded stats) (task_failures stats) (aborted_on_shutdown stats)
  | Some 1 => mkConnectionStats (completed stats) (protocol_errors stats + 1)
      (deadline_exceeded stats) (task_failures stats) (aborted_on_shutdown stats)
  | Some _ => mkConnectionStats (completed stats) (protocol_errors stats)
      (deadline_exceeded stats + 1) (task_failures stats) (aborted_on_shutdown stats)
  | None => mkConnectionStats (completed stats) (protocol_errors stats)
      (deadline_exceeded stats) (task_failures stats + 1) (aborted_on_shutdown stats)
  end.

(** The number a connection's task ends with: served, failed, or past its
    fifteen seconds. *)
Inductive ConnectionEnd := Served | ProtocolFailed | TimedOut.
Definition connection_task (e : ConnectionEnd) : Z :=
  match e with Served => 0 | ProtocolFailed => 1 | TimedOut => 2 end.

Definition MAX_CONNECTIONS : Z := 128.

(** A branch of [tokio::select!] that became ready. *)
Inductive ServeEvent :=
  | ShutdownRequested
  | TaskJoined (result : option ConnectionEnd)
  | ConnectionAccepted
  | AcceptFailed.

(** The loop of [serve] and its variables; [lo_done] is the value it broke
    with: whether accepting failed.  A branch whose [if] is false is not
    polled. *)
Record Listening := mkListening {
  lo_tasks : Z;
  lo_stats : ConnectionStats;
  lo_done : option bool;
}.
Definition Listening_new : Listening := mkListening 0 ConnectionStats_default None.

Definition serve_step (s : Listening) (e : ServeEvent) : Listening :=
  match lo_done s with
  | Some _ => s
  | None =>
    match e with
    | ShutdownRequested => mkListening (lo_tasks s) (lo_stats s) (Some false)
    | TaskJoined result =>
      if lo_tasks s =? 0 then s
      else mkListening (lo_tasks s - 1) (record (lo_stats s) (connection_task <$> result)) None
    | ConnectionAccepted =>
      if lo_tasks s <? MAX_CONNECTIONS then mkListening (lo_tasks s + 1) (lo_stats s) None else s
    | AcceptFailed =>
      if lo_tasks s <? MAX_CONNECTIONS then mkListening (lo_tasks s) (lo_stats s) (Some true) else s
    end
  end.
Definition serve_loop (events : list ServeEvent) : Listening :=
  foldl serve_step Listening_new events.

(** The drain of at most three seconds: the tasks joined within it. *)
Fixpoint drain (joined : list (option ConnectionEnd)) (tasks : Z) (stats : ConnectionStats) :
    Z * ConnectionStats :=
  match joined with
  | [] => (tasks, stats)
  | result :: joined =>
    if tasks =? 0 then (tasks, stats) else drain joined (tasks - 1) (record stats (connection_task <$> result))
  end.

(** [serve] from its break on; the second value is how many tasks are left. *)
Definition serve_end (s : Listening) (accept_failed : bool)
    (joined : list (option ConnectionEnd)) :
    option ConnectionStats * Z :=
  let '(tasks, stats) := drain joined (lo_tasks s) (lo_stats s) in
  let stats :=
    if tasks =? 0 then stats
    else mkConnectionStats (completed stats) (protocol_errors stats) (deadline_exceeded stats)
           (task_failures stats) tasks in
  (if accept_failed then None else Some stats, 0).

(** [serve]; [None] while it is still listening. *)
Definition serve (events : list ServeEvent) (joined : list (option ConnectionEnd)) :
    option (option ConnectionStats * Z) :=
  let s := serve_loop events in
  match lo_done s with
  | Some accept_failed => Some (serve_end s accept_failed joined)
  | None => None
  end.

(** [ready]: the probe answers the local host only; it looks at the directory
    and the table as they are now. *)
Definition ready (peer_is_loopback : bool) (directory : option (list MigrationFile))
    (table : option (list Applied)) : StatusCode :=
  if negb peer_is_loopback then FORBIDDEN
  else match check_schema directory table with Ok _ => OK | Err _ => SERVICE_UNAVAILABLE end.

(** [router]: the probes answer without a credential, and everything else is the
    control plane's. *)
Inductive Endpoint :=
  | HealthLive
  | HealthReady (peer_is_loopback : bool) (directory : option (list MigrationFile))
      (table : option (list Applied))
  | Routed (request : Request).

Definition router `{UuidText, HeaderText, Sha256, PrincipalsJson, Wasmparser, Base64, PgTime,
    LimitsJson, Rfc3339, JsonText} (env : Env) (config : Config)
    (principals : list (list byte * Principal)) (endpoint : Endpoint) :
    Db → (StatusCode + Response) * Db := λ db,
  match endpoint with
  | HealthLive => (inl OK, db)
  | HealthReady peer_is_loopback directory table =>
    (inl (ready peer_is_loopback directory table), db)
  | Routed request =>
    let '(response, db) := handle env (ApiState_new config) principals request db in
    (inr response, db)
  end.

(** Nothing is changed without a credential, and a probe of another host learns
    nothing of the database. *)
Lemma router_unauthenticated `{UuidText, HeaderText, Sha256, PrincipalsJson, Wasmparser, Base64,
    PgTime, LimitsJson, Rfc3339, JsonText} env config principals endpoint db :
  match endpoint with
  | Routed request => credential principals (rq_authorization request) = None
  | _ => True
  end →
  ∃ answer, router env config principals endpoint db = (answer, db) ∧
    (∀ directory table, endpoint = HealthReady false directory table → answer = inl FORBIDDEN) ∧
    (∀ request, endpoint = Routed request → ∃ r, answer = inr r ∧ rs_status r = UNAUTHORIZED).
Proof.
  destruct endpoint as [|peer directory table|request]; intros Hc; simpl.
  - eexists. split; [done|]. by split.
  - eexists. split; [done|]. split; [|done]. by intros ? ? [= -> _ _].
  - rewrite handle_credential, Hc. eexists. split; [done|]. split; [done|].
    intros request' _. by eexists.
Qed.

(** ** The daemon *)

Inductive DaemonError :=
  | DaemonIo
  | NotRegular
  | ExceedsLimit
  | Usage
  | BadConfig
  | MissingPrincipals
  | BadPrincipals (e : AuthError)
  | MissingUrl
  | BadUrl
  | StoreError (e : Error).

(** [read_bounded]; metadata is whether the path is a regular file; [None] is
    an I/O error. *)
Definition read_bounded (metadata : option bool) (contents : option (list byte)) (limit : Z) :
    result DaemonError (list byte) :=
  is_file ← ok_or metadata DaemonIo;
  fail_if (negb is_file) NotRegular;;
  contents ← ok_or contents DaemonIo;
  let b := take (Z.to_nat (limit + 1)) contents in
  fail_if (limit <? Z.of_nat (length b)) ExceedsLimit;;
  mret b.

(** What the daemon's process finds. *)
Record Launched := mkLaunched {
  ln_args : list string;
  ln_config : option bool * option (list byte);
  ln_principals_set : bool;
  ln_principals : result AuthError (list (list byte * Principal));
  ln_url_set : bool;
  ln_url : option bool * option (list byte);
  ln_connect : bool;
  ln_directory : option (list MigrationFile);
  ln_table : option (list Applied);
  ln_bind : bool;
}.

Section daemon.
Context `{HttpUri, ConfigToml}.

(** [run] up to its store. *)
Definition daemon_open (l : Launched) :
    result DaemonError (Config * list (list byte * Principal)) :=
  fail_if (negb (Z.of_nat (length (ln_args l)) =? 2)
           || negb (bool_decide (head (ln_args l) = Some "--config"%string))) Usage;;
  b ← read_bounded (ln_config l).1 (ln_config l).2 65536;
  config ← map_err (λ _, BadConfig) (Config_parse b);
  fail_if (negb (ln_principals_set l)) MissingPrincipals;;
  principals ← map_err BadPrincipals (ln_principals l);
  fail_if (negb (ln_url_set l)) MissingUrl;;
  url ← read_bounded (ln_url l).1 (ln_url l).2 4096;
  ok_or (from_utf8 url) BadUrl;;
  map_err StoreError (connect 16 (ln_connect l));;
  mret (config, principals).

(** The head of the block [run] closes its store after. *)
Definition daemon_listen (l : Launched) : result DaemonError unit :=
  map_err StoreError (check_schema (ln_directory l) (ln_table l));;
  fail_if (negb (ln_bind l)) DaemonIo.

(** What [run] does to the sweeper and the store. *)
Inductive DaemonAction :=
  | SweeperSpawned (policy : ReapPolicy)
  | StopSent
  | SweeperJoined
  | SweeperAborted
  | StoreClosed.

(** [run]; [None] while it serves.  [in_time] is whether the sweeper ended in
    the three seconds it is given. *)
Definition daemon_run (l : Launched) (events : list ServeEvent)
    (joined : list (option ConnectionEnd)) (in_time : bool) :
    option (result DaemonError ConnectionStats * list DaemonAction) :=
  match daemon_open l with
  | Err e => Some (Err e, [])
  | Ok (config, principals) =>
    match daemon_listen l with
    | Err e => Some (Err e, [StoreClosed])
    | Ok _ =>
      match serve events joined with
      | None => None
      | Some (served, _) =>
        Some (ok_or served DaemonIo,
              [SweeperSpawned (daemon_reap_policy config); StopSent;
               if in_time then SweeperJoined else SweeperAborted; StoreClosed])
      end
    end
  end.

(** [main]: the exit status of the process; [runtime] is whether [tokio]'s
    runtime could be built. *)
Definition daemon_main (runtime : bool) (l : Launched) (events : list ServeEvent)
    (joined : list (option ConnectionEnd)) (in_time : bool) : option Z :=
  if negb runtime then Some 2
  else (λ '(result, _), match result with Ok _ => 0 | Err _ => 2 end)
         <$> daemon_run l events joined in_time.
End daemon.

(** ** Every connection is accounted for *)

Definition settled (stats : ConnectionStats) : Z :=
  completed stats + protocol_errors stats + deadline_exceeded stats + task_failures stats.

Record listening_ok (accepted : Z) (s : Listening) : Prop := {
  lk_tasks : 0 ≤ lo_tasks s ≤ MAX_CONNECTIONS;
  lk_settled : settled (lo_stats s) + lo_tasks s = accepted;
  lk_aborted : aborted_on_shutdown (lo_stats s) = 0;
}.

(** The connections the loop took on. *)
Definition takes (s : Listening) (e : ServeEvent) : bool :=
  match e, lo_done s with
  | ConnectionAccepted, None => lo_tasks s <? MAX_CONNECTIONS
  | _, _ => false
  end.
Fixpoint accepted (s : Listening) (events : list ServeEvent) : Z :=
  match events with
  | [] => 0
  | e :: events => (if takes s e then 1 else 0) + accepted (serve_step s e) events
  end.

Lemma record_settled stats result :
  settled (record stats result) = settled stats + 1 ∧
  aborted_on_shutdown (record stats result) = aborted_on_shutdown stats.
Proof.
  unfold settled, record. destruct result as [[|[]|]|]; simpl; lia.
Qed.

Lemma serve_step_ok n s e :
  listening_ok n s → listening_ok (n + if takes s e then 1 else 0) (serve_step s e).
Proof.
  intros [Ht Hs Ha]. unfold serve_step, takes.
  destruct (lo_done s) eqn:Hd; [destruct e; split; lia|].
  destruct e as [|result| |]; simpl; [split; simpl; lia|..].
  - case_bool (lo_tasks s =? 0); [split; lia|].
    destruct (record_settled (lo_stats s) (connection_task <$> result)). split; simpl; lia.
  - case_bool (lo_tasks s <? MAX_CONNECTIONS); split; simpl; lia.
  - case_bool (lo_tasks s <? MAX_CONNECTIONS); split; simpl; lia.
Qed.

Lemma serve_loop_ok events n s :
  listening_ok n s → listening_ok (n + accepted s events) (foldl serve_step s events).
Proof.
  revert n s. induction events as [|e events IH]; intros n s Hs; simpl.
  - by rewrite Z.add_0_r.
  - rewrite Z.add_assoc. by apply IH, serve_step_ok.
Qed.

Lemma drain_ok joined tasks stats tasks' stats' :
  0 ≤ tasks → drain joined tasks stats = (tasks', stats') →
  0 ≤ tasks' ≤ tasks ∧ settled stats' + tasks' = settled stats + tasks ∧
  aborted_on_shutdown stats' = aborted_on_shutdown stats.
Proof.
  revert tasks stats. induction joined as [|r joined IH]; intros tasks stats Ht Hd; simpl in Hd.
  - injection Hd as <- <-. lia.
  - case_bool (tasks =? 0); [injection Hd as <- <-; lia|].
    apply IH in Hd; [|lia]. destruct (record_settled stats (connection_task <$> r)). lia.
Qed.

Lemma read_bounded_Ok metadata contents limit b :
  0 ≤ limit → read_bounded metadata contents limit = Ok b ↔
  metadata = Some true ∧ contents = Some b ∧ Z.of_nat (length b) ≤ limit.
Proof.
  intros Hl. unfold read_bounded. rewrite bind_Ok. setoid_rewrite ok_or_Ok.
  setoid_rewrite guard_Ok. setoid_rewrite bind_Ok. setoid_rewrite ok_or_Ok.
  setoid_rewrite guard_Ok. setoid_rewrite negb_false_iff. split.
  - intros (f & -> & -> & c & -> & Hb & [= <-]). rewrite Z.ltb_ge, length_take in Hb.
    rewrite take_ge by lia. split_and!; [done|done|lia].
  - intros (-> & -> & Hb). exists true. split; [done|]. split; [done|]. exists b.
    rewrite take_ge by lia. split_and!; [done|by apply Z.ltb_ge|done].
Qed.

(** ** Properties *)

(** C27: the listener never serves more than 128 connections at once, and
    accounts for every one.  At any moment, the tasks still running and the ones
    settled as completed, failed, past their deadline or panicked are together
    the connections accepted; and when it returns its statistics, those and the
    connections it aborted on shutdown are, and no task is left. *)
Theorem connections_accounted events joined :
  let s := serve_loop events in
  0 ≤ lo_tasks s ≤ MAX_CONNECTIONS ∧
  settled (lo_stats s) + lo_tasks s = accepted Listening_new events ∧
  (∀ returned tasks, serve events joined = Some (returned, tasks) →
     tasks = 0 ∧
     (returned = None ↔ lo_done s = Some true) ∧
     ∀ stats, returned = Some stats →
       settled stats + aborted_on_shutdown stats = accepted Listening_new events ∧
       0 ≤ aborted_on_shutdown stats ≤ MAX_CONNECTIONS) ∧
  (lo_done s ≠ None ↔ is_Some (serve events joined)).
Proof.
  intros s. assert (listening_ok (accepted Listening_new events) s) as [Ht Hs Ha].
  { apply (serve_loop_ok events 0). by split. }
  unfold serve. change (serve_loop events) with s. split_and!; try (done || lia).
  - intros returned tasks. destruct (lo_done s) as [failed|]; [|done].
    unfold serve_end. destruct (drain joined (lo_tasks s) (lo_stats s)) as [left stats0] eqn:Hd.
    apply drain_ok in Hd as (Hl & Hsum & Hab); [|lia]. intros [= <- <-].
    split; [done|]. split; [destruct failed; naive_solver|].
    intros stats Hst. destruct failed; [done|]. injection Hst as <-.
    case_bool (left =? 0); unfold settled in *; simpl; lia.
  - destruct (lo_done s); rewrite <-not_eq_None_Some; naive_solver.
Qed.

Lemma connections_accounted_witness :
  let events := [ConnectionAccepted; ConnectionAccepted; TaskJoined (Some Served);
                 ConnectionAccepted; ShutdownRequested] in
  let stats := mkConnectionStats 1 0 0 1 1 in
  serve events [None] = Some (Some stats, 0) ∧
  settled stats + aborted_on_shutdown stats = accepted Listening_new events.
Proof.
  intros events stats. assert (serve events [None] = Some (Some stats, 0)) as Hs by reflexivity.
  split; [exact Hs|].
  destruct (proj1 (proj2 (proj2 (connections_accounted events [None]))) _ _ Hs)
    as (_ & _ & Hstats).
  exact (proj1 (Hstats stats eq_refl)).
Defined.

(** The daemon opens its store only when everything it was given is in order:
    its arguments, a configuration of at most 64 KiB that is accepted, principals
    that load, and a database it reaches. *)
Lemma daemon_open_Ok `{HttpUri, ConfigToml} l config principals :
  daemon_open l = Ok (config, principals) ↔
  (∃ path, ln_args l = ["--config"%string; path]) ∧
  (∃ b, ln_config l = (Some true, Some b) ∧ Z.of_nat (length b) ≤ 65536 ∧
     Config_parse b = Ok config) ∧
  ln_principals_set l = true ∧ ln_principals l = Ok principals ∧
  ln_url_set l = true ∧
  (∃ url, ln_url l = (Some true, Some url) ∧ Z.of_nat (length url) ≤ 4096 ∧
     is_Some (from_utf8 url)) ∧
  ln_connect l = true.
Proof.
  unfold daemon_open. rewrite guard_Ok, orb_false_iff, !negb_false_iff, Z.eqb_eq,
    bool_decide_eq_true, bind_Ok.
  setoid_rewrite read_bounded_Ok; [|done..]. split.
  - intros ([Hlen Hhead] & b & (Hm & Hc & Hb) & Hrest).
    apply bind_Ok in Hrest as (c & Hp%map_err_Ok & [Hps%negb_false_iff Hrest]%guard_Ok).
    apply bind_Ok in Hrest as (ps & Hl%map_err_Ok & [Hus%negb_false_iff Hrest]%guard_Ok).
    apply bind_Ok in Hrest as (url & (Hum & Huc & Hub)%read_bounded_Ok & Hrest); [|done].
    apply bind_Ok in Hrest as (t & Ht%ok_or_Ok & Hrest).
    apply seq_Ok in Hrest as [Hcn%map_err_Ok [= <- <-]].
    split_and!; try done.
    + destruct (ln_args l) as [|a [|p [|]]]; simpl in *; try lia. injection Hhead as ->. by exists p.
    + exists b. by destruct (ln_config l); simpl in *; subst.
    + exists url. split_and!; [by destruct (ln_url l); simpl in *; subst|done|by eexists].
    + by destruct (ln_connect l).
  - intros ((path & Ha) & (b & Hcf & Hb & Hp) & Hps & Hl & Hus & (url & Hu & Hub & t & Ht) & Hcn).
    split; [by rewrite Ha|]. exists b. rewrite Hcf. split; [done|].
    rewrite Hp, Hps, Hl, Hus. simpl. apply bind_Ok. exists url. rewrite Hu.
    split; [by apply read_bounded_Ok|]. by rewrite Ht, Hcn.
Qed.

Lemma daemon_listen_Ok l :
  daemon_listen l = Ok () ↔
  check_schema (ln_directory l) (ln_table l) = Ok () ∧ ln_bind l = true.
Proof.
  unfold daemon_listen. rewrite seq_Ok, map_err_Ok, fail_if_Ok, negb_false_iff.
  split; [by intros [Hc Hb]; split|by intros [Hc Hb]].
Qed.

(** The life of the daemon.  It exits with success exactly when it opened its
    store, was let through by the schema gate, bound its address, and was asked
    to stop before accepting a connection failed; and once its store was opened,
    closing it is the last thing it does, on every path. *)
Theorem daemon_life `{HttpUri, ConfigToml} l events joined in_time r actions :
  daemon_run l events joined in_time = Some (r, actions) →
  (daemon_main true l events joined in_time = Some 0 ↔
   is_ok (daemon_open l) ∧ daemon_listen l = Ok () ∧ lo_done (serve_loop events) = Some false) ∧
  (is_ok (daemon_open l) ↔ last actions = Some StoreClosed).
Proof.
  unfold daemon_main. intros Hrun. rewrite Hrun. simpl. revert Hrun. unfold daemon_run.
  destruct (daemon_open l) as [[config principals]|e]; simpl;
    [|intros [= <- <-]; simpl; naive_solver].
  destruct (daemon_listen l) as [[]|e]; [|intros [= <- <-]; simpl; naive_solver].
  unfold serve. destruct (lo_done (serve_loop events)) as [failed|]; [|done].
  unfold serve_end. destruct (drain _ _ _) as [left stats].
  destruct failed; intros [= <- <-]; simpl; naive_solver.
Qed.
